(* ===== verification/_CoqProject ===== *)
-Q . S2P
Prelude.v
GoStrings.v
GoCrypto.v
Fiber.v
GoFloat.v
GoJson.v
ApiError.v
Webhook.v
ApiKey.v
FeatureFlag.v
RedisServer.v
Lock.v
Outbox.v
Inbox.v
TokenStore.v
Jwt.v
Auth.v
Http.v
Retry.v
Parser.v
Pagination.v
Uploader.v
Health.v
Events.v
DbResolver.v
Config.v
I18n.v
WsHub.v
Generator.v
Cache.v
OpenApiSchema.v
OpenApiExact.v
OpenApiConform.v
OpenApi.v
GoFloatFacts.v
RateLimit.v
RedisClient.v
Server.v
Bootstrap.v
Sse.v
Migrate.v
Slug.v
AuditLog.v
Jobs.v
Mailer.v
Database.v
WsConn.v
GoUrl.v
PageLinks.v
Metrics.v
Validation.v
OutboxRun.v
Cli.v
FibrTest.v
HttpForms.v
Sessions.v
CacheFlight.v
CacheJanitor.v
Delivery.v
Observability.v
ExampleApi.v
SessionLife.v
ExampleAuth.v
ExampleApps.v
Transactional.v
Docs.v
Tables.v
JobsRun.v
