(* ===== verification/Prelude.v ===== *)
(** * Verification of fibr: a toolkit of Go packages for Fiber services

    This file is the root of the development and its prelude. The repository is a set of Go
    packages (one directory of src/ each) that a web service built on Fiber composes: HTTP
    errors, authentication, caching, messaging, resilience and data access, and cmd/fibr, a
    project generator. Most packages are small state machines around a service (Redis, SQL, a
    token library): the development models each package's own logic as executable definitions
    and takes the services as interfaces (type classes) with the laws their documentation gives.

    ** Conventions

    Integers are [Z], with [wrap64], [wrapu] and the saturating [time_sub] written out where the
    code can leave a machine word; times and durations are nanoseconds, read from explicit clock
    arguments. Strings are byte strings ([String.string]). A Go error result is an [option
    error], a pair (value, error) a sum. State is passed explicitly; a client call over the
    network takes a [net] fate (it succeeds, loses the request, or loses the reply after the
    server has acted), so theorems about failures range over all of them. Random bytes, map
    iteration orders, arrival orders of goroutines and interleavings are arguments too. Each
    property has a concrete witness, [<theorem>_witness], where it has hypotheses; the laws of an
    interface are met by an instance in the same file. Case mapping and trimming are those of
    ASCII text. Sentinel texts are the code's own; texts of third-party errors are abbreviated.

    ** Files

    - Prelude: machine words, errors ([errors.Is], [errors.Join]), network fates, list lemmas, the
      hint database [go] and its rewriting twin.
    - GoStrings, GoFloat, GoCrypto, GoJson: what the packages use of Go's standard library, all
      executable: strings, strconv, hex; float64 on SpecFloat, ParseFloat, ParseDuration; SHA-256
      (its constants computed from the primes), HMAC, FNV-1a; JSON encoding and decoding of
      dynamic values and base64url, with round trips.
    - Fiber: what the handlers use of a request context, and response/response.go.
    - ApiError (apierror, metrics' status label, bind, validator's messages): errors as trees;
      every reply is an envelope and unknown errors never leak.
    - Webhook: Sign and Verify round trip, tolerance window, binding of the payload.
    - ApiKey: key generation, middleware and scope guard. FeatureFlag: rules, rollout, providers.
    - RedisServer: the interface of a Redis server (SET NX, GET, DEL, PEXPIRE, the two lock
      scripts) with its laws and an in-memory instance. Lock: leases on it (mutual exclusion,
      owner-only release, Do, Acquire).
    - Outbox and Inbox: at-least-once publication in order, exactly-once processing, over
      interfaces of the table, the publisher and the transaction.
    - TokenStore (auth/store*.go): the Store interface as a class, its memory and Redis
      implementations. Jwt (jwt/jwt.go) over the interface of the token library. Auth: Issue,
      Refresh with rotation and reuse detection, Logout, the middlewares; theorems on single use,
      family revocation, logout and route protection over any sequence of operations.
    - Http (http/http.go, breaker.go): the attempt loop, and the breaker refining an abstract
      closed/open/half-open machine. Retry: Do and its back-off.
    - Parser and Pagination: query building without injection, cursors, and keyset sweeps that
      return the whole table forwards and pages backwards.
    - Uploader: path sanitizing and both uploaders; uploads cannot leave their directory.
    - Health: readiness under every arrival order and timeout. Events: the bus, with handlers that
      subscribe while it delivers. DbResolver: round-robin reads.
    - Config: loading fields against an independent reading of their texts, with full error
      reports, no truncation, and the panics of reflection. I18n: catalogue,
      placeholders, plurals and locale negotiation.
    - WsHub (ws): hub and connections as interleaved atomic steps; no panic, FIFO delivery, and
      what the backplane delivers, over a bus that may lose, repeat and reorder messages: once per
      replica when the bus delivers once.
    - Generator (cmd/fibr): options, plans, Generate and AddModule over a file system whose writes
      can fail half way and whose removals can fail: all or nothing, never overwriting.
    - Cache: the pointer structure of the LRU cache refines an abstract LRU cache.
    - OpenApiSchema (openapi/schema.go): Go types as reflection shows them, struct tags, the table of
      components and the walk that describes a type, with its termination. OpenApiExact: the walk
      equals a table-free reference. OpenApiConform: what encoding/json writes for a value has the
      shape of its schema. OpenApi (openapi.go, spec_model.go, handlers.go): registration, paths and
      the served document, whose references are all defined.
    - GoFloatFacts: floor, comparison and truncation of doubles as facts of Z. RateLimit (ratelimit):
      the token-bucket script on doubles, Allow and the middleware.
    - RedisClient (redis): typed values, Remember, publish and subscribe, and the Fiber storage over
      an interface of string keys, scanning page by page while keys change, and deleting.
    - Server (server): graceful shutdown. Bootstrap (bootstrap, middleware): New with its middlewares
      as a chain of routes, Mount, recovery and the request log.
    - Sse (sse): the stream writer against the event stream interpretation of the HTML standard.
    - Migrate (migrate): Up, Down and Status as steps of processes that share one lock.
    - Slug, AuditLog, Jobs, Mailer, Database: the packages of those names over interfaces of their
      libraries: slug attempts, audit records and filters, queue options and schedules, SMTP
      addresses and messages, connection strings and pool settings.
    - WsConn (ws/conn.go, and Hub.Close): closing a hub flushes every connection.
    - GoUrl (net/url's queries) and PageLinks (pagination's Link header): links that lead back.
    - Metrics (metrics) and Validation (validator): the request counters with their labels, and the
      translation of validation errors.
    - OutboxRun (outbox's Run): the relay loop drains the outbox.
    - Cli (cmd/fibr/main.go): flags, defaults, commands and exit status of the generator.
    - FibrTest (fibrtest): the request builder and its expectations.
    - HttpForms (http's PostMultipart and FireAndForget): forms that arrive as they were given.
    - Sessions (auth/issuer.go again): Issue, Refresh and Logout as processes that interleave at each
      call of the store; each alone is its function in Auth. Single use and revocation under
      concurrency, and the race that undoes a logout.
    - SessionLife: a session refreshed in time lasts, whatever the others do. ExampleAuth (auth.go's
      passwords, examples/auth): the demo prints what it promises.
    - CacheFlight (cache's GetOrLoad): concurrent callers over singleflight; one load, one value.
      CacheJanitor: sweeping and Close at any moment are invisible on a cache without a bound.
    - Delivery: relay, broker and inbox end to end, exactly once. Transactional: with the business
      transactions that enqueue the events and relays whose passes interleave call by call, as a step
      relation with its invariant.
    - Observability (logger, tracing, the contexts of middleware/ and context/): what is written to
      which log line, what Setup installs, the deadline and identifier of a request.
    - ExampleApi (examples/api): a service out of ApiKey, FeatureFlag, Cache, Events and AuditLog,
      which answers as if it kept nothing. Docs (openapi/handlers.go): the Swagger UI page as a browser
      reads it, and the way from it to the document that SpecHandler serves through an app. Tables (the Migrate functions of
      outbox and inbox): runs cut off anywhere and repeated. ExampleApps: the greeting behind
      Bootstrap, the mailer and the queue examples. JobsRun (jobs.go's client and server): what
      becomes of a job through its attempts, up to its deadline.

    ** How the components interact

    A client of an interface is proved against the class and runs on an instance: Lock, Outbox,
    RedisClient and TokenStore on RedisServer's classes, Auth on TokenStore and Jwt. Others call the
    definitions of the file below them: Pagination those of Parser, PageLinks those of Pagination and
    GoUrl, OutboxRun those of Outbox, WsConn those of WsHub, OpenApi those of OpenApiSchema, Bootstrap
    those of Server, Health and I18n, AuditLog those of Bootstrap, Jobs those of RedisClient, JobsRun
    those of Jobs, Cli those of Generator, HttpForms those of Http, Sessions those of Auth, CacheFlight those of Cache,
    Delivery and Transactional those of OutboxRun, Outbox and Inbox, ExampleApi those of five packages,
    Docs those of Bootstrap and OpenApi. Bootstrap takes the rate limiter and the OpenAPI routes as handlers.
    Requests meet handlers in Fiber's [chain].

    ** Kinds of theorems

    Refinements (Cache, Http's breaker, RateLimit's bucket, ExampleApi), equivalence with a reference
    (OpenApiExact), invariants over all operation sequences or interleavings (Lock, Auth,
    Sessions, CacheFlight, Inbox, Outbox, WsHub, Migrate, OpenApi, Transactional), types
    (OpenApiConform), termination (OpenApiSchema, JobsRun), full functional specifications on every
    branch (Http's attempts, Retry, Health, Config, Generator, Server, FibrTest), composition of packages
    (Delivery, Transactional, ExampleApi, Docs), round trips (Webhook, cursors, JSON, base64, URL queries,
    Link headers, server-sent events, multipart forms), bounds (Pagination, RateLimit, breaker admission), errors (Generator,
    Bootstrap.Mount, Config), liveness (Lock.Acquire, OutboxRun, WsConn,
    SessionLife).

    ** Fuel and bounds

    JSON parsing recurses with the text's length as fuel, which the round-trip theorems show to be
    enough for every encoded value; ParseDuration's fuel is proved enough for every text
    ([duration_items_fuel]); Pagination's sweep takes more fuel than rows, a hypothesis of its
    theorem. Decimal printing uses the binary logarithm as fuel ([log2_fuel]). The schema walk has a
    depth that [schemaFor_total] shows to be reached. The readers of links and forms take the text's
    length, shown enough by their round trips. Loops with an attempt bound recurse on it; loops that
    serve until told to stop (the relay, a subscription) take the list of what they meet.

    ** Not modelled

    Third-party code: Fiber, go-redis, bun, golang-jwt, fasthttp, asynq, Prometheus, OpenTelemetry,
    validator, minio, cobra, zerolog: parameters or interfaces. The generator's templates are data.
    Left out of modelled packages: opening connections (database, redis, fibrtest's SQLite), the texts of errors where only their kind matters, and memory effects between
    goroutines other than at the locked sections modelled. Types that are recursive without passing
    through a named struct, on which the schema walk overflows (lemma [defined_map_overflows]), and
    types with marshalers of their own are outside OpenApiSchema and OpenApiConform. JobsRun takes a
    server that keeps running and its tasks' leases: asynq's recovery of tasks of a server that died
    is asynq's. What [go mod tidy] and [git init] do to a generated project is a parameter. *)

From Stdlib Require Export ZArith Lia Ascii String.
From stdpp Require Export base list gmap strings sorting.

#[local] Open Scope Z_scope.

Create HintDb go.
Create Rewrite HintDb go.

(** * Machine integers: Go's [int], [int64] and [time.Duration] are 64 bit, two's complement. *)

Definition int_min : Z := - 2 ^ 63.
Definition int_max : Z := 2 ^ 63 - 1.

(** The value a 64-bit signed register holds after an operation whose exact result is [z]. *)
Definition wrap64 (z : Z) : Z := (z + 2 ^ 63) mod 2 ^ 64 - 2 ^ 63.

(** Unsigned wrap-around at width [w]. *)
Definition wrapu (w z : Z) : Z := z mod 2 ^ w.

Definition in_int (z : Z) : Prop := int_min <= z <= int_max.
#[export] Instance in_int_dec z : Decision (in_int z).
Proof. unfold in_int. apply _. Defined.

Definition Second : Z := 1000000000.
Definition Millisecond : Z := 1000000.
Definition Minute : Z := 60 * Second.

(** [time.Time.Sub] saturates instead of wrapping. *)
Definition time_sub (t u : Z) : Z := Z.max int_min (Z.min int_max (t - u)).

(** * Go errors *)

(** [Err] is a value made by [errors.New] (two sentinels are told apart by their text, which
    the packages keep distinct), [Wrap] one made by [fmt.Errorf] with [%w] verbs, [Join] one
    made by [errors.Join]. A Go [error] result is an [option error]; [None] is [nil]. *)
#[warnings="-register-all"]
Inductive error :=
| Err (text : string)
| Wrap (text : string) (causes : list error)
| Join (causes : list error).

(** [errors.Is] against a sentinel: the error itself or anything it wraps. *)
Fixpoint errors_is (e : error) (sentinel : string) : bool :=
  match e with
  | Err t => String.eqb t sentinel
  | Wrap _ cs => existsb (fun c => errors_is c sentinel) cs
  | Join cs => existsb (fun c => errors_is c sentinel) cs
  end.

(** [errors.Join] drops nil errors and is nil when nothing is left. *)
Definition errors_join (es : list (option error)) : option error :=
  match omap id es with [] => None | es' => Some (Join es') end.

(** * Calls to remote services *)

(** A client call over the network: it succeeds, or fails before or after the server has run it. *)
Inductive net := NetOk | LostRequest (e : error) | LostReply (e : error).

Definition call {S A} (n : net) (f : S -> A * S) (s : S) : (error + A) * S :=
  match n with
  | NetOk => let '(a, s') := f s in (inr a, s')
  | LostRequest e => (inl e, s)
  | LostReply e => (inl e, (f s).2)
  end.

Lemma call_state {S A} n (f : S -> A * S) s :
  (call n f s).2 = s \/ (call n f s).2 = (f s).2.
Proof. destruct n; simpl; [right; by destruct (f s)|by left|by right]. Qed.

(** A call whose result is itself a Go result. *)
Definition remote {S A} (n : net) (f : S -> (error + A) * S) (s : S) : (error + A) * S :=
  let '(r, s) := call n f s in (match r with inl e => inl e | inr r => r end, s).

Lemma remote_cases {S A} (n : net) (f : S -> (error + A) * S) (s : S) :
  (exists e, remote n f s = (inl e, s)) \/ (exists e, remote n f s = (inl e, (f s).2)) \/ (n = NetOk /\ remote n f s = f s).
Proof.
  unfold remote. destruct n as [|e|e]; cbn [call]; [|left; by exists e|right; left; by exists e].
  right. right. split; [done|]. by destruct (f s).
Qed.

(** * Automation shared by the components *)

(** Split the boolean tests of the code into the facts they decide. *)
Ltac bool_cases :=
  repeat match goal with
  | H : context [Z.eqb ?x ?y] |- _ => destruct (Z.eqb_spec x y); simpl in H
  | H : context [Z.ltb ?x ?y] |- _ => destruct (Z.ltb_spec x y); simpl in H
  | H : context [Z.leb ?x ?y] |- _ => destruct (Z.leb_spec x y); simpl in H
  | |- context [Z.eqb ?x ?y] => destruct (Z.eqb_spec x y); simpl
  | |- context [Z.ltb ?x ?y] => destruct (Z.ltb_spec x y); simpl
  | |- context [Z.leb ?x ?y] => destruct (Z.leb_spec x y); simpl
  | |- context [String.eqb ?x ?y] => destruct (String.eqb_spec x y); simpl
  end; try subst.

(** Destruct the innermost [match] scrutinee of the goal, keeping the equation. *)
Ltac case_match_goal :=
  match goal with
  | |- context [match ?x with _ => _ end] =>
      lazymatch x with
      | context [match _ with _ => _ end] => fail
      | _ => destruct x eqn:?
      end
  end.

Ltac split_all := repeat match goal with |- _ /\ _ => split end.

(** * Integers *)

Lemma wrap64_id z : in_int z -> wrap64 z = z.
Proof. unfold in_int, int_min, int_max, wrap64. intros H. rewrite Z.mod_small; lia. Qed.

Lemma wrap64_range z : in_int (wrap64 z).
Proof.
  unfold in_int, int_min, int_max, wrap64.
  pose proof (Z.mod_pos_bound (z + 2 ^ 63) (2 ^ 64) ltac:(lia)). lia.
Qed.

Lemma time_sub_range t u : in_int (time_sub t u).
Proof. unfold in_int, time_sub, int_min, int_max. lia. Qed.

(** * Lists *)

Lemma omap_map_some {A B} (f : A -> B) (g : A -> option B) (l : list A) :
  (forall x, x ∈ l -> g x = Some (f x)) -> omap g l = map f l.
Proof.
  induction l as [|x l IH]; intros H; csimpl; [done|].
  rewrite (H x) by set_solver. csimpl. rewrite IH; [done|]. set_solver.
Qed.

Lemma omap_all_some {A B} (f : A -> option B) (l : list A) :
  (forall x, x ∈ l -> is_Some (f x)) -> length (omap f l) = length l.
Proof.
  induction l as [|x l IH]; intros H; csimpl; [done|].
  destruct (H x) as [y Hy]; [set_solver|]. rewrite Hy. csimpl. rewrite IH; [done|]. set_solver.
Qed.

Lemma omap_ext_in {A B} (f g : A -> option B) (l : list A) :
  (forall x, x ∈ l -> f x = g x) -> omap f l = omap g l.
Proof.
  induction l as [|x l IH]; intros H; csimpl; [done|].
  rewrite (H x) by set_solver. csimpl. rewrite IH; [done|]. set_solver.
Qed.

Lemma filter_all {A} (P : A -> Prop) `{Hd : !forall x, Decision (P x)} (l : list A) :
  (forall x, x ∈ l -> P x) -> filter P l = l.
Proof.
  induction l as [|x l IH]; intros H; csimpl; [done|].
  rewrite filter_cons_True by (apply H; set_solver). rewrite IH; [done|]. set_solver.
Qed.

Lemma filter_none {A} (P : A -> Prop) `{Hd : !forall x, Decision (P x)} (l : list A) :
  (forall x, x ∈ l -> ~ P x) -> filter P l = [].
Proof.
  induction l as [|x l IH]; intros H; csimpl; [done|].
  rewrite filter_cons_False by (apply H; set_solver). apply IH. set_solver.
Qed.

Lemma fold_left_inv {A S} (I : S -> Prop) (f : S -> A -> S) (l : list A) s :
  I s -> (forall s x, x ∈ l -> I s -> I (f s x)) -> I (fold_left f l s).
Proof.
  revert s; induction l as [|x l IH]; intros s Hs Hf; simpl; [done|].
  apply IH; [apply Hf; set_solver|]. intros; apply Hf; set_solver.
Qed.

Lemma omap_filter_comm {A B} (f : A -> option B) (P : A -> Prop) (Q : B -> Prop)
    `{HP : !forall x, Decision (P x)} `{HQ : !forall x, Decision (Q x)} (l : list A) :
  (forall x y, x ∈ l -> f x = Some y -> (P x <-> Q y)) ->
  omap f (filter P l) = filter Q (omap f l).
Proof.
  induction l as [|x l IH]; intros H; [done|].
  assert (IH' : omap f (filter P l) = filter Q (omap f l)).
  { apply IH. intros; apply H; set_solver. }
  destruct (f x) as [y|] eqn:Hf.
  - assert (Hx : P x <-> Q y) by (apply H; set_solver).
    destruct (decide (P x)).
    + rewrite filter_cons_True by done. csimpl. rewrite Hf.
      rewrite filter_cons_True by tauto. by rewrite IH'.
    + rewrite filter_cons_False by done. csimpl. rewrite Hf.
      rewrite filter_cons_False by tauto. done.
  - destruct (decide (P x)).
    + rewrite filter_cons_True by done. csimpl. by rewrite Hf.
    + rewrite filter_cons_False by done. csimpl. by rewrite Hf.
Qed.

Lemma filter_eq_singleton {A} `{EqDecision A} (p : A) (l : list A) :
  NoDup l -> p ∈ l -> filter (fun q => q = p) l = [p].
Proof.
  induction 1 as [|x l Hx Hnd IH]; [set_solver|]. intros Hp.
  destruct (decide (x = p)) as [->|Hne].
  - rewrite filter_cons_True by done. rewrite filter_none; [done|]. set_solver.
  - rewrite filter_cons_False by done. apply IH. set_solver.
Qed.

Lemma filter_ext_in {A} (P Q : A -> Prop) `{HP : !forall x, Decision (P x)}
    `{HQ : !forall x, Decision (Q x)} (l : list A) :
  (forall x, x ∈ l -> (P x <-> Q x)) -> filter P l = filter Q l.
Proof.
  induction l as [|x l IH]; intros H; [done|].
  assert (IH' : filter P l = filter Q l) by (apply IH; intros; apply H; set_solver).
  destruct (decide (P x)) as [Hp|Hp].
  - rewrite !filter_cons_True; [by rewrite IH'|by apply H; [set_solver|]|done].
  - rewrite !filter_cons_False; [done|by rewrite <- H; [|set_solver]|done].
Qed.

(** What is found after an update: a process table after one process moved. *)
Lemma insert_cases {A} (l : list A) k a m b : <[k := a]> l !! m = Some b ->
  (m = k /\ b = a /\ (k < length l)%nat) \/ (m <> k /\ l !! m = Some b).
Proof.
  intros Hm. destruct (decide (m = k)) as [->|Hne]; [|rewrite list_lookup_insert_ne in Hm by done; by right].
  pose proof (lookup_lt_Some _ _ _ Hm) as Hlt. rewrite length_insert in Hlt. rewrite list_lookup_insert_eq in Hm by done.
  left. by split_and!; [|congruence|].
Qed.

Lemma elem_insert {A} (l : list A) k a b : b ∈ <[k := a]> l -> b = a \/ b ∈ l.
Proof.
  intros [m Hm]%list_elem_of_lookup. apply insert_cases in Hm as [(_ & Hb & _)|[_ Hm]]; [by left|right].
  by eapply list_elem_of_lookup_2.
Qed.

Lemma app_one_cases {A} (l : list A) a m b : (l ++ [a]) !! m = Some b -> l !! m = Some b \/ (m = length l /\ b = a).
Proof.
  intros [Hm|[Hlen Hm]]%lookup_app_Some; [by left|right]. apply list_lookup_singleton_Some in Hm as [Hm <-]. split; [lia|done].
Qed.

(** * Strings *)

(** stdpp keeps [String.append] folded, so the equations are lemmas. *)
Lemma string_app_nil_l (t : string) : "" +:+ t = t.
Proof. done. Qed.

Lemma string_app_cons c (s t : string) : String c s +:+ t = String c (s +:+ t).
Proof. done. Qed.

#[export] Hint Rewrite string_app_cons string_app_nil_l : go.
Ltac str_simpl := autorewrite with go; simpl; autorewrite with go.
Ltac str_simpl_in H := autorewrite with go in H; simpl in H; autorewrite with go in H.

Lemma string_app_nil_r (s : string) : s +:+ "" = s.
Proof. induction s as [|c s IH]; [done|]. rewrite string_app_cons. by rewrite IH. Qed.

Lemma string_app_assoc (a b c : string) : a +:+ (b +:+ c) = (a +:+ b) +:+ c.
Proof. induction a as [|x a IH]; [done|]. rewrite !string_app_cons. by rewrite IH. Qed.

Lemma string_app_length (a b : string) :
  String.length (a +:+ b) = (String.length a + String.length b)%nat.
Proof. induction a as [|x a IH]; [done|]. rewrite string_app_cons. simpl. by rewrite IH. Qed.

Lemma string_app_inj_l (a b c : string) : a +:+ b = a +:+ c -> b = c.
Proof. induction a as [|x a IH]; [done|]. rewrite !string_app_cons. intros [= ?]; auto. Qed.

#[export] Hint Rewrite string_app_nil_r : go.
#[export] Hint Resolve wrap64_range time_sub_range : go.
