(* ===== verification/GoStrings.v ===== *)
(** * The parts of Go's standard library the packages use on strings

    A Go string is a sequence of bytes, here a [string] of 8-bit characters. [strings.ToLower],
    [strings.ToUpper] and [strings.TrimSpace] are given by their ASCII tables; on other bytes
    they are the identity here, so statements about them are read on ASCII input. *)

From S2P Require Import Prelude.
Open Scope Z_scope.

(** ** Characters *)

Definition code (c : ascii) : Z := Z.of_N (N_of_ascii c).
Definition chr (z : Z) : ascii := ascii_of_N (Z.to_N z).
Definition is_lower (c : ascii) : bool := (97 <=? code c) && (code c <=? 122).
Definition is_upper (c : ascii) : bool := (65 <=? code c) && (code c <=? 90).
Definition is_digit (c : ascii) : bool := (48 <=? code c) && (code c <=? 57).
Definition is_space (c : ascii) : bool :=
  (code c =? 32) || ((9 <=? code c) && (code c <=? 13)).
Definition lower_char (c : ascii) : ascii := if is_upper c then chr (code c + 32) else c.
Definition upper_char (c : ascii) : ascii := if is_lower c then chr (code c - 32) else c.

Fixpoint smap (f : ascii -> ascii) (s : string) : string :=
  match s with EmptyString => EmptyString | String c s => String (f c) (smap f s) end.
Definition to_lower : string -> string := smap lower_char.
Definition to_upper : string -> string := smap upper_char.

Fixpoint sforall (p : ascii -> bool) (s : string) : bool :=
  match s with EmptyString => true | String c s => p c && sforall p s end.
Fixpoint sexists (p : ascii -> bool) (s : string) : bool :=
  match s with EmptyString => false | String c s => p c || sexists p s end.
Definition contains_char (c : ascii) : string -> bool := sexists (Ascii.eqb c).

(** ** Splitting and joining *)

Fixpoint split_go (sep : ascii) (s : string) : string * list string :=
  match s with
  | EmptyString => (EmptyString, [])
  | String c s' =>
      let '(w, ws) := split_go sep s' in
      if Ascii.eqb c sep then (EmptyString, w :: ws) else (String c w, ws)
  end.

(** [strings.Split] with a one-byte separator: never empty. *)
Definition split (sep : ascii) (s : string) : list string :=
  let '(w, ws) := split_go sep s in w :: ws.

(** [strings.Join]. *)
Fixpoint join (sep : string) (l : list string) : string :=
  match l with
  | [] => EmptyString
  | [x] => x
  | x :: l => x +:+ sep +:+ join sep l
  end.

(** [strings.Cut] with a one-byte separator: before, after, found. *)
Fixpoint cut (sep : ascii) (s : string) : string * string * bool :=
  match s with
  | EmptyString => (EmptyString, EmptyString, false)
  | String c s' =>
      if Ascii.eqb c sep then (EmptyString, s', true)
      else let '(b, a, ok) := cut sep s' in (String c b, a, ok)
  end.

Fixpoint trim_left (s : string) : string :=
  match s with
  | EmptyString => EmptyString
  | String c s' => if is_space c then trim_left s' else s
  end.

Fixpoint trim_right (s : string) : string :=
  match s with
  | EmptyString => EmptyString
  | String c s' =>
      match trim_right s' with
      | EmptyString => if is_space c then EmptyString else String c EmptyString
      | t => String c t
      end
  end.

Definition trim_space (s : string) : string := trim_right (trim_left s).

Fixpoint has_prefix (p s : string) : bool :=
  match p, s with
  | EmptyString, _ => true
  | String a p, String b s => Ascii.eqb a b && has_prefix p s
  | _, _ => false
  end.

(** [strings.Contains]. *)
Fixpoint contains (sub s : string) : bool :=
  has_prefix sub s || match s with EmptyString => false | String _ s => contains sub s end.

Fixpoint drop_string (n : nat) (s : string) : string :=
  match n, s with
  | O, _ => s
  | S n, String _ s => drop_string n s
  | S _, EmptyString => EmptyString
  end.

Fixpoint take_string (n : nat) (s : string) : string :=
  match n, s with
  | O, _ => EmptyString
  | S n, String c s => String c (take_string n s)
  | S _, EmptyString => EmptyString
  end.

(** [strings.EqualFold], on ASCII letters. *)
Definition equal_fold (a b : string) : bool := String.eqb (to_lower a) (to_lower b).

(** ** Decimal integers *)

Definition digit (d : Z) : ascii := chr (48 + d).

Fixpoint dec_go (fuel : nat) (n : Z) (acc : string) : string :=
  match fuel with
  | O => acc
  | S f =>
      let acc' := String (digit (n mod 10)) acc in
      if n <? 10 then acc' else dec_go f (n / 10) acc'
  end.

(** [strconv.FormatInt(z, 10)]. [log2 n + 1] binary digits bound the decimal ones. *)
Definition format_nat (n : Z) : string := dec_go (S (Z.to_nat (Z.log2 n))) n EmptyString.
Definition itoa (z : Z) : string :=
  if z <? 0 then String "-" (format_nat (- z)) else format_nat z.

Fixpoint parse_dec (s : string) (acc : Z) : option Z :=
  match s with
  | EmptyString => Some acc
  | String c s' => if is_digit c then parse_dec s' (acc * 10 + (code c - 48)) else None
  end.

Definition parse_digits (s : string) : option Z :=
  match s with EmptyString => None | _ => parse_dec s 0 end.

(** [strconv.ParseInt(s, 10, bits)]: [None] for a syntax or a range error. *)
Definition parse_int (bits : Z) (s : string) : option Z :=
  let '(neg, ds) := match s with
                    | String c s' => if Ascii.eqb c "-" then (true, s')
                                     else if Ascii.eqb c "+" then (false, s') else (false, s)
                    | EmptyString => (false, s)
                    end in
  n ← parse_digits ds;
  if neg then (if 2 ^ (bits - 1) <? n then None else Some (- n))
  else (if 2 ^ (bits - 1) <=? n then None else Some n).

(** [strconv.ParseUint(s, 10, bits)]. *)
Definition parse_uint (bits : Z) (s : string) : option Z :=
  n ← parse_digits s; if 2 ^ bits <=? n then None else Some n.

(** ** Hexadecimal *)

Definition hex_digit (d : Z) : ascii := if d <? 10 then chr (48 + d) else chr (87 + d).
Definition hex_value (c : ascii) : option Z :=
  if is_digit c then Some (code c - 48)
  else if (97 <=? code c) && (code c <=? 102) then Some (code c - 87)
  else if (65 <=? code c) && (code c <=? 70) then Some (code c - 55)
  else None.

Fixpoint hex_encode (s : string) : string :=
  match s with
  | EmptyString => EmptyString
  | String c s => String (hex_digit (code c / 16)) (String (hex_digit (code c mod 16)) (hex_encode s))
  end.

Fixpoint hex_decode (s : string) : option string :=
  match s with
  | EmptyString => Some EmptyString
  | String a (String b s) =>
      x ← hex_value a; y ← hex_value b; r ← hex_decode s; Some (String (chr (16 * x + y)) r)
  | String _ EmptyString => None
  end.

(** * Lemmas *)

Lemma code_range c : 0 <= code c < 256.
Proof. unfold code. pose proof (N_ascii_bounded c). lia. Qed.

Lemma code_chr z : 0 <= z < 256 -> code (chr z) = z.
Proof. intros H. unfold code, chr. rewrite N_ascii_embedding; lia. Qed.

Lemma chr_code c : chr (code c) = c.
Proof. unfold code, chr. rewrite N2Z.id. apply ascii_N_embedding. Qed.

Lemma code_inj a b : code a = code b -> a = b.
Proof. intros H. by rewrite <- (chr_code a), <- (chr_code b), H. Qed.

Lemma sforall_app p a b : sforall p (a +:+ b) = sforall p a && sforall p b.
Proof. induction a as [|c a IH]; [done|]. str_simpl. by rewrite IH, andb_assoc. Qed.

Lemma sexists_app p a b : sexists p (a +:+ b) = sexists p a || sexists p b.
Proof. induction a as [|c a IH]; [done|]. str_simpl. by rewrite IH, orb_assoc. Qed.

Lemma sforall_impl (p q : ascii -> bool) s :
  (forall c, p c = true -> q c = true) -> sforall p s = true -> sforall q s = true.
Proof.
  intros Hpq. induction s as [|c s IH]; simpl; [done|].
  intros [? ?]%andb_prop. apply andb_true_intro; auto.
Qed.

Lemma sforall_not_contains c (p : ascii -> bool) s :
  p c = false -> sforall p s = true -> contains_char c s = false.
Proof.
  intros Hc. induction s as [|d s IH]; [done|]. simpl. intros [Hd Hs]%andb_prop.
  unfold contains_char in *. simpl. rewrite IH by done.
  destruct (Ascii.eqb_spec c d); [congruence|done].
Qed.

(** *** Split and join *)

Lemma split_go_nosep sep s : contains_char sep s = false -> split_go sep s = (s, []).
Proof.
  unfold contains_char. induction s as [|c s IH]; simpl; [done|].
  intros [Hc Hs]%orb_false_iff. rewrite IH by done.
  rewrite Ascii.eqb_sym. by rewrite Hc.
Qed.

Lemma split_go_app sep a b :
  contains_char sep a = false ->
  split_go sep (a +:+ String sep b) = (a, let '(w, ws) := split_go sep b in w :: ws).
Proof.
  unfold contains_char. induction a as [|c a IH]; str_simpl.
  - intros _. destruct (split_go sep b). by rewrite Ascii.eqb_refl.
  - intros [Hc Ha]%orb_false_iff. rewrite IH by done. rewrite Ascii.eqb_sym, Hc. done.
Qed.

Lemma split_nosep sep s : contains_char sep s = false -> split sep s = [s].
Proof. intros H. unfold split. by rewrite split_go_nosep. Qed.

Lemma split_app sep a b :
  contains_char sep a = false -> split sep (a +:+ String sep b) = a :: split sep b.
Proof. intros H. unfold split. rewrite split_go_app by done. by destruct (split_go sep b). Qed.

Lemma split_app_sep sep a b : split sep (a +:+ String sep b) = split sep a ++ split sep b.
Proof.
  assert (H : split_go sep (a +:+ String sep b) = ((split_go sep a).1, (split_go sep a).2 ++ split sep b)).
  { unfold split. induction a as [|c a IH].
    - rewrite string_app_nil_l. simpl. rewrite Ascii.eqb_refl. by destruct (split_go sep b).
    - rewrite string_app_cons. simpl. rewrite IH. destruct (split_go sep a) as [x l]. simpl. by destruct (Ascii.eqb c sep). }
  unfold split at 1 2. rewrite H. by destruct (split_go sep a).
Qed.

(** Splitting undoes joining when no part holds the separator. *)
Lemma split_join sep l :
  l <> [] -> (forall x, x ∈ l -> contains_char sep x = false) ->
  split sep (join (String sep EmptyString) l) = l.
Proof.
  induction l as [|x [|y l] IH]; intros Hne Hl; [done| |].
  - simpl. apply split_nosep, Hl. set_solver.
  - change (split sep (x +:+ String sep (EmptyString +:+ join (String sep EmptyString) (y :: l))) = x :: y :: l).
    rewrite string_app_nil_l, split_app by (apply Hl; set_solver).
    rewrite IH; [done|done|]. intros z Hz. apply Hl. set_solver.
Qed.

(** Joining undoes splitting. *)
Lemma join_snoc sep l x : l <> [] -> join sep (l ++ [x]) = join sep l +:+ (sep +:+ x).
Proof.
  induction l as [|y l IH]; [done|]. intros _. destruct l as [|z l]; [done|].
  change (join sep ((y :: z :: l) ++ [x])) with (y +:+ (sep +:+ join sep ((z :: l) ++ [x]))).
  change (join sep (y :: z :: l)) with (y +:+ (sep +:+ join sep (z :: l))).
  rewrite IH by done. by rewrite !string_app_assoc.
Qed.

Lemma join_split sep s : join (String sep EmptyString) (split sep s) = s.
Proof.
  unfold split. induction s as [|c s IH]; [done|]. simpl.
  destruct (split_go sep s) as [w ws]. destruct (Ascii.eqb_spec c sep) as [->|Hne].
  - change (EmptyString +:+ String sep (EmptyString +:+ join (String sep EmptyString) (w :: ws)) = String sep s).
    by rewrite !string_app_nil_l, IH.
  - destruct ws as [|w' ws]; [simpl in *; by rewrite IH|].
    change (String c w +:+ String sep EmptyString +:+ join (String sep EmptyString) (w' :: ws) = String c s).
    rewrite string_app_cons. f_equal. exact IH.
Qed.

Lemma split_parts sep s x : x ∈ split sep s -> contains_char sep x = false.
Proof.
  unfold split. revert x. induction s as [|c s IH]; simpl.
  - intros x Hx. by apply list_elem_of_singleton in Hx as ->.
  - destruct (split_go sep s) as [w ws]. destruct (Ascii.eqb_spec c sep) as [->|Hne]; intros x.
    + intros [->|Hx]%elem_of_cons; [done|]. by apply IH.
    + intros [->|Hx]%elem_of_cons.
      * unfold contains_char in *. simpl. rewrite IH by set_solver.
        destruct (Ascii.eqb_spec sep c); [congruence|done].
      * apply IH. set_solver.
Qed.

Lemma cut_app sep a b :
  contains_char sep a = false -> cut sep (a +:+ String sep b) = (a, b, true).
Proof.
  unfold contains_char. induction a as [|c a IH]; str_simpl.
  - by rewrite Ascii.eqb_refl.
  - intros [Hc Ha]%orb_false_iff. rewrite IH by done. by rewrite Ascii.eqb_sym, Hc.
Qed.

Lemma cut_no (c : ascii) (a : string) : contains_char c a = false -> cut c a = (a, EmptyString, false).
Proof.
  induction a as [|x a IH]; [done|]. unfold contains_char. cbn [sexists cut]. intros [Hx Ha]%orb_false_iff.
  rewrite Ascii.eqb_sym in Hx. rewrite Hx. by rewrite IH.
Qed.

Lemma cut_split (c : ascii) (s : string) : contains_char c s = true ->
  exists a b, s = a +:+ String c b /\ contains_char c a = false.
Proof.
  induction s as [|d s IH]; [done|]. unfold contains_char in *. cbn [sexists]. destruct (Ascii.eqb d c) eqn:Hd.
  - intros _. apply Ascii.eqb_eq in Hd as ->. by exists EmptyString, s.
  - rewrite (eq_sym (Ascii.eqb_sym c d)) in Hd. intros Hs. destruct IH as (a & b & -> & Ha); [by destruct (Ascii.eqb c d)|].
    exists (String d a), b. split; [done|]. cbn [sexists]. rewrite Ha. by destruct (Ascii.eqb c d).
Qed.

Lemma has_prefix_app p s : has_prefix p (p +:+ s) = true.
Proof. induction p as [|c p IH]; [done|]. str_simpl. by rewrite Ascii.eqb_refl, IH. Qed.

Lemma has_prefix_inv p s : has_prefix p s = true -> exists t, s = p +:+ t.
Proof.
  revert s; induction p as [|c p IH]; intros s H; [by exists s|].
  destruct s as [|d s]; simpl in H; [done|]. apply andb_prop in H as [Hc H].
  apply Ascii.eqb_eq in Hc as ->. destruct (IH s H) as [t ->]. exists t. by rewrite string_app_cons.
Qed.

Lemma drop_string_app (a b : string) : drop_string (String.length a) (a +:+ b) = b.
Proof. induction a as [|c a IH]; [done|]. cbn. exact IH. Qed.
Lemma take_drop_string k t : take_string k t +:+ drop_string k t = t.
Proof. revert k. induction t as [|a t IH]; intros [|k]; try done. cbn [take_string drop_string]. by rewrite string_app_cons, IH. Qed.
Lemma take_string_len k t : (k <= String.length t)%nat -> String.length (take_string k t) = k.
Proof. revert k. induction t as [|a t IH]; intros [|k] Hk; cbn in *; try lia. rewrite IH; lia. Qed.
Lemma drop_string_len k t : String.length (drop_string k t) = (String.length t - k)%nat.
Proof. revert k. induction t as [|a t IH]; intros [|k]; cbn; try done. Qed.
Lemma take_string_app (a b : string) : take_string (String.length a) (a +:+ b) = a.
Proof. induction a as [|c a IH]; cbn; [by destruct b|]. f_equal. exact IH. Qed.

Lemma trim_space_id s : sforall (fun c => negb (is_space c)) s = true -> trim_space s = s.
Proof.
  intros H. unfold trim_space.
  assert (Hl : trim_left s = s).
  { destruct s as [|c s]; [done|]. simpl in *. apply andb_prop in H as [Hc _].
    by destruct (is_space c). }
  rewrite Hl. clear Hl. induction s as [|c s IH]; [done|]. simpl in *.
  apply andb_prop in H as [Hc Hs]. rewrite IH by done.
  destruct (is_space c); [done|]. by destruct s.
Qed.

(** *** Decimal integers *)

Lemma digit_spec d : 0 <= d < 10 -> is_digit (digit d) = true /\ code (digit d) = 48 + d.
Proof.
  intros H. unfold digit, is_digit. rewrite code_chr by lia. split; [|done].
  apply andb_true_intro. split; apply Z.leb_le; lia.
Qed.

Lemma parse_dec_dec_go fuel n acc :
  0 <= n < 10 ^ Z.of_nat fuel -> (0 < fuel)%nat ->
  parse_dec (dec_go fuel n acc) 0 = parse_dec acc n.
Proof.
  revert n acc; induction fuel as [|f IH]; intros n acc Hn Hf; [lia|]. simpl.
  pose proof (Z.mod_pos_bound n 10 ltac:(lia)) as Hm.
  destruct (digit_spec (n mod 10) Hm) as (Hd & Hc).
  destruct (Z.ltb_spec n 10) as [Hlt|Hge].
  - simpl. rewrite Hd, Hc. f_equal. rewrite Z.mod_small; lia.
  - rewrite Nat2Z.inj_succ, Z.pow_succ_r in Hn by lia.
    rewrite IH.
    + simpl. rewrite Hd, Hc. f_equal. pose proof (Z.div_mod n 10). lia.
    + split; [apply Z.div_pos; lia|]. apply Z.div_lt_upper_bound; lia.
    + destruct f; [simpl in Hn; lia|lia].
Qed.

Lemma dec_go_digits fuel n acc :
  0 <= n -> sforall is_digit acc = true -> sforall is_digit (dec_go fuel n acc) = true.
Proof.
  revert n acc; induction fuel as [|f IH]; intros n acc Hn Ha; [done|]. simpl.
  pose proof (Z.mod_pos_bound n 10 ltac:(lia)) as Hm.
  destruct (digit_spec (n mod 10) Hm) as (Hd & _).
  destruct (n <? 10); [simpl; by rewrite Hd|]. apply IH; [apply Z.div_pos; lia|].
  simpl. by rewrite Hd.
Qed.

Lemma dec_go_nonempty fuel n acc : acc <> EmptyString -> dec_go fuel n acc <> EmptyString.
Proof.
  revert n acc; induction fuel as [|f IH]; intros n acc Ha; [done|]. simpl.
  destruct (n <? 10); [done|]. by apply IH.
Qed.

Lemma format_nat_nonempty n : format_nat n <> EmptyString.
Proof. unfold format_nat. simpl. destruct (n <? 10); [done|]. by apply dec_go_nonempty. Qed.

Lemma format_nat_digits n : 0 <= n -> sforall is_digit (format_nat n) = true.
Proof. intros H. by apply dec_go_digits. Qed.

Lemma log2_fuel n : 0 <= n -> 0 <= n < 10 ^ Z.of_nat (S (Z.to_nat (Z.log2 n))).
Proof.
  intros Hn. split; [done|]. rewrite Nat2Z.inj_succ, Z2Nat.id by apply Z.log2_nonneg.
  destruct (Z.eq_dec n 0) as [->|Hne]; [done|].
  apply Z.lt_le_trans with (2 ^ Z.succ (Z.log2 n)); [apply Z.log2_spec; lia|].
  apply Z.pow_le_mono_l. lia.
Qed.

Lemma parse_digits_format n : 0 <= n -> parse_digits (format_nat n) = Some n.
Proof.
  intros Hn. unfold parse_digits. pose proof (format_nat_nonempty n) as Hne.
  destruct (format_nat n) as [|c s] eqn:Hs; [done|]. rewrite <- Hs. unfold format_nat.
  by rewrite parse_dec_dec_go; [|apply log2_fuel|lia].
Qed.

(** [ParseInt] reads back what [FormatInt] prints. *)
Lemma parse_int_itoa z : in_int z -> parse_int 64 (itoa z) = Some z.
Proof.
  unfold in_int, int_min, int_max. intros Hz. unfold itoa. destruct (Z.ltb_spec z 0) as [Hneg|Hpos].
  - change (parse_int 64 (String "-" (format_nat (- z)))) with
      (n ← parse_digits (format_nat (- z)); if 2 ^ (64 - 1) <? n then None else Some (- n)).
    rewrite parse_digits_format by lia. csimpl.
    destruct (Z.ltb_spec (2 ^ (64 - 1)) (- z)); [lia|]. f_equal. lia.
  - unfold parse_int. pose proof (format_nat_digits z Hpos) as Hd.
    pose proof (parse_digits_format z Hpos) as Hp.
    destruct (format_nat z) as [|c s] eqn:Hs; [done|].
    simpl in Hd. apply andb_prop in Hd as [Hc _].
    destruct (Ascii.eqb_spec c "-") as [->|]; [done|].
    destruct (Ascii.eqb_spec c "+") as [->|]; [done|]. rewrite Hp. csimpl.
    destruct (Z.leb_spec (2 ^ (64 - 1)) z); [lia|done].
Qed.

Lemma itoa_inj a b : in_int a -> in_int b -> itoa a = itoa b -> a = b.
Proof.
  intros Ha Hb Heq. pose proof (parse_int_itoa a Ha) as H1.
  rewrite Heq, parse_int_itoa in H1 by done. by injection H1.
Qed.

Lemma itoa_nonempty z : itoa z <> EmptyString.
Proof. unfold itoa. destruct (z <? 0); [done|]. apply format_nat_nonempty. Qed.

Definition numeric_char (c : ascii) : bool := is_digit c || Ascii.eqb c "-".

Lemma itoa_chars z : sforall numeric_char (itoa z) = true.
Proof.
  unfold itoa. assert (H : forall n, 0 <= n -> sforall numeric_char (format_nat n) = true).
  { intros n Hn. eapply sforall_impl; [|by apply format_nat_digits].
    intros c Hc. unfold numeric_char. by rewrite Hc. }
  destruct (Z.ltb_spec z 0); [|by apply H]. simpl. apply H. lia.
Qed.

(** *** Hexadecimal *)

Lemma hex_pair c :
  hex_value (hex_digit (code c / 16)) = Some (code c / 16) /\
  hex_value (hex_digit (code c mod 16)) = Some (code c mod 16) /\
  chr (16 * (code c / 16) + code c mod 16) = c.
Proof. destruct c as [[] [] [] [] [] [] [] []]; vm_compute; auto. Qed.

Lemma hex_decode_encode s : hex_decode (hex_encode s) = Some s.
Proof.
  induction s as [|c s IH]; [done|]. cbn [hex_encode hex_decode].
  destruct (hex_pair c) as (-> & -> & Hc). csimpl. by rewrite IH, Hc.
Qed.

Definition hex_char (c : ascii) : bool := is_digit c || ((97 <=? code c) && (code c <=? 102)).

Lemma hex_encode_chars s : sforall hex_char (hex_encode s) = true.
Proof.
  induction s as [|c s IH]; [done|]. cbn [hex_encode sforall]. rewrite IH, andb_true_r.
  destruct c as [[] [] [] [] [] [] [] []]; reflexivity.
Qed.

Lemma hex_encode_length s : String.length (hex_encode s) = (2 * String.length s)%nat.
Proof. induction s as [|c s IH]; [done|]. cbn [hex_encode String.length]. rewrite IH. lia. Qed.

Lemma hex_encode_inj a b : hex_encode a = hex_encode b -> a = b.
Proof.
  intros H. pose proof (hex_decode_encode a) as Ha. rewrite H, hex_decode_encode in Ha.
  by injection Ha.
Qed.
