(* ===== verification/GoCrypto.v ===== *)
(** * Hash functions of Go's standard library used by the packages

    [crypto/sha256], [crypto/hmac] and [hash/fnv], executable on byte strings. No property
    relies on their collision resistance; the definitions are there so that signatures, API-key
    hashes and rollout buckets compute. *)

From S2P Require Import Prelude GoStrings.
Open Scope Z_scope.

Definition bytes_of (s : string) : list Z := map code (list_ascii_of_string s).
Definition string_of_bytes (l : list Z) : string := string_of_list_ascii (map chr l).

(** ** SHA-256 (FIPS 180-4) *)

Definition w32 (z : Z) : Z := z mod 2 ^ 32.
Definition rotr (n x : Z) : Z := Z.lor (Z.shiftr x n) (w32 (Z.shiftl x (32 - n))).
Definition not32 (x : Z) : Z := Z.lxor x (2 ^ 32 - 1).

(** The standard defines its constants from the first primes: the round constants are the first 32
    bits of the fractional parts of the cube roots of 64 of them, the initial hash value those of
    the square roots of 8. *)
Definition is_prime (n : Z) : bool :=
  forallb (fun d => negb (n mod Z.of_nat d =? 0)) (seq 2 (Z.to_nat (Z.sqrt n) - 1)).
Definition primes (n : nat) : list Z := take n (filter (fun p => is_prime p = true) (map Z.of_nat (seq 2 310))).

(** The integer cube root of [x] below [2 ^ bits], bit by bit from the top. *)
Fixpoint cube_root (bits : nat) (x r : Z) : Z :=
  match bits with
  | O => r
  | S b => let r' := r + 2 ^ Z.of_nat b in cube_root b x (if r' * r' * r' <=? x then r' else r)
  end.

Definition sha256_k : list Z := Eval vm_compute in map (fun p => w32 (cube_root 40 (p * 2 ^ 96) 0)) (primes 64).
Definition sha256_init : list Z := Eval vm_compute in map (fun p => w32 (Z.sqrt (p * 2 ^ 64))) (primes 8).

Definition be_bytes (n : nat) (z : Z) : list Z :=
  map (fun i => Z.shiftr z (8 * Z.of_nat i) mod 256) (rev (seq 0 n)).

Definition sha256_pad (m : list Z) : list Z :=
  let l := Z.of_nat (length m) in
  m ++ [128] ++ replicate (Z.to_nat ((55 - l) mod 64)) 0 ++ be_bytes 8 (8 * l).

Fixpoint words (l : list Z) : list Z :=
  match l with
  | a :: b :: c :: d :: l => (((a * 256 + b) * 256 + c) * 256 + d) :: words l
  | _ => []
  end.

(** The message schedule, most recent word first. *)
Fixpoint schedule (n : nat) (w : list Z) : list Z :=
  match n with
  | O => w
  | S n =>
      let x2 := nth 1 w 0 in let x7 := nth 6 w 0 in let x15 := nth 14 w 0 in let x16 := nth 15 w 0 in
      let s0 := Z.lxor (rotr 7 x15) (Z.lxor (rotr 18 x15) (Z.shiftr x15 3)) in
      let s1 := Z.lxor (rotr 17 x2) (Z.lxor (rotr 19 x2) (Z.shiftr x2 10)) in
      schedule n (w32 (x16 + s0 + x7 + s1) :: w)
  end.

Definition sha256_round (st : list Z) (kw : Z * Z) : list Z :=
  match st with
  | [a; b; c; d; e; f; g; h] =>
      let s1 := Z.lxor (rotr 6 e) (Z.lxor (rotr 11 e) (rotr 25 e)) in
      let ch := Z.lxor (Z.land e f) (Z.land (not32 e) g) in
      let t1 := h + s1 + ch + kw.1 + kw.2 in
      let s0 := Z.lxor (rotr 2 a) (Z.lxor (rotr 13 a) (rotr 22 a)) in
      let maj := Z.lxor (Z.land a b) (Z.lxor (Z.land a c) (Z.land b c)) in
      [w32 (t1 + s0 + maj); a; b; c; w32 (d + t1); e; f; g]
  | _ => st
  end.

Definition sha256_block (st : list Z) (blk : list Z) : list Z :=
  let w := rev (schedule 48 (rev (words blk))) in
  zip_with (fun a b => w32 (a + b)) st (fold_left sha256_round (zip sha256_k w) st).

Fixpoint blocks (n : nat) (l : list Z) : list (list Z) :=
  match n with O => [] | S n => take 64 l :: blocks n (drop 64 l) end.

Definition sha256_bytes (m : list Z) : list Z :=
  let p := sha256_pad m in
  let st := fold_left sha256_block (blocks (length p / 64) p) sha256_init in
  st ≫= be_bytes 4.

(** [sha256.Sum256]. *)
Definition sha256 (s : string) : string := string_of_bytes (sha256_bytes (bytes_of s)).

(** ** HMAC-SHA256 (RFC 2104): [hmac.New(sha256.New, key)], [Write(msg)], [Sum(nil)] *)

Definition hmac_sha256 (key msg : string) : string :=
  let k0 := bytes_of key in
  let k1 := if (64 <? Z.of_nat (length k0)) then sha256_bytes k0 else k0 in
  let k := k1 ++ replicate (64 - length k1) 0 in
  let inner := sha256_bytes (map (Z.lxor 0x36) k ++ bytes_of msg) in
  string_of_bytes (sha256_bytes (map (Z.lxor 0x5c) k ++ inner)).

(** ** FNV-1a, 32 bits: [fnv.New32a] *)

Definition fnv32a (s : string) : Z :=
  fold_left (fun h b => (Z.lxor h b * 16777619) mod 2 ^ 32) (bytes_of s) 2166136261.

Lemma fnv32a_range s : 0 <= fnv32a s < 2 ^ 32.
Proof.
  unfold fnv32a. apply fold_left_inv; [lia|]. intros h b _ _. apply Z.mod_pos_bound. lia.
Qed.

(** *** Sizes: SHA-256 and its HMAC yield 32 bytes *)

Lemma sha256_round_length st kw : length st = 8%nat -> length (sha256_round st kw) = 8%nat.
Proof. intros H. do 8 (destruct st as [|? st]; [done|]). by destruct st. Qed.

Lemma sha256_block_length st blk : length st = 8%nat -> length (sha256_block st blk) = 8%nat.
Proof.
  intros H. unfold sha256_block. rewrite length_zip_with, H.
  rewrite (fold_left_inv (fun st => length st = 8%nat)); [done|done|].
  intros; by apply sha256_round_length.
Qed.

Lemma bind_length_const {A B} (f : A -> list B) n (l : list A) :
  (forall x, length (f x) = n) -> length (l ≫= f) = (length l * n)%nat.
Proof. intros Hf. induction l as [|x l IH]; [done|]. csimpl. by rewrite length_app, Hf, IH. Qed.

Lemma sha256_bytes_length m : length (sha256_bytes m) = 32%nat.
Proof.
  unfold sha256_bytes. rewrite (bind_length_const _ 4).
  - rewrite (fold_left_inv (fun st => length st = 8%nat)); [done|done|].
    intros; by apply sha256_block_length.
  - intros x. unfold be_bytes. by rewrite length_map, length_rev, length_seq.
Qed.

Lemma string_of_bytes_length l : String.length (string_of_bytes l) = length l.
Proof. unfold string_of_bytes. induction l as [|x l IH]; simpl; [done|]. by rewrite IH. Qed.

Lemma sha256_length s : String.length (sha256 s) = 32%nat.
Proof. unfold sha256. by rewrite string_of_bytes_length, sha256_bytes_length. Qed.

Lemma hmac_sha256_length k m : String.length (hmac_sha256 k m) = 32%nat.
Proof. unfold hmac_sha256. by rewrite string_of_bytes_length, sha256_bytes_length. Qed.

Example sha256_abc :
  hex_encode (sha256 "abc") = "ba7816bf8f01cfea414140de5dae2223b00361a396177a9cb410ff61f20015ad"%string.
Proof. vm_compute. reflexivity. Qed.

Example hmac_rfc4231_case2 :
  hex_encode (hmac_sha256 "Jefe" "what do ya want for nothing?")
  = "5bdcc146bf60754e6a042426089575c75a003f089d2739839dec58b964ec3843"%string.
Proof. vm_compute. reflexivity. Qed.

Example fnv32a_a : fnv32a "a" = 0xe40c292c.
Proof. vm_compute. reflexivity. Qed.
