(* ===== verification/Fiber.v ===== *)
(** * The request context handlers and middleware work on

    Fiber itself is a library the packages call. What they use of a [*fiber.Ctx] is: reading a
    header, a table of request locals, writing a JSON reply, and [c.Next()], which all the
    middleware below call in tail position. A middleware is therefore a function from a context
    to an [outcome]: the context handed to the next handler, a reply, or a returned error. *)

From stdpp Require Import countable.
From S2P Require Import Prelude.
Open Scope Z_scope.

(** Dynamic values ([any]): the shapes claims, details and locals take. *)
#[warnings="-register-all"]
Inductive any :=
| ANil
| ABool (b : bool)
| AStr (s : string)
| AInt (z : Z)                    (* int64 *)
| AFloat (trunc : Z)              (* a float64, by the integer [int64(v)] yields *)
| ANumber (text : string)         (* json.Number *)
| AStrs (l : list string)         (* []string *)
| AList (l : list any)            (* []any *)
| AObj (fields : list (string * any)).

#[export] Instance any_eq_dec : EqDecision any.
Proof.
  refine (fix go (x y : any) {struct x} : Decision (x = y) :=
    let _ : EqDecision any := @go in
    match x, y with
    | ANil, ANil => left eq_refl
    | ABool a, ABool b => cast_if (decide (a = b))
    | AStr a, AStr b => cast_if (decide (a = b))
    | AInt a, AInt b => cast_if (decide (a = b))
    | AFloat a, AFloat b => cast_if (decide (a = b))
    | ANumber a, ANumber b => cast_if (decide (a = b))
    | AStrs a, AStrs b => cast_if (decide (a = b))
    | AList a, AList b => cast_if (decide (a = b))
    | AObj a, AObj b => cast_if (decide (a = b))
    | _, _ => right _
    end); abstract congruence.
Defined.

(** Dynamic values as trees, for the encodings of [Countable]. *)
Fixpoint any_tree (v : any) : gen_tree (bool + (string + Z)) :=
  match v with
  | ANil => GenNode 0 []
  | ABool b => GenNode 1 [GenLeaf (inl b)]
  | AStr s => GenNode 2 [GenLeaf (inr (inl s))]
  | AInt z => GenNode 3 [GenLeaf (inr (inr z))]
  | AFloat z => GenNode 4 [GenLeaf (inr (inr z))]
  | ANumber s => GenNode 5 [GenLeaf (inr (inl s))]
  | AStrs l => GenNode 6 (map (fun s => GenLeaf (inr (inl s))) l)
  | AList l => GenNode 7 (map any_tree l)
  | AObj l => GenNode 8 (map (fun kv => GenNode 9 [GenLeaf (inr (inl kv.1)); any_tree kv.2]) l)
  end.

Fixpoint tree_any (t : gen_tree (bool + (string + Z))) : any :=
  match t with
  | GenNode 1 [GenLeaf (inl b)] => ABool b
  | GenNode 2 [GenLeaf (inr (inl s))] => AStr s
  | GenNode 3 [GenLeaf (inr (inr z))] => AInt z
  | GenNode 4 [GenLeaf (inr (inr z))] => AFloat z
  | GenNode 5 [GenLeaf (inr (inl s))] => ANumber s
  | GenNode 6 l => AStrs (map (fun t => match t with GenLeaf (inr (inl s)) => s | _ => EmptyString end) l)
  | GenNode 7 l => AList (map tree_any l)
  | GenNode 8 l => AObj (map (fun t => match t with GenNode _ [GenLeaf (inr (inl k)); v] => (k, tree_any v)
                                          | _ => (EmptyString, ANil) end) l)
  | _ => ANil
  end.

Lemma tree_any_tree v : tree_any (any_tree v) = v.
Proof.
  revert v. fix IH 1. intros [| | | | | |l|l|l]; simpl; try reflexivity; f_equal; rewrite map_map.
  - induction l as [|x l Hl]; simpl; [reflexivity|]. by rewrite Hl.
  - induction l as [|x l Hl]; simpl; [reflexivity|]. by rewrite Hl, IH.
  - induction l as [|[k x] l Hl]; simpl; [reflexivity|]. by rewrite Hl, IH.
Qed.

#[export] Instance any_countable : Countable any := inj_countable' any_tree tree_any tree_any_tree.

(** [v.(string)] with the comma-ok form's zero value. *)
Definition as_string (v : option any) : string :=
  match v with Some (AStr s) => s | _ => EmptyString end.

Abbreviation claims := (gmap string any).

(** response.Response, the JSON envelope (response/response.go). *)
Record Response := MkResponse {
  r_code : Z; r_message : string; r_error : string; r_data : any; r_status : string }.

(** A reply as sent: HTTP status and body. *)
Record reply := Reply { http_status : Z; body : Response }.

Section Outcome.
  (** [Id] is the type of authenticated identities, [E] the type of handler errors. *)
  Context {Id E : Type}.

(** Values kept in the locals table, by dynamic type. *)
Inductive local := LClaims (c : claims) | LString (s : string) | LIdentity (i : Id) | LOther.

Record ctx := Ctx { header : string -> string; locals : gmap string local }.

Definition set_local (k : string) (v : local) (c : ctx) : ctx :=
  Ctx (header c) (<[k := v]> (locals c)).

Inductive outcome :=
| Next (c : ctx)
| Send (r : reply)
| Fail (e : E).

Definition handler : Type := ctx -> outcome.

(** Middleware run in order: each one's [Next] continues with the following one. *)
Fixpoint chain (hs : list handler) (c : ctx) : outcome :=
  match hs with
  | [] => Next c
  | h :: hs => match h c with Next c' => chain hs c' | o => o end
  end.
End Outcome.
Arguments local : clear implicits.
Arguments ctx : clear implicits.
Arguments outcome : clear implicits.
Arguments handler : clear implicits.

(** ** response/response.go *)

Definition StatusOK : Z := 200.
Definition StatusBadRequest : Z := 400.
Definition StatusUnauthorized : Z := 401.
Definition StatusForbidden : Z := 403.
Definition StatusNotFound : Z := 404.
Definition StatusConflict : Z := 409.
Definition StatusUnprocessableEntity : Z := 422.
Definition StatusTooManyRequests : Z := 429.
Definition StatusInternalServerError : Z := 500.

(** [code...]: the first optional argument, or the default. *)
Definition SendSuccess (data : any) (message : string) (code : list Z) : reply :=
  let statusCode := match code with [] => StatusOK | c :: _ => c end in
  Reply statusCode (MkResponse statusCode message EmptyString data "success").

Definition SendError (data : any) (message : string) (code : list Z) : reply :=
  let statusCode := match code with [] => StatusBadRequest | c :: _ => c end in
  Reply statusCode (MkResponse statusCode message EmptyString data "error").

Lemma chain_app {Id E} (hs1 hs2 : list (handler Id E)) c :
  chain (hs1 ++ hs2) c = match chain hs1 c with Next c' => chain hs2 c' | o => o end.
Proof. revert c; induction hs1 as [|h hs IH]; intros c; simpl; [done|]. by destruct (h c). Qed.
