(* ===== verification/GoFloat.v ===== *)
(** * Floating-point numbers and the parsers of Go's standard library

    float64 and float32 are the standard library's IEEE specification (SpecFloat, binary64 and
    binary32, round to nearest even). [strconv.ParseFloat], [strconv.ParseBool] and
    [time.ParseDuration] are executable. *)

From Stdlib Require Export SpecFloat.
From S2P Require Import Prelude GoStrings.
Open Scope Z_scope.

(** ** float64 *)

Definition f64_prec : Z := 53.
Definition f64_emax : Z := 1024.
Definition f64_mul : spec_float -> spec_float -> spec_float := SFmul f64_prec f64_emax.
Definition f64_add : spec_float -> spec_float -> spec_float := SFadd f64_prec f64_emax.
Definition f64_sub : spec_float -> spec_float -> spec_float := SFsub f64_prec f64_emax.
(** [float64(n)] of an integer, and the constants 1 and 2. *)
Definition f64_of_Z (n : Z) : spec_float := binary_normalize f64_prec f64_emax n 0 false.
Definition f64_one : spec_float := f64_of_Z 1.
Definition f64_two : spec_float := f64_of_Z 2.

(** [time.Duration(d)]: truncation; out of range (or NaN) Go leaves the value to the
    implementation, [oob] here. *)
Definition f64_to_int (oob : Z) (x : spec_float) : Z :=
  match x with
  | S754_zero _ => 0
  | S754_finite s m e =>
      let a := if 0 <=? e then Z.pos m * 2 ^ e else Z.pos m / 2 ^ (- e) in
      let z := if s then - a else a in
      if (int_min <=? z) && (z <=? int_max) then z else oob
  | _ => oob
  end.

(** ** [strconv.ParseFloat] *)

Definition lower_eq (c : ascii) (s : string) : bool :=
  match s with String d EmptyString => Ascii.eqb (lower_char c) d | _ => false end.
Definition is_hex (c : ascii) : bool := match hex_value c with Some _ => true | None => false end.

(** An optional sign: whether there is one, whether it is a minus, and the rest. *)
Definition sign (s : string) : bool * bool * string :=
  match s with
  | String c t => if Ascii.eqb c "-" then (true, true, t) else if Ascii.eqb c "+" then (true, false, t) else (false, false, s)
  | EmptyString => (false, false, s)
  end.

(** Infinities (signed) and not-a-number (unsigned), in any letter case. *)
Definition special_float (s : string) : option spec_float :=
  let '(signed, neg, t) := sign s in
  let l := to_lower t in
  if String.eqb l "inf" || String.eqb l "infinity" then Some (S754_infinity neg)
  else if String.eqb l "nan" && negb signed then Some S754_nan else None.

(** The base prefix of a hexadecimal float; something must follow it. *)
Definition hex_prefix (s : string) : bool * string :=
  match s with
  | String "0" (String x (String c t)) => if Ascii.eqb (lower_char x) "x" then (true, String c t) else (false, s)
  | _ => (false, s)
  end.

(** The mantissa: digits, one point and underscores. [nd] counts digits, [frac] those after the
    point; the result has the value of all the digits. *)
Fixpoint scan_mantissa (hex dot : bool) (m : Z) (nd frac : nat) (s : string) : Z * nat * nat * string :=
  match s with
  | String c t =>
      if Ascii.eqb c "_" then scan_mantissa hex dot m nd frac t
      else if Ascii.eqb c "." then (if dot then (m, nd, frac, s) else scan_mantissa hex true m nd frac t)
      else
        let ok := is_digit c || (hex && is_hex c) in
        if ok then
          let v := match hex_value c with Some v => v | None => 0 end in
          scan_mantissa hex dot (m * (if hex then 16 else 10) + v) (S nd) (if dot then S frac else frac) t
        else (m, nd, frac, s)
  | EmptyString => (m, nd, frac, s)
  end.

(** The exponent's digits (and underscores); it stops growing at 10000. *)
Fixpoint scan_exponent (e : Z) (s : string) : Z * string :=
  match s with
  | String c t =>
      if Ascii.eqb c "_" then scan_exponent e t
      else if is_digit c then scan_exponent (if e <? 10000 then e * 10 + (code c - 48) else e) t
      else (e, s)
  | EmptyString => (e, s)
  end.

(** Underscores stand between digits, or between a base prefix and a digit. [prev] is the kind of
    the character before: a digit, an underscore, or another. *)
Inductive uprev := UDigit | UUnderscore | UOther.
Fixpoint underscore_go (hex : bool) (prev : uprev) (s : string) : bool :=
  match s with
  | EmptyString => match prev with UUnderscore => false | _ => true end
  | String c t =>
      if is_digit c || (hex && is_hex c) then underscore_go hex UDigit t
      else if Ascii.eqb c "_" then (match prev with UDigit => underscore_go hex UUnderscore t | _ => false end)
      else match prev with UUnderscore => false | _ => underscore_go hex UOther t end
  end.
Definition underscore_ok (s : string) : bool :=
  let t := (sign s).2 in
  match t with
  | String "0" (String x r) =>
      let l := lower_char x in
      if Ascii.eqb l "b" || Ascii.eqb l "o" || Ascii.eqb l "x" then underscore_go (Ascii.eqb l "x") UDigit r
      else underscore_go false UOther t
  | _ => underscore_go false UOther t
  end.

(** The exact value [m * 10 ^ e10] or [m * 2 ^ e2], rounded. *)
Definition round_scaled (prec emax : Z) (neg hex : bool) (m e : Z) : spec_float :=
  match m with
  | Z.pos p =>
      if hex then binary_normalize prec emax (if neg then Z.neg p else Z.pos p) e neg
      else if 0 <=? e then binary_normalize prec emax ((if neg then Z.neg p else Z.pos p) * 10 ^ e) 0 neg
      else let '(q, e', l) := SFdiv_core_binary prec emax m 0 (10 ^ (- e)) 0 in binary_round_aux prec emax neg q e' l
  | _ => S754_zero neg
  end.

(** [None] for a syntax or a range error. *)
Definition parse_number_float (prec emax : Z) (s : string) : option spec_float :=
  let '(_, neg, t) := sign s in
  let '(hex, t) := hex_prefix t in
  let '(m, nd, frac, rest) := scan_mantissa hex false 0 0 0 t in
  if (nd =? 0)%nat then None
  else
    let frac := if hex then 4 * Z.of_nat frac else Z.of_nat frac in
    let exponent : option (Z * string) :=
      match rest with
      | String c t =>
          if lower_eq c (if hex then "p" else "e") then
            let '(_, eneg, t) := sign t in
            match t with
            | String d _ => if is_digit d then let '(e, r) := scan_exponent 0 t in Some ((if eneg then - e else e), r) else None
            | EmptyString => None
            end
          else if hex then None else Some (0, rest)
      | EmptyString => if hex then None else Some (0, rest)
      end in
    match exponent with
    | Some (e, EmptyString) =>
        if contains_char "_" s && negb (underscore_ok s) then None
        else match round_scaled prec emax neg hex m (e - frac) with S754_infinity _ => None | f => Some f end
    | _ => None
    end.

Definition parse_float_at (prec emax : Z) (s : string) : option spec_float :=
  match special_float s with Some f => Some f | None => parse_number_float prec emax s end.
Definition parse_float (bits : Z) (s : string) : option spec_float :=
  if bits =? 32 then parse_float_at 24 128 s else parse_float_at f64_prec f64_emax s.

(** ** [strconv.ParseBool] *)

Definition parse_bool (s : string) : option bool :=
  if existsb (String.eqb s) ["1"; "t"; "T"; "TRUE"; "true"; "True"]%string then Some true
  else if existsb (String.eqb s) ["0"; "f"; "F"; "FALSE"; "false"; "False"]%string then Some false
  else None.

(** ** [time.ParseDuration] *)

(** Leading digits as a uint64, refused above 2^63. *)
Fixpoint leading_int (x : Z) (s : string) : option (Z * string) :=
  match s with
  | String c t =>
      if is_digit c then
        if 2 ^ 63 / 10 <? x then None
        else let x := x * 10 + (code c - 48) in if 2 ^ 63 <? x then None else leading_int x t
      else Some (x, s)
  | EmptyString => Some (x, s)
  end.

(** Fraction digits: those that fit, and their scale (a float64 power of ten). *)
Fixpoint leading_fraction (x : Z) (scale : spec_float) (over : bool) (s : string) : Z * spec_float * string :=
  match s with
  | String c t =>
      if is_digit c then
        if over then leading_fraction x scale true t
        else if int_max / 10 <? x then leading_fraction x scale true t
        else let y := x * 10 + (code c - 48) in
             if 2 ^ 63 <? y then leading_fraction x scale true t
             else leading_fraction y (f64_mul scale (f64_of_Z 10)) false t
      else (x, scale, s)
  | EmptyString => (x, scale, s)
  end.

Fixpoint take_unit (s : string) : string * string :=
  match s with
  | String c t => if Ascii.eqb c "." || is_digit c then (EmptyString, s)
                  else let '(u, r) := take_unit t in (String c u, r)
  | EmptyString => (EmptyString, EmptyString)
  end.

Definition micro_sign : string := String (chr 194) (String (chr 181) "s").
Definition greek_mu : string := String (chr 206) (String (chr 188) "s").
Definition unit_of (u : string) : option Z :=
  if String.eqb u "ns" then Some 1
  else if String.eqb u "us" || String.eqb u micro_sign || String.eqb u greek_mu then Some 1000
  else if String.eqb u "ms" then Some Millisecond
  else if String.eqb u "s" then Some Second
  else if String.eqb u "m" then Some Minute
  else if String.eqb u "h" then Some (60 * Minute)
  else None.

(** One number and its unit. *)
Definition duration_item (s : string) : option (Z * string) :=
  match s with
  | String c _ =>
      if Ascii.eqb c "." || is_digit c then
        '(v, s1) ← leading_int 0 s;
        let pre := negb (String.length s =? String.length s1)%nat in
        let '(f, scale, s2, post) :=
          match s1 with
          | String "." t => let '(f, scale, s2) := leading_fraction 0 f64_one false t in
                            (f, scale, s2, negb (String.length t =? String.length s2)%nat)
          | _ => (0, f64_one, s1, false)
          end in
        if negb pre && negb post then None
        else
          let '(u, s3) := take_unit s2 in
          unit ← unit_of u;
          if 2 ^ 63 / unit <? v then None
          else
            let v := v * unit in
            let v := if 0 <? f then v + f64_to_int 0 (f64_mul (f64_of_Z f) (SFdiv f64_prec f64_emax (f64_of_Z unit) scale)) else v in
            if 2 ^ 63 <? v then None else Some (v, s3)
      else None
  | EmptyString => None
  end.

(** The items' sum is a uint64. [fuel] is the length of the text: every item is at least two bytes. *)
Fixpoint duration_items (fuel : nat) (d : Z) (s : string) : option Z :=
  match s, fuel with
  | EmptyString, _ => Some d
  | _, O => None
  | _, S fuel => 
      '(v, s) ← duration_item s; let d := wrapu 64 (d + v) in if 2 ^ 63 <? d then None else duration_items fuel d s
  end.

Definition parse_duration (s : string) : option Z :=
  let '(_, neg, t) := sign s in
  if String.eqb t "0" then Some 0
  else if String.eqb t "" then None
  else d ← duration_items (String.length t) 0 t;
       if neg then Some (wrap64 (- wrap64 d)) else if int_max <? d then None else Some d.

(** ** Facts *)

Lemma take_unit_length s : (String.length (take_unit s).2 <= String.length s)%nat.
Proof. induction s as [|c s IH]; simpl; [lia|]. destruct (_ || _); simpl; [lia|]. destruct (take_unit s). simpl in *. lia. Qed.

Lemma leading_int_length x s y r : leading_int x s = Some (y, r) -> (String.length r <= String.length s)%nat.
Proof.
  revert x; induction s as [|c s IH]; intros x; cbn [leading_int]; [intros [= <- <-]; lia|]. destruct (is_digit c); [|intros [= <- <-]; lia].
  destruct (_ <? x); [done|]. cbv zeta. destruct (_ <? _); [done|]. intros H%IH. simpl. lia.
Qed.

Lemma leading_fraction_length x sc o s : (String.length (leading_fraction x sc o s).2 <= String.length s)%nat.
Proof.
  revert x sc o; induction s as [|c s IH]; intros x sc o; cbn [leading_fraction]; [simpl; lia|].
  destruct (is_digit c); [|simpl; lia]. cbn [String.length].
  destruct o; [etransitivity; [apply IH|lia]|]. destruct (_ <? x); [etransitivity; [apply IH|lia]|].
  cbv zeta. destruct (_ <? _); (etransitivity; [apply IH|lia]).
Qed.

Lemma duration_item_length s v r : duration_item s = Some (v, r) -> (String.length r < String.length s)%nat.
Proof.
  unfold duration_item. destruct s as [|c s]; [done|]. destruct (_ || _); [|done].
  destruct (leading_int 0 (String c s)) as [[y s1]|] eqn:Hi; [|done]. apply leading_int_length in Hi. cbn [mbind option_bind].
  match goal with |- context [match ?m with (_, _) => _ end] => assert (Hs2 : (String.length m.1.2 <= String.length s1)%nat); [|destruct m as [[[f sc] s2] post]] end.
  { destruct s1 as [|a s1]; [simpl; lia|]. pose proof (leading_fraction_length 0 f64_one false s1) as Hf.
    destruct (leading_fraction 0 f64_one false s1) as [[f sc] s2]. by destruct a as [[] [] [] [] [] [] [] []]; simpl in *; lia. }
  simpl in Hs2. destruct (_ && _); [done|]. destruct (take_unit s2) as [u s3] eqn:Hu.
  assert (Hlen : (String.length u + String.length s3 = String.length s2)%nat).
  { revert u s3 Hu. clear. induction s2 as [|c s IH]; simpl; [by intros u s3 [= <- <-]|]. intros u s3.
    destruct (_ || _); [by intros [= <- <-]|]. destruct (take_unit s) as [u' r]. intros [= <- <-]. simpl. by rewrite (IH u' r). }
  destruct (unit_of u) as [unit|] eqn:Hunit; [|done]. simpl. destruct (_ <? y); [done|]. destruct (2 ^ 63 <? _); [done|].
  intros [= _ <-]. destruct u as [|a u]; [done|]. simpl in *. lia.
Qed.

(** The fuel of [parse_duration] is enough: any more gives the same. *)
Lemma duration_items_fuel fuel d s : (String.length s <= fuel)%nat -> duration_items fuel d s = duration_items (String.length s) d s.
Proof.
  revert d s. induction fuel as [fuel IH] using lt_wf_ind. intros d s Hf. destruct s as [|c s]; [by destruct fuel|].
  destruct fuel as [|fuel]; [simpl in Hf; lia|]. cbn [duration_items String.length].
  destruct (duration_item (String c s)) as [[v r]|] eqn:Hi; [|done]. apply duration_item_length in Hi. cbn [mbind option_bind].
  cbv zeta. destruct (_ <? _); [done|]. simpl in Hi, Hf. rewrite (IH fuel) by lia. symmetry. apply IH; lia.
Qed.

Lemma parse_duration_range s d : parse_duration s = Some d -> in_int d.
Proof.
  unfold parse_duration. destruct (sign s) as [[sg neg] t]. destruct (String.eqb t "0"); [by intros [= <-]|].
  destruct (String.eqb t ""); [done|]. destruct (duration_items _ 0 t) as [x|] eqn:Hd; [|done]. simpl.
  assert (Hge : 0 <= x).
  { assert (H0 : 0 <= 0) by lia. revert H0 Hd. generalize 0 at 2 3 as d0. generalize (String.length t) as fuel. intros fuel.
    generalize t as s0. induction fuel as [|fuel IH]; intros [|c s0] d0 H0; cbn [duration_items]; [by intros [= <-]|done|by intros [= <-]|].
    destruct (duration_item (String c s0)) as [[v s1]|]; [|done]. cbn [mbind option_bind]. cbv zeta. destruct (2 ^ 63 <? wrapu 64 (d0 + v)); [done|].
    apply IH. apply Z.mod_pos_bound. lia. }
  destruct neg; [intros [= <-]; apply wrap64_range|]. destruct (Z.ltb_spec int_max x); [done|]. intros [= <-].
  unfold in_int, int_min. lia.
Qed.

Example float_thirds : parse_float 64 "0.1" = Some (S754_finite false 7205759403792794 (-56)).
Proof. vm_compute. reflexivity. Qed.
Example float_huge : parse_float 64 "1e400" = None /\ parse_float 64 "-Inf" = Some (S754_infinity true) /\
  parse_float 64 "1_000.5e0" = parse_float 64 "1000.5" /\ parse_float 64 "0x1p-2" = parse_float 64 "0.25" /\
  parse_float 64 "1__0" = None /\ parse_float 64 "" = None /\ parse_float 64 "." = None /\ parse_float 32 "1e39" = None.
Proof. vm_compute. repeat split. Qed.
Example durations : parse_duration "1h15m30.918s" = Some 4530918000000 /\ parse_duration "-1.5h" = Some (-5400000000000) /\
  parse_duration "3000000h" = None /\ parse_duration ".5" = None /\ parse_duration "9223372036854775807ns" = Some int_max /\
  parse_duration "-9223372036854775808ns" = Some int_min /\ parse_duration "1us" = parse_duration (String "1" micro_sign).
Proof. vm_compute. repeat split. Qed.
