(* ===== verification/GoJson.v ===== *)
(** * encoding/json and encoding/base64, as far as the packages use them on dynamic values

    Values are encoded and decoded into [any]. Text is ASCII on the encoding side; a number with
    a fraction or an exponent is kept as its literal; surrogate pairs decode like lone
    surrogates. *)

From S2P Require Import Prelude GoStrings Fiber.
Open Scope Z_scope.

(** ** Values after a round trip *)

(** The float64 nearest to an integer (ties to even), as an integer. *)
Definition round53 (z : Z) : Z :=
  let e := Z.log2 (Z.abs z) - 52 in
  if e <=? 0 then z
  else
    let q := Z.abs z / 2 ^ e in
    let r := Z.abs z mod 2 ^ e in
    let q' := if (2 ^ (e - 1) <? r) || ((r =? 2 ^ (e - 1)) && Z.odd q) then q + 1 else q in
    Z.sgn z * (q' * 2 ^ e).

Fixpoint json_any (v : any) : any :=
  match v with
  | AInt z => AFloat (round53 z)
  | AFloat z => AFloat (round53 z)
  | AStrs l => AList (map AStr l)
  | AList l => AList (map json_any l)
  | v => v
  end.

Definition ascii_only : string -> bool := sforall (fun c => code c <? 128).

(** The values the round trip covers: no [json.Number], no object. *)
Fixpoint encodable (v : any) : bool :=
  match v with
  | ANil | ABool _ => true
  | AInt _ => true
  | AFloat z => Z.abs z <? 10 ^ 21   (* beyond, Go writes an exponent *)
  | AStr s => ascii_only s
  | AStrs l => forallb ascii_only l
  | AList l => forallb encodable l
  | ANumber _ | AObj _ => false
  end.

(** ** Encoding *)

Definition quote : ascii := chr 34.
Definition backslash : ascii := chr 92.

Definition json_escape (c : ascii) : string :=
  let n := code c in
  let esc d := String backslash (String d EmptyString) in
  if (n =? 34) || (n =? 92) then esc c
  else if n =? 8 then esc "b"%char else if n =? 12 then esc "f"%char else if n =? 10 then esc "n"%char
  else if n =? 13 then esc "r"%char else if n =? 9 then esc "t"%char
  else if (n <? 32) || (n =? 60) || (n =? 62) || (n =? 38)
  then String backslash (String "u" (String "0" (String "0" (hex_encode (String c EmptyString)))))
  else String c EmptyString.

Fixpoint escape_all (s : string) : string :=
  match s with EmptyString => EmptyString | String c s => json_escape c +:+ escape_all s end.

Definition json_string (s : string) : string := String quote (escape_all s +:+ String quote EmptyString).

Definition brackets (o c : ascii) (items : list string) : string := String o (join "," items +:+ String c EmptyString).

Fixpoint marshal (v : any) : string :=
  match v with
  | ANil => "null"
  | ABool b => if b then "true" else "false"
  | AStr s => json_string s
  | AInt z | AFloat z => itoa z
  | ANumber t => t
  | AStrs l => brackets "[" "]" (map json_string l)
  | AList l => brackets "[" "]" (map marshal l)
  | AObj l => brackets "{" "}" (map (fun kv => json_string kv.1 +:+ String ":" (marshal kv.2)) l)
  end.

(** ** Decoding *)

Definition json_ws (c : ascii) : bool := let n := code c in (n =? 32) || (n =? 9) || (n =? 10) || (n =? 13).
Fixpoint skip_ws (s : string) : string :=
  match s with String c s' => if json_ws c then skip_ws s' else s | EmptyString => s end.

(** The bytes of a code point below 2^16; surrogates become U+FFFD. *)
Definition utf8 (n : Z) : string :=
  let n := if (55296 <=? n) && (n <? 57344) then 65533 else n in
  if n <? 128 then String (chr n) EmptyString
  else if n <? 2048 then String (chr (192 + n / 64)) (String (chr (128 + n mod 64)) EmptyString)
  else String (chr (224 + n / 4096)) (String (chr (128 + n / 64 mod 64)) (String (chr (128 + n mod 64)) EmptyString)).

Definition unescape (c : ascii) : option ascii :=
  let n := code c in
  if (n =? 34) || (n =? 92) || (n =? 47) then Some c
  else if n =? 98 then Some (chr 8) else if n =? 102 then Some (chr 12) else if n =? 110 then Some (chr 10)
  else if n =? 114 then Some (chr 13) else if n =? 116 then Some (chr 9) else None.

(** After the opening quote. *)
Fixpoint parse_str (s : string) : option (string * string) :=
  match s with
  | EmptyString => None
  | String c s =>
      if Ascii.eqb c quote then Some (EmptyString, s)
      else if Ascii.eqb c backslash then
        match s with
        | String u s1 =>
            if Ascii.eqb u "u" then
              match s1 with
              | String h1 (String h2 (String h3 (String h4 s'))) =>
                  a ← hex_value h1; b ← hex_value h2; c ← hex_value h3; d ← hex_value h4;
                  '(t, r) ← parse_str s'; Some (utf8 (((a * 16 + b) * 16 + c) * 16 + d) +:+ t, r)
              | _ => None
              end
            else x ← unescape u; '(t, r) ← parse_str s1; Some (String x t, r)
        | EmptyString => None
        end
      else if code c <? 32 then None
      else '(t, r) ← parse_str s; Some (String c t, r)
  end.

Definition num_char (c : ascii) : bool :=
  is_digit c || Ascii.eqb c "-" || Ascii.eqb c "+" || Ascii.eqb c "." || Ascii.eqb c "e" || Ascii.eqb c "E".

Fixpoint span (p : ascii -> bool) (s : string) : string * string :=
  match s with
  | EmptyString => (EmptyString, EmptyString)
  | String c s' => if p c then let '(a, b) := span p s' in (String c a, b) else (EmptyString, s)
  end.

(** An optional minus, an integer without leading zeros, an optional fraction and exponent. *)
Definition strip_minus (s : string) : string :=
  match s with String c s' => if Ascii.eqb c "-" then s' else s | EmptyString => s end.
Definition valid_digits (s : string) : bool := negb (String.eqb s EmptyString) && sforall is_digit s.
Definition valid_int_part (s : string) : bool :=
  match s with String c (String _ _) => negb (Ascii.eqb c "0") | _ => true end && valid_digits s.
Definition valid_exponent (s : string) : bool :=
  match s with
  | EmptyString => true
  | String e s => (Ascii.eqb e "e" || Ascii.eqb e "E") &&
      valid_digits (match s with String c s' => if Ascii.eqb c "-" || Ascii.eqb c "+" then s' else s | _ => s end)
  end.
Definition valid_number (s : string) : bool :=
  let '(i, r) := span is_digit (strip_minus s) in
  valid_int_part i &&
  match r with
  | String c r' => if Ascii.eqb c "." then let '(f, x) := span is_digit r' in valid_digits f && valid_exponent x
                   else valid_exponent r
  | EmptyString => true
  end.

Definition parse_number (t : string) : option any :=
  if valid_int_part (strip_minus t) then
    match parse_dec (strip_minus t) 0 with
    | Some n => Some (AFloat (round53 (match t with String "-" _ => - n | _ => n end)))
    | None => None
    end
  else if valid_number t then Some (ANumber t) else None.

Definition literal (w : string) (v : any) (s : string) : option (any * string) :=
  if has_prefix w s then Some (v, drop_string (String.length w) s) else None.

Fixpoint parse_value (fuel : nat) (s : string) : option (any * string) :=
  match fuel with
  | O => None
  | S fuel =>
      match skip_ws s with
      | EmptyString => None
      | String c r =>
          if Ascii.eqb c quote then '(t, r') ← parse_str r; Some (AStr t, r')
          else if Ascii.eqb c "[" then
            match skip_ws r with
            | String "]" r' => Some (AList [], r')
            | _ => '(l, r') ← parse_elems fuel r; Some (AList l, r')
            end
          else if Ascii.eqb c "{" then
            match skip_ws r with
            | String "}" r' => Some (AObj [], r')
            | _ => '(l, r') ← parse_fields fuel r; Some (AObj l, r')
            end
          else if Ascii.eqb c "n" then literal "null" ANil (String c r)
          else if Ascii.eqb c "t" then literal "true" (ABool true) (String c r)
          else if Ascii.eqb c "f" then literal "false" (ABool false) (String c r)
          else let '(t, r') := span num_char (String c r) in v ← parse_number t; Some (v, r')
      end
  end
with parse_elems (fuel : nat) (s : string) : option (list any * string) :=
  match fuel with
  | O => None
  | S fuel =>
      '(v, r) ← parse_value fuel s;
      match skip_ws r with
      | String "," r => '(l, r') ← parse_elems fuel r; Some (v :: l, r')
      | String "]" r => Some ([v], r)
      | _ => None
      end
  end
with parse_fields (fuel : nat) (s : string) : option (list (string * any) * string) :=
  match fuel with
  | O => None
  | S fuel =>
      match skip_ws s with
      | String q r =>
          if negb (Ascii.eqb q quote) then None
          else
            '(k, r) ← parse_str r;
            match skip_ws r with
            | String ":" r =>
                '(v, r) ← parse_value fuel r;
                match skip_ws r with
                | String "," r => '(l, r') ← parse_fields fuel r; Some ((k, v) :: l, r')
                | String "}" r => Some ([(k, v)], r)
                | _ => None
                end
            | _ => None
            end
      | EmptyString => None
      end
  end.

Definition unmarshal (s : string) : option any :=
  '(v, r) ← parse_value (S (2 * String.length s)) s;
  match skip_ws r with EmptyString => Some v | _ => None end.

(** [json.Unmarshal] into a [[]any]: an array, or null for the nil slice. *)
Definition unmarshal_slice (s : string) : option (list any) :=
  match unmarshal s with Some (AList l) => Some l | Some ANil => Some [] | _ => None end.

Example unmarshal_ok : unmarshal " [1, -20 ,null,[true],9007199254740993, 1.5e3]"%string =
  Some (AList [AFloat 1; AFloat (-20); ANil; AList [ABool true]; AFloat 9007199254740992; ANumber "1.5e3"]).
Proof. vm_compute. reflexivity. Qed.
Example unmarshal_bad : unmarshal "[01]"%string = None /\ unmarshal "[1"%string = None /\ unmarshal "[1]x"%string = None.
Proof. vm_compute. done. Qed.

(** ** base64.RawURLEncoding *)

Definition b64_char (n : Z) : ascii :=
  if n <? 26 then chr (65 + n) else if n <? 52 then chr (71 + n) else if n <? 62 then chr (n - 4)
  else if n =? 62 then "-"%char else "_"%char.

Definition b64_value (c : ascii) : option Z :=
  let n := code c in
  if is_upper c then Some (n - 65) else if is_lower c then Some (n - 71) else if is_digit c then Some (n + 4)
  else if n =? 45 then Some 62 else if n =? 95 then Some 63 else None.

Fixpoint b64_encode (s : string) : string :=
  match s with
  | String a (String b (String c s)) =>
      let x := code a in let y := code b in let z := code c in
      String (b64_char (x / 4)) (String (b64_char (x mod 4 * 16 + y / 16))
        (String (b64_char (y mod 16 * 4 + z / 64)) (String (b64_char (z mod 64)) (b64_encode s))))
  | String a (String b EmptyString) =>
      let x := code a in let y := code b in
      String (b64_char (x / 4)) (String (b64_char (x mod 4 * 16 + y / 16)) (String (b64_char (y mod 16 * 4)) EmptyString))
  | String a EmptyString =>
      let x := code a in String (b64_char (x / 4)) (String (b64_char (x mod 4 * 16)) EmptyString)
  | EmptyString => EmptyString
  end.

(** Go drops CR and LF and, not being strict, ignores the unused low bits of the last digit. *)
Fixpoint b64_decode_go (s : string) : option string :=
  match s with
  | String a (String b (String c (String d s))) =>
      x ← b64_value a; y ← b64_value b; z ← b64_value c; w ← b64_value d; t ← b64_decode_go s;
      Some (String (chr (x * 4 + y / 16)) (String (chr (y mod 16 * 16 + z / 4)) (String (chr (z mod 4 * 64 + w)) t)))
  | String a (String b (String c EmptyString)) =>
      x ← b64_value a; y ← b64_value b; z ← b64_value c;
      Some (String (chr (x * 4 + y / 16)) (String (chr (y mod 16 * 16 + z / 4)) EmptyString))
  | String a (String b EmptyString) => x ← b64_value a; y ← b64_value b; Some (String (chr (x * 4 + y / 16)) EmptyString)
  | String _ EmptyString => None
  | EmptyString => Some EmptyString
  end.

Fixpoint sfilter (p : ascii -> bool) (s : string) : string :=
  match s with String c s => if p c then String c (sfilter p s) else sfilter p s | EmptyString => s end.
Definition b64_decode (s : string) : option string :=
  b64_decode_go (sfilter (fun c => negb ((code c =? 10) || (code c =? 13))) s).

(** * Round trips *)

Lemma round53_small z : Z.abs z < 2 ^ 53 -> round53 z = z.
Proof.
  intros Hz. unfold round53. destruct (Z.eq_dec z 0) as [->|Hne]; [reflexivity|].
  assert (Z.log2 (Z.abs z) < 53) by (apply Z.log2_lt_pow2; lia).
  destruct (Z.leb_spec (Z.log2 (Z.abs z) - 52) 0); [done|lia].
Qed.

Lemma escape_char c t : (code c <? 128) = true ->
  parse_str (json_escape c +:+ t) = ('(u, r) ← parse_str t; Some (String c u, r)).
Proof. destruct c as [[] [] [] [] [] [] [] []]; intros Hc; (discriminate Hc || reflexivity). Qed.

Lemma parse_str_escape s rest : ascii_only s = true ->
  parse_str (escape_all s +:+ String quote rest) = Some (s, rest).
Proof.
  unfold ascii_only. induction s as [|c s IH]; intros Ha; [reflexivity|]. simpl in Ha. apply andb_true_iff in Ha as [Hc Ha].
  cbn [escape_all]. rewrite <- string_app_assoc, escape_char, IH by done. reflexivity.
Qed.

Definition stop (rest : string) : Prop := match rest with String c _ => num_char c = false | _ => True end.

Lemma span_stop p a rest : sforall p a = true -> match rest with String c _ => p c = false | _ => True end ->
  span p (a +:+ rest) = (a, rest).
Proof.
  intros Ha Hr. induction a as [|c a IH]; simpl in Ha.
  - rewrite string_app_nil_l. destruct rest as [|d rest]; [done|]. simpl. by rewrite Hr.
  - apply andb_true_iff in Ha as [Hc Ha]. rewrite string_app_cons. simpl. by rewrite Hc, IH.
Qed.

Lemma dec_go_lead fuel n acc : (0 < fuel)%nat -> 1 <= n < 10 ^ Z.of_nat fuel ->
  exists d t, 1 <= d < 10 /\ dec_go fuel n acc = String (digit d) t.
Proof.
  revert n acc; induction fuel as [|f IH]; intros n acc Hf Hn; [lia|]. simpl.
  destruct (Z.ltb_spec n 10) as [Hlt|Hge].
  - rewrite Z.mod_small by lia. exists n, acc. split; [lia|done].
  - rewrite Nat2Z.inj_succ, Z.pow_succ_r in Hn by lia. apply IH; [destruct f; [simpl in Hn; lia|lia]|].
    split; [apply Z.div_le_lower_bound; lia|]. apply Z.div_lt_upper_bound; lia.
Qed.

Lemma format_nat_valid n : 0 <= n -> valid_int_part (format_nat n) = true /\ parse_dec (format_nat n) 0 = Some n.
Proof.
  intros Hn. split.
  - unfold valid_int_part, valid_digits. rewrite (format_nat_digits n Hn), andb_true_r.
    rewrite (proj2 (String.eqb_neq _ _) (format_nat_nonempty n)), andb_true_r.
    destruct (Z.eq_dec n 0) as [->|Hne]; [reflexivity|]. unfold format_nat.
    destruct (dec_go_lead (S (Z.to_nat (Z.log2 n))) n EmptyString) as (d & t & Hd & ->); [lia| |].
    { pose proof (log2_fuel n Hn). lia. }
    destruct t; [done|]. destruct (Ascii.eqb_spec (digit d) "0") as [Heq|]; [|done].
    destruct (digit_spec d ltac:(lia)) as [_ Hc]. rewrite Heq in Hc. change (48 = 48 + d) in Hc. lia.
  - pose proof (parse_digits_format n Hn) as Hp. unfold parse_digits in Hp. by destruct (format_nat n).
Qed.

Lemma parse_number_itoa z : parse_number (itoa z) = Some (AFloat (round53 z)).
Proof.
  unfold itoa. destruct (Z.ltb_spec z 0) as [Hneg|Hpos].
  - destruct (format_nat_valid (- z) ltac:(lia)) as [Hv Hp]. unfold parse_number. simpl strip_minus.
    rewrite Hv, Hp. f_equal. f_equal. f_equal. lia.
  - destruct (format_nat_valid z Hpos) as [Hv Hp]. pose proof (format_nat_digits z Hpos) as Hd.
    pose proof (format_nat_nonempty z) as Hne. destruct (format_nat z) as [|c t] eqn:Hf; [done|].
    simpl in Hd. apply andb_true_iff in Hd as [Hc _]. unfold parse_number, strip_minus.
    assert (Hm : Ascii.eqb c "-" = false) by (destruct (Ascii.eqb_spec c "-") as [->|]; [discriminate Hc|done]).
    rewrite Hm, Hv, Hp. destruct c as [[] [] [] [] [] [] [] []]; first [reflexivity|discriminate Hm].
Qed.

(** A text that reads back as a value, in front of any text that cannot continue a number. *)
Definition head_ok (x : string) : Prop :=
  match x with String c _ => json_ws c = false /\ c <> "]"%char | EmptyString => False end.

Definition encodes (x : string) (v : any) : Prop :=
  head_ok x /\
  forall fuel rest, stop rest -> (2 * String.length x <= fuel)%nat -> parse_value fuel (x +:+ rest) = Some (v, rest).

Lemma encodes_fuel x v : encodes x v -> (1 <= String.length x)%nat.
Proof. intros [Hh _]. destruct x; [done|simpl; lia]. Qed.

Lemma head_skip x rest : head_ok x -> skip_ws (x +:+ rest) = x +:+ rest.
Proof. destruct x as [|c x]; [done|]. intros [Hc _]. rewrite string_app_cons. simpl. by rewrite Hc. Qed.

Lemma encodes_string s : ascii_only s = true -> encodes (json_string s) (AStr s).
Proof.
  intros Ha. split; [done|]. intros [|fuel] rest _ Hf; [simpl in Hf; lia|]. unfold json_string.
  rewrite string_app_cons, <- string_app_assoc. cbn [parse_value].
  change (skip_ws (String quote ?x)) with (String quote x). cbv iota beta.
  change (Ascii.eqb quote quote) with true. cbv iota. rewrite string_app_cons, string_app_nil_l.
  rewrite (parse_str_escape s rest Ha). reflexivity.
Qed.

Lemma encodes_itoa z : encodes (itoa z) (AFloat (round53 z)).
Proof.
  pose proof (itoa_chars z) as Hc. pose proof (itoa_nonempty z) as Hne. pose proof (parse_number_itoa z) as Hp.
  assert (Hnum : sforall num_char (itoa z) = true).
  { eapply sforall_impl; [|exact Hc]. intros c. unfold numeric_char, num_char. intros [->| ->]%orb_true_iff; [done|].
    by rewrite orb_true_r. }
  destruct (itoa z) as [|c x] eqn:Hz; [done|]. simpl in Hc. apply andb_true_iff in Hc as [Hc _].
  split.
  - destruct c as [[] [] [] [] [] [] [] []]; first [discriminate Hc|by split].
  - intros [|fuel] rest Hs Hf; [simpl in Hf; lia|].
    pose proof (span_stop num_char (String c x) rest Hnum Hs) as Hsp.
    rewrite string_app_cons in *. cbn [parse_value].
    assert (Hskip : skip_ws (String c (x +:+ rest)) = String c (x +:+ rest)).
    { simpl. by destruct c as [[] [] [] [] [] [] [] []]; first [discriminate Hc|reflexivity]. }
    rewrite Hskip. cbv iota beta. rewrite Hsp. cbv iota beta. rewrite Hp.
    destruct c as [[] [] [] [] [] [] [] []]; first [discriminate Hc|reflexivity].
Qed.

Lemma join_cons_cons (x y : string) l : join "," (x :: y :: l) = x +:+ String "," (join "," (y :: l)).
Proof. reflexivity. Qed.

(** One turn of the element loop. *)
Lemma parse_elems_step fuel s :
  parse_elems (S fuel) s =
    match parse_value fuel s with
    | Some (v, r) =>
        match skip_ws r with
        | String "," r => match parse_elems fuel r with Some (l, r') => Some (v :: l, r') | None => None end
        | String "]" r => Some ([v], r)
        | _ => None
        end
    | None => None
    end.
Proof. reflexivity. Qed.

Lemma parse_elems_join items vs : Forall2 encodes items vs -> items <> [] ->
  forall fuel rest, (2 * String.length (join "," items) + 2 <= fuel)%nat ->
    parse_elems fuel (join "," items +:+ String "]" rest) = Some (vs, rest).
Proof.
  induction 1 as [|x v items vs Hx Hall IH]; [done|]. intros _ [|fuel] rest Hf; [lia|]. rewrite parse_elems_step.
  destruct Hall as [|y w items vs Hy Hall].
  - simpl join in *. destruct Hx as [_ Hx]. rewrite (Hx fuel (String "]" rest)); [reflexivity|done|lia].
  - rewrite join_cons_cons in *. rewrite string_app_length in Hf. cbn [String.length] in Hf.
    pose proof (encodes_fuel _ _ Hx).
    rewrite <- string_app_assoc, string_app_cons. destruct Hx as [_ Hx].
    rewrite (Hx fuel _); [|done|lia]. change (skip_ws (String "," ?t)) with (String "," t). cbv iota.
    rewrite (IH ltac:(done) fuel rest); [done|lia].
Qed.

Lemma encodes_list items vs : Forall2 encodes items vs -> encodes (brackets "[" "]" items) (AList vs).
Proof.
  intros Hall. split; [done|]. intros [|fuel] rest _ Hf; [simpl in Hf; lia|]. unfold brackets in *.
  rewrite string_app_cons, <- string_app_assoc, string_app_cons, string_app_nil_l.
  destruct Hall as [|x v items vs Hx Hall]; [reflexivity|].
  cbn [String.length] in Hf. rewrite string_app_length in Hf. cbn [String.length] in Hf.
  assert (Hel : parse_elems fuel (join "," (x :: items) +:+ String "]" rest) = Some (v :: vs, rest)).
  { apply parse_elems_join; [by constructor|done|lia]. }
  assert (Hhead : head_ok (join "," (x :: items))).
  { destruct Hx as [Hh _]. destruct items; [exact Hh|]. rewrite join_cons_cons. destruct x; [done|exact Hh]. }
  cbn [parse_value]. change (skip_ws (String "[" ?t)) with (String "[" t). cbv iota beta.
  change (Ascii.eqb "[" quote) with false. change (Ascii.eqb "[" "[") with true. cbv iota.
  rewrite (head_skip _ _ Hhead), Hel.
  destruct (join "," (x :: items)) as [|c t]; [done|]. destruct Hhead as [_ Hne]. rewrite string_app_cons. csimpl.
  destruct c as [[] [] [] [] [] [] [] []]; first [reflexivity|by destruct Hne].
Qed.

(** Every encodable value reads back, integers as the nearest float64. *)
Lemma encodes_marshal v : encodable v = true -> encodes (marshal v) (json_any v).
Proof.
  revert v. fix IH 1. intros [|b|s|z|z|t|l|l|l] Hv; simpl in Hv.
  - split; [done|]. intros [|fuel] rest _ Hf; [simpl in Hf; lia|reflexivity].
  - destruct b; (split; [done|]; intros [|fuel] rest _ Hf; [simpl in Hf; lia|reflexivity]).
  - by apply encodes_string.
  - apply encodes_itoa.
  - apply encodes_itoa.
  - done.
  - apply (encodes_list (map json_string l) (map AStr l)). induction l as [|s l Hl]; [constructor|].
    simpl in Hv. apply andb_true_iff in Hv as [? ?]. constructor; [by apply encodes_string|by apply Hl].
  - apply (encodes_list (map marshal l) (map json_any l)). induction l as [|x l Hl]; [constructor|].
    simpl in Hv. apply andb_true_iff in Hv as [Hx ?]. constructor; [by apply IH|by apply Hl].
  - done.
Qed.

Lemma unmarshal_marshal v : encodable v = true -> unmarshal (marshal v) = Some (json_any v).
Proof.
  intros Hv. destruct (encodes_marshal v Hv) as [_ He]. unfold unmarshal.
  rewrite <- (string_app_nil_r (marshal v)) at 2. rewrite (He _ EmptyString); [reflexivity|done|lia].
Qed.

(** ** base64 *)

Lemma b64_value_char n : 0 <= n < 64 -> b64_value (b64_char n) = Some n.
Proof.
  intros Hn. assert (Hall : forall m, (m < 64)%nat -> b64_value (b64_char (Z.of_nat m)) = Some (Z.of_nat m)).
  { intros m Hm. do 64 (destruct m as [|m]; [vm_compute; reflexivity|]). lia. }
  specialize (Hall (Z.to_nat n)). rewrite Z2Nat.id in Hall by lia. apply Hall. lia.
Qed.

Definition b64_alphabet (c : ascii) : bool := match b64_value c with Some _ => true | None => false end.

Ltac bytes_lia := repeat match goal with
  | |- context [code ?c] => lazymatch goal with H : 0 <= code c < 256 |- _ => fail | _ => pose proof (code_range c) end
  end; Z.to_euclidean_division_equations; lia.

Lemma chr_eq n a : n = code a -> chr n = a.
Proof. intros ->. apply chr_code. Qed.

Lemma b64_decode_encode_go s : b64_decode_go (b64_encode s) = Some s.
Proof.
  enough (Hlen : forall n s, (String.length s <= n)%nat -> b64_decode_go (b64_encode s) = Some s) by (by apply (Hlen (String.length s))).
  clear s. induction n as [|n IH]; intros s Hl; [destruct s; [done|simpl in Hl; lia]|].
  destruct s as [|a [|b [|c s]]]; [reflexivity|..]; cbn [b64_encode b64_decode_go].
  - rewrite !b64_value_char by bytes_lia. csimpl. f_equal. f_equal. apply chr_eq. bytes_lia.
  - rewrite !b64_value_char by bytes_lia. csimpl. f_equal. f_equal; [|f_equal].
    + apply chr_eq. bytes_lia.
    + apply chr_eq. bytes_lia.
  - simpl in Hl. rewrite !b64_value_char by bytes_lia. csimpl. rewrite IH by lia. csimpl. f_equal.
    f_equal; [|f_equal; [|f_equal]].
    + apply chr_eq. bytes_lia.
    + apply chr_eq. bytes_lia.
    + apply chr_eq. bytes_lia.
Qed.

Lemma sfilter_id p s : sforall p s = true -> sfilter p s = s.
Proof. induction s as [|c s IH]; simpl; [done|]. intros [-> ?]%andb_true_iff. by rewrite IH. Qed.

Lemma b64_encode_chars s : sforall (fun c => negb ((code c =? 10) || (code c =? 13))) (b64_encode s) = true.
Proof.
  assert (Hch : forall n, 0 <= n < 64 -> negb ((code (b64_char n) =? 10) || (code (b64_char n) =? 13)) = true).
  { intros n Hn. pose proof (b64_value_char n Hn) as Hv. destruct (b64_char n) as [[] [] [] [] [] [] [] []];
      first [reflexivity|vm_compute in Hv; discriminate]. }
  enough (Hlen : forall n s, (String.length s <= n)%nat -> sforall (fun c => negb ((code c =? 10) || (code c =? 13))) (b64_encode s) = true)
    by (by apply (Hlen (String.length s))).
  clear s. induction n as [|n IH]; intros s Hl; [destruct s; [done|simpl in Hl; lia]|].
  destruct s as [|a [|b [|c s]]]; [reflexivity|..]; cbn [b64_encode sforall]; rewrite !Hch by bytes_lia; [reflexivity..|].
  simpl in Hl. rewrite IH by lia. reflexivity.
Qed.

Lemma b64_decode_encode s : b64_decode (b64_encode s) = Some s.
Proof. unfold b64_decode. rewrite sfilter_id by apply b64_encode_chars. apply b64_decode_encode_go. Qed.

Lemma b64_encode_nonempty s : s <> EmptyString -> b64_encode s <> EmptyString.
Proof. destruct s as [|a [|b [|c s]]]; done. Qed.
