(* ===== verification/ApiError.v ===== *)
(** * Typed HTTP errors and the error handler (apierror/apierror.go, metrics/metrics.go,
      bind/bind.go, validator/validator.go)

    [goerr] is the tree of Go errors a handler can return: [*apierror.Error] (with its wrapped
    cause), [*fiber.Error], a plain error, and [fmt.Errorf]/[errors.Join] wrappers. [Handler]
    renders one as a reply; the metrics middleware derives a status label from the same error. *)

From S2P Require Import Prelude GoStrings Fiber.
Open Scope Z_scope.

#[warnings="-register-all"]
Inductive goerr :=
| EApi (status : Z) (ecode message : string) (details : any) (cause : option goerr)
| EFiber (ecode : Z) (message : string)
| EPlain (message : string)
| EWrap (message : string) (causes : list goerr).

(** The exported fields of an [*apierror.Error]. *)
Record api := Api { Status : Z; Code : string; Message : string; Details : any }.

(** [errors.As]: depth-first, the error itself before what it wraps. *)
Definition first_some {A B} (f : A -> option B) : list A -> option B :=
  fix go l := match l with [] => None | x :: l => match f x with Some y => Some y | None => go l end end.

Fixpoint as_api (e : goerr) : option api :=
  match e with
  | EApi s c m d _ => Some (Api s c m d)
  | EFiber _ _ | EPlain _ => None
  | EWrap _ cs => first_some as_api cs
  end.

Fixpoint as_fiber (e : goerr) : option (Z * string) :=
  match e with
  | EApi _ _ _ _ cause => match cause with Some e' => as_fiber e' | None => None end
  | EFiber c m => Some (c, m)
  | EPlain _ => None
  | EWrap _ cs => first_some as_fiber cs
  end.

(** ** Constructors *)

Definition New (status : Z) (ecode message : string) : goerr := EApi status ecode message ANil None.
Definition BadRequest (m : string) : goerr := New StatusBadRequest "bad_request" m.
Definition Unauthorized (m : string) : goerr := New StatusUnauthorized "unauthorized" m.
Definition Forbidden (m : string) : goerr := New StatusForbidden "forbidden" m.
Definition NotFound (m : string) : goerr := New StatusNotFound "not_found" m.
Definition Conflict (m : string) : goerr := New StatusConflict "conflict" m.
Definition UnprocessableEntity (m : string) : goerr :=
  New StatusUnprocessableEntity "unprocessable_entity" m.
Definition TooManyRequests (m : string) : goerr := New StatusTooManyRequests "too_many_requests" m.
Definition Internal (m : string) : goerr := New StatusInternalServerError "internal_server_error" m.

(** The copying setters; on anything but an [*Error] they do not apply. *)
Definition WithCode (ecode : string) (e : goerr) : goerr :=
  match e with EApi s _ m d c => EApi s ecode m d c | _ => e end.
Definition WithDetails (d : any) (e : goerr) : goerr :=
  match e with EApi s ecode m _ c => EApi s ecode m d c | _ => e end.
Definition WrapErr (err : goerr) (e : goerr) : goerr :=
  match e with EApi s ecode m d _ => EApi s ecode m d (Some err) | _ => e end.
Definition Unwrap (e : goerr) : option goerr :=
  match e with EApi _ _ _ _ c => c | _ => None end.

(** ** Handler *)

Definition Handler (err : goerr) : reply :=
  match as_api err with
  | Some ae => Reply (Status ae) (MkResponse (Status ae) (Message ae) (Code ae) (Details ae) "error")
  | None =>
      match as_fiber err with
      | Some (fcode, fmsg) => Reply fcode (MkResponse fcode fmsg EmptyString ANil "error")
      | None => Reply StatusInternalServerError
                  (MkResponse StatusInternalServerError "internal server error" EmptyString ANil "error")
      end
  end.

(** ** metrics.Middleware: the status label of a finished request

    [response_code] is [c.Response().StatusCode()] and [err] what [c.Next()] returned. *)
Definition metrics_code (response_code : Z) (err : option goerr) : Z :=
  match err with
  | None => response_code
  | Some e => match as_fiber e with
              | Some (c, _) => c
              | None => StatusInternalServerError
              end
  end.

Definition MetricsPath : string := "/metrics".

(** The labels recorded: none for the scrape path itself; the route template when there is one. *)
Definition metrics_labels (req_path method route_path : string) (response_code : Z)
    (err : option goerr) : option (string * string * string) :=
  if String.eqb req_path MetricsPath then None
  else Some (method, if String.eqb route_path EmptyString then req_path else route_path,
             itoa (metrics_code response_code err)).

(** ** bind.bindAndValidate

    [parse] is the Fiber parser and [ValidateStruct] the validator: parameters. The result is the
    value when [ok], otherwise the error reply written. *)
Section Bind.
  Context {T V : Type} (ValidateStruct : T -> list V) (errors_data : list V -> any).
Definition bindAndValidate (parsed : goerr + T) (err_text : goerr -> string) : reply + T :=
  match parsed with
  | inl err => inl (SendError ANil (err_text err) [StatusBadRequest])
  | inr v =>
      match ValidateStruct v with
      | [] => inr v
      | errs => inl (SendError (errors_data errs) "validation failed" [StatusUnprocessableEntity])
      end
  end.
End Bind.

(** ** validator.ErrorsToString *)
Record ErrorResponse := MkErrorResponse { Field : string; Tag : string; Param : string; Value : string }.

Definition ErrorsToString (errs : list ErrorResponse) : string :=
  join ", " (map (fun e => "field '" +:+ Field e +:+ "' failed on the '" +:+ Tag e +:+ "' tag") errs).

(** * Properties *)

(** Every reply of the error handler is a well-formed error envelope: its body repeats the
    HTTP status and says "error"; and an error with no typed error anywhere in its tree is
    rendered as the same constant 500 reply, so its text never reaches the client. *)
Theorem Handler_envelope err :
  r_code (body (Handler err)) = http_status (Handler err) /\
  r_status (body (Handler err)) = "error"%string /\
  (as_api err = None -> as_fiber err = None -> Handler err = Handler (EPlain EmptyString)).
Proof.
  unfold Handler. destruct (as_api err) as [ae|]; [done|].
  by destruct (as_fiber err) as [[c m]|].
Qed.

(** The text of any wrapped cause. *)
Lemma as_api_wrap m e cs : as_api e = None -> as_api (EWrap m (e :: cs)) = as_api (EWrap m cs).
Proof. simpl. by intros ->. Qed.

Lemma as_api_wrap_found m e cs a : as_api e = Some a -> as_api (EWrap m (e :: cs)) = Some a.
Proof. simpl. by intros ->. Qed.

(** An [*apierror.Error] decides the reply however deep [fmt.Errorf("...%w")] wraps it, and
    whatever cause, code or details were attached to it: the status is that of the innermost
    constructor, the cause is never rendered. *)
Theorem Handler_wrapped status ecode message ecode' details cause (msgs : list string) :
  let e := WrapErr cause (WithDetails details (WithCode ecode' (New status ecode message))) in
  let wrapped := foldr (fun m e => EWrap m [e]) e msgs in
  Handler wrapped = Reply status (MkResponse status message ecode' details "error").
Proof.
  intros e wrapped. assert (H : as_api wrapped = Some (Api status ecode' message details)).
  { unfold wrapped. induction msgs as [|m msgs IH]; [done|]. by apply as_api_wrap_found. }
  unfold Handler. by rewrite H.
Qed.

(** The status label recorded by the metrics middleware is the status the client receives
    whenever the returned error holds no [*apierror.Error]. *)
Theorem metrics_code_client response_code err :
  as_api err = None -> metrics_code response_code (Some err) = http_status (Handler err).
Proof.
  intros H. unfold metrics_code, Handler. rewrite H. by destruct (as_fiber err) as [[c m]|].
Qed.

Lemma metrics_code_client_witness :
  as_api (EWrap "route" [EFiber 404 "Not Found"]) = None /\
  metrics_code 200 (Some (EWrap "route" [EFiber 404 "Not Found"])) = 404.
Proof.
  split; [reflexivity|].
  rewrite (metrics_code_client 200 (EWrap "route" [EFiber 404 "Not Found"])); reflexivity.
Defined.

Lemma Handler_envelope_witness :
  as_api (EWrap "query" [EPlain "password=hunter2"]) = None /\
  as_fiber (EWrap "query" [EPlain "password=hunter2"]) = None /\
  Handler (EWrap "query" [EPlain "password=hunter2"]) = Handler (EPlain EmptyString).
Proof.
  split; [reflexivity|]. split; [reflexivity|].
  exact (proj2 (proj2 (Handler_envelope (EWrap "query" [EPlain "password=hunter2"]))) eq_refl eq_refl).
Defined.

(** With an [*apierror.Error] it is not: a 404 is recorded as a 500. *)
Theorem metrics_code_apierror_diverges :
  metrics_code 200 (Some (NotFound "user")) = 500 /\ http_status (Handler (NotFound "user")) = 404.
Proof. split; reflexivity. Qed.
