(* ===== verification/Webhook.v ===== *)
(** * Webhook signatures (webhook/webhook.go, webhook/middleware.go)

    The header is "t=<unix>,v1=<hex>"; the MAC is over "<unix>.<payload>". The clock is the
    argument [now], in nanoseconds since the Unix epoch. *)

From S2P Require Import Prelude GoStrings GoCrypto Fiber ApiError.
Open Scope Z_scope.

Definition DefaultHeader : string := "Webhook-Signature".
Definition DefaultTolerance : Z := 5 * Minute.

Inductive verify_error := ErrMalformedHeader | ErrExpired | ErrInvalidSignature.

Definition mac (payload secret : string) (unix : Z) : string :=
  hmac_sha256 secret (itoa unix +:+ "." +:+ payload).

Definition Sign (payload secret : string) (unix : Z) : string :=
  "t=" +:+ itoa unix +:+ ",v1=" +:+ hex_encode (mac payload secret unix).

(** [time.Unix(unix, 0)] in nanoseconds: the seconds since year 1 wrap at 64 bits. *)
Definition unix_to_internal : Z := 62135596800.
Definition time_Unix (unix : Z) : Z := (wrap64 (unix + unix_to_internal) - unix_to_internal) * Second.

(** The loop over the comma-separated parts: the last "t" and the last "v1" win. *)
Definition header_part (acc : string * string) (part : string) : string * string :=
  let '(k, v, ok) := cut "=" (trim_space part) in
  if negb ok then acc
  else if String.eqb k "t" then (v, acc.2)
  else if String.eqb k "v1" then (acc.1, v)
  else acc.

Definition parse_header (header : string) : string * string :=
  fold_left header_part (split "," header) (EmptyString, EmptyString).

(** [time.Since] and its absolute value, as the code takes it: negation wraps. *)
Definition age (now unix : Z) : Z :=
  let delta := time_sub now (time_Unix unix) in
  if delta <? 0 then wrap64 (- delta) else delta.

Definition Verify (now : Z) (payload header secret : string) (tolerance : Z) : option verify_error :=
  let '(tsStr, sig) := parse_header header in
  if String.eqb tsStr EmptyString || String.eqb sig EmptyString then Some ErrMalformedHeader
  else
    match parse_int 64 tsStr with
    | None => Some ErrMalformedHeader
    | Some unix =>
        if (0 <? tolerance) && (tolerance <? age now unix) then Some ErrExpired
        else
          match hex_decode sig with
          | None => Some ErrInvalidSignature
          | Some got => if String.eqb (mac payload secret unix) got then None else Some ErrInvalidSignature
          end
    end.

Record MiddlewareConfig := MkConfig { Secret : string; Header : string; Tolerance : Z }.

(** The defaults [Middleware] fills in. *)
Definition fill_config (cfg : MiddlewareConfig) : MiddlewareConfig :=
  MkConfig (Secret cfg)
    (if String.eqb (Header cfg) EmptyString then DefaultHeader else Header cfg)
    (if Tolerance cfg =? 0 then DefaultTolerance else Tolerance cfg).

Definition Middleware {Id} (cfg : MiddlewareConfig) (now : Z) (req_body : string) : handler Id goerr :=
  fun c =>
    let cfg := fill_config cfg in
    match Verify now req_body (header c (Header cfg)) (Secret cfg) (Tolerance cfg) with
    | Some _ => Fail (WithCode "invalid_signature" (Unauthorized "invalid webhook signature"))
    | None => Next c
    end.

(** * Lemmas *)

Definition header_char (c : ascii) : bool := numeric_char c || hex_char c.

Lemma header_char_not sep s :
  header_char sep = false -> sforall header_char s = true -> contains_char sep s = false.
Proof. apply sforall_not_contains. Qed.

Lemma itoa_header z : sforall header_char (itoa z) = true.
Proof.
  eapply sforall_impl; [|apply itoa_chars]. intros c Hc. unfold header_char. by rewrite Hc.
Qed.

Lemma hex_header s : sforall header_char (hex_encode s) = true.
Proof.
  eapply sforall_impl; [|apply hex_encode_chars].
  intros c Hc. unfold header_char. by rewrite Hc, orb_true_r.
Qed.

Lemma header_char_nospace c : header_char c = true -> negb (is_space c) = true.
Proof. destruct c as [[] [] [] [] [] [] [] []]; vm_compute; congruence. Qed.

(** One well-formed part "k=v". *)
Lemma header_part_kv acc k v :
  sforall (fun c => negb (is_space c)) (k +:+ String "=" v) = true ->
  contains_char "=" k = false ->
  header_part acc (k +:+ String "=" v) =
    if String.eqb k "t" then (v, acc.2) else if String.eqb k "v1" then (acc.1, v) else acc.
Proof.
  intros Hs Hk. unfold header_part. rewrite trim_space_id by done. by rewrite cut_app.
Qed.

Lemma nospace_kv k v :
  sforall (fun c => negb (is_space c)) k = true -> sforall header_char v = true ->
  sforall (fun c => negb (is_space c)) (k +:+ String "=" v) = true.
Proof.
  intros Hk Hv. rewrite sforall_app, Hk. simpl.
  eapply sforall_impl; [|exact Hv]. apply header_char_nospace.
Qed.

(** [Verify]'s parser reads back what [Sign] writes. *)
Lemma parse_header_Sign payload secret unix :
  parse_header (Sign payload secret unix) = (itoa unix, hex_encode (mac payload secret unix)).
Proof.
  unfold parse_header, Sign.
  replace ("t=" +:+ itoa unix +:+ ",v1=" +:+ hex_encode (mac payload secret unix))
    with (("t" +:+ String "=" (itoa unix)) +:+
            String "," ("v1" +:+ String "=" (hex_encode (mac payload secret unix)))).
  2:{ rewrite <- (string_app_assoc "t"). done. }
  rewrite split_app, split_nosep.
  - simpl. rewrite !header_part_kv by (done || by apply nospace_kv; [|apply itoa_header || apply hex_header]).
    done.
  - unfold contains_char. rewrite sexists_app. simpl.
    apply (header_char_not "," _ eq_refl (hex_header _)).
  - unfold contains_char. rewrite sexists_app. simpl.
    apply (header_char_not "," _ eq_refl (itoa_header _)).
Qed.


Lemma mac_hex_nonempty payload secret unix : hex_encode (mac payload secret unix) <> EmptyString.
Proof.
  intros H. pose proof (hex_encode_length (mac payload secret unix)) as Hl.
  unfold mac in Hl. rewrite hmac_sha256_length in Hl. unfold mac in H. by rewrite H in Hl.
Qed.

(** What [Verify] computes once the header is parsed. *)
Lemma Verify_parsed now payload header secret tolerance tsStr sig unix :
  parse_header header = (tsStr, sig) -> tsStr <> EmptyString -> sig <> EmptyString ->
  parse_int 64 tsStr = Some unix ->
  Verify now payload header secret tolerance =
    if (0 <? tolerance) && (tolerance <? age now unix) then Some ErrExpired
    else match hex_decode sig with
         | None => Some ErrInvalidSignature
         | Some got => if String.eqb (mac payload secret unix) got then None else Some ErrInvalidSignature
         end.
Proof.
  intros Hp Ht Hs Hu. unfold Verify. rewrite Hp.
  apply String.eqb_neq in Ht, Hs. by rewrite Ht, Hs, Hu.
Qed.

Lemma Verify_None now payload header secret tolerance :
  Verify now payload header secret tolerance = None ->
  exists tsStr sig unix, parse_header header = (tsStr, sig) /\ parse_int 64 tsStr = Some unix /\
    (0 < tolerance -> age now unix <= tolerance) /\ hex_decode sig = Some (mac payload secret unix).
Proof.
  unfold Verify. destruct (parse_header header) as [tsStr sig].
  destruct (_ || _); [done|]. destruct (parse_int 64 tsStr) as [unix|] eqn:Hu; [|done].
  destruct ((0 <? tolerance) && _) eqn:Hx; [done|].
  destruct (hex_decode sig) as [got|] eqn:Hd; [|done].
  destruct (String.eqb_spec (mac payload secret unix) got) as [<-|]; [|done]. intros _.
  exists tsStr, sig, unix. split_and!; try done.
  intros Ht. destruct (Z.ltb_spec 0 tolerance); [|lia]. simpl in Hx. apply Z.ltb_ge in Hx. done.
Qed.

Lemma age_exact now unix :
  in_int (unix + unix_to_internal) -> Z.abs (now - unix * Second) <= int_max ->
  age now unix = Z.abs (now - unix * Second).
Proof.
  intros Hi Ha. unfold age, time_Unix. rewrite wrap64_id by done.
  replace (unix + unix_to_internal - unix_to_internal) with unix by lia.
  unfold time_sub. unfold int_min, int_max in *.
  destruct (Z.ltb_spec (Z.max (- 2 ^ 63) (Z.min (2 ^ 63 - 1) (now - unix * Second))) 0); [|lia].
  rewrite wrap64_id; unfold in_int, int_min, int_max; lia.
Qed.

(** * Properties *)

(** Sign/Verify round trip, for any payload, secret and 64-bit timestamp: a header made by
    [Sign] is accepted by [Verify] with the same secret and payload exactly when no tolerance is
    set or the timestamp is within it, and is otherwise refused as expired, never as malformed. *)
Theorem Verify_Sign now payload secret unix tolerance :
  in_int unix ->
  Verify now payload (Sign payload secret unix) secret tolerance =
    if (0 <? tolerance) && (tolerance <? age now unix) then Some ErrExpired else None.
Proof.
  intros Hu.
  rewrite (Verify_parsed _ _ _ _ _ (itoa unix) (hex_encode (mac payload secret unix)) unix).
  - rewrite hex_decode_encode, String.eqb_refl. done.
  - apply parse_header_Sign.
  - apply itoa_nonempty.
  - apply mac_hex_nonempty.
  - by apply parse_int_itoa.
Qed.

Lemma Verify_Sign_witness :
  in_int 1700000000 /\
  Verify (1700000100 * Second) "{}" (Sign "{}" "k" 1700000000) "k" DefaultTolerance = None.
Proof.
  split; [unfold in_int, int_min, int_max; lia|].
  rewrite (Verify_Sign (1700000100 * Second) "{}" "k" 1700000000 DefaultTolerance);
    [vm_compute; reflexivity|unfold in_int, int_min, int_max; lia].
Defined.

(** Replay window: while clock and timestamp are less than 292 years apart, a signed header is
    accepted if and only if the two differ by at most the tolerance. *)
Theorem Verify_window now payload secret unix tolerance :
  in_int unix -> in_int (unix + unix_to_internal) ->
  0 < tolerance -> Z.abs (now - unix * Second) <= int_max ->
  Verify now payload (Sign payload secret unix) secret tolerance = None <->
    Z.abs (now - unix * Second) <= tolerance.
Proof.
  intros Hu Hi Ht Ha.
  rewrite (Verify_parsed _ _ _ _ _ (itoa unix) (hex_encode (mac payload secret unix)) unix);
    [|apply parse_header_Sign|apply itoa_nonempty|apply mac_hex_nonempty|by apply parse_int_itoa].
  rewrite hex_decode_encode, String.eqb_refl, age_exact by done.
  destruct (Z.ltb_spec 0 tolerance); [|lia]. simpl.
  destruct (Z.ltb_spec tolerance (Z.abs (now - unix * Second))); split; intros; try done; lia.
Qed.

Lemma Verify_window_witness :
  in_int 1700000000 /\
  (Verify (1700000000 * Second + 7) "{}" (Sign "{}" "k" 1700000000) "k" 7 = None <->
   Z.abs (1700000000 * Second + 7 - 1700000000 * Second) <= 7).
Proof.
  split; [unfold in_int, int_min, int_max; lia|].
  apply (Verify_window (1700000000 * Second + 7) "{}" "k" 1700000000 7);
    unfold in_int, int_min, int_max, unix_to_internal, Second; lia.
Defined.

(** A header binds its payload: two payloads accepted under one header and one secret, at any
    two times, have the same HMAC over the same timestamp, so telling them apart is a collision
    of HMAC-SHA256. *)
Theorem Verify_binds now1 now2 p1 p2 header secret tol1 tol2 :
  Verify now1 p1 header secret tol1 = None -> Verify now2 p2 header secret tol2 = None ->
  exists unix, parse_int 64 (parse_header header).1 = Some unix /\
    hmac_sha256 secret (itoa unix +:+ "." +:+ p1) = hmac_sha256 secret (itoa unix +:+ "." +:+ p2).
Proof.
  intros (t1 & s1 & u1 & Hp1 & Hu1 & _ & Hd1)%Verify_None (t2 & s2 & u2 & Hp2 & Hu2 & _ & Hd2)%Verify_None.
  rewrite Hp1 in Hp2. injection Hp2 as <- <-. rewrite Hu1 in Hu2. injection Hu2 as <-.
  exists u1. rewrite Hp1. split; [done|]. rewrite Hd1 in Hd2. by injection Hd2.
Qed.

Lemma Verify_binds_witness :
  exists unix, parse_int 64 (parse_header (Sign "{}" "k" 5)).1 = Some unix /\
    hmac_sha256 "k" (itoa unix +:+ "." +:+ "{}") = hmac_sha256 "k" (itoa unix +:+ "." +:+ "{}").
Proof. apply (Verify_binds 0 1 "{}" "{}" (Sign "{}" "k" 5) "k" 0 0); vm_compute; reflexivity. Defined.

(** Beyond the range of [Verify_window] the saturated difference is the smallest duration, whose
    negation wraps to itself: a header signed for the year 5138 passes the five-minute check. *)
Theorem Verify_far_future :
  Verify (1700000000 * Second) "{}" (Sign "{}" "k" 100000000000) "k" DefaultTolerance = None.
Proof. vm_compute. reflexivity. Qed.
