(* ===== verification/ApiKey.v ===== *)
(** * API-key authentication (apikey/apikey.go, apikey/middleware.go) *)

From S2P Require Import Prelude GoStrings GoCrypto Fiber ApiError.
Open Scope Z_scope.

Record Identity := MkIdentity { ID : string; Scopes : list string; Meta : list (string * any) }.

(** [Store]: a failed lookup, an unknown key ([nil, nil]) or the identity. *)
Class Store := Lookup : string -> error + option Identity.

(** The in-memory store; [MapStore] copies the Go map, a value here. *)
Definition MapStore (m : gmap string Identity) : Store := fun keyHash => inr (m !! keyHash).

Definition Hash (k : string) : string := hex_encode (sha256 k).

(** [Generate]: [random] is what [rand.Read] filled the 32-byte buffer with, or its failure. *)
Definition Generate (random : error + string) : error + (string * string) :=
  match random with
  | inl err => inl (Wrap "apikey: generate: " [err])
  | inr b => let k := hex_encode b in inr (k, Hash k)
  end.

Definition localsKey : string := "fibr_apikey_identity".
Definition defaultHeader : string := "X-API-Key".

Record Authenticator := MkAuthenticator { store : Store; auth_header : string }.

Definition New (st : Store) (hdr : string) : Authenticator :=
  MkAuthenticator st (if String.eqb hdr EmptyString then defaultHeader else hdr).

Definition Middleware (a : Authenticator) : handler Identity goerr := fun c =>
  let k := header c (auth_header a) in
  if String.eqb k EmptyString then Fail (Unauthorized "missing API key")
  else
    match store a (Hash k) with
    | inl _ => Fail (Internal "api key lookup failed")
    | inr None => Fail (Unauthorized "invalid API key")
    | inr (Some id) => Next (set_local localsKey (LIdentity id) c)
    end.

Definition FromContext (c : ctx Identity) : option Identity :=
  match locals c !! localsKey with Some (LIdentity id) => Some id | _ => None end.

(** [slices.Contains]. *)
Definition slices_Contains (l : list string) (x : string) : bool := bool_decide (x ∈ l).

Definition RequireScope (scope : string) : handler Identity goerr := fun c =>
  match FromContext c with
  | None => Fail (Unauthorized "not authenticated")
  | Some id =>
      if negb (slices_Contains (Scopes id) scope)
      then Fail (Forbidden ("missing required scope: " +:+ scope))
      else Next c
  end.

Definition HasScope (c : ctx Identity) (scope : string) : bool :=
  match FromContext c with Some id => slices_Contains (Scopes id) scope | None => false end.

(** The protected route behind [Middleware] and [RequireScope] is reached exactly when the
    header carries a key whose hash the store resolves to an identity holding the scope; the
    handler then sees that identity. Every other request fails with the status the documentation
    gives: 401 without a valid key, 500 on a store failure, 403 without the scope. *)
Theorem apikey_guard st hdr scope (c : ctx Identity) (a := New st hdr) :
  let k := header c (auth_header a) in
  match chain [Middleware a; RequireScope scope] c with
  | Next c' => k <> EmptyString /\ exists id, store a (Hash k) = inr (Some id) /\
                 scope ∈ Scopes id /\ FromContext c' = Some id /\ HasScope c' scope = true
  | Send _ => False
  | Fail e =>
      (k = EmptyString \/ store a (Hash k) = inr None) /\ http_status (Handler e) = 401 \/
      (exists err, store a (Hash k) = inl err) /\ http_status (Handler e) = 500 \/
      (exists id, store a (Hash k) = inr (Some id) /\ scope ∉ Scopes id) /\ http_status (Handler e) = 403
  end.
Proof.
  simpl. unfold Middleware. destruct (String.eqb_spec (header c (auth_header a)) EmptyString) as [Hk|Hk].
  - simpl. left. auto.
  - destruct (store a _) as [err|[id|]] eqn:Hs; simpl; [right; left; eauto| |left; auto].
    unfold RequireScope, HasScope, FromContext. simpl. rewrite lookup_insert_eq.
    unfold slices_Contains. case_bool_decide as Hin; simpl.
    + split; [done|]. exists id. split_and!; try done. by rewrite lookup_insert_eq.
      by rewrite lookup_insert_eq, bool_decide_eq_true_2.
    + right. right. split; [|done]. eauto.
Qed.

(** A key made by [Generate] and stored under its hash authenticates its owner, and any other
    presented key that does is a SHA-256 collision with a stored one. *)
Theorem Generate_authenticates random m id k h (c : ctx Identity) :
  Generate (inr random) = inr (k, h) -> random <> EmptyString ->
  header c defaultHeader = k ->
  let a := New (MapStore (<[h := id]> m)) "" in
  Middleware a c = Next (set_local localsKey (LIdentity id) c) /\
  (forall k', k' <> EmptyString -> m = ∅ -> 
     (exists c', Middleware a (Ctx (fun _ => k') (locals c)) = Next c') -> sha256 k' = sha256 k).
Proof.
  intros [= <- <-] Hr Hh a. split.
  - unfold Middleware, a. simpl. rewrite Hh.
    destruct (String.eqb_spec (hex_encode random) EmptyString) as [He|_]; [by destruct random|].
    unfold MapStore. by rewrite lookup_insert_eq.
  - intros k' Hk' -> (c' & Hc'). unfold Middleware, a in Hc'. simpl in Hc'.
    destruct (String.eqb_spec k' EmptyString); [done|]. unfold MapStore in Hc'.
    destruct (decide (Hash (hex_encode random) = Hash k')) as [Heq|Hne].
    + unfold Hash in Heq. by apply hex_encode_inj in Heq.
    + by rewrite lookup_insert_ne, lookup_empty in Hc'.
Qed.

Lemma Generate_authenticates_witness :
  exists k h, Generate (inr "0123") = inr (k, h) /\
  Middleware (New (MapStore (<[h := MkIdentity "bob" ["read"] []]> ∅)) "") (Ctx (fun _ => k) ∅)
    = Next (set_local localsKey (LIdentity (MkIdentity "bob" ["read"] [])) (Ctx (fun _ => k) ∅)).
Proof.
  eexists _, _. split; [reflexivity|].
  apply (Generate_authenticates "0123" ∅ (MkIdentity "bob" ["read"] []) (hex_encode "0123")
           (Hash (hex_encode "0123")) (Ctx (fun _ => hex_encode "0123") ∅));
    [reflexivity|done|reflexivity].
Defined.
