(* ===== verification/FeatureFlag.v ===== *)
(** * Feature flags (featureflag/featureflag.go, providers.go, fiber.go) *)

From S2P Require Import Prelude GoStrings GoCrypto Fiber.
Open Scope Z_scope.

Record Eval := MkEval { UserID : string; Groups : list string; Attrs : list (string * string) }.

(** [Provider]: whether a flag is on for an evaluation. *)
Class Provider := enabled : string -> Eval -> bool.

(** [Flags] is a possibly-nil pointer to a possibly-nil provider. *)
Definition Flags : Type := option (option Provider).

Definition Enabled (f : Flags) (flag : string) (e : Eval) : bool :=
  match f with
  | None | Some None => false
  | Some (Some p) => p flag e
  end.

(** ** Providers *)

Definition Static (m : gmap string bool) : Provider := fun flag _ => default false (m !! flag).

Record Rule := MkRule {
  rule_enabled : bool; Percentage : Z; Users : list string; rule_groups : list string }.

Definition bucket (flag userID : string) : Z := fnv32a (flag +:+ ":" +:+ userID) mod 100.

(** [Rule.eval]: user allowlist, group allowlist, percentage rollout, fallback. *)
Definition eval (r : Rule) (flag : string) (e : Eval) : bool :=
  if negb (String.eqb (UserID e) EmptyString) && bool_decide (UserID e ∈ Users r) then true
  else if existsb (fun g => bool_decide (g ∈ rule_groups r)) (Groups e) then true
  else if (0 <? Percentage r) && negb (String.eqb (UserID e) EmptyString)
          && (bucket flag (UserID e) <? Percentage r) then true
  else rule_enabled r.

Definition Rules (m : gmap string Rule) : Provider := fun flag e =>
  match m !! flag with None => false | Some r => eval r flag e end.

(** The Redis provider: [get] is the client's GET ([None] when missing or failing) and
    [unmarshal] is [json.Unmarshal] into a [Rule]. *)
Definition Redis (get : string -> option string) (unmarshal : string -> option Rule)
    (prefix : string) : Provider := fun flag e =>
  match get (prefix +:+ flag) with
  | None => false
  | Some val =>
      if String.eqb val "true" then true
      else if String.eqb val "false" then false
      else match unmarshal val with None => false | Some r => eval r flag e end
  end.

(** ** The request helper: [Middleware] stores the flags with the request's evaluation; [extract]
    may be nil. *)
Record bound := MkBound { bound_flags : Flags; bound_eval : Eval }.

Definition Middleware {C} (f : Flags) (extract : option (C -> Eval)) (c : C) : bound :=
  MkBound f (match extract with Some g => g c | None => MkEval EmptyString [] [] end).

Definition request_Enabled (stored : option bound) (flag : string) : bool :=
  match stored with None => false | Some b => Enabled (bound_flags b) flag (bound_eval b) end.

(** * Properties *)

Lemma bucket_range flag uid : 0 <= bucket flag uid < 100.
Proof. unfold bucket. apply Z.mod_pos_bound. lia. Qed.

Lemma eval_true r flag e :
  eval r flag e = true <->
    (UserID e <> EmptyString /\ UserID e ∈ Users r) \/
    (exists g, g ∈ Groups e /\ g ∈ rule_groups r) \/
    (UserID e <> EmptyString /\ bucket flag (UserID e) < Percentage r) \/
    rule_enabled r = true.
Proof.
  unfold eval. pose proof (bucket_range flag (UserID e)) as Hb.
  assert (Hg : existsb (fun g => bool_decide (g ∈ rule_groups r)) (Groups e) = true <->
               exists g, g ∈ Groups e /\ g ∈ rule_groups r).
  { rewrite existsb_exists. split; intros (g & H1 & H2); exists g.
    - apply list_elem_of_In in H1. by apply bool_decide_eq_true in H2.
    - rewrite <- list_elem_of_In. by rewrite bool_decide_eq_true. }
  destruct (String.eqb_spec (UserID e) EmptyString) as [Hu|Hu]; simpl.
  - rewrite andb_false_r. simpl. destruct (existsb _ _) eqn:Hx; naive_solver.
  - case_bool_decide as Hin; [naive_solver|].
    destruct (existsb _ _) eqn:Hx; [naive_solver|]. rewrite andb_true_r.
    destruct (Z.ltb_spec 0 (Percentage r)), (Z.ltb_spec (bucket flag (UserID e)) (Percentage r));
      simpl; naive_solver lia.
Qed.

(** Precedence of a rule: a flag is on exactly when the user is allow-listed, one of its
    groups is, the rollout percentage covers its bucket, or the fallback is on; an anonymous
    evaluation matches neither the user list nor the rollout. *)
Theorem Rules_enabled m flag e :
  Rules m flag e = true <->
  exists r, m !! flag = Some r /\
    ((UserID e <> EmptyString /\ UserID e ∈ Users r) \/
     (exists g, g ∈ Groups e /\ g ∈ rule_groups r) \/
     (UserID e <> EmptyString /\ bucket flag (UserID e) < Percentage r) \/
     rule_enabled r = true).
Proof.
  unfold Rules. destruct (m !! flag) as [r|].
  - rewrite eval_true. naive_solver.
  - naive_solver.
Qed.

(** Rollout is monotone and total: raising only the percentage never turns the flag off for
    anybody, and at 100 percent or more it is on for every identified user. *)
Theorem rollout_monotone flag e en p p' us gs :
  p <= p' ->
  (eval (MkRule en p us gs) flag e = true -> eval (MkRule en p' us gs) flag e = true) /\
  (100 <= p' -> UserID e <> EmptyString -> eval (MkRule en p' us gs) flag e = true).
Proof.
  intros Hp. pose proof (bucket_range flag (UserID e)). rewrite !eval_true. simpl. split.
  - naive_solver lia.
  - intros. right; right; left. split; [done|lia].
Qed.

Lemma rollout_monotone_witness :
  10 <= 100 /\ eval (MkRule false 100 [] []) "beta" (MkEval "u1" [] []) = true.
Proof.
  split; [lia|].
  apply (rollout_monotone "beta" (MkEval "u1" [] []) false 10 100 [] []); [lia|lia|done].
Defined.

Example Redis_live_toggle (f := fun v => Redis (fun k => if String.eqb k "ff:beta" then v else None)
                                           (fun _ => None) "ff:") :
  map (fun v => f v "beta" (MkEval "u" [] [])) [Some "true"; Some "false"; Some "{"; None]
  = [true; false; false; false].
Proof. reflexivity. Qed.
