(* ===== verification/RedisServer.v ===== *)
(** * The Redis server, as an interface

    Redis and its client are not part of the repository. What the packages rely on is stated
    here once: the keys a client sees at an instant ([live]) and how SET, DEL and PEXPIRE change
    them. SETNX, GET, EXISTS and the Lua scripts (which Redis runs atomically) are defined from
    these in the components. [Mem] is a concrete server satisfying the laws. *)

From S2P Require Import Prelude.
Open Scope Z_scope.

(** Times are in nanoseconds. *)
Class RedisServer (S : Type) := {
  (** the value a client reads under a key at an instant; expired keys read as absent *)
  live : S -> Z -> string -> option string;
  (** SET key value with a TTL in nanoseconds; 0 is "no expiry" *)
  cmd_set : Z -> string -> string -> Z -> S -> S;
  cmd_del : Z -> string -> S -> S;
  (** PEXPIRE key milliseconds; a non-positive time deletes the key *)
  cmd_pexpire : Z -> string -> Z -> S -> S;
}.

(** go-redis sends a TTL in whole milliseconds, at least one. *)
Definition px (ttl : Z) : Z :=
  if ttl <? Millisecond then Millisecond else ttl / Millisecond * Millisecond.

Class RedisLaws (S : Type) `{RedisServer S} := {
  live_set s now k v ttl t k' : 0 <= ttl -> now <= t ->
    live (cmd_set now k v ttl s) t k' =
      if decide (k = k') then (if (ttl =? 0) || (t <? now + px ttl) then Some v else None)
      else live s t k';
  live_del s now k t k' : now <= t ->
    live (cmd_del now k s) t k' = if decide (k = k') then None else live s t k';
  live_pexpire s now k ms t k' : now <= t ->
    live (cmd_pexpire now k ms s) t k' =
      if decide (k = k') then (if t <? now + ms * Millisecond then live s now k else None)
      else live s t k';
  live_antitone s t t' k v : t <= t' -> live s t' k = Some v -> live s t k = Some v;
}.

(** ** A server in memory *)

Module Mem.
Abbreviation store := (gmap string (string * option Z)).

Definition entry_live (t : Z) (e : string * option Z) : option string :=
  match e.2 with None => Some e.1 | Some x => if t <? x then Some e.1 else None end.

#[export] Instance mem_redis : RedisServer store := {
  live s t k := (s : gmap string (string * option Z)) !! k ≫= entry_live t;
  cmd_set now k v ttl s := <[k := (v, if ttl =? 0 then None else Some (now + px ttl))]> s;
  cmd_del now k s := delete k s;
  cmd_pexpire now k ms s :=
    match (s : gmap string (string * option Z)) !! k ≫= entry_live now with
    | Some v => <[k := (v, Some (now + ms * Millisecond))]> s
    | None => delete k s
    end;
}.

#[export] Instance mem_laws : RedisLaws store.
Proof.
  split; simpl.
  - intros s now k v ttl t k' Ht Hn. case_decide; [subst; rewrite lookup_insert_eq|by rewrite lookup_insert_ne].
    simpl. unfold entry_live. simpl. destruct (ttl =? 0); [done|]. simpl. done.
  - intros s now k t k' Hn. case_decide; [subst; by rewrite lookup_delete_eq|by rewrite lookup_delete_ne].
  - intros s now k ms t k' Hn. destruct (s !! k ≫= entry_live now) as [v|] eqn:Hv.
    + case_decide; [subst; rewrite lookup_insert_eq|by rewrite lookup_insert_ne].
      simpl. unfold entry_live. simpl. done.
    + case_decide; [subst; rewrite lookup_delete_eq|by rewrite lookup_delete_ne]. simpl. by case_match.
  - intros s t t' k v Ht. destruct (s !! k) as [[v' [x|]]|]; simpl; unfold entry_live; simpl; [|done|done].
    destruct (Z.ltb_spec t' x), (Z.ltb_spec t x); try done; lia.
Qed.
End Mem.
