(* ===== verification/Lock.v ===== *)
(** * The distributed lock (lock/lock.go, lock/handle.go, lock/errors.go)

    A lock is the key holding its owner's random token. Each network call carries its fate
    ([net]), each draw of a token its result, each operation the clock reading at the server. *)

From S2P Require Import Prelude GoStrings RedisServer.
Open Scope Z_scope.

Definition ErrNotAcquired : string := "lock: not acquired".
Definition ErrNotHeld : string := "lock: not held".

Section Lock.
  Context {S : Type} `{RedisServer S}.

Record Locker := MkLocker { retryDelay : Z }.

Definition defaultRetryDelay : Z := 50 * Millisecond.
Definition WithRetryDelay (d : Z) (l : Locker) : Locker := MkLocker d.
Definition New (opts : list (Locker -> Locker)) : Locker :=
  fold_left (fun l opt => opt l) opts (MkLocker defaultRetryDelay).

(** A held lock handle. *)
Record Lock := MkLock { lkey : string; token : string }.

Definition newToken (random : error + string) : error + string :=
  match random with
  | inl err => inl (Wrap "lock: generate token: " [err])
  | inr b => inr (hex_encode b)
  end.

(** SET key token NX with the TTL. *)
Definition cmd_setnx (now : Z) (k v : string) (ttl : Z) (s : S) : bool * S :=
  match live s now k with
  | Some _ => (false, s)
  | None => (true, cmd_set now k v ttl s)
  end.

Definition TryAcquire (n : net) (random : error + string) (now : Z) (k : string) (ttl : Z) (s : S)
    : (error + option Lock) * S :=
  match newToken random with
  | inl err => (inl err, s)
  | inr tok =>
      match call n (cmd_setnx now k tok ttl) s with
      | (inl err, s') => (inl err, s')
      | (inr false, s') => (inr None, s')
      | (inr true, s') => (inr (Some (MkLock k tok)), s')
      end
  end.

(** One turn of [Acquire]'s loop: the attempt, [ctx.Err()] if it is consulted, what [select]
    picks after a failed attempt ([Some e]: the context ended with [e]; [None]: the timer), and
    what other clients do to the server meanwhile. *)
Record attempt := Attempt {
  at_net : net; at_random : error + string; at_now : Z;
  at_ctx_err : option error; at_select : option error; at_env : S -> S }.

(** The result is [None] while the loop is still waiting when the attempts run out. *)
Fixpoint Acquire (k : string) (ttl : Z) (attempts : list attempt) (s : S)
    : option (error + Lock) * S :=
  match attempts with
  | [] => (None, s)
  | a :: rest =>
      match TryAcquire (at_net a) (at_random a) (at_now a) k ttl s with
      | (inl err, s') =>
          match at_ctx_err a with
          | Some ctxErr => (Some (inl (Wrap "" [Err ErrNotAcquired; ctxErr])), s')
          | None => (Some (inl err), s')
          end
      | (inr (Some lk), s') => (Some (inr lk), s')
      | (inr None, s') =>
          match at_select a with
          | Some ctxErr => (Some (inl (Wrap "" [Err ErrNotAcquired; ctxErr])), s')
          | None => Acquire k ttl rest (at_env a s')
          end
      end
  end.

(** The Lua scripts; Redis runs each atomically. *)
Definition releaseScript (now : Z) (k tok : string) (s : S) : Z * S :=
  if decide (live s now k = Some tok) then (1, cmd_del now k s) else (0, s).

Definition extendScript (now : Z) (k tok : string) (ms : Z) (s : S) : Z * S :=
  if decide (live s now k = Some tok) then (1, cmd_pexpire now k ms s) else (0, s).

Definition script_result (r : error + Z) : option error :=
  match r with
  | inl err => Some err
  | inr n => if n =? 0 then Some (Err ErrNotHeld) else None
  end.

Definition Release (n : net) (now : Z) (l : Lock) (s : S) : option error * S :=
  let '(r, s') := call n (releaseScript now (lkey l) (token l)) s in (script_result r, s').

(** [ttl.Milliseconds()] truncates. *)
Definition Extend (n : net) (now ttl : Z) (l : Lock) (s : S) : option error * S :=
  let '(r, s') := call n (extendScript now (lkey l) (token l) (Z.quot ttl Millisecond)) s in
  (script_result r, s').

(** [Do]: [fn] is the protected function; the deferred release's error is dropped. *)
Definition Do (n1 : net) (random : error + string) (t1 : Z) (k : string) (ttl : Z)
    (fn : S -> option error * S) (n2 : net) (t2 : Z) (s : S) : option error * S :=
  match TryAcquire n1 random t1 k ttl s with
  | (inl err, s1) => (Some err, s1)
  | (inr None, s1) => (Some (Err ErrNotAcquired), s1)
  | (inr (Some lk), s1) =>
      let '(ferr, s2) := fn s1 in
      let '(_, s3) := Release n2 t2 lk s2 in (ferr, s3)
  end.

(** ** What the other clients of the server do: the same operations, with their own tokens *)

Inductive action :=
| ATry (n : net) (tok : string) (now : Z) (k : string) (ttl : Z)
| ARelease (n : net) (now : Z) (l : Lock)
| AExtend (n : net) (now ttl : Z) (l : Lock).

Definition act_time (a : action) : Z :=
  match a with ATry _ _ now _ _ => now | ARelease _ now _ => now | AExtend _ now _ _ => now end.

(** The token the action carries (for an attempt, the one it has drawn). *)
Definition act_token (a : action) : string :=
  match a with ATry _ tok _ _ _ => hex_encode tok | ARelease _ _ l => token l | AExtend _ _ _ l => token l end.

Definition act_ttl_ok (a : action) : Prop := match a with ATry _ _ _ _ ttl => 0 <= ttl | _ => True end.

(** The lock the action obtains, if it does. *)
Definition act (a : action) (s : S) : option Lock * S :=
  match a with
  | ATry n tok now k ttl =>
      match TryAcquire n (inr tok) now k ttl s with
      | (inr (Some l), s') => (Some l, s')
      | (_, s') => (None, s')
      end
  | ARelease n now l => (None, (Release n now l s).2)
  | AExtend n now ttl l => (None, (Extend n now ttl l s).2)
  end.

Fixpoint acts (l : list action) (s : S) : list (option Lock) * S :=
  match l with
  | [] => ([], s)
  | a :: l => let '(r, s1) := act a s in let '(rs, s2) := acts l s1 in (r :: rs, s2)
  end.
End Lock.
Arguments attempt : clear implicits.

(** * Lemmas *)

Section LockProofs.
  Context {S : Type} `{RedisLaws S}.

(** Holding: the key still reads as the handle's token. *)
Definition holds (s : S) (t : Z) (l : Lock) : Prop := live s t (lkey l) = Some (token l).
#[export] Instance holds_dec s t l : Decision (holds s t l).
Proof. unfold holds. apply _. Defined.

Lemma setnx_other now k v ttl s t k' :
  0 <= ttl -> now <= t -> k <> k' -> live (cmd_setnx now k v ttl s).2 t k' = live s t k'.
Proof.
  intros Ht Hn Hne. unfold cmd_setnx. destruct (live s now k); [done|]. simpl.
  rewrite live_set by done. by case_decide.
Qed.

(** No action with another token takes the key away from its holder before [t]. *)
Lemma act_preserves_holds a l s t :
  act_time a <= t -> act_token a <> token l -> act_ttl_ok a ->
  holds s t l -> holds (act a s).2 t l /\ (forall l', (act a s).1 = Some l' -> lkey l' <> lkey l).
Proof.
  intros Ha Htok Hok Hh. unfold holds in *.
  pose proof (live_antitone s (act_time a) t (lkey l) _ Ha Hh) as Hnow.
  destruct a as [n tok now k ttl|n now l0|n now ttl l0]; simpl in *.
  - unfold TryAcquire. simpl.
    destruct (decide (k = lkey l)) as [->|Hne].
    + assert (Hs : cmd_setnx now (lkey l) (hex_encode tok) ttl s = (false, s)).
      { unfold cmd_setnx. by rewrite Hnow. }
      destruct n; simpl; rewrite ?Hs; simpl; by split.
    + assert (Hstate : live (call n (cmd_setnx now k (hex_encode tok) ttl) s).2 t (lkey l) = Some (token l)).
      { destruct (call_state n (cmd_setnx now k (hex_encode tok) ttl) s) as [->| ->]; [done|].
        by rewrite setnx_other. }
      destruct (call n _ s) as [[e|[]] s'] eqn:Hc; simpl in *; split; try done.
      by intros l' [= <-].
  - split; [|done]. unfold Release.
    assert (Hstate : live (call n (releaseScript now (lkey l0) (token l0)) s).2 t (lkey l) = Some (token l)).
    { destruct (call_state n (releaseScript now (lkey l0) (token l0)) s) as [->| ->]; [done|].
      unfold releaseScript. case_decide as Hd; [|done]. simpl. rewrite live_del by done.
      case_decide as Hk; [|done]. rewrite Hk in Hd. congruence. }
    by destruct (call n _ s).
  - split; [|done]. unfold Extend.
    assert (Hstate : live (call n (extendScript now (lkey l0) (token l0) (Z.quot ttl Millisecond)) s).2 t (lkey l) = Some (token l)).
    { destruct (call_state n (extendScript now (lkey l0) (token l0) (Z.quot ttl Millisecond)) s) as [->| ->]; [done|].
      unfold extendScript. case_decide as Hd; [|done]. simpl. rewrite live_pexpire by done.
      case_decide as Hk; [|done]. rewrite Hk in Hd. congruence. }
    by destruct (call n _ s).
Qed.

Lemma acts_preserve_holds l las s t :
  (forall a, a ∈ las -> act_time a <= t /\ act_token a <> token l /\ act_ttl_ok a) ->
  holds s t l ->
  holds (acts las s).2 t l /\
  (forall l', Some l' ∈ (acts las s).1 -> lkey l' <> lkey l).
Proof.
  revert s; induction las as [|a las IH]; intros s Ha Hh; simpl; [split; [done|set_solver]|].
  destruct (Ha a) as (Ht & Htok & Hok); [set_solver|].
  destruct (act_preserves_holds a l s t Ht Htok Hok Hh) as (Hh1 & Hk1).
  destruct (act a s) as [r s1]; simpl in *.
  destruct (IH s1) as (Hh2 & Hk2); [intros; apply Ha; set_solver|done|].
  destruct (acts las s1) as [rs s2]; simpl in *. split; [done|]. set_solver.
Qed.

Lemma TryAcquire_granted n random now k ttl s lk s' :
  TryAcquire n random now k ttl s = (inr (Some lk), s') ->
  live s now k = None /\ lkey lk = k /\ newToken random = inr (token lk) /\ s' = cmd_set now k (token lk) ttl s.
Proof.
  unfold TryAcquire. destruct (newToken random) as [e|tok] eqn:Ht; [done|].
  destruct n; simpl; [|done|done]. unfold cmd_setnx.
  destruct (live s now k) eqn:Hl; [done|]. by intros [= <- <-].
Qed.

Lemma Release_owner now l s :
  holds s now l -> Release NetOk now l s = (None, cmd_del now (lkey l) s).
Proof. intros Hh. unfold Release, releaseScript. simpl. by rewrite decide_True. Qed.

Lemma Release_not_owner now l s :
  ~ holds s now l -> Release NetOk now l s = (Some (Err ErrNotHeld), s).
Proof. intros Hh. unfold Release, releaseScript. simpl. by rewrite decide_False. Qed.

Lemma Extend_owner now ttl l s :
  holds s now l ->
  Extend NetOk now ttl l s = (None, cmd_pexpire now (lkey l) (Z.quot ttl Millisecond) s).
Proof. intros Hh. unfold Extend, extendScript. simpl. by rewrite decide_True. Qed.

(** * Properties *)

(** (C8) Mutual exclusion for the lease. A handle obtained at time [t0] keeps the lock until
    [t0 + px ttl]: whatever attempts, releases and extensions other owners (other tokens) perform
    before an instant [t] of the lease, in any order, with any network failures, the key still
    reads as the holder's token at [t], and none of their attempts on the key is granted. *)
Theorem lock_lease_exclusive n random t0 k ttl s lk s' las t :
  TryAcquire n random t0 k ttl s = (inr (Some lk), s') -> 0 <= ttl -> t0 <= t ->
  ttl = 0 \/ t < t0 + px ttl ->
  (forall a, a ∈ las -> act_time a <= t /\ act_token a <> token lk /\ act_ttl_ok a) ->
  holds (acts las s').2 t lk /\ (forall l', Some l' ∈ (acts las s').1 -> lkey l' <> k).
Proof.
  intros (_ & Hk & _ & ->)%TryAcquire_granted Httl Ht Hlease Ha. rewrite <- Hk.
  apply acts_preserve_holds; [done|]. unfold holds. rewrite live_set by done.
  rewrite Hk, decide_True by done.
  destruct (Z.eqb_spec ttl 0); [done|]. destruct (Z.ltb_spec t (t0 + px ttl)); [done|lia].
Qed.

(** Release and Extend act only for the owner: with the key reading as the handle's token
    they return nil and free the key, respectively renew its expiry; otherwise they return
    ErrNotHeld and leave the server as it was (a Release by a past owner cannot free the lock of
    the next one). *)
Theorem lock_owner_only now t l ttl s k :
  now <= t ->
  (holds s now l ->
     (Release NetOk now l s).1 = None /\ live (Release NetOk now l s).2 t (lkey l) = None /\
     (Extend NetOk now ttl l s).1 = None /\
     (live (Extend NetOk now ttl l s).2 t (lkey l) = Some (token l) <->
        t < now + Z.quot ttl Millisecond * Millisecond) /\
     (k <> lkey l -> live (Release NetOk now l s).2 t k = live s t k)) /\
  (~ holds s now l ->
     Release NetOk now l s = (Some (Err ErrNotHeld), s) /\
     Extend NetOk now ttl l s = (Some (Err ErrNotHeld), s)).
Proof.
  intros Ht. split; intros Hh.
  - rewrite Release_owner by done. rewrite Extend_owner by done. simpl. split_and!; try done.
    + rewrite live_del by done. by rewrite decide_True.
    + rewrite live_pexpire by done. rewrite decide_True by done. unfold holds in Hh. rewrite Hh.
      destruct (Z.ltb_spec t (now + Z.quot ttl Millisecond * Millisecond)); split; try done; lia.
    + intros Hne. rewrite live_del by done. by rewrite decide_False.
  - rewrite Release_not_owner by done. split; [done|]. unfold Extend, extendScript. simpl.
    by rewrite decide_False.
Qed.

(** [Do] runs the function exactly when the lock was free and the call got through, returns
    the function's own error, and afterwards the key is free again whenever the function left the
    lock to its owner and the release got through; when another owner holds the lock it returns
    ErrNotAcquired and changes nothing. *)
Theorem lock_Do_spec b t1 k ttl fn t2 s :
  0 <= ttl ->
  let lk := MkLock k (hex_encode b) in
  let s1 := cmd_set t1 k (hex_encode b) ttl s in
  let res := Do NetOk (inr b) t1 k ttl fn NetOk t2 s in
  match live s t1 k with
  | Some _ => res = (Some (Err ErrNotAcquired), s)
  | None =>
      res.1 = (fn s1).1 /\
      (holds (fn s1).2 t2 lk -> forall t, t2 <= t -> live res.2 t k = None) /\
      (~ holds (fn s1).2 t2 lk -> res.2 = (fn s1).2)
  end.
Proof.
  intros Httl. cbv zeta. unfold Do, TryAcquire. cbn -[Release]. unfold cmd_setnx.
  destruct (live s t1 k) eqn:Hl; [done|]. cbn -[Release].
  destruct (fn _) as [ferr s2]. cbn -[Release].
  destruct (decide (holds s2 t2 (MkLock k (hex_encode b)))) as [Hh|Hh].
  - rewrite Release_owner by done. simpl. split_and!; [done| |done].
    intros _ t Ht. rewrite live_del by done. by rewrite decide_True.
  - by rewrite Release_not_owner.
Qed.

(** Acquire reports ErrNotAcquired, matchable with [errors.Is], when the context ends. *)
Lemma Acquire_ctx_end k ttl las s r s' :
  Acquire k ttl las s = (Some (inl r), s') ->
  errors_is r ErrNotAcquired = true \/
  exists a s0, a ∈ las /\ at_ctx_err a = None /\ (TryAcquire (at_net a) (at_random a) (at_now a) k ttl s0).1 = inl r.
Proof.
  revert s; induction las as [|a las IH]; intros s; simpl; [done|].
  destruct (TryAcquire _ _ _ _ _ s) as [[e|[l|]] s1] eqn:Ht.
  - destruct (at_ctx_err a) eqn:Hc; intros [= <- <-]; [by left|].
    right. exists a, s. rewrite Ht. set_solver.
  - done.
  - destruct (at_select a); [intros [= <- <-]; by left|].
    intros Hr. destruct (IH _ Hr) as [?|(a' & s0 & ? & ? & ?)]; [by left|].
    right. exists a', s0. set_solver.
Qed.

(** [Acquire] keeps trying: if the first [m] attempts find the key held and the timer fires,
    and the key is free at the next attempt, it returns the lock and the key is then held. *)
Theorem Acquire_gets_free_lock k ttl (waits : list (attempt S)) a rest s s0 :
  0 <= ttl ->
  (forall w, w ∈ waits -> at_net w = NetOk /\ at_select w = None /\ exists b, at_random w = inr b) ->
  fold_left (fun o w => s ← o; if decide (live s (at_now w) k = None) then None else Some (at_env w s))
    waits (Some s) = Some s0 ->
  at_net a = NetOk -> forall b, at_random a = inr b -> live s0 (at_now a) k = None ->
  exists s', Acquire k ttl (waits ++ a :: rest) s = (Some (inr (MkLock k (hex_encode b))), s') /\
             holds s' (at_now a) (MkLock k (hex_encode b)).
Proof.
  intros Httl Hw Hf Hn b Hb Hfree. revert s Hw Hf. induction waits as [|w waits IH]; intros s Hw Hf; simpl in *.
  - injection Hf as ->. rewrite Hn, Hb. unfold TryAcquire. simpl. unfold cmd_setnx. rewrite Hfree. simpl.
    eexists; split; [done|]. unfold holds. simpl. rewrite live_set by lia.
    rewrite decide_True by done. destruct (Z.eqb_spec ttl 0); [done|]. simpl.
    destruct (Z.ltb_spec (at_now a) (at_now a + px ttl)) as [|Hge]; [done|].
    unfold px, Millisecond in *. destruct (Z.ltb_spec ttl 1000000); [lia|].
    pose proof (Z.div_le_lower_bound ttl 1000000 1). lia.
  - destruct (Hw w) as (Hwn & Hws & (bw & Hwb)); [set_solver|]. rewrite Hwn, Hwb, Hws.
    unfold TryAcquire. simpl. unfold cmd_setnx. case_decide as Hd.
    + exfalso. clear -Hf. assert (Hn : forall l, fold_left (fun o w => s ← o; if decide (live s (at_now w) k = None)
        then None else Some (at_env w s)) l None = (None : option S)) by (induction l; done). by rewrite Hn in Hf.
    + destruct (live s (at_now w) k) eqn:Hl; [|done]. apply IH; [|done]. intros; apply Hw; set_solver.
Qed.
End LockProofs.

(** * Witnesses, on the in-memory server *)

Import Mem.
Definition ex_tok : string := "0123456789abcdef".
Definition ex_lock : Lock := MkLock "job" (hex_encode ex_tok).
Definition ex_s : store := (TryAcquire NetOk (inr ex_tok) 0 "job" Second (∅ : store)).2.
Definition ex_others : list action :=
  [ATry NetOk "another" 5 "job" Second; ARelease NetOk 6 (MkLock "job" "stale");
   ATry (LostReply (Err "EOF")) "third" 7 "job" 0].

Lemma lock_lease_exclusive_witness :
  TryAcquire NetOk (inr ex_tok) 0 "job" Second (∅ : store) = (inr (Some ex_lock), ex_s) /\
  holds (acts ex_others ex_s).2 10 ex_lock /\ (forall l', Some l' ∈ (acts ex_others ex_s).1 -> lkey l' <> "job"%string).
Proof.
  split; [reflexivity|].
  apply (lock_lease_exclusive NetOk (inr ex_tok) 0 "job" Second (∅ : store) ex_lock ex_s ex_others 10);
    [reflexivity|unfold Second; lia|lia|right; vm_compute; reflexivity|].
  intros a Ha. unfold ex_others in Ha.
  repeat (apply elem_of_cons in Ha as [->|Ha];
    [split; [simpl; lia|split; [vm_compute; discriminate|simpl; unfold Second; lia || exact I]]|]).
  by apply not_elem_of_nil in Ha.
Defined.

Lemma lock_owner_only_witness :
  (Release NetOk 3 ex_lock ex_s).1 = None /\ holds ex_s 3 ex_lock.
Proof.
  split; [|reflexivity].
  refine (proj1 (proj1 (lock_owner_only 3 3 ex_lock Second ex_s "x" _) _)); [lia|reflexivity].
Defined.

Lemma lock_Do_spec_witness :
  0 <= Second /\
  (Do NetOk (inr ex_tok) 0 "job" Second (fun s => (Some (Err "boom"), s)) NetOk 5 (∅ : store)).1 = Some (Err "boom").
Proof.
  split; [unfold Second; lia|].
  refine (proj1 (lock_Do_spec ex_tok 0 "job" Second (fun s => (Some (Err "boom"), s)) 5 (∅ : store) _)).
  unfold Second; lia.
Defined.

Definition ex_wait : attempt store := Attempt NetOk (inr "w") 1 None None (fun s => s).
Definition ex_go : attempt store := Attempt NetOk (inr "g") (2 * Second) None None (fun s => s).
Lemma Acquire_gets_free_lock_witness :
  exists s', Acquire "job" Second [ex_wait; ex_go] ex_s = (Some (inr (MkLock "job" (hex_encode "g"))), s') /\
             holds s' (2 * Second) (MkLock "job" (hex_encode "g")).
Proof.
  apply (Acquire_gets_free_lock "job" Second [ex_wait] ex_go [] ex_s ex_s);
    [unfold Second; lia| |vm_compute; reflexivity|reflexivity|reflexivity|reflexivity].
  intros w ->%list_elem_of_singleton. split_and!; [done|done|by eexists].
Defined.

(** A renewal below one millisecond truncates to PEXPIRE 0: the script reports success and the
    key is gone. *)
Theorem Extend_submillisecond :
  (Extend NetOk 3 (Millisecond / 2) ex_lock ex_s).1 = None /\
  live (Extend NetOk 3 (Millisecond / 2) ex_lock ex_s).2 3 "job" = None.
Proof. split; vm_compute; reflexivity. Qed.
