(* ===== verification/Outbox.v ===== *)
(** * The transactional outbox (outbox/outbox.go, outbox/relay.go, outbox/redis.go)

    The database and the publisher are interfaces: [OutboxDB] says what the relay relies on of
    the outbox table (the pending rows in id order, marking one, inserting one), [Publisher]
    what a publisher does. Every call may fail, before or after taking effect. *)

From S2P Require Import Prelude RedisServer Lock.
Open Scope Z_scope.

Record Event := MkEvent { ID : Z; Topic : string; Payload : string; CreatedAt : Z }.

Class OutboxDB (D : Type) := {
  pending : D -> list Event;              (* published_at IS NULL, ORDER BY id ASC *)
  db_mark : Z -> Z -> D -> D;             (* SET published_at = now WHERE id = ... *)
  db_insert : string -> string -> Z -> D -> D;
}.

Class OutboxLaws (D : Type) `{OutboxDB D} := {
  pending_nodup d : NoDup (map ID (pending d));
  pending_mark d id now : pending (db_mark id now d) = filter (fun e => ID e ≠ id) (pending d);
  pending_insert d t b now : exists id, pending (db_insert t b now d) = pending d ++ [MkEvent id t b now];
}.

Class Publisher (P : Type) := {
  Publish : string -> string -> P -> option error * P;
  (** the messages the channel has carried *)
  carried : P -> list (string * string);
  Publish_ok p t b : (Publish t b p).1 = None -> carried (Publish t b p).2 = carried p ++ [(t, b)];
  Publish_err p t b : (Publish t b p).1 <> None ->
    carried (Publish t b p).2 = carried p \/ carried (Publish t b p).2 = carried p ++ [(t, b)];
}.

Section Outbox.
  Context {D P : Type} `{OutboxDB D} `{Publisher P}.
  Context {S : Type} `{RedisServer S}.

(** [Enqueue]: [encoded] is [json.Marshal(payload)]. *)
Definition Enqueue (n : net) (topic : string) (encoded : error + string) (now : Z) (d : D)
    : option error * D :=
  match encoded with
  | inl err => (Some (Wrap "outbox: encode payload: " [err]), d)
  | inr b =>
      match call n (fun d => (tt, db_insert topic b now d)) d with
      | (inl err, d') => (Some (Wrap "outbox: insert event: " [err]), d')
      | (inr _, d') => (None, d')
      end
  end.

(** The lock configuration is there only with [WithLock]. *)
Record Relay := MkRelay { batchSize : Z; interval : Z; lock_opt : option (string * Z) }.

Definition defaultBatchSize : Z := 100.
Definition defaultInterval : Z := Second.
Definition WithBatchSize (n : Z) (r : Relay) : Relay :=
  if 0 <? n then MkRelay n (interval r) (lock_opt r) else r.
Definition WithInterval (d : Z) (r : Relay) : Relay :=
  if 0 <? d then MkRelay (batchSize r) d (lock_opt r) else r.
Definition WithLock (k : string) (ttl : Z) (r : Relay) : Relay :=
  MkRelay (batchSize r) (interval r) (Some (k, ttl)).
Definition NewRelay (opts : list (Relay -> Relay)) : Relay :=
  fold_left (fun r opt => opt r) opts (MkRelay defaultBatchSize defaultInterval None).

(** The loop over the loaded batch. [env i] is the fate of the i-th mark and its clock reading. *)
Fixpoint publish_loop (env : nat -> net * Z) (events : list Event) (published : nat) (d : D) (p : P)
    : (nat * option error) * (D * P) :=
  match events with
  | [] => ((published, None), (d, p))
  | e :: es =>
      match Publish (Topic e) (Payload e) p with
      | (Some err, p') => ((published, Some (Wrap "outbox: publish event" [err])), (d, p'))
      | (None, p') =>
          let '(n, now) := env published in
          match call n (fun d => (tt, db_mark (ID e) now d)) d with
          | (inl err, d') => ((published, Some (Wrap "outbox: mark event published" [err])), (d', p'))
          | (inr _, d') => publish_loop env es (Datatypes.S published) d' p'
          end
      end
  end.

Definition process (r : Relay) (load : net) (env : nat -> net * Z) (d : D) (p : P)
    : (nat * option error) * (D * P) :=
  match call load (fun d => (take (Z.to_nat (batchSize r)) (pending d), d)) d with
  | (inl err, d') => ((O, Some (Wrap "outbox: load pending: " [err])), (d', p))
  | (inr events, d') => publish_loop env events 0 d' p
  end.

(** The whole system a relay works on: lock server, database, publisher. *)
Definition world : Type := S * (D * P).

(** [Process]: under the lock when one is configured. [n1 rnd t1] are the acquisition's network
    fate, random bytes and time, [n2 t2] those of the release. *)
Definition Process (r : Relay) (n1 : net) (rnd : error + string) (t1 : Z) (n2 : net) (t2 : Z)
    (load : net) (env : nat -> net * Z) (w : world) : (nat * option error) * world :=
  let '(s, (d, p)) := w in
  match lock_opt r with
  | None => let '(res, dp) := process r load env d p in (res, (s, dp))
  | Some (k, ttl) =>
      (* [fn] assigns the captured count [n]; it stays 0 when [fn] does not run *)
      match TryAcquire n1 rnd t1 k ttl s with
      | (inl err, s1) =>
          if errors_is err ErrNotAcquired then ((O, None), (s1, (d, p)))
          else ((O, Some err), (s1, (d, p)))
      | (inr None, s1) => ((O, None), (s1, (d, p)))
      | (inr (Some lk), s1) =>
          let '((n, perr), dp) := process r load env d p in
          let '(_, s2) := Release n2 t2 lk s1 in
          match perr with
          | Some e => if errors_is e ErrNotAcquired then ((O, None), (s2, dp)) else ((n, perr), (s2, dp))
          | None => ((n, None), (s2, dp))
          end
      end
  end.
End Outbox.

(** * Lemmas *)

Section OutboxProofs.
  Context {D P : Type} `{OutboxLaws D} `{Publisher P}.

Definition message (e : Event) : string * string := (Topic e, Payload e).

Lemma pending_mark_head d e es now :
  pending d = e :: es -> pending (db_mark (ID e) now d) = es.
Proof.
  intros Hp. rewrite pending_mark, Hp. pose proof (pending_nodup d) as Hnd. rewrite Hp in Hnd.
  simpl in Hnd. apply NoDup_cons in Hnd as [Hn _]. rewrite filter_cons_False by auto.
  apply filter_all. intros x Hx Heq. apply Hn. rewrite <- Heq. apply list_elem_of_fmap. eauto.
Qed.

(** What the loop leaves pending and what the channel has carried, for every fate of every call. *)
Lemma publish_loop_spec env evs rest n d p :
  pending d = evs ++ rest ->
  let '((n', err), (d', p')) := publish_loop env evs n d p in
  exists i extra,
    n' = (n + i)%nat /\ (i <= length evs)%nat /\
    carried p' = carried p ++ map message (take i evs) ++ extra /\
    match err with
    | None => i = length evs /\ extra = [] /\ pending d' = rest
    | Some _ => (i < length evs)%nat /\
        ((pending d' = drop i evs ++ rest /\ (extra = [] \/ exists e, evs !! i = Some e /\ extra = [message e]))
         \/ (pending d' = drop (Datatypes.S i) evs ++ rest /\ exists e, evs !! i = Some e /\ extra = [message e]))
    end.
Proof.
  revert n d p; induction evs as [|e evs IH]; intros n d p Hp; simpl.
  - exists 0%nat, []. rewrite !app_nil_r. simpl. split_and!; (lia || done).
  - destruct (Publish (Topic e) (Payload e) p) as [[err|] p1] eqn:Hpub.
    + pose proof (Publish_err p (Topic e) (Payload e)) as He. rewrite Hpub in He. simpl in He.
      destruct (He ltac:(done)) as [Hc|Hc].
      * exists 0%nat, []. rewrite Hc, app_nil_r. split_and!; try (done || lia). left. auto.
      * exists 0%nat, [message e]. rewrite Hc. split_and!; try (done || lia). left. eauto 6.
    + pose proof (Publish_ok p (Topic e) (Payload e)) as Hok. rewrite Hpub in Hok.
      specialize (Hok eq_refl). simpl in Hok. destruct (env n) as [nt now].
      pose proof (pending_mark_head d e (evs ++ rest) now Hp) as Hm.
      destruct nt as [|err|err]; simpl.
      * specialize (IH (Datatypes.S n) (db_mark (ID e) now d) p1 Hm).
        destruct (publish_loop env evs (Datatypes.S n) (db_mark (ID e) now d) p1) as [[n' err] [d' p']].
        destruct IH as (i & extra & -> & Hi & Hc & Hrest). exists (Datatypes.S i), extra. simpl.
        split_and!; [lia|lia|rewrite Hc, Hok, <- app_assoc; done|].
        destruct err; [|naive_solver]. destruct Hrest as (Hlt & Hcase). split; [lia|]. exact Hcase.
      * exists 0%nat, [message e]. rewrite Hok. split_and!; try (done || lia). left. eauto 6.
      * exists 0%nat, [message e]. rewrite Hok. split_and!; try (done || lia). right. eauto 6.
Qed.

(** * Properties *)

(** One batch with every call succeeding (the publisher included): the oldest
    [min batchSize pending] events are published, in id order, each exactly once; they are the
    ones that stop being pending, and their number is returned. *)
Theorem process_publishes_in_order r (env : nat -> net * Z) d p :
  (forall i, (env i).1 = NetOk) -> (forall p t b, (Publish t b p).1 = None) ->
  let n := Nat.min (Z.to_nat (batchSize r)) (length (pending d)) in
  let '((n', err), (d', p')) := process r NetOk env d p in
  n' = n /\ err = None /\ pending d' = drop n (pending d) /\
  carried p' = carried p ++ map message (take n (pending d)).
Proof.
  intros Henv Hpub n. unfold process. simpl.
  assert (Hloop : forall evs n d p, (publish_loop env evs n d p).1.2 = None).
  { induction evs as [|e evs IH]; intros m d0 p0; simpl; [done|].
    pose proof (Hpub p0 (Topic e) (Payload e)) as Hx. destruct (Publish _ _ p0) as [o p1]. simpl in Hx. subst o.
    pose proof (Henv m) as Hm. destruct (env m) as [nt now]. simpl in Hm. subst nt. simpl. apply IH. }
  specialize (Hloop (take (Z.to_nat (batchSize r)) (pending d)) 0%nat d p).
  pose proof (publish_loop_spec env (take (Z.to_nat (batchSize r)) (pending d))
    (drop (Z.to_nat (batchSize r)) (pending d)) 0 d p (eq_sym (take_drop _ _))) as Hs.
  destruct (publish_loop env _ 0 d p) as [[n' err] [d' p']]. simpl in Hloop. subst err.
  destruct Hs as (i & extra & -> & _ & Hc & -> & -> & Hp). rewrite length_take. simpl.
  rewrite Hc, Hp, app_nil_r. rewrite firstn_all. fold n. split_and!; try done.
  - unfold n. destruct (Nat.min_spec (Z.to_nat (batchSize r)) (length (pending d))) as [[? ->]|[? ->]]; [done|].
    rewrite !drop_ge by lia. done.
  - unfold n. destruct (Nat.min_spec (Z.to_nat (batchSize r)) (length (pending d))) as [[? ->]|[? ->]]; [done|].
    by rewrite !take_ge by lia.
Qed.

(** What a [process] call leaves pending and carried; without an error it has handled a whole batch. *)
Lemma process_outcome r load env d p :
  let '((n', err), (d', p')) := process r load env d p in
  exists i j,
    (n' <= i <= j)%nat /\ (j <= Datatypes.S i)%nat /\
    pending d' = drop i (pending d) /\
    carried p' = carried p ++ map message (take j (pending d)) /\
    (err = None -> n' = i /\ i = j /\ i = Nat.min (Z.to_nat (batchSize r)) (length (pending d))).
Proof.
  unfold process. destruct load as [|e|e]; simpl.
  2,3: exists 0%nat, 0%nat; rewrite take_0, app_nil_r; split_and!; (lia || done).
  set (b := Z.to_nat (batchSize r)).
  pose proof (publish_loop_spec env (take b (pending d)) (drop b (pending d)) 0 d p
    (eq_sym (take_drop _ _))) as Hs.
  destruct (publish_loop env _ 0 d p) as [[n' err] [d' p']].
  destruct Hs as (i & extra & -> & Hi & Hc & Hrest). rewrite length_take in Hi.
  assert (Htake : take i (take b (pending d)) = take i (pending d)).
  { rewrite take_take. f_equal. lia. }
  assert (Hdrop : forall k, (k <= b)%nat -> drop k (take b (pending d)) ++ drop b (pending d) = drop k (pending d)).
  { intros k Hk. rewrite <- (take_drop b (pending d)) at 3.
    destruct (decide (k <= length (take b (pending d)))%nat) as [Hl|Hl]; [by rewrite skipn_app, (proj2 (Nat.sub_0_le _ _) Hl)|].
    rewrite length_take in Hl. rewrite !(drop_ge _ k), drop_ge; [done|lia| |]; rewrite ?length_app, ?length_take, ?length_drop; lia. }
  assert (Hsnoc : forall e, take b (pending d) !! i = Some e ->
            map message (take (Datatypes.S i) (pending d)) = map message (take i (pending d)) ++ [message e]).
  { intros e He. apply lookup_take_Some in He as [He _]. by rewrite (take_S_r _ _ _ He), map_app. }
  rewrite Htake in Hc. destruct err as [err|].
  - destruct Hrest as (Hlt & [(Hp & [->|(e & He & ->)])|(Hp & e & He & ->)]); rewrite length_take in Hlt.
    + exists i, i. rewrite Hp, Hc, app_nil_r, Hdrop by lia. split_and!; (lia || done).
    + exists i, (Datatypes.S i). rewrite Hp, Hc, (Hsnoc e He), Hdrop by lia. split_and!; (lia || done).
    + exists (Datatypes.S i), (Datatypes.S i). rewrite Hp, Hc, (Hsnoc e He), Hdrop by lia.
      split_and!; (lia || done).
  - destruct Hrest as (-> & -> & Hp). rewrite length_take in *.
    exists (Nat.min b (length (pending d))), (Nat.min b (length (pending d))).
    rewrite Hc, app_nil_r, Hp. split_and!; try (lia || done).
    destruct (Nat.min_spec b (length (pending d))) as [[? ->]|[? ->]]; [done|]. by rewrite !drop_ge by lia.
Qed.
(** At-least-once, whatever fails: after a [process] call the pending events are the old ones
    less a prefix, everything in that prefix has been carried by the publisher (in order), the
    returned count never exceeds what was published, and at most one event (the one being
    handled when a call failed) may be carried and still pending. *)
Theorem process_at_least_once r load env d p :
  let '((n', err), (d', p')) := process r load env d p in
  exists i j,
    (n' <= i <= j)%nat /\ (j <= Datatypes.S i)%nat /\
    pending d' = drop i (pending d) /\
    carried p' = carried p ++ map message (take j (pending d)) /\
    (err = None -> n' = i /\ i = j).
Proof.
  pose proof (process_outcome r load env d p) as Hout. destruct (process r load env d p) as [[n' err] [d' p']].
  destruct Hout as (i & j & Hn & Hj & Hd & Hc & Hok). exists i, j. split_and!; [lia..|done|done|]. intros E. by destruct (Hok E) as (? & ? & _).
Qed.
End OutboxProofs.

Section LockedRelay.
  Context {D P S : Type} `{OutboxLaws D} `{Publisher P} `{RedisLaws S}.

(** With a lock configured, a replica that finds the lock held by another owner publishes
    nothing and reports (0, nil): database, publisher and server are unchanged. *)
Theorem Process_locked_out r k ttl b t1 n2 t2 load env (s : S) (d : D) (p : P) v :
  lock_opt r = Some (k, ttl) -> live s t1 k = Some v ->
  Process r NetOk (inr b) t1 n2 t2 load env (s, (d, p)) = ((O, None), (s, (d, p))).
Proof.
  intros Hr Hl. unfold Process. rewrite Hr. unfold TryAcquire. simpl. unfold cmd_setnx. by rewrite Hl.
Qed.
End LockedRelay.

(** ** A table and a publisher in memory, for the witnesses *)

Module MemOutbox.
Record table := MkTable { rows : list Event; next_id : Z; rows_ok : NoDup (map ID rows) /\ Forall (fun e => ID e < next_id) rows }.

Lemma mark_ok l n id : NoDup (map ID l) /\ Forall (fun e => ID e < n) l ->
  NoDup (map ID (filter (fun e => ID e ≠ id) l)) /\ Forall (fun e => ID e < n) (filter (fun e => ID e ≠ id) l).
Proof.
  intros [Hn Hf]. split.
  - induction l as [|e l IH]; [done|]. simpl in Hn. apply NoDup_cons in Hn as [He Hn].
    apply Forall_cons in Hf as [_ Hf]. rewrite filter_cons. case_decide; [|by apply IH].
    simpl. apply NoDup_cons. split; [|by apply IH]. intros (x & Hx & Hin)%list_elem_of_fmap.
    apply list_elem_of_filter in Hin as [_ Hin]. apply He. apply list_elem_of_fmap. eauto.
  - apply Forall_forall. intros x [_ Hx]%list_elem_of_filter. by apply (proj1 (Forall_forall _ _) Hf).
Qed.

Lemma insert_ok l n t b now : NoDup (map ID l) /\ Forall (fun e => ID e < n) l ->
  NoDup (map ID (l ++ [MkEvent n t b now])) /\ Forall (fun e => ID e < n + 1) (l ++ [MkEvent n t b now]).
Proof.
  intros [Hn Hf]. rewrite map_app. split.
  - apply NoDup_app. split_and!; [done| |apply NoDup_singleton].
    intros x (e & -> & He)%list_elem_of_fmap. simpl. rewrite list_elem_of_singleton.
    pose proof (proj1 (Forall_forall _ _) Hf e He). simpl in *. lia.
  - apply Forall_app. split; [eapply Forall_impl; [exact Hf|]; simpl; lia|]. constructor; [simpl; lia|done].
Qed.

#[export] Instance mem_outbox : OutboxDB table := {
  pending t := rows t;
  db_mark id now t := MkTable _ (next_id t) (mark_ok _ _ id (rows_ok t));
  db_insert tp b now t := MkTable _ (next_id t + 1) (insert_ok _ _ tp b now (rows_ok t));
}.

#[export] Instance mem_outbox_laws : OutboxLaws table.
Proof. split; [intros d; apply (rows_ok d)|done|intros d t b now; by exists (next_id d)]. Qed.

#[export] Instance log_publisher : Publisher (list (string * string)).
Proof.
  refine {| Publish := fun t b p => (None, p ++ [(t, b)]); carried := fun p => p |}; done.
Defined.

Definition empty : table := MkTable [] 1 (conj (NoDup_nil_2) (Forall_nil_2 _)).
Definition two : table := db_insert "b" "2" 0 (db_insert "a" "1" 0 empty).
End MemOutbox.

Import Mem MemOutbox.

Lemma process_publishes_in_order_witness :
  (forall p t b, (Publish (P := list (string * string)) t b p).1 = None) /\
  (process (NewRelay [WithBatchSize 1]) NetOk (fun _ => (NetOk, 7)) two []).1 = (1%nat, None).
Proof.
  split; [done|].
  destruct (process (NewRelay [WithBatchSize 1]) NetOk (fun _ => (NetOk, 7)) two []) as [[n e] [d p]] eqn:Hp.
  pose proof (process_publishes_in_order (NewRelay [WithBatchSize 1]) (fun _ => (NetOk, 7)) two []
    (fun _ => eq_refl) (fun _ _ _ => eq_refl)) as Hw.
  cbv zeta in Hw. rewrite Hp in Hw. destruct Hw as (-> & -> & _). reflexivity.
Defined.

Definition locked_server : Mem.store := <["relay"%string := ("other"%string, None)]> ∅.

Lemma Process_locked_out_witness :
  live locked_server 5 "relay" = Some "other"%string /\
  Process (NewRelay [WithLock "relay" Second]) NetOk (inr "r"%string) 5 NetOk 6 NetOk (fun _ => (NetOk, 7))
    (locked_server, (two, ([] : list (string * string)))) = ((O, None), (locked_server, (two, []))).
Proof.
  split; [reflexivity|].
  apply (Process_locked_out (NewRelay [WithLock "relay" Second]) "relay" Second "r" 5 NetOk 6 NetOk
    (fun _ => (NetOk, 7)) locked_server two ([] : list (string * string)) "other"%string); reflexivity.
Defined.

(** A mark that fails after its event was published: the event stays pending, to be published again. *)
Definition lost_mark (i : nat) : net * Z := (match i with O => NetOk | _ => LostRequest (Err "lost") end, 7).

Lemma process_at_least_once_witness :
  exists i j, (1 <= i <= j)%nat /\ (j <= Datatypes.S i)%nat /\
    pending (process (NewRelay []) NetOk lost_mark two ([] : list (string * string))).2.1 = drop i (pending two) /\
    carried (process (NewRelay []) NetOk lost_mark two ([] : list (string * string))).2.2 = map message (take j (pending two)).
Proof.
  pose proof (process_at_least_once (NewRelay []) NetOk lost_mark two ([] : list (string * string))) as Hw.
  assert (Hn : (process (NewRelay []) NetOk lost_mark two ([] : list (string * string))).1.1 = 1%nat) by (vm_compute; reflexivity).
  destruct (process (NewRelay []) NetOk lost_mark two ([] : list (string * string))) as [[n e] [d p]].
  cbn [fst snd] in *. subst n. destruct Hw as (i & j & H1 & H2 & H3 & H4 & _). exists i, j.
  split; [exact H1|]. split; [exact H2|]. split; [exact H3|exact H4].
Defined.
