(* ===== verification/Inbox.v ===== *)
(** * The idempotent consumer (inbox/inbox.go)

    The database is an interface: a dedup table next to the application's own data, an insert
    that does nothing on a conflict, and transactions. [Once] is proved to apply a message's
    handler exactly once over any history of deliveries, failures and redeliveries. *)

From S2P Require Import Prelude.
Open Scope Z_scope.

(** [Entry] is one row of the dedup table. *)
Record Entry := MkEntry { MessageID : string; ProcessedAt : Z }.

(** [A] is the application's data, which a handler changes through the transaction. *)
Class TxDB (D A : Type) := {
  marks : D -> gset string;      (* the message ids in the dedup table *)
  data : D -> A;
  (** INSERT ... ON CONFLICT DO NOTHING, with the number of rows inserted *)
  insert_ignore : Entry -> D -> Z * D;
  update : (A -> option error * A) -> D -> option error * D;
  (** bun's [RunInTx]; the first argument is the fate of its own BEGIN and COMMIT *)
  RunInTx : net -> (D -> option error * D) -> D -> option error * D;
}.

Class TxLaws (D A : Type) `{TxDB D A} := {
  insert_new d e : MessageID e ∉ marks d ->
    let '(n, d') := insert_ignore e d in
    n = 1 /\ marks d' = ({[MessageID e]} ∪ marks d) /\ data d' = data d;
  insert_dup d e : MessageID e ∈ marks d -> insert_ignore e d = (0, d);
  update_marks d f : marks (update f d).2 = marks d;
  update_data d f : data (update f d).2 = (f (data d)).2;
  update_err d f : (update f d).1 = (f (data d)).1;
  (** an error of the body rolls back and is returned *)
  tx_rollback n body d e : (body d).1 = Some e -> exists e', RunInTx n body d = (Some e', d);
  (** nil is returned only after a commit; a failed BEGIN or COMMIT may or may not have committed *)
  tx_commit n body d : (body d).1 = None ->
    RunInTx n body d = (None, (body d).2) \/ exists e, RunInTx n body d = (Some e, d) \/ RunInTx n body d = (Some e, (body d).2);
  tx_ok body d : (body d).1 = None -> RunInTx NetOk body d = (None, (body d).2);
}.

Section Inbox.
  Context {D A : Type} `{TxDB D A}.

(** What can go wrong in one delivery: the transaction's own calls, the insert, and reading the
    number of affected rows. *)
Record fate := Fate { f_tx : net; f_insert : net; f_rows : option error; f_now : Z }.

Definition once_body (f : fate) (messageID : string) (fn : D -> option error * D) (tx : D) : option error * D :=
  match call (f_insert f) (insert_ignore (MkEntry messageID (f_now f))) tx with
  | (inl err, tx') => (Some (Wrap "inbox: mark message: " [err]), tx')
  | (inr n, tx') =>
      match f_rows f with
      | Some err => (Some (Wrap "inbox: rows affected: " [err]), tx')
      | None => if n =? 0 then (None, tx') else fn tx'
      end
  end.

Definition Once (f : fate) (messageID : string) (fn : D -> option error * D) (d : D) : option error * D :=
  RunInTx (f_tx f) (once_body f messageID fn) d.

(** A consumer: [h] is the handler; deliveries come in any order and number. *)
Definition deliver (h : string -> A -> option error * A) (f : fate) (m : string) : D -> option error * D :=
  Once f m (update (h m)).

Fixpoint consume (h : string -> A -> option error * A) (ds : list (fate * string)) (d : D)
    : list (option error) * D :=
  match ds with
  | [] => ([], d)
  | (f, m) :: ds =>
      let '(r, d1) := deliver h f m d in
      let '(rs, d2) := consume h ds d1 in (r :: rs, d2)
  end.
End Inbox.

(** * Proofs *)

Section InboxProofs.
  Context {D A : Type} `{TxLaws D A} (h : string -> A -> option error * A).

(** Running the handlers of [ms] in order, each of them successful. *)
Fixpoint handled (ms : list string) (a b : A) : Prop :=
  match ms with
  | [] => b = a
  | m :: ms => (h m a).1 = None /\ handled ms (h m a).2 b
  end.

Lemma handled_snoc ms m a b : handled ms a b -> (h m b).1 = None -> handled (ms ++ [m]) a (h m b).2.
Proof. revert a; induction ms as [|x ms IH]; intros a; simpl; [by intros -> ?|]. intros [? ?] ?. eauto. Qed.

Lemma deliver_step f m d :
  let '(r, d') := deliver h f m d in
  (d' = d /\ (r = None -> m ∈ marks d)) \/
  ((m ∉ marks d) /\ marks d' = ({[m]} ∪ marks d) /\ (h m (data d)).1 = None /\ data d' = (h m (data d)).2).
Proof.
  unfold deliver, Once. set (body := once_body f m (update (h m))).
  assert (Hb : (body d).1 = None ->
     (m ∈ marks d /\ (body d).2 = d) \/
     ((m ∉ marks d) /\ marks (body d).2 = ({[m]} ∪ marks d) /\ (h m (data d)).1 = None /\
      data (body d).2 = (h m (data d)).2)).
  { unfold body, once_body. destruct (decide (m ∈ marks d)) as [Hin|Hni].
    - destruct (f_insert f); simpl; rewrite ?insert_dup by done; simpl; try done.
      destruct (f_rows f); simpl; [done|]. intros _. by left.
    - pose proof (insert_new d (MkEntry m (f_now f)) Hni) as Hi.
      destruct (f_insert f); simpl; try done. destruct (insert_ignore _ d) as [n d1].
      destruct Hi as (-> & Hm & Hd). simpl in *. destruct (f_rows f); simpl; [done|].
      rewrite update_err, update_marks, update_data, Hm, Hd. intros He. by right. }
  destruct ((body d).1) as [e|] eqn:He.
  - destruct (tx_rollback (f_tx f) body d e He) as [e' ->]. by left.
  - specialize (Hb eq_refl).
    destruct Hb as [[Hin Hd]|Hnew];
      destruct (tx_commit (f_tx f) body d He) as [-> | [e [-> | ->] ] ]; rewrite ?Hd; naive_solver.
Qed.

(** Any sequence of deliveries. *)
Lemma consume_spec ds d :
  marks d = ∅ ->
  let '(rs, d') := consume h ds d in
  exists ms, NoDup ms /\ marks d' = list_to_set ms /\ handled ms (data d) (data d') /\
    (forall m, m ∈ ms -> m ∈ map snd ds) /\
    (forall i f m, ds !! i = Some (f, m) -> rs !! i = Some None -> m ∈ ms).
Proof.
  intros He.
  assert (Hgen : forall ms0 a0 d, NoDup ms0 -> marks d = list_to_set ms0 -> handled ms0 a0 (data d) ->
    let '(rs, d') := consume h ds d in
    exists ms, NoDup ms /\ marks d' = list_to_set ms /\ handled ms a0 (data d') /\ (forall m, m ∈ ms0 -> m ∈ ms) /\
      (forall m, m ∈ ms -> m ∈ ms0 \/ m ∈ map snd ds) /\
      (forall i f m, ds !! i = Some (f, m) -> rs !! i = Some None -> m ∈ ms)).
  { clear d He. induction ds as [|[f m] ds' IH]; intros ms0 a0 d Hnd Hm Hh; simpl.
    { exists ms0. split_and!; auto. intros i f m Hl. destruct i; discriminate. }
    pose proof (deliver_step f m d) as Hs. destruct (deliver h f m d) as [r d1].
    set (ms1 := if decide (m ∈ marks d) then ms0 else if decide (marks d1 = marks d) then ms0 else ms0 ++ [m]).
    assert (Hms : NoDup ms1 /\ marks d1 = list_to_set ms1 /\ handled ms1 a0 (data d1) /\
       (forall x, x ∈ ms0 -> x ∈ ms1) /\ (forall x, x ∈ ms1 -> x ∈ ms0 \/ x = m) /\ (r = None -> m ∈ ms1)).
    { unfold ms1. destruct Hs as [[-> Hr]|(Hni & Hm1 & Hok & Hd1)].
      - rewrite (decide_True (P := marks d = marks d)) by done. destruct (decide (m ∈ marks d)); split_and!; auto; set_solver.
      - rewrite decide_False by done. rewrite decide_False by (rewrite Hm1; set_solver).
        split_and!; [|rewrite Hm1, Hm; set_solver|rewrite Hd1; by apply handled_snoc|set_solver..].
        apply NoDup_app. split_and!; [done| |apply NoDup_singleton]. set_solver. }
    destruct Hms as (Hnd1 & Hm1 & Hh1 & Hsub & Hsup & Hr).
    specialize (IH ms1 a0 d1 Hnd1 Hm1 Hh1). destruct (consume h ds' d1) as [rs d2].
    destruct IH as (ms & ? & ? & ? & Hin & Hout & Hres). exists ms.
    split_and!; auto.
    - intros x Hx. destruct (Hout x Hx) as [Hx1|Hx1]; [destruct (Hsup x Hx1); set_solver|set_solver].
    - intros [|i] f0 m0; simpl; [intros [= <- <-] [= Hr']; auto|apply Hres]. }
  specialize (Hgen [] (data d) d (NoDup_nil_2) ltac:(set_solver) eq_refl).
  destruct (consume h ds d) as [rs d']. destruct Hgen as (ms & ? & ? & ? & _ & Hout & ?).
  exists ms. split_and!; auto. intros m Hm. destruct (Hout m Hm); set_solver.
Qed.

(** (C9) Exactly once: after any sequence of deliveries (duplicates, failing handlers, lost calls,
    failed commits), the marked messages are a duplicate-free list [ms] of the delivered ids
    whose handlers, each successful, were applied once each in that order to the data the
    consumer started from, and every message a delivery reported nil for is one of them. *)
Theorem inbox_exactly_once ds d :
  marks d = ∅ ->
  let '(rs, d') := consume h ds d in
  exists ms, NoDup ms /\ marks d' = list_to_set ms /\ handled ms (data d) (data d') /\
    (forall m, m ∈ ms -> m ∈ map snd ds) /\
    (forall i f m, ds !! i = Some (f, m) -> rs !! i = Some None -> m ∈ ms).
Proof. exact (consume_spec ds d). Qed.

(** Liveness of a redelivery: when nothing fails, delivering an unprocessed message runs its
    handler on the current data and returns its result; with an error nothing is kept, so that
    the message can be processed later. *)
Theorem Once_runs_unprocessed now m d :
  m ∉ marks d ->
  let '(r, d') := deliver h (Fate NetOk NetOk None now) m d in
  match (h m (data d)).1 with
  | None => r = None /\ marks d' = ({[m]} ∪ marks d) /\ data d' = (h m (data d)).2
  | Some _ => r <> None /\ d' = d
  end.
Proof.
  intros Hni. unfold deliver, Once. simpl.
  pose proof (insert_new d (MkEntry m now) Hni) as Hi.
  assert (Hbody : exists d1, once_body (Fate NetOk NetOk None now) m (update (h m)) d = update (h m) d1 /\
     marks d1 = ({[m]} ∪ marks d) /\ data d1 = data d).
  { unfold once_body. simpl. destruct (insert_ignore _ d) as [n d1]. destruct Hi as (-> & ? & ?). exists d1.
    split_and!; done. }
  destruct Hbody as (d1 & Hb & Hm & Hd). pose proof (update_err d1 (h m)) as Hue. rewrite Hd in Hue.
  destruct ((h m (data d)).1) as [e|].
  - destruct (tx_rollback NetOk (once_body (Fate NetOk NetOk None now) m (update (h m))) d e) as [e' He'];
      [by rewrite Hb|]. rewrite He'. done.
  - rewrite tx_ok by (by rewrite Hb). rewrite Hb, update_marks, update_data, Hm, Hd. done.
Qed.
End InboxProofs.

(** ** A database in memory *)

Module MemInbox.
Record db (A : Type) := Db { seen : gset string; app : A }.
Arguments Db {A}. Arguments seen {A}. Arguments app {A}.

#[export] Instance mem_tx A : TxDB (db A) A := {
  marks := seen; data := app;
  insert_ignore e d := if decide (MessageID e ∈ seen d) then (0, d) else (1, Db ({[MessageID e]} ∪ seen d) (app d));
  update f d := ((f (app d)).1, Db (seen d) (f (app d)).2);
  RunInTx n body d :=
    match n with
    | NetOk => match (body d).1 with None => (None, (body d).2) | Some e => (Some e, d) end
    | LostRequest e => (Some e, d)
    | LostReply e => match (body d).1 with None => (Some e, (body d).2) | Some e => (Some e, d) end
    end;
}.

#[export] Instance mem_tx_laws A : TxLaws (db A) A.
Proof.
  split; try done; simpl.
  - intros d e Hni. by rewrite decide_False.
  - intros d e Hin. by rewrite decide_True.
  - intros n body d e He. destruct n; rewrite ?He; eauto.
  - intros n body d He. destruct n; rewrite ?He; eauto.
  - intros body d He. by rewrite He.
Qed.
End MemInbox.
Import MemInbox.

(** A handler that logs the message, failing on "bad". *)
Definition log_handler (m : string) (l : list string) : option error * list string :=
  if String.eqb m "bad" then (Some (Err "bad"), l ++ ["junk"%string]) else (None, l ++ [m]).

Definition deliveries : list (fate * string) :=
  [(Fate NetOk NetOk None 1, "a"); (Fate (LostReply (Err "eof")) NetOk None 2, "b");
   (Fate NetOk NetOk None 3, "bad"); (Fate NetOk NetOk None 4, "b"); (Fate NetOk NetOk None 5, "a")]%string.

Lemma inbox_exactly_once_witness :
  marks (D := db (list string)) (Db ∅ []) = ∅ /\
  (consume log_handler deliveries (Db ∅ [])).1 = [None; Some (Err "eof"); Some (Err "bad"); None; None] /\
  data (consume log_handler deliveries (Db ∅ [])).2 = ["a"; "b"]%string /\
  exists ms, NoDup ms /\ handled log_handler ms [] (data (consume log_handler deliveries (Db ∅ [])).2).
Proof.
  split; [reflexivity|]. split; [vm_compute; reflexivity|]. split; [vm_compute; reflexivity|].
  pose proof (inbox_exactly_once log_handler deliveries (Db ∅ []) eq_refl) as Hw.
  destruct (consume log_handler deliveries (Db ∅ [])) as [rs d']. destruct Hw as (ms & ? & _ & ? & _).
  exists ms. split; assumption.
Defined.

Lemma Once_runs_unprocessed_witness :
  ("a"%string ∉ marks (D := db (list string)) (Db ∅ [])) /\
  (deliver log_handler (Fate NetOk NetOk None 1) "a" (Db (∅ : gset string) [])).1 = None.
Proof.
  split; [apply not_elem_of_empty|].
  pose proof (Once_runs_unprocessed log_handler 1 "a" (Db ∅ []) ltac:(apply not_elem_of_empty)) as Hw.
  destruct (deliver log_handler _ "a" (Db ∅ [])) as [r d']. simpl in Hw. apply Hw.
Defined.
