(* ===== verification/TokenStore.v ===== *)
(** * Token stores (auth/store.go, auth/store_memory.go, auth/store_redis.go)

    [TokenStore] is the Go interface with, for reasoning, the two views it maintains: which
    token ids are revoked and which refresh token is active in a family, at an instant.
    [TokenStoreLaws] is the contract; the in-memory store and the Redis store both satisfy it. *)

From S2P Require Import Prelude RedisServer.
Open Scope Z_scope.

Class TokenStore (S : Type) := {
  Block : net -> Z -> string -> Z -> S -> option error * S;
  IsBlocked : net -> Z -> string -> S -> (error + bool) * S;
  SetFamily : net -> Z -> string -> string -> Z -> S -> option error * S;
  Family : net -> Z -> string -> S -> (error + option string) * S;
  RevokeFamily : net -> Z -> string -> S -> option error * S;
  blocked_at : S -> Z -> string -> bool;
  family_at : S -> Z -> string -> option string;
}.

(** The part of a TTL every store honours: Redis keeps whole milliseconds. *)
Definition whole_ms (ttl : Z) : Z := ttl / Millisecond * Millisecond.

(** Both views from [now] on. *)
Definition same_views {S} `{TokenStore S} (now : Z) (s s' : S) : Prop :=
  forall t x, now <= t -> blocked_at s' t x = blocked_at s t x /\ family_at s' t x = family_at s t x.

Class TokenStoreLaws (S : Type) `{TokenStore S} := {
  isblocked_spec n now j s :
    ((IsBlocked n now j s).1 = inr (blocked_at s now j) \/ (n <> NetOk /\ exists e, (IsBlocked n now j s).1 = inl e)) /\
    same_views now s (IsBlocked n now j s).2;
  family_spec n now f s :
    ((Family n now f s).1 = inr (family_at s now f) \/ (n <> NetOk /\ exists e, (Family n now f s).1 = inl e)) /\
    same_views now s (Family n now f s).2;
  block_spec n now j ttl s :
    (n = NetOk -> (Block n now j ttl s).1 = None) /\
    (forall t x, now <= t -> family_at (Block n now j ttl s).2 t x = family_at s t x) /\
    (forall t x, now <= t -> x <> j -> blocked_at (Block n now j ttl s).2 t x = blocked_at s t x) /\
    ((Block n now j ttl s).1 = None -> forall t, now <= t < now + whole_ms ttl ->
      blocked_at (Block n now j ttl s).2 t j = true);
  setfamily_spec n now f j ttl s :
    let '(r, s') := SetFamily n now f j ttl s in
    (n = NetOk -> r = None) /\
    (forall t x, now <= t -> blocked_at s' t x = blocked_at s t x) /\
    (forall t x, now <= t -> x <> f -> family_at s' t x = family_at s t x) /\
    (forall t k, now <= t -> family_at s' t f = Some k -> k = j \/ family_at s t f = Some k) /\
    (r = None -> 0 < ttl -> forall t k, now <= t -> family_at s' t f = Some k -> k = j) /\
    (r = None -> forall t, now <= t < now + whole_ms ttl -> family_at s' t f = Some j);
  revoke_spec n now f s :
    let '(r, s') := RevokeFamily n now f s in
    (n = NetOk -> r = None) /\
    (forall t x, now <= t -> blocked_at s' t x = blocked_at s t x) /\
    (forall t x, now <= t -> x <> f -> family_at s' t x = family_at s t x) /\
    (forall t k, now <= t -> family_at s' t f = Some k -> family_at s t f = Some k) /\
    (r = None -> forall t, now <= t -> family_at s' t f = None);
}.

Lemma whole_ms_le ttl : whole_ms ttl <= ttl.
Proof. unfold whole_ms, Millisecond. pose proof (Z.mul_div_le ttl 1000000). lia. Qed.

Lemma same_views_refl {S} `{TokenStore S} now (s : S) : same_views now s s.
Proof. intros t x _. done. Qed.

(** ** In memory *)

Module MemoryStore.

Record famEntry := FamEntry { jti : string; exp : Z }.
Record MemoryStore := MkMemoryStore { block : gmap string Z; family : gmap string famEntry }.

Definition NewMemoryStore : MemoryStore := MkMemoryStore ∅ ∅.

Definition mem_Block (now : Z) (j : string) (ttl : Z) (m : MemoryStore) : option error * MemoryStore :=
  (None, MkMemoryStore (<[j := now + ttl]> (block m)) (family m)).

Definition mem_IsBlocked (now : Z) (j : string) (m : MemoryStore) : (error + bool) * MemoryStore :=
  match block m !! j with
  | None => (inr false, m)
  | Some exp => if exp <? now then (inr false, MkMemoryStore (delete j (block m)) (family m)) else (inr true, m)
  end.

Definition mem_SetFamily (now : Z) (fid j : string) (ttl : Z) (m : MemoryStore) : option error * MemoryStore :=
  (None, MkMemoryStore (block m) (<[fid := FamEntry j (now + ttl)]> (family m))).

Definition mem_Family (now : Z) (fid : string) (m : MemoryStore) : (error + option string) * MemoryStore :=
  match family m !! fid with
  | None => (inr None, m)
  | Some e => if exp e <? now then (inr None, MkMemoryStore (block m) (delete fid (family m))) else (inr (Some (jti e)), m)
  end.

Definition mem_RevokeFamily (fid : string) (m : MemoryStore) : option error * MemoryStore :=
  (None, MkMemoryStore (block m) (delete fid (family m))).

#[export] Instance memory_store : TokenStore MemoryStore := {
  Block _ := mem_Block;
  IsBlocked _ := mem_IsBlocked;
  SetFamily _ := mem_SetFamily;
  Family _ := mem_Family;
  RevokeFamily _ _ := mem_RevokeFamily;
  blocked_at m t j := match block m !! j with Some exp => negb (exp <? t) | None => false end;
  family_at m t f := match family m !! f with Some e => if exp e <? t then None else Some (jti e) | None => None end;
}.

Ltac lookups := repeat match goal with
  | |- context [<[?k := _]> _ !! ?k] => rewrite lookup_insert_eq
  | |- context [delete ?k _ !! ?k] => rewrite lookup_delete_eq
  | H : ?x <> ?k |- context [<[?k := _]> _ !! ?x] => rewrite lookup_insert_ne by congruence
  | H : ?x <> ?k |- context [delete ?k _ !! ?x] => rewrite lookup_delete_ne by congruence
  end.

#[export] Instance memory_laws : TokenStoreLaws MemoryStore.
Proof.
  split; simpl.
  - intros n now j m. unfold mem_IsBlocked. destruct (block m !! j) as [e|] eqn:Hb; simpl; [|split; [by left|apply same_views_refl]].
    destruct (Z.ltb_spec e now); simpl; (split; [by left|]); [|apply same_views_refl].
    intros t x Ht; simpl. split; [|done]. destruct (decide (x = j)) as [->|Hne]; lookups; [|done].
    rewrite Hb. destruct (Z.ltb_spec e t); [done|lia].
  - intros n now f m. unfold mem_Family. destruct (family m !! f) as [e|] eqn:Hb; simpl; [|split; [by left|apply same_views_refl]].
    destruct (Z.ltb_spec (exp e) now); simpl; (split; [by left|]); [|apply same_views_refl].
    intros t x Ht; simpl. split; [done|]. destruct (decide (x = f)) as [->|Hne]; lookups; [|done].
    rewrite Hb. destruct (Z.ltb_spec (exp e) t); [done|lia].
  - intros n now j ttl m. split_and!; try done; [intros t x Ht Hne; by lookups|].
    intros _ t Ht. lookups. pose proof (whole_ms_le ttl). destruct (Z.ltb_spec (now + ttl) t); [lia|done].
  - intros n now f j ttl m. split_and!; try done; [intros t x Ht Hne; by lookups| | |].
    + intros t k Ht. lookups. simpl. case_match; [done|]. intros [= ->]. by left.
    + intros _ _ t k Ht. lookups. simpl. case_match; congruence.
    + intros _ t Ht. lookups. simpl. pose proof (whole_ms_le ttl). destruct (Z.ltb_spec (now + ttl) t); [lia|done].
  - intros n now f m. split_and!; try done; [intros t x Ht Hne; by lookups|intros t k Ht; by lookups|intros _ t Ht; by lookups].
Qed.
End MemoryStore.

(** ** On Redis *)

Module RedisStore.
Section RedisStore.
  Context {S : Type} `{RedisServer S} (prefix : string).

Definition WithStorePrefix (p : string) (cur : string) : string := if String.eqb p EmptyString then cur else p.
(** [NewRedisStore]'s prefix. *)
Definition NewRedisStore (opts : list (string -> string)) : string := fold_left (fun s o => o s) opts "auth:"%string.

Definition blockKey (j : string) : string := prefix +:+ ("block:" +:+ j).
Definition familyKey (fid : string) : string := prefix +:+ ("family:" +:+ fid).

(** [Set(...).Err()] and [Del(...).Err()]. *)
Definition cmd_err (r : error + unit) : option error := match r with inl e => Some e | inr _ => None end.

Definition redis_Block (n : net) (now : Z) (j : string) (ttl : Z) (s : S) : option error * S :=
  if ttl <=? 0 then (None, s)
  else let '(r, s') := call n (fun s => (tt, cmd_set now (blockKey j) "1" ttl s)) s in (cmd_err r, s').

(** EXISTS counts the keys present. *)
Definition redis_IsBlocked (n : net) (now : Z) (j : string) (s : S) : (error + bool) * S :=
  let '(r, s') := call n (fun s => (match live s now (blockKey j) with Some _ => 1 | None => 0 end, s)) s in
  match r with inl e => (inl e, s') | inr k => (inr (0 <? k), s') end.

Definition redis_SetFamily (n : net) (now : Z) (fid j : string) (ttl : Z) (s : S) : option error * S :=
  if ttl <=? 0 then (None, s)
  else let '(r, s') := call n (fun s => (tt, cmd_set now (familyKey fid) j ttl s)) s in (cmd_err r, s').

Definition redis_Family (n : net) (now : Z) (fid : string) (s : S) : (error + option string) * S :=
  call n (fun s => (live s now (familyKey fid), s)) s.

Definition redis_RevokeFamily (n : net) (now : Z) (fid : string) (s : S) : option error * S :=
  let '(r, s') := call n (fun s => (tt, cmd_del now (familyKey fid) s)) s in (cmd_err r, s').

Definition redis_store : TokenStore S := {|
  Block := redis_Block; IsBlocked := redis_IsBlocked; SetFamily := redis_SetFamily;
  Family := redis_Family; RevokeFamily := redis_RevokeFamily;
  blocked_at s t j := match live s t (blockKey j) with Some _ => true | None => false end;
  family_at s t f := live s t (familyKey f) |}.

Lemma block_family_ne j f : blockKey j <> familyKey f.
Proof. unfold blockKey, familyKey. intros Hk%string_app_inj_l. discriminate. Qed.
Lemma blockKey_inj x y : blockKey x = blockKey y -> x = y.
Proof. unfold blockKey. intros Hk%string_app_inj_l%string_app_inj_l. done. Qed.
Lemma familyKey_inj x y : familyKey x = familyKey y -> x = y.
Proof. unfold familyKey. intros Hk%string_app_inj_l%string_app_inj_l. done. Qed.

Lemma px_whole ttl : whole_ms ttl <= px ttl.
Proof.
  unfold px, whole_ms. destruct (Z.ltb_spec ttl Millisecond); [|done].
  unfold Millisecond in *. pose proof (Z.div_lt_upper_bound ttl 1000000 1). lia.
Qed.
End RedisStore.

Section RedisStoreLaws.
  Context {S : Type} `{RedisLaws S} (prefix : string).

Lemma redis_set_spec n now k v ttl (s : S) :
  0 < ttl ->
  let '(r, s') := call n (fun s => (tt, cmd_set now k v ttl s)) s in
  (n = NetOk -> cmd_err r = None) /\
  (forall t x, now <= t -> x <> k -> live s' t x = live s t x) /\
  (forall t w, now <= t -> live s' t k = Some w -> w = v \/ live s t k = Some w) /\
  (cmd_err r = None -> forall t w, now <= t -> live s' t k = Some w -> w = v) /\
  (cmd_err r = None -> forall t, now <= t < now + whole_ms ttl -> live s' t k = Some v).
Proof.
  intros Httl. destruct n as [|e|e]; simpl.
  - split_and!; try done.
    + intros t x Ht Hne. rewrite live_set by lia. by rewrite decide_False.
    + intros t w Ht. rewrite live_set by lia. rewrite decide_True by done. case_match; [intros [= ->]; by left|done].
    + intros _ t w Ht. rewrite live_set by lia. rewrite decide_True by done. case_match; congruence.
    + intros _ t Ht. rewrite live_set by lia. rewrite decide_True by done. pose proof (px_whole ttl).
      rewrite (proj2 (Z.ltb_lt _ _)), orb_true_r by lia. done.
  - split_and!; try done; [|intros ?; discriminate..]. intros; by right.
  - split_and!; try done.
    + intros t x Ht Hne. rewrite live_set by lia. by rewrite decide_False.
    + intros t w Ht. rewrite live_set by lia. rewrite decide_True by done. case_match; [intros [= ->]; by left|done].
Qed.

Lemma redis_store_laws : @TokenStoreLaws S (redis_store prefix).
Proof.
  split; simpl.
  - intros n now j s. unfold redis_IsBlocked.
    destruct n as [|e|e]; simpl; (split; [|by intros t x Ht]); [left; by destruct (live s now _)|right; eauto..].
  - intros n now f s. unfold redis_Family.
    destruct n as [|e|e]; simpl; (split; [|by intros t x Ht]); [by left|right; eauto..].
  - intros n now j ttl s. unfold redis_Block. destruct (Z.leb_spec ttl 0); simpl.
    { split_and!; try done. intros _ t Ht. pose proof (whole_ms_le ttl). lia. }
    pose proof (redis_set_spec n now (blockKey prefix j) "1" ttl s ltac:(lia)) as Hs.
    destruct (call n _ s) as [r s']. destruct Hs as (Hok & Hfr & _ & _ & Hset). simpl. split_and!; try done.
    + intros t x Ht. apply Hfr; [done|]. apply not_eq_sym, block_family_ne.
    + intros t x Ht Hne. rewrite Hfr; [done..|]. by intros ?%blockKey_inj.
    + intros Hr t Ht. by rewrite (Hset Hr t Ht).
  - intros n now f j ttl s. unfold redis_SetFamily. destruct (Z.leb_spec ttl 0); simpl.
    { split_and!; try done; [auto|intros; lia|]. intros _ t Ht. pose proof (whole_ms_le ttl). lia. }
    pose proof (redis_set_spec n now (familyKey prefix f) j ttl s ltac:(lia)) as Hs.
    destruct (call n _ s) as [r s']. destruct Hs as (Hok & Hfr & Hany & Hnew & Hset). simpl. split_and!; try done.
    + intros t x Ht. rewrite Hfr; [done..|]. apply block_family_ne.
    + intros t x Ht Hne. apply Hfr; [done|]. by intros ?%familyKey_inj.
    + intros Hr _. by apply Hnew.
  - intros n now f s. unfold redis_RevokeFamily. destruct n as [|e|e]; simpl; split_and!; try done.
    + intros t x Ht. rewrite live_del by done. rewrite decide_False; [done|]. apply not_eq_sym, block_family_ne.
    + intros t x Ht Hne. rewrite live_del by done. rewrite decide_False; [done|]. by intros ?%familyKey_inj.
    + intros t k Ht. rewrite live_del by done. by rewrite decide_True.
    + intros _ t Ht. rewrite live_del by done. by rewrite decide_True.
    + intros t x Ht. rewrite live_del by done. rewrite decide_False; [done|]. apply not_eq_sym, block_family_ne.
    + intros t x Ht Hne. rewrite live_del by done. rewrite decide_False; [done|]. by intros ?%familyKey_inj.
    + intros t k Ht. rewrite live_del by done. by rewrite decide_True.
Qed.
End RedisStoreLaws.
End RedisStore.
