(* ===== verification/Jwt.v ===== *)
(** * JSON Web Tokens (jwt/jwt.go)

    Signing and parsing belong to golang-jwt: [JwtLib] names what the package calls and
    [JwtLaws] what that library documents. The package itself restricts the signing method and
    writes the expiry. *)

From stdpp Require Import countable.
From S2P Require Import Prelude GoStrings Fiber GoJson.
Open Scope Z_scope.

(** What a claims map is after being encoded into a token and decoded again. *)
Definition json_claims (c : claims) : claims := json_any <$> c.
Definition claims_encodable (c : claims) : Prop := map_Forall (fun k v => encodable v = true /\ ascii_only k = true) c.

(** ** The library *)

Inductive signing_method := HMAC (alg : string) | OtherMethod (alg : string).
Definition HS256 : signing_method := HMAC "HS256".

(** A parsed token; the claims are [None] when they are not a [MapClaims]. *)
Record Token := MkToken { tok_claims : option claims; Valid : bool }.

Class JwtLib := {
  (** [jwt.NewWithClaims(HS256, claims).SignedString(key)] *)
  SignedString : string -> claims -> error + string;
  (** [jwt.Parse] at an instant: token (or nil) and error *)
  Parse : Z -> string -> (signing_method -> error + string) -> option Token * option error;
  (** the method a token's header names *)
  token_method : string -> option signing_method;
}.

(** Validity of the [exp] claim as written by this package, and no [nbf]. *)
Definition time_valid (now : Z) (c : claims) : Prop :=
  c !! "nbf"%string = None /\
  match c !! "exp"%string with Some (AInt z) => now < z * Second | None => True | _ => False end.

Class JwtLaws `{JwtLib} := {
  sign_parse key c tok now kf : SignedString key c = inr tok -> claims_encodable c ->
    kf HS256 = inr key -> time_valid now c ->
    Parse now tok kf = (Some (MkToken (Some (json_claims c)) true), None);
  sign_expired key c tok now kf z : SignedString key c = inr tok -> claims_encodable c ->
    c !! "exp"%string = Some (AInt z) -> z * Second <= now -> (Parse now tok kf).2 <> None;
  parse_method now tok kf t : Parse now tok kf = (t, None) ->
    exists m key, token_method tok = Some m /\ kf m = inr key;
  (** time decides only whether a token is accepted, not what it says *)
  parse_claims now now' tok kf t t' : Parse now tok kf = (Some t, None) -> Parse now' tok kf = (Some t', None) -> t = t';
  sign_nonempty key c tok : SignedString key c = inr tok -> tok <> EmptyString;
}.

Section Jwt.
  Context `{JwtLib}.

Definition GenerateToken (c : claims) (secret : string) : error + string := SignedString secret c.

(** [now] is the clock reading; the claims map is updated in place, so it is returned as well. *)
Definition GenerateTokenWithExpiry (now : Z) (c : claims) (secret : string) (ttl : Z) : (error + string) * claims :=
  let c := <["exp"%string := AInt ((now + ttl) / Second)]> c in
  (SignedString secret c, c).

Definition ValidateToken (now : Z) (tokenString secret : string) : option Token * option error :=
  Parse now tokenString (fun m =>
    match m with
    | HMAC _ => inr secret
    | OtherMethod alg => inl (Err ("unexpected signing method: " +:+ alg))
    end).

Definition ExtractClaimsFromJwt (t : Token) : error + claims :=
  match tok_claims t with Some c => inr c | None => inl (Err "invalid claims") end.

(** [Claims]: the variadic setter form, then the getter. *)
Definition Claims {Id} (c : ctx Id) (localKey : string) (cs : list claims) : (error + claims) * ctx Id :=
  match cs with
  | x :: _ => (inr x, set_local localKey (LClaims x) c)
  | [] => match locals c !! localKey with
          | Some (LClaims x) => (inr x, c)
          | _ => (inl (Err "invalid claims"), c)
          end
  end.
End Jwt.

(** * Lemmas *)

Lemma json_claims_lookup c k : json_claims c !! k = json_any <$> (c !! k).
Proof. unfold json_claims. by rewrite lookup_fmap. Qed.

Lemma json_str v s : json_any v = AStr s -> v = AStr s.
Proof. destruct v; simpl; congruence. Qed.

Section Props.
  Context `{JwtLaws}.

Lemma validate_signed now key c tok :
  SignedString key c = inr tok -> claims_encodable c -> time_valid now c ->
  ValidateToken now tok key = (Some (MkToken (Some (json_claims c)) true), None).
Proof. intros Hs Hc Ht. by apply (sign_parse key c tok now _ Hs Hc). Qed.

(** Algorithm confusion is excluded: a token whose header names no HMAC method is never
    validated, whatever its signature. *)
Theorem ValidateToken_hmac_only now tok secret :
  (forall alg, token_method tok <> Some (HMAC alg)) -> (ValidateToken now tok secret).2 <> None.
Proof.
  intros Hm Hn. unfold ValidateToken in Hn.
  destruct (Parse now tok _) as [t e] eqn:Hp. simpl in Hn. subst e.
  apply parse_method in Hp as (m & key & Htm & Hk). destruct m as [alg|alg]; [by apply (Hm alg)|done].
Qed.
End Props.

(** ** A library for the witnesses: tokens are binary encodings of method, key and claims *)

Module ToyJwt.
Fixpoint bits (p : positive) : string :=
  match p with xH => EmptyString | xO p => String "0" (bits p) | xI p => String "1" (bits p) end.
Fixpoint unbits (s : string) : positive :=
  match s with
  | EmptyString => xH
  | String c s => if Ascii.eqb c "1" then xI (unbits s) else xO (unbits s)
  end.
Lemma unbits_bits p : unbits (bits p) = p.
Proof. induction p; simpl; congruence. Qed.

(** The boolean says the token is signed with HS256. *)
Definition toy_encode (x : bool * (string * claims)) : string := String "." (bits (encode x)).
Definition toy_decode (s : string) : option (bool * (string * claims)) :=
  match s with String _ s => decode (unbits s) | EmptyString => None end.

Definition time_ok (now : Z) (c : claims) : bool :=
  match c !! "exp"%string with Some (AInt z) => now <? z * Second | None => true | _ => false end.

#[export] Instance toy_jwt : JwtLib := {
  SignedString key c := inr (toy_encode (true, (key, c)));
  Parse now tok kf :=
    match toy_decode tok with
    | Some (h, (key, c)) =>
        match kf (if h then HS256 else OtherMethod "none") with
        | inr key' => if bool_decide (key = key') && time_ok now c
                      then (Some (MkToken (Some (json_claims c)) true), None)
                      else (None, Some (Err "token is invalid"))
        | inl e => (None, Some e)
        end
    | None => (None, Some (Err "token is malformed"))
    end;
  token_method tok := match toy_decode tok with
                      | Some (true, _) => Some HS256 | Some _ => Some (OtherMethod "none") | None => None end;
}.

Lemma toy_decode_encode x : toy_decode (toy_encode x) = Some x.
Proof. unfold toy_decode, toy_encode. by rewrite unbits_bits, decode_encode. Qed.

#[export] Instance toy_laws : JwtLaws.
Proof.
  split; simpl.
  - intros key c tok now kf [= <-] _ Hk [_ Ht]. rewrite toy_decode_encode. simpl. rewrite Hk.
    rewrite bool_decide_eq_true_2 by done. simpl. unfold time_ok. destruct (c !! _) as [[]|]; try done.
    by rewrite (proj2 (Z.ltb_lt _ _) Ht).
  - intros key c tok now kf z [= <-] _ He Hle. rewrite toy_decode_encode. simpl. case_match; [done|].
    unfold time_ok. rewrite He, (proj2 (Z.ltb_ge _ _) Hle), andb_false_r. done.
  - intros now tok kf t. destruct (toy_decode tok) as [[[] [key c]]|]; [| |done].
    + simpl. destruct (kf HS256) as [e|k] eqn:Hk; [done|]. eauto.
    + simpl. destruct (kf (OtherMethod "none")) as [e|k] eqn:Hk; [done|]. eauto.
  - intros now now' tok kf t t'. repeat case_match; congruence.
  - intros key c tok [= <-]. done.
Qed.
End ToyJwt.
Import ToyJwt.

Definition unsigned_token : string := toy_encode (false, ("k"%string, {["sub"%string := AStr "root"]})).

Lemma ValidateToken_hmac_only_witness :
  (forall alg, token_method unsigned_token <> Some (HMAC alg)) /\ (ValidateToken 0 unsigned_token "k").2 <> None.
Proof.
  assert (Hm : token_method unsigned_token = Some (OtherMethod "none")).
  { cbn [token_method toy_jwt]. unfold unsigned_token. rewrite toy_decode_encode. reflexivity. }
  split; [intros alg; rewrite Hm; discriminate|].
  apply (ValidateToken_hmac_only 0 unsigned_token "k"). intros alg. rewrite Hm. discriminate.
Defined.
