(* ===== verification/Auth.v ===== *)
(** * Sessions and request authentication (auth/issuer.go, auth/middleware.go, auth/team.go, auth/auth.go)

    The issuer mints, rotates and revokes token pairs against any store satisfying the
    [TokenStore] contract; the middleware reads the tokens back. Every call that may fail or
    that reads the clock or the random source gets its fate from an environment record. *)

From S2P Require Import Prelude GoStrings Fiber GoJson Jwt TokenStore.
Open Scope Z_scope.

Definition ErrInvalidToken : error := Err "auth: invalid token".
Definition ErrTokenReuse : error := Err "auth: refresh token reuse detected".

Record TokenPair := MkTokenPair {
  AccessToken : string; RefreshToken : string; TokenType : string;
  ExpiresIn : Z; RefreshExpiresIn : Z }.

Record Issuer := MkIssuer { secret : string; accessTTL : Z; refreshTTL : Z }.

Definition WithAccessTTL (d : Z) (i : Issuer) : Issuer :=
  if 0 <? d then MkIssuer (secret i) d (refreshTTL i) else i.
Definition WithRefreshTTL (d : Z) (i : Issuer) : Issuer :=
  if 0 <? d then MkIssuer (secret i) (accessTTL i) d else i.
Definition NewIssuer (sec : string) (opts : list (Issuer -> Issuer)) : Issuer :=
  fold_left (fun i o => o i) opts (MkIssuer sec (15 * Minute) (168 * 60 * Minute)).

(** [newID]: [random] is what [rand.Read] put in the 16-byte buffer, or its failure. *)
Definition newID (random : error + string) : error + string :=
  match random with inl e => inl e | inr b => inr (hex_encode b) end.

(** [v, _ := claims[k].(string)]. *)
Definition claim_str (c : claims) (k : string) : string := as_string (c !! k).

(** [int64(d.Seconds())] for a non-negative duration. *)
Definition seconds (d : Z) : Z := d / Second.

(** [json.Number.Int64], its error dropped: ParseInt saturates on a range error. *)
Definition number_int64 (text : string) : Z :=
  match parse_int 64 text with
  | Some z => z
  | None => match parse_int (8 * Z.of_nat (String.length text) + 64) text with
            | Some z => if 0 <? z then int_max else int_min
            | None => 0
            end
  end.

Definition remainingTTL (now : Z) (c : claims) : Z :=
  match (match c !! "exp"%string with
         | Some (AFloat z) | Some (AInt z) => Some z
         | Some (ANumber text) => Some (number_int64 text)
         | _ => None
         end) with
  | None => 0
  | Some unix => let d := time_sub (unix * Second) now in if d <? 0 then 0 else d
  end.

(** The claims copied from the base into both tokens. *)
Definition copied : list string := ["email"; "scopes"; "team"; "role"]%string.
Definition copy_claim (base : claims) (m : claims) (k : string) : claims :=
  match base !! k with Some v => <[k := v]> m | None => m end.

Definition access_claims (base : claims) (jti : string) : claims :=
  fold_left (copy_claim base) copied
    (<["jti" := AStr jti]> (<["type" := AStr "access"]> {["sub" := default ANil (base !! "sub")]}))%string.
Definition refresh_claims (base : claims) (fid jti : string) : claims :=
  fold_left (copy_claim base) copied
    (<["jti" := AStr jti]> (<["fid" := AStr fid]> (<["type" := AStr "refresh"]>
      {["sub" := default ANil (base !! "sub")]})))%string.

Record mint_env := MintEnv {
  rand_access : error + string; rand_refresh : error + string;
  t_access : Z; t_refresh : Z; set_net : net; t_set : Z }.
Record refresh_env := RefreshEnv {
  t_parse : Z; fam_net : net; t_fam : Z; revoke_net : net; t_revoke : Z;
  mint_of : mint_env; t_rem : Z; block_net : net; t_block : Z }.
Record logout_env := LogoutEnv {
  t_parse_a : Z; t_rem_a : Z; block_net_a : net; t_block_a : Z;
  t_parse_r : Z; revoke_net_r : net; t_revoke_r : Z }.

Section Issuer.
  Context `{JwtLib} {S : Type} `{TokenStore S}.

Definition parseValid (now : Z) (i : Issuer) (token : string) : error + claims :=
  match ValidateToken now token (secret i) with
  | (Some t, None) =>
      if negb (Valid t) then inl ErrInvalidToken
      else match ExtractClaimsFromJwt t with inl _ => inl ErrInvalidToken | inr c => inr c end
  | _ => inl ErrInvalidToken
  end.

Definition mint (i : Issuer) (env : mint_env) (base : claims) (fid : string) (s : S) : (error + TokenPair) * S :=
  match newID (rand_access env), newID (rand_refresh env) with
  | inl e, _ => (inl e, s)
  | _, inl e => (inl e, s)
  | inr accessJti, inr refreshJti =>
      match (GenerateTokenWithExpiry (t_access env) (access_claims base accessJti) (secret i) (accessTTL i)).1 with
      | inl e => (inl e, s)
      | inr at_ =>
          match (GenerateTokenWithExpiry (t_refresh env) (refresh_claims base fid refreshJti) (secret i) (refreshTTL i)).1 with
          | inl e => (inl e, s)
          | inr rt =>
              match SetFamily (set_net env) (t_set env) fid refreshJti (refreshTTL i) s with
              | (Some e, s') => (inl e, s')
              | (None, s') =>
                  (inr (MkTokenPair at_ rt "Bearer" (seconds (accessTTL i)) (seconds (refreshTTL i))), s')
              end
          end
      end
  end.

Definition Issue (i : Issuer) (rand_fid : error + string) (env : mint_env) (c : claims) (s : S)
    : (error + TokenPair) * S :=
  if String.eqb (claim_str c "sub") EmptyString then (inl (Err "auth: issue: missing sub claim"), s)
  else match newID rand_fid with
       | inl e => (inl e, s)
       | inr fid => mint i env c fid s
       end.

Definition Refresh (i : Issuer) (env : refresh_env) (refreshToken : string) (s : S) : (error + TokenPair) * S :=
  match parseValid (t_parse env) i refreshToken with
  | inl _ => (inl ErrInvalidToken, s)
  | inr c =>
      if negb (String.eqb (claim_str c "type") "refresh") then (inl ErrInvalidToken, s)
      else
        let fid := claim_str c "fid" in
        let jti := claim_str c "jti" in
        if String.eqb fid EmptyString || String.eqb jti EmptyString then (inl ErrInvalidToken, s)
        else
          match Family (fam_net env) (t_fam env) fid s with
          | (inl e, s1) => (inl e, s1)
          | (inr None, s1) => (inl ErrInvalidToken, s1)
          | (inr (Some active), s1) =>
              if negb (String.eqb active jti)
              then (inl ErrTokenReuse, (RevokeFamily (revoke_net env) (t_revoke env) fid s1).2)
              else
                match mint i (mint_of env) c fid s1 with
                | (inl e, s2) => (inl e, s2)
                | (inr tp, s2) =>
                    let rem := remainingTTL (t_rem env) c in
                    (inr tp, if 0 <? rem then (Block (block_net env) (t_block env) jti rem s2).2 else s2)
                end
          end
  end.

(** The two halves of [Logout]; each yields its store error, if any. *)
Definition logout_access (i : Issuer) (env : logout_env) (accessToken : string) (s : S) : option error * S :=
  if String.eqb accessToken EmptyString then (None, s)
  else match parseValid (t_parse_a env) i accessToken with
       | inl _ => (None, s)
       | inr c =>
           let jti := claim_str c "jti" in
           if String.eqb jti EmptyString then (None, s)
           else let rem := remainingTTL (t_rem_a env) c in
                if 0 <? rem then Block (block_net_a env) (t_block_a env) jti rem s else (None, s)
       end.

Definition logout_refresh (i : Issuer) (env : logout_env) (refreshToken : string) (s : S) : option error * S :=
  if String.eqb refreshToken EmptyString then (None, s)
  else match parseValid (t_parse_r env) i refreshToken with
       | inl _ => (None, s)
       | inr c =>
           let fid := claim_str c "fid" in
           if String.eqb fid EmptyString then (None, s)
           else RevokeFamily (revoke_net_r env) (t_revoke_r env) fid s
       end.

Definition Logout (i : Issuer) (env : logout_env) (accessToken refreshToken : string) (s : S) : option error * S :=
  let '(e1, s1) := logout_access i env accessToken s in
  let '(e2, s2) := logout_refresh i env refreshToken s1 in
  (match e1 with Some e => Some e | None => e2 end, s2).

(** Everything clients can make an issuer do. *)
Inductive op :=
| OIssue (rand_fid : error + string) (env : mint_env) (c : claims)
| ORefresh (env : refresh_env) (tok : string)
| OLogout (env : logout_env) (a r : string).

Definition run_op (i : Issuer) (o : op) (s : S) : S :=
  match o with
  | OIssue r env c => (Issue i r env c s).2
  | ORefresh env tok => (Refresh i env tok s).2
  | OLogout env a r => (Logout i env a r s).2
  end.
Definition run_ops (i : Issuer) (ops : list op) (s : S) : S := fold_left (fun s o => run_op i o s) ops s.
End Issuer.

(** ** Middleware *)

Definition DefaultClaimsKey : string := "auth_claims".

(** [WithBlocklist]'s store is the state the handlers run on; the flag says it is configured. *)
Record config := MkConfig { contextKey : string; blocklist : bool }.
Definition WithContextKey (k : string) (c : config) : config :=
  if String.eqb k EmptyString then c else MkConfig k (blocklist c).
Definition WithBlocklist (c : config) : config := MkConfig (contextKey c) true.
Definition newConfig (opts : list (config -> config)) : config :=
  fold_left (fun c o => o c) opts (MkConfig DefaultClaimsKey false).

(** context.GetLocal at the claims type: a value of another type reads as the zero value. *)
Definition GetLocal {Id} (c : ctx Id) (k : string) : option claims :=
  match locals c !! k with Some (LClaims x) => Some x | _ => None end.

Definition bearerToken {Id} (c : ctx Id) : string :=
  let prefix := "Bearer "%string in
  let h := header c "Authorization" in
  if (String.length prefix <? String.length h)%nat && equal_fold (take_string (String.length prefix) h) prefix
  then drop_string (String.length prefix) h else EmptyString.

Section Middleware.
  Context `{JwtLib} {S : Type} `{TokenStore S} {Id E : Type}.

Definition parse (now : Z) (c : ctx Id) (sec : string) : option claims :=
  let tok := bearerToken c in
  if String.eqb tok EmptyString then None
  else match ValidateToken now tok sec with
       | (Some t, None) =>
           if negb (Valid t) then None
           else match ExtractClaimsFromJwt t with
                | inl _ => None
                | inr cl => if String.eqb (claim_str cl "type") "refresh" then None else Some cl
                end
       | _ => None
       end.

Definition blocklisted (n : net) (now : Z) (cfg : config) (cl : claims) (s : S) : (error + bool) * S :=
  if negb (blocklist cfg) then (inr false, s)
  else let jti := claim_str cl "jti" in
       if String.eqb jti EmptyString then (inr false, s) else IsBlocked n now jti s.

Definition unauthorized : outcome Id E := Send (SendError ANil "unauthorized" [StatusUnauthorized]).

(** A middleware that looks the store up threads it. *)
Definition RequireAuth (sec : string) (opts : list (config -> config)) (t_parse : Z) (n : net) (t_block : Z)
    (c : ctx Id) (s : S) : outcome Id E * S :=
  let cfg := newConfig opts in
  match parse t_parse c sec with
  | None => (unauthorized, s)
  | Some cl =>
      match blocklisted n t_block cfg cl s with
      | (inr false, s') => (Next (set_local (contextKey cfg) (LClaims cl) c), s')
      | (_, s') => (unauthorized, s')
      end
  end.

Definition Optional (sec : string) (opts : list (config -> config)) (t_parse : Z) (n : net) (t_block : Z)
    (c : ctx Id) (s : S) : outcome Id E * S :=
  let cfg := newConfig opts in
  match parse t_parse c sec with
  | None => (Next c, s)
  | Some cl =>
      match blocklisted n t_block cfg cl s with
      | (inr false, s') => (Next (set_local (contextKey cfg) (LClaims cl) c), s')
      | (_, s') => (Next c, s')
      end
  end.

Definition Claims_ (c : ctx Id) (opts : list (config -> config)) : option claims := GetLocal c (contextKey (newConfig opts)).

Definition claim_of (k : string) (c : ctx Id) (opts : list (config -> config)) : string :=
  match Claims_ c opts with None => EmptyString | Some cl => claim_str cl k end.
Definition Subject : ctx Id -> list (config -> config) -> string := claim_of "sub".
Definition ActiveTeam : ctx Id -> list (config -> config) -> string := claim_of "team".
Definition TeamRole : ctx Id -> list (config -> config) -> string := claim_of "role".

(** nil and the empty slice are not told apart by the callers. *)
Definition toStringSlice (v : option any) : list string :=
  match v with
  | Some (AStrs l) => l
  | Some (AList l) => omap (fun e => match e with AStr s => Some s | _ => None end) l
  | _ => []
  end.

Definition Scopes (c : ctx Id) (opts : list (config -> config)) : list string :=
  match Claims_ c opts with None => [] | Some cl => toStringSlice (cl !! "scopes"%string) end.

Definition HasScope (c : ctx Id) (scope : string) (opts : list (config -> config)) : bool :=
  existsb (fun s => String.eqb s scope) (Scopes c opts).

Definition forbidden (msg : string) : outcome Id E := Send (SendError ANil msg [StatusForbidden]).

Definition RequireScope (scope : string) (opts : list (config -> config)) : handler Id E := fun c =>
  match Claims_ c opts with
  | None => unauthorized
  | Some _ => if negb (HasScope c scope opts) then forbidden "forbidden" else Next c
  end.

Definition RequireTeam (opts : list (config -> config)) : handler Id E := fun c =>
  match Claims_ c opts with
  | None => unauthorized
  | Some _ => if String.eqb (ActiveTeam c opts) EmptyString then forbidden "no active team" else Next c
  end.

Definition RequireRole (roles : list string) : handler Id E := fun c =>
  match Claims_ c [] with
  | None => unauthorized
  | Some _ => if existsb (fun r => String.eqb r (TeamRole c [])) roles then Next c else forbidden "forbidden"
  end.
End Middleware.

(** * Lemmas *)

(** The clock readings an operation makes at the store, and when it is over. *)
Definition op_times (o : op) : list Z :=
  match o with
  | OIssue _ env _ => [t_set env]
  | ORefresh env _ => [t_fam env; t_revoke env; t_set (mint_of env); t_block env]
  | OLogout env _ _ => [t_block_a env; t_revoke_r env]
  end.
Definition op_end (T : Z) (o : op) : Z := foldr Z.max T (op_times o).

(** Operations one after the other: none reads the clock before the previous one is over. *)
Fixpoint ordered (T : Z) (ops : list op) : Prop :=
  match ops with [] => True | o :: ops => Forall (Z.le T) (op_times o) /\ ordered (op_end T o) ops end.
Definition ops_end (T : Z) (ops : list op) : Z := fold_left op_end ops T.

Lemma op_end_ge T o : T <= op_end T o.
Proof. destruct o; unfold op_end; simpl; lia. Qed.
Ltac op_lia := unfold op_end in *; simpl in *; lia.

Section Family.
  Context `{JwtLaws} {S : Type} `{TokenStoreLaws S} (i : Issuer) (fid : string).

(** A property of a family's active token from an instant on, and when operations keep it: when
    it survives the removal of the family and holds of the tokens they may write. *)
Definition fam_inv (P : option string -> Prop) (T : Z) (s : S) : Prop :=
  forall t, T <= t -> P (family_at s t fid).

Definition writes_ok (P : option string -> Prop) (o : op) : Prop :=
  match o with
  | OIssue r env _ => forall j, newID r = inr fid -> newID (rand_refresh env) = inr j -> P (Some j)
  | ORefresh env _ => forall a j, P (Some a) -> newID (rand_refresh (mint_of env)) = inr j -> P (Some j)
  | OLogout _ _ _ => True
  end.

Context (P : option string -> Prop) (HP : P None).

Lemma fam_inv_mono T T' s : fam_inv P T s -> T <= T' -> fam_inv P T' s.
Proof. intros Hi Hle t Ht. apply Hi. lia. Qed.

Lemma fam_inv_same T now s s' : fam_inv P T s -> same_views now s s' -> fam_inv P (Z.max T now) s'.
Proof. intros Hi Hs t Ht. destruct (Hs t fid ltac:(lia)) as [_ ->]. apply Hi. lia. Qed.

Lemma fam_inv_revoke T n now f s : fam_inv P T s -> fam_inv P (Z.max T now) (RevokeFamily n now f s).2.
Proof.
  intros Hi t Ht. pose proof (revoke_spec n now f s) as Hs. destruct (RevokeFamily n now f s) as [r s'].
  destruct Hs as (_ & _ & Hfr & Hsub & _). simpl. destruct (decide (fid = f)) as [<-|Hne].
  - destruct (family_at s' t fid) as [k|] eqn:Hk; [|done]. rewrite <- (Hsub t k ltac:(lia) Hk). apply Hi. lia.
  - rewrite Hfr by (done || lia). apply Hi. lia.
Qed.

Lemma fam_inv_block T n now j ttl s : fam_inv P T s -> fam_inv P (Z.max T now) (Block n now j ttl s).2.
Proof.
  intros Hi t Ht. destruct (block_spec n now j ttl s) as (_ & Hf & _). rewrite Hf by lia. apply Hi. lia.
Qed.

Lemma fam_inv_mint T env base f s :
  fam_inv P T s -> (f = fid -> forall j, newID (rand_refresh env) = inr j -> P (Some j)) ->
  fam_inv P (Z.max T (t_set env)) (mint i env base f s).2.
Proof.
  intros Hi Hw. assert (Hi' : fam_inv P (Z.max T (t_set env)) s) by (eapply fam_inv_mono; [done|lia]). unfold mint.
  destruct (newID (rand_access env)); [done|]. destruct (newID (rand_refresh env)) as [|j] eqn:Hj; [done|].
  simpl. do 2 (destruct (SignedString _ _); [done|]).
  pose proof (setfamily_spec (set_net env) (t_set env) f j (refreshTTL i) s) as Hs.
  destruct (SetFamily _ _ _ _ _ _) as [r s']. destruct Hs as (_ & _ & Hfr & Hsub & _).
  assert (fam_inv P (Z.max T (t_set env)) s'); [|by destruct r].
  intros t Ht. destruct (decide (fid = f)) as [<-|Hne].
  - destruct (family_at s' t fid) as [k|] eqn:Hk; [|done]. destruct (Hsub t k ltac:(lia) Hk) as [->|Ho]; [by apply Hw|].
    rewrite <- Ho. by apply Hi'.
  - rewrite Hfr by (done || lia). by apply Hi'.
Qed.

Lemma fam_inv_refresh T env tok s :
  fam_inv P T s -> T <= t_fam env -> writes_ok P (ORefresh env tok) ->
  fam_inv P (op_end T (ORefresh env tok)) (Refresh i env tok s).2.
Proof.
  intros Hi Hle Hw. assert (Hkeep : forall T' s', fam_inv P T' s' -> T' <= op_end T (ORefresh env tok) ->
    fam_inv P (op_end T (ORefresh env tok)) s') by (intros; eapply fam_inv_mono; eauto).
  assert (Hs : fam_inv P (op_end T (ORefresh env tok)) s) by (eapply Hkeep; [done|apply op_end_ge]).
  unfold op_end in Hkeep, Hs |- *. simpl in Hkeep, Hs, Hw |- *. unfold Refresh. destruct (parseValid _ _ _) as [|c]; [done|].
  destruct (negb _); [done|]. destruct (_ || _); [done|]. set (f := claim_str c "fid").
  pose proof (family_spec (fam_net env) (t_fam env) f s) as [Hres Hsv].
  destruct (Family _ _ _ _) as [fr s1]. simpl in Hres, Hsv. pose proof (fam_inv_same _ _ _ _ Hi Hsv) as Hi1.
  destruct fr as [e|[active|]]; simpl; try (eapply Hkeep; [exact Hi1|lia]).
  destruct (String.eqb_spec active (claim_str c "jti")); simpl.
  2: { eapply Hkeep; [by apply fam_inv_revoke|lia]. }
  assert (Hm : fam_inv P (Z.max (Z.max T (t_fam env)) (t_set (mint_of env))) (mint i (mint_of env) c f s1).2).
  { apply fam_inv_mint; [done|]. intros Hf j Hj. apply (Hw active); [|done].
    destruct Hres as [[= Hr]|[_ [? ?]]]; [|done]. rewrite Hr, Hf. by apply Hi. }
  destruct (mint _ _ _ _ _) as [[err|tp] s2]; simpl in Hm |- *; [eapply Hkeep; [exact Hm|lia]|].
  destruct (0 <? _); [|eapply Hkeep; [exact Hm|lia]]. eapply Hkeep; [by apply fam_inv_block|lia].
Qed.

Lemma fam_inv_logout T env a rt s : fam_inv P T s -> fam_inv P (op_end T (OLogout env a rt)) (Logout i env a rt s).2.
Proof.
  intros Hi. unfold Logout.
  assert (Hl1 : fam_inv P (Z.max T (t_block_a env)) (logout_access i env a s).2).
  { assert (fam_inv P (Z.max T (t_block_a env)) s) by (eapply fam_inv_mono; [done|lia]). unfold logout_access.
    do 2 (case_match; [done|]). cbv zeta. case_match; [done|]. case_match; [|done]. by apply fam_inv_block. }
  destruct (logout_access i env a s) as [e1 s1]. simpl in Hl1.
  assert (Hl2 : fam_inv P (op_end T (OLogout env a rt)) (logout_refresh i env rt s1).2).
  { assert (fam_inv P (op_end T (OLogout env a rt)) s1) by (eapply fam_inv_mono; [done|op_lia]).
    unfold logout_refresh. do 2 (case_match; [done|]). cbv zeta. case_match; [done|].
    eapply fam_inv_mono; [by apply fam_inv_revoke|op_lia]. }
  by destruct (logout_refresh i env rt s1).
Qed.

Lemma fam_inv_op T o s :
  fam_inv P T s -> Forall (Z.le T) (op_times o) -> writes_ok P o -> fam_inv P (op_end T o) (run_op i o s).
Proof.
  intros Hi Ht Hw. destruct o as [r env c|env tok|env a rt].
  - unfold op_end. simpl. unfold Issue.
    assert (Hk : fam_inv P (Z.max (t_set env) T) s) by (eapply fam_inv_mono; [done|lia]).
    destruct (String.eqb _ _); [done|]. destruct (newID r) as [|f] eqn:Hr; [done|].
    rewrite Z.max_comm. apply fam_inv_mint; [done|]. intros ->. simpl in Hw. auto.
  - apply fam_inv_refresh; [done| |done]. simpl in Ht. by apply Forall_cons in Ht as [? _].
  - by apply fam_inv_logout.
Qed.

Lemma fam_inv_ops T ops s :
  fam_inv P T s -> ordered T ops -> Forall (writes_ok P) ops -> fam_inv P (ops_end T ops) (run_ops i ops s).
Proof.
  revert T s; induction ops as [|o ops IH]; intros T s Hi Ho Hw; [done|].
  destruct Ho as [Ht Ho]. apply Forall_cons in Hw as [Hw Hws]. simpl. apply IH; [|done..]. by apply fam_inv_op.
Qed.

(** A token of a family without an active token of that id is refused. *)
Lemma refresh_refused env tok s c :
  parseValid (t_parse env) i tok = inr c -> claim_str c "fid" = fid ->
  family_at s (t_fam env) fid <> Some (claim_str c "jti") ->
  exists e, (Refresh i env tok s).1 = inl e.
Proof.
  intros Hp Hf Hne. unfold Refresh. rewrite Hp, Hf. destruct (negb _); [eauto|]. destruct (_ || _); [eauto|].
  destruct (family_spec (fam_net env) (t_fam env) fid s) as [Hres _].
  destruct (Family _ _ _ _) as [[e|[active|]] s1]; simpl in *; [eauto| |eauto].
  destruct Hres as [[= Hr]|[_ [? ?]]]; [|done]. destruct (String.eqb_spec active (claim_str c "jti")) as [->|]; simpl; [|eauto].
  by rewrite <- Hr in Hne.
Qed.
End Family.

(** ** Minting *)

Section Mint.
  Context `{JwtLaws} {S : Type} `{TokenStoreLaws S}.

Lemma parse_stable now now' i tok c c' :
  parseValid now i tok = inr c -> parseValid now' i tok = inr c' -> c = c'.
Proof.
  unfold parseValid, ValidateToken. intros Hc Hc'.
  destruct (Parse now tok _) as [[t|] [e|]] eqn:Hp; try done.
  destruct (Parse now' tok _) as [[t'|] [e'|]] eqn:Hp'; try done.
  rewrite <- (parse_claims _ _ _ _ _ _ Hp Hp') in Hc'. congruence.
Qed.

(** A successful [mint] has drawn the active token of its family. *)
Lemma mint_active i env base f (s : S) p s' :
  0 < refreshTTL i -> mint i env base f s = (inr p, s') ->
  exists ja jr rt_claims at_claims,
    newID (rand_access env) = inr ja /\ newID (rand_refresh env) = inr jr /\
    at_claims = (GenerateTokenWithExpiry (t_access env) (access_claims base ja) (secret i) (accessTTL i)).2 /\
    rt_claims = (GenerateTokenWithExpiry (t_refresh env) (refresh_claims base f jr) (secret i) (refreshTTL i)).2 /\
    SignedString (secret i) at_claims = inr (AccessToken p) /\
    SignedString (secret i) rt_claims = inr (RefreshToken p) /\
    (forall t k, t_set env <= t -> family_at s' t f = Some k -> k = jr) /\
    (forall t, t_set env <= t < t_set env + whole_ms (refreshTTL i) -> family_at s' t f = Some jr).
Proof.
  intros Httl. unfold mint. destruct (newID (rand_access env)) as [|ja]; [done|].
  destruct (newID (rand_refresh env)) as [|jr]; [done|]. simpl.
  destruct (SignedString _ _) as [|at_] eqn:Ha; [done|].
  destruct (SignedString (secret i) (<["exp"%string := AInt ((t_refresh env + refreshTTL i) / Second)]> _)) as [|rt] eqn:Hr; [done|].
  pose proof (setfamily_spec (set_net env) (t_set env) f jr (refreshTTL i) s) as Hs.
  destruct (SetFamily _ _ _ _ _ _) as [[e|] s2]; [done|]. intros [= <- <-].
  destruct Hs as (_ & _ & _ & _ & Hnew & Hset). exists ja, jr. do 2 eexists. split_and!; eauto.
Qed.

Lemma refresh_success i env tok (s : S) p s' :
  Refresh i env tok s = (inr p, s') ->
  exists c s1 s2, parseValid (t_parse env) i tok = inr c /\ claim_str c "type" = "refresh"%string /\
    claim_str c "jti" <> EmptyString /\
    (Family (fam_net env) (t_fam env) (claim_str c "fid") s) = (inr (Some (claim_str c "jti")), s1) /\
    mint i (mint_of env) c (claim_str c "fid") s1 = (inr p, s2) /\
    s' = (if 0 <? remainingTTL (t_rem env) c
          then (Block (block_net env) (t_block env) (claim_str c "jti") (remainingTTL (t_rem env) c) s2).2 else s2).
Proof.
  unfold Refresh. destruct (parseValid _ _ _) as [|c] eqn:Hp; [done|].
  destruct (String.eqb_spec (claim_str c "type") "refresh"); simpl; [|done].
  destruct (String.eqb_spec (claim_str c "fid") EmptyString), (String.eqb_spec (claim_str c "jti") EmptyString); try done.
  simpl. destruct (Family _ _ _ _) as [[|[active|]] s1] eqn:Hf; try done.
  destruct (String.eqb_spec active (claim_str c "jti")) as [->|]; simpl; [|done].
  destruct (mint _ _ _ _ _) as [[|p'] s2] eqn:Hm; [done|]. intros [= <- <-].
  exists c, s1, s2. split_and!; eauto.
Qed.

End Mint.

(** The claims of a minted token, read back. *)
Lemma copy_claims_frame base m k : k ∉ copied -> fold_left (copy_claim base) copied m !! k = m !! k.
Proof.
  intros Hk. assert (Hfix : forall l m, k ∉ l -> fold_left (copy_claim base) l m !! k = m !! k); [|auto].
  induction l as [|x l IH]; intros m0 Hl; simpl; [done|]. rewrite IH by set_solver. unfold copy_claim.
  destruct (base !! x); [|done]. apply lookup_insert_ne. set_solver.
Qed.

Lemma copy_claims_lookup base m k : k ∈ copied -> m !! k = None ->
  fold_left (copy_claim base) copied m !! k = base !! k.
Proof.
  assert (Hgen : forall l m, NoDup l -> (k ∈ l -> m !! k = None) ->
     fold_left (copy_claim base) l m !! k = if decide (k ∈ l) then base !! k else m !! k).
  { induction l as [|x l IH]; intros m0 Hnd Hm; cbn [fold_left]; [by rewrite decide_False by set_solver|].
    apply NoDup_cons in Hnd as [Hx Hnd]. rewrite IH; [|done|].
    2: { intros Hin. unfold copy_claim. destruct (base !! x); [rewrite lookup_insert_ne by set_solver|]; apply Hm; set_solver. }
    unfold copy_claim. destruct (decide (k ∈ l)) as [Hin|Hni]; [by rewrite decide_True by set_solver|].
    destruct (decide (k = x)) as [->|Hne].
    - rewrite decide_True by set_solver. destruct (base !! x) eqn:Hb; [by rewrite lookup_insert_eq|].
      apply Hm. set_solver.
    - rewrite decide_False by set_solver. destruct (base !! x); [by rewrite lookup_insert_ne by done|done]. }
  intros Hk Hm. rewrite Hgen; [by rewrite decide_True| |done].
  unfold copied. repeat (apply NoDup_cons; split; [set_solver|]). apply NoDup_nil_2.
Qed.

Lemma newID_ascii r j : newID r = inr j -> ascii_only j = true.
Proof.
  destruct r as [|b]; [done|]. intros [= <-]. eapply sforall_impl; [|apply hex_encode_chars].
  intros c. unfold hex_char, is_digit. intros Hc. apply Z.ltb_lt.
  apply orb_true_iff in Hc as [Hc|Hc]; apply andb_true_iff in Hc as [_ Hc]; apply Z.leb_le in Hc; lia.
Qed.

Lemma encodable_insert k v m : encodable v = true -> ascii_only k = true -> claims_encodable m -> claims_encodable (<[k := v]> m).
Proof. intros. by apply map_Forall_insert_2. Qed.

Lemma encodable_copy base m l : claims_encodable base -> claims_encodable m -> claims_encodable (fold_left (copy_claim base) l m).
Proof.
  intros Hb Hm. apply fold_left_inv; [done|]. intros m0 k _ Hm0. unfold copy_claim.
  destruct (base !! k) as [v|] eqn:Hk; [|done]. destruct (Hb k v Hk). by apply encodable_insert.
Qed.

Lemma encodable_sub base : claims_encodable base -> claims_encodable {["sub"%string := default ANil (base !! "sub"%string)]}.
Proof.
  intros Hb k v Hk. apply lookup_singleton_Some in Hk as [<- <-]. split; [|done].
  destruct (base !! "sub"%string) as [x|] eqn:Hx; [|done]. apply (Hb _ _ Hx).
Qed.

Lemma access_encodable base ja e : claims_encodable base -> ascii_only ja = true ->
  claims_encodable (<["exp"%string := AInt e]> (access_claims base ja)).
Proof.
  intros Hb Hj. apply encodable_insert; [done..|]. apply encodable_copy; [done|].
  repeat (apply encodable_insert; [done..|]). by apply encodable_sub.
Qed.

Lemma refresh_encodable base f jr e : claims_encodable base -> ascii_only f = true -> ascii_only jr = true ->
  claims_encodable (<["exp"%string := AInt e]> (refresh_claims base f jr)).
Proof.
  intros Hb Hf Hj. apply encodable_insert; [done..|]. apply encodable_copy; [done|].
  repeat (apply encodable_insert; [done..|]). by apply encodable_sub.
Qed.

(** A claim of a minted token that is not copied from the base, and [exp]. *)
Ltac minted := rewrite ?lookup_insert_eq, ?lookup_insert_ne by done; rewrite ?copy_claims_frame by (unfold copied; set_solver);
  rewrite ?lookup_insert_eq, ?lookup_insert_ne, ?lookup_singleton_eq, ?lookup_singleton_ne by done.

Lemma str_claim c k s : c !! k = Some (AStr s) -> claim_str (json_claims c) k = s.
Proof. unfold claim_str. intros Hk. by rewrite json_claims_lookup, Hk. Qed.

Section Requests.
  Context `{JwtLaws} {S : Type} `{TokenStoreLaws S} {Id E : Type}.

Lemma bearer_header (c : ctx Id) tok :
  header c "Authorization"%string = "Bearer " +:+ tok -> tok <> EmptyString -> bearerToken c = tok.
Proof.
  intros Hh Hne. unfold bearerToken. rewrite Hh. destruct tok as [|a tok]; [done|]. reflexivity.
Qed.

(** What [parse] makes of a signed token, at any time. *)
Lemma parse_signed now i (c : ctx Id) cl tok e :
  header c "Authorization"%string = "Bearer " +:+ tok -> SignedString (secret i) cl = inr tok ->
  claims_encodable cl -> cl !! "nbf"%string = None -> cl !! "exp"%string = Some (AInt e) ->
  parse now c (secret i) =
    if decide (now < e * Second) then
      (if String.eqb (claim_str (json_claims cl) "type") "refresh" then None else Some (json_claims cl))
    else None.
Proof.
  intros Hh Hs Hc Hnbf He. pose proof (sign_nonempty _ _ _ Hs) as Hne. unfold parse.
  rewrite (bearer_header c tok Hh Hne). rewrite (proj2 (String.eqb_neq _ _) Hne). destruct (decide _) as [Hlt|Hge].
  - rewrite (validate_signed now _ cl tok Hs Hc); [reflexivity|]. split; [done|]. by rewrite He.
  - pose proof (sign_expired _ cl tok now (fun m => match m with HMAC _ => inr (secret i)
      | OtherMethod alg => inl (Err ("unexpected signing method: " +:+ alg)) end) e Hs Hc He ltac:(lia)) as Hx.
    unfold ValidateToken. destruct (Parse now tok _) as [[t|] [err|]]; simpl in Hx; done.
Qed.
End Requests.

(** ** What the middleware reads, and what a logout leaves *)

Section Revocation.
  Context `{JwtLaws} {S : Type} `{TokenStoreLaws S} {Id E : Type}.

(** The middleware accepts what the issuer does, except refresh tokens. *)
Lemma parse_parseValid tp i (c : ctx Id) :
  parse tp c (secret i) =
    if String.eqb (bearerToken c) EmptyString then None
    else match parseValid tp i (bearerToken c) with
         | inr cl => if String.eqb (claim_str cl "type") "refresh" then None else Some cl
         | inl _ => None
         end.
Proof.
  unfold parse, parseValid. destruct (String.eqb _ _); [done|]. destruct (ValidateToken tp _ _) as [[t|] [err|]]; try done.
  destruct (negb (Valid t)); [done|]. by destruct (ExtractClaimsFromJwt t).
Qed.

Lemma parseValid_token tp i tok cl : parseValid tp i tok = inr cl ->
  exists t, ValidateToken tp tok (secret i) = (Some t, None) /\ Valid t = true /\ tok_claims t = Some cl.
Proof.
  unfold parseValid. destruct (ValidateToken tp tok (secret i)) as [[t|] [err|]]; try done. destruct (Valid t) eqn:Hv; [|done]. cbn.
  unfold ExtractClaimsFromJwt. destruct (tok_claims t) as [c|] eqn:Hc; [|done]. intros [= ->]. by exists t.
Qed.

(** A token that was valid once is refused at any time its id is blocked. *)
Lemma blocked_unauthorized t0 i a ca opts tp n tb (c : ctx Id) (s : S) :
  parseValid t0 i a = inr ca -> a <> EmptyString -> claim_str ca "jti" <> EmptyString -> blocklist (newConfig opts) = true ->
  bearerToken c = a -> blocked_at s tb (claim_str ca "jti") = true -> (RequireAuth (E := E) (secret i) opts tp n tb c s).1 = unauthorized.
Proof.
  intros Hpa Ha Hj Hcfg Hb Hblk. unfold RequireAuth. rewrite parse_parseValid, Hb, (proj2 (String.eqb_neq _ _) Ha).
  destruct (parseValid tp i a) as [|c'] eqn:Hp'; [done|]. pose proof (parse_stable _ _ _ _ _ _ Hpa Hp') as <-.
  destruct (String.eqb _ "refresh"); [done|]. unfold blocklisted. rewrite Hcfg. simpl. rewrite (proj2 (String.eqb_neq _ _) Hj).
  destruct (isblocked_spec n tb (claim_str ca "jti") s) as [Hr' _]. destruct (IsBlocked n tb _ s) as [[e|b] s3]; [done|]. simpl in Hr'.
  destruct Hr' as [[= ->]|[_ [? ?]]]; [|done]. by rewrite Hblk.
Qed.

(** A logout that reports no error has blocked the access token up to its last millisecond ... *)
Lemma logout_access_blocks i env a (s : S) ca z :
  parseValid (t_parse_a env) i a = inr ca -> a <> EmptyString -> claim_str ca "jti" <> EmptyString ->
  ca !! "exp"%string = Some (AFloat z) -> in_int (z * Second - t_rem_a env) -> t_rem_a env <= t_block_a env ->
  (logout_access i env a s).1 = None ->
  forall t, t_block_a env <= t <= z * Second - Millisecond -> blocked_at (logout_access i env a s).2 t (claim_str ca "jti") = true.
Proof.
  intros Hpa Ha Hj Hz Hint Htb. unfold logout_access. rewrite (proj2 (String.eqb_neq _ _) Ha), Hpa. cbv zeta.
  rewrite (proj2 (String.eqb_neq _ _) Hj).
  assert (Hrem : remainingTTL (t_rem_a env) ca = Z.max 0 (z * Second - t_rem_a env)).
  { unfold remainingTTL. rewrite Hz. cbv zeta. unfold in_int, time_sub, int_min, int_max in *.
    destruct (Z.ltb_spec (Z.max (- 2 ^ 63) (Z.min (2 ^ 63 - 1) (z * Second - t_rem_a env))) 0); lia. }
  rewrite Hrem. set (rem := Z.max 0 _) in *. destruct (Z.ltb_spec 0 rem) as [Hpos|Hneg].
  - intros Hn t Ht. destruct (block_spec (block_net_a env) (t_block_a env) (claim_str ca "jti") rem s) as (_ & _ & _ & Hb).
    apply Hb; [done|]. unfold whole_ms, Millisecond, Second in *.
    pose proof (Z.mod_pos_bound rem 1000000 ltac:(lia)). pose proof (Z.div_mod rem 1000000 ltac:(lia)). lia.
  - intros _ t Ht. unfold Millisecond in *. lia.
Qed.

(** ... and removed the refresh token's family, and no block. *)
Lemma logout_refresh_revokes i env r (s : S) cr :
  parseValid (t_parse_r env) i r = inr cr -> r <> EmptyString -> claim_str cr "fid" <> EmptyString ->
  (forall t j, t_revoke_r env <= t -> blocked_at (logout_refresh i env r s).2 t j = blocked_at s t j) /\
  ((logout_refresh i env r s).1 = None -> forall t, t_revoke_r env <= t -> family_at (logout_refresh i env r s).2 t (claim_str cr "fid") = None).
Proof.
  intros Hpr Hr Hf. unfold logout_refresh. rewrite (proj2 (String.eqb_neq _ _) Hr), Hpr. cbv zeta. rewrite (proj2 (String.eqb_neq _ _) Hf).
  pose proof (revoke_spec (revoke_net_r env) (t_revoke_r env) (claim_str cr "fid") s) as Hs.
  destruct (RevokeFamily _ _ _ s) as [e2 s2]. destruct Hs as (_ & Hbf & _ & _ & Hnone). by split.
Qed.

(** Searching a list of scopes. *)
Lemma existsb_elem (x : string) (l : list string) : existsb (fun y => String.eqb y x) l = true <-> x ∈ l.
Proof.
  rewrite existsb_exists. split.
  - intros (y & Hy & ->%String.eqb_eq). by apply list_elem_of_In.
  - intros Hx. exists x. split; [by apply list_elem_of_In|apply String.eqb_refl].
Qed.

(** ** What the middleware decides, said without it *)

(** The token of an [Authorization: Bearer] header, the scheme in any case. *)
Definition bears (c : ctx Id) (tok : string) : Prop :=
  exists p, header c "Authorization" = p +:+ tok /\ String.length p = 7%nat /\ equal_fold p "Bearer " = true /\ tok <> ""%string.

(** The request shows a token that validates now, with these claims, and that is no refresh token. *)
Definition authenticated (sec : string) (now : Z) (c : ctx Id) (cl : claims) : Prop :=
  exists tok t, bears c tok /\ ValidateToken now tok sec = (Some t, None) /\ Valid t = true /\ tok_claims t = Some cl /\
    cl !! "type"%string <> Some (AStr "refresh").

(** A blocklist is configured and the store has the token's identifier blocked. *)
Definition revoked (listed : bool) (now : Z) (cl : claims) (s : S) : Prop :=
  listed = true /\ claim_str cl "jti" <> ""%string /\ blocked_at s now (claim_str cl "jti") = true.

(** The claim is a list of strings, or a JSON list, with the scope among its members. *)
Definition has_scope (cl : claims) (scope : string) : Prop :=
  match cl !! "scopes"%string with
  | Some (AStrs l) => scope ∈ l
  | Some (AList l) => AStr scope ∈ l
  | _ => False
  end.

Lemma bears_bearerToken c tok : bears c tok <-> bearerToken c = tok /\ tok <> ""%string.
Proof.
  unfold bears, bearerToken. change (String.length "Bearer ") with 7%nat. cbv zeta. split.
  - intros (p & Hh & Hlen & Hf & Hne). split; [|done]. rewrite Hh, <- Hlen, take_string_app, Hf, drop_string_app, string_app_length.
    destruct (Nat.ltb_spec (String.length p) (String.length p + String.length tok)); [done|]. destruct tok; [done|cbn in *; lia].
  - intros [Hb Hne]. set (h := header c "Authorization") in *.
    destruct (Nat.ltb_spec 7 (String.length h)) as [Hl|]; cbn [andb] in Hb; [|by subst tok].
    destruct (equal_fold (take_string 7 h) "Bearer ") eqn:Hf; [|by subst tok]. exists (take_string 7 h). rewrite <- Hb at 1.
    split_and!; [by rewrite take_drop_string|apply take_string_len; lia|done|done].
Qed.

Lemma claim_refresh cl : claim_str cl "type" = "refresh"%string <-> cl !! "type"%string = Some (AStr "refresh").
Proof. unfold claim_str, as_string. destruct (cl !! "type"%string) as [[]|]; split; congruence. Qed.

Lemma authenticated_parse sec now c cl : parse now c sec = Some cl <-> authenticated sec now c cl.
Proof.
  pose proof (bears_bearerToken c (bearerToken c)) as Hb. unfold authenticated, parse. split.
  - destruct (String.eqb_spec (bearerToken c) ""); [done|]. destruct (ValidateToken now _ sec) as [[t|] [err|]] eqn:Hv; try done.
    destruct (Valid t) eqn:Hval; [|done]. cbn [negb]. unfold ExtractClaimsFromJwt. destruct (tok_claims t) as [cl'|] eqn:Hc; [|done].
    destruct (String.eqb_spec (claim_str cl' "type") "refresh") as [|Hty]; [done|]. intros [= ->]. exists (bearerToken c), t.
    split_and!; try done; [by apply Hb|by rewrite <- claim_refresh].
  - intros (tok & t & [<- Hne]%bears_bearerToken & Hv & Hval & Hc & Hty). rewrite (proj2 (String.eqb_neq _ _) Hne), Hv, Hval. cbn [negb].
    unfold ExtractClaimsFromJwt. rewrite Hc. destruct (String.eqb_spec (claim_str cl "type") "refresh") as [Hr|]; [|done]. by apply claim_refresh in Hr.
Qed.

Lemma blocklisted_revoked n now cfg cl (s : S) :
  match (blocklisted n now cfg cl s).1 with
  | inr true => revoked (blocklist cfg) now cl s
  | inr false => ~ revoked (blocklist cfg) now cl s
  | inl _ => blocklist cfg = true /\ claim_str cl "jti" <> ""%string /\ n <> NetOk
  end.
Proof.
  unfold blocklisted, revoked. destruct (blocklist cfg); cbn [negb fst]; [|by intros [? _]].
  destruct (String.eqb_spec (claim_str cl "jti") "") as [Hj|Hj]; cbn [fst]; [by intros (_ & ? & _)|].
  destruct (isblocked_spec n now (claim_str cl "jti") s) as [[->|[Hn [e ->]]] _]; [|done].
  destruct (blocked_at s now _); [done|]. by intros (_ & _ & ?).
Qed.

Lemma has_scope_slice cl scope : scope ∈ toStringSlice (cl !! "scopes"%string) <-> has_scope cl scope.
Proof.
  unfold has_scope, toStringSlice. destruct (cl !! "scopes"%string) as [[]|]; try (split; [by intros ?%elem_of_nil|done]); [done|].
  rewrite list_elem_of_omap. split; [intros (y & Hy & He); by destruct y; simplify_eq|]. intros Hin. by exists (AStr scope).
Qed.
End Revocation.

(** * Properties *)

Section Properties.
  Context `{JwtLaws} {S : Type} `{TokenStoreLaws S} {Id E : Type}.

(** The refresh tokens an operation mints are not [j]; it does not open the family [f]. *)
Definition fresh_jti (j : string) (o : op) : Prop :=
  match o with
  | OIssue _ env _ => newID (rand_refresh env) <> inr j
  | ORefresh env _ => newID (rand_refresh (mint_of env)) <> inr j
  | OLogout _ _ _ => True
  end.
Definition fresh_fid (f : string) (o : op) : Prop :=
  match o with OIssue r _ _ => newID r <> inr f | _ => True end.

(** (C1) A refresh token is used at most once: after a successful [Refresh], presenting the same
    token again fails, whatever sequence of issues, refreshes and logouts (with any network
    fates) happens in between, as long as the token ids drawn are fresh. *)
Theorem refresh_single_use i T env tok (s : S) c p ops env' :
  0 < refreshTTL i -> parseValid (t_parse env) i tok = inr c -> (Refresh i env tok s).1 = inr p ->
  ordered T (ORefresh env tok :: ops) ->
  Forall (fresh_jti (claim_str c "jti")) (ORefresh env tok :: ops) ->
  ops_end T (ORefresh env tok :: ops) <= t_fam env' ->
  exists e, (Refresh i env' tok (run_ops i ops (Refresh i env tok s).2)).1 = inl e.
Proof.
  intros Httl Hp Hr [Ht Ho] Hf Hend. apply Forall_cons in Hf as [Hf Hfs].
  destruct (Refresh i env tok s) as [r s'] eqn:Hrun. simpl in Hr. subst r.
  destruct (refresh_success i env tok s p s' Hrun) as (c' & s1 & s2 & Hp' & Hty & Hj & Hfam & Hm & Hs').
  assert (c' = c) as -> by congruence. clear Hp'.
  destruct (mint_active i (mint_of env) c _ s1 p s2 Httl Hm) as (ja & jr & ? & ? & _ & Hjr & _ & _ & _ & _ & Hnew & _).
  set (fid := claim_str c "fid"). set (P := fun o => o <> Some (claim_str c "jti")).
  assert (Hs2 : fam_inv fid P (t_set (mint_of env)) s2).
  { intros t Hle Hk. apply Hnew in Hk; [|done]. simpl in Hf. congruence. }
  assert (Hinv : fam_inv fid P (op_end T (ORefresh env tok)) s').
  { rewrite Hs'. destruct (0 <? _); (eapply fam_inv_mono; [first [by apply fam_inv_block|exact Hs2]|op_lia]). }
  assert (Hops : fam_inv fid P (ops_end T (ORefresh env tok :: ops)) (run_ops i ops s')).
  { apply (fam_inv_ops i fid P ltac:(done) (op_end T (ORefresh env tok))); [done|done|].
    eapply Forall_impl; [exact Hfs|]. intros [r e0 c0|e0 t0|e0 a0 r0]; simpl; unfold P; [|congruence|done].
    intros ? j _ Hj'. congruence. }
  destruct (parseValid (t_parse env') i tok) as [e|c'] eqn:Hp'.
  - exists ErrInvalidToken. unfold Refresh. by rewrite Hp'.
  - pose proof (parse_stable _ _ _ _ _ _ Hp Hp') as <-.
    eapply (refresh_refused i fid env' tok _ c Hp' eq_refl). apply Hops. done.
Qed.

(** Reuse detection: presenting a superseded refresh token returns [ErrTokenReuse] and
    revokes the whole family, so that afterwards no token of the family can ever be
    refreshed again, the legitimate one included. *)
Theorem refresh_reuse_revokes i T env tok (s : S) c active :
  parseValid (t_parse env) i tok = inr c -> claim_str c "type" = "refresh"%string ->
  claim_str c "fid" <> EmptyString -> claim_str c "jti" <> EmptyString ->
  family_at s (t_fam env) (claim_str c "fid") = Some active -> active <> claim_str c "jti" ->
  fam_net env = NetOk -> revoke_net env = NetOk ->
  (Refresh i env tok s).1 = inl ErrTokenReuse /\
  forall ops env' tok' c', t_revoke env <= T -> ordered T ops -> Forall (fresh_fid (claim_str c "fid")) ops ->
    ops_end T ops <= t_fam env' ->
    parseValid (t_parse env') i tok' = inr c' -> claim_str c' "fid" = claim_str c "fid" ->
    exists e, (Refresh i env' tok' (run_ops i ops (Refresh i env tok s).2)).1 = inl e.
Proof.
  intros Hp Hty Hf Hj Hact Hne Hn1 Hn2. unfold Refresh at 1 3. rewrite Hp, Hty. simpl.
  rewrite (proj2 (String.eqb_neq _ _) Hf), (proj2 (String.eqb_neq _ _) Hj). simpl.
  destruct (family_spec (fam_net env) (t_fam env) (claim_str c "fid") s) as [Hres Hsv].
  destruct (Family _ _ _ s) as [fr s1]. simpl in Hres, Hsv.
  destruct Hres as [Hres|[? _]]; [|done]. rewrite Hact in Hres. subst fr.
  rewrite (proj2 (String.eqb_neq _ _) Hne). simpl. split; [done|].
  intros ops env' tok' c' HT Ho Hfs Hend Hp' Hfid.
  pose proof (revoke_spec (revoke_net env) (t_revoke env) (claim_str c "fid") s1) as Hs.
  destruct (RevokeFamily _ _ _ s1) as [r s2]. destruct Hs as (Hok & _ & _ & _ & Hnone). simpl.
  assert (Hops : fam_inv (claim_str c "fid") (fun o => o = None) (ops_end T ops) (run_ops i ops s2)).
  { apply fam_inv_ops; [done| |done|].
    - intros t Ht. apply Hnone; [by apply Hok|lia].
    - eapply Forall_impl; [exact Hfs|]. intros [|e0 t0|]; simpl; [congruence|done|done]. }
  eapply (refresh_refused i (claim_str c "fid") env' tok' _ c' Hp' Hfid). by rewrite Hops.
Qed.

(** What [Issue] mints: the access token is accepted by [RequireAuth] until it expires, with
    the subject, email and scopes of the login in its claims, and refused from then on; the
    refresh token grants no API access at any time; the refresh token's family is active, so
    that [Refresh] finds it. *)
Theorem issue_grants_access i r env cl (s s' : S) p :
  0 < refreshTTL i -> claims_encodable cl -> Issue i r env cl s = (inr p, s') ->
  let exp := (t_access env + accessTTL i) / Second * Second in
  (forall (c : ctx Id) tp n tb, header c "Authorization"%string = "Bearer " +:+ AccessToken p ->
     match (RequireAuth (E := E) (secret i) [] tp n tb c s').1 with
     | Next c' => tp < exp /\ Subject c' [] = claim_str cl "sub" /\
                  Scopes c' [] = toStringSlice (json_any <$> (cl !! "scopes"%string))
     | Send rep => exp <= tp /\ http_status rep = 401
     | Fail _ => False
     end) /\
  (forall (c : ctx Id) tp n tb, header c "Authorization"%string = "Bearer " +:+ RefreshToken p ->
     (RequireAuth (E := E) (secret i) [] tp n tb c s').1 = unauthorized) /\
  exists fid jr, newID r = inr fid /\ newID (rand_refresh env) = inr jr /\
    forall t, t_set env <= t < t_set env + whole_ms (refreshTTL i) -> family_at s' t fid = Some jr.
Proof.
  intros Httl Hc Hi. unfold Issue in Hi. destruct (String.eqb_spec (claim_str cl "sub") EmptyString); [done|].
  destruct (newID r) as [|fid] eqn:Hr; [done|].
  destruct (mint_active i env cl fid s p s' Httl Hi) as (ja & jr & rtc & atc & Hja & Hjr & Hatc & Hrtc & Ha & Hrt & _ & Hset).
  simpl in Hatc, Hrtc. intros exp. split_and!; [| |by exists fid, jr].
  - intros c tp nt tb Hh. unfold RequireAuth.
    assert (Hexp : atc !! "exp"%string = Some (AInt ((t_access env + accessTTL i) / Second))) by (rewrite Hatc; by minted).
    assert (Henc : claims_encodable atc) by (rewrite Hatc; apply access_encodable; [done|by eapply newID_ascii]).
    rewrite (parse_signed tp i c atc _ _ Hh Ha Henc) by (done || (rewrite Hatc; unfold access_claims; by minted)).
    assert (Hty : atc !! "type"%string = Some (AStr "access")) by (rewrite Hatc; unfold access_claims; by minted).
    assert (Hsub : atc !! "sub"%string = Some (default ANil (cl !! "sub"%string))) by (rewrite Hatc; unfold access_claims; by minted).
    assert (Hsc : atc !! "scopes"%string = cl !! "scopes"%string).
    { rewrite Hatc, lookup_insert_ne by done. unfold access_claims. apply copy_claims_lookup; [unfold copied; set_solver|].
      by minted. }
    fold exp. destruct (decide (tp < exp)); simpl; [|split; [lia|done]].
    rewrite (str_claim _ _ _ Hty). simpl. split_and!; [done| |].
    + unfold Subject, claim_of, Claims_, GetLocal, set_local. simpl. rewrite lookup_insert_eq. simpl.
      unfold claim_str. rewrite json_claims_lookup, Hsub. destruct (cl !! "sub"%string) as [[]|]; done.
    + unfold Scopes, Claims_, GetLocal, set_local. simpl. rewrite lookup_insert_eq. simpl.
      by rewrite json_claims_lookup, Hsc.
  - intros c tp nt tb Hh. unfold RequireAuth.
    assert (Hexp : rtc !! "exp"%string = Some (AInt ((t_refresh env + refreshTTL i) / Second))) by (rewrite Hrtc; by minted).
    assert (Henc : claims_encodable rtc) by (rewrite Hrtc; apply refresh_encodable; [done|by eapply newID_ascii..]).
    rewrite (parse_signed tp i c rtc _ _ Hh Hrt Henc) by (done || (rewrite Hrtc; unfold refresh_claims; by minted)).
    assert (Hty : rtc !! "type"%string = Some (AStr "refresh")) by (rewrite Hrtc; unfold refresh_claims; by minted).
    rewrite (str_claim _ _ _ Hty). simpl. by destruct (decide _).
Qed.

(** (C24) A route behind [RequireAuth] and [RequireScope] (sharing their options) is reached exactly by
    the requests that are authenticated (a bearer token that validates, with claims, not a refresh
    token), not revoked (with a blocklist, the store does not have the token's identifier blocked)
    and hold the scope, and it gets the claims. Any other request is answered: 403 when it is
    authenticated and not revoked but lacks the scope; 401 when it is not authenticated, or is
    revoked, or the store's call failed so that it cannot tell. *)
Theorem protected_route sec scope opts tp n tb (c : ctx Id) (s : S) :
  let '(o, s') := RequireAuth (E := E) sec opts tp n tb c s in
  let o' := match o with Next c' => RequireScope scope opts c' | o => o end in
  match o' with
  | Next c' => exists cl, authenticated sec tp c cl /\ ~ revoked (blocklist (newConfig opts)) tb cl s /\ has_scope cl scope /\
      c' = set_local (contextKey (newConfig opts)) (LClaims cl) c
  | Send rep =>
      (rep = SendError ANil "unauthorized" [StatusUnauthorized] /\
        forall cl, authenticated sec tp c cl -> revoked (blocklist (newConfig opts)) tb cl s \/
          (blocklist (newConfig opts) = true /\ claim_str cl "jti" <> ""%string /\ n <> NetOk)) \/
      (rep = SendError ANil "forbidden" [StatusForbidden] /\
        exists cl, authenticated sec tp c cl /\ ~ revoked (blocklist (newConfig opts)) tb cl s /\ ~ has_scope cl scope)
  | Fail _ => False
  end.
Proof.
  unfold RequireAuth. destruct (parse tp c sec) as [cl|] eqn:Hp.
  2: { left. split; [done|]. intros cl Ha%authenticated_parse. congruence. }
  apply authenticated_parse in Hp as Hauth. pose proof (blocklisted_revoked n tb (newConfig opts) cl s) as Hb.
  assert (Hsame : forall cl', authenticated sec tp c cl' -> cl' = cl) by (intros cl' Ha%authenticated_parse; congruence).
  destruct (blocklisted n tb (newConfig opts) cl s) as [[e|[]] s']; cbn [fst] in *.
  - left. split; [done|]. intros cl' ->%Hsame. by right.
  - left. split; [done|]. intros cl' ->%Hsame. by left.
  - unfold RequireScope, HasScope, Scopes, Claims_, GetLocal. simpl. rewrite lookup_insert_eq.
    pose proof (existsb_elem scope (toStringSlice (cl !! "scopes"%string))) as Hsc. rewrite has_scope_slice in Hsc.
    destruct (existsb _ _); simpl.
    + exists cl. split_and!; try done. by apply Hsc.
    + right. split; [done|]. exists cl. split_and!; try done. intros Hin. by apply Hsc in Hin.
Qed.
End Properties.

(** ** Witnesses: the in-memory store and the toy token library *)

Import ToyJwt MemoryStore.

Definition iss : Issuer := NewIssuer "k" [].
Definition login : claims := <["scopes"%string := AStrs ["read"%string]]> {["sub"%string := AStr "7"]}.
Definition menv (a r : string) (t : Z) : mint_env := MintEnv (inr a) (inr r) t t NetOk t.
Definition renv (a r : string) (t : Z) : refresh_env := RefreshEnv t NetOk t NetOk t (menv a r t) t NetOk t.
Definition lenv (t : Z) : logout_env := LogoutEnv t t NetOk t t NetOk t.

Definition pair_of (r : (error + TokenPair) * MemoryStore) : TokenPair :=
  match r.1 with inr p => p | inl _ => MkTokenPair "" "" "" 0 0 end.
Definition issued : (error + TokenPair) * MemoryStore := Issue iss (inr "F"%string) (menv "a" "b" 0) login NewMemoryStore.
Definition first_pair : TokenPair := pair_of issued.
Definition rotated : (error + TokenPair) * MemoryStore := Refresh iss (renv "c" "d" Second) (RefreshToken first_pair) issued.2.
Definition claims_of (tok : string) : claims := match parseValid 0 iss tok with inr c => c | inl _ => ∅ end.
Definition ctx_with (tok : string) : ctx unit := Ctx (fun _ => "Bearer " +:+ tok) ∅.

Lemma refresh_single_use_witness :
  rotated.1 = inr (pair_of rotated) /\
  (Refresh iss (renv "e" "f" (2 * Second)) (RefreshToken first_pair)
     (run_ops iss [OIssue (inr "G"%string) (menv "x" "y" (2 * Second)) login] rotated.2)).1 = inl ErrTokenReuse.
Proof.
  assert (Hp : parseValid Second iss (RefreshToken first_pair) = inr (claims_of (RefreshToken first_pair))) by (vm_compute; reflexivity).
  assert (Hr : rotated.1 = inr (pair_of rotated)) by (vm_compute; reflexivity).
  destruct (refresh_single_use iss 0 (renv "c" "d" Second) (RefreshToken first_pair) issued.2
    (claims_of (RefreshToken first_pair)) (pair_of rotated)
    [OIssue (inr "G"%string) (menv "x" "y" (2 * Second)) login] (renv "e" "f" (2 * Second))) as [e He].
  - reflexivity.
  - exact Hp.
  - exact Hr.
  - repeat constructor; vm_compute; discriminate.
  - repeat constructor; vm_compute; discriminate.
  - vm_compute; discriminate.
  - split; [exact Hr|]. fold rotated in He. vm_compute in He |- *. exact He || reflexivity.
Defined.

Lemma refresh_reuse_revokes_witness :
  (Refresh iss (renv "e" "f" (2 * Second)) (RefreshToken first_pair) rotated.2).1 = inl ErrTokenReuse /\
  exists e, (Refresh iss (renv "g" "h" (3 * Second)) (RefreshToken (pair_of rotated))
      (Refresh iss (renv "e" "f" (2 * Second)) (RefreshToken first_pair) rotated.2).2).1 = inl e.
Proof.
  destruct (refresh_reuse_revokes iss (2 * Second) (renv "e" "f" (2 * Second)) (RefreshToken first_pair) rotated.2
    (claims_of (RefreshToken first_pair)) (hex_encode "d")) as [Hre Hall];
    [vm_compute; first [reflexivity|discriminate]..|].
  split; [exact Hre|].
  apply (Hall [] (renv "g" "h" (3 * Second)) (RefreshToken (pair_of rotated)) (claims_of (RefreshToken (pair_of rotated))));
    [vm_compute; discriminate|exact I|constructor|vm_compute; discriminate|vm_compute; reflexivity|vm_compute; reflexivity].
Defined.


Lemma issue_grants_access_witness :
  issued = (inr first_pair, issued.2) /\
  (RequireAuth (E := unit) "k" [] Second NetOk Second (ctx_with (RefreshToken first_pair)) issued.2).1 = unauthorized.
Proof.
  assert (Henc : claims_encodable login).
  { apply encodable_insert; [reflexivity..|]. by apply map_Forall_singleton. }
  assert (Hi : issued = (inr first_pair, issued.2)) by (vm_compute; reflexivity).
  split; [exact Hi|].
  destruct (issue_grants_access (Id := unit) (E := unit) iss (inr "F"%string) (menv "a" "b" 0) login NewMemoryStore issued.2 first_pair)
    as (_ & Hrt & _).
  - reflexivity.
  - exact Henc.
  - exact Hi.
  - apply (Hrt (ctx_with (RefreshToken first_pair))). reflexivity.
Defined.

Lemma set_local_claims {Id} k (c : ctx Id) x y : set_local k (LClaims x) c = set_local k (LClaims y) c -> x = y.
Proof. intros Heq. apply (f_equal (fun c => locals c !! k)) in Heq. cbn [set_local locals] in Heq. rewrite !lookup_insert_eq in Heq. congruence. Qed.

(** The login's token reaches a route for its scope and not one for another. *)
Lemma protected_route_witness :
  authenticated "k" Second (ctx_with (AccessToken first_pair)) (claims_of (AccessToken first_pair)) /\
  has_scope (claims_of (AccessToken first_pair)) "read" /\ ~ has_scope (claims_of (AccessToken first_pair)) "write".
Proof.
  pose proof (protected_route (E := unit) "k" "read" [WithBlocklist] Second NetOk Second (ctx_with (AccessToken first_pair)) issued.2) as Hr.
  pose proof (protected_route (E := unit) "k" "write" [WithBlocklist] Second NetOk Second (ctx_with (AccessToken first_pair)) issued.2) as Hw.
  assert (Ha : RequireAuth (E := unit) "k" [WithBlocklist] Second NetOk Second (ctx_with (AccessToken first_pair)) issued.2 =
    (Next (set_local DefaultClaimsKey (LClaims (claims_of (AccessToken first_pair))) (ctx_with (AccessToken first_pair))), issued.2)) by (vm_compute; reflexivity).
  rewrite Ha in Hr, Hw.
  assert (Hs : RequireScope (E := unit) "read" [WithBlocklist] (set_local DefaultClaimsKey (LClaims (claims_of (AccessToken first_pair))) (ctx_with (AccessToken first_pair))) =
    Next (set_local DefaultClaimsKey (LClaims (claims_of (AccessToken first_pair))) (ctx_with (AccessToken first_pair)))) by (vm_compute; reflexivity).
  assert (Hn : RequireScope (E := unit) "write" [WithBlocklist] (set_local DefaultClaimsKey (LClaims (claims_of (AccessToken first_pair))) (ctx_with (AccessToken first_pair))) =
    Send (SendError ANil "forbidden" [StatusForbidden])) by (vm_compute; reflexivity).
  rewrite Hs in Hr. rewrite Hn in Hw. clear Ha Hs Hn. revert Hr Hw. generalize (claims_of (AccessToken first_pair)).
  intros cl0 (cl & Hau & _ & Hsc & <-%set_local_claims) [[Hd _]|(_ & cl1 & Hau' & _ & Hno)]; [apply (f_equal http_status) in Hd; vm_compute in Hd; discriminate Hd|].
  apply authenticated_parse in Hau as Hp, Hau' as Hp'. rewrite Hp in Hp'. injection Hp' as <-. split_and!; [exact Hau|exact Hsc|exact Hno].
Defined.
