(* ===== verification/Http.v ===== *)
(** * The HTTP client and its circuit breaker (http/http.go, http/breaker.go)

    fasthttp sends the requests; what it answers on each attempt, what the context says and how
    a sleep ends are the environment of the definitions below. *)

From S2P Require Import Prelude.
Open Scope Z_scope.

(** ** The breaker *)

Definition ErrCircuitOpen : string := "http: circuit breaker open".

Inductive breakerState := breakerClosed | breakerOpen | breakerHalfOpen.

Record breaker := MkBreaker {
  maxFailures : Z; openTimeout : Z; state : breakerState; failures : Z; openedAt : Z }.

Definition newBreaker (max timeout : Z) : breaker :=
  MkBreaker (if max <? 1 then 1 else max) timeout breakerClosed 0 0.

Definition set_state (st : breakerState) (b : breaker) : breaker :=
  MkBreaker (maxFailures b) (openTimeout b) st (failures b) (openedAt b).
Definition set_failures (n : Z) (b : breaker) : breaker :=
  MkBreaker (maxFailures b) (openTimeout b) (state b) n (openedAt b).
Definition set_openedAt (t : Z) (b : breaker) : breaker :=
  MkBreaker (maxFailures b) (openTimeout b) (state b) (failures b) t.

Definition allow (now : Z) (b : breaker) : bool * breaker :=
  match state b with
  | breakerOpen =>
      if openTimeout b <=? time_sub now (openedAt b) then (true, set_state breakerHalfOpen b) else (false, b)
  | breakerClosed => (true, b)
  | breakerHalfOpen => (false, b)
  end.

Definition onSuccess (b : breaker) : breaker := set_state breakerClosed (set_failures 0 b).

Definition onFailure (now : Z) (b : breaker) : breaker :=
  match state b with
  | breakerHalfOpen => set_openedAt now (set_state breakerOpen b)
  | _ =>
      let b := set_failures (wrap64 (failures b + 1)) b in
      if maxFailures b <=? failures b then set_openedAt now (set_state breakerOpen b) else b
  end.

(** ** Requests *)

(** A returned error: a transport, context or decoding error, or a non-2xx [Error]. *)
Inductive http_error := Other (e : error) | Error (Code : Z) (Body : string).

Section Client.
  (** [C] is the type of Go contexts, with the deadline they carry. *)
  Context {C : Type} (Deadline : C -> option Z).

Record HTTP := MkHTTP {
  BaseURL : string; headers : gmap string string; timeout : Z; retries : Z; backoff : Z;
  circuit : option breaker; ctxHeaders : list (string * (C -> string)) }.

Definition WithTimeout (d : Z) (h : HTTP) : HTTP :=
  MkHTTP (BaseURL h) (headers h) d (retries h) (backoff h) (circuit h) (ctxHeaders h).
Definition WithRetry (n d : Z) (h : HTTP) : HTTP :=
  MkHTTP (BaseURL h) (headers h) (timeout h) n d (circuit h) (ctxHeaders h).
Definition with_circuit (b : option breaker) (h : HTTP) : HTTP :=
  MkHTTP (BaseURL h) (headers h) (timeout h) (retries h) (backoff h) b (ctxHeaders h).
Definition WithCircuitBreaker (max open : Z) (h : HTTP) : HTTP := with_circuit (Some (newBreaker max open)) h.
Definition SetHeader (k v : string) (h : HTTP) : HTTP :=
  MkHTTP (BaseURL h) (<[k := v]> (headers h)) (timeout h) (retries h) (backoff h) (circuit h) (ctxHeaders h).
Definition WithHeader : string -> string -> HTTP -> HTTP := SetHeader.
Definition WithContextHeader (k : string) (f : C -> string) (h : HTTP) : HTTP :=
  MkHTTP (BaseURL h) (headers h) (timeout h) (retries h) (backoff h) (circuit h) (ctxHeaders h ++ [(k, f)]).

Definition New (baseURL : string) (opts : list (HTTP -> HTTP)) : HTTP :=
  fold_left (fun h o => o h) opts (MkHTTP baseURL ∅ 0 0 0 None []).

(** [snapshotHeaders]: the table copied entry by entry, in whatever order it is walked. *)
Definition snapshotHeaders (h : HTTP) : gmap string string := map_fold (fun k v out => <[k := v]> out) ∅ (headers h).
Lemma snapshotHeaders_copy (h : HTTP) : snapshotHeaders h = headers h.
Proof. apply (map_fold_weak_ind (fun out m => out = m)); [done|]. by intros k v m out _ ->. Qed.

(** The headers of one logical request: the defaults overridden by the context's. *)
Definition request_headers (h : HTTP) (ctx : C) : gmap string string :=
  fold_left (fun hs r => let v := r.2 ctx in if String.eqb v EmptyString then hs else <[r.1 := v]> hs)
    (ctxHeaders h) (snapshotHeaders h).

(** The fasthttp request and the way it is bounded in time. *)
Inductive bound := DoDeadline (t : Z) | DoTimeout (d : Z) | Do.
Record fast_request := FastRequest {
  rq_uri : string; rq_method : string; rq_headers : gmap string string;
  rq_body : option string; rq_content_type : option string; rq_bound : bound }.

Definition build_request (h : HTTP) (ctx : C) (method path : string) (payload : option string)
    (contentType : string) (hs : gmap string string) : fast_request :=
  FastRequest (BaseURL h +:+ path) method hs payload
    (match payload with
     | Some _ => Some (if String.eqb contentType EmptyString then "application/json"%string else contentType)
     | None => None
     end)
    (match Deadline ctx with
     | Some dl => DoDeadline dl
     | None => if 0 <? timeout h then DoTimeout (timeout h) else Do
     end).

(** What happens around the i-th attempt: [ctx.Err()] before it, fasthttp's answer to the
    request (a transport error or status and body), and the context's error if it ends during the
    sleep after it. *)
Record env := Env {
  ctx_err : nat -> option error;
  answer : nat -> fast_request -> error + (Z * string);
  sleep_err : nat -> option error }.

Definition doOnce (e : env) (i : nat) (h : HTTP) (ctx : C) (method path : string) (payload : option string)
    (contentType : string) (hs : gmap string string) : error + (Z * string) :=
  answer e i (build_request h ctx method path payload contentType hs).

Definition sleepWithContext (e : env) (i : nat) (d : Z) : option error :=
  if d <=? 0 then None else sleep_err e i.

(** The loop: [left] attempts remain. [unmarshal] is [json.Unmarshal] into [out], when there is an
    [out]. The last component counts the requests sent. *)
Fixpoint attempts_loop (e : env) (send : nat -> error + (Z * string)) (sleep : nat -> option error)
    (unmarshal : option (string -> option error)) (left i : nat) (last : Z * option http_error)
    : (Z * option http_error) * nat :=
  match left with
  | O =>
      (match last with
       | (_, Some (Error code body)) => (code, Some (Error code body))
       | (code, err) => (code, err)
       end, i)
  | S left' =>
      match ctx_err e i with
      | Some err => ((0, Some (Other err)), i)
      | None =>
          match send i with
          | inl err =>
              match (match left' with O => None | S _ => sleep i end) with
              | Some serr => ((0, Some (Other serr)), S i)
              | None => attempts_loop e send sleep unmarshal left' (S i) (0, Some (Other err))
              end
          | inr (code, respBody) =>
              if (code <? 200) || (300 <=? code) then
                if (500 <=? code) && (match left' with O => false | S _ => true end) then
                  match sleep i with
                  | Some serr => ((0, Some (Other serr)), S i)
                  | None => attempts_loop e send sleep unmarshal left' (S i) (code, Some (Error code respBody))
                  end
                else ((code, Some (Error code respBody)), S i)
              else
                ((code, match unmarshal with
                        | Some f => match f respBody with Some err => Some (Other err) | None => None end
                        | None => None
                        end), S i)
          end
      end
  end.

Definition num_attempts (h : HTTP) : Z :=
  let attempts := wrap64 (retries h + 1) in if attempts <? 1 then 1 else attempts.

Definition requestRawAttempts (e : env) (h : HTTP) (ctx : C) (method path : string) (payload : option string)
    (contentType : string) (unmarshal : option (string -> option error)) : (Z * option http_error) * nat :=
  let hs := request_headers h ctx in
  attempts_loop e (fun i => doOnce e i h ctx method path payload contentType hs)
    (fun i => sleepWithContext e i (backoff h)) unmarshal (Z.to_nat (num_attempts h)) 0 (0, None).

Definition breakerFailure (code : Z) (err : option http_error) : bool :=
  match err with Some _ => (code =? 0) || (500 <=? code) | None => 500 <=? code end.

(** [t_allow] and [t_done] are the breaker's clock readings. *)
Definition requestRaw (e : env) (t_allow t_done : Z) (h : HTTP) (ctx : C) (method path : string)
    (payload : option string) (contentType : string) (unmarshal : option (string -> option error))
    : ((Z * option http_error) * nat) * HTTP :=
  match circuit h with
  | Some b =>
      match allow t_allow b with
      | (false, b1) => (((0, Some (Other (Err ErrCircuitOpen))), O), with_circuit (Some b1) h)
      | (true, b1) =>
          let '((code, err), n) := requestRawAttempts e h ctx method path payload contentType unmarshal in
          (((code, err), n),
           with_circuit (Some (if breakerFailure code err then onFailure t_done b1 else onSuccess b1)) h)
      end
  | None => (requestRawAttempts e h ctx method path payload contentType unmarshal, h)
  end.

(** [request]: [body] is the value to send with its [json.Marshal] result. *)
Definition request (e : env) (t_allow t_done : Z) (h : HTTP) (ctx : C) (method path : string)
    (body : option (error + string)) (unmarshal : option (string -> option error))
    : ((Z * option http_error) * nat) * HTTP :=
  match body with
  | Some (inl err) => (((0, Some (Other err)), O), h)
  | Some (inr b) => requestRaw e t_allow t_done h ctx method path (Some b) "application/json" unmarshal
  | None => requestRaw e t_allow t_done h ctx method path None "application/json" unmarshal
  end.

Definition Get e ta td h ctx path out := request e ta td h ctx "GET" path None (Some out).
Definition Delete e ta td h ctx path out := request e ta td h ctx "DELETE" path None (Some out).
Definition Post e ta td h ctx path body out := request e ta td h ctx "POST" path body out.
Definition Put e ta td h ctx path body out := request e ta td h ctx "PUT" path body out.
Definition Patch e ta td h ctx path body out := request e ta td h ctx "PATCH" path body out.

(** [PostForm]: [encoded] is [values.Encode()]. *)
Definition PostForm e ta td h ctx path (encoded : string) out :=
  requestRaw e ta td h ctx "POST" path (Some encoded) "application/x-www-form-urlencoded" (Some out).
End Client.

(** * The retry loop against a reference: the first decisive attempt *)

Section Retry.
  Context {C : Type} (Deadline : C -> option Z).

(** A retryable answer: a transport error or a 5xx. *)
Definition retryable (r : error + (Z * string)) : bool :=
  match r with inl _ => true | inr (code, _) => 500 <=? code end.

(** What one answer means when it is the final one. *)
Definition conclude (unmarshal : option (string -> option error)) (r : error + (Z * string)) : Z * option http_error :=
  match r with
  | inl err => (0, Some (Other err))
  | inr (code, body) =>
      if (code <? 200) || (300 <=? code) then (code, Some (Error code body))
      else (code, match unmarshal with
                  | Some f => match f body with Some err => Some (Other err) | None => None end
                  | None => None
                  end)
  end.

(** The attempt that decides among [left] from [i]: the first not retryable, or the last. *)
Fixpoint deciding (send : nat -> error + (Z * string)) (left i : nat) : nat :=
  match left with
  | O | 1%nat => i
  | S left' => if retryable (send i) then deciding send left' (S i) else i
  end.

Lemma deciding_bounds send left i : (i <= deciding send left i)%nat /\ (deciding send left i < i + Nat.max 1 left)%nat.
Proof.
  revert i; induction left as [|[|left] IH]; intros i; simpl; [lia|lia|].
  destruct (retryable (send i)); [|lia]. specialize (IH (S i)). simpl in IH. lia.
Qed.

Lemma attempts_loop_S e send sleep unmarshal left i last :
  attempts_loop e send sleep unmarshal (S left) i last =
    match ctx_err e i with
    | Some err => ((0, Some (Other err)), i)
    | None =>
        match send i with
        | inl err =>
            match (match left with O => None | S _ => sleep i end) with
            | Some serr => ((0, Some (Other serr)), S i)
            | None => attempts_loop e send sleep unmarshal left (S i) (0, Some (Other err))
            end
        | inr (code, body) =>
            if ((code <? 200) || (300 <=? code)) && (500 <=? code) && (match left with O => false | S _ => true end) then
              match sleep i with
              | Some serr => ((0, Some (Other serr)), S i)
              | None => attempts_loop e send sleep unmarshal left (S i) (code, Some (Error code body))
              end
            else (conclude unmarshal (inr (code, body)), S i)
        end
    end.
Proof.
  cbn [attempts_loop]. destruct (ctx_err e i); [done|]. destruct (send i) as [err|[code body]]; [done|]. simpl.
  destruct (_ || _); simpl; [|done]. by destruct (500 <=? code); simpl; [destruct left|].
Qed.

Lemma attempts_loop_deciding e send sleep unmarshal left i last :
  (forall j, ctx_err e j = None) -> (forall j, sleep j = None) ->
  attempts_loop e send sleep unmarshal (S left) i last =
    (conclude unmarshal (send (deciding send (S left) i)), S (deciding send (S left) i)).
Proof.
  intros Hc Hs. revert i last; induction left as [|left IH]; intros i last; rewrite attempts_loop_S, Hc.
  - cbn [deciding]. destruct (send i) as [err|[code body]]; [done|]. by rewrite andb_false_r.
  - cbn [deciding]. destruct (send i) as [err|[code body]] eqn:Hi; cbn [retryable].
    + rewrite Hs. apply IH.
    + rewrite andb_true_r. destruct (Z.leb_spec 500 code) as [Hge|Hlt].
      * rewrite (proj2 (Z.leb_le 300 code)), orb_true_r by lia. cbn [andb]. rewrite Hs. apply IH.
      * by rewrite andb_false_r, Hi.
Qed.

(** The loop sends between [i] and [i + left] requests in all, and none from a context error on. *)
Definition count_ok (e : env) (i left n : nat) : Prop :=
  (i <= n <= i + left)%nat /\ (forall j err, (i <= j)%nat -> ctx_err e j = Some err -> (n <= j)%nat).

Lemma attempts_loop_count e send sleep unmarshal left i last :
  count_ok e i left (attempts_loop e send sleep unmarshal left i last).2.
Proof.
  revert i last; induction left as [|left IH]; intros i last.
  { unfold count_ok. simpl. split; intros; lia. }
  rewrite attempts_loop_S. destruct (ctx_err e i) as [err|] eqn:Hc; [unfold count_ok; simpl; split; intros; lia|].
  assert (Hnext : forall j err, (i <= j)%nat -> ctx_err e j = Some err -> (S i <= j)%nat).
  { intros j err Hj He. destruct (decide (i = j)); [congruence|lia]. }
  assert (Hrec : forall last', count_ok e i (S left) (attempts_loop e send sleep unmarshal left (S i) last').2).
  { intros last'. destruct (IH (S i) last') as [Hb Hj]. split; [lia|]. intros j err Hle He. by eapply Hj; eauto. }
  assert (Hret : count_ok e i (S left) (S i)) by (split; [lia|done]).
  destruct (send i) as [err|[code body]].
  - destruct (match left with O => None | _ => _ end); [exact Hret|apply Hrec].
  - destruct (_ && _); [|exact Hret]. destruct (sleep i); [exact Hret|apply Hrec].
Qed.

Lemma num_attempts_pos (h : HTTP (C := C)) : 1 <= num_attempts h.
Proof. unfold num_attempts. destruct (Z.ltb_spec (wrap64 (retries h + 1)) 1); lia. Qed.

(** (C25) The retry policy, while the context lives and no sleep between attempts is interrupted. With
    [n] the number of retries plus one (in Go's arithmetic, and at least one): the call's result is
    that of the first of [n] attempts whose answer is neither a transport error nor a 5xx, or of the
    [n]th when all are; exactly the attempts up to it are sent, so never more than [n]. 4xx answers
    are returned at once. *)
Theorem requestRawAttempts_spec e (h : HTTP) (ctx : C) method path payload ct unmarshal :
  (forall i, ctx_err e i = None) -> (forall i, sleep_err e i = None) ->
  let send i := doOnce Deadline e i h ctx method path payload ct (request_headers h ctx) in
  let n := Z.max 1 (wrap64 (retries h + 1)) in
  exists d, Z.of_nat d < n /\
  requestRawAttempts Deadline e h ctx method path payload ct unmarshal = (conclude unmarshal (send d), S d) /\
  (forall i, (i < d)%nat -> retryable (send i) = true) /\
  (retryable (send d) = false \/ Z.of_nat d = n - 1).
Proof.
  intros Hc Hs send n0. pose proof (num_attempts_pos h) as Hn.
  assert (Hn0 : num_attempts h = n0) by (unfold num_attempts, n0; destruct (Z.ltb_spec (wrap64 (retries h + 1)) 1); lia).
  rewrite <- Hn0. clear n0 Hn0. set (d := deciding send (Z.to_nat (num_attempts h)) 0). exists d. unfold requestRawAttempts. fold send.
  destruct (Z.to_nat (num_attempts h)) as [|n] eqn:Hna; [lia|].
  rewrite attempts_loop_deciding; [|done|].
  2: { intros j. unfold sleepWithContext. by destruct (_ <=? 0). }
  fold d. pose proof (deciding_bounds send (S n) 0) as Hb. fold d in Hb. split; [lia|]. split; [done|].
  assert (Hgen : forall l i, let d := deciding send (S l) i in
    (forall j, (i <= j < d)%nat -> retryable (send j) = true) /\ (retryable (send d) = false \/ d = (i + l)%nat)).
  { clear d Hb. induction l as [|l IH]; intros i; [simpl; split; [lia|right; lia]|].
    cbn [deciding]. destruct (retryable (send i)) eqn:Hr; [|split; [lia|by left]].
    destruct (IH (S i)) as [Hbefore Hat]. split; [|destruct Hat; [by left|right; simpl in *; lia]].
    intros j Hj. destruct (decide (j = i)) as [->|]; [done|]. apply Hbefore. simpl in *. lia. }
  destruct (Hgen n 0%nat) as [Hbefore Hat]. split; [intros i Hi; apply Hbefore; fold d; lia|].
  destruct Hat as [?|Hd]; [by left|right]. fold d in Hd. lia.
Qed.

(** Bounds, whatever happens: at most [retries + 1] requests are sent, none from the attempt
    on at which the context is found ended. *)
Theorem requestRawAttempts_bounded e (h : HTTP) (ctx : C) method path payload ct unmarshal :
  let n := (requestRawAttempts Deadline e h ctx method path payload ct unmarshal).2 in
  Z.of_nat n <= num_attempts h /\ (forall j err, ctx_err e j = Some err -> (n <= j)%nat).
Proof.
  pose proof (num_attempts_pos h). unfold requestRawAttempts. simpl.
  destruct (attempts_loop_count e (fun i => doOnce Deadline e i h ctx method path payload ct (request_headers h ctx))
    (fun i => sleepWithContext e i (backoff h)) unmarshal (Z.to_nat (num_attempts h)) 0 (0, None)) as [Hb Hj].
  split; [lia|]. intros j err. apply Hj. lia.
Qed.
End Retry.

(** * The breaker against its specification *)

Section Breaker.
  Context {C : Type} (Deadline : C -> option Z).

(** What a client sees of the breaker between requests made one after the other. *)
Inductive circuit_spec := Closed (consecutive : Z) | Open (since : Z).

Definition admits (timeout now : Z) (s : circuit_spec) : bool :=
  match s with Closed _ => true | Open t => timeout <=? time_sub now t end.

Definition settle (max now : Z) (failed : bool) (s : circuit_spec) : circuit_spec :=
  if failed then
    match s with
    | Closed c => if max <=? c + 1 then Open now else Closed (c + 1)
    | Open _ => Open now
    end
  else Closed 0.

(** One request with everything it depends on. *)
Record call_of := Call {
  c_env : env; c_allow : Z; c_done : Z; c_ctx : C; c_method : string; c_path : string;
  c_payload : option string; c_type : string; c_out : option (string -> option error) }.

Definition sent (h : HTTP) (q : call_of) : (Z * option http_error) * nat :=
  requestRawAttempts Deadline (c_env q) h (c_ctx q) (c_method q) (c_path q) (c_payload q) (c_type q) (c_out q).

Fixpoint requests (h : HTTP) (qs : list call_of) : list ((Z * option http_error) * nat) * HTTP :=
  match qs with
  | [] => ([], h)
  | q :: qs =>
      let '(r, h1) := requestRaw Deadline (c_env q) (c_allow q) (c_done q) h (c_ctx q) (c_method q) (c_path q)
                        (c_payload q) (c_type q) (c_out q) in
      let '(rs, h2) := requests h1 qs in (r :: rs, h2)
  end.

Fixpoint spec_requests (h : HTTP) (max timeout : Z) (s : circuit_spec) (qs : list call_of)
    : list ((Z * option http_error) * nat) :=
  match qs with
  | [] => []
  | q :: qs =>
      if admits timeout (c_allow q) s then
        let r := sent h q in
        r :: spec_requests h max timeout (settle max (c_done q) (breakerFailure r.1.1 r.1.2) s) qs
      else ((0, Some (Other (Err ErrCircuitOpen))), O) :: spec_requests h max timeout s qs
  end.

(** The representation between requests; half-open is never seen there. *)
Definition circuit_repr (b : breaker) (s : circuit_spec) : Prop :=
  match s with
  | Closed c => state b = breakerClosed /\ failures b = c /\ 0 <= c < maxFailures b
  | Open t => state b = breakerOpen /\ openedAt b = t
  end.

Lemma breaker_simulation b s now done_ (failed : bool) :
  circuit_repr b s -> 0 < maxFailures b <= int_max ->
  let '(ok, b1) := allow now b in
  ok = admits (openTimeout b) now s /\
  maxFailures b1 = maxFailures b /\ openTimeout b1 = openTimeout b /\
  if ok then
    let b2 := if failed then onFailure done_ b1 else onSuccess b1 in
    circuit_repr b2 (settle (maxFailures b) done_ failed s) /\
    maxFailures b2 = maxFailures b /\ openTimeout b2 = openTimeout b
  else circuit_repr b1 s.
Proof.
  intros Hr Hmax. destruct b as [mx to st fs oa]. simpl in *. destruct s as [c|t]; simpl in Hr.
  - destruct Hr as (-> & -> & Hc). unfold allow. simpl. destruct failed; simpl.
    + unfold onFailure. simpl. rewrite wrap64_id by (unfold in_int, int_min, int_max in *; lia).
      destruct (Z.leb_spec mx (c + 1)); simpl; split_and!; done || lia.
    + split_and!; done || lia.
  - destruct Hr as (-> & ->). unfold allow. simpl. destruct (to <=? time_sub now t); simpl; [|done].
    destruct failed; simpl; split_and!; done || lia.
Qed.

(** (C14) The circuit breaker refines its specification over any sequence of requests: requests are
    sent, and their outcome returned, exactly when the specification admits them (closed, or
    open for at least the timeout); all others return (0, ErrCircuitOpen) without sending. It
    opens after [maxFailures] consecutive failures, a failed probe reopens it, a success closes it. *)
Theorem breaker_refines (h : HTTP) max timeout qs :
  in_int max ->
  (requests (with_circuit (Some (newBreaker max timeout)) h) qs).1 =
    spec_requests h (Z.max 1 max) timeout (Closed 0) qs.
Proof.
  intros Hmax.
  assert (Hgen : forall qs b s, circuit_repr b s -> 0 < maxFailures b <= int_max ->
    (requests (with_circuit (Some b) h) qs).1 = spec_requests h (maxFailures b) (openTimeout b) s qs).
  { clear qs. induction qs as [|q qs IH]; intros b s Hr Hb; [done|]. cbn [requests spec_requests].
    unfold requestRaw. cbn [circuit with_circuit].
    destruct (sent h q) as [[code err] n] eqn:Hsent.
    pose proof (breaker_simulation b s (c_allow q) (c_done q) (breakerFailure code err) Hr Hb) as Hsim.
    destruct (allow (c_allow q) b) as [[] b1]; destruct Hsim as (Hadm & Hm1 & Ht1 & Hsim); rewrite <- Hadm.
    - assert (Hs : requestRawAttempts Deadline (c_env q) (with_circuit (Some b) h) (c_ctx q) (c_method q) (c_path q)
          (c_payload q) (c_type q) (c_out q) = ((code, err), n)) by exact Hsent.
      rewrite Hs. destruct Hsim as (Hr2 & Hm2 & Ht2). simpl in *.
      set (b2 := if breakerFailure code err then onFailure (c_done q) b1 else onSuccess b1) in *.
      specialize (IH b2 _ Hr2 ltac:(by rewrite Hm2)). rewrite Hm2, Ht2 in IH. rewrite <- IH.
      change (with_circuit (Some b2) (with_circuit (Some b) h)) with (with_circuit (Some b2) h).
      by destruct (requests (with_circuit (Some b2) h) qs).
    - specialize (IH b1 s Hsim ltac:(by rewrite Hm1)). rewrite Hm1, Ht1 in IH. rewrite <- IH.
      change (with_circuit (Some b1) (with_circuit (Some b) h)) with (with_circuit (Some b1) h).
      by destruct (requests (with_circuit (Some b1) h) qs). }
  unfold newBreaker. destruct (Z.ltb_spec max 1).
  - rewrite Z.max_l by lia. apply (Hgen qs (MkBreaker 1 timeout breakerClosed 0 0) (Closed 0)); simpl; [split_and!; done || lia|].
    unfold int_max. lia.
  - rewrite Z.max_r by lia. apply (Hgen qs (MkBreaker max timeout breakerClosed 0 0) (Closed 0)); simpl; [split_and!; done || lia|].
    destruct Hmax. lia.
Qed.

(** ** Concurrent requests: the breaker's methods in any order *)

Inductive event := EAllow (now : Z) | ESuccess | EFailure (now : Z).

(** The breaker after the events, and how many requests were admitted. *)
Fixpoint run_events (b : breaker) (evs : list event) : Z * breaker :=
  match evs with
  | [] => (0, b)
  | EAllow now :: evs =>
      let '(ok, b1) := allow now b in
      let '(n, b2) := run_events b1 evs in ((if ok then n + 1 else n), b2)
  | ESuccess :: evs => run_events (onSuccess b) evs
  | EFailure now :: evs => run_events (onFailure now b) evs
  end.

Definition is_failure (e : event) : bool := match e with EFailure _ => true | _ => false end.
Definition failures_in (evs : list event) : Z := Z.of_nat (length (List.filter is_failure evs)).

(** (C29) Load shedding under concurrency: once the breaker is not closed, and until a success is
    reported, however many requests ask in whatever order, it admits at most one probe more
    than the failures reported meanwhile (none more when a probe is already out), and it does
    not close. *)
Theorem breaker_sheds b evs :
  state b <> breakerClosed -> ESuccess ∉ evs ->
  let '(n, b') := run_events b evs in
  state b' <> breakerClosed /\
  n <= failures_in evs + (match state b with breakerOpen => 1 | _ => 0 end).
Proof.
  revert b; induction evs as [|ev evs IH]; intros b Hst Hns; [simpl; by destruct (state b)|].
  assert (Hns' : ESuccess ∉ evs) by set_solver.
  destruct ev as [now| |now]; [|set_solver|]; cbn [run_events].
  - change (failures_in (EAllow now :: evs)) with (failures_in evs). unfold allow.
    destruct (state b) eqn:Hb; [done| |].
    + destruct (_ <=? _).
      * specialize (IH (set_state breakerHalfOpen b) ltac:(done) Hns').
        destruct (run_events _ evs) as [n b2]. destruct IH as [? Hn]. simpl in Hn. split; [done|lia].
      * specialize (IH b ltac:(congruence) Hns'). destruct (run_events b evs) as [n b2]. by rewrite Hb in IH.
    + specialize (IH b ltac:(congruence) Hns'). destruct (run_events b evs) as [n b2]. by rewrite Hb in IH.
  - assert (Hf : failures_in (EFailure now :: evs) = 1 + failures_in evs)
      by (unfold failures_in; cbn [List.filter is_failure length]; lia).
    rewrite Hf. assert (Hop : state (onFailure now b) = breakerOpen).
    { unfold onFailure. destruct (state b) eqn:Hb; [done| |done]. by destruct (_ <=? _). }
    specialize (IH (onFailure now b) ltac:(congruence) Hns'). destruct (run_events _ evs) as [n b2].
    rewrite Hop in IH. destruct IH as [? Hn]. split; [done|]. destruct (state b); lia.
Qed.

(** A success of a request sent before the breaker opened closes it again, before the timeout. *)
Lemma breaker_late_success :
  let b := (run_events (newBreaker 1 Minute) [EAllow 0; EAllow 0; EFailure 1; ESuccess]).2 in
  state b = breakerClosed /\ (allow 2 b).1 = true.
Proof. split; reflexivity. Qed.

(** A request whose context has already ended is not sent, and yet counts as a failure. *)
Lemma cancelled_counts_as_failure (h : HTTP) (ctx : C) err ans :
  let '(((code, res), n), h') :=
    requestRaw Deadline (Env (fun _ => Some err) ans (fun _ => None)) 0 0
      (with_circuit (Some (newBreaker 1 Minute)) h) ctx "GET" "/" None "" None in
  n = O /\ option_map state (circuit h') = Some breakerOpen.
Proof.
  unfold requestRaw, requestRawAttempts. simpl. pose proof (num_attempts_pos (with_circuit (Some (newBreaker 1 Minute)) h)) as Hn.
  destruct (Z.to_nat _) as [|n] eqn:Hna; [lia|]. simpl. done.
Qed.
End Breaker.

(** ** Witnesses *)

(** A server answering 503 twice, then 200. *)
Definition flaky : env := Env (fun _ => None) (fun i _ => inr (if (i <? 2)%nat then (503, "down") else (200, "{}"))%string) (fun _ => None).
Definition no_deadline (_ : unit) : option Z := None.
Definition client : HTTP (C := unit) := New "http://x" [WithRetry 5 Millisecond].

Lemma requestRawAttempts_spec_witness :
  (forall i, ctx_err flaky i = None) /\
  requestRawAttempts no_deadline flaky client tt "GET" "/" None "" None = ((200, None), 3%nat).
Proof.
  split; [reflexivity|].
  destruct (requestRawAttempts_spec no_deadline flaky client tt "GET" "/" None "" None
    (fun _ => eq_refl) (fun _ => eq_refl)) as (d & Hd & Heq & Hmid & Hlast). rewrite Heq.
  destruct d as [|[|[|d]]]; [vm_compute in Hlast; destruct Hlast as [Hl|Hl]; discriminate Hl..| |].
  - vm_compute. reflexivity.
  - assert (Hm : retryable (doOnce no_deadline flaky 2 client tt "GET" "/" None "" (request_headers client tt)) = true) by (apply Hmid; lia).
    vm_compute in Hm. discriminate Hm.
Defined.

(** The same server, the context ending after the first attempt. *)
Definition cancelled : env := Env (fun i => if (i <? 1)%nat then None else Some (Err "context canceled")) (answer flaky) (fun _ => None).

Lemma requestRawAttempts_bounded_witness :
  ctx_err cancelled 1 = Some (Err "context canceled") /\
  ((requestRawAttempts no_deadline cancelled client tt "GET" "/" None "" None).2 <= 1)%nat.
Proof.
  split; [reflexivity|].
  destruct (requestRawAttempts_bounded no_deadline cancelled client tt "GET" "/" None "" None) as [_ Hb].
  apply (Hb 1%nat (Err "context canceled")). reflexivity.
Defined.

Definition down : env := Env (fun _ => None) (fun _ _ => inr (500, ""%string)) (fun _ => None).
Definition get_at (t : Z) : call_of (C := unit) := Call down t t tt "GET" "/" None "" None.

Lemma breaker_refines_witness :
  in_int 2 /\
  map snd (requests no_deadline (with_circuit (Some (newBreaker 2 10)) (New "" [])) [get_at 0; get_at 1; get_at 2; get_at 11]).1
    = [1; 1; 0; 1]%nat.
Proof.
  assert (Hi : in_int 2) by (unfold in_int, int_min, int_max; lia). split; [exact Hi|].
  rewrite (breaker_refines no_deadline (New "" []) 2 10 _ Hi). vm_compute. reflexivity.
Defined.

Lemma breaker_sheds_witness :
  let b := onFailure 0 (newBreaker 1 10) in
  state b <> breakerClosed /\ (run_events b [EAllow 20; EAllow 21; EFailure 22; EAllow 40; EAllow 41]).1 = 2 /\
  (run_events b [EAllow 20; EAllow 21; EFailure 22; EAllow 40; EAllow 41]).1 <= 1 + 1.
Proof.
  cbv zeta. split; [discriminate|]. split; [reflexivity|].
  pose proof (breaker_sheds (onFailure 0 (newBreaker 1 10)) [EAllow 20; EAllow 21; EFailure 22; EAllow 40; EAllow 41]
    ltac:(discriminate) ltac:(set_solver)) as Hw.
  destruct (run_events _ _) as [n b']. destruct Hw as [_ Hn]. exact Hn.
Defined.
