(* ===== verification/Retry.v ===== *)
(** * Retrying with backoff (retry/retry.go)

    [fn] works on a state; the context and the sleeps are the environment. Delays are computed
    in float64, modelled by the standard library's IEEE specification (binary64). *)

From Stdlib Require Import SpecFloat.
From S2P Require Import Prelude GoFloat.
Open Scope Z_scope.

Record config := MkConfig {
  attempts : Z; delay : Z; maxDelay : Z; multiplier : spec_float; jitter : spec_float; retryIf : error -> bool }.

Definition WithAttempts (n : Z) (c : config) : config :=
  MkConfig n (delay c) (maxDelay c) (multiplier c) (jitter c) (retryIf c).
Definition WithDelay (d : Z) (c : config) : config :=
  MkConfig (attempts c) d (maxDelay c) (multiplier c) (jitter c) (retryIf c).
Definition WithMaxDelay (d : Z) (c : config) : config :=
  MkConfig (attempts c) (delay c) d (multiplier c) (jitter c) (retryIf c).
Definition WithMultiplier (m : spec_float) (c : config) : config :=
  MkConfig (attempts c) (delay c) (maxDelay c) m (jitter c) (retryIf c).
Definition WithJitter (f : spec_float) (c : config) : config :=
  MkConfig (attempts c) (delay c) (maxDelay c) (multiplier c) f (retryIf c).
Definition WithRetryIf (p : error -> bool) (c : config) : config :=
  MkConfig (attempts c) (delay c) (maxDelay c) (multiplier c) (jitter c) p.

Definition newConfig (opts : list (config -> config)) : config :=
  let c := fold_left (fun c o => o c) opts
             (MkConfig 3 (100 * Millisecond) 0 f64_two (S754_zero false) (fun _ => true)) in
  if attempts c <? 1 then WithAttempts 1 c else c.

Fixpoint mul_iter (n : nat) (m d : spec_float) : spec_float :=
  match n with O => d | S n => mul_iter n m (f64_mul d m) end.

(** [rnd] is [rand.Float64()]. *)
Definition backoff (oob : Z) (rnd : spec_float) (c : config) (i : nat) : Z :=
  let d := mul_iter i (multiplier c) (f64_of_Z (delay c)) in
  let d := if (0 <? maxDelay c) && SFltb (f64_of_Z (maxDelay c)) d then f64_of_Z (maxDelay c) else d in
  let d := if SFltb (S754_zero false) (jitter c)
           then f64_mul d (f64_add (f64_sub f64_one (jitter c)) (f64_mul (f64_mul f64_two (jitter c)) rnd))
           else d in
  f64_to_int oob d.

(** [ctx.Err()] before the i-th attempt, the random draws, and the context's error if it ends during
    the i-th sleep. *)
Record env := Env { ctx_err : nat -> option error; rnd : nat -> spec_float; sleep_err : nat -> option error; oob : Z }.

Definition sleep (e : env) (i : nat) (d : Z) : option error := if d <=? 0 then None else sleep_err e i.

Section Do.
  Context {S : Type} (e : env) (c : config) (fn : S -> option error * S).

(** The loop with [left] attempts to go; the last component is the number of calls of [fn]. *)
Fixpoint do_loop (left i : nat) (last : option error) (s : S) : option error * S * nat :=
  match left with
  | O => (last, s, i)
  | Datatypes.S left' =>
      match ctx_err e i with
      | Some err => (Some err, s, i)
      | None =>
          match fn s with
          | (None, s') => (None, s', Datatypes.S i)
          | (Some err, s') =>
              if (match left' with O => true | _ => false end) || negb (retryIf c err)
              then (Some err, s', Datatypes.S i)
              else match sleep e i (backoff (oob e) (rnd e i) c i) with
                   | Some serr => (Some serr, s', Datatypes.S i)
                   | None => do_loop left' (Datatypes.S i) (Some err) s'
                   end
          end
      end
  end.
End Do.

Definition Do {S} (e : env) (fn : S -> option error * S) (opts : list (config -> config)) (s : S) : option error * S * nat :=
  let c := newConfig opts in do_loop e c fn (Z.to_nat (attempts c)) 0 None s.

(** [DoValue]: the closure stores the value in [out], a variable next to the state. *)
Definition DoValue {S T} (zero : T) (e : env) (fn : S -> (error + T) * S) (opts : list (config -> config)) (s : S)
    : (T * option error) * S * nat :=
  let '(err, (s', out), n) :=
    Do e (fun so : S * T => match fn so.1 with
                            | (inl err, s') => (Some err, (s', so.2))
                            | (inr v, s') => (None, (s', v))
                            end) opts (s, zero) in
  match err with Some err => ((zero, Some err), s', n) | None => ((out, None), s', n) end.

(** * Proofs *)

Section Proofs.
  Context {S : Type} (e : env) (fn : S -> option error * S).

(** [fn] run [n] times, dropping its results. *)
Fixpoint runs (n : nat) (s : S) : S := match n with O => s | Datatypes.S n => runs n (fn s).2 end.

Lemma runs_snoc n s : runs (Datatypes.S n) s = (fn (runs n s)).2.
Proof. revert s; induction n as [|n IH]; intros s; [done|]. exact (IH (fn s).2). Qed.

Lemma do_loop_spec c left i last s :
  let '(r, s', n) := do_loop e c fn left i last s in
  (i <= n <= i + left)%nat /\ s' = runs (n - i) s /\
  (forall j, (i <= j)%nat -> (Datatypes.S j < n)%nat -> exists err, (fn (runs (j - i) s)).1 = Some err /\ retryIf c err = true) /\
  ((0 < left)%nat ->
    match r with
    | None => (i < n)%nat /\ (fn (runs (n - 1 - i) s)).1 = None
    | Some err =>
        (ctx_err e n = Some err /\ (n < i + left)%nat) \/
        ((i < n)%nat /\ sleep_err e (n - 1) = Some err) \/
        ((i < n)%nat /\ (fn (runs (n - 1 - i) s)).1 = Some err /\ (n = (i + left)%nat \/ retryIf c err = false))
    end).
Proof.
  revert i last s; induction left as [|left IH]; intros i last s; cbn [do_loop].
  { split_and!; [lia|lia|by rewrite Nat.sub_diag|intros; lia|lia]. }
  destruct (ctx_err e i) as [cerr|] eqn:Hc.
  { split_and!; [lia|lia|by rewrite Nat.sub_diag|intros; lia|]. intros _. left. split; [done|lia]. }
  destruct (fn s) as [[err|] s1] eqn:Hfn.
  2: { replace (Datatypes.S i - i)%nat with 1%nat by lia. replace (Datatypes.S i - 1 - i)%nat with 0%nat by lia.
       simpl. rewrite Hfn. split_and!; [lia|lia|done|intros; lia|]. intros _. split; [lia|done]. }
  destruct ((match left with O => true | _ => false end) || negb (retryIf c err)) eqn:Hstop.
  { replace (Datatypes.S i - i)%nat with 1%nat by lia. replace (Datatypes.S i - 1 - i)%nat with 0%nat by lia.
    simpl. rewrite Hfn. split_and!; [lia|lia|done|intros; lia|]. intros _. right. right.
    split_and!; [lia|done|]. apply orb_true_iff in Hstop as [Hl|Hr]; [left; destruct left; [lia|done]|right].
    by apply negb_true_iff in Hr. }
  apply orb_false_iff in Hstop as [Hleft Hretry]. apply negb_false_iff in Hretry.
  destruct (sleep e i _) as [serr|] eqn:Hs.
  { replace (Datatypes.S i - i)%nat with 1%nat by lia. simpl. rewrite Hfn.
    split_and!; [lia|lia|done|intros; lia|]. intros _. right. left. split; [lia|].
    unfold sleep in Hs. rewrite ?Nat.sub_0_r. revert Hs; by destruct (_ <=? 0). }
  specialize (IH (Datatypes.S i) (Some err) s1). destruct (do_loop e c fn left (Datatypes.S i) (Some err) s1) as [[r s'] n].
  destruct IH as (Hn & Hs' & Hfail & Hres).
  assert (Hshift : forall k, (Datatypes.S i <= k)%nat -> runs (k - i) s = runs (k - Datatypes.S i) s1).
  { intros k Hk. replace (k - i)%nat with (Datatypes.S (k - Datatypes.S i)) by lia. simpl. by rewrite Hfn. }
  split_and!; [lia|lia|rewrite Hs'; symmetry; apply Hshift; lia| |].
  - intros j Hj Hjn. destruct (decide (j = i)) as [->|Hne].
    + rewrite Nat.sub_diag. simpl. rewrite Hfn. eauto.
    + rewrite Hshift by lia. apply Hfail; lia.
  - intros _. assert (Hpos : (0 < left)%nat) by (destruct left; [done|lia]). specialize (Hres Hpos). destruct r as [err'|].
    + destruct Hres as [[? ?]|[[? ?]|(? & Hlast & Hwhy)]]; [left; split; [done|lia]|right; left; split; [lia|done]|].
      right; right. split_and!; [lia| |destruct Hwhy; [left; lia|by right]].
      replace (n - 1 - i)%nat with (Datatypes.S (n - 1 - Datatypes.S i)) by lia. simpl. by rewrite Hfn.
    + destruct Hres as [? Hlast]. split; [lia|].
      replace (n - 1 - i)%nat with (Datatypes.S (n - 1 - Datatypes.S i)) by lia. simpl. by rewrite Hfn.
Qed.

Lemma newConfig_attempts opts : 1 <= attempts (newConfig opts).
Proof. unfold newConfig. destruct (Z.ltb_spec (attempts (fold_left (fun c o => o c) opts
  (MkConfig 3 (100 * Millisecond) 0 f64_two (S754_zero false) (fun _ => true)))) 1); simpl; lia. Qed.

(** [Do] calls [fn] some number [n] of times, at most [attempts], every call but the last one
    having failed with a retryable error. It returns nil exactly when the last call succeeded,
    and otherwise the last call's error with the attempts exhausted or the error not retryable,
    or the context's error. *)
Theorem Do_spec opts s :
  let c := newConfig opts in
  let '(r, s', n) := Do e fn opts s in
  Z.of_nat n <= attempts c /\ s' = runs n s /\
  (forall j, (Datatypes.S j < n)%nat -> exists err, (fn (runs j s)).1 = Some err /\ retryIf c err = true) /\
  match r with
  | None => (0 < n)%nat /\ (fn (runs (n - 1) s)).1 = None
  | Some err =>
      (ctx_err e n = Some err /\ Z.of_nat n < attempts c) \/
      ((0 < n)%nat /\ sleep_err e (n - 1) = Some err) \/
      ((0 < n)%nat /\ (fn (runs (n - 1) s)).1 = Some err /\ (Z.of_nat n = attempts c \/ retryIf c err = false))
  end.
Proof.
  intros c. pose proof (newConfig_attempts opts) as Hat. fold c in Hat. unfold Do. fold c.
  pose proof (do_loop_spec c (Z.to_nat (attempts c)) 0 None s) as Hl.
  destruct (do_loop _ _ _ _ _ _ _) as [[r s'] n]. destruct Hl as (Hn & Hs & Hf & Hr).
  rewrite Nat.sub_0_r in Hs. split_and!; [lia|done| |].
  - intros j Hj. specialize (Hf j ltac:(lia) Hj). by rewrite Nat.sub_0_r in Hf.
  - specialize (Hr ltac:(lia)). rewrite !Nat.sub_0_r in Hr. destruct r as [err|]; [|done].
    destruct Hr as [[? ?]|[?|(? & ? & Hwhy)]]; [left; split; [done|lia]|by right; left|right; right].
    split_and!; [done..|]. destruct Hwhy; [left; lia|by right].
Qed.
End Proofs.

(** The default delays: 100ms, 200ms, 400ms, and a cap. *)
Example backoff_default i : (i < 4)%nat -> backoff 0 f64_one (newConfig []) i = 100 * Millisecond * 2 ^ Z.of_nat i.
Proof. intros Hi. do 4 (destruct i as [|i]; [vm_compute; reflexivity|]). lia. Qed.

Example backoff_capped : backoff 0 f64_one (newConfig [WithMaxDelay (300 * Millisecond)]) 7 = 300 * Millisecond.
Proof. vm_compute. reflexivity. Qed.

(** Counting up to success on the third call. *)
Definition third (n : Z) : option error * Z := (if n <? 2 then Some (Err "not yet") else None, n + 1).
Definition calm : env := Env (fun _ => None) (fun _ => f64_one) (fun _ => None) 0.

Lemma Do_spec_witness : (Do calm third [] 0) = (None, 3, 3%nat) /\ Z.of_nat (Do calm third [] 0).2 <= 3.
Proof.
  split; [vm_compute; reflexivity|]. pose proof (Do_spec calm third [] 0) as Hd. cbv zeta in Hd.
  destruct (Do calm third [] 0) as [[r s'] n]. destruct Hd as [Hd _]. exact Hd.
Defined.
