(* ===== verification/Parser.v ===== *)
(** * Query modifiers (parser/parser.go, parser/keyset.go)

    A modifier is modelled by the calls it makes on bun's query builder, recorded in order:
    predicates with their bound arguments, order expressions, offset and limit. *)

From S2P Require Import Prelude GoStrings Fiber GoJson.
Open Scope Z_scope.

(** What has been asked of a bun [SelectQuery]. *)
Record SelectQuery := MkQuery {
  q_where : list (string * list any); q_order : list string; q_limit : option Z; q_offset : option Z }.
Definition empty_query : SelectQuery := MkQuery [] [] None None.
Definition Where (pred : string) (args : list any) (q : SelectQuery) : SelectQuery :=
  MkQuery (q_where q ++ [(pred, args)]) (q_order q) (q_limit q) (q_offset q).
Definition OrderExpr (e : string) (q : SelectQuery) : SelectQuery :=
  MkQuery (q_where q) (q_order q ++ [e]) (q_limit q) (q_offset q).
Definition Limit (n : Z) (q : SelectQuery) : SelectQuery := MkQuery (q_where q) (q_order q) (Some n) (q_offset q).
Definition Offset (n : Z) (q : SelectQuery) : SelectQuery := MkQuery (q_where q) (q_order q) (q_limit q) (Some n).

(** ** parser.go *)

Record PaginationQuery := MkPQ { Page : Z; PLimit : Z; Search_ : string; Sort : string; Order : string }.

Definition slices_Contains (l : list string) (x : string) : bool := existsb (String.eqb x) l.

Definition Validate (p : PaginationQuery) (sortOptions : list string) : option string :=
  let errs :=
    (if Page p <? 0 then ["page must not be negative"%string] else []) ++
    (if PLimit p <? 0 then ["limit must not be negative"%string] else []) ++
    (if negb (String.eqb (Sort p) EmptyString) && negb (slices_Contains sortOptions (Sort p))
     then ["sort must be one of " +:+ join ", " sortOptions] else []) ++
    (if negb (String.eqb (Order p) EmptyString) && negb (String.eqb (Order p) "asc") && negb (String.eqb (Order p) "desc")
     then ["order must be one of asc or desc"%string] else []) in
  match errs with [] => None | _ => Some ("validation failed: " +:+ join ", " errs) end.

Definition identifier_char (c : ascii) : bool :=
  is_lower c || is_upper c || is_digit c || Ascii.eqb c "_" || Ascii.eqb c ".".
Definition isSimpleIdentifier (s : string) : bool := negb (String.eqb s EmptyString) && sforall identifier_char s.

Definition applySearch (search : string) (cols : list string) (q : SelectQuery) : SelectQuery :=
  if String.eqb search EmptyString || (match cols with [] => true | _ => false end) then q
  else Where (join " ILIKE ? OR " cols +:+ " ILIKE ?") (map (fun _ => AStr ("%" +:+ (search +:+ "%"))) cols) q.

Definition applySorting (sort order : string) (q : SelectQuery) : SelectQuery :=
  if String.eqb sort EmptyString || String.eqb order EmptyString then q
  else
    let order := to_lower order in
    if negb (String.eqb order "asc") && negb (String.eqb order "desc") then q
    else if negb (isSimpleIdentifier sort) then q
    else OrderExpr (sort +:+ (" " +:+ order)) q.

(** The query parameters are normalised in place. *)
Definition applyPaginationDefaults (pq : PaginationQuery) (q : SelectQuery) : PaginationQuery * SelectQuery :=
  let page := if Page pq <=? 0 then 1 else Page pq in
  let limit := if PLimit pq <=? 0 then 10 else PLimit pq in
  (MkPQ page limit (Search_ pq) (Sort pq) (Order pq), Limit limit (Offset (wrap64 ((page - 1) * limit)) q)).

Definition Paginate (pq : PaginationQuery) (cols : list string) (q : SelectQuery) : PaginationQuery * SelectQuery :=
  applyPaginationDefaults pq (applySorting (Sort pq) (Order pq) (applySearch (Search_ pq) cols q)).

Definition Count : string -> list string -> SelectQuery -> SelectQuery := applySearch.

(** ** keyset.go *)

Definition defaultKeysetLimit : Z := 10.
Record KeysetColumn := MkCol { Name : string; Desc : bool }.
Record KeysetQuery := MkKQ { KLimit : Z; Cursor : string; Before : bool }.

Definition keysetColumnsValid (cols : list KeysetColumn) : bool := forallb (fun c => isSimpleIdentifier (Name c)) cols.

(** One group per column: equality on the columns before it ([prev]), then the comparison. *)
Fixpoint seek_groups (before : bool) (prev rest : list (KeysetColumn * any)) : list string * list any :=
  match rest with
  | [] => ([], [])
  | (c, v) :: rest =>
      let op := if Bool.eqb (Desc c) before then ">"%string else "<"%string in
      let parts := map (fun p => Name p.1 +:+ " = ?") prev ++ [Name c +:+ (" " +:+ (op +:+ " ?"))] in
      let '(groups, args) := seek_groups before (prev ++ [(c, v)]) rest in
      (("(" +:+ (join " AND " parts +:+ ")")) :: groups, map snd prev ++ v :: args)
  end.

Definition buildSeek (cols : list KeysetColumn) (vals : list any) (before : bool) : string * list any :=
  let '(groups, args) := seek_groups before [] (zip cols vals) in
  ("(" +:+ (join " OR " groups +:+ ")"), args).

Definition EncodeCursor (vals : list any) : string := b64_encode (marshal (AList vals)).

(** [None]: an error, for text that is not base64 or not a JSON array. *)
Definition DecodeCursor (s : string) : option (list any) := b ← b64_decode s; unmarshal_slice b.

Definition keyset_limit (kq : KeysetQuery) : Z := if KLimit kq <=? 0 then defaultKeysetLimit else KLimit kq.

Definition order_text (before : bool) (c : KeysetColumn) : string :=
  Name c +:+ (" " +:+ (if Bool.eqb (Desc c) before then "ASC" else "DESC")).

Definition Keyset (kq : KeysetQuery) (cols : list KeysetColumn) (q : SelectQuery) : SelectQuery :=
  let limit := keyset_limit kq in
  if (match cols with [] => true | _ => false end) || negb (keysetColumnsValid cols) then Limit (wrap64 (limit + 1)) q
  else
    let q :=
      if String.eqb (Cursor kq) EmptyString then q
      else match DecodeCursor (Cursor kq) with
           | Some vals =>
               if (length vals =? length cols)%nat
               then let '(pred, args) := buildSeek cols vals (Before kq) in Where pred args q
               else q
           | None => q
           end in
    Limit (wrap64 (limit + 1)) (fold_left (fun q c => OrderExpr (order_text (Before kq) c) q) cols q).

(** * Lemmas and properties *)

Lemma DecodeCursor_EncodeCursor vals : forallb encodable vals = true ->
  DecodeCursor (EncodeCursor vals) = Some (map json_any vals).
Proof.
  intros Hv. unfold DecodeCursor, EncodeCursor. rewrite b64_decode_encode. unfold mbind, option_bind, unmarshal_slice.
  by rewrite (unmarshal_marshal (AList vals) Hv).
Qed.

Lemma EncodeCursor_nonempty vals : EncodeCursor vals <> EmptyString.
Proof. apply b64_encode_nonempty. done. Qed.

(** Cursors round-trip: a cursor made of integers, strings, booleans and nulls decodes to the
    same values, the integers as float64; below 2^53 that is the same number. *)
Theorem cursor_roundtrip vals :
  forallb encodable vals = true ->
  DecodeCursor (EncodeCursor vals) = Some (map json_any vals) /\
  (forall z, AInt z ∈ vals -> Z.abs z < 2 ^ 53 -> json_any (AInt z) = AFloat z).
Proof.
  intros Hv. split; [by apply DecodeCursor_EncodeCursor|]. intros z _ Hz. simpl. by rewrite round53_small.
Qed.

(** Above 2^53 two consecutive keys share one cursor. *)
Lemma cursor_collapses_large_ids :
  DecodeCursor (EncodeCursor [AInt (2 ^ 53)]) = DecodeCursor (EncodeCursor [AInt (2 ^ 53 + 1)]).
Proof. vm_compute. reflexivity. Qed.

Lemma fold_order cols before q :
  fold_left (fun q c => OrderExpr (order_text before c) q) cols q =
    MkQuery (q_where q) (q_order q ++ map (order_text before) cols) (q_limit q) (q_offset q).
Proof.
  revert q; induction cols as [|c cols IH]; intros q; simpl; [destruct q; simpl; by rewrite app_nil_r|].
  rewrite IH. simpl. by rewrite <- app_assoc.
Qed.

(** The text of a seek predicate does not depend on the values. *)
Lemma seek_groups_text before rest : forall prev prev' rest', map fst prev = map fst prev' -> map fst rest = map fst rest' ->
  (seek_groups before prev rest).1 = (seek_groups before prev' rest').1.
Proof.
  induction rest as [|[c v] rest IH]; intros prev prev' [|[c' v'] rest'] Hp Hr; try done.
  injection Hr as <- Hr. simpl.
  specialize (IH (prev ++ [(c, v)]) (prev' ++ [(c, v')]) rest' ltac:(by rewrite !map_app, Hp) Hr).
  assert (Hm : forall l : list (KeysetColumn * any), map (fun p => Name p.1 +:+ " = ?") l = map (fun c => Name c +:+ " = ?") (map fst l))
    by (intros l; by rewrite map_map).
  destruct (seek_groups before (prev ++ _) rest), (seek_groups before (prev' ++ _) rest'). simpl in *. rewrite IH.
  by rewrite !Hm, Hp.
Qed.

Lemma buildSeek_text cols vals vals' before : length vals = length cols -> length vals' = length cols ->
  (buildSeek cols vals before).1 = (buildSeek cols vals' before).1.
Proof.
  intros Hl Hl'. unfold buildSeek.
  pose proof (seek_groups_text before (zip cols vals) [] [] (zip cols vals') eq_refl) as Ht.
  assert (Hz : forall vs : list any, length vs = length cols -> map fst (zip cols vs) = cols)
    by (intros vs Hvs; apply fst_zip; lia).
  rewrite !Hz in Ht by done. specialize (Ht eq_refl).
  destruct (seek_groups before [] (zip cols vals)), (seek_groups before [] (zip cols vals')). simpl in *. by rewrite Ht.
Qed.

(** A plain identifier and a direction. *)
Definition plain_order (e : string) : Prop :=
  exists n d, e = n +:+ (" " +:+ d) /\ isSimpleIdentifier n = true /\ (d = "asc" \/ d = "desc" \/ d = "ASC" \/ d = "DESC")%string.

Lemma applySearch_spec search cols :
  let q := applySearch search cols empty_query in q_order q = [] /\ Forall (fun w => w.1 = join " ILIKE ? OR " cols +:+ " ILIKE ?") (q_where q).
Proof. unfold applySearch. destruct (_ || _); simpl; split; by repeat constructor. Qed.

Lemma applySorting_spec sort order q : q_order q = [] ->
  Forall plain_order (q_order (applySorting sort order q)) /\ q_where (applySorting sort order q) = q_where q.
Proof.
  intros Hq. assert (Hn : Forall plain_order (q_order q) /\ q_where q = q_where q) by (rewrite Hq; split; [constructor|done]).
  unfold applySorting. destruct (_ || _); [done|].
  destruct (String.eqb_spec (to_lower order) "asc"), (String.eqb_spec (to_lower order) "desc"); simpl; try done;
    (destruct (isSimpleIdentifier sort) eqn:Hid; simpl; [|done]); (split; [|done]); rewrite Hq; repeat constructor; eexists _, _; split_and!; [reflexivity|done|auto..].
Qed.

(** The condition of a keyset page, with its values apart. *)
Lemma Keyset_query kq kcols : let q := Keyset kq kcols empty_query in
  (q_order q = [] \/ (keysetColumnsValid kcols = true /\ q_order q = map (order_text (Before kq)) kcols)) /\
  Forall (fun w => w.1 = (buildSeek kcols (map (fun _ => ANil) kcols) (Before kq)).1) (q_where q).
Proof.
  cbv zeta. unfold Keyset. destruct (_ || negb _) eqn:Hv; [split; [by left|constructor]|]. apply orb_false_iff in Hv as [_ Hv]. apply negb_false_iff in Hv.
  rewrite fold_order. simpl. destruct (String.eqb _ _); [split; [by right|constructor]|]. destruct (DecodeCursor _) as [vals|]; [|split; [by right|constructor]].
  destruct (Nat.eqb_spec (length vals) (length kcols)) as [Hl|]; [|split; [by right|constructor]].
  pose proof (buildSeek_text kcols vals (map (fun _ => ANil) kcols) (Before kq) Hl ltac:(by rewrite length_map)) as Ht.
  destruct (buildSeek kcols vals (Before kq)). simpl in *. split; [by right|by repeat constructor].
Qed.

(** (C36) No SQL injection through paging parameters: whatever the request's search, sort, order,
    cursor and limit, each order expression is a plain identifier followed by one of the
    directions, and the text of every predicate is made from the server's column names alone. *)
Theorem paging_injection_free pq kq cols kcols :
  Forall plain_order (q_order (Paginate pq cols empty_query).2) /\
  Forall plain_order (q_order (Keyset kq kcols empty_query)) /\
  Forall (fun w => w.1 = join " ILIKE ? OR " cols +:+ " ILIKE ?") (q_where (Paginate pq cols empty_query).2) /\
  Forall (fun w => w.1 = (buildSeek kcols (map (fun _ => ANil) kcols) (Before kq)).1) (q_where (Keyset kq kcols empty_query)).
Proof.
  destruct (applySearch_spec (Search_ pq) cols) as [Hso Hsw]. destruct (applySorting_spec (Sort pq) (Order pq) _ Hso) as [Ho Hw].
  destruct (Keyset_query kq kcols) as [Hko Hkw]. split_and!; [exact Ho| | |exact Hkw].
  - destruct Hko as [-> |[Hv ->]]; [constructor|]. apply Forall_fmap, Forall_forall. intros c Hc. unfold compose, order_text.
    eexists _, _. split_and!; [reflexivity| |destruct (Bool.eqb _ _); auto].
    unfold keysetColumnsValid in Hv. rewrite forallb_forall in Hv. apply Hv. by apply list_elem_of_In.
  - unfold Paginate, applyPaginationDefaults. simpl. by rewrite Hw.
Qed.

Lemma cursor_roundtrip_witness :
  forallb encodable [AStr "a"; AInt 7] = true /\
  DecodeCursor (EncodeCursor [AStr "a"; AInt 7]) = Some [AStr "a"; AFloat 7].
Proof.
  split; [reflexivity|]. destruct (cursor_roundtrip [AStr "a"; AInt 7] eq_refl) as [-> _]. reflexivity.
Defined.
