(* ===== verification/Pagination.v ===== *)
(** * Result pages (pagination/pagination.go, pagination/cursor.go) and keyset paging end to end

    The database is given by what the SQL this package generates means: [sql_means] reads the
    seek predicates, [selects] says which rows a query returns. Keyset paging is proved to walk
    a uniquely ordered table page by page. *)

From S2P Require Import Prelude GoStrings Fiber GoJson Parser.
Open Scope Z_scope.

Record Pagination (T : Type) := MkPagination {
  Data : list T; PageSize : Z; Count : Z; TotalCount : Z; PageCount : Z; PageNumber : Z; StartNumber : Z }.
Arguments MkPagination {T}. Arguments Data {T}. Arguments PageSize {T}. Arguments Count {T}.
Arguments TotalCount {T}. Arguments PageCount {T}. Arguments PageNumber {T}. Arguments StartNumber {T}.

Definition NewPagination {T} (items : list T) (pageSize pageNumber totalCount : Z) : Pagination T :=
  let pageNumber := if pageNumber <? 1 then 1 else pageNumber in
  let '(pageCount, startNumber) :=
    if 0 <? pageSize then
      let q := Z.quot totalCount pageSize in
      (wrap64 (if negb (Z.rem totalCount pageSize =? 0) then q + 1 else q), wrap64 (wrap64 ((pageNumber - 1) * pageSize) + 1))
    else (0, 0) in
  MkPagination items pageSize (Z.of_nat (length items)) totalCount pageCount pageNumber startNumber.

(** ** Cursor pages *)

Record CursorPage (T : Type) := MkCursorPage { CData : list T; NextCursor : string; PrevCursor : string }.
Arguments MkCursorPage {T}. Arguments CData {T}. Arguments NextCursor {T}. Arguments PrevCursor {T}.

(** The loop [out[len(s)-1-i] = v]. *)
Fixpoint reversed_go {T} (s : list T) (i : nat) (n : nat) (out : list T) : list T :=
  match s with [] => out | v :: s => reversed_go s (S i) n (<[(n - 1 - i)%nat := v]> out) end.
Definition reversed {T} (zero : T) (s : list T) : list T := reversed_go s 0 (length s) (replicate (length s) zero).

Definition NewCursorPage {T} (zero : T) (rows : list T) (kq : KeysetQuery) (extract : T -> list any) : CursorPage T :=
  let limit := if KLimit kq <=? 0 then 10 else KLimit kq in
  let hasExtra := limit <? Z.of_nat (length rows) in
  let kept := if hasExtra then take (Z.to_nat limit) rows else rows in
  let kept := if Before kq then reversed zero kept else kept in
  match kept with
  | [] => MkCursorPage kept EmptyString EmptyString
  | x :: _ =>
      let first := EncodeCursor (extract x) in
      let last := EncodeCursor (extract (List.last kept x)) in
      if Before kq then MkCursorPage kept last (if hasExtra then first else EmptyString)
      else MkCursorPage kept (if hasExtra then last else EmptyString)
             (if String.eqb (Cursor kq) EmptyString then EmptyString else first)
  end.

Lemma reversed_go_spec {T} (s done_ : list T) (out : list T) :
  length out = length s ->
  reversed_go s (length done_) (length done_ + length s)%nat (out ++ done_) = rev s ++ done_.
Proof.
  revert done_ out; induction s as [|v s IH]; intros done_ out Hl.
  - destruct out; [done|discriminate Hl].
  - destruct (exists_last (l := out)) as (out' & x & ->); [by destruct out|].
    rewrite length_app in Hl. simpl in Hl. simpl reversed_go.
    replace (length done_ + S (length s) - 1 - length done_)%nat with (length out' + 0)%nat by lia.
    rewrite <- app_assoc, insert_app_r. simpl. specialize (IH (v :: done_) out' ltac:(lia)). simpl in IH.
    replace (length done_ + S (length s))%nat with (S (length done_ + length s)) by lia. rewrite IH.
    by rewrite <- app_assoc.
Qed.

Lemma reversed_rev {T} (zero : T) s : reversed zero s = rev s.
Proof.
  unfold reversed. pose proof (reversed_go_spec s [] (replicate (length s) zero) (length_replicate _ _)) as Hr.
  by rewrite !app_nil_r in Hr.
Qed.

(** Page metadata: for counts and sizes a page can have, [PageCount] is the least number of
    pages that hold all items and [StartNumber] the rank of the page's first item; a
    non-positive size gives zeros and a page number below one becomes one. *)
Theorem NewPagination_spec {T} (items : list T) size num total :
  0 <= total <= int_max -> 0 < size -> in_int (num * size + 1) ->
  let p := NewPagination items size num total in
  (PageCount p - 1) * size < total <= PageCount p * size /\
  StartNumber p = (Z.max 1 num - 1) * size + 1 /\ PageNumber p = Z.max 1 num /\ Data p = items.
Proof.
  intros Ht Hs Hn. unfold NewPagination. rewrite (proj2 (Z.ltb_lt 0 size) Hs). simpl.
  assert (Hq : 0 <= Z.quot total size <= total) by (split; [apply Z.quot_pos; lia|apply Z.quot_le_upper_bound; nia]).
  pose proof (Z.quot_rem total size ltac:(lia)) as Hqr. pose proof (Z.rem_bound_pos total size ltac:(lia) Hs) as Hr.
  unfold in_int, int_min, int_max in *.
  assert (Hmax : (if num <? 1 then 1 else num) = Z.max 1 num) by (destruct (Z.ltb_spec num 1); lia).
  rewrite Hmax, !(wrap64_id ((Z.max 1 num - 1) * size)), !(wrap64_id ((Z.max 1 num - 1) * size + 1))
    by (unfold in_int, int_min, int_max; destruct (Z.max_spec 1 num) as [[? ->]|[? ->]]; nia).
  split_and!; try done; destruct (Z.eqb_spec (Z.rem total size) 0) as [He|He]; simpl.
  all: rewrite wrap64_id by (unfold in_int, int_min, int_max; nia); nia.
Qed.

(** * Keyset paging end to end *)

Section Keyset.
  (** A row's columns, and how the database compares a column value with a bound argument. *)
  Context {Row : Type} (zero : Row) (col : Row -> string -> any) (cmp : any -> any -> comparison).
  Context (cmp_refl : forall v, cmp v v = Eq) (cmp_sym : forall v w, cmp w v = CompOpp (cmp v w)).

(** ** The SQL of a seek predicate *)

Record atom := Atom { a_name : string; a_op : comparison; a_arg : any }.
Definition op_text (o : comparison) : string := match o with Eq => "=" | Lt => "<" | Gt => ">" end.
Definition atom_text (a : atom) : string := a_name a +:+ (" " +:+ (op_text (a_op a) +:+ " ?")).
Definition atom_holds (r : Row) (a : atom) : bool :=
  match cmp (col r (a_name a)) (a_arg a), a_op a with Eq, Eq | Lt, Lt | Gt, Gt => true | _, _ => false end.

(** A disjunction of parenthesised conjunctions, in parentheses; arguments bind in order. *)
Definition dnf_text (d : list (list atom)) : string :=
  "(" +:+ (join " OR " (map (fun c => "(" +:+ (join " AND " (map atom_text c) +:+ ")")) d) +:+ ")").
Definition dnf_args (d : list (list atom)) : list any := concat (map (map a_arg) d).
Definition dnf_holds (r : Row) (d : list (list atom)) : bool := existsb (forallb (atom_holds r)) d.

(** The predicate a text with bound arguments stands for; [sql_unambiguous] shows there is one. *)
Definition dnf_wf (d : list (list atom)) : Prop :=
  d <> [] /\ Forall (fun c => c <> [] /\ Forall (fun a => isSimpleIdentifier (a_name a) = true) c) d.
Definition sql_means (w : string * list any) (d : list (list atom)) : Prop := dnf_wf d /\ w = (dnf_text d, dnf_args d).

Lemma name_cancel n n' r r' : isSimpleIdentifier n = true -> isSimpleIdentifier n' = true ->
  n +:+ String " " r = n' +:+ String " " r' -> n = n' /\ r = r'.
Proof.
  assert (Hsp : forall m, isSimpleIdentifier m = true -> contains_char " " m = false).
  { unfold isSimpleIdentifier. intros m [_ Hm]%andb_true_iff. by apply (sforall_not_contains " " identifier_char). }
  intros Hn%Hsp Hn'%Hsp Heq. pose proof (cut_app " " n r Hn) as H1. rewrite Heq, (cut_app " " n' r' Hn') in H1.
  by injection H1.
Qed.

Lemma conj_cancel c : forall c' r r', c <> [] -> c' <> [] ->
  Forall (fun a => isSimpleIdentifier (a_name a) = true) c -> Forall (fun a => isSimpleIdentifier (a_name a) = true) c' ->
  join " AND " (map atom_text c) +:+ String ")" r = join " AND " (map atom_text c') +:+ String ")" r' ->
  map (fun a => (a_name a, a_op a)) c = map (fun a => (a_name a, a_op a)) c' /\ r = r'.
Proof.
  assert (Hjoin : forall (x : string) l, l <> [] -> join " AND " (x :: l) = x +:+ (" AND " +:+ join " AND " l))
    by (intros x [|y l]; done).
  induction c as [|a c IH]; intros [|a' c'] r r' Hc Hc' Hv Hv' Heq; try done.
  apply Forall_cons in Hv as [Ha Hv]. apply Forall_cons in Hv' as [Ha' Hv'].
  assert (Hstep : forall b d q, join " AND " (map atom_text (b :: d)) +:+ String ")" q =
    a_name b +:+ String " " (op_text (a_op b) +:+ (" ?" +:+
      (match d with [] => String ")" q | _ => " AND " +:+ (join " AND " (map atom_text d) +:+ String ")" q) end)))).
  { intros b [|b' d] q; unfold map at 1, join at 1; fold (map atom_text); unfold atom_text at 1.
    - by rewrite <- !string_app_assoc.
    - change (join " AND " (map atom_text (b :: b' :: d))) with (atom_text b +:+ (" AND " +:+ join " AND " (map atom_text (b' :: d)))).
      unfold atom_text at 1. by rewrite <- !string_app_assoc. }
  rewrite !Hstep in Heq. apply name_cancel in Heq as [Hn Heq]; [|done..].
  assert (Hop : a_op a = a_op a' /\ (match c with [] => String ")" r | _ => " AND " +:+ (join " AND " (map atom_text c) +:+ String ")" r) end) =
     (match c' with [] => String ")" r' | _ => " AND " +:+ (join " AND " (map atom_text c') +:+ String ")" r') end)).
  { destruct (a_op a), (a_op a'); try discriminate Heq; injection Heq as Heq; auto. }
  destruct Hop as [Ho Hrest]. simpl. rewrite Hn, Ho.
  destruct c as [|b c], c' as [|b' c']; [|discriminate Hrest..|].
  - injection Hrest as ->. done.
  - apply string_app_inj_l in Hrest. destruct (IH (b' :: c') r r' ltac:(done) ltac:(done) Hv Hv' Hrest) as [Hm ->].
    split; [|done]. simpl in Hm |- *. congruence.
Qed.

Lemma dnf_cancel : forall d d', dnf_wf d -> dnf_wf d' ->
  join " OR " (map (fun c => "(" +:+ (join " AND " (map atom_text c) +:+ ")")) d) +:+ ")" =
  join " OR " (map (fun c => "(" +:+ (join " AND " (map atom_text c) +:+ ")")) d') +:+ ")" ->
  map (map (fun a => (a_name a, a_op a))) d = map (map (fun a => (a_name a, a_op a))) d'.
Proof.
  assert (Hstep : forall c d, join " OR " (map (fun c => "(" +:+ (join " AND " (map atom_text c) +:+ ")")) (c :: d)) +:+ ")" =
    String "(" (join " AND " (map atom_text c) +:+ String ")"
      (match d with [] => ")" | _ => " OR " +:+ (join " OR " (map (fun c => "(" +:+ (join " AND " (map atom_text c) +:+ ")")) d) +:+ ")") end))).
  { intros c [|c' d].
    - simpl. rewrite string_app_cons, string_app_nil_l, string_app_cons, <- string_app_assoc. done.
    - change (join " OR " (map ?f (c :: c' :: d))) with (f c +:+ (" OR " +:+ join " OR " (map f (c' :: d)))).
      cbv beta. rewrite <- !string_app_assoc. done. }
  intros d. induction d as [|c d IH]; intros [|c' d'] [Hd Hw] [Hd' Hw'] Heq; try done.
  apply Forall_cons in Hw as [[Hc Hv] Hw]. apply Forall_cons in Hw' as [[Hc' Hv'] Hw'].
  rewrite !Hstep in Heq. injection Heq as Heq. apply conj_cancel in Heq as [Hm Hrest]; [|done..].
  cbn [map]. rewrite Hm. f_equal. destruct d as [|e d], d' as [|e' d']; [done|discriminate Hrest..|].
  apply string_app_inj_l in Hrest. apply IH; done.
Qed.

Lemma sql_unambiguous w d d' : sql_means w d -> sql_means w d' -> d = d'.
Proof.
  intros [Hw ->] [Hw' Heq]. injection Heq as Ht Ha. unfold dnf_text in Ht. apply string_app_inj_l in Ht.
  pose proof (dnf_cancel d d' Hw Hw' Ht) as Hs. clear Hw Hw' Ht. unfold dnf_args in Ha.
  revert d' Ha Hs; induction d as [|c d IH]; intros [|c' d'] Ha Hs; try done.
  injection Hs as Hc Hs. simpl in Ha.
  assert (Hl : length (map a_arg c) = length (map a_arg c')) by (rewrite !length_map, <- (length_map (fun a => (a_name a, a_op a)) c), Hc; by rewrite length_map).
  apply app_inj_1 in Ha as [Hca Ha]; [|done]. f_equal; [|by apply IH].
  clear -Hc Hca. revert c' Hc Hca; induction c as [|a c IH]; intros [|a' c'] Hc Hca; try done.
  injection Hc as Hn Ho Hc. injection Hca as Hx Hca. f_equal; [|by apply IH]. destruct a, a'. simpl in *. congruence.
Qed.

Lemma order_text_inj b b' c c' : order_text b c = order_text b' c' ->
  Name c = Name c' /\ Bool.eqb (Desc c) b = Bool.eqb (Desc c') b'.
Proof.
  unfold order_text. assert (Hrev : forall s t u v : string, s +:+ t = u +:+ v -> String.length t = String.length v -> s = u /\ t = v).
  { induction s as [|x s IH]; intros t [|y u] v Heq Hl; rewrite ?string_app_cons, ?string_app_nil_l in Heq.
    - done.
    - subst t. simpl in Hl. rewrite string_app_length in Hl. lia.
    - subst v. simpl in Hl. rewrite string_app_length in Hl. lia.
    - injection Heq as -> Heq. destruct (IH _ _ _ Heq Hl) as [-> ->]. done. }
  destruct (Bool.eqb (Desc c) b), (Bool.eqb (Desc c') b'); intros Heq.
  - apply Hrev in Heq as [? _]; done.
  - exfalso. assert (Heq' : (Name c) +:+ " ASC" = (Name c' +:+ " ") +:+ "DESC") by (rewrite <- string_app_assoc; exact Heq).
    apply Hrev in Heq' as [_ Hx]; done.
  - exfalso. assert (Heq' : (Name c +:+ " ") +:+ "DESC" = (Name c') +:+ " ASC") by (rewrite <- string_app_assoc; exact Heq).
    apply Hrev in Heq' as [_ Hx]; done.
  - apply Hrev in Heq as [? _]; done.
Qed.

(** Lexicographic order on keyset columns, in their effective directions. *)
Fixpoint lexcmp (before : bool) (cols : list KeysetColumn) (xs ys : list any) : comparison :=
  match cols, xs, ys with
  | c :: cols, x :: xs, y :: ys =>
      match cmp x y with
      | Eq => lexcmp before cols xs ys
      | o => if Bool.eqb (Desc c) before then o else CompOpp o
      end
  | _, _, _ => Eq
  end.

Definition key_of (cols : list KeysetColumn) (r : Row) : list any := map (fun c => col r (Name c)) cols.

(** [selects table q rows]: the query returns [rows]. The rows satisfying every predicate, in an
    order the ORDER BY allows, cut to the limit. *)
Definition selects (table : list Row) (q : SelectQuery) (rows : list Row) : Prop :=
  exists ds before cols sorted n,
    Forall2 sql_means (q_where q) ds /\ q_order q = map (order_text before) cols /\ q_limit q = Some n /\
    q_offset q = None /\ 0 <= n /\
    sorted ≡ₚ List.filter (fun r => forallb (dnf_holds r) ds) table /\
    StronglySorted (fun a b => lexcmp before cols (key_of cols a) (key_of cols b) <> Gt) sorted /\
    rows = take (Z.to_nat n) sorted.

(** ** [buildSeek] means "strictly after the cursor" *)

Definition seek_op (before : bool) (c : KeysetColumn) : comparison := if Bool.eqb (Desc c) before then Gt else Lt.

Fixpoint seek_dnf (before : bool) (prev rest : list (KeysetColumn * any)) : list (list atom) :=
  match rest with
  | [] => []
  | (c, v) :: rest =>
      (map (fun p => Atom (Name p.1) Eq p.2) prev ++ [Atom (Name c) (seek_op before c) v]) ::
      seek_dnf before (prev ++ [(c, v)]) rest
  end.

Lemma seek_groups_dnf before prev rest :
  seek_groups before prev rest =
    (map (fun c => "(" +:+ (join " AND " (map atom_text c) +:+ ")")) (seek_dnf before prev rest),
     dnf_args (seek_dnf before prev rest)).
Proof.
  revert prev; induction rest as [|[c v] rest IH]; intros prev; [done|]. simpl. rewrite IH.
  unfold dnf_args. simpl. f_equal.
  - f_equal. do 2 f_equal. f_equal. rewrite map_app, map_map. simpl. f_equal. f_equal. unfold atom_text, seek_op. simpl.
    by destruct (Bool.eqb _ _).
  - rewrite map_app, map_map. simpl. by rewrite <- app_assoc.
Qed.

Lemma seek_dnf_wf before prev rest :
  Forall (fun p => isSimpleIdentifier (Name p.1) = true) prev -> Forall (fun p => isSimpleIdentifier (Name p.1) = true) rest ->
  Forall (fun c => c <> [] /\ Forall (fun a => isSimpleIdentifier (a_name a) = true) c) (seek_dnf before prev rest).
Proof.
  intros Hp Hr. revert prev Hp; induction Hr as [|[c v] rest Hc Hr IH]; intros prev Hp; simpl; constructor.
  - split; [by destruct prev|]. apply Forall_app. split; [|by repeat constructor].
    apply Forall_fmap. eapply Forall_impl; [exact Hp|done].
  - apply IH. apply Forall_app. split; [done|by repeat constructor].
Qed.

Lemma buildSeek_means cols vals before : cols <> [] -> keysetColumnsValid cols = true -> length vals = length cols ->
  sql_means (buildSeek cols vals before) (seek_dnf before [] (zip cols vals)).
Proof.
  intros Hne Hv Hl. split; [split|].
  - by destruct cols, vals.
  - apply seek_dnf_wf; [constructor|]. apply Forall_forall. intros [c v] Hin%list_elem_of_In%in_combine_l.
    unfold keysetColumnsValid in Hv. rewrite forallb_forall in Hv. by apply Hv.
  - unfold buildSeek. by rewrite seek_groups_dnf.
Qed.

Definition is_gt (o : comparison) : bool := match o with Gt => true | _ => false end.

Lemma seek_dnf_holds before r rest : forall prev,
  dnf_holds r (seek_dnf before prev rest) =
    forallb (fun p => atom_holds r (Atom (Name p.1) Eq p.2)) prev &&
    is_gt (lexcmp before (map fst rest) (key_of (map fst rest) r) (map snd rest)).
Proof.
  induction rest as [|[c v] rest IH]; intros prev; [simpl; by rewrite andb_false_r|].
  unfold dnf_holds in *. cbn [seek_dnf existsb]. rewrite IH, !forallb_app.
  assert (Hm : forallb (atom_holds r) (map (fun p => Atom (Name p.1) Eq p.2) prev) =
               forallb (fun p : KeysetColumn * any => atom_holds r (Atom (Name p.1) Eq p.2)) prev)
    by (clear; induction prev as [|p prev Hp]; simpl; [done|by rewrite Hp]).
  rewrite Hm. destruct (forallb _ prev); simpl; [|done]. unfold atom_holds, seek_op. simpl.
  destruct (cmp (col r (Name c)) v), (Bool.eqb (Desc c) before); simpl; done.
Qed.

Lemma seek_holds cols vals before r : length vals = length cols ->
  dnf_holds r (seek_dnf before [] (zip cols vals)) = is_gt (lexcmp before cols (key_of cols r) vals).
Proof.
  intros Hl. rewrite seek_dnf_holds. simpl. by rewrite fst_zip, snd_zip by lia.
Qed.

Lemma lexcmp_sym before cols xs ys : lexcmp before cols ys xs = CompOpp (lexcmp before cols xs ys).
Proof.
  revert xs ys; induction cols as [|c cols IH]; intros [|x xs] [|y ys]; simpl; try done.
  rewrite (cmp_sym x y). destruct (cmp x y) eqn:Hc; simpl; [apply IH|by destruct (Bool.eqb _ _)..].
Qed.

Lemma lexcmp_refl before cols xs : lexcmp before cols xs xs = Eq.
Proof. revert xs; induction cols as [|c cols IH]; intros [|x xs]; simpl; try done. by rewrite cmp_refl. Qed.

Lemma lexcmp_flip before cols xs ys : lexcmp (negb before) cols xs ys = CompOpp (lexcmp before cols xs ys).
Proof.
  revert xs ys; induction cols as [|c cols IH]; intros [|x xs] [|y ys]; simpl; try done.
  destruct (cmp x y), (Desc c), before; simpl in *; auto.
Qed.

(** Values the JSON round trip of a cursor does not change for the database. *)
Definition exact (v : any) : Prop := encodable v = true /\ forall w, cmp w (json_any v) = cmp w v.

Lemma lexcmp_json before cols xs ys : Forall exact ys -> lexcmp before cols xs (map json_any ys) = lexcmp before cols xs ys.
Proof.
  intros Hy. revert cols xs; induction Hy as [|y ys [_ Hy] Hys IH]; intros [|c cols] [|x xs]; simpl; try done.
  by rewrite Hy, IH.
Qed.

(** ** Pages of a table *)

Context (cols : list KeysetColumn) (L : list Row).
Definition lt_rows (a b : Row) : Prop := lexcmp false cols (key_of cols a) (key_of cols b) = Lt.
Context (HL : StronglySorted lt_rows L) (Hcols : cols <> []) (Hvalid : keysetColumnsValid cols = true)
  (Hexact : Forall (fun r => Forall exact (key_of cols r)) L).

Lemma sorted_lookup (l : list Row) i j a b : StronglySorted lt_rows l -> l !! i = Some a -> l !! j = Some b -> (i < j)%nat -> lt_rows a b.
Proof.
  intros Hs. revert i j; induction Hs as [|x l Hs IH Hx]; intros i j Ha Hb Hij; [done|].
  destruct j as [|j]; [lia|]. destruct i as [|i]; simpl in *.
  - injection Ha as <-. rewrite Forall_forall in Hx. apply Hx. by eapply list_elem_of_lookup_2.
  - eapply IH; eauto. lia.
Qed.

Lemma rows_cmp i j a b : L !! i = Some a -> L !! j = Some b ->
  lexcmp false cols (key_of cols a) (key_of cols b) = Nat.compare i j.
Proof.
  intros Ha Hb. destruct (Nat.compare_spec i j) as [->|Hlt|Hgt].
  - rewrite Ha in Hb. injection Hb as ->. apply lexcmp_refl.
  - by eapply sorted_lookup.
  - rewrite lexcmp_sym. pose proof (sorted_lookup L j i b a HL Hb Ha Hgt) as Hc. unfold lt_rows in Hc. by rewrite Hc.
Qed.

Lemma rows_eq a b before : a ∈ L -> b ∈ L -> lexcmp before cols (key_of cols a) (key_of cols b) = Eq -> a = b.
Proof.
  intros [i Ha]%list_elem_of_lookup_1 [j Hb]%list_elem_of_lookup_1 Hc.
  assert (Hf : lexcmp false cols (key_of cols a) (key_of cols b) = Eq).
  { destruct before; [|done]. pose proof (lexcmp_flip true cols (key_of cols a) (key_of cols b)) as Hfl. simpl in Hfl.
    by rewrite Hfl, Hc. }
  rewrite (rows_cmp i j a b Ha Hb) in Hf. apply Nat.compare_eq in Hf as ->. congruence.
Qed.

(** The rows after (before) a position, as a filter. *)
Lemma filter_split (P : nat -> bool) (l : list Row) (f : Row -> bool) :
  (forall i r, l !! i = Some r -> f r = P i) -> forall k,
  (forall i, P i = (k <=? i)%nat) -> List.filter f l = drop k l.
Proof.
  revert P; induction l as [|x l IH]; intros P Hf k HP; simpl; [by rewrite drop_nil|].
  rewrite (Hf 0%nat x eq_refl), HP. destruct k as [|k]; simpl.
  - f_equal. rewrite (IH (fun i => P (S i)) (fun i r => Hf (S i) r) 0%nat); [done|]. intros i. by rewrite HP.
  - apply (IH (fun i => P (S i)) (fun i r => Hf (S i) r)). intros i. by rewrite HP.
Qed.

Lemma filter_prefix (P : nat -> bool) (l : list Row) (f : Row -> bool) :
  (forall i r, l !! i = Some r -> f r = P i) -> forall k,
  (forall i, P i = (i <? k)%nat) -> List.filter f l = take k l.
Proof.
  revert P; induction l as [|x l IH]; intros P Hf k HP; simpl; [by rewrite take_nil|].
  rewrite (Hf 0%nat x eq_refl), HP. destruct k as [|k]; simpl.
  - rewrite (IH (fun i => P (S i)) (fun i r => Hf (S i) r) 0%nat); [done|]. intros i. by rewrite HP.
  - f_equal. apply (IH (fun i => P (S i)) (fun i r => Hf (S i) r)). intros i. by rewrite HP.
Qed.

(** A sorted selection of the table's rows is determined. *)
Lemma sorted_unique before (s1 s2 : list Row) : s1 ≡ₚ s2 -> (forall r, r ∈ s2 -> r ∈ L) ->
  StronglySorted (fun a b => lexcmp before cols (key_of cols a) (key_of cols b) <> Gt) s1 ->
  StronglySorted (fun a b => lexcmp before cols (key_of cols a) (key_of cols b) <> Gt) s2 -> s1 = s2.
Proof.
  intros Hp Hin H1 H2. eapply StronglySorted_unique_strong; [|exact H1|exact H2|exact Hp].
  intros a b Ha Hb Hab Hba. rewrite Hp in Ha. apply (rows_eq a b before); [by apply Hin..|].
  cbv beta in Hab, Hba. rewrite lexcmp_sym in Hba. by destruct (lexcmp before cols (key_of cols a) (key_of cols b)).
Qed.

Lemma sorted_forward (l : list Row) : StronglySorted lt_rows l ->
  StronglySorted (fun a b => lexcmp false cols (key_of cols a) (key_of cols b) <> Gt) l.
Proof.
  induction 1 as [|x l Hs IH Hx]; constructor; [done|]. eapply Forall_impl; [exact Hx|]. unfold lt_rows. intros y Hy. by rewrite Hy.
Qed.

Lemma sorted_sub (l : list Row) (R : Row -> Row -> Prop) n : StronglySorted R l -> StronglySorted R (take n l) /\ StronglySorted R (drop n l).
Proof.
  intros Hs. revert n; induction Hs as [|x l Hs IH Hx]; intros [|n]; simpl; split; try constructor; try apply IH; try done.
  - by apply Forall_take.
Qed.

Lemma sorted_backward (l : list Row) : StronglySorted lt_rows l ->
  StronglySorted (fun a b => lexcmp true cols (key_of cols a) (key_of cols b) <> Gt) (rev l).
Proof.
  induction 1 as [|x l Hs IH Hx]; simpl; [constructor|].
  assert (Happ : forall l', StronglySorted (fun a b => lexcmp true cols (key_of cols a) (key_of cols b) <> Gt) l' ->
    Forall (fun b => lexcmp true cols (key_of cols b) (key_of cols x) <> Gt) l' ->
    StronglySorted (fun a b => lexcmp true cols (key_of cols a) (key_of cols b) <> Gt) (l' ++ [x])).
  { induction 1 as [|y l' Hs' IH' Hy]; intros Hf; simpl; [repeat constructor|]. apply Forall_cons in Hf as [? ?].
    constructor; [by apply IH'|]. apply Forall_app. split; [done|]. by repeat constructor. }
  apply Happ; [done|]. apply Forall_forall. intros y Hy. apply list_elem_of_In, in_rev, list_elem_of_In in Hy.
  rewrite Forall_forall in Hx. specialize (Hx y Hy). unfold lt_rows in Hx.
  pose proof (lexcmp_flip false cols (key_of cols y) (key_of cols x)) as Hfl. simpl in Hfl.
  rewrite Hfl, lexcmp_sym, Hx. done.
Qed.

(** ** What a keyset query returns *)

Lemma effective_cmp b b' cs cs' x y : map (order_text b) cs = map (order_text b') cs' ->
  lexcmp b cs (key_of cs x) (key_of cs y) = lexcmp b' cs' (key_of cs' x) (key_of cs' y).
Proof.
  revert cs'; induction cs as [|c cs IH]; intros [|c' cs'] Heq; try done. injection Heq as Hc Heq.
  apply order_text_inj in Hc as [Hn Hd]. simpl. rewrite Hn, Hd, (IH cs' Heq). done.
Qed.

Lemma filter_perm (f : Row -> bool) (l l' : list Row) : l ≡ₚ l' -> List.filter f l ≡ₚ List.filter f l'.
Proof.
  induction 1 as [|x l l' Hl IH|x y l|l1 l2 l3 H1 IH1 H2 IH2]; simpl; [done| | |by trans (List.filter f l2)].
  - destruct (f x); [by constructor|done].
  - destruct (f x), (f y); try done. constructor.
Qed.

Definition small_limit (kq : KeysetQuery) : Prop := keyset_limit kq < int_max.

Lemma keyset_limit_pos kq : 1 <= keyset_limit kq.
Proof. unfold keyset_limit, defaultKeysetLimit. destruct (Z.leb_spec (KLimit kq) 0); lia. Qed.

(** The rows a query with predicates [ds] returns, once the selected part [X] of [L] is known. *)
Lemma selects_rows kq table rows w ds X :
  table ≡ₚ L -> small_limit kq ->
  selects table (MkQuery w (map (order_text (Before kq)) cols) (Some (wrap64 (keyset_limit kq + 1))) None) rows ->
  Forall2 sql_means w ds -> List.filter (fun r => forallb (dnf_holds r) ds) L = X ->
  StronglySorted lt_rows X -> (forall r, r ∈ X -> r ∈ L) ->
  rows = take (S (Z.to_nat (keyset_limit kq))) (if Before kq then rev X else X).
Proof.
  intros Ht Hlim (ds' & b & cs & sorted & n & Hds' & Hord & Hn & _ & _ & Hp & Hs & ->) Hds HX HsX Hin.
  simpl in *. pose proof (keyset_limit_pos kq) as Hpos. unfold small_limit in Hlim.
  rewrite wrap64_id in Hn by (unfold in_int, int_min, int_max in *; lia). injection Hn as <-.
  replace (Z.to_nat (keyset_limit kq + 1)) with (S (Z.to_nat (keyset_limit kq))) by lia. f_equal.
  assert (ds' = ds) as ->.
  { clear -Hds Hds'. revert ds Hds; induction Hds' as [|x d w ds' Hx Hds' IH]; intros ds Hds.
    - by inversion Hds.
    - inversion Hds as [|? d2 ? ds2 Hx2 Hds2]; subst. f_equal; [by eapply sql_unambiguous|by apply IH]. }
  rewrite (filter_perm _ _ _ Ht), HX in Hp.
  assert (Hs' : StronglySorted (fun a c => lexcmp (Before kq) cols (key_of cols a) (key_of cols c) <> Gt) sorted).
  { clear -Hs Hord. induction Hs as [|x l Hs IH Hx]; constructor; [done|]. eapply Forall_impl; [exact Hx|].
    intros y Hy. cbv beta in Hy. by rewrite (effective_cmp _ _ _ _ x y (eq_sym Hord)) in Hy || by rewrite (effective_cmp _ _ _ _ x y Hord). }
  apply (sorted_unique (Before kq)); [|destruct (Before kq)..|].
  - destruct (Before kq); [|done]. rewrite Hp. apply Permutation_rev.
  - intros r Hr. apply Hin. by rewrite (Permutation_rev X).
  - done.
  - done.
  - done.
  - destruct (Before kq); [by apply sorted_backward|by apply sorted_forward].
Qed.

Lemma key_encodable r : r ∈ L -> forallb encodable (key_of cols r) = true.
Proof.
  intros Hr. rewrite Forall_forall in Hexact. specialize (Hexact r Hr). clear -Hexact.
  induction Hexact as [|v vs [Hv _] Hvs IH]; simpl; [done|]. by rewrite Hv, IH.
Qed.

Lemma key_exact r : r ∈ L -> Forall exact (key_of cols r).
Proof. intros Hr. rewrite Forall_forall in Hexact. by apply Hexact. Qed.

Lemma keyset_query kq : Cursor kq = EmptyString ->
  Keyset kq cols empty_query = MkQuery [] (map (order_text (Before kq)) cols) (Some (wrap64 (keyset_limit kq + 1))) None.
Proof.
  intros Hc. unfold Keyset. rewrite Hc, Hvalid. destruct cols as [|c cs] eqn:Hcs; [done|]. rewrite <- Hcs. simpl.
  by rewrite fold_order.
Qed.

Lemma keyset_query_cursor kq r : r ∈ L -> Cursor kq = EncodeCursor (key_of cols r) ->
  Keyset kq cols empty_query = MkQuery [buildSeek cols (map json_any (key_of cols r)) (Before kq)]
    (map (order_text (Before kq)) cols) (Some (wrap64 (keyset_limit kq + 1))) None.
Proof.
  intros Hr Hc. unfold Keyset. rewrite Hc, Hvalid, (proj2 (String.eqb_neq _ _) (EncodeCursor_nonempty _)).
  rewrite (DecodeCursor_EncodeCursor _ (key_encodable r Hr)).
  assert (Hl : length (map json_any (key_of cols r)) = length cols) by (unfold key_of; by rewrite !length_map).
  rewrite Hl, Nat.eqb_refl. destruct cols as [|c cs] eqn:Hcs; [done|]. rewrite <- Hcs. simpl negb. simpl orb. cbv iota.
  destruct (buildSeek cols _ _) as [p a] eqn:Hb. by rewrite fold_order.
Qed.

Lemma keyset_first_page kq table rows : table ≡ₚ L -> small_limit kq -> Cursor kq = EmptyString ->
  selects table (Keyset kq cols empty_query) rows ->
  rows = take (S (Z.to_nat (keyset_limit kq))) (if Before kq then rev L else L).
Proof.
  intros Ht Hlim Hc Hsel. rewrite keyset_query in Hsel by done.
  eapply (selects_rows kq table rows [] [] L); try done. simpl. clear. induction L as [|x l IH]; simpl; [done|by rewrite IH].
Qed.

Lemma keyset_cursor_page kq table rows i r : table ≡ₚ L -> small_limit kq -> L !! i = Some r ->
  Cursor kq = EncodeCursor (key_of cols r) -> selects table (Keyset kq cols empty_query) rows ->
  rows = take (S (Z.to_nat (keyset_limit kq))) (if Before kq then rev (take i L) else drop (S i) L).
Proof.
  intros Ht Hlim Hi Hc Hsel. assert (Hr : r ∈ L) by (by eapply list_elem_of_lookup_2).
  rewrite (keyset_query_cursor kq r) in Hsel by done. set (vals := map json_any (key_of cols r)) in *.
  assert (Hl : length vals = length cols) by (unfold vals, key_of; by rewrite !length_map).
  assert (Hm : Forall2 sql_means [buildSeek cols vals (Before kq)] [seek_dnf (Before kq) [] (zip cols vals)])
    by (constructor; [by apply buildSeek_means|constructor]).
  assert (Hf : forall j x, L !! j = Some x -> forallb (dnf_holds x) [seek_dnf (Before kq) [] (zip cols vals)] =
     is_gt (if Before kq then CompOpp (Nat.compare j i) else Nat.compare j i)).
  { intros j x Hx. simpl. rewrite andb_true_r, seek_holds by done. unfold vals. rewrite lexcmp_json by (by apply key_exact).
    f_equal. rewrite <- (rows_cmp j i x r Hx Hi). destruct (Before kq); [|done].
    apply (lexcmp_flip false cols). }
  assert (HX : List.filter (fun x => forallb (dnf_holds x) [seek_dnf (Before kq) [] (zip cols vals)]) L =
    if Before kq then take i L else drop (S i) L).
  { destruct (Before kq) eqn:Hb.
    - eapply (filter_prefix (fun j => is_gt (CompOpp (Nat.compare j i)))); [exact Hf|]. intros j.
      destruct (Nat.compare_spec j i), (Nat.ltb_spec j i); simpl; try done; lia.
    - eapply (filter_split (fun j => is_gt (Nat.compare j i))); [exact Hf|]. intros j.
      destruct (Nat.compare_spec j i), (Nat.leb_spec (S i) j); try done; lia. }
  erewrite (selects_rows kq table rows _ _ _ Ht Hlim Hsel Hm HX).
  - by destruct (Before kq).
  - destruct (Before kq); by apply sorted_sub.
  - intros x Hx. destruct (Before kq).
    + apply list_elem_of_lookup_1 in Hx as [j Hx]. apply lookup_take_Some in Hx as [Hx _]. by eapply list_elem_of_lookup_2.
    + apply list_elem_of_lookup_1 in Hx as [j Hx]. rewrite lookup_drop in Hx. by eapply list_elem_of_lookup_2.
Qed.

(** ** Walking the pages *)

(** A client that asks for the next page until there is none, and collects the rows. *)
Fixpoint sweep (fetch : KeysetQuery -> list Row) (fuel : nat) (kq : KeysetQuery) : list Row :=
  match fuel with
  | O => []
  | S fuel =>
      let p := NewCursorPage zero (fetch kq) kq (key_of cols) in
      CData p ++
      (if String.eqb (NextCursor p) EmptyString then []
       else sweep fetch fuel (MkKQ (KLimit kq) (NextCursor p) false))
  end.

Lemma last_lookup_nonempty {A} (l : list A) d : l <> [] -> l !! (length l - 1)%nat = Some (List.last l d).
Proof.
  intros Hl. destruct (exists_last Hl) as (l' & x & ->). rewrite last_last, length_app. simpl.
  by rewrite lookup_app_r, Nat.add_sub, Nat.sub_diag by lia.
Qed.

(** The page made of the rows from position [k] on. *)
Lemma forward_page kq k : Before kq = false -> (k < length L)%nat \/ L = [] ->
  let n := Z.to_nat (keyset_limit kq) in
  let p := NewCursorPage zero (take (S n) (drop k L)) kq (key_of cols) in
  CData p = take n (drop k L) /\
  ((k + n < length L)%nat /\ (exists r, L !! (k + n - 1)%nat = Some r /\ NextCursor p = EncodeCursor (key_of cols r)) \/
   ((length L <= k + n)%nat /\ NextCursor p = EmptyString)).
Proof.
  intros Hb Hk n p. pose proof (keyset_limit_pos kq) as Hpos.
  assert (Hlim : (if KLimit kq <=? 0 then 10 else KLimit kq) = keyset_limit kq) by reflexivity.
  unfold p, NewCursorPage. rewrite Hlim, Hb. fold n.
  assert (Hlen : length (take (S n) (drop k L)) = Nat.min (S n) (length L - k)) by (by rewrite length_take, length_drop).
  destruct (Z.ltb_spec (keyset_limit kq) (Z.of_nat (length (take (S n) (drop k L))))) as [Hlt|Hge].
  - assert (Hfar : (k + n < length L)%nat) by lia.
    rewrite take_take. replace (n `min` S n)%nat with n by lia.
    destruct (take n (drop k L)) as [|x l] eqn:Hkept.
    { apply (f_equal length) in Hkept. rewrite length_take, length_drop in Hkept. simpl in Hkept. lia. }
    simpl. split; [done|]. left. split; [done|].
    assert (Hll : (length (x :: l) = n)%nat) by (rewrite <- Hkept, length_take, length_drop; lia).
    pose proof (last_lookup_nonempty (x :: l) x ltac:(done)) as Hlast. rewrite Hll in Hlast.
    exists (List.last (x :: l) x). split; [|done]. rewrite <- Hkept in Hlast at 1.
    apply lookup_take_Some in Hlast as [Hlast _]. rewrite lookup_drop in Hlast. by replace (k + n - 1)%nat with (k + (n - 1))%nat by lia.
  - assert (Hnear : (length L <= k + n)%nat) by lia.
    rewrite !take_ge by (rewrite length_drop; lia). destruct (drop k L) as [|x l] eqn:Hd; simpl; (split; [done|right; split; [done|done]]).
Qed.

(** (C15) A full sweep returns the table: over any table whose rows the keyset columns order strictly
    ([L] is the table so ordered) and whose key values survive a cursor ([exact]: they encode, and compare the same when read back,
    which integers beyond 2^53 do not), following [NextCursor]
    from the first page until it is empty yields every row exactly once, in order, and ends. *)
Theorem keyset_sweep table fetch limit fuel :
  table ≡ₚ L -> small_limit (MkKQ limit EmptyString false) -> (length L < fuel)%nat ->
  (forall kq, KLimit kq = limit -> selects table (Keyset kq cols empty_query) (fetch kq)) ->
  sweep fetch fuel (MkKQ limit EmptyString false) = L.
Proof.
  intros Ht Hlim Hfuel Hfetch.
  set (n := Z.to_nat (keyset_limit (MkKQ limit EmptyString false))).
  pose proof (keyset_limit_pos (MkKQ limit EmptyString false)) as Hpos.
  assert (Hgen : forall fuel k kq, KLimit kq = limit -> Before kq = false ->
    fetch kq = take (S n) (drop k L) -> (k < length L)%nat \/ L = [] -> (length L < fuel + k)%nat ->
    sweep fetch fuel kq = drop k L).
  { clear fuel Hfuel. induction fuel as [|fuel IH]; intros k kq Hl Hb Hrows Hk Hf; [by rewrite drop_ge by lia|].
    cbn [sweep]. rewrite Hrows. pose proof (forward_page kq k Hb Hk) as Hpage. cbv zeta in Hpage.
    assert (Hn : Z.to_nat (keyset_limit kq) = n) by (unfold n, keyset_limit; by rewrite Hl).
    rewrite Hn in Hpage. set (p := NewCursorPage _ _ _ _) in *. destruct Hpage as [-> Hnext].
    destruct Hnext as [(Hfar & r & Hr & ->)|[Hnear ->]].
    - rewrite (proj2 (String.eqb_neq _ _) (EncodeCursor_nonempty _)).
      rewrite (IH (k + n)%nat); simpl; [by rewrite <- drop_drop, take_drop|done|done| |lia|lia].
      pose proof (keyset_cursor_page (MkKQ (KLimit kq) (EncodeCursor (key_of cols r)) false) table
        (fetch (MkKQ (KLimit kq) (EncodeCursor (key_of cols r)) false)) _ r Ht ltac:(unfold small_limit, keyset_limit in *; simpl in *; by rewrite Hl) Hr eq_refl (Hfetch (MkKQ (KLimit kq) (EncodeCursor (key_of cols r)) false) Hl)) as Hc.
      simpl in Hc. rewrite Hc. unfold keyset_limit at 1. simpl. rewrite Hl. fold (keyset_limit (MkKQ limit EmptyString false)).
      replace (S (k + n - 1)) with (k + n)%nat by lia. reflexivity.
    - simpl. rewrite app_nil_r. apply take_ge. rewrite length_drop. lia. }
  rewrite <- (drop_0 L). apply Hgen; try done; [|destruct L; [by right|left; simpl; lia]|lia].
  rewrite (keyset_first_page (MkKQ limit EmptyString false) table (fetch _) Ht Hlim eq_refl (Hfetch (MkKQ limit EmptyString false) eq_refl)). simpl. by rewrite drop_0.
Qed.

(** Paging backward: asking for the page before the row at position [k] returns the (at most
    [limit]) rows just before it, in display order, with a previous page announced exactly when
    more rows precede them and the next cursor at their last row. *)
Theorem keyset_backward table rows limit k r :
  let kq := MkKQ limit (EncodeCursor (key_of cols r)) true in
  table ≡ₚ L -> small_limit kq -> L !! k = Some r -> selects table (Keyset kq cols empty_query) rows ->
  let n := Z.to_nat (keyset_limit kq) in
  let p := NewCursorPage zero rows kq (key_of cols) in
  CData p = drop (k - n) (take k L) /\ (PrevCursor p <> EmptyString <-> (n < k)%nat) /\
  ((0 < k)%nat -> exists r', L !! (k - 1)%nat = Some r' /\ NextCursor p = EncodeCursor (key_of cols r')).
Proof.
  intros kq Ht Hlim Hk Hsel n p. pose proof (keyset_limit_pos kq) as Hpos.
  pose proof (lookup_lt_Some _ _ _ Hk) as Hlt.
  pose proof (keyset_cursor_page kq table rows k r Ht Hlim Hk eq_refl Hsel) as Hrows. simpl in Hrows. fold n in Hrows.
  assert (Hlim' : (if KLimit kq <=? 0 then 10 else KLimit kq) = keyset_limit kq) by reflexivity.
  assert (Hlen : length rows = Nat.min (S n) k) by (rewrite Hrows, length_take, length_rev, length_take; lia).
  assert (Hkept : rev (if keyset_limit kq <? Z.of_nat (length rows) then take n rows else rows) = drop (k - n) (take k L)).
  { assert (Htr : forall m (l : list Row), rev (take m (rev l)) = drop (length l - m) l).
    { intros m l. by rewrite firstn_rev, rev_involutive. }
    destruct (Z.ltb_spec (keyset_limit kq) (Z.of_nat (length rows))).
    - rewrite Hrows, take_take, Htr, length_take. f_equal. lia.
    - rewrite Hrows, take_ge, rev_involutive by (rewrite length_rev, length_take; lia).
      replace (k - n)%nat with 0%nat by lia. by rewrite drop_0. }
  unfold p, NewCursorPage. rewrite Hlim'. fold n. simpl Before. cbv iota. rewrite reversed_rev, Hkept.
  destruct (drop (k - n) (take k L)) as [|x l] eqn:Hd.
  { apply (f_equal length) in Hd. rewrite length_drop, length_take in Hd. simpl in *. split_and!; [done| |lia].
    split; [done|lia]. }
  cbn [CData NextCursor PrevCursor]. split_and!; [done| |].
  - destruct (Z.ltb_spec (keyset_limit kq) (Z.of_nat (length rows))); (split; [intros; lia || done|intros]).
    + apply EncodeCursor_nonempty.
    + lia.
  - intros Hk0. exists (List.last (x :: l) x). split; [|done].
    pose proof (last_lookup_nonempty (x :: l) x ltac:(done)) as Hlast.
    assert (Hll : length (x :: l) = (k - (k - n))%nat) by (rewrite <- Hd, length_drop, length_take; lia).
    rewrite Hll in Hlast. rewrite <- Hd in Hlast at 1. rewrite lookup_drop in Hlast. apply lookup_take_Some in Hlast as [Hlast _].
    by replace (k - 1)%nat with (k - n + (k - (k - n) - 1))%nat by lia.
Qed.

(** ** A database: the sorted table, filtered *)

Definition cursor_pred (kq : KeysetQuery) : list (list (list atom)) :=
  if String.eqb (Cursor kq) EmptyString then []
  else match DecodeCursor (Cursor kq) with
       | Some vals => if (length vals =? length cols)%nat then [seek_dnf (Before kq) [] (zip cols vals)] else []
       | None => []
       end.

Definition sorted_fetch (kq : KeysetQuery) : list Row :=
  take (Z.to_nat (keyset_limit kq + 1))
    (List.filter (fun r => forallb (dnf_holds r) (cursor_pred kq)) (if Before kq then rev L else L)).

Lemma sorted_filter (R : Row -> Row -> Prop) f l : StronglySorted R l -> StronglySorted R (List.filter f l).
Proof.
  induction 1 as [|x l Hs IH Hx]; simpl; [constructor|]. destruct (f x); [|done]. constructor; [done|].
  apply Forall_forall. intros y Hy%list_elem_of_In. apply filter_In in Hy as [Hy _]. apply list_elem_of_In in Hy.
  rewrite Forall_forall in Hx. by apply Hx.
Qed.

Lemma sorted_fetch_selects kq : small_limit kq -> selects L (Keyset kq cols empty_query) (sorted_fetch kq).
Proof.
  intros Hlim. pose proof (keyset_limit_pos kq) as Hpos. unfold small_limit in Hlim.
  exists (cursor_pred kq), (Before kq), cols,
    (List.filter (fun r => forallb (dnf_holds r) (cursor_pred kq)) (if Before kq then rev L else L)), (keyset_limit kq + 1).
  assert (Hq : exists w, Keyset kq cols empty_query =
      MkQuery w (map (order_text (Before kq)) cols) (Some (wrap64 (keyset_limit kq + 1))) None /\ Forall2 sql_means w (cursor_pred kq)).
  { unfold Keyset, cursor_pred. rewrite Hvalid. destruct cols as [|c cs] eqn:Hcs; [done|]. rewrite <- Hcs in *. simpl negb.
    simpl orb. cbv iota. destruct (String.eqb _ _); [exists []; by rewrite fold_order|].
    destruct (DecodeCursor _) as [vals|]; [|exists []; by rewrite fold_order].
    destruct (Nat.eqb_spec (length vals) (length cols)) as [Hl|]; [|exists []; by rewrite fold_order].
    pose proof (buildSeek_means cols vals (Before kq) Hcols Hvalid Hl) as Hm.
    destruct (buildSeek cols vals (Before kq)) as [p a]. exists [(p, a)]. rewrite fold_order. split; [done|].
    constructor; [exact Hm|constructor]. }
  destruct Hq as (w & -> & Hw). simpl. rewrite wrap64_id by (unfold in_int, int_min, int_max in *; lia).
  split_and!; try done; [lia| |].
  - apply filter_perm. destruct (Before kq); [|done]. symmetry. apply Permutation_rev.
  - apply sorted_filter. destruct (Before kq); [by apply sorted_backward|by apply sorted_forward].
Qed.
End Keyset.

(** ** Witnesses: rows (group, id), groups descending *)

Lemma NewPagination_spec_witness :
  in_int (2 * 10 + 1) /\ PageCount (NewPagination (T := nat) [] 10 2 23) = 3 /\
  StartNumber (NewPagination (T := nat) [] 10 2 23) = (Z.max 1 2 - 1) * 10 + 1.
Proof.
  assert (Hi : in_int (2 * 10 + 1)) by (unfold in_int, int_min, int_max; lia). split; [exact Hi|]. split; [reflexivity|].
  apply (NewPagination_spec (T := nat) [] 10 2 23); [unfold int_max; lia|lia|exact Hi].
Defined.

Definition rank (v : any) : Z := match v with AInt z | AFloat z => z | _ => 0 end.
Definition num_cmp (v w : any) : comparison := Z.compare (rank v) (rank w).
Definition row_col (r : Z * Z) (n : string) : any := if String.eqb n "grp" then AInt r.1 else AInt r.2.
Definition row_cols : list KeysetColumn := [MkCol "grp" true; MkCol "id" false].
Definition rows5 : list (Z * Z) := [(2, 1); (2, 4); (1, 2); (1, 3); (0, 9)].

Lemma num_cmp_refl v : num_cmp v v = Eq.
Proof. apply Z.compare_refl. Qed.
Lemma num_cmp_sym v w : num_cmp w v = CompOpp (num_cmp v w).
Proof. apply Z.compare_antisym. Qed.
Lemma rows5_sorted : StronglySorted (lt_rows row_col num_cmp row_cols) rows5.
Proof. repeat constructor. Qed.
Lemma rows5_exact : Forall (fun r => Forall (exact num_cmp) (key_of row_col row_cols r)) rows5.
Proof. repeat constructor; simpl; intros w; reflexivity. Qed.

Lemma keyset_sweep_witness :
  sweep (0, 0) row_col row_cols (sorted_fetch row_col num_cmp row_cols rows5) 6 (MkKQ 2 "" false) = rows5.
Proof.
  apply (keyset_sweep (0, 0) row_col num_cmp num_cmp_refl num_cmp_sym row_cols rows5 rows5_sorted ltac:(discriminate)
    eq_refl rows5_exact rows5 (sorted_fetch row_col num_cmp row_cols rows5) 2 6).
  - reflexivity.
  - reflexivity.
  - simpl. lia.
  - intros [l c b] Hkq. simpl in Hkq. subst l. apply (sorted_fetch_selects row_col num_cmp num_cmp_sym row_cols rows5 rows5_sorted ltac:(discriminate) eq_refl rows5_exact).
    reflexivity.
Defined.

Definition back_query : KeysetQuery := MkKQ 2 (EncodeCursor (key_of row_col row_cols (1, 3))) true.

Lemma keyset_backward_witness :
  CData (NewCursorPage (0, 0) (sorted_fetch row_col num_cmp row_cols rows5 back_query) back_query (key_of row_col row_cols))
    = [(2, 4); (1, 2)].
Proof.
  refine (proj1 (keyset_backward (0, 0) row_col num_cmp num_cmp_refl num_cmp_sym row_cols rows5 rows5_sorted _
    eq_refl rows5_exact rows5 (sorted_fetch row_col num_cmp row_cols rows5 back_query) 2 3 (1, 3) _ _ _ _));
    [discriminate|reflexivity|reflexivity|reflexivity|].
  apply (sorted_fetch_selects row_col num_cmp num_cmp_sym row_cols rows5 rows5_sorted ltac:(discriminate) eq_refl rows5_exact).
  reflexivity.
Defined.
