(* ===== verification/Uploader.v ===== *)
(** * Uploads (uploader/uploader.go, local.go, s3.go)

    The lexical path functions of [path/filepath] on Unix, validation, and both uploaders. The
    MIME detector (mimetype) and the object store client (minio) are parameters; the multipart
    file, the directory and every call that can fail are explicit. *)

From S2P Require Import Prelude GoStrings.
Open Scope Z_scope.

(** ** [path/filepath] *)

Definition is_slash : ascii -> bool := Ascii.eqb "/".

(** One path element onto the stack of those kept so far (innermost first). *)
Definition clean_step (rooted : bool) (stack : list string) (x : string) : list string :=
  if String.eqb x "" || String.eqb x "." then stack
  else if String.eqb x ".." then
    match stack with
    | y :: rest => if String.eqb y ".." then x :: stack else rest
    | [] => if rooted then [] else [x]
    end
  else x :: stack.

Definition rooted (s : string) : bool := match s with String c _ => is_slash c | EmptyString => false end.
Definition render_path (r : bool) (stack : list string) : string :=
  match stack with
  | [] => if r then "/" else "."
  | _ => (if r then "/" else "") +:+ join "/" (rev stack)
  end%string.

Definition Clean (s : string) : string :=
  render_path (rooted s) (fold_left (clean_step (rooted s)) (split "/" s) []).

Fixpoint trim_slashes (s : string) : string :=
  match s with
  | EmptyString => EmptyString
  | String c s => let t := trim_slashes s in if is_slash c && String.eqb t "" then EmptyString else String c t
  end.

Definition Base (s : string) : string :=
  if String.eqb s "" then "."%string
  else let b := List.last (split "/" (trim_slashes s)) ""%string in if String.eqb b "" then "/"%string else b.

(** [filepath.Join] of two elements, the second not empty. *)
Definition PathJoin (a b : string) : string := if String.eqb a "" then Clean b else Clean (a +:+ ("/" +:+ b)).

(** ** Options *)

Record config := MkConfig { maxSize : Z; allowedMime : list string; baseURL : string; keyPrefix : string }.

Definition WithMaxSize (n : Z) (c : config) : config := MkConfig n (allowedMime c) (baseURL c) (keyPrefix c).
Definition WithAllowedMime (l : list string) (c : config) : config := MkConfig (maxSize c) l (baseURL c) (keyPrefix c).
Definition WithBaseURL (s : string) (c : config) : config := MkConfig (maxSize c) (allowedMime c) s (keyPrefix c).
Definition WithKeyPrefix (s : string) (c : config) : config := MkConfig (maxSize c) (allowedMime c) (baseURL c) s.
Definition newConfig (opts : list (config -> config)) : config :=
  fold_left (fun c o => o c) opts (MkConfig 0 [] "" "").

Definition sanitizeFilename (name : string) : error + string :=
  let clean := Base (Clean name) in
  if String.eqb clean "." || String.eqb clean ".." || String.eqb clean "" || String.eqb clean "/"
  then inl (Err "invalid filename") else inr clean.

(** ** The uploaded file: its content and read position; the fate of each seek, and how many bytes
    one [Read] into the 512-byte buffer returns *)

Record file := MkFile { content : string; pos : nat }.
Record io := MkIO { seek_end : option error; seek_start : option error; rewind : option error; read_n : nat;
  put_end : option error; put_start : option error }.

(** The bytes from the read position on. *)
Definition remaining (f : file) : string := drop_string (pos f) (content f).

Section Uploader.
  Context {M : Type} (Detect : string -> M) (Is : M -> string -> bool) (mime_string : M -> string).

Definition mimeAllowed (mt : M) (allowed : list string) : bool := existsb (Is mt) allowed.

Definition size (f : file) : Z := Z.of_nat (String.length (content f)).
Definition at_end (f : file) : file := MkFile (content f) (String.length (content f)).
Definition at_start (f : file) : file := MkFile (content f) 0.

(** A seek: its error, or the file at the new position. *)
Definition seek (e : option error) (to : file -> file) (f : file) : error + file :=
  match e with Some e => inl e | None => inr (to f) end.

(** The size check, when a maximum is set. *)
Definition check_size (c : config) (w : io) (f : file) : error + file :=
  if 0 <? maxSize c then
    match seek (seek_end w) at_end f with
    | inl e => inl e
    | inr f => match seek (seek_start w) at_start f with
               | inl e => inl e
               | inr f => if maxSize c <? size f then inl (Err "file size exceeds limit") else inr f
               end
    end
  else inr f.

Definition validate (c : config) (w : io) (f : file) (filename : string) : error + (string * M * file) :=
  match sanitizeFilename filename with
  | inl e => inl e
  | inr safe =>
      match check_size c w f with
      | inl e => inl e
      | inr f =>
          let n := Nat.min (read_n w) (Nat.min 512 (String.length (remaining f))) in
          let head := take_string n (remaining f) in
          match seek (rewind w) at_start (MkFile (content f) (pos f + n)) with
          | inl e => inl e
          | inr f =>
              let mt := Detect head in
              if negb (match allowedMime c with [] => true | _ => false end) && negb (mimeAllowed mt (allowedMime c))
              then inl (Err "mime type not allowed") else inr (safe, mt, f)
          end
      end
  end.

(** ** The local directory *)

(** [copied] is [None] when [io.Copy] succeeds, or its error after that many bytes; [removes] tells
    whether [os.Remove] works. *)
Record disk := MkDisk { mkdir : option error; open_ : option error; copied : option (error * nat);
  close_ : option error; removes : bool }.

Record LocalUploader := MkLocal { Path : string; lcfg : config }.
Definition NewLocalUploader (path : string) (opts : list (config -> config)) : LocalUploader :=
  MkLocal path (newConfig opts).

Definition Remove (d : disk) (p : string) (fs : gmap string string) : gmap string string :=
  if removes d then delete p fs else fs.

Definition Upload (u : LocalUploader) (w : io) (d : disk) (f : file) (filename : string) (fs : gmap string string)
    : (error + string) * gmap string string :=
  match validate (lcfg u) w f filename with
  | inl e => (inl e, fs)
  | inr (safe, _, f) =>
      match mkdir d with
      | Some e => (inl e, fs)
      | None =>
          let dstPath := PathJoin (Path u) safe in
          match open_ d with
          | Some e => (inl e, fs)
          | None =>
              match copied d with
              | Some (e, n) => (inl e, Remove d dstPath (<[dstPath := take_string n (remaining f)]> fs))
              | None =>
                  let fs := <[dstPath := remaining f]> fs in
                  match close_ d with Some e => (inl e, Remove d dstPath fs) | None => (inr dstPath, fs) end
              end
          end
      end
  end.

(** ** The bucket *)

(** One [PutObject]: key, declared size, content type and the bytes the client reads. *)
Record object := MkObject { o_key : string; o_size : Z; o_type : string; o_body : string }.
Record S3Uploader := MkS3 { bucket : string; scfg : config }.
Definition NewS3Uploader (bucket : string) (opts : list (config -> config)) : S3Uploader := MkS3 bucket (newConfig opts).

Definition S3Upload (u : S3Uploader) (w : io) (put : object -> option error) (f : file) (filename : string)
    : (error + string) * option object :=
  match validate (scfg u) w f filename with
  | inl e => (inl e, None)
  | inr (safe, mt, f) =>
      match seek (put_end w) at_end f with
      | inl e => (inl e, None)
      | inr f =>
          match seek (put_start w) at_start f with
          | inl e => (inl e, None)
          | inr f =>
              let key := keyPrefix (scfg u) +:+ safe in
              let o := MkObject key (size f) (mime_string mt) (remaining f) in
              match put o with
              | Some e => (inl (Wrap "uploader: put" [e]), Some o)
              | None => (inr (if String.eqb (baseURL (scfg u)) "" then key else baseURL (scfg u) +:+ key), Some o)
              end
          end
      end
  end.
End Uploader.

(** * Proofs *)

(** A name that stays inside its directory. *)
Definition plain_name (s : string) : Prop :=
  s <> ""%string /\ s <> "."%string /\ s <> ".."%string /\ contains_char "/" s = false.

Lemma Base_cases s : Base s = "."%string \/ Base s = "/"%string \/ (Base s <> ""%string /\ contains_char "/" (Base s) = false).
Proof.
  unfold Base. destruct (String.eqb_spec s ""); [by left|]. right. set (b := List.last _ _).
  destruct (String.eqb_spec b ""); [by left|]. right. split; [done|].
  assert (Hne : split "/" (trim_slashes s) <> []) by (unfold split; by destruct (split_go _ _)).
  apply (split_parts "/" (trim_slashes s)). unfold b. apply list_elem_of_In.
  destruct (exists_last Hne) as (l & x & Hl). rewrite Hl, last_last. apply in_or_app. right. by left.
Qed.

Lemma sanitize_safe name safe : sanitizeFilename name = inr safe -> plain_name safe.
Proof.
  unfold sanitizeFilename. intros H. destruct (Base_cases (Clean name)) as [Hb|[Hb|[Hne Hb]]]; [by rewrite Hb in H|by rewrite Hb in H|].
  destruct (String.eqb_spec (Base (Clean name)) "."), (String.eqb_spec (Base (Clean name)) ".."); try done.
  simpl in H. destruct (String.eqb _ _ || String.eqb _ _); [done|]. injection H as <-. by split_and!.
Qed.

Lemma clean_step_plain r stack x : plain_name x -> clean_step r stack x = x :: stack.
Proof.
  intros (H1 & H2 & H3 & _). unfold clean_step.
  by rewrite (proj2 (String.eqb_neq _ _) H1), (proj2 (String.eqb_neq _ _) H2), (proj2 (String.eqb_neq _ _) H3).
Qed.

Lemma plain_not_rooted x : plain_name x -> rooted x = false.
Proof. intros (H1 & _ & _ & H). destruct x as [|c x]; [done|]. simpl in *. by apply orb_false_iff in H as [H _]. Qed.

Lemma Clean_plain x : plain_name x -> Clean x = x.
Proof.
  intros Hx. unfold Clean. rewrite plain_not_rooted, split_nosep by (done || apply Hx). simpl.
  rewrite clean_step_plain by done. simpl. by rewrite string_app_nil_l.
Qed.

Lemma trim_slashes_plain x : contains_char "/" x = false -> trim_slashes x = x.
Proof.
  induction x as [|c x IH]; [done|]. simpl. intros [Hc Hx]%orb_false_iff. rewrite IH by done.
  unfold is_slash. by rewrite Hc.
Qed.

(** A plain name is kept as it is. *)
Lemma sanitize_plain x : plain_name x -> sanitizeFilename x = inr x.
Proof.
  intros Hx. unfold sanitizeFilename. rewrite Clean_plain by done. destruct Hx as (H1 & H2 & H3 & H4).
  assert (Base x = x) as ->.
  { unfold Base. rewrite (proj2 (String.eqb_neq _ _) H1), trim_slashes_plain, split_nosep by done. simpl.
    by rewrite (proj2 (String.eqb_neq _ _) H1). }
  rewrite (proj2 (String.eqb_neq _ _) H1), (proj2 (String.eqb_neq _ _) H2), (proj2 (String.eqb_neq _ _) H3).
  destruct (String.eqb_spec x "/") as [->|]; [done|done].
Qed.

(** [p] is the path of [name] directly in the (cleaned) directory [dir]. *)
Definition inside (dir name p : string) : Prop :=
  p = if String.eqb (Clean dir) "." then name
      else (if String.eqb (Clean dir) "/" then "/" else Clean dir +:+ "/") +:+ name.

(** The elements [Clean] keeps are never empty, "." or the separator. *)
Definition kept (x : string) : Prop := x <> ""%string /\ x <> "."%string /\ contains_char "/" x = false.

Lemma clean_step_kept r stack x : contains_char "/" x = false -> Forall kept stack -> Forall kept (clean_step r stack x).
Proof.
  intros Hx Hs. unfold clean_step. destruct (String.eqb_spec x ""), (String.eqb_spec x "."); simpl; try done.
  assert (Hk : kept x) by done. destruct (String.eqb_spec x ".."); [|by constructor].
  destruct stack as [|y rest]; [destruct r; [done|by constructor]|].
  destruct (String.eqb y ".."); [by constructor|by apply Forall_cons in Hs as [_ ?]].
Qed.

Lemma clean_stack_kept r dir : Forall kept (fold_left (clean_step r) (split "/" dir) []).
Proof. apply fold_left_inv; [constructor|]. intros stack x Hs Hx. apply clean_step_kept; [|done]. by eapply split_parts. Qed.

(** A joined path of kept elements is neither empty, nor "." nor does it start with a separator. *)
Lemma join_kept l : l <> [] -> Forall kept l -> join "/" l <> ""%string /\ join "/" l <> "."%string /\ rooted (join "/" l) = false.
Proof.
  intros Hne Hl. destruct l as [|x l]; [done|]. apply Forall_cons in Hl as [(H1 & H2 & H3) Hl].
  destruct x as [|c x]; [done|]. simpl in H3. apply orb_false_iff in H3 as [H3 _].
  destruct l as [|y l]; [by split_and!|].
  change (join "/" (String c x :: y :: l)) with (String c x +:+ ("/" +:+ join "/" (y :: l))).
  rewrite string_app_cons. split_and!; [done| |done]. destruct x; [done|by rewrite string_app_cons].
Qed.

Lemma PathJoin_inside dir x : plain_name x -> inside dir x (PathJoin dir x).
Proof.
  intros Hx. unfold PathJoin. destruct (String.eqb_spec dir "") as [->|Hd]; [by apply Clean_plain|].
  unfold inside. unfold Clean at 2. 
  assert (Hj : Clean (dir +:+ ("/" +:+ x)) =
    render_path (rooted dir) (x :: fold_left (clean_step (rooted dir)) (split "/" dir) [])).
  { unfold Clean. assert (rooted (dir +:+ ("/" +:+ x)) = rooted dir) as -> by (destruct dir; [done|by rewrite string_app_cons]).
    change ("/" +:+ x) with (String "/" x). rewrite split_app_sep, (split_nosep _ x), fold_left_app by apply Hx.
    simpl. by rewrite clean_step_plain. }
  rewrite Hj. unfold Clean. pose proof (clean_stack_kept (rooted dir) dir) as Hk.
  destruct (fold_left (clean_step (rooted dir)) (split "/" dir) []) as [|y stack].
  { destruct (rooted dir); simpl; by rewrite ?string_app_nil_l. }
  unfold render_path. set (l := rev (y :: stack)).
  assert (Hl : l <> []) by (unfold l; simpl; by destruct (rev stack)).
  assert (Hkl : Forall kept l) by (unfold l; apply Forall_rev; done).
  change (rev (x :: y :: stack)) with (l ++ [x]). rewrite join_snoc by done.
  destruct (join_kept l Hl Hkl) as (H1 & H2 & H3). rewrite string_app_assoc. generalize dependent (join "/" l). intros t H1 H2 H3.
  destruct (rooted dir).
  - change ("/" +:+ t) with (String "/" t). destruct t as [|c t]; [done|]. simpl. by rewrite !string_app_assoc.
  - rewrite string_app_nil_l. rewrite (proj2 (String.eqb_neq _ _) H2). destruct (String.eqb_spec t "/") as [->|]; [done|].
    by rewrite string_app_assoc.
Qed.

Lemma take_string_length s : take_string (String.length s) s = s.
Proof. induction s as [|c s IH]; simpl; [done|]. by rewrite IH. Qed.
Lemma take_string_min_length n s : take_string (Nat.min n (String.length s)) s = take_string n s.
Proof. revert n. induction s as [|c s IH]; intros [|n]; simpl; try done. by rewrite IH. Qed.

(** The head of the file type detection sees: what one [Read] into 512 bytes gives from the read
    position, which the size check has put at the start. *)
Definition head (c : config) (w : io) (f : file) : string :=
  take_string (Nat.min (read_n w) 512) (drop_string (if 0 <? maxSize c then O else pos f) (content f)).

Section UploaderProofs.
  Context {M : Type} (Detect : string -> M) (Is : M -> string -> bool) (mime_string : M -> string).

(** What validation lets through: the name, the size and the detected type; the file is rewound. *)
Lemma validate_ok c w f filename safe mt f' :
  validate Detect Is c w f filename = inr (safe, mt, f') ->
  plain_name safe /\ content f' = content f /\ pos f' = O /\ (0 < maxSize c -> size f <= maxSize c) /\
  (allowedMime c <> [] -> exists m, m ∈ allowedMime c /\ Is mt m = true) /\
  mt = Detect (head c w f).
Proof.
  unfold validate. destruct (sanitizeFilename filename) as [e|s] eqn:Hs; [done|]. apply sanitize_safe in Hs.
  assert (Hsize : forall f1, check_size c w f = inr f1 ->
    content f1 = content f /\ pos f1 = (if 0 <? maxSize c then O else pos f) /\ (0 < maxSize c -> size f <= maxSize c)).
  { unfold check_size. intros f1. destruct (Z.ltb_spec 0 (maxSize c)); [|intros [= <-]; split_and!; [done|done|lia]].
    destruct (seek_end w), (seek_start w); try done. simpl. change (size (at_start (at_end f))) with (size f). destruct (Z.ltb_spec (maxSize c) (size f)); [done|].
    intros [= <-]. split_and!; [done|done|unfold size in *; simpl in *; lia]. }
  destruct (check_size c w f) as [e|f1]; [done|]. destruct (Hsize f1 eq_refl) as (Hc & Hp & Hm).
  destruct (rewind w); [done|]. cbn [seek at_start content]. set (n := Nat.min _ _).
  set (mt0 := Detect (take_string n (remaining f1))).
  assert (Hmt : mt0 = Detect (head c w f)).
  { unfold mt0, head, n. rewrite Nat.min_assoc, take_string_min_length. unfold remaining. by rewrite Hp, Hc. }
  destruct (negb _ && negb (mimeAllowed Is mt0 (allowedMime c))) eqn:Ha; [done|]. intros [= <- <- <-]. split_and!; try done.
  intros Hne. destruct (allowedMime c) as [|m ms]; [done|]. simpl in Ha. apply negb_false_iff in Ha.
  change (existsb (Is mt0) (m :: ms) = true) in Ha. apply existsb_exists in Ha as (x & Hx & Hi). exists x. split; [by apply list_elem_of_In|done].
Qed.

(** (C39) An upload stays in its directory. Whatever file name a client sends (traversals, absolute
    paths, dots), the only path [Upload] can touch is a plain name directly inside the uploader's
    directory. On success it holds the file's whole content, within the size limit and of an
    allowed type, the type being detected on the first 512 bytes as far as one [Read] gave them;
    after an error either nothing has changed, or that path holds nothing any more or, when the
    clean-up removal failed too, the bytes copied so far. *)
Theorem Upload_contained u w d f filename fs :
  let '(r, fs') := Upload Detect Is u w d f filename fs in
  match r with
  | inr p =>
      (exists name, plain_name name /\ inside (Path u) name p) /\ fs' = <[p := content f]> fs /\
      (0 < maxSize (lcfg u) -> size f <= maxSize (lcfg u)) /\
      (allowedMime (lcfg u) <> [] -> exists m, m ∈ allowedMime (lcfg u) /\ Is (Detect (head (lcfg u) w f)) m = true)
  | inl _ =>
      fs' = fs \/ exists name p, plain_name name /\ inside (Path u) name p /\
        (if removes d then fs' = delete p fs else exists n, fs' = <[p := take_string n (content f)]> fs)
  end.
Proof.
  unfold Upload. destruct (validate Detect Is (lcfg u) w f filename) as [e|[[safe mt] f1]] eqn:Hv; [by left|].
  apply validate_ok in Hv as (Hs & Hc & Hp & Hsize & Hmime & Hmt).
  assert (Hin : inside (Path u) safe (PathJoin (Path u) safe)) by (by apply PathJoin_inside).
  assert (Hrest : remaining f1 = content f) by (unfold remaining; by rewrite Hp, Hc).
  destruct (mkdir d); [by left|]. destruct (open_ d); [by left|]. unfold Remove. rewrite Hrest.
  assert (Hrem : forall n, if removes d
    then (if removes d then delete (PathJoin (Path u) safe) (<[PathJoin (Path u) safe := take_string n (content f)]> fs)
          else <[PathJoin (Path u) safe := take_string n (content f)]> fs) = delete (PathJoin (Path u) safe) fs
    else exists k, (if removes d then delete (PathJoin (Path u) safe) (<[PathJoin (Path u) safe := take_string n (content f)]> fs)
          else <[PathJoin (Path u) safe := take_string n (content f)]> fs) = <[PathJoin (Path u) safe := take_string k (content f)]> fs).
  { intros n. destruct (removes d); [by rewrite delete_insert_eq|by exists n]. }
  destruct (copied d) as [[e k]|]; [right; exists safe, (PathJoin (Path u) safe); split_and!; [done..|apply Hrem]|].
  destruct (close_ d).
  - right. exists safe, (PathJoin (Path u) safe). split_and!; [done..|].
    specialize (Hrem (String.length (content f))). by rewrite take_string_length in Hrem.
  - split_and!; [by exists safe|done|done|]. rewrite <- Hmt. exact Hmime.
Qed.

(** The same for the bucket: the key is the prefix and a plain name, the body the whole file, the
    size the number of bytes sent; nothing is put when validation fails. *)
Lemma S3Upload_spec u w put f filename :
  let '(r, o) := S3Upload Detect Is mime_string u w put f filename in
  match o with
  | Some o => exists name, plain_name name /\ o_key o = keyPrefix (scfg u) +:+ name /\ o_body o = content f /\
      o_size o = Z.of_nat (String.length (o_body o)) /\ (0 < maxSize (scfg u) -> o_size o <= maxSize (scfg u)) /\
      (put o = None <-> exists url, r = inr url) /\ (forall url, r = inr url -> url = baseURL (scfg u) +:+ o_key o)
  | None => exists e, r = inl e
  end.
Proof.
  unfold S3Upload. destruct (validate Detect Is (scfg u) w f filename) as [e|[[safe mt] f1]] eqn:Hv; [by exists e|].
  apply validate_ok in Hv as (Hs & Hc & Hp & Hsize & _). destruct (put_end w) as [e|]; [by exists e|]. simpl.
  destruct (put_start w) as [e|]; [by exists e|]. simpl. unfold size in *. simpl. rewrite Hc.
  set (o := MkObject _ _ _ _). assert (Hk : o_key o = keyPrefix (scfg u) +:+ safe) by done.
  assert (Hb : o_body o = content f) by (unfold o, remaining; simpl; by rewrite ?Hc).
  destruct (put o) as [e|] eqn:Hput; exists safe; split_and!; try done; try (by rewrite ?Hb).
  - split; [by rewrite Hput|by intros [? ?]].
  - split; [intros _; eauto|done].
  - intros url [= <-]. rewrite Hk. destruct (String.eqb_spec (baseURL (scfg u)) "") as [->|]; [by rewrite string_app_nil_l|done].
Qed.
End UploaderProofs.

(** Re-uploading under a name truncates the earlier file before copying; when the copy fails the
    earlier upload is gone. *)
Lemma failed_upload_destroys_previous :
  let d := MkDisk None None (Some (Err "connection reset", 2%nat)) None true in
  let '(r, fs') := Upload (M := unit) (fun _ => tt) (fun _ _ => true) (NewLocalUploader "up" [])
    (MkIO None None None 512 None None) d (MkFile "new" 0) "../up/a.png" {["up/a.png"%string := "old"%string]} in
  r = inl (Err "connection reset") /\ fs' = ∅.
Proof. vm_compute. split; reflexivity. Qed.

Example traversal : sanitizeFilename "../../etc/passwd" = inr "passwd"%string /\ sanitizeFilename ".." = inl (Err "invalid filename").
Proof. split; reflexivity. Qed.
