(* ===== verification/Health.v ===== *)
(** * Health endpoints (health/health.go, probes.go, readiness.go)

    The readiness checks run concurrently; the handler collects their results in the order they
    arrive, or the overall timer fires first. An execution is the list of the positions of the
    checks whose result it received, in order of arrival; one shorter than the list of checks
    ended by the timer. *)

From S2P Require Import Prelude GoStrings.
Open Scope Z_scope.

(** What a check's function does. *)
Inductive outcome := Passes | Fails (msg : string) | Panics (v : string).

Record NamedCheck := Check { Name : string; Fn : outcome }.

(** The goroutine's result: its message and whether the check passed. *)
Definition result (chk : NamedCheck) : string * bool :=
  match Fn chk with
  | Passes => ("ok", true)
  | Fails msg => (msg, false)
  | Panics v => ("panic: " +:+ v, false)
  end%string.

(** One received result. *)
Definition receive (checks : list NamedCheck) (st : bool * gmap string string) (i : nat) : bool * gmap string string :=
  match checks !! i with
  | Some chk => let '(msg, ok) := result chk in (st.1 && ok, <[Name chk := msg]> st.2)
  | None => st
  end.

(** The timer: the checks that have no result yet. *)
Definition time_out (checks : list NamedCheck) (detail : gmap string string) : gmap string string :=
  fold_left (fun d chk => match d !! Name chk with Some _ => d | None => <[Name chk := "timeout"%string]> d end) checks detail.

Definition runChecks (checks : list NamedCheck) (arrivals : list nat) : bool * gmap string string :=
  let '(allOK, detail) := fold_left (receive checks) arrivals (true, ∅) in
  if (length arrivals <? length checks)%nat then (false, time_out checks detail) else (allOK, detail).

(** The handlers of [RegisterProviderAt]: the status code and the JSON body. *)
Record reply := Reply { code : Z; status : string; detail : gmap string string }.
Definition livez : reply := Reply 200 "ok" ∅.
Definition readyz (provider : list NamedCheck) (arrivals : list nat) : reply :=
  let '(ok, detail) := runChecks provider arrivals in
  Reply (if ok then 200 else 503) (if ok then "ok" else "error") detail.

(** ** Probes *)

(** [PingHTTP] on the answer of the transport. *)
Definition PingHTTP (name : string) (answer : string + Z) : NamedCheck :=
  Check name match answer with
             | inl e => Fails e
             | inr c => if 500 <=? c then Fails ("health: " +:+ (name +:+ (" returned status " +:+ itoa c))) else Passes
             end.

(** [PingBun], [PingRedis] and [PingTCP] on the answers of the clients: of a ping, and of dialing and of closing the connection. *)
Definition answered (err : option string) : outcome := match err with Some e => Fails e | None => Passes end.
Definition PingBun (ping : option string) : NamedCheck := Check "db" (answered ping).
Definition PingRedis (ping : option string) : NamedCheck := Check "redis" (answered ping).
Definition PingTCP (name : string) (dial close : option string) : NamedCheck :=
  Check name match dial with Some e => Fails e | None => answered close end.

(** ** The readiness gate *)

Record ReadinessGate := Gate { closed : bool }.
Definition NewReadinessGate : ReadinessGate := Gate false.
Definition Close (g : ReadinessGate) : ReadinessGate := Gate true.
Definition Open_ (g : ReadinessGate) : ReadinessGate := Gate false.
Definition Ready (g : ReadinessGate) : bool := negb (closed g).
Definition GateCheck (g : ReadinessGate) : NamedCheck := Check "readiness" (if closed g then Fails "draining" else Passes).

(** * Proofs *)

(** An execution: every check reports at most once. *)
Definition execution (checks : list NamedCheck) (arrivals : list nat) : Prop :=
  NoDup arrivals /\ Forall (fun i => (i < length checks)%nat) arrivals.

Lemma execution_length checks arrivals : execution checks arrivals -> (length arrivals <= length checks)%nat.
Proof.
  intros [Hn Hf]. assert (length (seq 0 (length checks)) = length checks) as <- by apply length_seq.
  apply submseteq_length, NoDup_submseteq; [done|]. intros i Hi. rewrite Forall_forall in Hf. apply elem_of_seq.
  specialize (Hf i Hi). lia.
Qed.

(** A full execution hears of every check. *)
Lemma execution_full checks arrivals i :
  execution checks arrivals -> length arrivals = length checks -> (i < length checks)%nat -> i ∈ arrivals.
Proof.
  intros [Hn Hf] Hl Hi. assert (arrivals ≡ₚ seq 0 (length checks)) as ->.
  { apply submseteq_length_Permutation; [|by rewrite length_seq, Hl]. apply NoDup_submseteq; [done|].
    intros j Hj. rewrite Forall_forall in Hf. apply elem_of_seq. specialize (Hf j Hj). lia. }
  apply elem_of_seq. lia.
Qed.

Lemma name_inj checks i j a b : NoDup (map Name checks) -> checks !! i = Some a -> checks !! j = Some b -> Name a = Name b -> i = j.
Proof.
  intros Hnd Ha Hb Hn. apply (NoDup_lookup (Name <$> checks) _ _ (Name a) Hnd); rewrite list_lookup_fmap, ?Ha, ?Hb; [done|].
  by rewrite Hn.
Qed.

Definition passed (checks : list NamedCheck) (i : nat) : Prop := exists chk, checks !! i = Some chk /\ Fn chk = Passes.

Lemma receive_spec checks arrivals b d : Forall (fun i => (i < length checks)%nat) arrivals ->
  let '(b', d') := fold_left (receive checks) arrivals (b, d) in
  (b' = true <-> b = true /\ Forall (passed checks) arrivals) /\
  (forall n, (forall i chk, i ∈ arrivals -> checks !! i = Some chk -> Name chk <> n) -> d' !! n = d !! n) /\
  (NoDup (map Name checks) -> NoDup arrivals -> forall i chk, i ∈ arrivals -> checks !! i = Some chk ->
     d' !! Name chk = Some (result chk).1).
Proof.
  revert b d; induction arrivals as [|i l IH]; intros b d Hf; simpl.
  { split_and!; [|done|set_solver]. split; [by intros ->|by intros [-> _]]. }
  apply Forall_cons in Hf as [Hi Hf]. unfold receive at 2. destruct (checks !! i) as [chk|] eqn:Hc; [|apply lookup_ge_None in Hc; lia].
  destruct (result chk) as [msg ok] eqn:Hr. specialize (IH (b && ok) (<[Name chk := msg]> d) Hf). cbn [fst snd].
  destruct (fold_left _ l _) as [b' d']. destruct IH as (Hb & Hk & Hd). split_and!.
  - rewrite Hb, andb_true_iff, Forall_cons. assert (ok = true <-> passed checks i) as ->; [|tauto].
    unfold passed. unfold result in Hr. rewrite Hc. split.
    + intros ->. exists chk. split; [done|]. by destruct (Fn chk).
    + intros (x & [= <-] & Hp). rewrite Hp in Hr. congruence.
  - intros n Hn. rewrite Hk; [apply lookup_insert_ne; apply (Hn i); [by left|done]|]. intros j x Hj. apply Hn. by right.
  - intros Hnd [Hni Hndl]%NoDup_cons j x [->|Hj]%elem_of_cons Hx; [|by apply (Hd Hnd Hndl j)].
    rewrite Hc in Hx. injection Hx as <-. rewrite Hk, lookup_insert_eq, Hr; [done|].
    intros j x Hj Hx Heq. apply Hni. assert (j = i) as <-; [|done].
    by apply (name_inj checks j i x chk).
Qed.

Lemma time_out_lookup checks d n :
  time_out checks d !! n =
    match d !! n with Some m => Some m | None => if bool_decide (n ∈ map Name checks) then Some "timeout"%string else None end.
Proof.
  unfold time_out. revert d; induction checks as [|chk checks IH]; intros d; cbn [fold_left map].
  { destruct (d !! n); [done|]. by rewrite bool_decide_eq_false_2 by set_solver. }
  rewrite IH. destruct (d !! Name chk) as [m|] eqn:Hd.
  - destruct (d !! n) eqn:Hn; [done|]. assert (n <> Name chk) by congruence. repeat case_bool_decide; set_solver.
  - destruct (decide (n = Name chk)) as [->|Hne].
    + rewrite lookup_insert_eq, Hd, bool_decide_eq_true_2; set_solver.
    + rewrite lookup_insert_ne by done. destruct (d !! n); [done|]. repeat case_bool_decide; set_solver.
Qed.

Lemma not_all_arrived (checks : list NamedCheck) (arrivals : list nat) : (length arrivals < length checks)%nat ->
  ~ (forall i, (i < length checks)%nat -> i ∈ arrivals).
Proof.
  intros Hlt Hall. assert (length (seq 0 (length checks)) <= length arrivals)%nat; [|rewrite length_seq in *; lia].
  apply submseteq_length, NoDup_submseteq; [apply NoDup_seq|]. intros i [_ Hi]%elem_of_seq. by apply Hall.
Qed.

Lemma runChecks_ok checks arrivals : execution checks arrivals ->
  (runChecks checks arrivals).1 = true <-> forall i, (i < length checks)%nat -> i ∈ arrivals /\ passed checks i.
Proof.
  intros Hex. destruct (proj1 (conj Hex I)) as [_ Hf]. unfold runChecks.
  pose proof (receive_spec checks arrivals true ∅ Hf) as Hr. destruct (fold_left _ arrivals _) as [b d].
  destruct Hr as (Hb & _). pose proof (execution_length _ _ Hex) as Hlen. rewrite Forall_forall in Hb, Hf.
  destruct (Nat.ltb_spec (length arrivals) (length checks)) as [Hlt|Hge]; simpl.
  - split; [done|]. intros Hall. destruct (not_all_arrived checks arrivals Hlt). intros i Hi. by apply Hall.
  - split.
    + intros ->. intros i Hi. assert (i ∈ arrivals) by (eapply execution_full; [done|lia|done]). split; [done|].
      by apply (proj1 Hb eq_refl).
    + intros Hall. apply Hb. split; [done|]. intros i Hi. by apply Hall, Hf.
Qed.

Lemma readyz_code checks arrivals :
  code (readyz checks arrivals) = if (runChecks checks arrivals).1 then 200 else 503.
Proof. unfold readyz. by destruct (runChecks checks arrivals). Qed.

(** Readiness is sound and complete under every arrival order and every timing: /readyz answers
    200 exactly when every check reported in time and passed, and 503 otherwise. With distinct
    names the body has one entry per check: its own message if it reported (errors and panics
    included), "timeout" if it did not; so the answer does not depend on the order of arrival. *)
Theorem readyz_spec checks arrivals :
  execution checks arrivals ->
  let r := readyz checks arrivals in
  (code r = 200 <-> forall i, (i < length checks)%nat -> i ∈ arrivals /\ passed checks i) /\
  (code r = 200 \/ code r = 503) /\
  (NoDup (map Name checks) -> forall i chk, checks !! i = Some chk ->
     detail r !! Name chk = Some (if bool_decide (i ∈ arrivals) then (result chk).1 else "timeout"%string)) /\
  (forall n, n ∉ map Name checks -> detail r !! n = None).
Proof.
  intros Hex. pose proof (execution_length _ _ Hex) as Hlen. destruct (proj1 (conj Hex I)) as [Hnd Hf].
  intros r. split.
  { unfold r. rewrite readyz_code, <- (runChecks_ok checks arrivals Hex). by destruct (runChecks checks arrivals) as [[] ?]. }
  split; [unfold r; rewrite readyz_code; destruct (runChecks checks arrivals) as [[] ?]; auto|].
  unfold r, readyz, runChecks. pose proof (receive_spec checks arrivals true ∅ Hf) as Hr.
  destruct (fold_left _ arrivals _) as [b d]. destruct Hr as (Hb & Hk & Hd).
  assert (Hnone : forall i chk, NoDup (map Name checks) -> checks !! i = Some chk -> i ∉ arrivals -> d !! Name chk = None).
  { intros i chk Hn Hc Hi. rewrite Hk; [done|]. intros j x Hj Hx Heq. apply Hi.
    by rewrite <- (name_inj checks j i x chk). }
  assert (Hout : forall n, n ∉ map Name checks -> d !! n = None).
  { intros n Hn. rewrite Hk; [done|]. intros i chk _ Hc Heq. apply Hn. rewrite <- Heq. apply list_elem_of_fmap.
    exists chk. split; [done|]. by eapply list_elem_of_lookup_2. }
  destruct (Nat.ltb_spec (length arrivals) (length checks)) as [Hlt|Hge]; cbn [detail]; split.
  - intros Hn i chk Hc. rewrite time_out_lookup. destruct (decide (i ∈ arrivals)) as [Hi|Hi].
    { by rewrite (Hd Hn Hnd i chk), (bool_decide_eq_true_2 (i ∈ arrivals)). }
    rewrite (Hnone i chk), (bool_decide_eq_false_2 (i ∈ arrivals)), bool_decide_eq_true_2; [done| |done..]. apply list_elem_of_fmap. exists chk.
    split; [done|]. by eapply list_elem_of_lookup_2.
  - intros n Hn. by rewrite time_out_lookup, Hout, bool_decide_eq_false_2.
  - intros Hn i chk Hc. assert (Hi : i ∈ arrivals).
    { eapply execution_full; [done|lia|by eapply lookup_lt_Some]. }
    by rewrite (Hd Hn Hnd i chk), bool_decide_eq_true_2.
  - done.
Qed.

Lemma readyz_spec_witness :
  let checks := [GateCheck NewReadinessGate; PingHTTP "billing" (inr 503); Check "db" Passes] in
  execution checks [2%nat; 1%nat] /\
  detail (readyz checks [2%nat; 1%nat]) !! "billing"%string = Some "health: billing returned status 503"%string.
Proof.
  set (checks := [GateCheck NewReadinessGate; PingHTTP "billing" (inr 503); Check "db" Passes]).
  assert (Hex : execution checks [2%nat; 1%nat]) by (split; refine (bool_decide_unpack _ _); vm_compute; exact I).
  split; [exact Hex|]. refine (proj1 (proj2 (proj2 (readyz_spec checks [2%nat; 1%nat] Hex))) _ 1%nat (PingHTTP "billing" (inr 503)) eq_refl).
  refine (bool_decide_unpack _ _); vm_compute; exact I.
Defined.

(** A closed gate makes the service not ready, whatever the other checks and the timing. *)
Lemma draining_not_ready g others arrivals :
  execution (GateCheck (Close g) :: others) arrivals -> code (readyz (GateCheck (Close g) :: others) arrivals) = 503.
Proof.
  intros Hex. rewrite readyz_code. destruct (runChecks _ arrivals).1 eqn:H; [|done]. pose proof (proj1 (runChecks_ok _ _ Hex) H) as Hall.
  destruct (Hall 0%nat) as (_ & chk & [= <-] & Hp); [simpl; lia|done].
Qed.

(** Two checks of one name: the body shows a single entry, which can say "ok" of a failed check. *)
Lemma duplicate_names_hide_failures :
  readyz [Check "db" (Fails "primary down"); Check "db" Passes] [0; 1]%nat = Reply 503 "error" {["db"%string := "ok"%string]}.
Proof. vm_compute. reflexivity. Qed.
