(* ===== verification/Events.v ===== *)
(** * The in-process event bus (events/events.go)

    Handlers are function values: identified by a number, their behaviour is [exec], which may
    work on any state and on the bus itself (a handler can subscribe others while it runs). *)

From S2P Require Import Prelude.
Open Scope Z_scope.

Section Events.
  (** Event types, events, the rest of the program's state. *)
  Context {K V S : Type} `{Countable K}.

Record Bus := MkBus { handlers : gmap K (list nat); async : bool }.

Definition WithAsync (b : Bus) : Bus := MkBus (handlers b) true.
Definition New (opts : list (Bus -> Bus)) : Bus := fold_left (fun b o => o b) opts (MkBus ∅ false).

Definition registered (key : K) (b : Bus) : list nat := default [] (handlers b !! key).
Definition Subscribe (key : K) (handler : nat) (b : Bus) : Bus :=
  MkBus (<[key := registered key b ++ [handler]]> (handlers b)) (async b).

Context (exec : nat -> V -> S * Bus -> option error * (S * Bus)).

(** The handlers of a list in order, with their errors. *)
Fixpoint deliver (evt : V) (hs : list nat) (w : S * Bus) : list (option error) * (S * Bus) :=
  match hs with
  | [] => ([], w)
  | h :: hs => let '(e, w1) := exec h evt w in let '(es, w2) := deliver evt hs w1 in (e :: es, w2)
  end.

(** [Publish]: the second component is what it has started in goroutines, to run later. *)
Definition Publish (key : K) (evt : V) (w : S * Bus) : option error * list nat * (S * Bus) :=
  let hs := registered key w.2 in
  if async w.2 then (None, hs, w) else let '(es, w') := deliver evt hs w in (errors_join es, [], w').

Lemma subscribe_registered key h b key' :
  registered key' (Subscribe key h b) = if decide (key' = key) then registered key b ++ [h] else registered key' b.
Proof.
  unfold Subscribe, registered. simpl. destruct (decide (key' = key)) as [->|Hne]; [by rewrite lookup_insert_eq|].
  by rewrite lookup_insert_ne.
Qed.

(** Handlers run in the order of subscription, once each. *)
Lemma subscribe_all_registered key hs b : registered key (fold_left (fun b h => Subscribe key h b) hs b) = registered key b ++ hs.
Proof.
  revert b; induction hs as [|h hs IH]; intros b; simpl; [by rewrite app_nil_r|].
  by rewrite IH, subscribe_registered, decide_True, <- app_assoc.
Qed.

(** The state before the i-th delivery. *)
Fixpoint before (i : nat) (evt : V) (hs : list nat) (w : S * Bus) : S * Bus :=
  match i, hs with
  | Datatypes.S i, h :: hs => before i evt hs (exec h evt w).2
  | _, _ => w
  end.

Lemma deliver_spec evt hs w :
  length (deliver evt hs w).1 = length hs /\ (deliver evt hs w).2 = before (length hs) evt hs w /\
  forall i h, hs !! i = Some h -> (deliver evt hs w).1 !! i = Some (exec h evt (before i evt hs w)).1.
Proof.
  revert w; induction hs as [|h hs IH]; intros w; simpl; [done|].
  destruct (exec h evt w) as [e w1] eqn:He. specialize (IH w1). destruct (deliver evt hs w1) as [es w2]. simpl in *.
  destruct IH as (Hl & Hw & Hi). split_and!; [by rewrite Hl|done|]. intros [|i] x Hx; simpl in *; [|rewrite He; by apply Hi].
  injection Hx as <-. by rewrite He.
Qed.

Lemma errors_join_none es : errors_join es = None <-> forall e, e ∈ es -> e = None.
Proof.
  unfold errors_join. induction es as [|[e|] es IH]; simpl.
  - split; [set_solver|done].
  - split; [done|]. intros Hall. by specialize (Hall (Some e) ltac:(by left)).
  - change (omap id (None :: es)) with (omap id es). rewrite IH. split; [|set_solver].
    intros Hall e [->|He]%elem_of_cons; [done|by apply Hall].
Qed.

(** Synchronous delivery: every handler registered for the event's type when [Publish] is called
    runs exactly once, in the order of subscription, each on the state its predecessor left, even
    after failures and even if handlers subscribe more handlers meanwhile; the result is nil
    exactly when none failed. *)
Theorem Publish_delivers_all key evt w :
  async w.2 = false ->
  let hs := registered key w.2 in
  let '(r, spawned, w') := Publish key evt w in
  spawned = [] /\ w' = before (length hs) evt hs w /\
  (r = None <-> forall i h, hs !! i = Some h -> (exec h evt (before i evt hs w)).1 = None).
Proof.
  intros Ha. unfold Publish. rewrite Ha. set (hs := registered key w.2). pose proof (deliver_spec evt hs w) as Hd.
  destruct (deliver evt hs w) as [es w']. simpl in Hd. destruct Hd as (Hl & -> & Hi). split_and!; [done|done|].
  rewrite errors_join_none. split.
  - intros Hall i h Hh. apply Hall. eapply list_elem_of_lookup_2. by apply Hi.
  - intros Hall e (i & He)%list_elem_of_lookup_1. assert (i < length hs)%nat as [h Hh]%lookup_lt_is_Some_2
      by (rewrite <- Hl; by eapply lookup_lt_Some).
    rewrite (Hi i h Hh) in He. injection He as <-. by apply Hall.
Qed.

(** Asynchronous delivery: nothing has run when [Publish] returns nil, and the registered handlers are started. *)
Lemma Publish_async key evt w : async w.2 = true -> Publish key evt w = (None, registered key w.2, w).
Proof. intros Ha. unfold Publish. by rewrite Ha. Qed.
End Events.

(** A handler that subscribes another (handler 2) and one that fails. *)
Definition demo_exec (h : nat) (evt : string) (w : list string * Bus (K := string)) : option error * (list string * Bus (K := string)) :=
  match h with
  | O => (Some (Err "smtp down"), w)
  | 1%nat => (None, (w.1 ++ [evt], Subscribe "user.created"%string 2%nat w.2))
  | _ => (None, (w.1 ++ ["late"%string], w.2))
  end.

Lemma Publish_delivers_all_witness :
  let b := fold_left (fun b h => Subscribe "user.created"%string h b) [0; 1]%nat (New []) in
  async b = false /\
  match Publish demo_exec "user.created"%string "ada"%string (([], b) : list string * Bus) with (r, _, w') => r <> None /\ w'.1 = ["ada"%string] end.
Proof.
  set (b := fold_left (fun b h => Subscribe "user.created"%string h b) [0; 1]%nat (New [])). split; [reflexivity|].
  pose proof (Publish_delivers_all demo_exec "user.created"%string "ada"%string (([], b) : list string * Bus) eq_refl) as H.
  destruct (Publish _ _ _ _) as [[r sp] w']. destruct H as (_ & -> & Hr). split; [|vm_compute; reflexivity].
  intros ->. pose proof (proj1 Hr eq_refl 0%nat 0%nat eq_refl) as Hf. discriminate Hf.
Defined.
