(* ===== verification/DbResolver.v ===== *)
(** * Read/write split (dbresolver/dbresolver.go)

    The counter is an [atomic.Uint64]: concurrent [Reader] calls are ordered by their additions. *)

From S2P Require Import Prelude.
Open Scope Z_scope.

Section Resolver.
  Context {DB : Type}.

Record Resolver := MkResolver { primary : DB; replicas : list DB; counter : Z }.
Definition New (primary : DB) (replicas : list DB) : Resolver := MkResolver primary replicas 0.
Definition Writer (r : Resolver) : DB := primary r.

Definition Reader (r : Resolver) : DB * Resolver :=
  match replicas r with
  | [] => (primary r, r)
  | rep :: _ =>
      let c := wrapu 64 (counter r + 1) in
      let i := wrapu 64 (c - 1) in
      (nth (Z.to_nat (i mod Z.of_nat (length (replicas r)))) (replicas r) rep, MkResolver (primary r) (replicas r) c)
  end.

(** [Ping] and [Close]: every connection is tried, the primary first; the errors are joined. *)
Definition Ping (ping : DB -> option error) (r : Resolver) : option error := errors_join (map ping (primary r :: replicas r)).
Definition Close (close : DB -> option error) (r : Resolver) : option error := errors_join (map close (primary r :: replicas r)).

Fixpoint reads (n : nat) (r : Resolver) : list DB :=
  match n with O => [] | S n => let '(d, r') := Reader r in d :: reads n r' end.

Lemma reads_nth n r rep l : replicas r = rep :: l -> 0 <= counter r -> counter r + Z.of_nat n < 2 ^ 64 ->
  reads n r = map (fun i => nth (Z.to_nat ((counter r + Z.of_nat i) mod Z.of_nat (length (replicas r)))) (replicas r) rep) (seq 0 n).
Proof.
  revert r; induction n as [|n IH]; intros r Hr Hc Hn; [done|]. cbn [reads]. unfold Reader at 1. rewrite Hr.
  set (r' := MkResolver _ _ _). assert (Hw : wrapu 64 (counter r + 1) = counter r + 1) by (apply Z.mod_small; lia).
  assert (Hi : wrapu 64 (wrapu 64 (counter r + 1) - 1) = counter r) by (rewrite Hw; unfold wrapu; rewrite Z.mod_small; lia).
  rewrite (IH r') by (unfold r'; cbn; rewrite ?Hw; (done || lia)). cbn [seq map].
  rewrite Hi, Z.add_0_r. f_equal. unfold r'. cbn [counter replicas]. rewrite Hw, <- seq_shift, map_map.
  apply map_ext. intros i. do 3 f_equal. lia.
Qed.

Lemma rotation_Permutation (n : nat) c : (0 < n)%nat ->
  map (fun i => Z.to_nat ((c + Z.of_nat i) mod Z.of_nat n)) (seq 0 n) ≡ₚ seq 0 n.
Proof.
  intros Hn. apply submseteq_length_Permutation; [|by rewrite length_map].
  apply NoDup_submseteq.
  - apply NoDup_ListNoDup, NoDup_map_NoDup_ForallPairs; [|apply seq_NoDup]. intros i j [_ Hi]%in_seq [_ Hj]%in_seq Heq.
    apply Z2Nat.inj in Heq; [|apply Z.mod_pos_bound; lia..].
    assert ((Z.of_nat i - Z.of_nat j) mod Z.of_nat n = 0) as Hd.
    { replace (Z.of_nat i - Z.of_nat j) with ((c + Z.of_nat i) - (c + Z.of_nat j)) by lia. rewrite Zminus_mod, Heq, Z.sub_diag. done. }
    apply Z.mod_divide in Hd as [q Hq]; [|lia]. destruct (Z.eq_dec q 0) as [->|Hq0]; [lia|]. exfalso. assert (Z.of_nat n <= Z.abs (q * Z.of_nat n)) by nia. lia.
  - intros k (i & -> & _)%list_elem_of_fmap. apply elem_of_seq. pose proof (Z.mod_pos_bound (c + Z.of_nat i) (Z.of_nat n)). lia.
Qed.

(** Reads are spread evenly: from any point on, as many consecutive [Reader] calls as there are
    replicas use every replica exactly once (the counter not wrapping meanwhile), and none reads
    from the primary unless it is the only database. *)
Theorem reader_round_robin r :
  replicas r <> [] -> 0 <= counter r -> counter r + Z.of_nat (length (replicas r)) < 2 ^ 64 ->
  reads (length (replicas r)) r ≡ₚ replicas r.
Proof.
  intros Hne Hc Hn. destruct (replicas r) as [|rep l] eqn:Hr; [done|].
  rewrite (reads_nth _ r rep l Hr), Hr by done. set (reps := rep :: l) in *.
  rewrite <- (map_map (fun i => Z.to_nat ((counter r + Z.of_nat i) mod Z.of_nat (length reps))) (fun k => nth k reps rep)).
  rewrite (rotation_Permutation (length reps)) by (simpl; lia).
  assert (map (fun k => nth k reps rep) (seq 0 (length reps)) = reps) as ->; [|done].
  apply (nth_ext _ _ rep rep); [by rewrite length_map, length_seq|]. intros k. rewrite length_map, length_seq. intros Hk.
  rewrite (nth_indep _ rep (nth 0 reps rep)) by (by rewrite length_map, length_seq).
  rewrite (map_nth (fun k => nth k reps rep)). by rewrite seq_nth.
Qed.
End Resolver.

Lemma reader_round_robin_witness :
  let r := MkResolver "primary"%string ["a"; "b"; "c"]%string 7 in
  replicas r <> [] /\ reads (length (replicas r)) r ≡ₚ ["a"; "b"; "c"]%string.
Proof.
  split; [discriminate|]. apply (reader_round_robin (MkResolver "primary"%string ["a"; "b"; "c"]%string 7)); (discriminate || (vm_compute; discriminate) || reflexivity).
Defined.
