(* ===== verification/Config.v ===== *)
(** * Loading configuration from the environment (config/config.go)

    A struct is the list of its fields (reflection's view: type, tags, settability) with their
    values. The working directory, the .env file (godotenv) and the environment it leaves are
    inputs. The texts of the parsers' own errors are abbreviated. The specification of the
    loader is stated by functions of its own ([text_of], [reading]), not by the loader's. *)

From S2P Require Import Prelude GoStrings GoFloat.
Open Scope Z_scope.

(** The kinds [setField] tells apart; the width of [int] and [uint] is 0. [KNamedStrings] is a
    slice whose elements have a defined string type (kind string, another type). *)
Inductive kind :=
| KDuration | KString | KBool | KInt (width : Z) | KUint (width : Z) | KFloat (width : Z)
| KStrings | KNamedStrings | KSlice | KOther.

Inductive value :=
| VString (s : string) | VBool (b : bool) | VInt (n : Z) | VUint (n : Z) | VFloat (f : spec_float) | VStrings (l : list string) | VZero.

Record field := MkField { tag : string; default_ : option string; required : string; settable : bool; f_kind : kind }.

(** The platform's word where the width is 0. *)
Definition intBitSize (k : kind) : Z :=
  match k with KInt w | KUint w => if w =? 0 then 64 else w | _ => 64 end.

(** What [setField] does with the field: sets it, returns an error, or panics in [fv.Set]. *)
Inductive effect := Sets (v : value) | Fails (text : string) | Panics.

Definition of_option {A} (msg : string) (f : A -> value) (o : option A) : effect :=
  match o with Some a => Sets (f a) | None => Fails msg end.

Definition setField (k : kind) (raw : string) : effect :=
  match k with
  | KDuration => of_option "invalid duration" VInt (parse_duration raw)
  | KString => Sets (VString raw)
  | KBool => of_option "invalid syntax" VBool (parse_bool raw)
  | KInt _ => of_option "invalid syntax or range" VInt (parse_int (intBitSize k) raw)
  | KUint _ => of_option "invalid syntax or range" VUint (parse_uint (intBitSize k) raw)
  | KFloat w =>
      let bits := if w =? 32 then 32 else 64 in
      of_option "invalid syntax or range" VFloat (parse_float bits raw)
  | KStrings => Sets (VStrings (map trim_space (split "," raw)))
  | KNamedStrings => Panics
  | KSlice => Fails "unsupported slice element type"
  | KOther => Fails "unsupported type"
  end.

Record source := MkSource { wd : option error; dotenv : option (error * bool); getenv : string -> string }.

(** A field's key and raw text: the variable, or the default when it is empty. *)
Definition key (f : field) : string := to_upper (tag f).
Definition raw (src : source) (f : field) : string :=
  let v := getenv src (key f) in
  if String.eqb v "" then match default_ f with Some d => d | None => v end else v.

(** A field the loop considers. *)
Definition active (f : field) : bool := negb (String.eqb (tag f) "") && settable f.

(** One iteration: the missing keys, the parse errors and the field's new value; [None] is the
    panic of [fv.Set]. *)
Definition load_field (src : source) (f : field) (v : value) : option (list string * list string * value) :=
  if negb (active f) then Some ([], [], v)
  else
    let r := raw src f in
    if String.eqb r "" then Some ((if String.eqb (required f) "true" then [key f] else []), [], v)
    else match setField (f_kind f) r with
         | Fails t => Some ([], [key f +:+ (": " +:+ t)], v)
         | Panics => None
         | Sets v' => Some ([], [], v')
         end.

(** The loop: the keys and errors it collected unless it panicked, and the values it leaves. *)
Fixpoint load_fields (src : source) (l : list (field * value)) : option (list string * list string) * list value :=
  match l with
  | [] => (Some ([], []), [])
  | (f, v) :: l =>
      match load_field src f v with
      | None => (None, v :: map snd l)
      | Some (m, p, v') =>
          let '(r, vs) := load_fields src l in
          (match r with Some (ms, ps) => Some (m ++ ms, p ++ ps) | None => None end, v' :: vs)
      end
  end.

Definition problems (missing parseErrs : list string) : list string :=
  (if match missing with [] => true | _ => false end then [] else ["missing required config: " +:+ join ", " missing]) ++
  (if match parseErrs with [] => true | _ => false end then [] else ["config parse errors: " +:+ join "; " parseErrs]).

(** What [out] is: not a usable pointer, a pointer to something else, or to a struct. *)
Inductive target := NotPointer | PtrOther | PtrStruct (fields : list (field * value)).

(** How the call ends: it returns an error or nil, or panics. *)
Inductive ending := Returns (e : option error) | Panicked.

Definition LoadConfig (src : source) (out : target) : ending * target :=
  match wd src with
  | Some e => (Returns (Some (Wrap "error getting working directory" [e])), out)
  | None =>
      match dotenv src with
      | Some (e, false) => (Returns (Some (Wrap "error loading .env file" [e])), out)
      | _ =>
          match out with
          | NotPointer => (Returns (Some (Err "config: out must be a non-nil pointer to a struct")), out)
          | PtrOther => (Returns (Some (Err "config: out must be a pointer to a struct")), out)
          | PtrStruct l =>
              let '(r, vs) := load_fields src l in
              let out := PtrStruct (zip (map fst l) vs) in
              match r with
              | None => (Panicked, out)
              | Some (missing, parseErrs) =>
                  match problems missing parseErrs with
                  | [] => (Returns None, out)
                  | ps => (Returns (Some (Err (join "; " ps))), out)
                  end
              end
          end
      end
  end.

(** * Proofs *)

(** A value fits a field's type. *)
Definition fits (k : kind) (v : value) : Prop :=
  match k, v with
  | KDuration, VInt n => in_int n
  | KString, VString _ | KBool, VBool _ | KFloat _, VFloat _ | KStrings, VStrings _ => True
  | KInt w, VInt n => - 2 ^ (intBitSize k - 1) <= n < 2 ^ (intBitSize k - 1)
  | KUint w, VUint n => 0 <= n < 2 ^ intBitSize k
  | _, _ => False
  end.

Lemma parse_digits_nonneg s n : parse_digits s = Some n -> 0 <= n.
Proof.
  assert (H : forall s a m, 0 <= a -> parse_dec s a = Some m -> 0 <= m).
  { clear. induction s as [|c s IH]; intros a m Ha; simpl; [by intros [= <-]|]. destruct (is_digit c) eqn:Hc; [|done].
    unfold is_digit in Hc. apply andb_true_iff in Hc as [H1 _]. apply Z.leb_le in H1. apply IH. lia. }
  unfold parse_digits. destruct s; [done|]. apply H. lia.
Qed.

Lemma parse_int_range bits s n : 0 < bits -> parse_int bits s = Some n -> - 2 ^ (bits - 1) <= n < 2 ^ (bits - 1).
Proof.
  intros Hb. unfold parse_int. destruct (match s with String _ _ => _ | EmptyString => _ end) as [neg ds].
  destruct (parse_digits ds) as [m|] eqn:Hm; [|done]. apply parse_digits_nonneg in Hm. cbn [mbind option_bind].
  pose proof (Z.pow_pos_nonneg 2 (bits - 1)). destruct neg.
  - destruct (Z.ltb_spec (2 ^ (bits - 1)) m); [done|]. intros [= <-]. lia.
  - destruct (Z.leb_spec (2 ^ (bits - 1)) m); [done|]. intros [= <-]. lia.
Qed.

Lemma parse_uint_range bits s n : parse_uint bits s = Some n -> 0 <= n < 2 ^ bits.
Proof.
  unfold parse_uint. destruct (parse_digits s) as [m|] eqn:Hm; [|done]. apply parse_digits_nonneg in Hm. simpl.
  destruct (Z.leb_spec (2 ^ bits) m); [done|]. intros [= <-]. lia.
Qed.

(** Go's widths. *)
Definition width_ok (k : kind) : Prop :=
  match k with
  | KInt w | KUint w => w ∈ [0; 8; 16; 32; 64]
  | KFloat w => w ∈ [32; 64]
  | _ => True
  end.

(** ** The specification *)

(** The text a field is set from: its variable (the tag in capitals) unless that is empty, then
    its default unless that is empty. *)
Definition text_of (src : source) (f : field) : option string :=
  match getenv src (to_upper (tag f)) with
  | EmptyString => match default_ f with Some EmptyString | None => None | Some d => Some d end
  | v => Some v
  end.

(** The value a text stands for at a type: Go's parsers at the type's own width. *)
Definition reading (k : kind) (t : string) : option value :=
  match k with
  | KDuration => VInt <$> parse_duration t
  | KString => Some (VString t)
  | KBool => VBool <$> parse_bool t
  | KInt 0 => VInt <$> parse_int 64 t
  | KInt w => VInt <$> parse_int w t
  | KUint 0 => VUint <$> parse_uint 64 t
  | KUint w => VUint <$> parse_uint w t
  | KFloat w => VFloat <$> parse_float w t
  | KStrings => Some (VStrings (map trim_space (split "," t)))
  | KNamedStrings | KSlice | KOther => None
  end.

(** A field the loader looks at, one it cannot set without a panic, one that is missing, one whose
    text cannot be read. *)
Definition considered (f : field) : Prop := tag f <> ""%string /\ settable f = true.
#[export] Instance considered_dec f : Decision (considered f).
Proof. unfold considered. apply _. Defined.
Definition unsettable (src : source) (f : field) : Prop :=
  considered f /\ f_kind f = KNamedStrings /\ text_of src f <> None.
Definition missing_field (src : source) (f : field) : Prop :=
  considered f /\ text_of src f = None /\ required f = "true"%string.
#[export] Instance missing_field_dec src f : Decision (missing_field src f).
Proof. unfold missing_field. apply _. Defined.
Definition unreadable (src : source) (f : field) : Prop :=
  considered f /\ (text_of src f ≫= reading (f_kind f)) = None /\ text_of src f <> None.
#[export] Instance unreadable_dec src f : Decision (unreadable src f).
Proof. unfold unreadable. destruct (text_of src f); simpl; [|right; naive_solver]. destruct (decide (considered f)); [|right; naive_solver].
  destruct (reading (f_kind f) s); [right|left]; naive_solver. Defined.

(** What a field holds afterwards. *)
Definition loaded (src : source) (f : field) (v : value) : value :=
  if decide (considered f) then default v (text_of src f ≫= reading (f_kind f)) else v.

(** No value is ever truncated: what a text is read as fits the field. *)
Lemma reading_fits k t v : width_ok k -> reading k t = Some v -> fits k v.
Proof.
  intros Hw. destruct k; simpl in *; try done.
  - destruct (parse_duration t) eqn:Hp; [|done]. intros [= <-]. by eapply parse_duration_range.
  - by intros [= <-].
  - destruct (parse_bool t); [|done]. by intros [= <-].
  - assert (Hr : forall w n, 0 < w -> parse_int w t = Some n -> - 2 ^ (w - 1) <= n < 2 ^ (w - 1)) by (intros; by eapply parse_int_range).
    repeat (apply elem_of_cons in Hw as [->|Hw]); [..|by apply elem_of_nil in Hw]; simpl.
    all: destruct (parse_int _ t) as [n|] eqn:Hp; [|done]; intros [= <-]; apply Hr in Hp; [exact Hp|lia].
  - repeat (apply elem_of_cons in Hw as [->|Hw]); [..|by apply elem_of_nil in Hw]; simpl.
    all: destruct (parse_uint _ t) as [n|] eqn:Hp; [|done]; intros [= <-]; by apply (parse_uint_range _ _ _ Hp).
  - destruct (parse_float width t); [|done]. by intros [= <-].
  - by intros [= <-].
Qed.

Lemma loaded_fits src f v : width_ok (f_kind f) -> loaded src f v = v \/ fits (f_kind f) (loaded src f v).
Proof.
  intros Hw. unfold loaded. destruct (decide _); [|by left]. destruct (text_of src f) as [t|]; simpl; [|by left].
  destruct (reading (f_kind f) t) eqn:Hr; simpl; [right|by left]. by eapply reading_fits.
Qed.

(** ** The loader meets it *)

Lemma raw_text src f : raw src f = default "" (text_of src f).
Proof. unfold raw, text_of, key. destruct (getenv src _) as [|c r]; simpl; [|done]. by destruct (default_ f) as [[|? ?]|]. Qed.

Lemma text_of_nonempty src f t : text_of src f = Some t -> String.eqb t "" = false.
Proof. unfold text_of. destruct (getenv src _); [destruct (default_ f) as [[|? ?]|]|]; by intros [= <-]. Qed.

Lemma active_considered f : active f = bool_decide (considered f).
Proof. unfold active, considered. case_bool_decide as H; destruct (String.eqb_spec (tag f) ""), (settable f); naive_solver. Qed.

(** [setField] on a text: the value it stands for, an error when there is none, or the panic. *)
Lemma setField_reading k t : width_ok k ->
  match setField k t with
  | Sets v => reading k t = Some v
  | Fails _ => reading k t = None /\ k <> KNamedStrings
  | Panics => k = KNamedStrings
  end.
Proof.
  intros Hw. destruct k; simpl in *; try done.
  - by destruct (parse_duration t).
  - by destruct (parse_bool t).
  - repeat (apply elem_of_cons in Hw as [->|Hw]); [..|by apply elem_of_nil in Hw]; unfold intBitSize; simpl; by destruct (parse_int _ t).
  - repeat (apply elem_of_cons in Hw as [->|Hw]); [..|by apply elem_of_nil in Hw]; unfold intBitSize; simpl; by destruct (parse_uint _ t).
  - repeat (apply elem_of_cons in Hw as [->|Hw]); [..|by apply elem_of_nil in Hw]; simpl; by destruct (parse_float _ t).
Qed.

Definition why (src : source) (f : field) : string :=
  match setField (f_kind f) (raw src f) with Fails t => t | _ => "" end.
Definition report (src : source) (f : field) : string := key f +:+ (": " +:+ why src f).

(** One iteration, by the specification. *)
Lemma load_field_spec src f v : width_ok (f_kind f) ->
  (unsettable src f /\ load_field src f v = None) \/
  (~ unsettable src f /\ load_field src f v =
    Some (if decide (missing_field src f) then [key f] else [], if decide (unreadable src f) then [report src f] else [], loaded src f v)).
Proof.
  intros Hw. unfold load_field, loaded. rewrite active_considered, raw_text.
  destruct (decide (considered f)) as [Hc|Hc]; [rewrite bool_decide_true by done|rewrite bool_decide_false by done]; cbn [negb].
  2: { right. split; [by intros (? & _)|]. rewrite !decide_False by (by intros (? & _)). done. }
  destruct (text_of src f) as [t|] eqn:Ht; simpl.
  - rewrite (text_of_nonempty _ _ _ Ht). pose proof (setField_reading _ t Hw) as Hs.
    assert (Hwhy : why src f = match setField (f_kind f) t with Fails u => u | _ => "" end) by (unfold why; by rewrite raw_text, Ht).
    rewrite (decide_False (P := missing_field src f)) by (intros (_ & Hn & _); by rewrite Ht in Hn).
    destruct (setField (f_kind f) t) as [v'|u|] eqn:Hse.
    + right. split; [intros (_ & Hk & _); rewrite Hk in Hse; by simpl in Hse|].
      rewrite decide_False by (intros (_ & Hn & _); rewrite Ht in Hn; simpl in Hn; by rewrite Hs in Hn). by rewrite Hs.
    + right. destruct Hs as [Hs Hk]. split; [by intros (_ & ? & _)|].
      rewrite decide_True by (split; [done|]; rewrite Ht; by split). rewrite Hs. unfold report. by rewrite Hwhy.
    + left. split; [|done]. split_and!; [done..|]. by rewrite Ht.
  - right. split; [intros (_ & _ & Hn); by rewrite Ht in Hn|].
    rewrite (decide_False (P := unreadable src f)) by (intros (_ & _ & Hn); by rewrite Ht in Hn).
    destruct (String.eqb_spec (required f) "true"); [rewrite decide_True by done|rewrite decide_False by (by intros (_ & _ & ?))]; done.
Qed.

(** The loop over fields none of which panics. *)
Lemma load_fields_spec src l : Forall (fun fv => width_ok (f_kind fv.1)) l -> Forall (fun fv => ~ unsettable src fv.1) l ->
  load_fields src l =
    (Some (map key (filter (missing_field src) (map fst l)), map (report src) (filter (unreadable src) (map fst l))),
     map (fun fv => loaded src fv.1 fv.2) l).
Proof.
  induction l as [|[f v] l IH]; [done|]. intros [Hw Hws]%Forall_cons_1 [Hu Hus]%Forall_cons_1. cbn [load_fields map fst snd].
  destruct (load_field_spec src f v Hw) as [[? _]|[_ ->]]; [done|]. rewrite (IH Hws Hus), !filter_cons.
  by destruct (decide (missing_field src f)), (decide (unreadable src f)).
Qed.

(** The loop up to the first field that panics. *)
Lemma load_fields_panics src l1 f v l2 : Forall (fun fv => width_ok (f_kind fv.1)) (l1 ++ (f, v) :: l2) ->
  Forall (fun fv => ~ unsettable src fv.1) l1 -> unsettable src f ->
  load_fields src (l1 ++ (f, v) :: l2) = (None, map (fun fv => loaded src fv.1 fv.2) l1 ++ v :: map snd l2).
Proof.
  induction l1 as [|[g u] l1 IH]; cbn [load_fields app map]; intros [Hw Hws]%Forall_cons_1 Hus Hf.
  - destruct (load_field_spec src f v Hw) as [[_ ->]|[? _]]; done.
  - apply Forall_cons_1 in Hus as [Hu Hus]. destruct (load_field_spec src g u Hw) as [[? _]|[_ ->]]; [done|]. by rewrite IH.
Qed.

Lemma zip_map {A B C} (f : A -> B) (g : A -> C) l : zip (map f l) (map g l) = map (fun x => (f x, g x)) l.
Proof. induction l as [|x l IH]; simpl; [done|]. by rewrite IH. Qed.

Lemma problems_nil ms ps : problems ms ps = [] <-> ms = [] /\ ps = [].
Proof. unfold problems. destruct ms, ps; naive_solver. Qed.

Lemma map_filter_nil {A B} (P : A -> Prop) `{!forall x, Decision (P x)} (g : A -> B) l :
  map g (filter P l) = [] <-> forall x, x ∈ l -> ~ P x.
Proof.
  split.
  - intros Hn x Hx HP. assert (Hin : x ∈ filter P l) by (by apply list_elem_of_filter). destruct (filter P l); [by apply elem_of_nil in Hin|done].
  - intros Hn. destruct (filter P l) as [|x m] eqn:Hf; [done|].
    assert (Hx : x ∈ filter P l) by (rewrite Hf; by left). apply list_elem_of_filter in Hx as [HP Hx]. by destruct (Hn x).
Qed.

(** A pointer to a struct, once the directory and the file are read. *)
Lemma struct_loaded src l : Forall (fun fv => width_ok (f_kind fv.1)) l ->
  let load := let '(r, vs) := load_fields src l in
    let out := PtrStruct (zip (map fst l) vs) in
    match r with
    | None => (Panicked, out)
    | Some (missing, parseErrs) =>
        match problems missing parseErrs with
        | [] => (Returns None, out)
        | ps => (Returns (Some (Err (join "; " ps))), out)
        end
    end in
  (Forall (fun fv => ~ unsettable src fv.1) l ->
          exists e, load = (Returns e, PtrStruct (map (fun fv => (fv.1, loaded src fv.1 fv.2)) l)) /\
            (e = None <-> forall f, f ∈ map fst l -> considered f ->
              match text_of src f with
              | None => required f <> "true"%string
              | Some t => exists v, reading (f_kind f) t = Some v
              end) /\
            (forall err, e = Some err -> exists texts,
              length texts = length (filter (unreadable src) (map fst l)) /\
              err = Err (join "; " (problems
                (map (fun f => to_upper (tag f)) (filter (missing_field src) (map fst l)))
                (zip_with (fun f t => to_upper (tag f) +:+ (": " +:+ t)) (filter (unreadable src) (map fst l)) texts)))) /\
            Forall (fun fv => loaded src fv.1 fv.2 = fv.2 \/ fits (f_kind fv.1) (loaded src fv.1 fv.2)) l) /\
        (forall l1 f v l2, l = l1 ++ (f, v) :: l2 -> Forall (fun fv => ~ unsettable src fv.1) l1 -> unsettable src f ->
          load = (Panicked, PtrStruct (map (fun fv => (fv.1, loaded src fv.1 fv.2)) l1 ++ (f, v) :: l2))).
Proof.
  intros Hws load. unfold load. clear load. split.
  + intros Hus. rewrite (load_fields_spec src l Hws Hus), zip_map.
    set (ms := map key _). set (ps := map (report src) _).
    assert (Hnil : problems ms ps = [] <-> forall f, f ∈ map fst l -> considered f ->
      match text_of src f with None => required f <> "true"%string | Some t => exists v, reading (f_kind f) t = Some v end).
    { rewrite problems_nil. unfold ms, ps. rewrite !map_filter_nil. split.
      - intros [H1 H2] f Hf Hc. specialize (H1 f Hf). specialize (H2 f Hf). destruct (text_of src f) as [t|] eqn:Ht; [|intros Hr; by apply H1].
        destruct (reading (f_kind f) t) eqn:Hr; [by eexists|]. destruct H2. split; [exact Hc|]. split; rewrite Ht; done.
      - intros Hok. split; intros f Hf [Hc Hr]; specialize (Hok f Hf Hc).
        + destruct Hr as [Hr1 Hr2]. by rewrite Hr1 in Hok.
        + destruct Hr as [Hr1 Hr2]. destruct (text_of src f); [|done]. destruct Hok as [v Hv]. simpl in Hr1. by rewrite Hv in Hr1. }
    assert (Hfit : Forall (fun fv => loaded src fv.1 fv.2 = fv.2 \/ fits (f_kind fv.1) (loaded src fv.1 fv.2)) l).
    { eapply Forall_impl; [exact Hws|]. intros [f v]. apply loaded_fits. }
    assert (Hps : ps = zip_with (fun f t => to_upper (tag f) +:+ (": " +:+ t)) (filter (unreadable src) (map fst l))
                         (map (why src) (filter (unreadable src) (map fst l)))).
    { unfold ps, report, key. clear. induction (filter (unreadable src) (map fst l)) as [|g r IH]; [done|]. cbn [map zip_with]. by f_equal. }
    destruct (problems ms ps) as [|p0 pr] eqn:Hp.
    * exists None. split_and!; [done|by rewrite <- Hnil|done|done].
    * exists (Some (Err (join "; " (p0 :: pr)))). split_and!; [done|by rewrite <- Hnil| |done].
      intros err <-%(inj Some). exists (map (why src) (filter (unreadable src) (map fst l))). split; [apply length_map|].
      rewrite <- Hps. by rewrite <- Hp.
  + intros l1 f v l2 -> Hus Hf. rewrite (load_fields_panics src l1 f v l2 Hws Hus Hf).
    cbv zeta. do 2 f_equal. rewrite map_app. cbn [map fst]. rewrite zip_with_app by (by rewrite !length_map). rewrite zip_map. cbn [zip zip_with].
    do 2 f_equal. clear. induction l2 as [|[g u] l2 IH]; [done|]. cbn. by rewrite IH.
Qed.

(** (C40) Loading reports everything and stores only what was asked for. A failing working directory
    or [.env] file (other than a missing one) and a target that is not a pointer to a struct are
    errors of their own that leave the target alone. Otherwise each field with a tag that can be
    set is set to the value its text stands for at its own type and width (the text is its
    variable's, or its default when the variable is empty) and is left as it was when it has no
    text or the text cannot be read; [LoadConfig] returns nil exactly when every such field has a
    text or is not required, and every text can be read, and else one error that lists the missing
    keys and then the parse failures, in field order. A slice of a defined string type panics once
    it has a text, the fields before it being set and those after it untouched. *)
Theorem LoadConfig_spec src out :
  (forall e, wd src = Some e -> LoadConfig src out = (Returns (Some (Wrap "error getting working directory" [e])), out)) /\
  (forall e, wd src = None -> dotenv src = Some (e, false) ->
    LoadConfig src out = (Returns (Some (Wrap "error loading .env file" [e])), out)) /\
  (wd src = None -> (forall e, dotenv src <> Some (e, false)) ->
    match out with
    | NotPointer => LoadConfig src out = (Returns (Some (Err "config: out must be a non-nil pointer to a struct")), out)
    | PtrOther => LoadConfig src out = (Returns (Some (Err "config: out must be a pointer to a struct")), out)
    | PtrStruct l => Forall (fun fv => width_ok (f_kind fv.1)) l ->
        (Forall (fun fv => ~ unsettable src fv.1) l ->
          exists e, LoadConfig src out = (Returns e, PtrStruct (map (fun fv => (fv.1, loaded src fv.1 fv.2)) l)) /\
            (e = None <-> forall f, f ∈ map fst l -> considered f ->
              match text_of src f with
              | None => required f <> "true"%string
              | Some t => exists v, reading (f_kind f) t = Some v
              end) /\
            (forall err, e = Some err -> exists texts,
              length texts = length (filter (unreadable src) (map fst l)) /\
              err = Err (join "; " (problems
                (map (fun f => to_upper (tag f)) (filter (missing_field src) (map fst l)))
                (zip_with (fun f t => to_upper (tag f) +:+ (": " +:+ t)) (filter (unreadable src) (map fst l)) texts)))) /\
            Forall (fun fv => loaded src fv.1 fv.2 = fv.2 \/ fits (f_kind fv.1) (loaded src fv.1 fv.2)) l) /\
        (forall l1 f v l2, l = l1 ++ (f, v) :: l2 -> Forall (fun fv => ~ unsettable src fv.1) l1 -> unsettable src f ->
          LoadConfig src out = (Panicked, PtrStruct (map (fun fv => (fv.1, loaded src fv.1 fv.2)) l1 ++ (f, v) :: l2)))
    end).
Proof.
  split_and!.
  - intros e He. unfold LoadConfig. by rewrite He.
  - intros e Hw He. unfold LoadConfig. by rewrite Hw, He.
  - intros Hwd Hdot.
    unfold LoadConfig. rewrite Hwd.
    destruct (dotenv src) as [[e [|]]|] eqn:Hd; [|by destruct (Hdot e)|]; clear Hd Hdot; (destruct out as [| |l]; [done..|]; intros Hws; by apply struct_loaded).
Qed.

(** ** A concrete environment *)

Definition demo_fields : list (field * value) :=
  [(MkField "database_url" None "true" true KString, VZero);
   (MkField "port" (Some "8080"%string) "" true (KInt 16), VZero);
   (MkField "timeout" (Some "5s"%string) "" true KDuration, VZero);
   (MkField "cors_origins" None "" true KStrings, VZero)].
Definition demo_env (k : string) : string :=
  if String.eqb k "DATABASE_URL" then "postgres://localhost"
  else if String.eqb k "CORS_ORIGINS" then "https://a.example, https://b.example" else "".

Lemma LoadConfig_spec_witness :
  let src := MkSource None None demo_env in
  Forall (fun fv => width_ok (f_kind fv.1)) demo_fields /\
  LoadConfig src (PtrStruct demo_fields) = (Returns None, PtrStruct (zip (map fst demo_fields)
    [VString "postgres://localhost"; VInt 8080; VInt (5 * Second); VStrings ["https://a.example"; "https://b.example"]])).
Proof.
  intros src. assert (Hw : Forall (fun fv => width_ok (f_kind fv.1)) demo_fields) by (unfold demo_fields; repeat apply Forall_cons_2; simpl; try exact I; try set_solver; apply Forall_nil_2).
  assert (Hu : Forall (fun fv => ~ unsettable src fv.1) demo_fields) by (unfold demo_fields; repeat apply Forall_cons_2; try apply Forall_nil_2; intros (_ & Hk & _); discriminate Hk).
  split; [exact Hw|]. destruct (LoadConfig_spec src (PtrStruct demo_fields)) as (_ & _ & H).
  destruct (H eq_refl ltac:(discriminate) Hw) as [Hl _]. destruct (Hl Hu) as (e & -> & He & _).
  assert (Hn : e = None).
  { apply He. intros f Hf _. unfold demo_fields in Hf. cbn [map fst] in Hf.
    repeat (apply elem_of_cons in Hf as [->|Hf]; [vm_compute; first [by eexists|done]|]). by apply elem_of_nil in Hf. }
  rewrite Hn. vm_compute. reflexivity.
Defined.
