(* ===== verification/I18n.v ===== *)
(** * Internationalization (i18n/bundle.go, plural.go, middleware.go)

    Maps that the code iterates over (nested messages, placeholder arguments) are association
    lists: their order is the iteration order, which Go leaves open. [fmt.Sprint] of a leaf and
    the JSON parser are parameters. *)

From S2P Require Import Prelude GoStrings GoFloat.
Open Scope Z_scope.

(** ** strings.ReplaceAll for a non-empty pattern; [skip] bytes of a match are left to drop *)

Fixpoint replace_go (skip : nat) (old new s : string) : string :=
  match s with
  | EmptyString => EmptyString
  | String c t =>
      match skip with
      | S skip => replace_go skip old new t
      | O => if has_prefix old s then new +:+ replace_go (String.length old - 1) old new t
             else String c (replace_go 0 old new t)
      end
  end.
Definition ReplaceAll (s old new : string) : string := replace_go 0 old new s.

(** ** The catalogue *)

Section Bundle.
  Context {A : Type} (Sprint : A -> string) (int_arg : Z -> A).

#[warnings="-register-all"]
Inductive message := Leaf (v : A) | Node (fields : list (string * message)).

(** [M]: the placeholder arguments. *)
Definition M : Type := list (string * A).

Record Bundle := MkBundle { messages : gmap string (gmap string string); fallback : string }.
Definition WithFallback (locale : string) (b : Bundle) : Bundle := MkBundle (messages b) locale.
Definition New (opts : list (Bundle -> Bundle)) : Bundle := fold_left (fun b o => o b) opts (MkBundle ∅ "en").

Definition Has (b : Bundle) (locale : string) : bool :=
  match messages b !! locale with Some m => negb (bool_decide (m = ∅)) | None => false end.
Definition Locales (b : Bundle) : list string := merge_sort String.le (map fst (map_to_list (messages b))).

Definition dotted (prefix k : string) : string := if String.eqb prefix "" then k else prefix +:+ ("." +:+ k).

Fixpoint flatten_msg (key : string) (v : message) (out : gmap string string) : gmap string string :=
  match v with
  | Leaf v => <[key := Sprint v]> out
  | Node l => (fix go l out := match l with [] => out | (k, v) :: l => go l (flatten_msg (dotted key k) v out) end) l out
  end.
Definition flatten (prefix : string) (l : list (string * message)) (out : gmap string string) : gmap string string :=
  fold_left (fun out kv => flatten_msg (dotted prefix kv.1) kv.2 out) l out.

Definition LoadMap (locale : string) (nested : list (string * message)) (b : Bundle) : Bundle :=
  MkBundle (<[locale := flatten "" nested (default ∅ (messages b !! locale))]> (messages b)) (fallback b).

Context (parse : string -> error + list (string * message)).

Definition LoadJSON (locale data : string) (b : Bundle) : option error * Bundle :=
  match parse data with
  | inl e => (Some (Wrap "i18n: parse" [e]), b)
  | inr nested => (None, LoadMap locale nested b)
  end.

(** A directory entry: name, whether it is a directory, and what reading it gives. *)
Record dirent := Dirent { e_name : string; is_dir : bool; content : error + string }.
Definition json_base (name : string) : option string :=
  let n := (String.length name - 5)%nat in
  if String.eqb (drop_string n name) ".json" && (5 <=? String.length name)%nat then Some (take_string n name) else None.

Fixpoint load_entries (es : list dirent) (b : Bundle) : option error * Bundle :=
  match es with
  | [] => (None, b)
  | e :: es =>
      match (if is_dir e then None else json_base (e_name e)) with
      | None => load_entries es b
      | Some locale =>
          match content e with
          | inl err => (Some (Wrap "i18n: read" [err]), b)
          | inr data => match LoadJSON locale data b with
                        | (Some err, b) => (Some err, b)
                        | (None, b) => load_entries es b
                        end
          end
      end
  end.
Definition LoadFS (entries : error + list dirent) (b : Bundle) : option error * Bundle :=
  match entries with inl e => (Some (Wrap "i18n: read dir" [e]), b) | inr es => load_entries es b end.

Definition lookup (b : Bundle) (locale key : string) : option string :=
  match messages b !! locale with Some m => m !! key | None => None end.

Definition braced (k : string) : string := "{" +:+ (k +:+ "}").
Definition substitute (s : string) (args : M) : string :=
  fold_left (fun s kv => ReplaceAll s (braced kv.1) (Sprint kv.2)) args s.

Definition Translate (b : Bundle) (locale key : string) (args : M) : string :=
  match lookup b locale key with
  | Some s => substitute s args
  | None =>
      if negb (String.eqb locale (fallback b)) then
        match lookup b (fallback b) key with Some s => substitute s args | None => key end
      else key
  end.

(** [-n] overflows for the least integer; [%] truncates. *)
Definition pluralCategory (locale : string) (n : Z) : string :=
  let n := if n <? 0 then wrap64 (- n) else n in
  let lang := to_lower (cut "-" locale).1.1 in
  let mod10 := Z.rem n 10 in
  let mod100 := Z.rem n 100 in
  if existsb (String.eqb lang) ["id"; "ja"; "ko"; "zh"; "th"; "vi"]%string then "other"
  else if String.eqb lang "fr" then (if (n =? 0) || (n =? 1) then "one" else "other")
  else if existsb (String.eqb lang) ["ru"; "uk"]%string then
    if (mod10 =? 1) && negb (mod100 =? 11) then "one"
    else if (2 <=? mod10) && (mod10 <=? 4) && ((mod100 <? 12) || (14 <? mod100)) then "few" else "many"
  else if String.eqb lang "pl" then
    if n =? 1 then "one"
    else if (2 <=? mod10) && (mod10 <=? 4) && ((mod100 <? 12) || (14 <? mod100)) then "few" else "many"
  else if String.eqb lang "ar" then
    if n =? 0 then "zero" else if n =? 1 then "one" else if n =? 2 then "two"
    else if (3 <=? mod100) && (mod100 <=? 10) then "few"
    else if (11 <=? mod100) && (mod100 <=? 99) then "many" else "other"
  else if n =? 1 then "one" else "other".

(** The merged arguments: "n" unless the caller gives it. *)
Definition plural_args (n : Z) (args : M) : M :=
  if existsb (fun kv => String.eqb kv.1 "n") args then args else ("n"%string, int_arg n) :: args.

Definition Plural (b : Bundle) (locale key : string) (n : Z) (args : M) : string :=
  let merged := plural_args n args in
  match lookup b locale (key +:+ ("." +:+ pluralCategory locale n)) with
  | Some s => substitute s merged
  | None => Translate b locale (key +:+ ".other") merged
  end.

(** ** Locale detection *)

Record pref := Pref { p_tag : string; q : spec_float }.

(** The text after the first occurrence of [sub]. *)
Fixpoint after (sub s : string) : option string :=
  if has_prefix sub s then Some (drop_string (String.length sub) s)
  else match s with EmptyString => None | String _ t => after sub t end.

Definition parse_pref (part : string) : option pref :=
  let part := trim_space part in
  if String.eqb part "" then None
  else
    let '(before, rest, found) := cut ";" part in
    if found then
      let q := match after "q=" rest with
               | Some t => match parse_float 64 t with Some f => f | None => f64_one end
               | None => f64_one
               end in
      Some (Pref (to_lower (trim_space before)) q)
    else Some (Pref (to_lower part) f64_one).

(** [sort.SliceStable] with [prefs[i].q > prefs[j].q]: insertion from the left, as Go sorts up to
    twenty elements; on more, any stable sort gives the same unless some [q] is a NaN. *)
Fixpoint insert_pref (p : pref) (sorted : list pref) : list pref :=
  match sorted with
  | [] => [p]
  | x :: l => if SFltb (q x) (q p) then p :: x :: l else x :: insert_pref p l
  end.
Definition sort_prefs (l : list pref) : list pref := fold_left (fun acc p => insert_pref p acc) l [].

(** What a preference selects: its tag, or its base subtag. *)
Definition selects (b : Bundle) (p : pref) : option string :=
  if Has b (p_tag p) then Some (p_tag p)
  else let '(base, _, found) := cut "-" (p_tag p) in if found && Has b base then Some base else None.

Definition matchAcceptLanguage (b : Bundle) (header : string) : string :=
  if String.eqb header "" then ""%string
  else match omap (selects b) (sort_prefs (omap parse_pref (split "," header))) with l :: _ => l | [] => ""%string end.

(** A request: query parameters, cookies, the header, and the locals the middleware sets. *)
Record request := MkRequest { query : string -> string; cookie : string -> string; accept_language : string;
  l_locale : option string; l_bundle : option Bundle }.
Record mwConfig := MkMW { queryKey : string; cookieKey : string }.
Definition WithQueryKey (k : string) (c : mwConfig) : mwConfig := MkMW k (cookieKey c).
Definition WithCookieKey (k : string) (c : mwConfig) : mwConfig := MkMW (queryKey c) k.

Definition resolve (b : Bundle) (c : request) (cfg : mwConfig) : string :=
  let v := query c (queryKey cfg) in
  if negb (String.eqb v "") && Has b v then v
  else
    let v := cookie c (cookieKey cfg) in
    if negb (String.eqb v "") && Has b v then v
    else
      let v := matchAcceptLanguage b (accept_language c) in
      if negb (String.eqb v "") then v else fallback b.

Definition Middleware (b : Bundle) (opts : list (mwConfig -> mwConfig)) (c : request) : request :=
  let cfg := fold_left (fun c o => o c) opts (MkMW "lang" "lang") in
  MkRequest (query c) (cookie c) (accept_language c) (Some (resolve b c cfg)) (Some b).

Definition Locale (c : request) : string :=
  let of_bundle := match l_bundle c with Some b => fallback b | None => ""%string end in
  match l_locale c with Some v => if String.eqb v "" then of_bundle else v | None => of_bundle end.
Definition T (c : request) (key : string) (args : M) : string :=
  match l_bundle c with Some b => Translate b (Locale c) key args | None => key end.
Definition N (c : request) (key : string) (n : Z) (args : M) : string :=
  match l_bundle c with Some b => Plural b (Locale c) key n args | None => key end.
End Bundle.
Arguments message : clear implicits.
Arguments M : clear implicits.

(** * Proofs *)

(** ** Substitution *)

Definition no_brace (s : string) : Prop := contains_char "{" s = false /\ contains_char "}" s = false.

(** A message template: text and placeholders. *)
Inductive segment := Text (w : string) | Hole (k : string).
Definition seg_ok (s : segment) : Prop := match s with Text w | Hole w => no_brace w end.
Definition seg_string (s : segment) : string := match s with Text w => w | Hole k => braced k end.
Definition template (l : list segment) : string := foldr (fun s acc => seg_string s +:+ acc) EmptyString l.
Definition fill (k v : string) (s : segment) : segment :=
  match s with Hole w => if String.eqb w k then Text v else s | _ => s end.

Lemma replace_skip n old new (a b : string) : String.length a = n -> replace_go n old new (a +:+ b) = replace_go 0 old new b.
Proof.
  revert n; induction a as [|c a IH]; intros [|n] H; try done. rewrite string_app_cons. simpl. apply IH. by injection H.
Qed.

Lemma replace_text old new (w r : string) :
  contains_char "{" w = false -> replace_go 0 (String "{" old) new (w +:+ r) = w +:+ replace_go 0 (String "{" old) new r.
Proof.
  induction w as [|c w IH]; [by rewrite !string_app_nil_l|]. cbn [contains_char sexists]. intros [Hc Hw]%orb_false_iff.
  rewrite !string_app_cons. cbn [replace_go]. rewrite IH by done.
  assert (has_prefix (String "{" old) (String c (w +:+ r)) = false) as ->; [|done].
  cbn [has_prefix]. by rewrite Hc.
Qed.

(** A pattern matches at an opening brace only if it is the placeholder there. *)
Lemma prefix_braced k w r : no_brace k -> no_brace w -> has_prefix (k +:+ "}") (w +:+ String "}" r) = String.eqb w k.
Proof.
  revert w; induction k as [|c k IH]; intros w [Hk1 Hk2] [Hw1 Hw2].
  - destruct w as [|d w]; [done|]. rewrite string_app_nil_l, string_app_cons. cbn [contains_char sexists] in Hw2.
    apply orb_false_iff in Hw2 as [Hd _]. cbn [has_prefix]. by rewrite Hd.
  - cbn [contains_char sexists] in Hk1, Hk2. apply orb_false_iff in Hk1 as [Hc1 Hk1]. apply orb_false_iff in Hk2 as [Hc2 Hk2].
    destruct w as [|d w].
    + rewrite string_app_nil_l, string_app_cons. cbn [has_prefix]. rewrite Ascii.eqb_sym, Hc2. done.
    + cbn [contains_char sexists] in Hw1, Hw2. apply orb_false_iff in Hw1 as [_ Hw1]. apply orb_false_iff in Hw2 as [_ Hw2].
      rewrite !string_app_cons. cbn [has_prefix String.eqb]. rewrite IH by done. rewrite Ascii.eqb_sym. by destruct (Ascii.eqb d c).
Qed.

Lemma ReplaceAll_template k v l : no_brace k -> Forall seg_ok l ->
  ReplaceAll (template l) (braced k) v = template (map (fill k v) l).
Proof.
  intros Hk. unfold ReplaceAll, braced. change ("{" +:+ (k +:+ "}")) with (String "{" (k +:+ "}")).
  induction l as [|s l IH]; intros Hl; [done|]. apply Forall_cons in Hl as [Hs Hl]. specialize (IH Hl). cbn [template foldr map].
  fold (template l) (template (map (fill k v) l)). destruct s as [w|w]; simpl seg_string.
  - rewrite replace_text by apply Hs.
    by rewrite IH.
  - unfold braced. change ("{" +:+ (w +:+ "}")) with (String "{" (w +:+ "}")). rewrite string_app_cons.
    rewrite <- string_app_assoc. change ("}" +:+ template l) with (String "}" (template l)). cbn [replace_go].
    cbn [has_prefix]. rewrite Ascii.eqb_refl. cbn [andb]. rewrite prefix_braced by done.
    destruct (String.eqb_spec w k) as [->|Hne]; cbn [seg_string].
    + change (String "}" (template l)) with ("}" +:+ template l). rewrite string_app_assoc, replace_skip, IH; [done|].
      cbn [String.length]. lia.
    + rewrite <- IH. unfold braced. change ("{" +:+ (w +:+ "}")) with (String "{" (w +:+ "}")). rewrite string_app_cons. f_equal.
      rewrite replace_text by apply Hs.
      rewrite <- string_app_assoc. f_equal.
Qed.

Section BundleProofs.
  Context {A : Type} (Sprint : A -> string) (int_arg : Z -> A).

(** The value of a placeholder. *)
Definition arg (args : M A) (k : string) : option string :=
  match find (fun kv => String.eqb kv.1 k) args with Some kv => Some (Sprint kv.2) | None => None end.
Definition fill_all (args : M A) (s : segment) : segment :=
  match s with Hole k => match arg args k with Some v => Text v | None => s end | Text _ => s end.

Lemma substitute_template l (args : M A) :
  Forall seg_ok l -> Forall (fun kv => no_brace kv.1 /\ no_brace (Sprint kv.2)) args ->
  substitute Sprint (template l) args = template (map (fill_all args) l).
Proof.
  revert l. induction args as [|[k v] args IH]; intros l Hl Ha.
  - unfold substitute. simpl. f_equal. rewrite <- (map_id l) at 1. apply map_ext. by intros [].
  - apply Forall_cons in Ha as [[Hk Hv] Ha]. unfold substitute. cbn [fold_left fst snd].
    fold (substitute Sprint (ReplaceAll (template l) (braced k) (Sprint v)) args).
    rewrite ReplaceAll_template by done. rewrite IH; [|apply Forall_forall; intros s (s' & -> & Hs')%list_elem_of_fmap|done].
    + rewrite map_map. f_equal. apply map_ext. intros [w|w]; [done|]. unfold fill_all, arg. cbn [fill find fst].
      destruct (String.eqb_spec w k) as [->|Hne]; [by rewrite String.eqb_refl|].
      rewrite (proj2 (String.eqb_neq k w)) by done. done.
    + rewrite Forall_forall in Hl. specialize (Hl _ Hs'). destruct s' as [w|w]; [done|]. simpl. by destruct (String.eqb w k).
Qed.

(** ** Flattening *)

(** A key part: not empty, no dot. *)
Definition part_ok (k : string) : Prop := k <> ""%string /\ contains_char "." k = false.
Fixpoint wf (m : message A) : Prop :=
  match m with
  | Leaf _ => True
  | Node l => NoDup (map fst l) /\
      (fix all (l : list (string * message A)) := match l with [] => True | (k, m) :: l => part_ok k /\ wf m /\ all l end) l
  end.

Definition child (l : list (string * message A)) (k : string) : option (message A) := snd <$> find (fun kv => String.eqb kv.1 k) l.
Fixpoint msg_at (m : message A) (path : list string) : option A :=
  match path, m with
  | [], Leaf v => Some v
  | k :: path, Node l => match child l k with Some m => msg_at m path | None => None end
  | _, _ => None
  end.

Lemma wf_all l : wf (Node l) <-> NoDup (map fst l) /\ Forall (fun kv => part_ok kv.1 /\ wf kv.2) l.
Proof.
  simpl. apply and_iff_compat_l. induction l as [|[k m] l IH]; [by split|]. rewrite Forall_cons, IH. simpl. tauto.
Qed.

Lemma child_elem l k m : child l k = Some m -> (k, m) ∈ l.
Proof.
  unfold child. induction l as [|[k' m'] l IH]; simpl; [done|]. destruct (String.eqb_spec k' k) as [->|].
  - intros [= ->]. by left.
  - intros H. right. by apply IH.
Qed.

Lemma msg_at_parts m path v : wf m -> msg_at m path = Some v -> Forall part_ok path.
Proof.
  revert m; induction path as [|k path IH]; intros m Hw; [constructor|]. destruct m as [|l]; [done|]. apply wf_all in Hw as [_ Hw].
  cbn [msg_at]. destruct (child l k) as [m|] eqn:Hc; [|done]. apply child_elem in Hc. rewrite Forall_forall in Hw.
  destruct (Hw _ Hc) as [Hk Hm]. intros H. constructor; [done|]. by apply (IH m).
Qed.

Lemma parts_nosep l : Forall part_ok l -> forall x, x ∈ l -> contains_char "." x = false.
Proof. intros Hl x Hx. rewrite Forall_forall in Hl. by apply Hl. Qed.

Lemma join_inj l l' : l <> [] -> l' <> [] -> Forall part_ok l -> Forall part_ok l' -> join "." l = join "." l' -> l = l'.
Proof.
  intros Hn Hn' Hl Hl' Heq. rewrite <- (split_join "." l), <- (split_join "." l'), Heq by (done || by apply parts_nosep). done.
Qed.

Lemma dotted_join pre k : Forall part_ok pre -> dotted (join "." pre) k = join "." (pre ++ [k]).
Proof.
  intros Hp. unfold dotted. destruct pre as [|x pre]; [done|]. rewrite join_snoc by done.
  destruct (String.eqb_spec (join "." (x :: pre)) "") as [Heq|]; [|done].
  apply Forall_cons in Hp as [[Hx _] _]. destruct x as [|c x]; [done|]. by destruct pre.
Qed.

Definition flat_ok (pre : list string) (m : message A) : Prop := forall out,
  (forall path v, pre ++ path <> [] -> msg_at m path = Some v -> flatten_msg Sprint (join "." pre) m out !! join "." (pre ++ path) = Some (Sprint v)) /\
  (forall key, (forall path v, msg_at m path = Some v -> key <> join "." (pre ++ path)) -> flatten_msg Sprint (join "." pre) m out !! key = out !! key).

Lemma flatten_fields pre l out : Forall part_ok pre -> NoDup (map fst l) ->
  Forall (fun kv => part_ok kv.1 /\ wf kv.2 /\ flat_ok (pre ++ [kv.1]) kv.2) l ->
  (forall k path v, msg_at (Node l) (k :: path) = Some v ->
     flatten Sprint (join "." pre) l out !! join "." (pre ++ k :: path) = Some (Sprint v)) /\
  (forall key, (forall k path v, msg_at (Node l) (k :: path) = Some v -> key <> join "." (pre ++ k :: path)) ->
     flatten Sprint (join "." pre) l out !! key = out !! key).
Proof.
  intros Hpre. unfold flatten. revert out; induction l as [|[k0 m0] l IH]; intros out Hnd Hall; [by split|].
  apply Forall_cons in Hall as [(Hk0 & Hw0 & Hf0) Hall]. cbn [map fst] in Hnd. apply NoDup_cons in Hnd as [Hk0l Hnd].
  cbn [fold_left fst snd]. cbn [fst snd] in Hf0. rewrite dotted_join by done. set (out1 := flatten_msg _ _ _ _).
  destruct (IH out1 Hnd Hall) as [Ha Hb]. destruct (Hf0 out) as [Ha0 Hb0]. fold out1 in Ha0, Hb0.
  assert (Happ : forall path, (pre ++ [k0]) ++ path = pre ++ k0 :: path) by (intros; by rewrite <- app_assoc).
  assert (Hother : forall k path v, k <> k0 -> (msg_at (Node ((k0, m0) :: l)) (k :: path) = Some v <-> msg_at (Node l) (k :: path) = Some v)).
  { intros k path v Hne. cbn [msg_at]. unfold child. cbn [find fst]. by rewrite (proj2 (String.eqb_neq k0 k)). }
  assert (Hwl : wf (Node l)) by (apply wf_all; split; [done|]; eapply Forall_impl; [exact Hall|]; by intros ? (? & ? & ?)).
  assert (Hhead : forall path v, msg_at (Node ((k0, m0) :: l)) (k0 :: path) = Some v <-> msg_at m0 path = Some v).
  { intros path v. cbn [msg_at]. unfold child. cbn [find fst]. by rewrite String.eqb_refl. }
  split.
  - intros k path v Hm. destruct (String.eqb_spec k k0) as [->|Hne]; [|apply Ha; by apply Hother in Hm].
    apply Hhead in Hm. rewrite Hb; [rewrite <- Happ; apply Ha0; [by destruct pre|done]|].
    intros k path' v' Hm' Heq. pose proof (msg_at_parts _ _ _ Hwl Hm') as Hp'. pose proof (msg_at_parts _ _ _ Hw0 Hm) as Hp.
    apply join_inj in Heq; [|by destruct pre|by destruct pre|apply Forall_app; split; [done|by constructor]|by apply Forall_app].
    apply app_inv_head in Heq. injection Heq as -> _. apply Hk0l. cbn [msg_at] in Hm'. destruct (child l k) as [m|] eqn:Hc; [|done].
    apply child_elem in Hc. apply list_elem_of_fmap. by exists (k, m).
  - intros key Hkey. rewrite Hb, Hb0; [done| |].
    + intros path v Hm. rewrite Happ. by apply (Hkey k0 path v), Hhead.
    + intros k path v Hm. destruct (String.eqb_spec k k0) as [->|Hne]; [|by apply (Hkey k path v), Hother].
      exfalso. apply Hk0l. cbn [msg_at] in Hm. destruct (child l k0) as [m|] eqn:Hc; [|done].
      apply child_elem in Hc. apply list_elem_of_fmap. by exists (k0, m).
Qed.

Lemma flatten_msg_node key l out : flatten_msg Sprint key (Node l) out = flatten Sprint key l out.
Proof. unfold flatten. cbn [flatten_msg]. revert out; induction l as [|[k m] l IH]; intros out; [done|]. cbn [fold_left fst snd]. apply IH. Qed.

Lemma flatten_ok : forall m pre, Forall part_ok pre -> wf m -> flat_ok pre m.
Proof.
  fix IH 1. intros [v|l] pre Hpre Hw out.
  - split.
    + intros [|k path] v' Hne; [|done]. rewrite app_nil_r. intros [= <-]. apply lookup_insert_eq.
    + intros key Hkey. simpl. rewrite lookup_insert_ne; [done|]. intros <-. apply (Hkey [] v); [done|]. by rewrite app_nil_r.
  - apply wf_all in Hw as [Hnd Hw].
    assert (Hall : Forall (fun kv => part_ok kv.1 /\ wf kv.2 /\ flat_ok (pre ++ [kv.1]) kv.2) l).
    { clear Hnd. induction l as [|[k m] l IHl]; [constructor|]. apply Forall_cons in Hw as [[Hk Hm] Hw].
      constructor; [|by apply IHl]. split; [done|]. split; [done|]. apply (IH m); [|done]. apply Forall_app. split; [done|by constructor]. }
    destruct (flatten_fields pre l out Hpre Hnd Hall) as [Ha Hb]. rewrite flatten_msg_node. split.
    + intros [|k path] v Hne Hm; [done|]. by apply Ha.
    + intros key Hkey. apply Hb. intros k path v Hm. by apply (Hkey (k :: path) v).
Qed.
End BundleProofs.

Section Translation.
  Context {A : Type} (Sprint : A -> string).

Lemma lookup_LoadMap locale nested (b : Bundle) l key : wf (Node nested) ->
  (forall path v, path <> [] -> msg_at (A := A) (Node nested) path = Some v -> lookup (LoadMap Sprint locale nested b) locale (join "." path) = Some (Sprint v)) /\
  ((l <> locale \/ forall path v, msg_at (Node nested) path = Some v -> key <> join "." path) ->
   lookup (LoadMap Sprint locale nested b) l key = lookup b l key).
Proof.
  intros Hw. unfold LoadMap, lookup. cbn [messages].
  destruct (flatten_ok Sprint (Node nested) [] (Forall_nil_2 _) Hw (default ∅ (messages b !! locale))) as [Ha Hb].
  rewrite flatten_msg_node in Ha, Hb. simpl join in Ha, Hb. split.
  - intros path v Hne Hm. rewrite lookup_insert_eq. by apply Ha.
  - intros Hor. destruct (decide (l = locale)) as [->|Hl]; [|by rewrite lookup_insert_ne].
    rewrite lookup_insert_eq, Hb; [by destruct (messages b !! locale)|]. by destruct Hor.
Qed.

(** Loading and translating: after nested messages (distinct, dot-free, non-empty keys) are loaded
    into a locale, in any iteration order, translating the dotted path of a message gives its text
    with every placeholder that has an argument replaced at once and the others left, provided no
    argument holds a brace; another locale without that message gets the same text when the
    locale is its fallback; and no other message changes. *)
Theorem Translate_spec locale nested (b : Bundle) path v segs (args : M A) :
  wf (Node nested) -> path <> [] -> msg_at (Node nested) path = Some v ->
  Sprint v = template segs -> Forall seg_ok segs -> Forall (fun kv => no_brace kv.1 /\ no_brace (Sprint kv.2)) args ->
  let b' := LoadMap Sprint locale nested b in
  let text := template (map (fill_all Sprint args) segs) in
  Translate Sprint b' locale (join "." path) args = text /\
  (forall l, fallback b = locale -> lookup b l (join "." path) = None -> Translate Sprint b' l (join "." path) args = text) /\
  (forall l key, (l <> locale \/ forall p w, msg_at (Node nested) p = Some w -> key <> join "." p) -> lookup b' l key = lookup b l key).
Proof.
  intros Hw Hne Hm Hv Hs Ha b' text.
  assert (Hk : lookup b' locale (join "." path) = Some (Sprint v)) by (by apply (lookup_LoadMap locale nested b locale EmptyString Hw)).
  assert (Htext : substitute Sprint (Sprint v) args = text) by (rewrite Hv; by apply substitute_template).
  split; [unfold Translate; by rewrite Hk|]. split.
  - intros l Hf Hl. unfold Translate. destruct (decide (l = locale)) as [->|Hll]; [by rewrite Hk|].
    assert (Hl' : lookup b' l (join "." path) = None) by (unfold b'; rewrite (proj2 (lookup_LoadMap locale nested b l _ Hw)); [done|by left]).
    assert (Hfb : fallback b' = locale) by done. rewrite Hl', Hfb, (proj2 (String.eqb_neq _ _) Hll). cbn [negb]. by rewrite Hk.
  - intros l key Hor. by apply lookup_LoadMap.
Qed.

(** A key known nowhere translates to itself. *)
Lemma Translate_unknown (b : Bundle) locale key args : lookup b locale key = None -> lookup b (fallback b) key = None ->
  Translate Sprint b locale key args = key.
Proof. intros H1 H2. unfold Translate. rewrite H1, H2. by destruct (negb _). Qed.
End Translation.

(** Every count of every locale has one of the six CLDR categories. *)
Lemma pluralCategory_valid locale n : pluralCategory locale n ∈ ["zero"; "one"; "two"; "few"; "many"; "other"]%string.
Proof.
  unfold pluralCategory. set (n' := if n <? 0 then _ else n). clearbody n'. set (lang := to_lower _). clearbody lang. cbv zeta.
  repeat match goal with |- (if ?b then _ else _) ∈ _ => destruct b end; set_solver.
Qed.

Definition demo_messages : list (string * message string) :=
  [("welcome", Leaf "Hello, {name}!"); ("cart", Node [("items", Node [("one", Leaf "{n} item"); ("other", Leaf "{n} items of {shop}")])])]%string.

Lemma Translate_spec_witness :
  wf (Node demo_messages) /\
  Translate id (LoadMap id "en" demo_messages (New [])) "fr" "cart.items.other" [("n", "3")]%string = "3 items of {shop}"%string.
Proof.
  assert (Hw : wf (Node demo_messages)).
  { repeat split; try discriminate; refine (bool_decide_unpack _ _); vm_compute; exact I. }
  split; [exact Hw|].
  pose proof (Translate_spec id "en" demo_messages (New []) ["cart"; "items"; "other"]%string "{n} items of {shop}"%string
    [Hole "n"; Text " items of "; Hole "shop"]%string [("n", "3")]%string Hw ltac:(discriminate) eq_refl eq_refl) as H.
  refine (proj1 (proj2 (H _ _)) "fr"%string eq_refl eq_refl).
  - repeat (apply Forall_cons_2; [split; reflexivity|]). apply Forall_nil_2.
  - repeat (apply Forall_cons_2; [repeat split; reflexivity|]). apply Forall_nil_2.
Defined.

(** An argument that holds a placeholder makes the result depend on the iteration order of the
    arguments, which Go leaves open: user text can be expanded again. *)
Lemma substitute_order_dependent :
  substitute id "{user} owes {amount}" [("user", "{amount}"); ("amount", "5")]%string = "5 owes 5"%string /\
  substitute id "{user} owes {amount}" [("amount", "5"); ("user", "{amount}")]%string = "{amount} owes 5"%string.
Proof. split; vm_compute; reflexivity. Qed.

(** ** Locale detection *)

(** Floats other than NaN are totally ordered by this key: class and signed exponent and mantissa. *)
Definition float_key (f : spec_float) : Z * Z * Z :=
  match f with
  | S754_infinity true => (-2, 0, 0)
  | S754_finite true m e => (-1, - e, Z.neg m)
  | S754_zero _ => (0, 0, 0)
  | S754_finite false m e => (1, e, Z.pos m)
  | S754_infinity false => (2, 0, 0)
  | S754_nan => (3, 0, 0)
  end.
Definition key_lt (a b : Z * Z * Z) : Prop :=
  a.1.1 < b.1.1 \/ (a.1.1 = b.1.1 /\ (a.1.2 < b.1.2 \/ (a.1.2 = b.1.2 /\ a.2 < b.2))).

Lemma SFltb_key x y : x <> S754_nan -> y <> S754_nan -> SFltb x y = true <-> key_lt (float_key x) (float_key y).
Proof.
  intros Hx Hy. unfold SFltb, SFcompare, key_lt.
  destruct x as [sx|[]| |[] mx ex], y as [sy|[]| |[] my ey]; try done; simpl; try (split; [lia || done|]; lia);
    try (split; [done|]; intros; lia).
  - destruct (Z.compare_spec ex ey); simpl; try (split; [done|lia]); try (split; [lia|done]).
    subst. change (PosDef.Pos.compare_cont Eq mx my) with (Pos.compare mx my).
    destruct (Pos.compare_spec mx my); simpl; split; (done || lia).
  - destruct (Z.compare_spec ex ey); simpl; try (split; [done|lia]); try (split; [lia|done]).
    subst. change (PosDef.Pos.compare_cont Eq mx my) with (Pos.compare mx my).
    destruct (Pos.compare_spec mx my); simpl; split; (done || lia).
Qed.

Lemma key_lt_trans a b c : ~ key_lt a b -> ~ key_lt b c -> ~ key_lt a c.
Proof. unfold key_lt. lia. Qed.

Definition no_nan (p : pref) : Prop := q p <> S754_nan.

(** [at_least x y]: x is not preferred less than y. *)
Definition at_least (x y : pref) : Prop := ~ key_lt (float_key (q x)) (float_key (q y)).

Lemma insert_pref_perm p l : insert_pref p l ≡ₚ p :: l.
Proof. induction l as [|x l IH]; simpl; [done|]. destruct (SFltb _ _); [done|]. rewrite IH. apply Permutation_swap. Qed.

Lemma sort_prefs_perm l : sort_prefs l ≡ₚ l.
Proof.
  unfold sort_prefs. assert (H : forall acc, fold_left (fun acc p => insert_pref p acc) l acc ≡ₚ acc ++ l); [|apply H].
  induction l as [|p l IH]; intros acc; cbn [fold_left]; [by rewrite app_nil_r|].
  rewrite IH, insert_pref_perm. apply Permutation_middle.
Qed.

Lemma insert_pref_sorted p l : no_nan p -> Forall no_nan l -> StronglySorted at_least l -> StronglySorted at_least (insert_pref p l).
Proof.
  intros Hp Hl Hs. induction Hs as [|x l Hs IH Hx]; simpl; [repeat constructor|]. apply Forall_cons in Hl as [Hxn Hl].
  destruct (SFltb (q x) (q p)) eqn:Hlt.
  - apply SFltb_key in Hlt; [|done..]. constructor; [by constructor|]. constructor; [unfold at_least, key_lt in *; lia|].
    eapply Forall_impl; [exact Hx|]. intros y. unfold at_least, key_lt in *. lia.
  - constructor; [by apply IH|]. rewrite insert_pref_perm. constructor; [|done]. unfold at_least. rewrite <- SFltb_key by done. by rewrite Hlt.
Qed.

Lemma sort_prefs_sorted l : Forall no_nan l -> StronglySorted at_least (sort_prefs l).
Proof.
  unfold sort_prefs. assert (H : forall acc, Forall no_nan acc -> Forall no_nan l -> StronglySorted at_least acc ->
    StronglySorted at_least (fold_left (fun acc p => insert_pref p acc) l acc)).
  { induction l as [|p l IH]; intros acc Ha Hl Hs; [done|]. apply Forall_cons in Hl as [Hp Hl]. cbn [fold_left]. apply IH; [|done|].
    - rewrite insert_pref_perm. by constructor.
    - by apply insert_pref_sorted. }
  intros Hl. apply H; [constructor|done|constructor].
Qed.

(** The first element an [omap] keeps of a strongly sorted list beats every other one it keeps. *)
Lemma omap_sorted_head (f : pref -> option string) l x xs : StronglySorted at_least l -> omap f l = x :: xs ->
  exists p, p ∈ l /\ f p = Some x /\ forall p', p' ∈ l -> is_Some (f p') -> p' = p \/ at_least p p'.
Proof.
  intros Hs. induction Hs as [|y l Hs IH Hy]; csimpl; [done|]. destruct (f y) as [z|] eqn:Hf.
  - intros [= <- _]. exists y. split; [by left|]. split; [done|]. intros p' [->|Hp']%elem_of_cons _; [by left|].
    right. rewrite Forall_forall in Hy. by apply Hy.
  - intros H%IH. destruct H as (p & Hp & Hx & Hb). exists p. split; [by right|]. split; [done|].
    intros p' [->|Hp']%elem_of_cons Hs'; [rewrite Hf in Hs'; by destruct Hs'|by apply Hb].
Qed.

(** Content negotiation: what [matchAcceptLanguage] returns is a locale the bundle has, selected by
    a preference of the header (its tag, or its base language) than which no supported preference
    has a greater weight; it returns nothing only when no preference is supported. Weights are the
    float64 values of the header, malformed ones counting as 1. *)
Theorem matchAcceptLanguage_spec (b : Bundle) header :
  let prefs := omap parse_pref (split "," header) in
  header <> ""%string -> Forall no_nan prefs ->
  match matchAcceptLanguage b header with
  | EmptyString => forall p l, p ∈ prefs -> selects b p = Some l -> l = ""%string \/ exists p', p' ∈ prefs /\ selects b p' = Some ""%string
  | l => Has b l = true /\ exists p, p ∈ prefs /\ selects b p = Some l /\
           forall p', p' ∈ prefs -> is_Some (selects b p') -> SFltb (q p) (q p') = false
  end.
Proof.
  intros prefs Hh Hn. unfold matchAcceptLanguage. rewrite (proj2 (String.eqb_neq _ _) Hh). fold prefs.
  pose proof (sort_prefs_sorted prefs Hn) as Hs. pose proof (sort_prefs_perm prefs) as Hp.
  destruct (omap (selects b) (sort_prefs prefs)) as [|l ls] eqn:Ho.
  - intros p l Hpin Hl. assert (l ∈ omap (selects b) (sort_prefs prefs)) as Hin.
    { apply list_elem_of_omap. exists p. split; [by rewrite Hp|done]. }
    rewrite Ho in Hin. set_solver.
  - destruct (omap_sorted_head _ _ _ _ Hs Ho) as (p & Hpin & Hl & Hb). rewrite Hp in Hpin.
    assert (Hhas : Has b l = true).
    { unfold selects in Hl. destruct (Has b (p_tag p)) eqn:H1; [by injection Hl as <-|].
      destruct (cut "-" (p_tag p)) as [[base rest] found]. destruct found, (Has b base) eqn:H2; try done. by injection Hl as <-. }
    destruct l as [|c l].
    + intros p' l' _ _. right. by exists p.
    + split; [done|]. exists p. split; [done|]. split; [done|]. intros p' Hp' Hsel.
      rewrite Forall_forall in Hn. destruct (SFltb (q p) (q p')) eqn:Hlt; [|done]. apply SFltb_key in Hlt; [|by apply Hn..].
      destruct (Hb p' ltac:(by rewrite Hp) Hsel) as [->|Hge]; [unfold key_lt in Hlt; lia|done].
Qed.

Definition two_locales : Bundle := LoadMap id "id" [("hi", Leaf "hai")]%string (LoadMap id "pt-BR" [("hi", Leaf "oi")]%string (New [])).

Lemma matchAcceptLanguage_spec_witness :
  Forall no_nan (omap parse_pref (split "," "en;q=0.8, id-ID;q=0.9, fr"%string)) /\ Has two_locales "id" = true.
Proof.
  assert (Hn : Forall no_nan (omap parse_pref (split "," "en;q=0.8, id-ID;q=0.9, fr"%string))).
  { vm_compute. repeat (apply Forall_cons_2; [intros H; discriminate H|]). apply Forall_nil_2. }
  split; [exact Hn|]. pose proof (matchAcceptLanguage_spec two_locales "en;q=0.8, id-ID;q=0.9, fr"%string ltac:(discriminate) Hn) as H.
  assert (Hm : matchAcceptLanguage two_locales "en;q=0.8, id-ID;q=0.9, fr"%string = "id"%string) by (vm_compute; reflexivity).
  rewrite Hm in H. exact (proj1 H).
Defined.

(** The header's tags are lower-cased but the bundle's locales are not: a "pt-BR" catalogue is never
    selected by "pt-BR". *)
Lemma region_locale_never_matches :
  Has two_locales "pt-BR" = true /\ matchAcceptLanguage two_locales "pt-BR" = ""%string.
Proof. split; vm_compute; reflexivity. Qed.
