(* ===== verification/WsHub.v ===== *)
(** * The WebSocket hub (ws/hub.go, ws/conn.go, ws/backplane.go)

    Connections are objects shared by the hub, its rooms and two goroutines each; the hub's state
    holds them in a store by identity. Every mutex-protected section is one atomic [action]; a
    run is any sequence of actions, so a theorem about runs holds for every interleaving. A send on
    a closed channel, or closing one twice, is a panic: [step] is [None] there. *)

From S2P Require Import Prelude.
Open Scope Z_scope.

(** ** Data *)

(** What the write pump has sent to the socket. *)
Inductive frame := Text (b : string) | CloseFrame.

(** [send] is the channel's buffer and [chan_closed] whether it is closed; [once] the [sync.Once];
    [pumping] whether the write pump still runs. *)
Record Conn := MkConn {
  send : list string; chan_closed : bool; crooms : gset string; closed : bool; once : bool;
  written : list frame; pumping : bool }.

Definition ErrClosed : error := Err "ws: connection closed".
Definition ErrSlowClient : error := Err "ws: slow client dropped".

(** The backplane: its subscription error if it failed to start, and whether its context is cancelled. *)
Record backplane := Backplane { bp_err : option error; cancelled : bool }.
Definition newBackplane (subscribe : option error) : backplane := Backplane subscribe false.
Definition close_backplane (b : backplane) : backplane := Backplane (bp_err b) true.

Record Hub := MkHub {
  sendBuf : nat; objects : gmap nat Conn; conns : gset nat; rooms : gmap string (gset nat);
  bp : option backplane }.

Definition with_objects (f : gmap nat Conn -> gmap nat Conn) (h : Hub) : Hub :=
  MkHub (sendBuf h) (f (objects h)) (conns h) (rooms h) (bp h).
Definition with_conns (f : gset nat -> gset nat) (h : Hub) : Hub :=
  MkHub (sendBuf h) (objects h) (f (conns h)) (rooms h) (bp h).
Definition with_rooms (f : gmap string (gset nat) -> gmap string (gset nat)) (h : Hub) : Hub :=
  MkHub (sendBuf h) (objects h) (conns h) (f (rooms h)) (bp h).

Definition with_bp (f : option backplane -> option backplane) (h : Hub) : Hub :=
  MkHub (sendBuf h) (objects h) (conns h) (rooms h) (f (bp h)).

Definition WithSendBuffer (n : Z) (cur : nat) : nat := if 0 <? n then Z.to_nat n else cur.

(** [NewHub]: [subscribe] is the result of the backplane's subscription, when there is one. *)
Definition NewHub (buf_opts : list (nat -> nat)) (subscribe : option (option error)) : Hub :=
  MkHub (fold_left (fun n o => o n) buf_opts 16%nat) ∅ ∅ ∅ (newBackplane <$> subscribe).

Definition new_conn : Conn := MkConn [] false ∅ false false [] true.

(** ** Hub bookkeeping *)

Definition register (c : nat) : Hub -> Hub := with_conns (fun s => {[c]} ∪ s).

(** [delete(set, c)], dropping a room that becomes empty. *)
Definition drop_member (c : nat) (set : gset nat) : option (gset nat) :=
  let set' := set ∖ {[c]} in if decide (set' = ∅) then None else Some set'.

Definition unregister (c : nat) (h : Hub) : Hub :=
  with_rooms (fun rs => omap (drop_member c) rs) (with_conns (fun s => s ∖ {[c]}) h).

Definition addToRoom (room : string) (c : nat) : Hub -> Hub :=
  with_rooms (fun rs => <[room := {[c]} ∪ default ∅ (rs !! room)]> rs).

Definition removeFromRoom (room : string) (c : nat) : Hub -> Hub :=
  with_rooms (fun rs =>
    match rs !! room with
    | Some set => match drop_member c set with Some set' => <[room := set']> rs | None => delete room rs end
    | None => rs
    end).

(** ** One connection *)

Definition set_crooms (s : gset string) (c : Conn) : Conn :=
  MkConn (send c) (chan_closed c) s (closed c) (once c) (written c) (pumping c).

(** [enqueue]: the result, and the connection; a full buffer also starts a [Close] goroutine. *)
Definition enqueue (cap : nat) (b : string) (c : Conn) : option (option error * Conn) :=
  if closed c then Some (Some ErrClosed, c)
  else if chan_closed c then None
  else if (length (send c) <? cap)%nat
       then Some (None, MkConn (send c ++ [b]) (chan_closed c) (crooms c) (closed c) (once c) (written c) (pumping c))
       else Some (Some ErrSlowClient, c).

Definition Close (c : Conn) : option Conn :=
  if once c then Some c
  else if chan_closed c then None
  else Some (MkConn (send c) true (crooms c) true true (written c) (pumping c)).

(** One turn of the write pump's select on the channel; [ok] says whether the write succeeds. *)
Definition pump (ok : bool) (c : Conn) : Conn :=
  if negb (pumping c) then c
  else match send c with
       | b :: rest =>
           MkConn rest (chan_closed c) (crooms c) (closed c) (once c)
             (if ok then written c ++ [Text b] else written c) ok
       | [] =>
           if chan_closed c
           then MkConn [] true (crooms c) (closed c) (once c) (if ok then written c ++ [CloseFrame] else written c) false
           else c
       end.

(** ** Runs *)

Inductive action :=
| NewConn (c : nat)                    (* an upgraded request's connection object *)
| Register (c : nat) | Unregister (c : nat)
| JoinConn (c : nat) (r : string) | JoinHub (c : nat) (r : string)      (* Join's two locked sections *)
| LeaveConn (c : nat) (r : string) | LeaveHub (c : nat) (r : string)
| Enqueue (c : nat) (b : string)
| CloseConn (c : nat)
| Pump (c : nat) (ok : bool)
| CloseBackplane.                                                        (* what Hub.Close does first *)

Definition update (c : nat) (f : Conn -> Conn) (h : Hub) : Hub := with_objects (alter f c) h.

(** The error an [Enqueue] returns comes with the new state. *)
Definition step (a : action) (h : Hub) : option (option error * Hub) :=
  match a with
  | NewConn c => Some (None, match objects h !! c with Some _ => h | None => with_objects <[c := new_conn]> h end)
  | Register c => Some (None, register c h)
  | Unregister c => Some (None, unregister c h)
  | JoinConn c r => Some (None, update c (fun x => set_crooms ({[r]} ∪ crooms x) x) h)
  | JoinHub c r => Some (None, addToRoom r c h)
  | LeaveConn c r => Some (None, update c (fun x => set_crooms (crooms x ∖ {[r]}) x) h)
  | LeaveHub c r => Some (None, removeFromRoom r c h)
  | Enqueue c b =>
      match objects h !! c with
      | Some x => '(e, x') ← enqueue (sendBuf h) b x; Some (e, with_objects <[c := x']> h)
      | None => Some (Some ErrClosed, h)
      end
  | CloseConn c =>
      match objects h !! c with
      | Some x => x' ← Close x; Some (None, with_objects <[c := x']> h)
      | None => Some (None, h)
      end
  | Pump c ok => Some (None, update c (pump ok) h)
  | CloseBackplane => Some (None, with_bp (fmap close_backplane) h)
  end.

(** The run's results and final state, or a panic. *)
Fixpoint run (l : list action) (h : Hub) : option (list (option error) * Hub) :=
  match l with
  | [] => Some ([], h)
  | a :: l => '(e, h1) ← step a h; '(es, h2) ← run l h1; Some (e :: es, h2)
  end.

(** The actions of the package's operations. *)
Definition Join (c : nat) (r : string) : list action := [JoinConn c r; JoinHub c r].
Definition Leave (c : nat) (r : string) : list action := [LeaveConn c r; LeaveHub c r].

(** The targets [targets] snapshots, enqueued to one after the other. *)
Definition fan_out (b : string) (targets : list nat) : list action := map (fun c => Enqueue c b) targets.

(** [localBroadcast] and [localToRoom]: [order] enumerates a map's keys, in any order. *)
Definition localBroadcast {T} (marshal : T -> error + string) (order : gset nat -> list nat) (msg : T) (h : Hub) : list action :=
  match marshal msg with inl _ => [] | inr b => fan_out b (order (conns h)) end.
Definition localToRoom {T} (marshal : T -> error + string) (order : gset nat -> list nat) (room : string) (msg : T) (h : Hub) : list action :=
  match marshal msg with inl _ => [] | inr b => fan_out b (order (default ∅ (rooms h !! room))) end.

Definition Count (h : Hub) : Z := Z.of_nat (size (conns h)).
Definition BackplaneErr (h : Hub) : option error := match bp h with Some b => bp_err b | None => None end.

(** ** The lifecycle of a connection: what [Handle] runs around its callbacks *)

Definition handle (c : nat) (onConnect : option error) (at_connect during at_disconnect : list action) : list action :=
  match onConnect with
  | Some _ => NewConn c :: at_connect
  | None => NewConn c :: at_connect ++ Register c :: during ++ at_disconnect ++ [Unregister c; CloseConn c]
  end.

(** ** Several replicas and the backplane *)

(** [recode] is what the data are when they come out of the envelope's JSON again, if they do: the
    publisher encodes and the subscription decodes. What the Redis server makes of a publication is
    the list of replicas it is handed to, in order: a replica may be missing (the request or the
    delivery is lost) or be there twice. *)
Section Cluster.
  Context {T : Type} (marshal : T -> error + string) (recode : T -> option T) (order : gset nat -> list nat).

Record envelope := Envelope { Room : string; Data : T }.

(** The subscription's handler on one replica. *)
Definition on_envelope (env : envelope) (h : Hub) : list action :=
  if String.eqb (Room env) EmptyString then localBroadcast marshal order (Data env) h
  else localToRoom marshal order (Room env) (Data env) h.

(** Whether a replica's subscription is up. *)
Definition receives (h : Hub) : bool := match bp h with Some b => match bp_err b with None => negb (cancelled b) | Some _ => false end | None => false end.

(** The server hands the envelope to one replica after the other; where no subscription is up, nobody takes it. *)
Fixpoint bus (wire : list nat) (env : envelope) (hubs : list Hub) : option (list Hub) :=
  match wire with
  | [] => Some hubs
  | j :: wire =>
      match hubs !! j with
      | Some h =>
          if receives h
          then '(_, h') ← run (on_envelope env h) h; bus wire env (<[j := h']> hubs)
          else bus wire env hubs
      | None => bus wire env hubs
      end
  end.

(** Publishing from a hub with the backplane [b]: nothing is sent on a cancelled context, nor what cannot be encoded; what
    cannot be decoded is dropped where it arrives. An error is logged and dropped. *)
Definition publish (wire : list nat) (b : backplane) (env : envelope) (hubs : list Hub) : option (list Hub) :=
  if cancelled b then Some hubs
  else match recode (Data env) with
       | Some d => bus wire (Envelope (Room env) d) hubs
       | None => Some hubs
       end.

(** [Broadcast] and [ToRoom] called on replica [i]. *)
Definition Broadcast (wire : list nat) (i : nat) (msg : T) (hubs : list Hub) : option (list Hub) :=
  match hubs !! i with
  | Some h =>
      match bp h with
      | Some b => publish wire b (Envelope EmptyString msg) hubs
      | None => h' ← (snd <$> run (localBroadcast marshal order msg h) h); Some (<[i := h']> hubs)
      end
  | None => Some hubs
  end.

Definition ToRoom (wire : list nat) (i : nat) (room : string) (msg : T) (hubs : list Hub) : option (list Hub) :=
  match hubs !! i with
  | Some h =>
      match bp h with
      | Some b => publish wire b (Envelope room msg) hubs
      | None => h' ← (snd <$> run (localToRoom marshal order room msg h) h); Some (<[i := h']> hubs)
      end
  | None => Some hubs
  end.
End Cluster.

(** * Invariants *)

Definition conn_ok (cap : nat) (c : Conn) : Prop :=
  chan_closed c = closed c /\ once c = closed c /\ (length (send c) <= cap)%nat /\
  (pumping c = true -> CloseFrame ∉ written c).

Definition hub_ok (h : Hub) : Prop :=
  map_Forall (fun _ c => conn_ok (sendBuf h) c) (objects h) /\ map_Forall (fun _ s => s <> ∅) (rooms h).

Lemma alter_ok cap f c (m : gmap nat Conn) :
  (forall x, conn_ok cap x -> conn_ok cap (f x)) -> map_Forall (fun _ x => conn_ok cap x) m ->
  map_Forall (fun _ x => conn_ok cap x) (alter f c m).
Proof.
  intros Hf Hm i x Hx. apply lookup_alter_Some in Hx as [(-> & y & Hy & ->)|[_ Hx]]; [|by eapply Hm].
  apply Hf. by eapply Hm.
Qed.

Lemma enqueue_ok cap b c : conn_ok cap c -> exists e c', enqueue cap b c = Some (e, c') /\ conn_ok cap c'.
Proof.
  intros (Hcl & Ho & Hlen & Hw). unfold enqueue. rewrite Hcl.
  destruct (closed c) eqn:Hc; [exists (Some ErrClosed), c; split; [done|split_and!; congruence || done]|].
  destruct (Nat.ltb_spec (length (send c)) cap); eexists _, _; (split; [reflexivity|]).
  - split_and!; simpl; try congruence; [rewrite length_app; simpl; lia|done].
  - split_and!; congruence || done.
Qed.

Lemma Close_ok cap c : conn_ok cap c -> exists c', Close c = Some c' /\ conn_ok cap c'.
Proof.
  intros (Hcl & Ho & Hlen & Hw). unfold Close. rewrite Hcl, Ho.
  destruct (closed c) eqn:Hc; [exists c; split; [done|split_and!; congruence || done]|]. eexists. split; [done|by split_and!].
Qed.

Lemma pump_ok cap ok c : conn_ok cap c -> conn_ok cap (pump ok c).
Proof.
  intros (Hcl & Ho & Hlen & Hw). unfold pump. destruct (pumping c) eqn:Hp; simpl; [|split_and!; congruence || done].
  destruct (send c) as [|b rest] eqn:Hs; simpl in Hlen.
  - destruct (chan_closed c) eqn:Hc; split_and!; simpl; try congruence; rewrite ?Hs; simpl; try lia; auto.
  - split_and!; simpl; try congruence; [lia|]. intros ->. specialize (Hw eq_refl). set_solver.
Qed.

Lemma drop_member_ne c s s' : drop_member c s = Some s' -> s' <> ∅ /\ s' = s ∖ {[c]}.
Proof. unfold drop_member. case_decide; [done|]. by intros [= <-]. Qed.

(** Every action from a good state succeeds and leads to a good state. *)
Lemma step_ok a h : hub_ok h -> exists e h', step a h = Some (e, h') /\ hub_ok h' /\ sendBuf h' = sendBuf h.
Proof.
  intros [Ho Hr].
  assert (Hupd : forall c f, (forall x, conn_ok (sendBuf h) x -> conn_ok (sendBuf h) (f x)) -> hub_ok (update c f h))
    by (intros c f Hf; split; [by apply alter_ok|done]).
  assert (Hins : forall c x, conn_ok (sendBuf h) x -> hub_ok (with_objects <[c := x]> h))
    by (intros c x Hx; split; [by apply map_Forall_insert_2|done]).
  destruct a as [c|c|c|c r|c r|c r|c r|c b|c|c ok|]; simpl; try (eexists _, _; split; [reflexivity|split; [|reflexivity]]).
  - destruct (objects h !! c); eexists _, _; (split; [reflexivity|]); [exact (conj (conj Ho Hr) eq_refl)|].
    split; [|done]. apply Hins. split_and!; simpl; (done || lia || set_solver).
  - exact (conj Ho Hr).
  - split; [done|]. intros room s Hs. simpl in Hs. rewrite lookup_omap in Hs.
    destruct (rooms h !! room); simpl in Hs; [|done]. by apply drop_member_ne in Hs as [? _].
  - apply Hupd. done.
  - split; [done|]. apply map_Forall_insert_2; [set_solver|done].
  - apply Hupd. done.
  - split; [done|]. simpl. destruct (rooms h !! r) as [s|] eqn:Hs; [|done].
    destruct (drop_member c s) as [s'|] eqn:Hd.
    + apply map_Forall_insert_2; [by apply drop_member_ne in Hd as [? _]|done].
    + by apply map_Forall_delete.
  - destruct (objects h !! c) as [x|] eqn:Hx; [|eexists _, _; split; [reflexivity|exact (conj (conj Ho Hr) eq_refl)]].
    destruct (enqueue_ok (sendBuf h) b x (Ho c x Hx)) as (e & x' & -> & Hx'). simpl.
    eexists _, _. split; [reflexivity|]. split; [by apply Hins|done].
  - destruct (objects h !! c) as [x|] eqn:Hx; [|eexists _, _; split; [reflexivity|exact (conj (conj Ho Hr) eq_refl)]].
    destruct (Close_ok (sendBuf h) x (Ho c x Hx)) as (x' & -> & Hx'). simpl.
    eexists _, _. split; [reflexivity|]. split; [by apply Hins|done].
  - split; [apply Hupd; intros; by apply pump_ok|done].
  - exact (conj Ho Hr).
Qed.

Lemma run_ok l h : hub_ok h -> exists es h', run l h = Some (es, h') /\ hub_ok h' /\ sendBuf h' = sendBuf h.
Proof.
  revert h; induction l as [|a l IH]; intros h Hh; simpl; [eauto 6|].
  destruct (step_ok a h Hh) as (e & h1 & -> & Hh1 & Hc). simpl.
  destruct (IH h1 Hh1) as (es & h2 & -> & Hh2 & Hc2). simpl. eexists _, _. split; [done|]. split; [done|congruence].
Qed.

Lemma NewHub_ok opts sub : hub_ok (NewHub opts sub).
Proof. split; apply map_Forall_empty. Qed.

(** (C34) Safety under every interleaving: whatever sequence of registrations, joins, leaves, sends,
    closes (slow clients, handler exit and hub shutdown racing) and pump turns, no goroutine
    sends on a closed channel or closes one twice; buffers stay within their capacity and no
    empty room is kept. *)
Theorem ws_never_panics opts sub l :
  exists es h, run l (NewHub opts sub) = Some (es, h) /\
    map_Forall (fun _ c => (length (send c) <= sendBuf h)%nat /\ chan_closed c = closed c) (objects h) /\
    map_Forall (fun _ s => s <> ∅) (rooms h).
Proof.
  destruct (run_ok l (NewHub opts sub) (NewHub_ok opts sub)) as (es & h & Hrun & [Ho Hr] & Hc).
  exists es, h. split_and!; [done| |done]. intros i c Hi. destruct (Ho i c Hi) as (? & _ & ? & _). done.
Qed.

(** ** Delivery order on one connection *)

Fixpoint accepted (c : nat) (l : list action) (es : list (option error)) : list string :=
  match l, es with
  | Enqueue c' b :: l, None :: es => if (c' =? c)%nat then b :: accepted c l es else accepted c l es
  | _ :: l, _ :: es => accepted c l es
  | _, _ => []
  end.

(** The messages accepted so far are those written, at most one lost to a failed write, and those
    in the buffer; a close frame comes last. *)
Definition fifo (x : Conn) (acc : list string) : Prop :=
  exists texts lost tail,
    written x = map Text texts ++ tail /\ acc = texts ++ lost ++ send x /\ (length lost <= 1)%nat /\
    (tail = [] \/ tail = [CloseFrame]) /\ (pumping x = true -> lost = [] /\ tail = []).

Definition fifo_hub (c : nat) (h : Hub) (acc : list string) : Prop :=
  match objects h !! c with Some x => fifo x acc | None => acc = [] end.

Lemma fifo_pump ok x acc : fifo x acc -> fifo (pump ok x) acc.
Proof.
  intros (texts & lost & tail & Hw & Ha & Hl & Ht & Hp). unfold pump. destruct (pumping x) eqn:Hpx; simpl.
  2: { exists texts, lost, tail. by rewrite Hpx. }
  destruct (Hp eq_refl) as [-> ->]. rewrite app_nil_r in Hw. destruct (send x) as [|b rest] eqn:Hs.
  - destruct (chan_closed x); [|exists texts, [], []; rewrite Hs, app_nil_r; split_and!; auto].
    exists texts, [], (if ok then [CloseFrame] else []). simpl. rewrite Hw. destruct ok; split_and!; try done; auto; by rewrite app_nil_r.
  - destruct ok.
    + exists (texts ++ [b]), [], []. simpl. rewrite Hw, map_app, app_nil_r, <- app_assoc. split_and!; auto.
    + exists texts, [b], []. simpl. rewrite Hw, app_nil_r. split_and!; auto. done.
Qed.

Lemma fifo_same x y acc : fifo x acc -> written y = written x -> send y = send x -> pumping y = pumping x -> fifo y acc.
Proof. intros (texts & lost & tail & ?) Hw Hs Hp. exists texts, lost, tail. by rewrite Hw, Hs, Hp. Qed.

Lemma fifo_alter c c' f h acc : fifo_hub c h acc -> (forall x, fifo x acc -> fifo (f x) acc) -> fifo_hub c (update c' f h) acc.
Proof.
  unfold fifo_hub, update. simpl. intros Hf Hx. destruct (decide (c' = c)) as [->|Hne].
  - rewrite lookup_alter_eq. destruct (objects h !! c); simpl; auto.
  - by rewrite lookup_alter_ne.
Qed.

Lemma fifo_step c a h acc e h' : fifo_hub c h acc -> step a h = Some (e, h') ->
  fifo_hub c h' (acc ++ accepted c [a] [e]).
Proof.
  intros Hf Hst. assert (Hkeep : fifo_hub c h (acc ++ [])) by by rewrite app_nil_r.
  destruct a as [c'|c'|c'|c' r|c' r|c' r|c' r|c' b|c'|c' ok|]; simpl in *.
  1-7,10-11: injection Hst as <- <-; rewrite app_nil_r; try done.
  - unfold fifo_hub in *. destruct (objects h !! c') eqn:Ho; [done|]. simpl. destruct (decide (c' = c)) as [->|Hne].
    + rewrite lookup_insert_eq. rewrite Ho in Hf. subst acc. exists [], [], []. split_and!; simpl; auto.
    + by rewrite lookup_insert_ne.
  - by apply fifo_alter; [|intros x Hx; eapply fifo_same].
  - by apply fifo_alter; [|intros x Hx; eapply fifo_same].
  - apply fifo_alter; [done|]. intros x. apply fifo_pump.
  - destruct (objects h !! c') as [x|] eqn:Hx.
    2: { injection Hst as <- <-. done. }
    destruct (enqueue (sendBuf h) b x) as [[e0 x']|] eqn:He; simpl in Hst; [|done]. injection Hst as <- <-.
    unfold fifo_hub in *. simpl. destruct (Nat.eqb_spec c' c) as [->|Hne].
    2: { rewrite lookup_insert_ne by done. destruct e0; by rewrite app_nil_r. }
    rewrite lookup_insert_eq. rewrite Hx in Hf. unfold enqueue in He.
    destruct (closed x); [injection He as <- <-; by rewrite app_nil_r|]. destruct (chan_closed x); [done|].
    destruct (_ <? _)%nat; injection He as <- <-; [|by rewrite app_nil_r].
    destruct Hf as (texts & lost & tail & Hw & -> & Hl & Ht & Hp). exists texts, lost, tail. simpl.
    rewrite <- !app_assoc. split_and!; auto.
  - destruct (objects h !! c') as [x|] eqn:Hx.
    2: { injection Hst as <- <-. by rewrite app_nil_r. }
    destruct (Close x) as [x'|] eqn:He; simpl in Hst; [|done]. injection Hst as <- <-. rewrite app_nil_r.
    unfold fifo_hub in *. simpl. destruct (decide (c' = c)) as [->|Hne]; [|by rewrite lookup_insert_ne].
    rewrite lookup_insert_eq. rewrite Hx in Hf. unfold Close in He.
    destruct (once x); [by injection He as <-|]. destruct (chan_closed x); [done|]. injection He as <-.
    by eapply fifo_same.
Qed.

Lemma accepted_cons c a l e es : accepted c (a :: l) (e :: es) = accepted c [a] [e] ++ accepted c l es.
Proof. destruct a; try done. simpl. destruct e; [done|]. by destruct (_ =? _)%nat. Qed.

(** Delivery: on every connection, whatever is interleaved, the messages whose send was
    accepted are, in order, those written to the socket followed by those still buffered (less
    at most one lost when a write failed, which stops the pump), and a close frame is the last. *)
Theorem ws_fifo opts sub l es h c x :
  run l (NewHub opts sub) = Some (es, h) -> objects h !! c = Some x -> fifo x (accepted c l es).
Proof.
  intros Hrun Hx.
  assert (Hgen : forall l h0 acc es h, fifo_hub c h0 acc -> run l h0 = Some (es, h) -> fifo_hub c h (acc ++ accepted c l es)).
  { clear. induction l as [|a l IH]; intros h0 acc es h Hf Hrun; simpl in Hrun.
    - injection Hrun as <- <-. simpl. by rewrite app_nil_r.
    - destruct (step a h0) as [[e h1]|] eqn:Hst; simpl in Hrun; [|done].
      destruct (run l h1) as [[es' h2]|] eqn:Hr; simpl in Hrun; [|done]. injection Hrun as <- <-.
      rewrite accepted_cons, app_assoc. eapply IH; [|exact Hr]. by eapply fifo_step. }
  specialize (Hgen l (NewHub opts sub) [] es h eq_refl Hrun). unfold fifo_hub in Hgen. by rewrite Hx in Hgen.
Qed.

(** ** Fan-out *)

(** What a message does to one target. *)
Definition deliver (cap : nat) (b : string) (x : Conn) : Conn :=
  if closed x || negb (length (send x) <? cap)%nat then x
  else MkConn (send x ++ [b]) (chan_closed x) (crooms x) (closed x) (once x) (written x) (pumping x).

Definition delivered (b : string) (targets : gset nat) (h h' : Hub) : Prop :=
  (forall c, objects h' !! c = if decide (c ∈ targets) then deliver (sendBuf h) b <$> (objects h !! c) else objects h !! c) /\
  conns h' = conns h /\ rooms h' = rooms h /\ bp h' = bp h /\ sendBuf h' = sendBuf h.

Lemma fan_out_spec b targets h : hub_ok h -> NoDup targets ->
  exists es h', run (fan_out b targets) h = Some (es, h') /\ delivered b (list_to_set targets) h h'.
Proof.
  revert h; induction targets as [|c targets IH]; intros h Hh Hnd.
  { eexists _, _. split; [reflexivity|]. split_and!; done. }
  apply NoDup_cons in Hnd as [Hc Hnd]. destruct (step_ok (Enqueue c b) h Hh) as (e & h1 & Hst & Hh1 & Hcap).
  destruct (IH h1 Hh1 Hnd) as (es & h2 & Hrun & Hobj & H1 & H2 & H3 & H4).
  exists (e :: es), h2. cbn [fan_out map run]. fold (fan_out b targets). rewrite Hst. simpl. rewrite Hrun. split; [done|].
  assert (Hh1' : conns h1 = conns h /\ rooms h1 = rooms h /\ bp h1 = bp h /\
     forall d, objects h1 !! d = if decide (d = c) then deliver (sendBuf h) b <$> (objects h !! d) else objects h !! d).
  { simpl in Hst. destruct (objects h !! c) as [x|] eqn:Hx.
    2: { injection Hst as <- <-. split_and!; try done. intros d. case_decide; [subst; by rewrite Hx|done]. }
    destruct (enqueue (sendBuf h) b x) as [[e0 x']|] eqn:He; simpl in Hst; [|done]. injection Hst as <- <-.
    split_and!; try done. intros d. simpl. case_decide as Hd; [subst d|by rewrite lookup_insert_ne].
    rewrite lookup_insert_eq, Hx. simpl. f_equal. unfold enqueue in He. unfold deliver.
    destruct (closed x); [by injection He as <- <-|]. destruct (chan_closed x); [done|]. simpl.
    by destruct (_ <? _)%nat; injection He as <- <-. }
  destruct Hh1' as (Hc1 & Hr1 & Hb1 & Ho1). split_and!; try congruence.
  intros d. rewrite Hobj, Ho1, Hcap. repeat case_decide; try done; set_solver.
Qed.

(** The message arrived [k] times: on each target it was enqueued as often, and nothing else changed. *)
Definition received (k : nat) (b : string) (targets : gset nat) (h h' : Hub) : Prop :=
  (forall c, objects h' !! c = Nat.iter (if decide (c ∈ targets) then k else O) (deliver (sendBuf h) b) <$> (objects h !! c)) /\
  conns h' = conns h /\ rooms h' = rooms h /\ bp h' = bp h /\ sendBuf h' = sendBuf h.

Lemma received_zero b targets h : received 0 b targets h h.
Proof. split_and!; try done. intros c. by destruct (decide (c ∈ targets)), (objects h !! c). Qed.

Lemma received_S k b targets h h1 h2 : delivered b targets h h1 -> received k b targets h1 h2 -> received (S k) b targets h h2.
Proof.
  intros (Ho & H1 & H2 & H3 & H4) (Ko & K1 & K2 & K3 & K4). split_and!; try congruence. intros c.
  rewrite Ko, Ho, H4. case_decide; [|done]. destruct (objects h !! c); [|done]. simpl. f_equal. by rewrite <- Nat.iter_succ_r.
Qed.

Section ClusterProofs.
  Context {T : Type} (marshal : T -> error + string) (recode : T -> option T) (order : gset nat -> list nat).
  Context (order_nodup : forall s, NoDup (order s)) (order_elem : forall s c, c ∈ order s <-> c ∈ s).

Lemma order_set s : list_to_set (order s) = s.
Proof. apply set_eq. intros c. by rewrite elem_of_list_to_set, order_elem. Qed.

(** The connections an envelope is meant for on one replica. *)
Definition audience (room : string) (h : Hub) : gset nat :=
  if String.eqb room EmptyString then conns h else default ∅ (rooms h !! room).

Lemma on_envelope_spec room msg b h : hub_ok h -> marshal msg = inr b ->
  exists es h', run (on_envelope marshal order (Envelope room msg) h) h = Some (es, h') /\ delivered b (audience room h) h h'.
Proof.
  intros Hh Hm. unfold on_envelope, localBroadcast, localToRoom, audience. simpl. rewrite Hm.
  destruct (String.eqb room EmptyString).
  - destruct (fan_out_spec b (order (conns h)) h Hh (order_nodup _)) as (es & h' & Hr & Hd). rewrite order_set in Hd. eauto.
  - destruct (fan_out_spec b (order (default ∅ (rooms h !! room))) h Hh (order_nodup _)) as (es & h' & Hr & Hd).
    rewrite order_set in Hd. eauto.
Qed.

Lemma delivered_ok b targets h h' es l : hub_ok h -> run l h = Some (es, h') -> delivered b targets h h' -> hub_ok h'.
Proof. intros Hh Hr _. destruct (run_ok l h Hh) as (es' & h1 & Hr' & Hh1 & _). rewrite Hr in Hr'. by injection Hr' as <- <-. Qed.

(** How often the bus hands something to a replica whose subscription is up. *)
Definition times (wire : list nat) (j : nat) (h : Hub) : nat := if receives h then count_occ Nat.eq_dec wire j else O.

Lemma receives_bp h h' : bp h' = bp h -> receives h' = receives h.
Proof. unfold receives. by intros ->. Qed.

Lemma bus_spec wire room msg b hubs : Forall hub_ok hubs -> marshal msg = inr b ->
  exists hubs', bus marshal order wire (Envelope room msg) hubs = Some hubs' /\ length hubs' = length hubs /\
    forall j h, hubs !! j = Some h -> exists h', hubs' !! j = Some h' /\ received (times wire j h) b (audience room h) h h'.
Proof.
  intros Hok Hm. revert hubs Hok. induction wire as [|i wire IH]; intros hubs Hok.
  { exists hubs. split_and!; [done..|]. intros j h Hj. exists h. split; [done|]. unfold times. destruct (receives h); apply received_zero. }
  cbn [bus]. destruct (hubs !! i) as [hi|] eqn:Hi.
  2: { destruct (IH hubs Hok) as (hubs' & Hb & Hlen & Hall). exists hubs'. split_and!; [done..|]. intros j h Hj.
    assert (j <> i) by congruence. destruct (Hall j h Hj) as (h' & Hj' & Hrec). exists h'. split; [done|].
    unfold times in *. rewrite count_occ_cons_neq by done. done. }
  destruct (receives hi) eqn:Hrec.
  2: { destruct (IH hubs Hok) as (hubs' & Hb & Hlen & Hall). exists hubs'. split_and!; [done..|]. intros j h Hj.
    destruct (Hall j h Hj) as (h' & Hj' & Hr). exists h'. split; [done|]. unfold times in *.
    destruct (receives h) eqn:Hrh; [|done]. rewrite count_occ_cons_neq; [done|]. intros <-. congruence. }
  assert (Hoki : hub_ok hi) by (by eapply Forall_lookup_1).
  destruct (on_envelope_spec room msg b hi Hoki Hm) as (es & h1 & Hr & Hd). rewrite Hr. cbn [mbind option_bind].
  destruct (IH (<[i:=h1]> hubs)) as (hubs' & Hb & Hlen & Hall).
  { apply Forall_insert; [done|by eapply delivered_ok]. }
  exists hubs'. split_and!; [done|by rewrite Hlen, length_insert|]. intros j h Hj. destruct (decide (j = i)) as [->|Hji].
  - rewrite Hi in Hj. injection Hj as <-.
    destruct (Hall i h1) as (h' & Hj' & Hr'); [apply list_lookup_insert_eq; by eapply lookup_lt_Some|].
    exists h'. split; [done|]. pose proof Hd as (_ & Hc1 & Hr1 & Hb1 & _). unfold times in *. rewrite (receives_bp _ _ Hb1), Hrec in Hr'.
    rewrite Hrec, count_occ_cons_eq by done. eapply received_S; [done|].
    unfold audience in *. by rewrite Hc1, Hr1 in Hr'.
  - destruct (Hall j h) as (h' & Hj' & Hr'); [by rewrite list_lookup_insert_ne|]. exists h'. split; [done|].
    unfold times in *. by rewrite count_occ_cons_neq.
Qed.


(** A hub whose subscription failed delivers to nobody, its own connections included. *)
Lemma failed_backplane_is_silent wire h bk err msg room :
  bp h = Some bk -> bp_err bk = Some err ->
  Broadcast marshal recode order wire 0 msg [h] = Some [h] /\ ToRoom marshal recode order wire 0 room msg [h] = Some [h].
Proof.
  intros Hb He. assert (Hbus : forall w env, bus marshal order w env [h] = Some [h]).
  { intros w env. induction w as [|[|j] w IH]; cbn; [done| |done]. unfold receives. by rewrite Hb, He. }
  unfold Broadcast, ToRoom, publish. cbn [lookup list_lookup]. rewrite Hb. cbn [Data Room].
  destruct (cancelled bk), (recode msg); by rewrite ?Hbus.
Qed.
End ClusterProofs.

(** ** Examples *)

Definition str_marshal (s : string) : error + string := inr s.

(** Two connections, the second one in the room "vip". *)
Definition two_conns : list action := [NewConn 1; Register 1; NewConn 2; Register 2] ++ Join 2 "vip".
Definition hub_of (sub : option (option error)) : Hub :=
  match run two_conns (NewHub [WithSendBuffer 4] sub) with Some (_, h) => h | None => NewHub [] None end.

Definition sent_to (c : nat) (hubs : option (list Hub)) : option (list (option (list string))) :=
  map (fun h => send <$> (objects h !! c)) <$> hubs.

(** Through the backplane, a message to the room "" reaches everybody; without it, nobody. *)
Lemma empty_room_is_broadcast :
  sent_to 1 (ToRoom str_marshal Some elements [0%nat] 0 "" "secret" [hub_of (Some None)]) = Some [Some ["secret"%string]] /\
  sent_to 1 (ToRoom str_marshal Some elements [0%nat] 0 "" "secret" [hub_of None]) = Some [Some []].
Proof. split; vm_compute; reflexivity. Qed.

(** A connection that joins a room in [OnConnect] and is then rejected stays in the room. *)
Lemma rejected_connection_leaks :
  match run (handle 7 (Some (Err "rejected")) (Join 7 "lobby") [] []) (NewHub [] None) with
  | Some (_, h) => rooms h !! "lobby"%string = Some {[7%nat]} /\ conns h = ∅
  | None => False
  end.
Proof. vm_compute. split; reflexivity. Qed.

Definition talk : list action :=
  two_conns ++ [Enqueue 2 "a"; Enqueue 2 "b"; Pump 2 true; CloseConn 2; Enqueue 2 "c"; Pump 2 true; Pump 2 true].
Definition talked : list (option error) * Hub :=
  match run talk (NewHub [WithSendBuffer 4] None) with Some r => r | None => ([], NewHub [] None) end.
Definition conn2 : Conn := match objects talked.2 !! 2%nat with Some x => x | None => new_conn end.

Lemma ws_fifo_witness :
  written conn2 = [Text "a"; Text "b"; CloseFrame] /\ accepted 2 talk (fst talked) = ["a"%string; "b"%string] /\
  fifo conn2 (accepted 2 talk (fst talked)).
Proof.
  split; [vm_compute; reflexivity|]. split; [vm_compute; reflexivity|].
  apply (ws_fifo [WithSendBuffer 4] None talk talked.1 talked.2 2%nat conn2); vm_compute; reflexivity.
Defined.

Lemma hub_of_ok sub : hub_ok (hub_of sub).
Proof.
  unfold hub_of. destruct (run_ok two_conns (NewHub [WithSendBuffer 4] sub) (NewHub_ok _ _)) as (es & h & -> & Hh & _). exact Hh.
Qed.

(** Two replicas that are up and one whose subscription failed; the server hands the message to the
    third replica twice and to the failed one once. *)
Definition replicas : list Hub := [hub_of (Some None); hub_of (Some (Some (Err "refused"))); hub_of (Some None)].

