(* ===== verification/Generator.v ===== *)
(** * The project generator (cmd/fibr/options.go, module.go, addmodule.go, generate.go)

    The file system is a map of files and a set of directories; templates, gofmt, the clock's
    format and external commands are parameters. Error texts are abbreviated to their
    constant part. *)

From S2P Require Import Prelude GoStrings.
Open Scope Z_scope.

(** ** Options *)

Record Options := MkOptions {
  o_Name : string; o_Module : string; o_DB : string; o_Layout : string;
  o_Sample : bool; o_Auth : bool; o_Team : bool; o_Queue : bool; o_Mailer : bool; o_Realtime : bool; o_I18n : bool;
  o_Dir : string; NoGit : bool; NoTidy : bool; o_HelpersVersion : string; Local_ : string }.

Definition with_strings (name module db layout dir : string) (o : Options) : Options :=
  MkOptions name module db layout (o_Sample o) (o_Auth o) (o_Team o) (o_Queue o) (o_Mailer o) (o_Realtime o) (o_I18n o)
    dir (NoGit o) (NoTidy o) (o_HelpersVersion o) (Local_ o).
Definition with_flags (sample auth team queue mailer : bool) (o : Options) : Options :=
  MkOptions (o_Name o) (o_Module o) (o_DB o) (o_Layout o) sample auth team queue mailer (o_Realtime o) (o_I18n o)
    (o_Dir o) (NoGit o) (NoTidy o) (o_HelpersVersion o) (Local_ o).
Definition set_Name (v : string) (o : Options) := with_strings v (o_Module o) (o_DB o) (o_Layout o) (o_Dir o) o.
Definition set_Module (v : string) (o : Options) := with_strings (o_Name o) v (o_DB o) (o_Layout o) (o_Dir o) o.
Definition set_DB (v : string) (o : Options) := with_strings (o_Name o) (o_Module o) v (o_Layout o) (o_Dir o) o.
Definition set_Layout (v : string) (o : Options) := with_strings (o_Name o) (o_Module o) (o_DB o) v (o_Dir o) o.
Definition set_Dir (v : string) (o : Options) := with_strings (o_Name o) (o_Module o) (o_DB o) (o_Layout o) v o.
Definition set_Sample (b : bool) (o : Options) := with_flags b (o_Auth o) (o_Team o) (o_Queue o) (o_Mailer o) o.
Definition set_Auth (b : bool) (o : Options) := with_flags (o_Sample o) b (o_Team o) (o_Queue o) (o_Mailer o) o.
Definition set_Team (b : bool) (o : Options) := with_flags (o_Sample o) (o_Auth o) b (o_Queue o) (o_Mailer o) o.
Definition set_Queue (b : bool) (o : Options) := with_flags (o_Sample o) (o_Auth o) (o_Team o) b (o_Mailer o) o.
Definition set_Mailer (b : bool) (o : Options) := with_flags (o_Sample o) (o_Auth o) (o_Team o) (o_Queue o) b o.

Definition is_empty (s : string) : bool := String.eqb s EmptyString.

Definition valid_db (s : string) : bool := String.eqb s "postgres" || String.eqb s "sqlite".
Definition valid_layout (s : string) : bool := String.eqb s "ddd" || String.eqb s "layered".
Definition backslash : ascii := chr 92.

Definition Validate (o : Options) : option error * Options :=
  let o := if o_Team o then set_Auth true o else o in
  if is_empty (o_Name o) then (Some (Err "project name is required"), o)
  else if contains_char "/" (o_Name o) || contains_char backslash (o_Name o) || contains ".." (o_Name o)
  then (Some (Err "project name must be a simple name"), o)
  else if is_empty (o_Module o) then (Some (Err "--module is required"), o)
  else if negb (valid_db (o_DB o)) then (Some (Err "--db must be postgres or sqlite"), o)
  else if negb (valid_layout (o_Layout o)) then (Some (Err "--layout must be ddd or layered"), o)
  else (None, if is_empty (o_Dir o) then set_Dir (o_Name o) o else o).

(** [r.ReadString] then [TrimSpace]: the next line of the input (the rest of it at the end). *)
Definition newline : ascii := chr 10.
Definition read_line (input : string) : string * string :=
  let '(line, rest, _) := cut newline input in (trim_space line, rest).

Definition prompt (def input : string) : string * string :=
  let '(line, rest) := read_line input in (if is_empty line then def else line, rest).
Definition yesNo (input : string) : bool * string :=
  let '(line, rest) := read_line input in
  let line := to_lower line in (String.eqb line "y" || String.eqb line "yes", rest).

(** One question: asked when [ask] holds, its answer stored by [set]. *)
Definition ask_string (ask : bool) (def : string) (set : string -> Options -> Options) (oi : Options * string) : Options * string :=
  if ask then let '(v, rest) := prompt def oi.2 in (set v oi.1, rest) else oi.
Definition ask_bool (ask : bool) (set : bool -> Options -> Options) (oi : Options * string) : Options * string :=
  if ask then let '(v, rest) := yesNo oi.2 in (set v oi.1, rest) else oi.

Definition Resolve (input : string) (interactive : bool) (changed : string -> bool) (o : Options) : option error * Options :=
  let q (f : Options * string -> Options * string) (oi : Options * string) := f oi in
  let oi := (o, input) in
  let oi :=
    if interactive then
      let oi := ask_string (is_empty (o_Name oi.1)) EmptyString set_Name oi in
      let oi := ask_string (is_empty (o_Module oi.1)) EmptyString set_Module oi in
      let oi := ask_string (negb (changed "db"%string)) (o_DB oi.1) set_DB oi in
      let oi := ask_string (negb (changed "layout"%string)) (o_Layout oi.1) set_Layout oi in
      let oi := ask_bool (negb (changed "sample"%string) && negb (o_Sample oi.1)) set_Sample oi in
      let oi := ask_bool (negb (changed "auth"%string) && negb (o_Auth oi.1)) set_Auth oi in
      let oi := ask_bool (o_Auth oi.1 && negb (changed "auth-with-team"%string) && negb (o_Team oi.1)) set_Team oi in
      let oi := ask_bool (negb (changed "queue"%string) && negb (o_Queue oi.1)) set_Queue oi in
      ask_bool (negb (changed "mailer"%string) && negb (o_Mailer oi.1)) set_Mailer oi
    else oi in
  Validate oi.1.

(** ** Module names *)

Record ModuleData := MkModule { md_Module : string; md_Layout : string; Type_ : string; Pkg : string; Plural : string }.

Definition is_letter (c : ascii) : bool := is_lower c || is_upper c.
(** The regular expression: a letter, then letters, digits and underscores. *)
Definition moduleNameRe (s : string) : bool :=
  match s with
  | String c s => is_letter c && sforall (fun c => is_letter c || is_digit c || Ascii.eqb c "_") s
  | EmptyString => false
  end.

Definition deriveModuleNames (name : string) : error + ModuleData :=
  if negb (moduleNameRe name) then inl (Err "module name must be a Go identifier")
  else
    let pkg := to_lower name in
    let typ := to_upper (take_string 1 name) +:+ drop_string 1 name in
    inr (MkModule EmptyString EmptyString typ pkg (pkg +:+ "s")).
Definition with_context (module layout : string) (md : ModuleData) : ModuleData :=
  MkModule module layout (Type_ md) (Pkg md) (Plural md).

(** ** Plans *)

Record fileSpec := Spec { tmpl : string; dest : string }.

Definition planModule (md : ModuleData) : list fileSpec :=
  let p := Pkg md in
  if String.eqb (md_Layout md) "ddd" then
    [Spec "module/ddd/domain.tmpl" ("internal/domain/" +:+ (p +:+ ("/" +:+ (p +:+ ".go"))));
     Spec "module/ddd/repository_iface.tmpl" ("internal/domain/" +:+ (p +:+ "/repository.go"));
     Spec "module/ddd/service.tmpl" ("internal/application/" +:+ (p +:+ "/service.go"));
     Spec "module/ddd/persistence.tmpl" ("internal/infrastructure/persistence/" +:+ (p +:+ "_repository_bun.go"));
     Spec "module/ddd/handler.tmpl" ("internal/interface/http/" +:+ (p +:+ "_handler.go"));
     Spec "module/ddd/module.tmpl" ("internal/interface/http/" +:+ (p +:+ "_module.go"))]
  else if String.eqb (md_Layout md) "layered" then
    [Spec "module/layered/model.tmpl" ("internal/model/" +:+ (p +:+ ".go"));
     Spec "module/layered/repository.tmpl" ("internal/repository/" +:+ (p +:+ "_repo.go"));
     Spec "module/layered/service.tmpl" ("internal/service/" +:+ (p +:+ "_service.go"));
     Spec "module/layered/handler.tmpl" ("internal/handler/" +:+ (p +:+ "_handler.go"));
     Spec "module/layered/module.tmpl" ("internal/handler/" +:+ (p +:+ "_module.go"))]
  else [].

Record Data := MkData {
  d_Name : string; d_Module : string; d_DB : string; d_Layout : string;
  d_Sample : bool; d_Auth : bool; d_Team : bool; d_Queue : bool; d_Mailer : bool; d_Realtime : bool; d_I18n : bool;
  JWTSecret : string; d_HelpersVersion : string; LocalReplace : string }.

Definition plan (d : Data) : list fileSpec :=
  [Spec "common/gomod.tmpl" "go.mod"; Spec "common/gitignore.tmpl" ".gitignore";
   Spec "common/env.tmpl" ".env.example"; Spec "common/env.tmpl" ".env";
   Spec "common/dockerfile.tmpl" "Dockerfile"; Spec "common/compose.tmpl" "docker-compose.yml";
   Spec "common/makefile.tmpl" "Makefile"; Spec "common/readme.tmpl" "README.md";
   Spec "common/migrations.tmpl" "internal/migrations/migrations.go"] ++
  (if String.eqb (d_Layout d) "ddd" then
    [Spec "ddd/main.tmpl" "cmd/api/main.go"; Spec "ddd/config.tmpl" "internal/infrastructure/config/config.go";
     Spec "ddd/database.tmpl" "internal/infrastructure/database/database.go";
     Spec "ddd/router.tmpl" "internal/interface/http/router.go"]
   else if String.eqb (d_Layout d) "layered" then
    [Spec "layered/main.tmpl" "cmd/api/main.go"; Spec "layered/config.tmpl" "internal/config/config.go";
     Spec "layered/router.tmpl" "internal/router/router.go"]
   else []).

Definition planAuth (d : Data) : list fileSpec :=
  if String.eqb (d_Layout d) "ddd" then
    [Spec "auth/ddd/account.tmpl" "internal/domain/account/account.go";
     Spec "auth/ddd/repository.tmpl" "internal/domain/account/repository.go";
     Spec "auth/ddd/service.tmpl" "internal/application/account/service.go";
     Spec "auth/ddd/persistence.tmpl" "internal/infrastructure/persistence/account_repository_bun.go"] ++
    (if d_Team d then
      [Spec "auth/ddd/team.tmpl" "internal/domain/team/team.go";
       Spec "auth/ddd/team_repository.tmpl" "internal/domain/team/repository.go";
       Spec "auth/ddd/team_persistence.tmpl" "internal/infrastructure/persistence/team_repository_bun.go";
       Spec "auth/ddd/team_service.tmpl" "internal/application/team/service.go";
       Spec "auth/ddd/handler_team.tmpl" "internal/interface/http/auth_handler.go";
       Spec "auth/ddd/module_team.tmpl" "internal/interface/http/auth_module.go"]
     else
      [Spec "auth/ddd/handler.tmpl" "internal/interface/http/auth_handler.go";
       Spec "auth/ddd/module.tmpl" "internal/interface/http/auth_module.go"])
  else if String.eqb (d_Layout d) "layered" then
    [Spec "auth/layered/model.tmpl" "internal/model/account.go";
     Spec "auth/layered/repository.tmpl" "internal/repository/account_repo.go";
     Spec "auth/layered/service.tmpl" "internal/service/auth_service.go"] ++
    (if d_Team d then
      [Spec "auth/layered/team_model.tmpl" "internal/model/team.go";
       Spec "auth/layered/team_repository.tmpl" "internal/repository/team_repo.go";
       Spec "auth/layered/team_service.tmpl" "internal/service/team_service.go";
       Spec "auth/layered/handler_team.tmpl" "internal/handler/auth_handler.go";
       Spec "auth/layered/module_team.tmpl" "internal/handler/auth_module.go"]
     else
      [Spec "auth/layered/handler.tmpl" "internal/handler/auth_handler.go";
       Spec "auth/layered/module.tmpl" "internal/handler/auth_module.go"])
  else [].

Definition planQueue (d : Data) : list fileSpec :=
  if String.eqb (d_Layout d) "ddd" then [Spec "queue/jobs.tmpl" "internal/application/jobs/jobs.go"]
  else if String.eqb (d_Layout d) "layered" then [Spec "queue/jobs.tmpl" "internal/jobs/jobs.go"]
  else [].

Definition planRealtime (d : Data) : list fileSpec :=
  if String.eqb (d_Layout d) "layered"
  then [Spec "realtime/layered/handler.tmpl" "internal/handler/realtime_handler.go"]
  else [Spec "realtime/ddd/handler.tmpl" "internal/interface/http/realtime_handler.go"].

Definition planI18n (d : Data) : list fileSpec :=
  [Spec "i18n/locales.tmpl" "internal/locales/locales.go"; Spec "i18n/en.tmpl" "internal/locales/en.json";
   Spec "i18n/id.tmpl" "internal/locales/id.json"] ++
  (if String.eqb (d_Layout d) "layered"
   then [Spec "i18n/layered/handler.tmpl" "internal/handler/i18n_handler.go"]
   else [Spec "i18n/ddd/handler.tmpl" "internal/interface/http/i18n_handler.go"]).

(** The team migrations' templates and names, in order. *)
Definition teamMigrations : list (string * string) :=
  [("auth/migration_accounts.tmpl", "create_accounts"); ("auth/migration_teams.tmpl", "create_teams");
   ("auth/migration_memberships.tmpl", "create_memberships"); ("auth/migration_roles.tmpl", "create_roles");
   ("auth/migration_role_permissions.tmpl", "create_role_permissions");
   ("auth/migration_invitations.tmpl", "create_invitations")]%string.

Definition migration_dest (ts name : string) : string := "internal/migrations/" +:+ (ts +:+ ("_" +:+ (name +:+ ".go"))).

(** ** The file system *)

Record fs := MkFs { files : gmap string string; dirs : gset string }.

(** [filepath.Join(root, dest)] for a clean [root]. *)
Definition Join (root p : string) : string := if String.eqb root "." then p else root +:+ ("/" +:+ p).

Definition has_suffix (suf s : string) : bool :=
  String.eqb (drop_string (String.length s - String.length suf) s) suf && (String.length suf <=? String.length s)%nat.

(** The directories above a path. *)
Fixpoint ancestors_go (prefix s : string) : list string :=
  match s with
  | EmptyString => []
  | String c s =>
      (if Ascii.eqb c "/" then [prefix] else []) ++ ancestors_go (prefix +:+ String c EmptyString) s
  end.
Definition ancestors (p : string) : list string := ancestors_go EmptyString p.

Definition write_file (p c : string) (s : fs) : fs := MkFs (<[p := c]> (files s)) (list_to_set (ancestors p) ∪ dirs s).

(** At or below a directory. *)
Definition under (dir p : string) : bool := String.eqb p dir || has_prefix (dir +:+ "/") p.
Definition stat (p : string) (s : fs) : bool := bool_decide (is_Some (files s !! p)) || bool_decide (p ∈ dirs s).
Definition isDir (p : string) (s : fs) : bool := bool_decide (p ∈ dirs s).
Definition dirNonEmpty (dir : string) (s : fs) : bool :=
  existsb (fun kv => has_prefix (dir +:+ "/") kv.1) (map_to_list (files s)) ||
  existsb (fun d => has_prefix (dir +:+ "/") d) (elements (dirs s)).

Definition make_dirs (l : list string) (s : fs) : fs := MkFs (files s) (list_to_set l ∪ dirs s).

(** How writing a file goes: a failed [MkdirAll] may have made the first directories, a failed
    write may leave a truncated file behind. *)
Inductive io := IoOk | MkdirFails (e : error) (made : nat) | WriteFails (e : error) (left : option string).

(** Removing, when the paths of [stuck] cannot be removed. The callers drop the errors of both
    functions, so only what is left tells. *)
Definition remove_file (stuck : string -> bool) (p : string) (s : fs) : fs :=
  if stuck p then s else MkFs (delete p (files s)) (dirs s).
(** [os.RemoveAll]: it refuses a path that ends in a dot. What it cannot remove stays, with the
    directories above it. *)
Definition RemoveAll (stuck : string -> bool) (dir : string) (s : fs) : fs :=
  if String.eqb dir "." || has_suffix "/." dir then s else
  let left := filter (fun kv => under dir kv.1 = false \/ stuck kv.1 = true) (files s) in
  MkFs left (filter (fun d => under dir d = false \/ stuck d = true \/
                       existsb (fun kv => has_prefix (d +:+ "/") kv.1) (map_to_list left) = true) (dirs s)).

Inductive tdata := TData (d : Data) | TModule (md : ModuleData) | TNil.

Section Generate.
  (** Template lookup, parsing and execution; gofmt; the outcome of each write; the paths that
      cannot be removed; the migration clock's format; external commands, which may do anything. *)
  Context (render : string -> tdata -> error + string) (format : string -> error + string)
    (fate : string -> io) (stuck : string -> bool) (stamp : Z -> string) (runCmd : string -> list string -> fs -> fs).

Definition renderFile (sp : fileSpec) (data : tdata) (root : string) (s : fs) : option error * fs :=
  match render (tmpl sp) data with
  | inl e => (Some e, s)
  | inr raw =>
      match (if has_suffix ".go" (dest sp) then format raw else inr raw) with
      | inl e => (Some (Wrap "gofmt" [e]), s)
      | inr content =>
          let full := Join root (dest sp) in
          match fate full with
          | MkdirFails e k => (Some e, make_dirs (firstn k (ancestors full)) s)
          | WriteFails e None => (Some e, make_dirs (ancestors full) s)
          | WriteFails e (Some c) => (Some e, write_file full c s)
          | IoOk => (None, write_file full content s)
          end
      end
  end.

(** A migration: refused when its file exists. *)
Definition render_migration (sp : fileSpec) (data : tdata) (root : string) (s : fs) : option error * fs :=
  if stat (Join root (dest sp)) s then (Some (Err "migration already exists"), s) else renderFile sp data root s.

Definition migration_spec (md : ModuleData) (ts : string) : fileSpec :=
  Spec "migration/create_table.tmpl" (migration_dest ts ("create_" +:+ Plural md)).
Definition renderMigration (md : ModuleData) (root ts : string) : fs -> option error * fs :=
  render_migration (migration_spec md ts) (TModule md) root.
Definition auth_migration_spec (ts : string) : fileSpec := Spec "auth/migration_accounts.tmpl" (migration_dest ts "create_accounts").

(** The clock: [base] in seconds, and how many stamps have been handed out. *)
Record migrationClock := MkClock { base : Z; n_ : Z }.
Definition next (c : migrationClock) : string * migrationClock := (stamp (base c + n_ c), MkClock (base c) (n_ c + 1)).

(** [renderTeamMigrations]: the files its loop renders. *)
Fixpoint team_specs (l : list (string * string)) (c : migrationClock) : list fileSpec :=
  match l with
  | [] => []
  | (t, name) :: l => let '(ts, c) := next c in Spec t (migration_dest ts name) :: team_specs l c
  end.

(** One rendering: what, with which data, whether it is a migration, and how an error is wrapped. *)
Record item := Item { i_spec : fileSpec; i_data : tdata; i_migration : bool; i_wrap : string }.

Definition run_item (root : string) (it : item) (s : fs) : option error * fs :=
  let '(e, s') := (if i_migration it then render_migration (i_spec it) (i_data it) root s
                   else renderFile (i_spec it) (i_data it) root s) in
  (option_map (fun e => Wrap (i_wrap it) [e]) e, s').

(** The renderings of [Generate], in order; the clock is created once. *)
Definition planned (o : Options) (d : Data) (md : ModuleData) (now : Z) : list item :=
  let file data sp := Item sp data false "render" in
  let '(ts, clock') := next (MkClock now 0) in
  let sample := if o_Sample o
    then map (file (TModule md)) (planModule md) ++ [Item (migration_spec md ts) (TModule md) true "render migration"]
    else [] in
  let clock := if o_Sample o then clock' else MkClock now 0 in
  let auth := if o_Auth o
    then map (file (TData d)) (planAuth d) ++
         (if o_Team o then map (fun sp => Item sp TNil true "render team migrations") (team_specs teamMigrations clock)
          else [Item (auth_migration_spec (next clock).1) TNil true "render auth migration"])
    else [] in
  map (file (TData d)) (plan d) ++ sample ++ auth ++
  (if o_Queue o then map (file (TData d)) (planQueue d) else []) ++
  (if o_Realtime o then map (file (TData d)) (planRealtime d) else []) ++
  (if o_I18n o then map (file (TData d)) (planI18n d) else []).

(** Steps in order, up to the first error. *)
Fixpoint steps (root : string) (l : list item) (s : fs) : option error * fs :=
  match l with
  | [] => (None, s)
  | it :: l => match run_item root it s with (Some e, s') => (Some e, s') | (None, s') => steps root l s' end
  end.

Definition post_commands (o : Options) (s : fs) : fs :=
  let s := if NoTidy o then s else
    let s := if is_empty (Local_ o) && negb (is_empty (o_HelpersVersion o))
             then runCmd "go" ["get"; "github.com/rahmadafandi/fibr@" +:+ o_HelpersVersion o] s else s in
    runCmd "go" ["mod"; "tidy"] s in
  if NoGit o then s else runCmd "git" ["init"] s.

(** [readdir] is [os.ReadDir]'s failure (other than "not exist"), [random] the 32 secret bytes. *)
Definition Generate (o : Options) (readdir : option error) (random : error + string) (now : Z) (s : fs) : option error * fs :=
  let o := if o_Team o then set_Auth true o else o in
  match readdir with
  | Some e => (Some e, s)
  | None =>
      if dirNonEmpty (o_Dir o) s then (Some (Err "target directory already exists and is not empty"), s)
      else
        match (if o_Auth o then match random with inl e => inl e | inr b => inr (hex_encode b) end else inr EmptyString) with
        | inl e => (Some e, s)
        | inr secret =>
            let d := MkData (o_Name o) (o_Module o) (o_DB o) (o_Layout o) (o_Sample o) (o_Auth o) (o_Auth o && o_Team o)
                       (o_Queue o) (o_Mailer o) (o_Realtime o) (o_I18n o) secret (o_HelpersVersion o) (Local_ o) in
            match deriveModuleNames "user" with
            | inl e => (Some e, RemoveAll stuck (o_Dir o) s)
            | inr md =>
                match steps (o_Dir o) (planned o d (with_context (o_Module o) (o_Layout o) md) now) s with
                | (Some e, s') => (Some e, RemoveAll stuck (o_Dir o) s')
                | (None, s') => (None, post_commands o s')
                end
            end
        end
  end.

(** ** Adding a module *)

(** The module path in a go.mod's text. *)
Definition module_line (line : string) : option string :=
  let line := trim_space line in
  if has_prefix "module " line then Some (trim_space (drop_string 7 line)) else None.
Definition readGoModule (dir : string) (s : fs) : error + string :=
  match files s !! Join dir "go.mod" with
  | None => inl (Err "not a Go module (no go.mod)")
  | Some text => match omap module_line (split newline text) with
                 | m :: _ => inr m
                 | [] => inl (Err "go.mod has no module directive")
                 end
  end.

Definition detectLayout (dir : string) (s : fs) : error + string :=
  if isDir (Join dir "internal/domain") s then inr "ddd"%string
  else if isDir (Join dir "internal/model") s then inr "layered"%string
  else inl (Err "could not detect layout").

(** Render the specs one by one; the paths written so far are removed when one fails. *)
Fixpoint render_or_undo (specs : list fileSpec) (md : ModuleData) (dir : string) (written : list string) (s : fs)
    : option error * list string * fs :=
  match specs with
  | [] => (None, written, s)
  | sp :: specs =>
      match renderFile sp (TModule md) dir s with
      | (Some e, s') => (Some (Wrap "render" [e]), written, fold_left (fun s p => remove_file stuck p s) written s')
      | (None, s') => render_or_undo specs md dir (written ++ [Join dir (dest sp)]) s'
      end
  end.

Definition AddModule (name dir layout : string) (now : Z) (s : fs) : option error * fs :=
  let dir := if is_empty dir then "."%string else dir in
  match readGoModule dir s with
  | inl e => (Some e, s)
  | inr modulePath =>
      match (if is_empty layout then detectLayout dir s else inr layout) with
      | inl e => (Some e, s)
      | inr layout =>
          if negb (valid_layout layout) then (Some (Err "--layout must be ddd or layered"), s)
          else
            match deriveModuleNames name with
            | inl e => (Some e, s)
            | inr md =>
                let md := with_context modulePath layout md in
                let specs := planModule md in
                if existsb (fun sp => stat (Join dir (dest sp)) s) specs
                then (Some (Err "module file already exists (refusing to overwrite)"), s)
                else
                  match render_or_undo specs md dir [] s with
                  | (Some e, _, s') => (Some e, s')
                  | (None, written, s') =>
                      match renderMigration md dir (next (MkClock now 0)).1 s' with
                      | (Some e, s'') =>
                          (Some (Wrap "render migration" [e]), fold_left (fun s p => remove_file stuck p s) written s'')
                      | (None, s'') => (None, s'')
                      end
                  end
            end
      end
  end.
End Generate.

(** * Proofs *)

(** [Resolve] and [Validate] accept only complete options: whatever the prompts and answers, a
    nil error means a simple non-empty project name, a module path, a known database and layout,
    a target directory, and auth whenever teams are wanted. *)
Theorem Resolve_sound input interactive changed o :
  match Resolve input interactive changed o with
  | (None, o') =>
      o_Name o' <> EmptyString /\ contains_char "/" (o_Name o') = false /\ contains_char backslash (o_Name o') = false /\
      contains ".." (o_Name o') = false /\ o_Module o' <> EmptyString /\ valid_db (o_DB o') = true /\
      valid_layout (o_Layout o') = true /\ o_Dir o' <> EmptyString /\ (o_Team o' = true -> o_Auth o' = true)
  | (Some _, _) => True
  end.
Proof.
  unfold Resolve. set (oi := if interactive then _ else _). generalize (fst oi). clear. intros o. unfold Validate.
  set (o1 := if o_Team o then set_Auth true o else o).
  assert (Hteam : o_Team o1 = true -> o_Auth o1 = true) by (unfold o1; destruct (o_Team o) eqn:Ht; [done|congruence]).
  clearbody o1. unfold is_empty. destruct (String.eqb_spec (o_Name o1) EmptyString) as [|Hn]; [done|].
  destruct (contains_char "/" (o_Name o1)) eqn:H1; [done|]. destruct (contains_char backslash (o_Name o1)) eqn:H2; [done|].
  destruct (contains ".." (o_Name o1)) eqn:H3; [done|]. simpl.
  destruct (String.eqb_spec (o_Module o1) EmptyString) as [|Hm]; [done|].
  destruct (valid_db (o_DB o1)) eqn:H4; [|done]. destruct (valid_layout (o_Layout o1)) eqn:H5; [|done]. simpl.
  destruct (String.eqb_spec (o_Dir o1) EmptyString) as [|Hd]; simpl; split_and!; done.
Qed.

Section Proofs.
  Context (render : string -> tdata -> error + string) (format : string -> error + string)
    (fate : string -> io) (stuck : string -> bool) (stamp : Z -> string).

(** What a file is when it has been rendered. *)
Definition rendered (sp : fileSpec) (data : tdata) (c : string) : Prop :=
  exists raw, render (tmpl sp) data = inr raw /\ (if has_suffix ".go" (dest sp) then format raw else inr raw) = inr c.

Lemma renderFile_spec sp data root s :
  let '(e, s') := renderFile render format fate sp data root s in
  (forall p, p <> Join root (dest sp) -> files s' !! p = files s !! p) /\
  (e = None -> exists c, rendered sp data c /\ files s' !! Join root (dest sp) = Some c) /\
  (e <> None -> (forall e c, fate (Join root (dest sp)) <> WriteFails e (Some c)) -> files s' = files s).
Proof.
  unfold renderFile, rendered. destruct (render (tmpl sp) data) as [e|raw]; [done|].
  destruct (if has_suffix ".go" (dest sp) then format raw else inr raw) as [e|c] eqn:Hf; [done|].
  destruct (fate (Join root (dest sp))) as [|e k|e [c'|]] eqn:Hfate; simpl; split_and!; try done.
  - intros p Hp. by rewrite lookup_insert_ne.
  - intros _. exists c. split; [by exists raw|]. by rewrite lookup_insert_eq.
  - intros p Hp. by rewrite lookup_insert_ne.
  - intros _ Hn. by destruct (Hn e c').
Qed.

Lemma run_item_spec root it s :
  let '(e, s') := run_item render format fate root it s in
  (forall p, p <> Join root (dest (i_spec it)) -> files s' !! p = files s !! p) /\
  (e = None -> exists c, rendered (i_spec it) (i_data it) c /\ files s' !! Join root (dest (i_spec it)) = Some c).
Proof.
  unfold run_item, render_migration. pose proof (renderFile_spec (i_spec it) (i_data it) root s) as Hr.
  destruct (renderFile _ _ _ _ _ _ _) as [e s']. destruct Hr as (Hf & Ho & _).
  destruct (i_migration it); [destruct (stat _ _)|]; simpl; split; try done; destruct e; simpl; auto; done.
Qed.

Lemma steps_spec root l s :
  let '(e, s') := steps render format fate root l s in
  (forall p, p ∉ map (fun it => Join root (dest (i_spec it))) l -> files s' !! p = files s !! p) /\
  (e = None -> NoDup (map (fun it => Join root (dest (i_spec it))) l) ->
   forall it, it ∈ l -> exists c, rendered (i_spec it) (i_data it) c /\ files s' !! Join root (dest (i_spec it)) = Some c).
Proof.
  revert s; induction l as [|it l IH]; intros s; simpl; [split; [done|set_solver]|].
  pose proof (run_item_spec root it s) as Hit. destruct (run_item _ _ _ root it s) as [[e|] s1].
  - destruct Hit as [Hf _]. split; [|done]. intros p Hp. apply Hf. set_solver.
  - destruct Hit as [Hf Hok]. specialize (IH s1). destruct (steps _ _ _ root l s1) as [e s2]. destruct IH as [Hf2 Hok2]. split.
    + intros p Hp. rewrite Hf2, Hf by set_solver. done.
    + intros He [Hn Hnd]%NoDup_cons x [->|Hx]%elem_of_cons; [|by apply Hok2].
      destruct (Hok eq_refl) as (c & Hc & Hfile). exists c. split; [done|]. by rewrite Hf2.
Qed.

Lemma under_join root p : root <> "."%string -> under root (Join root p) = true.
Proof.
  intros Hr. unfold under, Join. rewrite (proj2 (String.eqb_neq _ _) Hr), string_app_assoc, has_prefix_app.
  apply orb_true_r.
Qed.

Lemma Join_inj root : Inj (=) (=) (Join root).
Proof.
  intros p q. unfold Join. destruct (String.eqb root "."); [done|]. intros H%string_app_inj_l. by apply string_app_inj_l in H.
Qed.

(** ** Adding a module *)

Lemma remove_file_lookup w s p :
  files (remove_file stuck w s) !! p = if bool_decide (p = w) && negb (stuck p) then None else files s !! p.
Proof.
  unfold remove_file. destruct (decide (p = w)) as [->|Hp].
  - rewrite bool_decide_eq_true_2 by done. destruct (stuck w); [done|]. apply lookup_delete_eq.
  - rewrite bool_decide_eq_false_2 by done. destruct (stuck w); [done|]. by apply lookup_delete_ne.
Qed.

Lemma undo_files written s p :
  files (fold_left (fun s p => remove_file stuck p s) written s) !! p = if bool_decide (p ∈ written) && negb (stuck p) then None else files s !! p.
Proof.
  revert s; induction written as [|w written IH]; intros s; simpl; [done|]. rewrite IH, remove_file_lookup.
  repeat case_bool_decide; destruct (stuck p); simpl; set_solver.
Qed.

(** No write leaves a damaged file behind. *)
Definition clean_writes : Prop := forall p e c, fate p <> WriteFails e (Some c).

Lemma render_or_undo_error specs md dir written s :
  let '(e, w, s') := render_or_undo render format fate stuck specs md dir written s in
  let all := written ++ map (fun sp => Join dir (dest sp)) specs in
  e <> None ->
  (forall p, p ∈ written -> p ∈ w) /\ (forall p, p ∈ w -> p ∈ all) /\
  (forall p, p ∉ all -> files s' !! p = files s !! p) /\
  (clean_writes -> forall p, stuck p = false -> files s' !! p = if bool_decide (p ∈ w) then None else files s !! p).
Proof.
  revert written s; induction specs as [|sp specs IH]; intros written s; simpl; [done|].
  pose proof (renderFile_spec sp (TModule md) dir s) as Hr. destruct (renderFile _ _ _ _ _ _ _) as [[e|] s1].
  - destruct Hr as (Hf & _ & Hc). intros _. split_and!; [done|set_solver| |].
    + intros p Hp. rewrite undo_files, bool_decide_eq_false_2 by set_solver. apply Hf. set_solver.
    + intros Hclean p Hp. rewrite undo_files, Hp, andb_true_r, Hc; [done|done|intros ??; apply Hclean].
  - destruct Hr as (Hf & _ & _). specialize (IH (written ++ [Join dir (dest sp)]) s1).
    destruct (render_or_undo _ _ _ _ _ _ _ _ _) as [[e w] s2]. rewrite <- app_assoc in IH. simpl in *.
    intros He. destruct (IH He) as (Hw & Hw' & Hf2 & Hc). split_and!; [set_solver|done| |].
    + intros p Hp. rewrite Hf2, Hf; set_solver.
    + intros Hclean p Hst. rewrite (Hc Hclean) by done. destruct (decide (p = Join dir (dest sp))) as [->|Hp].
      * rewrite bool_decide_eq_true_2; [done|]. apply Hw. set_solver.
      * destruct (bool_decide _); [done|by apply Hf].
Qed.

Lemma render_or_undo_ok specs md dir written s :
  let '(e, w, s') := render_or_undo render format fate stuck specs md dir written s in
  let new := map (fun sp => Join dir (dest sp)) specs in
  e = None -> w = written ++ new /\ (forall p, p ∉ new -> files s' !! p = files s !! p) /\
  (forall sp, sp ∈ specs -> is_Some (files s' !! Join dir (dest sp))) /\
  (NoDup new -> forall sp, sp ∈ specs -> exists c, rendered sp (TModule md) c /\ files s' !! Join dir (dest sp) = Some c).
Proof.
  revert written s; induction specs as [|sp specs IH]; intros written s; simpl; [rewrite app_nil_r; set_solver|].
  pose proof (renderFile_spec sp (TModule md) dir s) as Hr. destruct (renderFile _ _ _ _ _ _ _) as [[e|] s1]; [done|].
  destruct Hr as (Hf & Hok & _). destruct (Hok eq_refl) as (c & Hc & Hfile).
  specialize (IH (written ++ [Join dir (dest sp)]) s1). destruct (render_or_undo _ _ _ _ _ _ _ _ _) as [[e w] s2].
  simpl in *. rewrite <- app_assoc in IH. simpl in IH. intros He. destruct (IH He) as (Hw & Hf2 & Hex & Hre).
  split_and!; [done|intros p Hp; rewrite Hf2, Hf; set_solver| |].
  - intros x [->|Hx]%elem_of_cons; [|by apply Hex].
    destruct (decide (Join dir (dest sp) ∈ map (fun sp => Join dir (dest sp)) specs)) as [Hin|Hin].
    + apply list_elem_of_fmap in Hin as (x & -> & Hx). by apply Hex.
    + rewrite Hf2, Hfile by done. done.
  - intros [Hn Hnd]%NoDup_cons x [->|Hx]%elem_of_cons; [|by apply Hre]. exists c. by rewrite Hf2.
Qed.

(** What [AddModule] did, when it succeeded. *)
Definition module_added (name dir : string) (now : Z) (s s' : fs) : Prop :=
  exists layout modulePath md, readGoModule dir s = inr modulePath /\ valid_layout layout = true /\
    deriveModuleNames name = inr md /\
    let md := with_context modulePath layout md in
    let specs := planModule md in
    let mig := migration_spec md (stamp (now + 0)) in
    (forall sp, sp ∈ mig :: specs -> is_Some (files s' !! Join dir (dest sp))) /\
    (NoDup (map dest specs) -> forall sp, sp ∈ mig :: specs ->
       exists c, rendered sp (TModule md) c /\ files s' !! Join dir (dest sp) = Some c) /\
    (forall p, p ∉ map (fun sp => Join dir (dest sp)) (mig :: specs) -> files s' !! p = files s !! p).

Lemma existsb_stat_false dir specs s : existsb (fun sp => stat (Join dir (dest sp)) s) specs = false ->
  forall p, p ∈ map (fun sp => Join dir (dest sp)) specs -> files s !! p = None.
Proof.
  intros Hex p (sp & -> & Hsp)%list_elem_of_fmap. destruct (files s !! _) as [c|] eqn:Hc; [|done].
  assert (existsb (fun sp => stat (Join dir (dest sp)) s) specs = true) as Ht; [|congruence].
  apply existsb_exists. exists sp. split; [by apply list_elem_of_In|]. unfold stat. by rewrite Hc, bool_decide_eq_true_2.
Qed.

Lemma stat_false_file p s : stat p s = false -> files s !! p = None.
Proof. unfold stat. destruct (files s !! p); [|done]. rewrite bool_decide_eq_true_2 by done. done. Qed.

(** Removing what was written onto free paths gives back the files of before, up to those that
    cannot be removed. *)
Lemma undo_back written s s' p : (forall p, p ∈ written -> files s !! p = None) -> (forall p, p ∉ written -> files s' !! p = files s !! p) ->
  stuck p = false -> files (fold_left (fun s p => remove_file stuck p s) written s') !! p = files s !! p.
Proof.
  intros Hnew Hf Hst. rewrite undo_files, Hst, andb_true_r. case_bool_decide as Hp; [by rewrite Hnew|by apply Hf].
Qed.

(** The module's files with the migration rendered after them. *)
Lemma module_files_migration specs md dir mig s s1 s2 c (paths := map (fun sp => Join dir (dest sp)) specs) :
  (forall p, p ∉ paths -> files s1 !! p = files s !! p) -> (forall sp, sp ∈ specs -> is_Some (files s1 !! Join dir (dest sp))) ->
  (NoDup paths -> forall sp, sp ∈ specs -> exists c, rendered sp (TModule md) c /\ files s1 !! Join dir (dest sp) = Some c) ->
  Join dir (dest mig) ∉ paths -> (forall p, p <> Join dir (dest mig) -> files s2 !! p = files s1 !! p) ->
  rendered mig (TModule md) c -> files s2 !! Join dir (dest mig) = Some c ->
  (forall sp, sp ∈ mig :: specs -> is_Some (files s2 !! Join dir (dest sp))) /\
  (NoDup (map dest specs) -> forall sp, sp ∈ mig :: specs -> exists c, rendered sp (TModule md) c /\ files s2 !! Join dir (dest sp) = Some c) /\
  (forall p, p ∉ map (fun sp => Join dir (dest sp)) (mig :: specs) -> files s2 !! p = files s !! p).
Proof.
  intros Hf Hpres Hre Hmig Hf2 Hc Hfile.
  assert (Hkeep : forall sp, sp ∈ specs -> files s2 !! Join dir (dest sp) = files s1 !! Join dir (dest sp)).
  { intros sp Hsp. apply Hf2. intros Heq. apply Hmig. rewrite <- Heq. apply list_elem_of_fmap. by exists sp. }
  split_and!.
  - intros sp [->|Hsp]%elem_of_cons; [by rewrite Hfile|]. rewrite Hkeep by done. by apply Hpres.
  - intros Hnd sp [->|Hsp]%elem_of_cons; [by exists c|]. rewrite Hkeep by done. apply Hre; [|done].
    unfold paths. rewrite <- (map_map dest (Join dir)). apply NoDup_fmap_2; [apply Join_inj|done].
  - intros p Hp. simpl in Hp. rewrite Hf2, Hf; set_solver.
Qed.

(** (C38) [AddModule] never overwrites and cleans up after itself. Whatever the module, the layout and
    the failures, every file that was there keeps its content. On an error the project's files are
    what they were at every path that can be removed, provided no failing write leaves a truncated
    file; so they are exactly what they were when removing works. On success the
    project has the module's files and its migration (their templates' renderings when the plan
    has no path twice) and every other file is as it was. *)
Theorem AddModule_never_overwrites name dir layout now s :
  let '(e, s') := AddModule render format fate stuck stamp name dir layout now s in
  (forall p c, files s !! p = Some c -> files s' !! p = Some c) /\
  (e <> None -> clean_writes -> forall p, stuck p = false -> files s' !! p = files s !! p) /\
  (e = None -> module_added name (if is_empty dir then "."%string else dir) now s s').
Proof.
  unfold AddModule. set (dir' := if is_empty dir then "."%string else dir).
  destruct (readGoModule dir' s) as [e|modulePath] eqn:Hmod; [done|].
  destruct (if is_empty layout then _ else _) as [e|lay]; [done|].
  destruct (valid_layout lay) eqn:Hlay; [|done]. destruct (deriveModuleNames name) as [e|md] eqn:Hmd; [done|]. cbn [negb].
  set (md' := with_context modulePath lay md). destruct (existsb _ (planModule md')) eqn:Hex; [done|].
  pose proof (existsb_stat_false _ _ _ Hex) as Hnew.
  pose proof (render_or_undo_error (planModule md') md' dir' [] s) as Herr.
  pose proof (render_or_undo_ok (planModule md') md' dir' [] s) as Hok.
  destruct (render_or_undo _ _ _ _ _ _ _ _ _) as [[[e|] w] s1]; simpl in Herr, Hok.
  - clear Hok. destruct Herr as (_ & Hw & Hf & Hc); [done|]. split_and!; [| |done].
    + intros p c Hp. rewrite Hf; [done|]. intros Hin%Hnew. congruence.
    + intros _ Hclean p Hst. rewrite (Hc Hclean) by done. case_bool_decide as Hp; [|done]. by rewrite (Hnew p (Hw p Hp)).
  - clear Herr. destruct Hok as (-> & Hf & Hpres & Hre); [done|]. cbn [app].
    unfold renderMigration, render_migration, next. cbn [base n_ fst].
    assert (Hfree : forall p c, files s !! p = Some c -> p ∉ map (fun sp => Join dir' (dest sp)) (planModule md')) by (intros p c Hp Hin%Hnew; congruence).
    destruct (stat _ s1) eqn:Hstat.
    + split_and!; [|intros _ _ p; by apply undo_back|done].
      intros p c Hp. rewrite undo_files, (bool_decide_eq_false_2 (p ∈ _)) by eauto. by rewrite Hf by eauto.
    + apply stat_false_file in Hstat. set (mig := migration_spec md' (stamp (now + 0))) in *.
      pose proof (renderFile_spec mig (TModule md') dir' s1) as Hr.
      assert (Hmig : Join dir' (dest mig) ∉ map (fun sp => Join dir' (dest sp)) (planModule md')).
      { intros (sp & Heq & Hsp)%list_elem_of_fmap. rewrite Heq in Hstat. destruct (Hpres sp Hsp) as [c Hc]. congruence. }
      assert (Hmigs : files s !! Join dir' (dest mig) = None) by (by rewrite <- Hf).
      assert (Hkept : forall s2 p c, (forall p, p <> Join dir' (dest mig) -> files s2 !! p = files s1 !! p) -> files s !! p = Some c -> files s2 !! p = Some c).
      { intros s2 p c Hs2 Hp. rewrite Hs2, Hf by (by eauto || congruence). done. }
      destruct (renderFile _ _ _ _ _ _ _) as [[e|] s2]; destruct Hr as (Hf2 & Hok2 & Hc2); split_and!; try done.
      * intros p c Hp. rewrite undo_files, (bool_decide_eq_false_2 (p ∈ _)) by eauto. simpl. eauto.
      * intros _ Hclean p. apply undo_back; [done|]. rewrite Hc2; [done|done|intros ??; apply Hclean].
      * eauto.
      * intros _. exists lay, modulePath, md. destruct (Hok2 eq_refl) as (c & Hc & Hfile). split_and!; [done..|].
        eapply (module_files_migration (planModule md') md' dir' mig s s1 s2 c); eauto.
Qed.

(** ** No two planned files are the same *)

Context (runCmd : string -> list string -> fs -> fs).
Context (stamp_ok : forall z, String.length (stamp z) = 14%nat /\ sforall is_digit (stamp z) = true).

Definition is_migration_path (p : string) : bool :=
  has_prefix "internal/migrations/" p &&
  match drop_string 20 p with String c _ => is_digit c | EmptyString => false end.

Lemma migration_dest_path z name : is_migration_path (migration_dest (stamp z) name) = true.
Proof.
  unfold is_migration_path, migration_dest. rewrite has_prefix_app. destruct (stamp_ok z) as [Hl Hd].
  assert (Hdrop : forall x, drop_string 20 ("internal/migrations/" +:+ x) = x) by (intros x; destruct x; reflexivity).
  rewrite Hdrop. destruct (stamp z) as [|c t]; [done|]. rewrite string_app_cons. simpl in Hd. by apply andb_true_iff in Hd as [-> _].
Qed.

Lemma app_same_length (a b c d : string) : a +:+ b = c +:+ d -> String.length a = String.length c -> a = c /\ b = d.
Proof.
  revert c; induction a as [|x a IH]; intros [|y c] Heq Hl; try done; rewrite ?string_app_cons in Heq.
  injection Heq as -> Heq. injection Hl as Hl. destruct (IH c Heq Hl) as [-> ->]. done.
Qed.

Lemma app_suffix_inj (a b c : string) : a +:+ c = b +:+ c -> a = b.
Proof.
  intros Heq. assert (Hl : String.length a = String.length b).
  { apply (f_equal String.length) in Heq. rewrite !string_app_length in Heq. lia. }
  by apply app_same_length in Heq as [-> _].
Qed.

Lemma migration_dest_inj z z' n n' : migration_dest (stamp z) n = migration_dest (stamp z') n' -> n = n'.
Proof.
  unfold migration_dest. intros Heq%string_app_inj_l. apply app_same_length in Heq as [_ Heq].
  - apply string_app_inj_l in Heq. by apply app_suffix_inj in Heq.
  - by rewrite (proj1 (stamp_ok z)), (proj1 (stamp_ok z')).
Qed.

Lemma migrations_nodup (l : list (Z * string)) : NoDup (map snd l) -> NoDup (map (fun zn => migration_dest (stamp zn.1) zn.2) l).
Proof.
  induction l as [|[z n] l IH]; simpl; intros Hnd; [constructor|]. apply NoDup_cons in Hnd as [Hn Hnd].
  apply NoDup_cons. split; [|by apply IH]. intros ([z' n'] & Heq & Hin)%list_elem_of_fmap. apply Hn.
  apply migration_dest_inj in Heq as ->. apply list_elem_of_fmap. by exists (z', n').
Qed.

Definition user_module (o : Options) : ModuleData := MkModule (o_Module o) (o_Layout o) "User" "user" "users".

(** The planned paths: fixed ones, and the migrations. *)
Definition fixed_dests (layout : string) (sample auth team queue realtime i18n : bool) : list string :=
  let d := MkData "" "" "" layout sample auth team queue false realtime i18n "" "" "" in
  map dest (plan d ++ (if sample then planModule (MkModule "" layout "User" "user" "users") else []) ++
    (if auth then planAuth d else []) ++ (if queue then planQueue d else []) ++
    (if realtime then planRealtime d else []) ++ (if i18n then planI18n d else [])).
Definition migration_names (now : Z) (sample auth team : bool) : list (Z * string) :=
  (if sample then [(now, "create_users"%string)] else []) ++
  (if auth then
    (if team then imap (fun i n => (now + (if sample then 1 else 0) + Z.of_nat i, n)) (map snd teamMigrations)
     else [(now + (if sample then 1 else 0), "create_accounts"%string)])
   else []).

Lemma fixed_dests_ok layout sample auth team queue realtime i18n : valid_layout layout = true ->
  NoDup (fixed_dests layout sample auth team queue realtime i18n) /\
  Forall (fun p => is_migration_path p = false) (fixed_dests layout sample auth team queue realtime i18n).
Proof.
  unfold valid_layout. intros [Hl|Hl]%orb_true_iff; apply String.eqb_eq in Hl as ->;
    destruct sample, auth, team, queue, realtime, i18n;
    (split; refine (bool_decide_unpack _ _); vm_compute; exact I).
Qed.

Lemma perm_shuffle {A} (a s m b m' r : list A) : a ++ (s ++ m) ++ (b ++ m') ++ r ≡ₚ (a ++ s ++ b ++ r) ++ m ++ m'.
Proof.
  rewrite <- !app_assoc. apply Permutation_app_head, Permutation_app_head. rewrite Permutation_app_swap_app.
  apply Permutation_app_head. rewrite app_assoc. apply Permutation_app_comm.
Qed.

Lemma map_dest_file (f : fileSpec -> item) l : (forall sp, i_spec (f sp) = sp) ->
  map (fun it => dest (i_spec it)) (map f l) = map dest l.
Proof. intros Hf. rewrite map_map. apply map_ext. intros sp. by rewrite Hf. Qed.

Lemma map_if {A B} (f : A -> B) (b : bool) l l' : map f (if b then l else l') = if b then map f l else map f l'.
Proof. by destruct b. Qed.

Lemma planned_dests o d now : d_Layout d = o_Layout o -> d_Team d = o_Auth o && o_Team o ->
  map (fun it => dest (i_spec it)) (planned stamp o d (user_module o) now) ≡ₚ
    fixed_dests (o_Layout o) (o_Sample o) (o_Auth o) (o_Team o) (o_Queue o) (o_Realtime o) (o_I18n o) ++
    map (fun zn => migration_dest (stamp zn.1) zn.2) (migration_names now (o_Sample o) (o_Auth o) (o_Team o)).
Proof.
  intros Hl Ht. unfold fixed_dests. set (d0 := MkData _ _ _ _ _ _ _ _ _ _ _ _ _ _).
  assert (Hplan : plan d = plan d0) by (unfold plan; by rewrite Hl).
  assert (Hq : planQueue d = planQueue d0) by (unfold planQueue; by rewrite Hl).
  assert (Hr : planRealtime d = planRealtime d0) by (unfold planRealtime; by rewrite Hl).
  assert (Hi : planI18n d = planI18n d0) by (unfold planI18n; by rewrite Hl).
  assert (Ha : (if o_Auth o then planAuth d else []) = if o_Auth o then planAuth d0 else []).
  { destruct (o_Auth o) eqn:Hauth; [|done]. unfold planAuth. by rewrite Hl, Ht. }
  unfold migration_names. rewrite (map_app _ (if o_Sample o then _ else _)), !map_app.
  rewrite <- perm_shuffle. match goal with |- ?a ≡ₚ ?b => cut (a = b); [by intros ->|] end.

  unfold planned. cbn [next base n_]. rewrite Z.add_0_r, Hplan, Hq, Hr, Hi, !map_app, !map_if, !map_dest_file by done.
  f_equal. apply f_equal2; [|apply f_equal2; [|done]].
  - destruct (o_Sample o); [|done]. by rewrite map_app, map_dest_file.
  - destruct (o_Auth o); [|done]. rewrite map_app, map_dest_file, Ha by done. f_equal.
    destruct (o_Team o), (o_Sample o); simpl;
      repeat (apply f_equal2; [apply (f_equal (fun t => migration_dest (stamp t) _)); lia|]); done.
Qed.

Lemma planned_nodup o d now : valid_layout (o_Layout o) = true -> d_Layout d = o_Layout o -> d_Team d = o_Auth o && o_Team o ->
  NoDup (map (fun it => dest (i_spec it)) (planned stamp o d (user_module o) now)).
Proof.
  intros Hv Hl Ht. rewrite planned_dests by done. 
  destruct (fixed_dests_ok (o_Layout o) (o_Sample o) (o_Auth o) (o_Team o) (o_Queue o) (o_Realtime o) (o_I18n o) Hv) as [Hnd Hf].
  apply NoDup_app. split_and!; [done| |].
  - intros p Hp (zn & -> & _)%list_elem_of_fmap. rewrite Forall_forall in Hf. specialize (Hf _ Hp).
    by rewrite migration_dest_path in Hf.
  - apply migrations_nodup. destruct (o_Sample o), (o_Auth o), (o_Team o);
      refine (bool_decide_unpack _ _); vm_compute; exact I.
Qed.

Lemma map_Join root l : map (fun it => Join root (dest (i_spec it))) l = map (Join root) (map (fun it => dest (i_spec it)) l).
Proof. by rewrite map_map. Qed.

(** The data every template of a project sees. *)
Definition project_data (o : Options) (secret : string) : Data :=
  MkData (o_Name o) (o_Module o) (o_DB o) (o_Layout o) (o_Sample o) (o_Auth o) (o_Auth o && o_Team o)
    (o_Queue o) (o_Mailer o) (o_Realtime o) (o_I18n o) secret (o_HelpersVersion o) (Local_ o).
Definition team_auth (o : Options) : Options := if o_Team o then set_Auth true o else o.

Lemma under_planned o d now p : o_Dir o <> "."%string -> under (o_Dir o) p = false ->
  p ∉ map (fun it => Join (o_Dir o) (dest (i_spec it))) (planned stamp o d (user_module o) now).
Proof.
  intros Hdir Hu (it & -> & _)%list_elem_of_fmap. rewrite under_join in Hu by done. done.
Qed.

(** The target directory is cleared, up to what cannot be removed, and nothing else has changed. *)
Definition cleared (dir : string) (s s' : fs) : Prop := forall p,
  (under dir p = true -> stuck p = false -> files s' !! p = None) /\
  (under dir p = false -> files s' !! p = files s !! p).

Lemma RemoveAll_lookup dir s p : dir <> "."%string -> has_suffix "/." dir = false ->
  files (RemoveAll stuck dir s) !! p = if under dir p && negb (stuck p) then None else files s !! p.
Proof.
  intros Hd Hs. unfold RemoveAll. rewrite (proj2 (String.eqb_neq _ _) Hd), Hs. simpl.
  destruct (files s !! p) as [c|] eqn:Hp; [|rewrite map_lookup_filter_None_2 by (by left); by destruct (under dir p && negb (stuck p))].
  destruct (under dir p) eqn:Hu, (stuck p) eqn:Hst; simpl;
    (apply map_lookup_filter_Some_2; simpl; by auto) || (apply map_lookup_filter_None_2; right; intros x Hx [|]; simpl in *; congruence).
Qed.

(** What [Generate] leaves behind, on every path. *)
Lemma Generate_outcome o readdir random now s :
  let '(e, s') := Generate render format fate stuck stamp runCmd o readdir random now s in
  let o' := team_auth o in
  valid_layout (o_Layout o) = true -> o_Dir o <> "."%string -> has_suffix "/." (o_Dir o) = false ->
  match e with
  | Some _ => s' = s \/ cleared (o_Dir o) s s'
  | None =>
      exists secret s1, s' = post_commands runCmd o' s1 /\ dirNonEmpty (o_Dir o) s = false /\
        let items := planned stamp o' (project_data o' secret) (user_module o') now in
        NoDup (map (fun it => dest (i_spec it)) items) /\
        (forall it, it ∈ items -> exists c, rendered (i_spec it) (i_data it) c /\
        files s1 !! Join (o_Dir o) (dest (i_spec it)) = Some c) /\
        (forall p, under (o_Dir o) p = false -> files s1 !! p = files s !! p)
  end.
Proof.
  unfold Generate. fold (team_auth o).
  assert (Hl' : o_Layout (team_auth o) = o_Layout o) by (unfold team_auth; by destruct (o_Team o)).
  assert (Hd' : o_Dir (team_auth o) = o_Dir o) by (unfold team_auth; by destruct (o_Team o)).
  destruct readdir as [e|]; [by left|]. rewrite Hd'. destruct (dirNonEmpty (o_Dir o) s) eqn:Hempty; [by left|].
  destruct (if o_Auth (team_auth o) then _ else _) as [e|secret]; [by left|].
  change (deriveModuleNames "user") with (inr (MkModule "" "" "User" "user" "users") : error + ModuleData).
  cbv iota beta. change (with_context _ _ _) with (user_module (team_auth o)). fold (project_data (team_auth o) secret).
  set (items := planned stamp (team_auth o) (project_data (team_auth o) secret) (user_module (team_auth o)) now).
  pose proof (steps_spec (o_Dir o) items s) as Hst. destruct (steps render format fate (o_Dir o) items s) as [[e|] s1];
    cbv zeta beta iota; intros Hv Hdir Hsuf; destruct Hst as [Hout Hin];
    (assert (Hu : forall p, under (o_Dir o) p = false -> files s1 !! p = files s !! p)
       by (intros p Hp; apply Hout; rewrite <- Hd' in Hp |- *; apply under_planned; [by rewrite Hd'|done])).
  - right. intros p. rewrite RemoveAll_lookup by done. split; [by intros -> ->|]. intros Hp. rewrite Hp. by apply Hu.
  - exists secret, s1. assert (Hnd : NoDup (map (fun it => dest (i_spec it)) items)) by (apply planned_nodup; by rewrite ?Hl').
    split_and!; try done. apply Hin; [done|]. rewrite map_Join. apply NoDup_fmap_2; [apply Join_inj|done].
Qed.

(** (C18) [Generate] is all or nothing. For a target directory other than "." and not written with
    a final "/.", and a validated layout: if it fails before writing, nothing has changed; if a
    template, gofmt, a directory or a write fails at any file, with any damage, no file is left in
    the target directory but those that cannot be removed (none when removing works), and every
    file elsewhere is as it was; and when it succeeds every planned file and migration, no two of
    which have the same path, is there with its template's formatted rendering, and every file
    elsewhere is as it was, at the moment the external commands start ([go get], [go mod tidy] and
    [git init], which may then change anything). *)
Theorem Generate_all_or_nothing o readdir random now s :
  let '(e, s') := Generate render format fate stuck stamp runCmd o readdir random now s in
  let o' := team_auth o in
  valid_layout (o_Layout o) = true -> o_Dir o <> "."%string -> has_suffix "/." (o_Dir o) = false ->
  match e with
  | Some _ => s' = s \/ cleared (o_Dir o) s s'
  | None =>
      exists secret s1, s' = post_commands runCmd o' s1 /\ dirNonEmpty (o_Dir o) s = false /\
        let items := planned stamp o' (project_data o' secret) (user_module o') now in
        NoDup (map (fun it => dest (i_spec it)) items) /\
        (forall it, it ∈ items -> exists c, rendered (i_spec it) (i_data it) c /\
        files s1 !! Join (o_Dir o) (dest (i_spec it)) = Some c) /\
        (forall p, under (o_Dir o) p = false -> files s1 !! p = files s !! p)
  end.
Proof. exact (Generate_outcome o readdir random now s). Qed.

End Proofs.

(** ** Plans without duplicates, and what the plans get wrong *)

Lemma string_app_neq (a p q : string) : p <> q -> a +:+ p <> a +:+ q.
Proof. intros Hn H%string_app_inj_l. done. Qed.

(** A module's files are distinct, unless a ddd module is called "repository". *)
Lemma planModule_nodup md : (md_Layout md = "ddd" -> Pkg md <> "repository")%string -> NoDup (map dest (planModule md)).
Proof.
  intros Hrep. unfold planModule. destruct (String.eqb_spec (md_Layout md) "ddd") as [Hd|_].
  - specialize (Hrep Hd). cbn [map dest]. set (p := Pkg md) in *.
    assert (H1 : "internal/domain/" +:+ (p +:+ ("/" +:+ (p +:+ ".go"))) <> "internal/domain/" +:+ (p +:+ "/repository.go")).
    { apply string_app_neq, string_app_neq. change "/repository.go"%string with ("/" +:+ ("repository" +:+ ".go")).
      apply string_app_neq. intros H%app_suffix_inj. done. }
    assert (H2 : "internal/interface/http/" +:+ (p +:+ "_handler.go") <> "internal/interface/http/" +:+ (p +:+ "_module.go")).
    { apply string_app_neq, string_app_neq. done. }
    repeat (apply NoDup_cons; split; [rewrite ?elem_of_cons, elem_of_nil; intuition (try done; try discriminate)|]).
    constructor.
  - destruct (String.eqb (md_Layout md) "layered"); [|constructor]. cbn [map dest]. set (p := Pkg md).
    assert (H2 : "internal/handler/" +:+ (p +:+ "_handler.go") <> "internal/handler/" +:+ (p +:+ "_module.go")).
    { apply string_app_neq, string_app_neq. done. }
    repeat (apply NoDup_cons; split; [rewrite ?elem_of_cons, elem_of_nil; intuition (try done; try discriminate)|]).
    constructor.
Qed.

(** A ddd module called "repository" plans two files at one path: the second overwrites the entity. *)
Lemma repository_module_collides :
  match deriveModuleNames "Repository" with
  | inr md => map dest (firstn 2 (planModule (with_context "m" "ddd" md))) =
              ["internal/domain/repository/repository.go"; "internal/domain/repository/repository.go"]%string
  | inl _ => False
  end.
Proof. vm_compute. reflexivity. Qed.

(** A name that ends in "_test" is accepted, and the Go toolchain leaves the model out of builds. *)
Lemma test_module_is_a_test_file :
  match deriveModuleNames "load_test" with
  | inr md => match planModule (with_context "m" "layered" md) with
              | sp :: _ => dest sp = "internal/model/load_test.go"%string
              | [] => False
              end
  | inl _ => False
  end.
Proof. vm_compute. reflexivity. Qed.

(** ** Concrete instances *)

Definition toy_render (t : string) (d : tdata) : error + string := inr ("rendered " +:+ t).
Definition toy_format (c : string) : error + string := inr c.
Definition all_removable (p : string) : bool := false.
Definition toy_stamp (z : Z) : string := if Z.even z then "20260101000000"%string else "20260101000001"%string.
Definition toy_run (c : string) (args : list string) (s : fs) : fs := s.
Definition toy_options : Options :=
  MkOptions "shop" "example.com/shop" "sqlite" "ddd" true false true true false false true "shop" false false "" "".
Definition no_files : fs := MkFs ∅ ∅.
(** A full disk when the migration is written: half of it is left behind. *)
Definition toy_fate (p : string) : io :=
  if contains "_create_" p then WriteFails (Err "no space left on device") (Some "package mi"%string) else IoOk.
Definition toy_project : fs := MkFs {["go.mod"%string := "module example.com/shop"%string]} {["internal/model"%string]}.

Lemma toy_stamp_ok z : String.length (toy_stamp z) = 14%nat /\ sforall is_digit (toy_stamp z) = true.
Proof. unfold toy_stamp. by destruct (Z.even z). Qed.

(** A failed write of the migration leaves its damaged file in the project. *)
Lemma AddModule_leaves_partial_migration :
  let '(e, s') := AddModule toy_render toy_format toy_fate all_removable toy_stamp "Product" "" "" 0 toy_project in
  bool_decide (e <> None) = true /\
  files s' !! "internal/migrations/20260101000000_create_products.go"%string = Some "package mi"%string.
Proof. vm_compute. split; reflexivity. Qed.

(** Generating into the current directory: a failure leaves what was rendered. *)
Lemma Generate_dot_leaves_files :
  let '(e, s') := Generate toy_render toy_format toy_fate all_removable toy_stamp toy_run (set_Dir "." toy_options) None (inr "k"%string) 0 no_files in
  bool_decide (e <> None) = true /\ files s' !! "go.mod"%string = Some "rendered common/gomod.tmpl"%string.
Proof. vm_compute. split; reflexivity. Qed.

(** A file that [os.RemoveAll] cannot remove stays, and the error it returned is dropped: the
    caller is told of the failed write only. *)
Lemma Generate_leaves_stuck_files :
  let '(e, s') := Generate toy_render toy_format toy_fate (String.eqb "shop/go.mod") toy_stamp toy_run toy_options None (inr "k"%string) 0 no_files in
  e = Some (Wrap "render migration" [Err "no space left on device"]) /\
  map fst (map_to_list (files s')) = ["shop/go.mod"%string].
Proof. vm_compute. split; reflexivity. Qed.

Lemma Generate_all_or_nothing_witness :
  let '(e, s') := Generate toy_render toy_format (fun _ => IoOk) all_removable toy_stamp toy_run toy_options None (inr "k"%string) 0 no_files in
  e = None /\ exists secret s1, s' = post_commands toy_run (team_auth toy_options) s1 /\
    let items := planned toy_stamp (team_auth toy_options) (project_data (team_auth toy_options) secret)
                   (user_module (team_auth toy_options)) 0 in
    NoDup (map (fun it => dest (i_spec it)) items) /\
    (forall it, it ∈ items -> exists c, rendered toy_render toy_format (i_spec it) (i_data it) c /\
       files s1 !! Join "shop" (dest (i_spec it)) = Some c).
Proof.
  pose proof (Generate_all_or_nothing toy_render toy_format (fun _ => IoOk) all_removable toy_stamp toy_run toy_stamp_ok
    toy_options None (inr "k"%string) 0 no_files) as H.
  assert (He : fst (Generate toy_render toy_format (fun _ => IoOk) all_removable toy_stamp toy_run toy_options None (inr "k"%string) 0 no_files) = None)
    by (vm_compute; reflexivity).
  revert H He. destruct (Generate _ _ _ _ _ _ _ _ _ _ _) as [e s']. cbn [fst]. intros H ->. split; [reflexivity|].
  destruct (H eq_refl ltac:(discriminate) eq_refl) as (secret & s1 & Hs & _ & Hnd & Hin & _).
  exists secret, s1. split; [exact Hs|]. split; [exact Hnd|exact Hin].
Defined.

Lemma AddModule_never_overwrites_witness :
  let '(e, s') := AddModule toy_render toy_format (fun _ => IoOk) all_removable toy_stamp "Product" "" "" 0 toy_project in
  e = None /\ module_added toy_render toy_format toy_stamp "Product" "." 0 toy_project s' /\
  (forall p c, files toy_project !! p = Some c -> files s' !! p = Some c).
Proof.
  pose proof (AddModule_never_overwrites toy_render toy_format (fun _ => IoOk) all_removable toy_stamp "Product" "" "" 0 toy_project) as H.
  assert (He : fst (AddModule toy_render toy_format (fun _ => IoOk) all_removable toy_stamp "Product" "" "" 0 toy_project) = None)
    by (vm_compute; reflexivity).
  revert H He. destruct (AddModule _ _ _ _ _ _ _ _ _ _) as [e s']. cbn [fst]. intros (Hk & _ & Hok) ->.
  split; [reflexivity|]. split; [exact (Hok eq_refl)|exact Hk].
Defined.
