(* ===== verification/Cache.v ===== *)
(** * The in-process cache (cache/cache.go)

    The state is the one of the Go struct: a map from keys to entry pointers, the LRU list of
    the same pointers, and the heap of entries they point to ([setLocked] updates an entry in
    place through its pointer). Every exported method takes the mutex, so a run is a sequence of
    the operations below. [Spec] is the abstract cache (a list of bindings, most recent first);
    the refinement theorem says the pointer structure implements it. *)

From S2P Require Import Prelude.
Open Scope Z_scope.

Section Cache.
  Context {V : Type}.

(** ** State *)

(** [expiresAt] is a [time.Time]; 0 stands for the zero time, "never expires". *)
Record entry := Entry { key : string; value : V; expiresAt : Z }.

Record config := Config { cfg_maxSize : Z; cfg_defaultTTL : Z; cfg_janitor : Z }.

Record cache := Cache {
  items : gmap string nat;    (* key -> *entry *)
  lru : list nat;             (* front = most recently used *)
  heap : gmap nat entry;      (* the entries the pointers designate *)
  next_ptr : nat;             (* the next address [&entry{...}] yields *)
  maxSize : Z;
  defaultTTL : Z;
}.

(** ** Operations *)

Definition WithMaxSize (n : Z) (c : config) : config :=
  Config n (cfg_defaultTTL c) (cfg_janitor c).
Definition WithDefaultTTL (d : Z) (c : config) : config :=
  Config (cfg_maxSize c) d (cfg_janitor c).
Definition WithJanitor (interval : Z) (c : config) : config :=
  Config (cfg_maxSize c) (cfg_defaultTTL c) interval.

(** [New] applies the options in order to the zero config. (The janitor goroutine calls
    [sweep], modelled below.) *)
Definition New (opts : list (config -> config)) : cache :=
  let cfg := fold_left (fun c opt => opt c) opts (Config 0 0 0) in
  Cache ∅ [] ∅ 0 (cfg_maxSize cfg) (cfg_defaultTTL cfg).

Definition expired (now : Z) (e : entry) : bool :=
  negb (expiresAt e =? 0) && negb (now <? expiresAt e).

(** [list.Remove] and [list.MoveToFront] on the LRU list. *)
Definition lru_remove (p : nat) (l : list nat) : list nat := filter (fun q => q ≠ p) l.
Definition lru_move_to_front (p : nat) (l : list nat) : list nat := p :: lru_remove p l.

Definition removeLocked (p : nat) (c : cache) : cache :=
  match heap c !! p with
  | None => c
  | Some e => Cache (delete (key e) (items c)) (lru_remove p (lru c)) (heap c)
                    (next_ptr c) (maxSize c) (defaultTTL c)
  end.

Definition moveToFront (p : nat) (c : cache) : cache :=
  Cache (items c) (lru_move_to_front p (lru c)) (heap c) (next_ptr c) (maxSize c) (defaultTTL c).

Definition evictOldest (c : cache) : cache :=
  match last (lru c) with
  | None => c
  | Some p => removeLocked p c
  end.

Definition setLocked (now : Z) (k : string) (v : V) (ttl : Z) (c : cache) : cache :=
  let exp := if 0 <? ttl then now + ttl else 0 in
  match items c !! k with
  | Some p =>
      moveToFront p
        (Cache (items c) (lru c) (<[p := Entry k v exp]> (heap c)) (next_ptr c)
               (maxSize c) (defaultTTL c))
  | None =>
      let p := next_ptr c in
      let c' := Cache (<[k := p]> (items c)) (p :: lru c) (<[p := Entry k v exp]> (heap c))
                      (S p) (maxSize c) (defaultTTL c) in
      if (0 <? maxSize c) && (maxSize c <? Z.of_nat (length (lru c'))) then evictOldest c' else c'
  end.

Definition SetTTL (now : Z) (k : string) (v : V) (ttl : Z) (c : cache) : cache :=
  setLocked now k v ttl c.

Definition Set_ (now : Z) (k : string) (v : V) (c : cache) : cache :=
  SetTTL now k v (defaultTTL c) c.

Definition Get (now : Z) (k : string) (c : cache) : option V * cache :=
  match items c !! k with
  | None => (None, c)
  | Some p =>
      match heap c !! p with
      | None => (None, c)
      | Some e =>
          if expired now e then (None, removeLocked p c)
          else (Some (value e), moveToFront p c)
      end
  end.

Definition Delete (k : string) (c : cache) : cache :=
  match items c !! k with
  | None => c
  | Some p => removeLocked p c
  end.

Definition Len (c : cache) : Z := Z.of_nat (size (items c)).

(** One iteration of [sweep]'s loop. *)
Definition sweep_entry (now : Z) (c : cache) (k : string) : cache :=
  match items c !! k with
  | None => c
  | Some p =>
      match heap c !! p with
      | Some e => if expired now e then removeLocked p c else c
      | None => c
      end
  end.

(** [sweep] ranges over the map; [order] is the iteration order Go picks, with what the clock reads
    when each entry is looked at. *)
Definition sweep (order : list (Z * string)) (c : cache) : cache :=
  fold_left (fun c v => sweep_entry v.1 c v.2) order c.

(** [GetOrLoad] run by a caller that finds no other flight for the key (singleflight runs the
    function). [loader] is called at most once, between the two clock readings; it returns an
    error or a value and may itself use the cache. *)
Definition GetOrLoad (t1 t2 t3 : Z) (k : string) (loader : cache -> (error + V) * cache)
    (c : cache) : (error + V) * cache :=
  match Get t1 k c with
  | (Some v, c1) => (inr v, c1)
  | (None, c1) =>
      match Get t2 k c1 with
      | (Some v, c2) => (inr v, c2)
      | (None, c2) =>
          match loader c2 with
          | (inl e, c3) => (inl e, c3)
          | (inr v, c3) => (inr v, Set_ t3 k v c3)
          end
      end
  end.

(** ** Runs *)

Inductive op :=
| OGet (now : Z) (k : string)
| OSet (now : Z) (k : string) (v : V)
| OSetTTL (now : Z) (k : string) (v : V) (ttl : Z)
| ODelete (k : string)
| OLen
| OSweep (order : list (Z * string)).

Inductive output := RVal (v : option V) | RLen (n : Z) | RUnit.

Definition step (o : op) (c : cache) : output * cache :=
  match o with
  | OGet now k => let '(r, c') := Get now k c in (RVal r, c')
  | OSet now k v => (RUnit, Set_ now k v c)
  | OSetTTL now k v ttl => (RUnit, SetTTL now k v ttl c)
  | ODelete k => (RUnit, Delete k c)
  | OLen => (RLen (Len c), c)
  | OSweep order => (RUnit, sweep order c)
  end.

Fixpoint run (os : list op) (c : cache) : list output * cache :=
  match os with
  | [] => ([], c)
  | o :: os =>
      let '(r, c1) := step o c in
      let '(rs, c2) := run os c1 in (r :: rs, c2)
  end.

(** ** The abstract cache: bindings, most recently used first *)

Definition binding : Type := string * (V * Z).

Definition b_expired (now : Z) (b : binding) : bool :=
  negb (b.2.2 =? 0) && negb (now <? b.2.2).

Definition s_del (k : string) (l : list binding) : list binding := filter (fun b => b.1 ≠ k) l.
Definition s_find (k : string) (l : list binding) : option binding :=
  head (filter (fun b => b.1 = k) l).

Definition s_get (now : Z) (k : string) (l : list binding) : option V * list binding :=
  match s_find k l with
  | None => (None, l)
  | Some b => if b_expired now b then (None, s_del k l) else (Some b.2.1, b :: s_del k l)
  end.

Definition s_set (max now : Z) (k : string) (v : V) (ttl : Z) (l : list binding) : list binding :=
  let b := (k, (v, if 0 <? ttl then now + ttl else 0)) in
  match s_find k l with
  | Some _ => b :: s_del k l
  | None => if (0 <? max) && (max <? Z.of_nat (length (b :: l))) then removelast (b :: l) else b :: l
  end.

(** A binding goes when it is looked at after its end. *)
Definition s_sweep (order : list (Z * string)) (l : list binding) : list binding :=
  filter (fun b => ~ Exists (fun v => v.2 = b.1 /\ b_expired v.1 b = true) order) l.

Definition s_step (max dttl : Z) (o : op) (l : list binding) : output * list binding :=
  match o with
  | OGet now k => let '(r, l') := s_get now k l in (RVal r, l')
  | OSet now k v => (RUnit, s_set max now k v dttl l)
  | OSetTTL now k v ttl => (RUnit, s_set max now k v ttl l)
  | ODelete k => (RUnit, s_del k l)
  | OLen => (RLen (Z.of_nat (length l)), l)
  | OSweep order => (RUnit, s_sweep order l)
  end.

Fixpoint s_run (max dttl : Z) (os : list op) (l : list binding) : list output * list binding :=
  match os with
  | [] => ([], l)
  | o :: os =>
      let '(r, l1) := s_step max dttl o l in
      let '(rs, l2) := s_run max dttl os l1 in (r :: rs, l2)
  end.

(** ** Representation invariant and abstraction function *)

Definition deref (c : cache) (p : nat) : option binding :=
  e ← heap c !! p; Some (key e, (value e, expiresAt e)).

Definition abs (c : cache) : list binding := omap (deref c) (lru c).

Record wf (c : cache) : Prop := {
  wf_nodup : NoDup (lru c);
  wf_items : forall k p, items c !! k = Some p ->
    p ∈ lru c /\ exists e, heap c !! p = Some e /\ key e = k;
  wf_lru : forall p, p ∈ lru c -> exists e, heap c !! p = Some e /\ items c !! key e = Some p;
  wf_next : forall p, p ∈ lru c -> (p < next_ptr c)%nat;
}.

(** ** The pointer operations under the invariant *)

Lemma deref_inj c p q b b' :
  wf c -> p ∈ lru c -> q ∈ lru c -> deref c p = Some b -> deref c q = Some b' ->
  b.1 = b'.1 -> p = q.
Proof.
  intros Hwf Hp Hq.
  destruct (wf_lru _ Hwf p Hp) as (e & He & Hi). destruct (wf_lru _ Hwf q Hq) as (e' & He' & Hi').
  unfold deref. rewrite He, He'. intros [= <-] [= <-]. simpl. congruence.
Qed.

Lemma deref_some c p : wf c -> p ∈ lru c ->
  exists e, heap c !! p = Some e /\ deref c p = Some (key e, (value e, expiresAt e))
            /\ items c !! key e = Some p.
Proof.
  intros Hwf Hp. destruct (wf_lru _ Hwf p Hp) as (e & He & Hi).
  exists e. unfold deref. by rewrite He.
Qed.

(** Every entry the map designates, with all the invariant says of it. *)
Lemma items_deref c k p : wf c -> items c !! k = Some p ->
  p ∈ lru c /\ exists e, heap c !! p = Some e /\ key e = k
    /\ deref c p = Some (k, (value e, expiresAt e)).
Proof.
  intros Hwf Hk. destruct (wf_items _ Hwf _ _ Hk) as (Hp & e & He & <-).
  split; [done|]. exists e. unfold deref. by rewrite He.
Qed.

Lemma elem_of_lru_remove p q l : q ∈ lru_remove p l <-> q ≠ p /\ q ∈ l.
Proof. unfold lru_remove. by rewrite list_elem_of_filter. Qed.

Lemma abs_lru_remove c p e :
  wf c -> heap c !! p = Some e -> p ∈ lru c ->
  omap (deref c) (lru_remove p (lru c)) = s_del (key e) (abs c).
Proof.
  intros Hwf He Hp. unfold abs, s_del, lru_remove. apply omap_filter_comm.
  intros q b Hq Hb. destruct (deref_some _ _ Hwf Hp) as (e' & He' & Hd & _).
  rewrite He in He'. injection He' as <-. split.
  - intros Hne Heq. apply Hne. by apply (deref_inj c q p b (key e, (value e, expiresAt e))).
  - intros Hne ->. apply Hne. rewrite Hd in Hb. by injection Hb as <-.
Qed.

Lemma abs_removeLocked c p e :
  wf c -> heap c !! p = Some e -> p ∈ lru c -> abs (removeLocked p c) = s_del (key e) (abs c).
Proof.
  intros Hwf He Hp. unfold removeLocked. rewrite He. unfold abs at 1. simpl.
  by apply (abs_lru_remove c p e).
Qed.

Lemma wf_removeLocked c p : wf c -> p ∈ lru c -> wf (removeLocked p c).
Proof.
  intros Hwf Hp. unfold removeLocked.
  destruct (deref_some _ _ Hwf Hp) as (e & He & _ & Hi). rewrite He.
  split; simpl.
  - apply NoDup_filter, Hwf.
  - intros k q [Hk Hq]%lookup_delete_Some.
    destruct (items_deref _ _ _ Hwf Hq) as (Hin & e2 & ? & ? & _).
    split; [|eauto]. apply elem_of_lru_remove. split; [congruence|done].
  - intros q [Hne Hq]%elem_of_lru_remove.
    destruct (deref_some _ _ Hwf Hq) as (e2 & ? & _ & Hi2). exists e2. split; [done|].
    rewrite lookup_delete_ne; [done|]. congruence.
  - intros q [_ Hq]%elem_of_lru_remove. by apply (wf_next _ Hwf).
Qed.

Lemma wf_moveToFront c p : wf c -> p ∈ lru c -> wf (moveToFront p c).
Proof.
  intros Hwf Hp. assert (Hin : forall q, q ∈ lru_move_to_front p (lru c) <-> q ∈ lru c).
  { intros q. unfold lru_move_to_front. rewrite elem_of_cons, elem_of_lru_remove.
    destruct (decide (q = p)); naive_solver. }
  split; simpl.
  - constructor; [rewrite elem_of_lru_remove; naive_solver|]. apply NoDup_filter, Hwf.
  - intros k q Hq. rewrite Hin. by apply (wf_items _ Hwf).
  - intros q Hq. rewrite Hin in Hq. by apply (wf_lru _ Hwf).
  - intros q Hq. rewrite Hin in Hq. by apply (wf_next _ Hwf).
Qed.

Lemma abs_moveToFront c p b :
  wf c -> p ∈ lru c -> deref c p = Some b -> abs (moveToFront p c) = b :: s_del b.1 (abs c).
Proof.
  intros Hwf Hp Hb. destruct (deref_some _ _ Hwf Hp) as (e & He & Hd & _).
  rewrite Hd in Hb. injection Hb as <-.
  unfold abs at 1, moveToFront, lru_move_to_front. csimpl.
  unfold deref at 1. simpl. rewrite He. simpl. f_equal. by apply (abs_lru_remove c p e).
Qed.

Lemma s_find_abs c k : wf c ->
  s_find k (abs c) = (p ← items c !! k; deref c p).
Proof.
  intros Hwf. unfold s_find, abs. destruct (items c !! k) as [p|] eqn:Hk; simpl.
  - destruct (items_deref _ _ _ Hwf Hk) as (Hp & e & He & Hke & Hd).
    rewrite <- (omap_filter_comm (deref c) (fun q => q = p) (fun b : binding => b.1 = k)).
    + rewrite filter_eq_singleton; [|apply Hwf|done]. csimpl. by rewrite Hd.
    + intros q b Hq Hb. split; [intros ->; rewrite Hd in Hb; by injection Hb as <-|].
      intros Hbk. by apply (deref_inj c q p b (k, (value e, expiresAt e))).
  - rewrite filter_none; [done|]. intros b Hb Hbk. apply list_elem_of_omap in Hb as (q & Hq & Hd).
    destruct (deref_some _ _ Hwf Hq) as (e & He & Hd' & Hi). simplify_eq/=.
Qed.


Lemma length_abs c : wf c -> length (abs c) = length (lru c).
Proof.
  intros Hwf. apply omap_all_some. intros p Hp.
  destruct (deref_some _ _ Hwf Hp) as (e & _ & Hd & _). by rewrite Hd.
Qed.

(** ** Each operation simulates its abstract counterpart *)

Lemma Get_sim now k c : wf c ->
  wf (Get now k c).2 /\ s_get now k (abs c) = ((Get now k c).1, abs (Get now k c).2).
Proof.
  intros Hwf. unfold Get, s_get. rewrite s_find_abs by done.
  destruct (items c !! k) as [p|] eqn:Hk; simpl; [|done].
  destruct (items_deref _ _ _ Hwf Hk) as (Hp & e & He & Hke & Hd). rewrite Hd, He.
  assert (Hx : b_expired now (k, (value e, expiresAt e)) = expired now e) by done.
  rewrite Hx. destruct (expired now e); simpl.
  - split; [by apply wf_removeLocked|]. rewrite (abs_removeLocked c p e) by done. by rewrite Hke.
  - split; [by apply wf_moveToFront|]. by rewrite (abs_moveToFront c p _ Hwf Hp Hd).
Qed.

Lemma Delete_sim k c : wf c -> wf (Delete k c) /\ s_del k (abs c) = abs (Delete k c).
Proof.
  intros Hwf. unfold Delete. destruct (items c !! k) as [p|] eqn:Hk.
  - destruct (items_deref _ _ _ Hwf Hk) as (Hp & e & He & Hke & Hd).
    split; [by apply wf_removeLocked|]. rewrite (abs_removeLocked c p e) by done. by rewrite Hke.
  - split; [done|]. pose proof (s_find_abs c k Hwf) as Hf. rewrite Hk in Hf. simpl in Hf.
    unfold s_del. apply filter_all. intros b Hb Hbk. unfold s_find in Hf.
    assert (Hin : b ∈ filter (fun b => b.1 = k) (abs c)) by (by apply list_elem_of_filter).
    destruct (filter _ (abs c)); [set_solver|done].
Qed.

Lemma lru_remove_last p l : NoDup (l ++ [p]) -> lru_remove p (l ++ [p]) = l.
Proof.
  intros (_ & Hd & _)%NoDup_app. unfold lru_remove. rewrite filter_app, filter_all.
  - rewrite filter_none, app_nil_r; [done|]. set_solver.
  - intros q Hq ->. set_solver.
Qed.

Lemma evictOldest_sim c : wf c -> wf (evictOldest c) /\ abs (evictOldest c) = removelast (abs c).
Proof.
  intros Hwf. unfold evictOldest. destruct (last (lru c)) as [p|] eqn:Hl.
  - apply last_Some in Hl as [l Hl]. assert (Hp : p ∈ lru c) by (rewrite Hl; set_solver).
    split; [by apply wf_removeLocked|].
    destruct (deref_some _ _ Hwf Hp) as (e & He & Hd & _).
    unfold removeLocked. rewrite He. unfold abs. simpl.
    pose proof (wf_nodup _ Hwf) as Hnd. rewrite Hl in *. rewrite lru_remove_last by done.
    rewrite omap_app. csimpl. rewrite Hd. csimpl. by rewrite removelast_last.
  - apply last_None in Hl. split; [done|]. unfold abs. by rewrite Hl.
Qed.

(** Inserting a key the cache does not hold. *)
Lemma insert_new_sim now k v ttl c (exp := if 0 <? ttl then now + ttl else 0) :
  wf c -> items c !! k = None ->
  let c' := Cache (<[k := next_ptr c]> (items c)) (next_ptr c :: lru c)
              (<[next_ptr c := Entry k v exp]> (heap c)) (S (next_ptr c)) (maxSize c) (defaultTTL c) in
  wf c' /\ abs c' = (k, (v, exp)) :: abs c.
Proof.
  intros Hwf Hk c'. pose proof (wf_next _ Hwf) as Hn.
  assert (Hold : forall q, q ∈ lru c -> heap c' !! q = heap c !! q).
  { intros q Hq. simpl. rewrite lookup_insert_ne; [done|]. specialize (Hn q Hq). lia. }
  split; [split; simpl|].
  - constructor; [|apply Hwf]. intros Hq. specialize (Hn _ Hq). lia.
  - intros k' q [[<- <-]|[Hne Hq]]%lookup_insert_Some.
    + split; [set_solver|]. exists (Entry k v exp). by rewrite lookup_insert_eq.
    + destruct (wf_items _ Hwf _ _ Hq) as (Hin & e & He & Hke).
      split; [set_solver|]. exists e. split; [|done]. rewrite <- He. by apply Hold.
  - intros q [->|Hq]%elem_of_cons.
    + exists (Entry k v exp). rewrite lookup_insert_eq. simpl. by rewrite lookup_insert_eq.
    + destruct (wf_lru _ Hwf _ Hq) as (e & He & Hi). exists e. split.
      * rewrite <- He. by apply Hold.
      * rewrite lookup_insert_ne; [done|]. congruence.
  - intros q [->|Hq]%elem_of_cons; [lia|]. specialize (Hn _ Hq). lia.
  - unfold abs at 1. csimpl. unfold deref at 1. simpl. rewrite lookup_insert_eq. csimpl. f_equal.
    apply omap_ext_in. intros q Hq. unfold deref. by rewrite Hold.
Qed.

(** Overwriting the entry of a key the cache holds, through its pointer. *)
Lemma overwrite_sim k v exp c p (h := <[p := Entry k v exp]> (heap c)) :
  wf c -> items c !! k = Some p ->
  let c' := Cache (items c) (lru c) h (next_ptr c) (maxSize c) (defaultTTL c) in
  wf c' /\ p ∈ lru c' /\ deref c' p = Some (k, (v, exp)) /\ s_del k (abs c') = s_del k (abs c).
Proof.
  intros Hwf Hk c'. destruct (items_deref _ _ _ Hwf Hk) as (Hp & e & He & Hke & Hd).
  assert (Hkey : forall q e', heap c !! q = Some e' ->
            exists e2, h !! q = Some e2 /\ key e2 = key e').
  { intros q e' Hq. destruct (decide (q = p)) as [->|Hne].
    - exists (Entry k v exp). unfold h. rewrite lookup_insert_eq. naive_solver.
    - exists e'. unfold h. by rewrite lookup_insert_ne. }
  assert (Hwf' : wf c').
  { split; simpl; [apply Hwf| | |apply Hwf].
    - intros k' q Hq. destruct (wf_items _ Hwf _ _ Hq) as (Hin & e' & He' & <-).
      split; [done|]. by apply Hkey.
    - intros q Hq. destruct (wf_lru _ Hwf _ Hq) as (e' & He' & Hi).
      destruct (Hkey _ _ He') as (e2 & ? & Hk2). exists e2. by rewrite Hk2. }
  assert (Hd' : deref c' p = Some (k, (v, exp))).
  { unfold deref. simpl. unfold h. by rewrite lookup_insert_eq. }
  split_and!; [done|done|done|].
  rewrite <- Hke at 1. replace (key e) with (key (Entry k v exp)) by done.
  rewrite <- (abs_lru_remove c' p (Entry k v exp)); [|done|simpl; unfold h; by rewrite lookup_insert_eq|done].
  rewrite <- Hke. rewrite <- (abs_lru_remove c p e) by done.
  simpl. apply omap_ext_in. intros q [Hne _]%elem_of_lru_remove.
  unfold deref. simpl. unfold h. by rewrite lookup_insert_ne.
Qed.

Lemma setLocked_sim now k v ttl c : wf c ->
  wf (setLocked now k v ttl c)
  /\ abs (setLocked now k v ttl c) = s_set (maxSize c) now k v ttl (abs c).
Proof.
  intros Hwf. unfold setLocked, s_set. rewrite s_find_abs by done.
  destruct (items c !! k) as [p|] eqn:Hk; simpl.
  - destruct (items_deref _ _ _ Hwf Hk) as (_ & e & _ & _ & Hd). rewrite Hd.
    destruct (overwrite_sim k v (if 0 <? ttl then now + ttl else 0) c p Hwf Hk)
      as (Hwf' & Hp' & Hd' & Hdel).
    split; [by apply wf_moveToFront|].
    rewrite (abs_moveToFront _ _ _ Hwf' Hp' Hd'). simpl. by rewrite Hdel.
  - destruct (insert_new_sim now k v ttl c Hwf Hk) as (Hwf' & Habs).
    rewrite <- (length_abs c Hwf).
    destruct (evictOldest_sim _ Hwf') as (Hwf2 & Habs2).
    destruct ((0 <? maxSize c) && _); [|done]. split; [done|]. by rewrite Habs2, Habs.
Qed.

Lemma wf_size c : wf c -> size (items c) = length (lru c).
Proof.
  intros Hwf. rewrite <- length_map_to_list, <- (length_fmap snd).
  apply Permutation_length, NoDup_Permutation.
  - apply NoDup_fmap_2_strong; [|apply NoDup_map_to_list].
    intros [k p] [k' p'] H1 H2 Heq. simpl in Heq. subst p'.
    apply elem_of_map_to_list in H1, H2.
    destruct (items_deref _ _ _ Hwf H1) as (_ & e & He & <- & _).
    destruct (items_deref _ _ _ Hwf H2) as (_ & e' & He' & <- & _). congruence.
  - apply Hwf.
  - intros p. rewrite list_elem_of_fmap. split.
    + intros ([k q] & -> & Hkq%elem_of_map_to_list). by apply (items_deref _ _ _ Hwf Hkq).
    + intros Hp. destruct (deref_some _ _ Hwf Hp) as (e & _ & _ & Hi).
      exists (key e, p). split; [done|]. by apply elem_of_map_to_list.
Qed.

Lemma Len_sim c : wf c -> Len c = Z.of_nat (length (abs c)).
Proof. intros Hwf. unfold Len. by rewrite wf_size, length_abs. Qed.

Lemma sweep_entry_sim now c k : wf c ->
  wf (sweep_entry now c k)
  /\ abs (sweep_entry now c k) = filter (fun b => ~ (b.1 = k /\ b_expired now b = true)) (abs c).
Proof.
  intros Hwf. unfold sweep_entry. pose proof (s_find_abs c k Hwf) as Hf.
  destruct (items c !! k) as [p|] eqn:Hk; simpl in Hf.
  - destruct (items_deref _ _ _ Hwf Hk) as (Hp & e & He & Hke & Hd). rewrite He.
    split; [destruct (expired now e); [by apply wf_removeLocked|done]|].
    trans (omap (deref c) (filter (fun q => ~ (q = p /\ expired now e = true)) (lru c))).
    + destruct (expired now e) eqn:Hx.
      * unfold removeLocked. rewrite He. unfold abs. simpl.
        unfold lru_remove. f_equal. apply filter_ext_in. intros q _. naive_solver.
      * unfold abs. rewrite filter_all; [done|]. intros q _ [_ ?]. done.
    + apply omap_filter_comm. intros q [bk [bv bx]] Hq Hb. simpl.
      split; intros Hn [Heq Hexp]; apply Hn.
      * subst bk. assert (q = p) as -> by by apply (deref_inj c q p _ _ Hwf Hq Hp Hb Hd).
        rewrite Hb in Hd. injection Hd as -> ->. split; [done|]. exact Hexp.
      * subst q. rewrite Hd in Hb. by injection Hb as <- <- <-.
  - split; [done|]. rewrite filter_all; [done|]. intros b Hb [Heq _].
    unfold s_find in Hf. assert (Hin : b ∈ filter (fun b => b.1 = k) (abs c)) by (by apply list_elem_of_filter).
    destruct (filter _ (abs c)); [set_solver|done].
Qed.

Lemma sweep_sim order c : wf c ->
  wf (sweep order c) /\ abs (sweep order c) = s_sweep order (abs c).
Proof.
  revert c. induction order as [|[now k] order IH]; intros c Hwf; unfold sweep; simpl.
  - split; [done|]. unfold s_sweep. rewrite filter_all; [done|]. intros b _. by intros ?%Exists_nil.
  - destruct (sweep_entry_sim now c k Hwf) as (Hwf1 & Habs1).
    destruct (IH _ Hwf1) as (Hwf2 & Habs2). split; [done|].
    unfold sweep in Habs2. rewrite Habs2, Habs1. unfold s_sweep.
    rewrite list_filter_filter. apply filter_ext_in. intros b _. rewrite Exists_cons. simpl. naive_solver.
Qed.

Definition cfg_of (c : cache) : Z * Z := (maxSize c, defaultTTL c).

Lemma removeLocked_cfg p c : cfg_of (removeLocked p c) = cfg_of c.
Proof. unfold removeLocked. by destruct (heap c !! p). Qed.

Lemma setLocked_cfg now k v ttl c : cfg_of (setLocked now k v ttl c) = cfg_of c.
Proof.
  unfold setLocked. destruct (items c !! k); [done|]. destruct ((0 <? maxSize c) && _); [|done].
  unfold evictOldest. case_match; [by rewrite removeLocked_cfg|done].
Qed.

Lemma step_cfg o c : cfg_of (step o c).2 = cfg_of c.
Proof.
  destruct o as [now k|now k v|now k v ttl|k| |order]; simpl; try apply setLocked_cfg; try done.
  - unfold Get. repeat case_match; simplify_eq/=; try done; apply removeLocked_cfg.
  - unfold Delete. case_match; [apply removeLocked_cfg|done].
  - unfold sweep. apply fold_left_inv; [done|]. intros c' [now k] _ H1. unfold sweep_entry.
    repeat case_match; try done. by rewrite removeLocked_cfg.
Qed.

Lemma step_sim o c : wf c ->
  wf (step o c).2
  /\ s_step (maxSize c) (defaultTTL c) o (abs c) = ((step o c).1, abs (step o c).2).
Proof.
  intros Hwf. destruct o as [now k|now k v|now k v ttl|k| |order]; simpl.
  - destruct (Get_sim now k c Hwf) as (H1 & H2). rewrite H2. by destruct (Get now k c).
  - destruct (setLocked_sim now k v (defaultTTL c) c Hwf) as (H1 & H2). by rewrite <- H2.
  - destruct (setLocked_sim now k v ttl c Hwf) as (H1 & H2). by rewrite <- H2.
  - destruct (Delete_sim k c Hwf) as (H1 & H2). by rewrite H2.
  - by rewrite Len_sim.
  - destruct (sweep_sim order c Hwf) as (H1 & H2). by rewrite <- H2.
Qed.

Lemma run_sim os c : wf c ->
  wf (run os c).2
  /\ maxSize (run os c).2 = maxSize c
  /\ s_run (maxSize c) (defaultTTL c) os (abs c) = ((run os c).1, abs (run os c).2).
Proof.
  revert c; induction os as [|o os IH]; intros c Hwf; simpl; [done|].
  destruct (step_sim o c Hwf) as (Hwf1 & Hs). injection (step_cfg o c) as Hm Hd.
  rewrite Hs. destruct (step o c) as [r c1]; simpl in *.
  destruct (IH c1 Hwf1) as (Hwf2 & Hm2 & Hs2). rewrite Hm, Hd in Hs2. rewrite Hs2.
  destruct (run os c1) as [rs c2]; simpl in *. by rewrite Hm2.
Qed.

Lemma wf_New opts : wf (New opts) /\ abs (New opts) = [].
Proof. split; [|done]. split; simpl; try set_solver. constructor. Qed.

(** ** Bound of the abstract cache *)

Lemma length_s_del k l : (length (s_del k l) <= length l)%nat.
Proof. apply length_filter. Qed.

Lemma s_find_in k l b : s_find k l = Some b -> b ∈ l /\ b.1 = k.
Proof.
  unfold s_find. intros Hf. assert (Hin : b ∈ filter (fun b : binding => b.1 = k) l).
  { destruct (filter _ l); [done|]. simplify_eq/=. set_solver. }
  apply list_elem_of_filter in Hin. tauto.
Qed.

Lemma length_s_touch k l b b' :
  s_find k l = Some b -> (length (b' :: s_del k l) <= length l)%nat.
Proof.
  intros (Hin & Hk)%s_find_in. apply Nat.le_succ_l. unfold s_del.
  apply (length_filter_lt _ l b); [done|]. naive_solver.
Qed.

Lemma length_push_evict max (b : binding) l :
  0 < max -> Z.of_nat (length l) <= max ->
  Z.of_nat (length (if (0 <? max) && (max <? Z.of_nat (length (b :: l)))
                    then removelast (b :: l) else b :: l)) <= max.
Proof.
  intros Hm Hl. destruct (Z.ltb_spec 0 max); [|lia]. rewrite andb_true_l.
  destruct (Z.ltb_spec max (Z.of_nat (length (b :: l)))); [|done].
  rewrite removelast_firstn_len, length_firstn. simpl. lia.
Qed.

Lemma s_step_length max dttl o l :
  0 < max -> Z.of_nat (length l) <= max -> Z.of_nat (length (s_step max dttl o l).2) <= max.
Proof.
  intros Hm Hl.
  assert (Hset : forall now k v ttl, Z.of_nat (length (s_set max now k v ttl l)) <= max).
  { intros now k v ttl. unfold s_set. destruct (s_find k l) as [b|] eqn:Hf.
    - trans (Z.of_nat (length l)); [apply Nat2Z.inj_le, (length_s_touch k l b _ Hf)|done].
    - apply length_push_evict; done. }
  destruct o as [now k|now k v|now k v ttl|k| |order]; simpl; auto.
  - unfold s_get. destruct (s_find k l) as [b|] eqn:Hf; [|done].
    trans (Z.of_nat (length l)); [apply Nat2Z.inj_le|done].
    destruct (b_expired now b); [apply length_s_del|apply (length_s_touch k l b b Hf)].
  - trans (Z.of_nat (length l)); [apply Nat2Z.inj_le, length_s_del|done].
  - trans (Z.of_nat (length l)); [apply Nat2Z.inj_le, length_filter|done].
Qed.

Lemma s_run_length max dttl os l :
  0 < max -> Z.of_nat (length l) <= max -> Z.of_nat (length (s_run max dttl os l).2) <= max.
Proof.
  revert l; induction os as [|o os IH]; intros l Hm Hl; simpl; [done|].
  pose proof (s_step_length max dttl o l Hm Hl). destruct (s_step max dttl o l) as [r l1].
  specialize (IH l1 Hm ltac:(done)). by destruct (s_run max dttl os l1).
Qed.

Lemma s_find_head k b l : b.1 = k -> s_find k (b :: l) = Some b.
Proof. intros Hk. unfold s_find. by rewrite filter_cons_True. Qed.

Lemma s_set_head max now k v ttl l :
  exists l', s_set max now k v ttl l = (k, (v, if 0 <? ttl then now + ttl else 0)) :: l'.
Proof.
  unfold s_set. destruct (s_find k l); [by eexists|].
  destruct ((0 <? max) && _) eqn:Hc; [|by eexists]. destruct l as [|b l]; [|by eexists].
  apply andb_prop in Hc as [? ?]. simpl in *. bool_cases; lia.
Qed.

(** What [Get] sees of a binding just stored. *)
Lemma Get_after_SetTTL c t0 t k v ttl :
  wf c ->
  (Get t k (SetTTL t0 k v ttl c)).1 =
    if (0 <? ttl) && negb (t0 + ttl =? 0) && (t0 + ttl <=? t) then None else Some v.
Proof.
  intros Hwf. destruct (setLocked_sim t0 k v ttl c Hwf) as (Hwf' & Habs).
  destruct (Get_sim t k _ Hwf') as (_ & Hg). unfold SetTTL.
  destruct (s_set_head (maxSize c) t0 k v ttl (abs c)) as (l' & Hl').
  rewrite Habs, Hl' in Hg. unfold s_get in Hg. rewrite s_find_head in Hg by done.
  unfold b_expired in Hg. simpl in Hg.
  destruct (Get t k (setLocked t0 k v ttl c)) as [r c']; simpl in *.
  destruct (0 <? ttl); simpl in *; [|by inversion Hg].
  destruct (t0 + ttl =? 0); simpl in *; [by inversion Hg|].
  rewrite <- Z.leb_antisym in Hg. destruct (t0 + ttl <=? t); by inversion Hg.
Qed.

(** ** Properties *)

(** (C5) The pointer structure (map, LRU list, entries updated in place) of a cache built by
    [New] implements the abstract LRU cache: on every sequence of operations, at any clock
    readings (one per entry in [sweep]) and for any map iteration order of [sweep], it returns the abstract results and
    ends in a state that denotes the abstract state. *)
Theorem cache_refines_lru opts os :
  s_run (maxSize (New opts)) (defaultTTL (New opts)) os [] =
    ((run os (New opts)).1, abs (run os (New opts)).2).
Proof.
  destruct (wf_New opts) as (Hwf & Habs). destruct (run_sim os _ Hwf) as (_ & _ & H).
  by rewrite <- H, Habs.
Qed.

(** With a positive maximum size the cache never holds more entries than it, whatever the
    sequence of operations. *)
Theorem cache_bounded opts os :
  0 < maxSize (New opts) -> Len (run os (New opts)).2 <= maxSize (New opts).
Proof.
  intros Hm. destruct (wf_New opts) as (Hwf & Habs).
  destruct (run_sim os _ Hwf) as (Hwf' & _ & H). rewrite (Len_sim _ Hwf').
  pose proof (s_run_length (maxSize (New opts)) (defaultTTL (New opts)) os (abs (New opts)) Hm) as Hb.
  rewrite H in Hb. apply Hb. rewrite Habs. simpl. by apply Z.lt_le_incl.
Qed.

(** [GetOrLoad] after any history, for a loader that itself performs any cache operations
    [los] and returns [r]: a live binding is returned without running the loader; a loader error
    is returned and nothing is stored; a loaded value is returned, and an immediate [Get] finds
    it (the entry just loaded is never the one evicted). *)
Theorem GetOrLoad_spec opts os los t k r (c := (run os (New opts)).2)
    (loader := fun c => (r, (run los c).2)) :
  let res := GetOrLoad t t t k loader c in
  match (Get t k c).1 with
  | Some v => res = (inr v, (Get t k c).2)
  | None =>
      match r with
      | inl e => res = (inl e, (run los (Get t k c).2).2)
      | inr v => res.1 = inr v /\ (Get t k res.2).1 = Some v
      end
  end.
Proof.
  destruct (wf_New opts) as (Hwf0 & _). destruct (run_sim os _ Hwf0) as (Hwf & _). fold c in Hwf.
  destruct (Get_sim t k c Hwf) as (Hwf1 & Hg1). destruct (Get_sim t k _ Hwf1) as (Hwf2 & Hg2).
  simpl. unfold GetOrLoad. destruct (Get t k c) as [[v|] c1] eqn:H1; [done|]. simpl in *.
  assert (Hno : Get t k c1 = (None, c1)).
  { unfold Get in *. destruct (items c !! k) as [p|] eqn:Hk; [|by simplify_eq; rewrite Hk].
    destruct (items_deref _ _ _ Hwf Hk) as (Hp & e & He & Hke & _). rewrite He in H1.
    destruct (expired t e); [|done]. simplify_eq. unfold removeLocked. rewrite He. simpl.
    by rewrite lookup_delete_eq. }
  rewrite Hno. unfold loader. destruct r as [e|v]; [done|]. split; [done|]. simpl.
  unfold Set_. rewrite Get_after_SetTTL by apply run_sim, Hwf1.
  destruct (Z.ltb_spec 0 (defaultTTL (run los c1).2)); simpl; [|done].
  destruct (Z.leb_spec (t + defaultTTL (run los c1).2) t); [lia|]. by rewrite andb_false_r.
Qed.

(** ** What the cache holds *)

Definition holds (P : string -> V -> Prop) (c : cache) : Prop := wf c /\ forall b, b ∈ abs c -> P b.1 b.2.1.

Lemma Get_holds P now k c : holds P c -> holds P (Get now k c).2 /\ forall v, (Get now k c).1 = Some v -> P k v.
Proof.
  intros [Hwf Hp]. destruct (Get_sim now k c Hwf) as [Hwf' Hs]. unfold holds. revert Hs. unfold s_get, s_del.
  destruct (s_find k (abs c)) as [b|] eqn:Hb; [apply s_find_in in Hb as [Hin <-]; destruct (b_expired now b)|]; intros [= <- <-]; (split; [split; [done|]|]); try done.
  - intros b' [_ Hb']%list_elem_of_filter. by apply Hp.
  - intros b' [->|[_ Hb']%list_elem_of_filter]%elem_of_cons; by apply Hp.
  - intros v [= <-]. by apply Hp.
Qed.

Lemma elem_of_removelast {A} (x : A) (l : list A) : x ∈ removelast l -> x ∈ l.
Proof. induction l as [|y [|z l] IH]; [done|set_solver|]. change (x ∈ y :: removelast (z :: l) -> x ∈ y :: z :: l). set_solver. Qed.

Lemma Set_holds P now k v c : holds P c -> P k v -> holds P (Set_ now k v c).
Proof.
  intros [Hwf Hp] Hv. destruct (setLocked_sim now k v (defaultTTL c) c Hwf) as [Hwf' Hs]. unfold Set_, SetTTL. split; [done|]. rewrite Hs. unfold s_set, s_del.
  intros b Hb. cut (b.1 = k /\ b.2.1 = v \/ b ∈ abs c); [intros [[Hk Hw]|Ho]; [by rewrite Hk, Hw|by apply Hp]|].
  destruct (s_find k (abs c)).
  - apply elem_of_cons in Hb as [->|[_ Hb]%list_elem_of_filter]; [by left|by right].
  - assert (b ∈ (k, (v, if 0 <? defaultTTL c then now + defaultTTL c else 0)) :: abs c) as [->|]%elem_of_cons; [|by left|by right].
    destruct (_ && _); [by apply elem_of_removelast|done].
Qed.

(** [GetOrLoad] with a loader that leaves the cache alone: what is returned has what every entry has. *)
Lemma GetOrLoad_holds P t1 t2 t3 k r c : holds P c -> (forall v, r = inr v -> P k v) ->
  let res := GetOrLoad t1 t2 t3 k (fun c => (r, c)) c in
  holds P res.2 /\ match res.1 with inr v => P k v | inl e => r = inl e end.
Proof.
  intros Hc Hr. unfold GetOrLoad. destruct (Get_holds P t1 k c Hc) as [Hc1 Hv1]. destruct (Get t1 k c) as [[v|] c1]; [by split; [|apply Hv1]|]. cbn [fst snd] in *.
  destruct (Get_holds P t2 k c1 Hc1) as [Hc2 Hv2]. destruct (Get t2 k c1) as [[v|] c2]; [by split; [|apply Hv2]|]. cbn [fst snd] in *.
  destruct r as [e|v]; [done|]. cbn [fst snd]. split; [|by apply Hr]. apply Set_holds; [done|by apply Hr].
Qed.

End Cache.

(** The bound is met with equality: three insertions into a cache of size two. *)
Lemma cache_bounded_witness :
  0 < maxSize (@New Z [WithMaxSize 2]) /\
  Len (run [OSet 1 "a" 1; OSet 1 "b" 2; OGet 1 "a"; OSet 1 "c" 3] (New [WithMaxSize 2])).2
    <= maxSize (@New Z [WithMaxSize 2]).
Proof.
  split; [vm_compute; reflexivity|].
  apply (cache_bounded [WithMaxSize 2]
           [OSet 1 "a" 1; OSet 1 "b" 2; OGet 1 "a"; OSet 1 "c" 3]).
  vm_compute; reflexivity.
Defined.

(** "b" is the least recently used of the three keys and is the one evicted. *)
Example lru_eviction :
  (run [OSet 1 "a" 1; OSet 1 "b" 2; OGet 1 "a"; OSet 1 "c" 3; OGet 1 "b"; OGet 1 "a"]
       (New [WithMaxSize 2])).1
  = [RUnit; RUnit; RVal (Some 1); RUnit; RVal None; RVal (Some 1)].
Proof. vm_compute. reflexivity. Qed.
