(* ===== verification/OpenApiSchema.v ===== *)
(** * Schemas of Go types (openapi/schema.go, spec_model.go)

    A Go type is what reflection shows of it: its kind, its elements, and for a named struct an
    identity whose name and fields are looked up in the program's declarations. A named type that
    is not a struct stands as its underlying type, and [GTime] is [time.Time]; so of the recursive
    types of Go only those that pass through a named struct are here. One that does not, such as
    [type Tree map[string]Tree], the code's walk never finishes: see [defined_map_overflows]. Schemas are trees,
    the component table a finite map, and the walk over a type takes fuel, since it follows
    declarations. *)

From S2P Require Import Prelude GoStrings GoFloat.
Open Scope Z_scope.

(** ** Types as reflection sees them *)

#[warnings="-register-all"]
Inductive gtype :=
| GTime | GString | GBool
| GInt                       (* int, int8 to int32 and the unsigned ones *)
| GInt64                     (* int64, uint64 *)
| GFloat32 | GFloat64
| GSlice (e : gtype) | GArray (e : gtype) | GMap (v : gtype) | GPtr (e : gtype)
| GInterface | GOther        (* any kind without a schema *)
| GStruct (fields : list gfield)     (* an anonymous struct *)
| GNamed (id : nat)                  (* a named struct *)
with gfield :=
| GField (f_Name : string) (exported anonymous : bool) (json validate : string) (f_Type : gtype).

Definition f_Name (f : gfield) : string := let '(GField n _ _ _ _ _) := f in n.
Definition exported (f : gfield) : bool := let '(GField _ e _ _ _ _) := f in e.
Definition anonymous (f : gfield) : bool := let '(GField _ _ a _ _ _) := f in a.
Definition json_tag (f : gfield) : string := let '(GField _ _ _ j _ _) := f in j.
Definition validate_tag (f : gfield) : string := let '(GField _ _ _ _ v _) := f in v.
Definition f_Type (f : gfield) : gtype := let '(GField _ _ _ _ _ t) := f in t.

(** The program's named structs: name and fields. *)
Definition decls : Type := nat -> string * list gfield.

(** The loop that dereferences pointers: whether there was one, and what is behind. *)
Fixpoint deref (t : gtype) : bool * gtype := match t with GPtr e => (true, (deref e).2) | _ => (false, t) end.

Definition isNumericKind (t : gtype) : bool :=
  match t with GInt | GInt64 | GFloat32 | GFloat64 => true | _ => false end.

(** ** Schemas *)

Inductive enum_item := EText (s : string) | ENumber (f : spec_float).

#[warnings="-register-all"]
Inductive Schema := MkSchema {
  Ref : string; s_Type : string; Format : string; Nullable : bool;
  Properties : list (string * Schema); Required : list string;
  Items : option Schema; AdditionalProperties : option Schema;
  Enum : list enum_item; Minimum : option spec_float; Maximum : option spec_float;
  MinLength : option Z; MaxLength : option Z; MinItems : option Z; MaxItems : option Z }.

(** The composite literals of the code. *)
Definition empty_schema : Schema := MkSchema "" "" "" false [] [] None None [] None None None None None None.
Definition typed (ty fmt : string) : Schema := MkSchema "" ty fmt false [] [] None None [] None None None None None None.
Definition array_of (e : Schema) : Schema := MkSchema "" "array" "" false [] [] (Some e) None [] None None None None None None.
Definition map_of (v : Schema) : Schema := MkSchema "" "object" "" false [] [] None (Some v) [] None None None None None None.
Definition ref_to (name : string) : Schema :=
  MkSchema ("#/components/schemas/" +:+ name) "" "" false [] [] None None [] None None None None None None.
Definition object_of (props : list (string * Schema)) (required : list string) : Schema :=
  MkSchema "" "object" "" false props required None None [] None None None None None None.

(** Assignments to single fields of a schema. *)
Definition set_Nullable (s : Schema) : Schema :=
  MkSchema (Ref s) (s_Type s) (Format s) true (Properties s) (Required s) (Items s) (AdditionalProperties s)
    (Enum s) (Minimum s) (Maximum s) (MinLength s) (MaxLength s) (MinItems s) (MaxItems s).
Definition set_Format (v : string) (s : Schema) : Schema :=
  MkSchema (Ref s) (s_Type s) v (Nullable s) (Properties s) (Required s) (Items s) (AdditionalProperties s)
    (Enum s) (Minimum s) (Maximum s) (MinLength s) (MaxLength s) (MinItems s) (MaxItems s).
Definition set_Enum (v : list enum_item) (s : Schema) : Schema :=
  MkSchema (Ref s) (s_Type s) (Format s) (Nullable s) (Properties s) (Required s) (Items s) (AdditionalProperties s)
    v (Minimum s) (Maximum s) (MinLength s) (MaxLength s) (MinItems s) (MaxItems s).
Definition set_bounds (mn mx : option spec_float) (ml xl mi xi : option Z) (s : Schema) : Schema :=
  MkSchema (Ref s) (s_Type s) (Format s) (Nullable s) (Properties s) (Required s) (Items s) (AdditionalProperties s)
    (Enum s) mn mx ml xl mi xi.

(** ** Struct tags *)

(** The property name, or [None] to skip the field. *)
Definition jsonName (f : gfield) : option string :=
  let tag := json_tag f in
  if String.eqb tag "-" then None
  else let before := (cut "," tag).1.1 in Some (if String.eqb before "" then f_Name f else before).

Record validateRules := MkRules { is_required : bool; rules : gmap string string; flags : gset string }.

Definition parse_rule (vr : validateRules) (part : string) : validateRules :=
  let part := trim_space part in
  if String.eqb part "" then vr
  else if String.eqb part "required" then MkRules true (rules vr) (flags vr)
  else let '(k, v, ok) := cut "=" part in
       if ok then MkRules (is_required vr) (<[k := v]> (rules vr)) (flags vr)
       else MkRules (is_required vr) (rules vr) ({[part]} ∪ flags vr).

Definition parseValidate (tag : string) : validateRules :=
  let vr := MkRules false ∅ ∅ in
  if String.eqb tag "" then vr else fold_left parse_rule (split "," tag) vr.

(** [strings.Fields]: maximal runs without white space. *)
Fixpoint fields_go (cur : string) (s : string) : list string :=
  match s with
  | EmptyString => if String.eqb cur "" then [] else [cur]
  | String c t =>
      if is_space c then (if String.eqb cur "" then [] else [cur]) ++ fields_go "" t
      else fields_go (cur +:+ String c EmptyString) t
  end.
Definition Fields (s : string) : list string := fields_go "" s.

Definition parseEnum (raw : string) (t : gtype) : list enum_item :=
  map (fun item => if isNumericKind t then match parse_float 64 item with Some f => ENumber f | None => EText item end
                   else EText item) (Fields raw).

Definition applyBound (s : Schema) (raw : string) (isMin isString isNumber isList : bool) : Schema :=
  if isNumber then
    match parse_float 64 raw with
    | Some f => if isMin then set_bounds (Some f) (Maximum s) (MinLength s) (MaxLength s) (MinItems s) (MaxItems s) s
                else set_bounds (Minimum s) (Some f) (MinLength s) (MaxLength s) (MinItems s) (MaxItems s) s
    | None => s
    end
  else if isString then
    match parse_int 64 raw with
    | Some n => if isMin then set_bounds (Minimum s) (Maximum s) (Some n) (MaxLength s) (MinItems s) (MaxItems s) s
                else set_bounds (Minimum s) (Maximum s) (MinLength s) (Some n) (MinItems s) (MaxItems s) s
    | None => s
    end
  else if isList then
    match parse_int 64 raw with
    | Some n => if isMin then set_bounds (Minimum s) (Maximum s) (MinLength s) (MaxLength s) (Some n) (MaxItems s) s
                else set_bounds (Minimum s) (Maximum s) (MinLength s) (MaxLength s) (MinItems s) (Some n) s
    | None => s
    end
  else s.

Definition applyValidate (s : Schema) (vr : validateRules) (t : gtype) : Schema :=
  let t := (deref t).2 in
  let isString := match t with GString => true | _ => false end in
  let isNumber := isNumericKind t in
  let isList := match t with GSlice _ | GArray _ => true | _ => false end in
  let s := match rules vr !! "oneof"%string with Some v => set_Enum (parseEnum v t) s | None => s end in
  let s := match rules vr !! "min"%string with Some v => applyBound s v true isString isNumber isList | None => s end in
  let s := match rules vr !! "max"%string with Some v => applyBound s v false isString isNumber isList | None => s end in
  let s := match rules vr !! "len"%string with
           | Some v => applyBound (applyBound s v true isString isNumber isList) v false isString isNumber isList
           | None => s
           end in
  let flag (k : string) := bool_decide (k ∈ flags vr) in
  if flag "email"%string then set_Format "email" s
  else if flag "url"%string || flag "uri"%string then set_Format "uri" s
  else if flag "uuid"%string || flag "uuid4"%string then set_Format "uuid" s
  else s.

(** ** The walk *)

(** [componentSchemas]. *)
Abbreviation components := (gmap string Schema).

(** A property map, built by assignments. *)
Definition set_prop (k : string) (v : Schema) (props : list (string * Schema)) : list (string * Schema) :=
  filter (fun kv => kv.1 <> k) props ++ [(k, v)].

Section Walk.
  Context (decl : decls).

(** [Kind() == reflect.Struct]: the fields, for a struct; those of [time.Time] are unexported. *)
Definition struct_fields (t : gtype) : option (list gfield) :=
  match t with GStruct fs => Some fs | GNamed id => Some (decl id).2 | GTime => Some [] | _ => None end.

(** The two recursive calls, at less fuel. *)
Section Step.
  Context (schemaFor' : gtype -> components -> option (Schema * components))
    (objectSchema' : list gfield -> components -> option (Schema * components)).

Definition structSchema (id : nat) (cs : components) : option (Schema * components) :=
  let '(name, fs) := decl id in
  let ref := ref_to name in
  match cs !! name with
  | Some _ => Some (ref, cs)
  | None =>
      '(obj, cs) ← objectSchema' fs (<[name := typed "object" ""]> cs);
      Some (ref, <[name := obj]> cs)
  end.

Definition baseSchema (t : gtype) (cs : components) : option (Schema * components) :=
  match t with
  | GTime => Some (typed "string" "date-time", cs)
  | GString => Some (typed "string" "", cs)
  | GBool => Some (typed "boolean" "", cs)
  | GInt => Some (typed "integer" "", cs)
  | GInt64 => Some (typed "integer" "int64", cs)
  | GFloat32 => Some (typed "number" "float", cs)
  | GFloat64 => Some (typed "number" "double", cs)
  | GSlice e | GArray e => '(s, cs) ← schemaFor' e cs; Some (array_of s, cs)
  | GMap v => '(s, cs) ← schemaFor' v cs; Some (map_of s, cs)
  | GStruct fs => objectSchema' fs cs
  | GNamed id => structSchema id cs
  | _ => Some (empty_schema, cs)
  end.

(** An untagged embedded struct's fields, to flatten. *)
Definition embedded (f : gfield) : option (list gfield) :=
  if anonymous f && String.eqb (json_tag f) "" then
    match (deref (f_Type f)).2 with GTime => None | t => struct_fields t end
  else None.

(** One field of [objectSchema]'s loop. *)
Definition object_field (f : gfield) (obj : list (string * Schema) * list string) (cs : components)
    : option (list (string * Schema) * list string * components) :=
  let '(props, required) := obj in
  if negb (exported f) then Some (props, required, cs)
  else
    match embedded f with
    | Some fs =>
        '(sub, cs) ← objectSchema' fs cs;
        Some (fold_left (fun props kv => set_prop kv.1 kv.2 props) (Properties sub) props, required ++ Required sub, cs)
    | None =>
        match jsonName f with
        | None => Some (props, required, cs)
        | Some name =>
            '(fs, cs) ← schemaFor' (f_Type f) cs;
            let vr := parseValidate (validate_tag f) in
            let fs := applyValidate fs vr (f_Type f) in
            Some (set_prop name fs props, (if is_required vr then required ++ [name] else required), cs)
        end
    end.

Fixpoint object_fields (fs : list gfield) (obj : list (string * Schema) * list string) (cs : components)
    : option (list (string * Schema) * list string * components) :=
  match fs with
  | [] => Some (obj, cs)
  | f :: fs => '(obj, cs) ← object_field f obj cs; object_fields fs obj cs
  end.
End Step.

(** The fuel bounds the depth of calls; [None] is a stack overflow. *)
Fixpoint schemaFor (fuel : nat) (t : gtype) (cs : components) : option (Schema * components) :=
  match fuel with
  | O => None
  | S n =>
      let '(nullable, t) := deref t in
      '(sc, cs) ← baseSchema (schemaFor n) (objectSchema n) t cs;
      Some (if nullable && String.eqb (Ref sc) "" then set_Nullable sc else sc, cs)
  end
with objectSchema (fuel : nat) (fs : list gfield) (cs : components) : option (Schema * components) :=
  match fuel with
  | O => None
  | S n => '(props, required, cs) ← object_fields (schemaFor n) (objectSchema n) fs ([], []) cs; Some (object_of props required, cs)
  end.
End Walk.

(** ** Induction over types and schemas *)

Section TypeInd.
  Context (P : gtype -> Prop).
  Context (HTime : P GTime) (HString : P GString) (HBool : P GBool) (HInt : P GInt) (HInt64 : P GInt64)
    (HFloat32 : P GFloat32) (HFloat64 : P GFloat64) (HInterface : P GInterface) (HOther : P GOther).
  Context (HSlice : forall e, P e -> P (GSlice e)) (HArray : forall e, P e -> P (GArray e))
    (HMap : forall e, P e -> P (GMap e)) (HPtr : forall e, P e -> P (GPtr e)).
  Context (HStruct : forall fs, Forall (fun f => P (f_Type f)) fs -> P (GStruct fs)) (HNamed : forall id, P (GNamed id)).

Fixpoint gtype_fields_ind (t : gtype) : P t :=
  match t with
  | GTime => HTime | GString => HString | GBool => HBool | GInt => HInt | GInt64 => HInt64
  | GFloat32 => HFloat32 | GFloat64 => HFloat64 | GInterface => HInterface | GOther => HOther
  | GSlice e => HSlice e (gtype_fields_ind e) | GArray e => HArray e (gtype_fields_ind e)
  | GMap e => HMap e (gtype_fields_ind e) | GPtr e => HPtr e (gtype_fields_ind e)
  | GStruct fs =>
      HStruct fs ((fix go fs : Forall (fun f => P (f_Type f)) fs :=
        match fs with
        | [] => Forall_nil_2 _
        | GField n x a j v t' :: fs' =>
            Forall_cons_2 (fun f => P (f_Type f)) (GField n x a j v t') fs' (gtype_fields_ind t') (go fs')
        end) fs)
  | GNamed id => HNamed id
  end.
End TypeInd.

(** A schema is well formed over the component names when each [$ref] in it names a component and
    each list of required properties names properties, which are distinct. *)
Inductive wf_schema (names : gset string) : Schema -> Prop :=
| wf_intro s :
    (Ref s = "" \/ exists n, n ∈ names /\ Ref s = "#/components/schemas/" +:+ n) ->
    (forall r, r ∈ Required s -> r ∈ (Properties s).*1) ->
    NoDup (Properties s).*1 ->
    Forall (fun kv => wf_schema names kv.2) (Properties s) ->
    (forall i, Items s = Some i -> wf_schema names i) ->
    (forall a, AdditionalProperties s = Some a -> wf_schema names a) ->
    wf_schema names s.

Definition wf_components (cs : components) : Prop := map_Forall (fun _ s => wf_schema (dom cs) s) cs.

Lemma wf_schema_mono (names names' : gset string) (Hsub : names ⊆ names') : forall s, wf_schema names s -> wf_schema names' s.
Proof.
  fix IH 2. intros s H. destruct H as [s Href Hreq Hnd Hprops Hitems Hadd].
  assert (Hprops' : Forall (fun kv => wf_schema names' kv.2) (Properties s)).
  { clear Hreq Hnd. induction Hprops as [|kv l Hkv Hl IHl]; constructor; [exact (IH _ Hkv)|exact IHl]. }
  apply wf_intro; [|exact Hreq|exact Hnd|exact Hprops'| |].
  - destruct Href as [Href|(n & Hn & E)]; [left; exact Href|right; exists n; split; [exact (Hsub n Hn)|exact E]].
  - intros i Hi. exact (IH _ (Hitems i Hi)).
  - intros a Ha. exact (IH _ (Hadd a Ha)).
Qed.

(** ** The schemas of the walk are well formed *)

Lemma wf_flat (names : gset string) (s : Schema) :
  Ref s = "" -> Properties s = [] -> Required s = [] -> Items s = None -> AdditionalProperties s = None -> wf_schema names s.
Proof.
  intros E1 E2 E3 E4 E5. constructor; rewrite ?E1, ?E2, ?E3, ?E4, ?E5; try discriminate; [by left|set_solver|constructor|constructor].
Qed.

Lemma wf_leaf (names : gset string) (ty fmt : string) : wf_schema names (typed ty fmt).
Proof. by apply wf_flat. Qed.
Lemma wf_empty (names : gset string) : wf_schema names empty_schema.
Proof. by apply wf_flat. Qed.

(** Two schemas that differ in their constraints only. *)
Definition same_shape (s s' : Schema) : Prop :=
  Ref s' = Ref s /\ Properties s' = Properties s /\ Required s' = Required s /\ Items s' = Items s /\
  AdditionalProperties s' = AdditionalProperties s.

Lemma wf_same_shape (names : gset string) (s s' : Schema) : same_shape s s' -> wf_schema names s -> wf_schema names s'.
Proof.
  intros Hsh H. revert s' Hsh. destruct H as [s H1 H2 H3 H4 H5 H6]. intros s' (E1 & E2 & E3 & E4 & E5).
  constructor; rewrite ?E1, ?E2, ?E3, ?E4, ?E5; assumption.
Qed.

#[export] Instance same_shape_preorder : PreOrder same_shape.
Proof. split; [by intros s|]. intros s s' s'' (?&?&?&?&?) (?&?&?&?&?). repeat split; congruence. Qed.

Lemma applyBound_shape (s : Schema) (raw : string) (b1 b2 b3 b4 : bool) : same_shape s (applyBound s raw b1 b2 b3 b4).
Proof. unfold applyBound, same_shape. repeat case_match; repeat split. Qed.

Lemma applyValidate_shape (s : Schema) (vr : validateRules) (t : gtype) : same_shape s (applyValidate s vr t).
Proof.
  unfold applyValidate. cbv zeta.
  set (s1 := match rules vr !! "oneof"%string with Some _ => _ | None => _ end).
  assert (H1 : same_shape s s1) by (unfold s1; case_match; done). clearbody s1.
  set (s2 := match rules vr !! "min"%string with Some _ => _ | None => _ end).
  assert (H2 : same_shape s1 s2) by (unfold s2; case_match; [apply applyBound_shape|done]). clearbody s2.
  set (s3 := match rules vr !! "max"%string with Some _ => _ | None => _ end).
  assert (H3 : same_shape s2 s3) by (unfold s3; case_match; [apply applyBound_shape|done]). clearbody s3.
  set (s4 := match rules vr !! "len"%string with Some _ => _ | None => _ end).
  assert (H4 : same_shape s3 s4)
    by (unfold s4; case_match; [etransitivity; apply applyBound_shape|done]). clearbody s4.
  etransitivity; [exact H1|]. etransitivity; [exact H2|]. etransitivity; [exact H3|]. etransitivity; [exact H4|].
  repeat case_match; done.
Qed.

(** A property map and the required list of an object under construction. *)
Definition wf_object (names : gset string) (obj : list (string * Schema) * list string) : Prop :=
  (forall r, r ∈ obj.2 -> r ∈ obj.1.*1) /\ NoDup obj.1.*1 /\ Forall (fun kv => wf_schema names kv.2) obj.1.

Lemma wf_object_mono (names names' : gset string) (obj : list (string * Schema) * list string) :
  names ⊆ names' -> wf_object names obj -> wf_object names' obj.
Proof.
  intros Hs (H1 & H2 & H3). split_and!; [done..|]. eapply Forall_impl; [exact H3|]. intros. by eapply wf_schema_mono.
Qed.

Lemma wf_object_of (names : gset string) (props : list (string * Schema)) (required : list string) :
  wf_object names (props, required) -> wf_schema names (object_of props required).
Proof. intros (H1 & H2 & H3). constructor; simpl in *; [by left|done..]. Qed.

Lemma wf_object_inv (names : gset string) (s : Schema) : wf_schema names s -> wf_object names (Properties s, Required s).
Proof. by intros []. Qed.

Lemma set_prop_keys (k k' : string) (v : Schema) (props : list (string * Schema)) :
  k' ∈ (set_prop k v props).*1 <-> k' = k \/ k' ∈ props.*1.
Proof.
  unfold set_prop. rewrite fmap_app, elem_of_app. cbn [fmap list_fmap fst]. rewrite list_elem_of_singleton.
  rewrite !list_elem_of_fmap. split.
  - intros [([k2 v2] & E & Hin)|E]; [right|by left]. apply list_elem_of_filter in Hin as [_ Hin]. eauto.
  - intros [->|([k2 v2] & E & Hin)]; [by right|]. destruct (decide (k2 = k)) as [->|Hne]; [by right; simpl in *|left].
    exists (k2, v2). split; [done|]. apply list_elem_of_filter. done.
Qed.

Lemma set_prop_wf (names : gset string) (k : string) (v : Schema) (props : list (string * Schema)) (required : list string) :
  wf_schema names v -> wf_object names (props, required) -> wf_object names (set_prop k v props, required).
Proof.
  intros Hv (H1 & H2 & H3). simpl in *. split_and!; simpl.
  - intros r Hr. apply set_prop_keys. right. by apply H1.
  - unfold set_prop. rewrite fmap_app. apply NoDup_app. split_and!.
    + clear H1 H3. induction props as [|[k2 v2] props IH]; [constructor|].
      rewrite fmap_cons in H2. apply NoDup_cons in H2 as [Hn H2]. rewrite filter_cons. destruct (decide _); [|by apply IH].
      rewrite fmap_cons. constructor; [|by apply IH].
      rewrite list_elem_of_fmap. intros ([k3 v3] & E & Hin). apply list_elem_of_filter in Hin as [_ Hin].
      apply Hn. rewrite list_elem_of_fmap. eauto.
    + intros k2 Hin. cbn [fmap list_fmap fst]. rewrite list_elem_of_singleton. intros ->.
      apply list_elem_of_fmap in Hin as ([k3 v3] & -> & Hin). by apply list_elem_of_filter in Hin as [Hne _].
    + cbn. apply NoDup_singleton.
  - unfold set_prop. apply Forall_app. split; [|by constructor].
    apply Forall_forall. intros kv Hin. apply list_elem_of_filter in Hin as [_ Hin]. by eapply Forall_forall in H3.
Qed.

(** Copying a flattened struct's properties. *)
Lemma merge_props_wf (names : gset string) (sub props : list (string * Schema)) (required : list string) :
  Forall (fun kv => wf_schema names kv.2) sub -> wf_object names (props, required) ->
  let merged := fold_left (fun props kv => set_prop kv.1 kv.2 props) sub props in
  wf_object names (merged, required) /\ (forall k, k ∈ merged.*1 <-> k ∈ sub.*1 \/ k ∈ props.*1).
Proof.
  intros Hsub. revert props. induction Hsub as [|[k v] sub Hv Hsub IH]; intros props Hobj; cbn [fold_left fst snd].
  - split; [done|]. intros k. set_solver.
  - destruct (IH (set_prop k v props)) as [H1 H2]; [by apply set_prop_wf|]. split; [done|].
    intros k'. rewrite H2, set_prop_keys. rewrite fmap_cons, elem_of_cons. cbn [fst]. tauto.
Qed.

Section WalkFacts.
  Context (decl : decls).

(** What one call of the walk promises: it only adds components, and keeps them well formed. *)
Definition walk_ok (cs : components) (r : option (Schema * components)) : Prop :=
  match r with
  | Some (s, cs') => cs ⊆ cs' /\ (wf_components cs -> wf_components cs' /\ wf_schema (dom cs') s)
  | None => True
  end.

Definition object_ok (cs : components) (s : Schema) (cs' : components) : Prop :=
  cs ⊆ cs' /\ (wf_components cs -> wf_components cs' /\ wf_schema (dom cs') s).

Lemma wf_components_insert (cs : components) (name : string) (s : Schema) :
  wf_components cs -> wf_schema (dom (<[name := s]> cs)) s -> wf_components (<[name := s]> cs).
Proof.
  intros Hcs Hs k v Hk. apply lookup_insert_Some in Hk as [[-> ->]|[_ Hk]]; [done|].
  eapply wf_schema_mono; [|by eapply Hcs]. rewrite dom_insert. set_solver.
Qed.

Lemma wf_ref_to (names : gset string) (name : string) : name ∈ names -> wf_schema names (ref_to name).
Proof. intros Hin. constructor; cbn; [right; by exists name|set_solver|constructor|constructor|done|done]. Qed.

Section Step.
  Context (sf : gtype -> components -> option (Schema * components))
    (os : list gfield -> components -> option (Schema * components)).
  Context (Hsf : forall t cs, walk_ok cs (sf t cs)) (Hos : forall fs cs, walk_ok cs (os fs cs)).

Lemma structSchema_ok (id : nat) (cs : components) : walk_ok cs (structSchema decl os id cs).
Proof.
  unfold structSchema. destruct (decl id) as [name fs]. destruct (cs !! name) as [s0|] eqn:En.
  { split; [done|]. intros Hcs. split; [done|]. apply wf_ref_to. by apply elem_of_dom_2 in En. }
  specialize (Hos fs (<[name := typed "object" ""]> cs)).
  destruct (os fs _) as [[obj cs']|]; [|done]. cbn -[insert]. destruct Hos as [Hsub Hwf]. split.
  - intros k. specialize (Hsub k). destruct (decide (k = name)) as [->|Hne].
    + rewrite En. by rewrite lookup_insert_eq.
    + rewrite !lookup_insert_ne in * by done. exact Hsub.
  - intros Hcs. destruct Hwf as [Hcs' Hobj]; [apply wf_components_insert; [done|apply wf_leaf]|].
    assert (Hname : name ∈ dom cs').
    { apply subseteq_dom in Hsub. apply Hsub. rewrite dom_insert. set_solver. }
    split.
    + apply wf_components_insert; [done|]. eapply wf_schema_mono; [|exact Hobj]. rewrite dom_insert. set_solver.
    + apply wf_ref_to. rewrite dom_insert. set_solver.
Qed.

Lemma wf_array_of (names : gset string) (s : Schema) : wf_schema names s -> wf_schema names (array_of s).
Proof. intros Hs. constructor; cbn; [by left|set_solver|constructor|constructor|by intros ? [= <-]|done]. Qed.
Lemma wf_map_of (names : gset string) (s : Schema) : wf_schema names s -> wf_schema names (map_of s).
Proof. intros Hs. constructor; cbn; [by left|set_solver|constructor|constructor|done|by intros ? [= <-]]. Qed.

Lemma baseSchema_ok (t : gtype) (cs : components) : walk_ok cs (baseSchema decl sf os t cs).
Proof.
  assert (Hleaf : forall s, (forall names, wf_schema names s) -> walk_ok cs (Some (s, cs))) by (intros s Hs; split; [done|]; intros; done).
  assert (Hwrap : forall e (w : Schema -> Schema), (forall names s, wf_schema names s -> wf_schema names (w s)) ->
    walk_ok cs ('(s, cs) ← sf e cs; Some (w s, cs))).
  { intros e w Hw. specialize (Hsf e cs). destruct (sf e cs) as [[s cs']|]; [|done]. cbn. destruct Hsf as [H1 H2].
    split; [done|]. intros Hcs. destruct (H2 Hcs) as [? ?]. split; [done|by apply Hw]. }
  destruct t; cbn [baseSchema]; try (apply Hleaf; intros; apply wf_leaf); try (apply Hleaf; intros; apply wf_empty).
  - apply Hwrap, wf_array_of.
  - apply Hwrap, wf_array_of.
  - apply Hwrap, wf_map_of.
  - apply Hos.
  - apply structSchema_ok.
Qed.

Lemma object_field_ok (f : gfield) (obj obj' : list (string * Schema) * list string) (cs cs' : components) :
  object_field decl sf os f obj cs = Some (obj', cs') ->
  cs ⊆ cs' /\ (wf_components cs -> wf_object (dom cs) obj -> wf_components cs' /\ wf_object (dom cs') obj').
Proof.
  unfold object_field. destruct obj as [props required]. destruct (exported f); cbn [negb]; [|by intros [= <- <-]].
  destruct (embedded decl f) as [fs|].
  - specialize (Hos fs cs). destruct (os fs cs) as [[sub cs2]|]; [|done]. cbn. intros [= <- <-].
    destruct Hos as [Hsub Hwf]. split; [done|]. intros Hcs Hobj. destruct (Hwf Hcs) as [Hcs' Hs]. split; [done|].
    apply subseteq_dom in Hsub. apply (wf_object_mono _ _ _ Hsub) in Hobj.
    destruct (wf_object_inv _ _ Hs) as (R1 & R2 & R3). cbn in R1, R2, R3.
    destruct (merge_props_wf _ _ _ _ R3 Hobj) as [Hm Hkeys]. destruct Hm as (M1 & M2 & M3).
    split_and!; cbn; [|done..]. intros r. rewrite elem_of_app. rewrite Hkeys. intros [Hr|Hr]; [right; by apply Hobj|left; by apply R1].
  - destruct (jsonName f) as [name|]; [|by intros [= <- <-]].
    specialize (Hsf (f_Type f) cs). destruct (sf (f_Type f) cs) as [[s cs2]|]; [|done]. cbn. intros [= <- <-].
    destruct Hsf as [Hsub Hwf]. split; [done|]. intros Hcs Hobj. destruct (Hwf Hcs) as [Hcs' Hs]. split; [done|].
    apply subseteq_dom in Hsub. apply (wf_object_mono _ _ _ Hsub) in Hobj.
    eapply (set_prop_wf _ name) in Hobj as (S1 & S2 & S3);
      [|eapply wf_same_shape; [apply (applyValidate_shape _ (parseValidate (validate_tag f)) (f_Type f))|exact Hs]].
    destruct (is_required _); [|done]. split_and!; cbn; [|done..]. intros r. rewrite elem_of_app, list_elem_of_singleton.
    intros [Hr| ->]; [by apply S1|]. apply set_prop_keys. by left.
Qed.

Lemma object_fields_ok (fs : list gfield) (obj obj' : list (string * Schema) * list string) (cs cs' : components) :
  object_fields decl sf os fs obj cs = Some (obj', cs') ->
  cs ⊆ cs' /\ (wf_components cs -> wf_object (dom cs) obj -> wf_components cs' /\ wf_object (dom cs') obj').
Proof.
  revert obj cs. induction fs as [|f fs IH]; intros obj cs; cbn [object_fields]; [by intros [= <- <-]|].
  destruct (object_field decl sf os f obj cs) as [[obj1 cs1]|] eqn:E; [|done]. cbn. intros H.
  apply object_field_ok in E as [E1 E2]. apply IH in H as [H1 H2]. split; [by etransitivity|].
  intros Hcs Hobj. destruct (E2 Hcs Hobj). by apply H2.
Qed.
End Step.

Lemma walk_invariant (n : nat) :
  (forall t cs, walk_ok cs (schemaFor decl n t cs)) /\ (forall fs cs, walk_ok cs (objectSchema decl n fs cs)).
Proof.
  induction n as [|n [IHs IHo]]; [done|]. split.
  - intros t cs. cbn [schemaFor]. destruct (deref t) as [nullable t'].
    pose proof (baseSchema_ok _ _ IHs IHo t' cs) as H. destruct (baseSchema _ _ _ t' cs) as [[s cs']|]; [|done].
    destruct H as [H1 H2]. cbn. split; [done|]. intros Hcs. destruct (H2 Hcs) as [Hcs' Hs]. split; [done|].
    case_match; [|done]. by eapply wf_same_shape; [|exact Hs].
  - intros fs cs. cbn [objectSchema].
    destruct (object_fields decl _ _ fs _ cs) as [[[props required] cs2]|] eqn:E; [|done].
    apply object_fields_ok in E as [E1 E2]; [|done..]. cbn. split; [done|]. intros Hcs.
    destruct (E2 Hcs) as [Hcs' Hobj]; [split_and!; cbn; [set_solver|constructor|constructor]|]. split; [done|by apply wf_object_of].
Qed.


(** ** The walk ends *)

Lemma bind_mono {A B} (f g : A -> option B) (o o' : option A) (b : B) :
  (forall a, o = Some a -> o' = Some a) -> (forall a, f a = Some b -> g a = Some b) -> (o ≫= f) = Some b -> (o' ≫= g) = Some b.
Proof. intros Ho Hf. destruct o as [a|]; [|done]. rewrite (Ho a eq_refl). apply Hf. Qed.

(** More fuel below gives the same result above. *)
Section Mono.
  Context (sf sf' : gtype -> components -> option (Schema * components))
    (os os' : list gfield -> components -> option (Schema * components)).
  Context (Hsf : forall t cs x, sf t cs = Some x -> sf' t cs = Some x) (Hos : forall fs cs x, os fs cs = Some x -> os' fs cs = Some x).

Lemma baseSchema_mono (t : gtype) (cs : components) (x : Schema * components) :
  baseSchema decl sf os t cs = Some x -> baseSchema decl sf' os' t cs = Some x.
Proof.
  destruct t; cbn [baseSchema]; try done; try (by apply bind_mono; [apply Hsf|]); [apply Hos|].
  unfold structSchema. destruct (decl id) as [name fs]. case_match; [done|]. apply bind_mono; [apply Hos|done].
Qed.

Lemma object_field_mono (f : gfield) obj cs x :
  object_field decl sf os f obj cs = Some x -> object_field decl sf' os' f obj cs = Some x.
Proof.
  unfold object_field. destruct obj as [props required]. case_match; [done|]. case_match; [apply bind_mono; [apply Hos|done]|].
  case_match; [apply bind_mono; [apply Hsf|done]|done].
Qed.

Lemma object_fields_mono (fs : list gfield) obj cs x :
  object_fields decl sf os fs obj cs = Some x -> object_fields decl sf' os' fs obj cs = Some x.
Proof.
  revert obj cs. induction fs as [|f fs IH]; intros obj cs; cbn [object_fields]; [done|].
  apply bind_mono; [apply object_field_mono|]. intros [obj' cs']. apply IH.
Qed.
End Mono.

Lemma walk_fuel_step (n : nat) :
  (forall t cs x, schemaFor decl n t cs = Some x -> schemaFor decl (S n) t cs = Some x) /\
  (forall fs cs x, objectSchema decl n fs cs = Some x -> objectSchema decl (S n) fs cs = Some x).
Proof.
  induction n as [|n [IHs IHo]]; [done|]. split.
  - intros t cs x. change (schemaFor decl (S n) t cs) with (let '(nullable, t) := deref t in
      '(sc, cs) ← baseSchema decl (schemaFor decl n) (objectSchema decl n) t cs;
      Some (if nullable && String.eqb (Ref sc) "" then set_Nullable sc else sc, cs)).
    remember (S n) as m. cbn [schemaFor]. destruct (deref t) as [b t'].
    apply bind_mono; [intros a; by apply baseSchema_mono|done].
  - intros fs cs x. change (objectSchema decl (S n) fs cs) with
      ('(props, required, cs) ← object_fields decl (schemaFor decl n) (objectSchema decl n) fs ([], []) cs;
       Some (object_of props required, cs)).
    remember (S n) as m. cbn [objectSchema]. apply bind_mono; [intros a; by apply object_fields_mono|done].
Qed.

Lemma schemaFor_fuel (n m : nat) (t : gtype) cs x : (n <= m)%nat -> schemaFor decl n t cs = Some x -> schemaFor decl m t cs = Some x.
Proof. intros Hle. induction Hle as [|m Hle IH]; [done|]. intros H. by apply (walk_fuel_step m), IH. Qed.
Lemma objectSchema_fuel (n m : nat) fs cs x : (n <= m)%nat -> objectSchema decl n fs cs = Some x -> objectSchema decl m fs cs = Some x.
Proof. intros Hle. induction Hle as [|m Hle IH]; [done|]. intros H. by apply (walk_fuel_step m), IH. Qed.

(** The named structs a type mentions. *)
Fixpoint mentions (t : gtype) : list nat :=
  match t with
  | GSlice e | GArray e | GMap e | GPtr e => mentions e
  | GStruct fs => flat_map (fun '(GField _ _ _ _ _ t) => mentions t) fs
  | GNamed id => [id]
  | _ => []
  end.
Definition mentions_fields (fs : list gfield) : list nat := mentions (GStruct fs).

(** The named structs whose fields the walk copies into the object it builds for a type or a list of
    fields, without a component in between. *)
Fixpoint inlined (t : gtype) : list nat :=
  match t with
  | GSlice e | GArray e | GMap e | GPtr e => inlined e
  | GStruct fs =>
      flat_map (fun '(GField _ e a j _ t) =>
        if negb e then []
        else if a && String.eqb j "" then match (deref t).2 with GNamed id => [id] | _ => inlined t end
        else inlined t) fs
  | _ => []
  end.
Definition inlined_fields (fs : list gfield) : list nat := inlined (GStruct fs).

(** The finite program: every struct mentioned is one of [ids], and embedding goes down a rank. *)
Record program (ids : list nat) (rank : nat -> nat) : Prop := {
  prog_closed : forall id, id ∈ ids -> mentions_fields (decl id).2 ⊆ ids;
  prog_embedding : forall id id', id ∈ ids -> id' ∈ inlined_fields (decl id).2 -> (rank id' < rank id)%nat }.

Section Terminates.
  Context (ids : list nat) (rank : nat -> nat).

(** The structs that have no component yet. *)
Definition pending (cs : components) : nat := length (filter (fun id => (decl id).1 ∉ dom cs) ids).

Lemma filter_length_le (P Q : nat -> Prop) `{!forall x, Decision (P x), !forall x, Decision (Q x)} (l : list nat) :
  (forall x, P x -> Q x) -> (length (filter P l) <= length (filter Q l))%nat.
Proof.
  intros Hpq. induction l as [|x l IH]; [done|]. rewrite !filter_cons.
  destruct (decide (P x)) as [Hp|Hp]; [rewrite decide_True by auto; csimpl; lia|]. destruct (decide (Q x)); csimpl; lia.
Qed.

Lemma filter_length_lt (P Q : nat -> Prop) `{!forall x, Decision (P x), !forall x, Decision (Q x)} (l : list nat) (y : nat) :
  (forall x, P x -> Q x) -> y ∈ l -> Q y -> ~ P y -> (length (filter P l) < length (filter Q l))%nat.
Proof.
  intros Hpq Hy HQ HP. induction l as [|x l IH]; [by apply not_elem_of_nil in Hy|]. rewrite !filter_cons.
  pose proof (filter_length_le P Q l Hpq) as Hle. apply elem_of_cons in Hy as [->|Hy].
  - rewrite (decide_False (P := P x)) by done. rewrite (decide_True (P := Q x)) by done. csimpl. lia.
  - specialize (IH Hy). destruct (decide (P x)) as [Hp|Hp]; [rewrite decide_True by auto; csimpl; lia|].
    destruct (decide (Q x)); csimpl; lia.
Qed.

Lemma pending_le (cs cs' : components) : cs ⊆ cs' -> (pending cs' <= pending cs)%nat.
Proof. intros Hs%subseteq_dom. apply filter_length_le. set_solver. Qed.

Lemma pending_insert (id : nat) (s : Schema) (cs : components) :
  id ∈ ids -> cs !! (decl id).1 = None -> (pending (<[(decl id).1 := s]> cs) < pending cs)%nat.
Proof.
  intros Hid Hn%not_elem_of_dom. apply (filter_length_lt _ _ _ id); [|done|done|].
  - intros x. rewrite dom_insert. set_solver.
  - rewrite dom_insert. set_solver.
Qed.

Definition base_ends (t : gtype) (cs : components) : Prop :=
  exists n x, baseSchema decl (schemaFor decl n) (objectSchema decl n) t cs = Some x.
Definition object_ends (fs : list gfield) (cs : components) : Prop := exists n x, objectSchema decl n fs cs = Some x.

Lemma schemaFor_ends (t : gtype) (cs : components) :
  base_ends (deref t).2 cs -> exists n x, schemaFor decl n t cs = Some x.
Proof.
  intros (n & x & E). exists (S n). cbn [schemaFor]. destruct (deref t) as [b t']. cbn [snd] in E. rewrite E.
  destruct x as [sc cs']. by eexists.
Qed.

Lemma object_fields_ends (u : nat) (fs : list gfield) :
  Forall (fun f => forall obj cs, (pending cs <= u)%nat ->
    exists n x, object_field decl (schemaFor decl n) (objectSchema decl n) f obj cs = Some x) fs ->
  forall obj cs, (pending cs <= u)%nat ->
    exists n x, object_fields decl (schemaFor decl n) (objectSchema decl n) fs obj cs = Some x.
Proof.
  induction 1 as [|f fs Hf Hfs IH]; intros obj cs Hu; cbn [object_fields]; [by exists O; eexists|].
  destruct (Hf obj cs Hu) as (n & [obj1 cs1] & E1).
  pose proof (object_field_ok _ _ (proj1 (walk_invariant n)) (proj2 (walk_invariant n)) _ _ _ _ _ E1) as [Hsub _].
  apply pending_le in Hsub. destruct (IH obj1 cs1) as (m & x & E2); [lia|]. exists (n `max` m)%nat, x.
  rewrite (object_field_mono (schemaFor decl n) (schemaFor decl (n `max` m)) (objectSchema decl n) (objectSchema decl (n `max` m))
    ltac:(intros; eapply schemaFor_fuel; [|eassumption]; lia) ltac:(intros; eapply objectSchema_fuel; [|eassumption]; lia) _ _ _ _ E1).
  cbn. revert E2. apply object_fields_mono; intros *; [apply schemaFor_fuel|apply objectSchema_fuel]; lia.
Qed.

Lemma objectSchema_ends (u : nat) (fs : list gfield) (cs : components) :
  Forall (fun f => forall obj cs, (pending cs <= u)%nat ->
    exists n x, object_field decl (schemaFor decl n) (objectSchema decl n) f obj cs = Some x) fs ->
  (pending cs <= u)%nat -> object_ends fs cs.
Proof.
  intros Hfs Hu. destruct (object_fields_ends u fs Hfs ([], []) cs Hu) as (n & [[props required] cs'] & E).
  exists (S n). cbn [objectSchema]. rewrite E. by eexists.
Qed.

(** A type whose inlined structs are below a rank. *)
Definition below (r : nat) (t : gtype) : Prop := mentions t ⊆ ids /\ Forall (fun id => (rank id < r)%nat) (inlined t).

Lemma below_fields (r : nat) (f : gfield) (fs : list gfield) :
  below r (GStruct (f :: fs)) -> below r (GStruct [f]) /\ below r (GStruct fs).
Proof.
  intros [H1 H2]. unfold below. cbn [mentions inlined flat_map] in *. apply Forall_app in H2 as [H2 H3].
  rewrite !app_nil_r. split; split; try done; intros x Hx; apply H1, elem_of_app; auto.
Qed.

Section Core.
  Context (r u : nat).
  Context (Hnext : forall id cs, id ∈ ids -> (pending cs < u)%nat -> object_ends (decl id).2 cs)
    (Hlower : forall id cs, id ∈ ids -> (rank id < r)%nat -> (pending cs <= u)%nat -> object_ends (decl id).2 cs).

Definition type_ends (t : gtype) : Prop := below r t -> forall cs, (pending cs <= u)%nat -> base_ends (deref t).2 cs.

Lemma structSchema_ends (id : nat) (cs : components) : id ∈ ids -> (pending cs <= u)%nat -> base_ends (GNamed id) cs.
Proof.
  intros Hid Hu. unfold base_ends. cbn [baseSchema]. unfold structSchema. destruct (decl id) as [name fs] eqn:Ed.
  destruct (cs !! name) eqn:En; [by exists O; eexists|].
  destruct (Hnext id (<[name := typed "object" ""]> cs) Hid) as (n & [obj cs'] & E).
  { pose proof (pending_insert id (typed "object" "") cs Hid) as H. rewrite Ed in H. specialize (H En). cbn [fst] in H. lia. }
  rewrite Ed in E. cbn [snd] in E. exists n. rewrite E. by eexists.
Qed.

Lemma field_ends (f : gfield) : type_ends (f_Type f) -> below r (GStruct [f]) ->
  forall obj cs, (pending cs <= u)%nat ->
    exists n x, object_field decl (schemaFor decl n) (objectSchema decl n) f obj cs = Some x.
Proof.
  destruct f as [name e a j v t]. cbn [f_Type]. unfold type_ends, below. cbn [mentions inlined flat_map]. rewrite !app_nil_r.
  intros Ht [Hm Hi] [props required] cs Hu. unfold object_field. cbn [exported]. destruct e; cbn [negb] in *; [|by exists O; eexists].
  destruct (embedded decl (GField name true a j v t)) as [fs|] eqn:Ee.
  - unfold embedded in Ee. cbn [anonymous json_tag f_Type] in Ee. destruct (a && String.eqb j ""); [|done].
    assert (He : object_ends fs cs).
    { destruct (deref t).2 as [ | | | | | | | | | | | | |fs'|id] eqn:Et; try done; injection Ee as <-.
      - destruct (Ht (conj Hm Hi) cs Hu) as (n & x & E). by exists n, x.
      - apply Forall_inv in Hi. apply Hlower; [|done..]. apply Hm. clear -Et.
        induction t; cbn in *; try discriminate; [by apply IHt|]. injection Et as ->. set_solver. }
    destruct He as (n & [s cs'] & E). exists n. rewrite E. by eexists.
  - destruct (jsonName _); [|by exists O; eexists]. cbn [f_Type].
    assert (Hb : base_ends (deref t).2 cs).
    { destruct (a && String.eqb j ""); [|by apply Ht].
      destruct (deref t).2 as [ | | | | | | | | | | | | |fs'|id] eqn:Et; try (by apply Ht). apply structSchema_ends; [|done]. apply Hm. clear -Et.
      induction t; cbn in *; try discriminate; [by apply IHt|]. injection Et as ->. set_solver. }
    apply schemaFor_ends in Hb as (n & [sc cs'] & E). exists n. rewrite E. by eexists.
Qed.

Lemma type_ends_all (t : gtype) : type_ends t.
Proof.
  induction t using gtype_fields_ind; intros Hb cs Hu; try (by exists O; eexists); cbn [deref snd].
  1-3: destruct (schemaFor_ends t cs) as (n & [s cs'] & E); [by apply IHt|]; exists n; cbn [baseSchema]; rewrite E; by eexists.
  - by apply IHt.
  - assert (Hf : object_ends fs cs); [|destruct Hf as (n & x & E); by exists n, x]. apply (objectSchema_ends u); [|done].
    clear cs Hu. induction H as [|f fs Hf Hfs IH]; [constructor|]. apply below_fields in Hb as [Hb1 Hb2].
    constructor; [by apply field_ends|by apply IH].
  - apply structSchema_ends; [|done]. apply Hb. cbn. set_solver.
Qed.
End Core.

Lemma object_ends_below (r u : nat) (fs : list gfield) (cs : components) :
  (forall id cs, id ∈ ids -> (pending cs < u)%nat -> object_ends (decl id).2 cs) ->
  (forall id cs, id ∈ ids -> (rank id < r)%nat -> (pending cs <= u)%nat -> object_ends (decl id).2 cs) ->
  below r (GStruct fs) -> (pending cs <= u)%nat -> object_ends fs cs.
Proof. intros Hnext Hlower Hb Hu. exact (type_ends_all r u Hnext Hlower (GStruct fs) Hb cs Hu). Qed.

Lemma struct_ends (Hprog : program ids rank) (id : nat) (cs : components) : id ∈ ids -> object_ends (decl id).2 cs.
Proof.
  intros Hid. enough (H : forall u id cs, id ∈ ids -> (pending cs < u)%nat -> object_ends (decl id).2 cs) by (eapply (H (S (pending cs))); [done|lia]).
  clear id cs Hid. intros u. induction u as [|u IHu]; intros id cs Hid Hu; [lia|].
  remember (rank id) as r eqn:Er. revert id cs Hid Hu Er. induction (lt_wf r) as [r _ IHr]. intros id cs Hid Hu ->.
  apply (object_ends_below (rank id) u); [done| | |lia].
  - intros id' cs' Hid' Hr Hu'. eapply IHr; [exact Hr|done|lia|done].
  - split; [by apply (prog_closed _ _ Hprog)|]. apply Forall_forall. intros id' Hin. by apply (prog_embedding _ _ Hprog).
Qed.

Lemma list_rank_bound (l : list nat) : exists r, Forall (fun id => (rank id < r)%nat) l.
Proof.
  induction l as [|x l [r IH]]; [by exists O|]. exists (S (rank x) `max` r)%nat. constructor; [lia|].
  eapply Forall_impl; [exact IH|]. simpl. lia.
Qed.

Lemma schemaFor_terminates (Hprog : program ids rank) (t : gtype) (cs : components) :
  mentions t ⊆ ids -> exists n x, schemaFor decl n t cs = Some x.
Proof.
  intros Hm. apply schemaFor_ends. destruct (list_rank_bound (inlined t)) as [r Hr].
  apply (type_ends_all r (pending cs)); [| |done|done].
  - intros id cs' Hid _. by apply struct_ends.
  - intros id cs' Hid _ _. by apply struct_ends.
Qed.
End Terminates.
End WalkFacts.

(** ** Claims *)

(** (C27) Building a schema ends: in a program of finitely many named structs whose embedding goes down a
    rank, there is a depth from which the walk over any type of the program returns, always the same
    schema and component table, types recursive through named structs included, since a struct's name
    is reserved before its fields are walked. (A type recursive through slices, maps or pointers alone
    is not among the types of the model, and on it the code's walk overflows the stack:
    [defined_map_overflows].) *)
Theorem schemaFor_total (decl : decls) (ids : list nat) (rank : nat -> nat) (t : gtype) (cs : components)
    (Hprog : program decl ids rank) (Ht : mentions t ⊆ ids) :
  exists n s cs', forall m, (n <= m)%nat -> schemaFor decl m t cs = Some (s, cs').
Proof.
  destruct (schemaFor_terminates decl ids rank Hprog t cs Ht) as (n & [s cs'] & E). exists n, s, cs'.
  intros m Hm. by eapply schemaFor_fuel.
Qed.

(** What the code does on [type Tree map[string]Tree]: unfolded as often as there is depth, whatever it is
    unfolded to, it is never described. *)
Lemma defined_map_overflows (decl : decls) (depth : nat) (t : gtype) (cs : components) : schemaFor decl depth (Nat.iter depth GMap t) cs = None.
Proof. induction depth as [|n IH]; [done|]. cbn [Nat.iter nat_rect schemaFor deref baseSchema]. change (nat_rect _ t (fun _ => GMap) n) with (Nat.iter n GMap t). by rewrite IH. Qed.

(** A list node that points to itself, with embedded base fields. *)
Definition sample_decls : decls := fun id =>
  match id with
  | 0%nat => ("Node"%string, [GField "Base" true true "" "" (GNamed 1); GField "Next" true false "next,omitempty" "" (GPtr (GNamed 0));
                              GField "Tags" true false "tags" "required,max=3" (GSlice GString)])
  | _ => ("Base"%string, [GField "ID" true false "id" "required" GInt64])
  end.

Lemma sample_program : program sample_decls [0; 1]%nat (fun id => match id with 0%nat => 1%nat | _ => 0%nat end).
Proof.
  split.
  - intros [|[|id]] _; cbn; set_solver.
  - intros [|[|id]] id' _ H; cbn in *; [|by apply not_elem_of_nil in H..].
    apply list_elem_of_singleton in H as ->. lia.
Qed.

Lemma schemaFor_total_witness : program sample_decls [0; 1]%nat (fun id => match id with 0%nat => 1%nat | _ => 0%nat end) /\
  exists n s cs', forall m, (n <= m)%nat -> schemaFor sample_decls m (GSlice (GNamed 0)) ∅ = Some (s, cs').
Proof.
  split; [exact sample_program|]. apply (schemaFor_total _ _ _ (GSlice (GNamed 0)) ∅ sample_program). cbn. set_solver.
Defined.

(** Every call of the walk leaves the table well formed and returns a well-formed schema: it only adds
    components, and every [$ref] in the result and in every component names a component, so no
    reference dangles; required names are names of properties, and property names are distinct. *)
Theorem schemaFor_wf (decl : decls) (n : nat) (t : gtype) (cs cs' : components) (s : Schema)
    (Hcs : wf_components cs) (Hrun : schemaFor decl n t cs = Some (s, cs')) :
  cs ⊆ cs' /\ wf_components cs' /\ wf_schema (dom cs') s.
Proof.
  pose proof (proj1 (walk_invariant decl n) t cs) as H. rewrite Hrun in H. destruct H as [H1 H2]. split; [done|by apply H2].
Qed.

Definition sample_table : components := match schemaFor sample_decls 5 (GNamed 0) ∅ with Some (_, cs) => cs | None => ∅ end.

Lemma schemaFor_wf_witness : wf_components ∅ /\ schemaFor sample_decls 5 (GNamed 0) ∅ = Some (ref_to "Node", sample_table) /\
  wf_components sample_table.
Proof.
  assert (H0 : wf_components ∅) by apply map_Forall_empty.
  assert (H1 : schemaFor sample_decls 5 (GNamed 0) ∅ = Some (ref_to "Node", sample_table)) by (vm_compute; reflexivity).
  split; [exact H0|split; [exact H1|]]. exact (proj1 (proj2 (schemaFor_wf _ _ _ _ _ _ H0 H1))).
Defined.

(** ** What modelling showed *)

(** A struct that embeds a pointer to itself, which Go accepts, is walked without end. *)
Definition self_embedding : decls := fun _ => ("Node"%string, [GField "Node" true true "" "" (GPtr (GNamed 0))]).

Lemma self_embedding_overflows (n : nat) (cs : components) : objectSchema self_embedding n (self_embedding 0%nat).2 cs = None.
Proof. revert cs. induction n as [|n IH]; intros cs; [done|]. cbn in *. by rewrite IH. Qed.

(** Two structs of the same name, from different packages, share the component of the first. *)
Lemma same_name_shares (decl : decls) (n : nat) (id : nat) (cs : components) (s : Schema) :
  cs !! (decl id).1 = Some s -> schemaFor decl (S n) (GNamed id) cs = Some (ref_to (decl id).1, cs).
Proof. intros E. cbn. unfold structSchema. destruct (decl id) as [name fs]. cbn in *. by rewrite E. Qed.

(** Rules behind [dive] describe the elements, and end up on the list. *)
Example dive_rules_on_list :
  (fun s => (Enum s, MaxItems s)) (applyValidate (array_of (typed "string" "")) (parseValidate "dive,oneof=a b,max=3") (GSlice GString))
  = ([EText "a"; EText "b"], Some 3).
Proof. vm_compute. reflexivity. Qed.

(** A struct embedded after a field of the same property name overrides it; in JSON the outer field wins. *)
Example embedded_overrides :
  option_map (fun r => (fun s => s_Type s) <$> (list_to_map (Properties r.1) : gmap string Schema) !! "id"%string)
    (objectSchema sample_decls 5 [GField "ID" true false "id" "" GString; GField "Base" true true "" "" (GNamed 1)] ∅)
  = Some (Some "integer"%string).
Proof. vm_compute. reflexivity. Qed.

(** A slice of bytes is described as an array of integers; [encoding/json] writes a base64 string. *)
Example bytes_are_integers : option_map fst (schemaFor sample_decls 5 (GSlice GInt) ∅) = Some (array_of (typed "integer" "")).
Proof. vm_compute. reflexivity. Qed.
