(* ===== verification/OpenApiExact.v ===== *)
(** * The schema walk against a reference definition

    [schemaRef] and [objectRef] give the schema of a type without a component table, and [reachable]
    says which structs a list of root types leads to. The walk of OpenApiSchema computes exactly
    these: its result is the reference schema, and its table holds the reference object of each
    reachable struct and nothing else, whatever the order of the calls. *)

From S2P Require Import Prelude GoStrings OpenApiSchema.
Open Scope Z_scope.

Section Reference.
  Context (decl : decls).

(** ** The reference *)

Section RefStep.
  Context (schemaRef' : gtype -> option Schema) (objectRef' : list gfield -> option Schema).

Definition base_ref (t : gtype) : option Schema :=
  match t with
  | GTime => Some (typed "string" "date-time")
  | GString => Some (typed "string" "")
  | GBool => Some (typed "boolean" "")
  | GInt => Some (typed "integer" "")
  | GInt64 => Some (typed "integer" "int64")
  | GFloat32 => Some (typed "number" "float")
  | GFloat64 => Some (typed "number" "double")
  | GSlice e | GArray e => array_of <$> schemaRef' e
  | GMap v => map_of <$> schemaRef' v
  | GStruct fs => objectRef' fs
  | GNamed id => Some (ref_to (decl id).1)
  | GPtr _ | GInterface | GOther => Some empty_schema
  end.

(** What a field adds to an object: properties to assign, and required names. *)
Definition field_ref (f : gfield) : option (list (string * Schema) * list string) :=
  if negb (exported f) then Some ([], [])
  else
    match embedded decl f, jsonName f with
    | Some fs, _ => (fun o => (Properties o, Required o)) <$> objectRef' fs
    | None, None => Some ([], [])
    | None, Some name =>
        (fun s => let vr := parseValidate (validate_tag f) in
           ([(name, applyValidate s vr (f_Type f))], if is_required vr then [name] else [])) <$> schemaRef' (f_Type f)
    end.

Fixpoint fields_ref (fs : list gfield) : option (list (string * Schema) * list string) :=
  match fs with
  | [] => Some ([], [])
  | f :: fs => '(ps, rs) ← field_ref f; '(ps', rs') ← fields_ref fs; Some (ps ++ ps', rs ++ rs')
  end.
End RefStep.

Definition assign_all (ps props : list (string * Schema)) : list (string * Schema) :=
  fold_left (fun props kv => set_prop kv.1 kv.2 props) ps props.

Fixpoint schema_ref (n : nat) (t : gtype) : option Schema :=
  match n with
  | O => None
  | S n =>
      (fun s => if (deref t).1 && String.eqb (Ref s) "" then set_Nullable s else s) <$>
        base_ref (schema_ref n) (object_ref n) (deref t).2
  end
with object_ref (n : nat) (fs : list gfield) : option Schema :=
  match n with
  | O => None
  | S n => (fun '(ps, rs) => object_of (assign_all ps []) rs) <$> fields_ref (schema_ref n) (object_ref n) fs
  end.

Definition schemaRef (t : gtype) (s : Schema) : Prop := exists n, schema_ref n t = Some s.
Definition objectRef (fs : list gfield) (s : Schema) : Prop := exists n, object_ref n fs = Some s.

(** The structs a type leads to directly, through fields that the schema shows. *)
Inductive sees : gtype -> nat -> Prop :=
| sees_named id : sees (GNamed id) id
| sees_slice e id : sees e id -> sees (GSlice e) id
| sees_array e id : sees e id -> sees (GArray e) id
| sees_map v id : sees v id -> sees (GMap v) id
| sees_ptr e id : sees e id -> sees (GPtr e) id
| sees_struct fs id : sees_fields fs id -> sees (GStruct fs) id
with sees_fields : list gfield -> nat -> Prop :=
| sees_field fs f name id :
    f ∈ fs -> exported f = true -> embedded decl f = None -> jsonName f = Some name -> sees (f_Type f) id -> sees_fields fs id
| sees_embedded fs f fs' id :
    f ∈ fs -> exported f = true -> embedded decl f = Some fs' -> sees_fields fs' id -> sees_fields fs id.

Inductive reachable (roots : list gtype) : nat -> Prop :=
| reach_root t id : t ∈ roots -> sees t id -> reachable roots id
| reach_field id id' : reachable roots id -> sees_fields (decl id).2 id' -> reachable roots id'.

(** The table is exactly the reference objects of the reachable structs. *)
Definition exact (roots : list gtype) (cs : components) : Prop :=
  forall k s, cs !! k = Some s <-> exists id, reachable roots id /\ (decl id).1 = k /\ objectRef (decl id).2 s.

(** ** Facts on the reference *)

Lemma fmap_bind_mono {A B} (f : A -> B) (o o' : option A) (b : B) :
  (forall a, o = Some a -> o' = Some a) -> f <$> o = Some b -> f <$> o' = Some b.
Proof. intros H E. apply fmap_Some in E as (a & Ha & ->). by rewrite (H _ Ha). Qed.

Section RefMono.
  Context (sr sr' : gtype -> option Schema) (or or' : list gfield -> option Schema).
  Context (Hsr : forall t s, sr t = Some s -> sr' t = Some s) (Hor : forall fs s, or fs = Some s -> or' fs = Some s).

Lemma base_ref_mono (t : gtype) (s : Schema) : base_ref sr or t = Some s -> base_ref sr' or' t = Some s.
Proof. destruct t; cbn [base_ref]; try done; try (apply fmap_bind_mono; intros; by apply Hsr). apply Hor. Qed.

Lemma field_ref_mono (f : gfield) x : field_ref sr or f = Some x -> field_ref sr' or' f = Some x.
Proof.
  unfold field_ref. case_match; [done|]. case_match; [apply fmap_bind_mono; intros; by apply Hor|].
  case_match; [apply fmap_bind_mono; intros; by apply Hsr|done].
Qed.

Lemma fields_ref_mono (fs : list gfield) x : fields_ref sr or fs = Some x -> fields_ref sr' or' fs = Some x.
Proof.
  revert x. induction fs as [|f fs IH]; intros x; cbn [fields_ref]; [done|].
  apply bind_mono; [apply field_ref_mono|]. intros [ps rs]. apply bind_mono; [apply IH|done].
Qed.
End RefMono.

Lemma ref_fuel_step (n : nat) :
  (forall t s, schema_ref n t = Some s -> schema_ref (S n) t = Some s) /\
  (forall fs s, object_ref n fs = Some s -> object_ref (S n) fs = Some s).
Proof.
  induction n as [|n [IHs IHo]]; [done|]. split.
  - intros t s. change (schema_ref (S n) t) with ((fun s => if (deref t).1 && String.eqb (Ref s) "" then set_Nullable s else s) <$>
        base_ref (schema_ref n) (object_ref n) (deref t).2). remember (S n) as m. cbn [schema_ref].
    apply fmap_bind_mono. intros a. by apply base_ref_mono.
  - intros fs s. change (object_ref (S n) fs) with ((fun '(ps, rs) => object_of (assign_all ps []) rs) <$> fields_ref (schema_ref n) (object_ref n) fs).
    remember (S n) as m. cbn [object_ref]. apply fmap_bind_mono. intros a. by apply fields_ref_mono.
Qed.

Lemma object_ref_fuel (n m : nat) fs s : (n <= m)%nat -> object_ref n fs = Some s -> object_ref m fs = Some s.
Proof. intros Hle. induction Hle as [|m Hle IH]; [done|]. intros H. by apply (ref_fuel_step m), IH. Qed.

Lemma objectRef_unique (fs : list gfield) (s s' : Schema) : objectRef fs s -> objectRef fs s' -> s = s'.
Proof.
  intros [n H] [m H']. apply (object_ref_fuel n (n `max` m)) in H; [|lia]. apply (object_ref_fuel m (n `max` m)) in H'; [|lia]. congruence.
Qed.

(** ** The walk computes the reference *)

(** A component the walk added: the reference object of a struct of that name that [from] leads to,
    whose own structs have components too. *)
Definition added (from : nat -> Prop) (cs' : components) (k : string) : Prop :=
  exists id o, (decl id).1 = k /\ cs' !! k = Some o /\ objectRef (decl id).2 o /\ from id /\
    forall id', sees_fields (decl id).2 id' -> (decl id').1 ∈ dom cs'.

(** The structs that [direct] leads to, in one step or more. *)
Inductive leads (direct : nat -> Prop) : nat -> Prop :=
| leads_direct id : direct id -> leads direct id
| leads_field id id' : leads direct id -> sees_fields (decl id).2 id' -> leads direct id'.

Definition complete (direct : nat -> Prop) (cs cs' : components) : Prop :=
  cs ⊆ cs' /\ (forall id, direct id -> (decl id).1 ∈ dom cs') /\
  forall k, k ∈ dom cs' -> k ∉ dom cs -> added (leads direct) cs' k.

Lemma leads_mono (direct direct' : nat -> Prop) (id : nat) :
  (forall id, direct id -> leads direct' id) -> leads direct id -> leads direct' id.
Proof. intros H. induction 1; [by apply H|by eapply leads_field]. Qed.

Lemma added_mono (from from' : nat -> Prop) (cs cs' : components) (k : string) :
  (forall id, from id -> from' id) -> cs ⊆ cs' -> added from cs k -> added from' cs' k.
Proof.
  intros Hfrom Hsub (id & o & E & Ho & Hr & Hf & Hs). exists id, o. split_and!; auto; [by eapply lookup_weaken|].
  intros id' Hid'. eapply subseteq_dom; [exact Hsub|auto].
Qed.

Lemma complete_refl (direct : nat -> Prop) (cs : components) : (forall id, ~ direct id) -> complete direct cs cs.
Proof. intros H. split_and!; [done|by intros id Hd%H|done]. Qed.

Lemma complete_trans (d1 d2 : nat -> Prop) (cs1 cs2 cs3 : components) :
  complete d1 cs1 cs2 -> complete d2 cs2 cs3 -> complete (fun id => d1 id \/ d2 id) cs1 cs3.
Proof.
  intros (S1 & D1 & A1) (S2 & D2 & A2). split_and!.
  - by etransitivity.
  - intros id [Hd|Hd]; [|auto]. eapply subseteq_dom; [exact S2|auto].
  - intros k Hk Hn. destruct (decide (k ∈ dom cs2)) as [H2|H2].
    + refine (added_mono (leads d1) _ _ _ _ _ S2 (A1 _ H2 Hn)). intros id. apply leads_mono. intros. apply leads_direct. by left.
    + refine (added_mono (leads d2) _ cs3 _ _ _ _ (A2 _ Hk H2)); [|done]. intros id. apply leads_mono. intros. apply leads_direct. by right.
Qed.

Lemma complete_iff (d1 d2 : nat -> Prop) (cs cs' : components) :
  (forall id, d1 id <-> d2 id) -> complete d1 cs cs' -> complete d2 cs cs'.
Proof.
  intros H (S & D & A). split_and!; [done|intros id Hd; apply D; by apply H|].
  intros k Hk Hn. refine (added_mono (leads d1) _ cs' _ _ _ _ (A _ Hk Hn)); [|done]. intros id. apply leads_mono. intros id' Hd. apply leads_direct. by apply H.
Qed.

Lemma sees_deref (t : gtype) (id : nat) : sees t id <-> sees (deref t).2 id.
Proof. induction t; cbn [deref snd]; try done. rewrite <- IHt. split; [by inversion 1|by constructor]. Qed.

Lemma sees_fields_nil (id : nat) : ~ sees_fields [] id.
Proof. inversion 1; set_solver. Qed.

(** The structs one field shows. *)
Definition sees_one (f : gfield) (id : nat) : Prop := sees_fields [f] id.

Lemma sees_fields_cons (f : gfield) (fs : list gfield) (id : nat) : sees_fields (f :: fs) id <-> sees_one f id \/ sees_fields fs id.
Proof.
  unfold sees_one. split.
  - inversion 1 as [? f' name ? Hin He Hemb Hn Hs|? f' fs' ? Hin He Hemb Hs]; subst; apply elem_of_cons in Hin as [->|Hin].
    + left. eapply sees_field; [by apply list_elem_of_singleton|done..].
    + right. by eapply sees_field.
    + left. eapply sees_embedded; [by apply list_elem_of_singleton|done..].
    + right. by eapply sees_embedded.
  - intros [Hs|Hs]; inversion Hs as [? f' name ? Hin He Hemb Hn Hs'|? f' fs' ? Hin He Hemb Hs']; subst.
    1-2: apply list_elem_of_singleton in Hin as ->.
    1, 3: eapply sees_field; [|done..]; set_solver.
    all: eapply sees_embedded; [|done..]; set_solver.
Qed.

Section Step.
  Context (sf : gtype -> components -> option (Schema * components))
    (os : list gfield -> components -> option (Schema * components))
    (sr : gtype -> option Schema) (or : list gfield -> option Schema).
  Context (Hsf : forall t cs s cs', sf t cs = Some (s, cs') -> sr t = Some s /\ complete (sees t) cs cs')
    (Hos : forall fs cs s cs', os fs cs = Some (s, cs') -> or fs = Some s /\ complete (sees_fields fs) cs cs')
    (Hor : forall fs s, or fs = Some s -> objectRef fs s).

Lemma structSchema_exact (id : nat) (cs cs' : components) (s : Schema) :
  structSchema decl os id cs = Some (s, cs') -> s = ref_to (decl id).1 /\ complete (sees (GNamed id)) cs cs'.
Proof.
  unfold structSchema. destruct (decl id) as [name fs] eqn:Ed. cbn [fst].
  assert (Hid : forall id', sees (GNamed id) id' -> id' = id) by (by inversion 1).
  destruct (cs !! name) as [s0|] eqn:En.
  { intros [= <- <-]. split; [done|]. split_and!; [done| |done].
    intros id' ->%Hid. rewrite Ed. by apply elem_of_dom_2 in En. }
  destruct (os fs _) as [[obj cs1]|] eqn:E; [|done]. cbn -[insert]. intros [= <- <-]. split; [done|].
  apply Hos in E as [Hobj (S1 & D1 & A1)].
  assert (Hsub : cs ⊆ <[name := obj]> cs1).
  { apply insert_subseteq_r; [done|]. etransitivity; [|exact S1]. by apply insert_subseteq. }
  assert (Hdom : dom (<[name := obj]> cs1) = dom cs1).
  { rewrite dom_insert_L. apply subseteq_dom in S1. rewrite dom_insert_L in S1. set_solver. }
  split_and!; [done| |].
  - intros id' ->%Hid. rewrite Ed, Hdom. apply subseteq_dom in S1. apply S1. rewrite dom_insert_L. set_solver.
  - intros k Hk Hn. destruct (decide (k = name)) as [->|Hne].
    + exists id, obj. rewrite Ed. cbn [fst snd]. rewrite lookup_insert_eq. split_and!; [done|done|by apply Hor|by apply leads_direct; constructor|].
      intros id' Hs. rewrite Hdom. by apply D1.
    + rewrite Hdom in Hk. destruct (A1 k Hk) as (id1 & o & E1 & Ho & Hr & Hf & Hs); [rewrite dom_insert_L; set_solver|].
      exists id1, o. rewrite lookup_insert_ne by done. rewrite Hdom. split_and!; try done.
      eapply leads_mono; [|exact Hf]. intros id2 Hid2. eapply leads_field; [apply leads_direct; constructor|]. by rewrite Ed.
Qed.

Lemma baseSchema_exact (t : gtype) (cs cs' : components) (s : Schema) :
  (deref t).1 = false -> baseSchema decl sf os t cs = Some (s, cs') -> base_ref sr or t = Some s /\ complete (sees t) cs cs'.
Proof.
  intros Hd.
  assert (Hwrap : forall e (w : Schema -> Schema), (forall id, sees e id <-> sees t id) ->
    ('(s, cs) ← sf e cs; Some (w s, cs)) = Some (s, cs') -> w <$> sr e = Some s /\ complete (sees t) cs cs').
  { intros e w Hw H. destruct (sf e cs) as [[s1 cs1]|] eqn:E; [|done]. cbn in H. injection H as <- <-.
    apply Hsf in E as [-> Hc]. split; [done|]. by eapply complete_iff; [|exact Hc]. }
  destruct t; cbn [baseSchema base_ref]; try done;
    try (intros [= <- <-]; split; [done|]; apply complete_refl; by inversion 1).
  - apply Hwrap. intros id. split; [by constructor|by inversion 1].
  - apply Hwrap. intros id. split; [by constructor|by inversion 1].
  - apply Hwrap. intros id. split; [by constructor|by inversion 1].
  - intros H%Hos. destruct H as [H1 H2]. split; [done|].
    eapply complete_iff; [|exact H2]. intros id. split; [by constructor|by inversion 1].
  - intros H%structSchema_exact. by destruct H as [-> H].
Qed.

Lemma assign_all_app (ps ps' props : list (string * Schema)) : assign_all (ps ++ ps') props = assign_all ps' (assign_all ps props).
Proof. apply fold_left_app. Qed.

Lemma sees_one_iff (f : gfield) (id : nat) :
  sees_one f id <-> exported f = true /\
    match embedded decl f with
    | Some fs => sees_fields fs id
    | None => is_Some (jsonName f) /\ sees (f_Type f) id
    end.
Proof.
  unfold sees_one. split.
  - inversion 1 as [? f' name ? Hin He Hemb Hn Hs|? f' fs' ? Hin He Hemb Hs]; subst; apply list_elem_of_singleton in Hin as ->.
    + rewrite Hemb, Hn. split_and!; eauto.
    + by rewrite Hemb.
  - intros [He H]. destruct (embedded decl f) as [fs|] eqn:Hemb.
    + eapply sees_embedded; [by apply list_elem_of_singleton|done..].
    + destruct H as [[name Hn] H]. eapply sees_field; [by apply list_elem_of_singleton|done..].
Qed.

Lemma object_field_exact (f : gfield) props required obj' (cs cs' : components) :
  object_field decl sf os f (props, required) cs = Some (obj', cs') ->
  exists ps rs, field_ref sr or f = Some (ps, rs) /\ obj' = (assign_all ps props, required ++ rs) /\ complete (sees_one f) cs cs'.
Proof.
  unfold object_field, field_ref. pose proof (sees_one_iff f) as Hs.
  destruct (exported f) eqn:Ee; cbn [negb].
  2: { intros [= <- <-]. exists [], []. rewrite app_nil_r. split_and!; [done|done|]. apply complete_refl. intros id [? _]%Hs. done. }
  destruct (embedded decl f) as [fs|].
  - destruct (os fs cs) as [[sub cs1]|] eqn:E; [|done]. cbn. intros [= <- <-]. apply Hos in E as [-> Hc].
    exists (Properties sub), (Required sub). split_and!; [done|done|]. eapply complete_iff; [|exact Hc]. intros id. rewrite Hs. tauto.
  - destruct (jsonName f) as [name|].
    2: { intros [= <- <-]. exists [], []. rewrite app_nil_r. split_and!; [done|done|]. apply complete_refl. intros id (_ & [? ?] & _)%Hs. done. }
    destruct (sf (f_Type f) cs) as [[s cs1]|] eqn:E; [|done]. cbn. intros [= <- <-]. apply Hsf in E as [-> Hc].
    eexists _, _. split; [done|]. split; [by destruct (is_required _); rewrite ?app_nil_r|].
    eapply complete_iff; [|exact Hc]. intros id. rewrite Hs. split; [intros; split_and!; by eauto|tauto].
Qed.

Lemma object_fields_exact (fs : list gfield) props required obj' (cs cs' : components) :
  object_fields decl sf os fs (props, required) cs = Some (obj', cs') ->
  exists ps rs, fields_ref sr or fs = Some (ps, rs) /\ obj' = (assign_all ps props, required ++ rs) /\ complete (sees_fields fs) cs cs'.
Proof.
  revert props required cs. induction fs as [|f fs IH]; intros props required cs; cbn [object_fields fields_ref].
  { intros [= <- <-]. exists [], []. rewrite app_nil_r. split_and!; [done|done|]. apply complete_refl, sees_fields_nil. }
  destruct (object_field decl sf os f (props, required) cs) as [[[props1 required1] cs1]|] eqn:E; [|done]. cbn. intros H.
  apply object_field_exact in E as (ps & rs & E1 & [= -> ->] & C1). apply IH in H as (ps' & rs' & E2 & -> & C2).
  rewrite E1. cbn. rewrite E2. cbn. exists (ps ++ ps'), (rs ++ rs'). split_and!; [done|by rewrite assign_all_app, app_assoc|].
  eapply complete_iff; [|by eapply complete_trans]. intros id. by rewrite sees_fields_cons.
Qed.
End Step.

Lemma deref_idem (t : gtype) : (deref (deref t).2).1 = false.
Proof. induction t; cbn [deref fst snd]; done. Qed.

Lemma walk_exact (n : nat) :
  (forall t cs s cs', schemaFor decl n t cs = Some (s, cs') -> schema_ref n t = Some s /\ complete (sees t) cs cs') /\
  (forall fs cs s cs', objectSchema decl n fs cs = Some (s, cs') -> object_ref n fs = Some s /\ complete (sees_fields fs) cs cs').
Proof.
  induction n as [|n [IHs IHo]]; [done|].
  assert (Hor : forall fs s, object_ref n fs = Some s -> objectRef fs s) by (intros; by exists n). split.
  - intros t cs s cs'. cbn [schemaFor schema_ref]. pose proof (deref_idem t) as Hd. pose proof (sees_deref t) as Hs.
    destruct (deref t) as [b t']. cbn [fst snd] in *.
    destruct (baseSchema _ _ _ _ _) as [[s1 cs1]|] eqn:E; [|done]. cbn. intros [= <- <-].
    eapply baseSchema_exact in E as [-> Hc]; [|done..]. split; [done|].
    eapply complete_iff; [|exact Hc]. intros id. by rewrite Hs.
  - intros fs cs s cs'. cbn [objectSchema object_ref].
    destruct (object_fields _ _ _ _ _ _) as [[[props required] cs1]|] eqn:E; [|done]. cbn. intros [= <- <-].
    eapply object_fields_exact in E as (ps & rs & -> & [= -> ->] & Hc); [|done..]. done.
Qed.

(** ** The table of a sequence of roots *)

Lemma leads_reachable (roots : list gtype) (t : gtype) (id : nat) : leads (sees t) id -> reachable (t :: roots) id.
Proof. induction 1; [eapply reach_root; [|done]; set_solver|by eapply reach_field]. Qed.

Lemma reachable_mono (roots roots' : list gtype) (id : nat) : roots ⊆ roots' -> reachable roots id -> reachable roots' id.
Proof. intros Hs. induction 1; [eapply reach_root; [|done]; set_solver|by eapply reach_field]. Qed.

(** Distinct reachable structs have distinct names. *)
Definition unique_names (roots : list gtype) : Prop :=
  forall id id', reachable roots id -> reachable roots id' -> (decl id).1 = (decl id').1 -> id = id'.

Lemma exact_dom (roots : list gtype) (cs : components) (id : nat) :
  exact roots cs -> unique_names roots -> reachable roots id ->
  (decl id).1 ∈ dom cs -> exists o, cs !! (decl id).1 = Some o /\ objectRef (decl id).2 o.
Proof.
  intros Hex Hu Hr [o Ho]%elem_of_dom. exists o. split; [done|].
  apply Hex in Ho as (id' & Hr' & E & Ho). by rewrite (Hu id id') by done.
Qed.

Lemma schemaFor_table_exact (roots : list gtype) (n : nat) (t : gtype) (cs cs' : components) (s : Schema) :
  unique_names (t :: roots) -> exact roots cs ->
  (forall id, reachable roots id -> (decl id).1 ∈ dom cs) ->
  schemaFor decl n t cs = Some (s, cs') ->
  exact (t :: roots) cs' /\ forall id, reachable (t :: roots) id -> (decl id).1 ∈ dom cs'.
Proof.
  intros Hu Hex Hdom Hrun. apply (walk_exact n) in Hrun as [_ (Hsub & Hd & Ha)].
  assert (Hroots : forall id, reachable roots id -> reachable (t :: roots) id) by (intros; by eapply reachable_mono; [|done]; set_solver).
  assert (Hsound : forall k o, cs' !! k = Some o -> exists id, reachable (t :: roots) id /\ (decl id).1 = k /\ objectRef (decl id).2 o).
  { intros k o Hk. destruct (cs !! k) as [o'|] eqn:Ek.
    - rewrite (lookup_weaken _ _ _ _ Ek Hsub) in Hk. injection Hk as ->. apply Hex in Ek as (id & ? & ? & ?). eauto.
    - destruct (Ha k) as (id & o' & E & Ho & Hr & Hf & _); [by eapply elem_of_dom_2|by apply not_elem_of_dom|].
      rewrite Hk in Ho. injection Ho as <-. exists id. split_and!; [by apply leads_reachable|done|done]. }
  assert (Hcover : forall id, reachable (t :: roots) id -> (decl id).1 ∈ dom cs').
  { induction 1 as [t' id Hin Hs|id id' Hr IH Hs].
    - apply elem_of_cons in Hin as [->|Hin]; [by apply Hd|]. eapply subseteq_dom; [exact Hsub|]. apply Hdom. by eapply reach_root.
    - destruct (decide ((decl id).1 ∈ dom cs)) as [Hin|Hnin].
      + apply elem_of_dom in Hin as [o Ho]. apply Hex in Ho as (id1 & Hr1 & E1 & _).
        rewrite (Hu id1 id) in Hr1 by auto. eapply subseteq_dom; [exact Hsub|]. apply Hdom. by eapply reach_field.
      + destruct (Ha _ IH Hnin) as (id1 & o & E1 & _ & _ & Hf & Hall).
        rewrite (Hu id1 id) in Hall by (try done; by apply leads_reachable). by apply Hall. }
  split; [|done]. intros k o. split; [apply Hsound|]. intros (id & Hr & <- & Ho).
  apply Hcover in Hr as Hin. apply elem_of_dom in Hin as [o' Ho']. rewrite Ho'. f_equal.
  apply Hsound in Ho' as (id' & Hr' & E & Ho'). rewrite (Hu id' id) in Ho' by done. by eapply objectRef_unique.
Qed.

(** The walk over a sequence of types, as the registrations of a program make it. *)
Fixpoint describe (n : nat) (ts : list gtype) (cs : components) : option (list Schema * components) :=
  match ts with
  | [] => Some ([], cs)
  | t :: ts => '(s, cs) ← schemaFor decl n t cs; '(ss, cs) ← describe n ts cs; Some (s :: ss, cs)
  end.

Lemma exact_iff (roots roots' : list gtype) (cs : components) :
  (forall t, t ∈ roots <-> t ∈ roots') -> exact roots cs -> exact roots' cs.
Proof.
  intros Heq Hex k s. rewrite (Hex k s). split; intros (id & Hr & H); exists id; (split; [|done]);
    (eapply reachable_mono; [|exact Hr]); intros t; by apply Heq.
Qed.

Lemma describe_invariant (n : nat) (ts roots : list gtype) (ss : list Schema) (cs cs' : components) :
  unique_names (reverse ts ++ roots) -> exact roots cs -> (forall id, reachable roots id -> (decl id).1 ∈ dom cs) ->
  describe n ts cs = Some (ss, cs') ->
  Forall2 schemaRef ts ss /\ exact (reverse ts ++ roots) cs' /\ forall id, reachable (reverse ts ++ roots) id -> (decl id).1 ∈ dom cs'.
Proof.
  revert roots ss cs. induction ts as [|t ts IH]; intros roots ss cs Hu Hex Hd; cbn [describe]; [by intros [= <- <-]|].
  rewrite reverse_cons, <- app_assoc in Hu |- *. cbn [app] in Hu |- *.
  destruct (schemaFor decl n t cs) as [[s cs1]|] eqn:E; [|done]. cbn [mbind option_bind].
  destruct (describe n ts cs1) as [[ss1 cs2]|] eqn:E2; [|done]. cbn [mbind option_bind]. intros [= <- <-].
  assert (Hu1 : unique_names (t :: roots)).
  { intros id id' H1 H2. apply Hu; (eapply reachable_mono; [|done]); set_solver. }
  destruct (schemaFor_table_exact roots n t cs cs1 s Hu1 Hex Hd E) as [Hex1 Hd1].
  destruct (IH (t :: roots) ss1 cs1 Hu Hex1 Hd1 E2) as (Hs & Hex2 & Hd2). split; [|done].
  constructor; [|done]. apply (walk_exact n) in E as [E _]. by exists n.
Qed.

Lemma reachable_nil (id : nat) : ~ reachable [] id.
Proof. induction 1; [set_solver|done]. Qed.

Lemma exact_empty : exact [] ∅.
Proof. intros k s. rewrite lookup_empty. split; [done|]. by intros (id & ?%reachable_nil & _). Qed.

Lemma describe_spec (n : nat) (ts : list gtype) (ss : list Schema) (cs : components) :
  unique_names ts -> describe n ts ∅ = Some (ss, cs) -> Forall2 schemaRef ts ss /\ exact ts cs /\ forall id, reachable ts id -> (decl id).1 ∈ dom cs.
Proof.
  intros Hu H. assert (Hmem : forall t, t ∈ reverse ts ++ [] <-> t ∈ ts) by (intros t; rewrite app_nil_r; apply elem_of_reverse).
  apply (describe_invariant n ts []) in H as (H1 & H2 & H3); [|..|apply exact_empty|by intros id ?%reachable_nil].
  - split; [done|]. split; [by eapply exact_iff|]. intros id Hr. apply H3. eapply reachable_mono; [|exact Hr]. intros t. by apply Hmem.
  - intros id id' R1 R2. apply Hu; (eapply reachable_mono; [|done]); intros t; apply Hmem.
Qed.

(** Tables of the same roots are equal. *)
Lemma exact_unique (roots : list gtype) (cs cs' : components) : exact roots cs -> exact roots cs' -> cs = cs'.
Proof.
  intros H1 H2. apply map_eq. intros k. apply option_eq. intros s. by rewrite (H1 k s), (H2 k s).
Qed.

Lemma describe_order (n m : nat) (ts ts' : list gtype) (ss ss' : list Schema) (cs cs' : components) :
  ts ≡ₚ ts' -> unique_names ts -> describe n ts ∅ = Some (ss, cs) -> describe m ts' ∅ = Some (ss', cs') -> cs = cs'.
Proof.
  intros Hp Hu H H'.
  assert (Hmem : forall t, t ∈ ts' <-> t ∈ ts) by (intros t; split; intros Ht; [by rewrite Hp|by rewrite <- Hp]).
  assert (Hu' : unique_names ts') by (intros id id' R1 R2; apply Hu; (eapply reachable_mono; [|done]); intros t; apply Hmem).
  apply describe_spec in H as (_ & H & _); [|done]. apply describe_spec in H' as (_ & H' & _); [|done].
  eapply exact_unique; [exact H|]. by eapply exact_iff.
Qed.
End Reference.

(** ** Claim *)

(** (C26) Whatever types a program describes and in whatever order, the walk agrees with the reference
    definition: each result is the reference schema of its type, and the table holds, under each
    name, the reference object of the reachable struct of that name, and nothing else. The one
    hypothesis is that distinct reachable structs have distinct names. *)
Theorem describe_reference (decl : decls) (n : nat) (ts : list gtype) (ss : list Schema) (cs : components)
    (Hu : unique_names decl ts) (Hrun : describe decl n ts ∅ = Some (ss, cs)) :
  Forall2 (schemaRef decl) ts ss /\
  forall k s, cs !! k = Some s <-> exists id, reachable decl ts id /\ (decl id).1 = k /\ objectRef decl (decl id).2 s.
Proof. destruct (describe_spec decl n ts ss cs Hu Hrun) as (H1 & H2 & _). split; [exact H1|exact H2]. Qed.

Definition sample_roots : list gtype := [GSlice (GNamed 0); GNamed 1].

Lemma sample_unique : unique_names sample_decls sample_roots.
Proof.
  assert (Hf : forall fs id, sees_fields sample_decls fs id -> fs = (sample_decls 0%nat).2 \/ fs = (sample_decls 1%nat).2 -> id = 0%nat \/ id = 1%nat).
  { assert (Hb : forall fs id, sees_fields sample_decls fs id -> fs = (sample_decls 1%nat).2 -> False).
    { intros fs id H ->. inversion H as [? f name ? Hin _ He _ Hs|? f fs' ? Hin _ He _]; subst;
        apply list_elem_of_singleton in Hin as ->; [by inversion Hs|done]. }
    intros fs id H [->|Hfs]; [|exfalso; by eapply Hb].
    inversion H as [? f name ? Hin _ He _ Hs|? f fs' ? Hin _ He Hs]; subst.
    - apply list_elem_of_In in Hin. cbn in Hin. destruct Hin as [<-|[<-|[<-|[]]]]; [done| |].
      + inversion Hs as [| | | |? ? Hs'|]; subst. inversion Hs'; subst. by left.
      + inversion Hs as [|? ? Hs'| | | |]; subst. by inversion Hs'.
    - apply list_elem_of_In in Hin. cbn in Hin. destruct Hin as [<-|[<-|[<-|[]]]]; [|done..].
      injection He as <-. exfalso. by eapply (Hb (sample_decls 1%nat).2). }
  assert (Hr : forall id, reachable sample_decls sample_roots id -> id = 0%nat \/ id = 1%nat).
  { induction 1 as [t id Hin Hs|id id' Hr IH Hs].
    - apply list_elem_of_In in Hin. cbn in Hin. destruct Hin as [<-|[<-|[]]].
      + inversion Hs as [|? ? Hs'| | | |]; subst. inversion Hs'; subst. by left.
      + inversion Hs; subst. by right.
    - eapply Hf; [exact Hs|]. destruct IH as [->| ->]; auto. }
  intros id id' [->| ->]%Hr [->| ->]%Hr; done.
Qed.

Definition sample_run : list Schema * components :=
  match describe sample_decls 6 sample_roots ∅ with Some r => r | None => ([], ∅) end.

Lemma describe_reference_witness : describe sample_decls 6 sample_roots ∅ = Some (sample_run.1, sample_run.2) /\
  Forall2 (schemaRef sample_decls) sample_roots sample_run.1.
Proof.
  assert (H : describe sample_decls 6 sample_roots ∅ = Some (sample_run.1, sample_run.2)) by (vm_compute; reflexivity).
  split; [exact H|]. exact (proj1 (describe_reference _ _ _ _ _ sample_unique H)).
Defined.
