(* ===== verification/OpenApiConform.v ===== *)
(** * The JSON of a value against the schema of its type

    A value of a Go type is encoded as [encoding/json] does, following its rules for struct tags and
    embedded fields, and [conforms] says when a JSON value has the shape a schema describes: type,
    nullability, properties, required names, elements and references. The constraints that
    [applyValidate] adds are the validator's to enforce and not part of it. Types with methods of their
    own for encoding ([MarshalJSON], [MarshalText]) and [json.Number] are outside: reflection shows the
    schema walk their kind and not what they are written as. *)

From S2P Require Import Prelude GoStrings GoFloat OpenApiSchema OpenApiExact.
Open Scope Z_scope.

(** ** Values and JSON *)

#[warnings="-register-all"]
Inductive json :=
| JNull | JBool (b : bool) | JInt (z : Z) | JFloat (f : spec_float) | JStr (s : string)
| JArr (l : list json) | JObj (kvs : list (string * json)).

(** Values of every type: nil pointers, slices, maps and interfaces are [VNil]; a struct has one value
    a field, in order; an interface holds a value that encodes to some JSON. *)
#[warnings="-register-all"]
Inductive gval :=
| VTime (text : string) | VString (s : string) | VBool (b : bool) | VInt (z : Z) | VFloat (f : spec_float)
| VNil | VPtr (v : gval) | VList (l : list gval) | VBytes (base64 : string) | VMap (kvs : list (string * gval))
| VIface (j : json) | VStruct (vs : list gval).

Section ValInd.
  Context (P : gval -> Prop).
  Context (HTime : forall s, P (VTime s)) (HString : forall s, P (VString s)) (HBool : forall b, P (VBool b)) (HInt : forall z, P (VInt z))
    (HFloat : forall f, P (VFloat f)) (HNil : P VNil) (HPtr : forall v, P v -> P (VPtr v)) (HList : forall l, Forall P l -> P (VList l))
    (HBytes : forall s, P (VBytes s)) (HMap : forall kvs, Forall (fun kv => P kv.2) kvs -> P (VMap kvs)) (HIface : forall j, P (VIface j))
    (HStruct : forall vs, Forall P vs -> P (VStruct vs)).

Fixpoint gval_nested_ind (v : gval) : P v :=
  match v with
  | VTime s => HTime s | VString s => HString s | VBool b => HBool b | VInt z => HInt z | VFloat f => HFloat f
  | VNil => HNil | VBytes s => HBytes s | VIface j => HIface j | VPtr v => HPtr v (gval_nested_ind v)
  | VList l => HList l ((fix go l : Forall P l := match l with [] => Forall_nil_2 _ | v :: l => Forall_cons_2 P v l (gval_nested_ind v) (go l) end) l)
  | VStruct l => HStruct l ((fix go l : Forall P l := match l with [] => Forall_nil_2 _ | v :: l => Forall_cons_2 P v l (gval_nested_ind v) (go l) end) l)
  | VMap kvs =>
      HMap kvs ((fix go kvs : Forall (fun kv => P kv.2) kvs :=
        match kvs with [] => Forall_nil_2 _ | (k, v) :: kvs => Forall_cons_2 (fun kv => P kv.2) (k, v) kvs (gval_nested_ind v) (go kvs) end) kvs)
  end.
End ValInd.

(** ** encoding/json *)

(** The name and the options of a tag. A name with characters JSON tags do not allow is ignored. *)
Definition tag_char (c : ascii) : bool :=
  is_upper c || is_lower c || is_digit c || contains_char c "!#$%&()*+-./:;<=>?@[]^_{|}~ " || (128 <=? code c).
Definition tag_name (tag : string) : string := let n := (cut "," tag).1.1 in if sforall tag_char n then n else EmptyString.
Definition has_option (o tag : string) : bool := existsb (String.eqb o) (split "," (cut "," tag).1.2).

Definition is_empty (v : gval) : bool :=
  match v with
  | VNil | VList [] | VMap [] | VBool false | VInt 0 | VFloat (S754_zero _) => true
  | VString s | VBytes s => String.eqb s ""
  | _ => false
  end.

Fixpoint is_zero (t : gtype) (v : gval) : bool :=
  match v with
  | VNil | VBool false | VInt 0 | VFloat (S754_zero false) => true
  | VString s => String.eqb s ""
  | VTime s => String.eqb s "0001-01-01T00:00:00Z"
  | VList l => match t with GArray e => forallb (is_zero e) l | _ => false end
  | VStruct vs => forallb (fun v => is_zero GOther v) vs
  | _ => false
  end.

Section Encode.
  Context (decl : decls) (quoted : json -> string).   (* the text of a scalar, under the option "string" *)

(** The fields of a struct that encodes as an object. *)
Definition fields_of (t : gtype) : option (list gfield) :=
  match t with GStruct fs => Some fs | GNamed id => Some (decl id).2 | _ => None end.

(** A struct, with pointers in front or not. *)
Definition struct_behind (t : gtype) : bool :=
  match (deref t).2 with GNamed _ | GStruct _ | GTime => true | _ => false end.

Definition quotes (t : gtype) : bool := match (deref t).2 with GString | GBool => true | t => isNumericKind t end.

(** The members a field gives the object of its struct; [enc] encodes the field's value. *)
Definition field_members (enc : gtype -> option json) (f : gfield) (v : gval) : option (list (string * json)) :=
  let tag := json_tag f in
  if negb (exported f) && negb (anonymous f && struct_behind (f_Type f)) then Some []
  else if String.eqb tag "-" then Some []
  else if anonymous f && String.eqb (tag_name tag) "" && struct_behind (f_Type f) then
    match enc (f_Type f) with Some (JObj kvs) => Some kvs | Some JNull => Some [] | _ => None end
  else if (has_option "omitempty" tag && is_empty v) || (has_option "omitzero" tag && is_zero (f_Type f) v) then Some []
  else
    j ← enc (f_Type f);
    Some [(if String.eqb (tag_name tag) "" then f_Name f else tag_name tag,
           if has_option "string" tag && quotes (f_Type f) then match j with JNull => JNull | j => JStr (quoted j) end else j)].

Definition finite (f : spec_float) : bool := match f with S754_zero _ | S754_finite _ _ _ => true | _ => false end.

(** [None] is an error (an infinity, a channel) or a value that is not of the type. Distinct fields are
    taken to have distinct names; Go drops members whose names collide. *)
Fixpoint encode (t : gtype) (v : gval) {struct v} : option json :=
  match v with
  | VTime s => match t with GTime => Some (JStr s) | _ => None end
  | VString s => match t with GString => Some (JStr s) | _ => None end
  | VBool b => match t with GBool => Some (JBool b) | _ => None end
  | VInt z => match t with GInt | GInt64 => Some (JInt z) | _ => None end
  | VFloat f => match t with GFloat32 | GFloat64 => if finite f then Some (JFloat f) else None | _ => None end
  | VNil => match t with GPtr _ | GSlice _ | GMap _ | GInterface => Some JNull | _ => None end
  | VPtr v => match t with GPtr e => encode e v | _ => None end
  | VBytes s => match t with GSlice GInt => Some (JStr s) | _ => None end
  | VIface j => match t with GInterface => Some j | _ => None end
  | VList l =>
      match t with
      | GSlice e | GArray e =>
          JArr <$> (fix go l := match l with [] => Some [] | v :: l => j ← encode e v; js ← go l; Some (j :: js) end) l
      | _ => None
      end
  | VMap kvs =>
      match t with
      | GMap e => JObj <$> (fix go kvs := match kvs with [] => Some [] | (k, v) :: kvs => j ← encode e v; js ← go kvs; Some ((k, j) :: js) end) kvs
      | _ => None
      end
  | VStruct vs =>
      match fields_of t with
      | Some fs =>
          JObj <$> (fix go vs fs {struct vs} :=
            match vs, fs with
            | [], [] => Some []
            | v :: vs, f :: fs => kvs ← field_members (fun t => encode t v) f v; rest ← go vs fs; Some (kvs ++ rest)
            | _, _ => None
            end) vs fs
      | None => None
      end
  end.

Fixpoint members (vs : list gval) (fs : list gfield) : option (list (string * json)) :=
  match vs, fs with
  | [], [] => Some []
  | v :: vs, f :: fs => kvs ← field_members (fun t => encode t v) f v; rest ← members vs fs; Some (kvs ++ rest)
  | _, _ => None
  end.

Lemma encode_struct (t : gtype) (vs : list gval) (fs : list gfield) : fields_of t = Some fs -> encode t (VStruct vs) = JObj <$> members vs fs.
Proof. intros E. cbn [encode]. by rewrite E. Qed.
Lemma encode_list (e : gtype) (l : list gval) : encode (GSlice e) (VList l) = JArr <$> mapM (encode e) l /\ encode (GArray e) (VList l) = JArr <$> mapM (encode e) l.
Proof. cbn [encode]. split; f_equal; induction l as [|v l IH]; cbn; congruence. Qed.
Lemma encode_map (e : gtype) (kvs : list (string * gval)) :
  encode (GMap e) (VMap kvs) = JObj <$> mapM (fun kv => (fun j => (kv.1, j)) <$> encode e kv.2) kvs.
Proof.
  cbn [encode]. f_equal. induction kvs as [|[k v] kvs IH]; [done|]. cbn [mapM fst snd]. rewrite IH. by destruct (encode e v).
Qed.
End Encode.

(** ** Conformance *)

#[warnings="-register-all"]
Inductive conforms (cs : components) : Schema -> json -> Prop :=
| conforms_ref s n o j : Ref s = "#/components/schemas/" +:+ n -> cs !! n = Some o -> conforms cs o j -> conforms cs s j
| conforms_null s : Ref s = "" -> Nullable s = true -> conforms cs s JNull
| conforms_any s j : Ref s = "" -> s_Type s = "" -> conforms cs s j
| conforms_string s x : Ref s = "" -> s_Type s = "string" -> conforms cs s (JStr x)
| conforms_boolean s b : Ref s = "" -> s_Type s = "boolean" -> conforms cs s (JBool b)
| conforms_integer s z : Ref s = "" -> s_Type s = "integer" -> conforms cs s (JInt z)
| conforms_number s f : Ref s = "" -> s_Type s = "number" -> conforms cs s (JFloat f)
| conforms_array s i l : Ref s = "" -> s_Type s = "array" -> Items s = Some i -> Forall (conforms cs i) l -> conforms cs s (JArr l)
| conforms_object s kvs : Ref s = "" -> s_Type s = "object" ->
    (forall r, r ∈ Required s -> r ∈ kvs.*1) ->
    (forall k j p, (k, j) ∈ kvs -> (k, p) ∈ Properties s -> conforms cs p j) ->
    (forall a k j, AdditionalProperties s = Some a -> (k, j) ∈ kvs -> k ∉ (Properties s).*1 -> conforms cs a j) ->
    conforms cs s (JObj kvs).

(** What [conforms] looks at. *)
Definition same_type (s s' : Schema) : Prop := same_shape s s' /\ s_Type s' = s_Type s /\ (Nullable s = true -> Nullable s' = true).

Lemma conforms_same_type (cs : components) (s s' : Schema) (j : json) : same_type s s' -> conforms cs s j -> conforms cs s' j.
Proof.
  intros ((R & P & Q & I & A) & T & N) H. revert R P Q I A T N. destruct H; intros R P Q I A T N.
  - eapply conforms_ref; [by rewrite R|done|done].
  - apply conforms_null; [by rewrite R|by apply N].
  - apply conforms_any; congruence.
  - apply conforms_string; congruence.
  - apply conforms_boolean; congruence.
  - apply conforms_integer; congruence.
  - apply conforms_number; congruence.
  - apply (conforms_array cs s' i); [congruence..|done].
  - apply conforms_object; rewrite ?R, ?P, ?Q, ?A, ?T; done.
Qed.

#[export] Instance same_type_preorder : PreOrder same_type.
Proof.
  split; [by intros s|]. intros s s' s'' (H1 & T1 & N1) (H2 & T2 & N2). split; [by etransitivity|]. split; [congruence|auto].
Qed.

(** ** The values the schema speaks of *)

Section Faithful.
  Context (decl : decls) (quoted : json -> string).
Let enc := encode decl quoted.

(** The field's value is left out of the object. *)
Definition omitted (f : gfield) (v : gval) : bool :=
  negb (exported f) || String.eqb (json_tag f) "-" ||
  (has_option "omitempty" (json_tag f) && is_empty v) || (has_option "omitzero" (json_tag f) && is_zero (f_Type f) v).

(** The field is described as it is encoded: its name is one JSON tags allow; a scalar is not quoted; a required
    field is not left out when empty; an embedded struct is exported, has no tag at all, is not
    [time.Time], and is not a nil pointer. *)
Definition plain (f : gfield) (v : gval) : bool :=
  let tag := json_tag f in
  if negb (exported f) then negb (anonymous f && struct_behind (f_Type f))
  else if String.eqb tag "-" then true
  else String.eqb (tag_name tag) (cut "," tag).1.1 &&
    if anonymous f && String.eqb (tag_name tag) "" && struct_behind (f_Type f) then
      String.eqb tag "" && match (deref (f_Type f)).2 with GTime => false | _ => true end && match enc (f_Type f) v with Some JNull => false | _ => true end
    else negb (has_option "string" tag && quotes (f_Type f)) &&
      negb (is_required (parseValidate (validate_tag f)) && (has_option "omitempty" tag || has_option "omitzero" tag)).

(** Distinct fields have distinct names, embedded ones included. *)
Definition distinct (fs : list gfield) : Prop :=
  exists n ps rs, fields_ref decl (schema_ref decl n) (object_ref decl n) fs = Some (ps, rs) /\ NoDup ps.*1.

(** No nil slice or map, no nil pointer to a named struct, no byte slice; and plain fields with distinct names. *)
Fixpoint faithful (t : gtype) (v : gval) {struct v} : Prop :=
  match v with
  | VNil => match t with GPtr e => match (deref e).2 with GNamed _ => False | _ => True end | GInterface => True | _ => False end
  | VPtr v => match t with GPtr e => faithful e v | _ => False end
  | VBytes _ => False
  | VList l => match t with GSlice e | GArray e => (fix go l := match l with [] => True | v :: l => faithful e v /\ go l end) l | _ => False end
  | VMap kvs => match t with GMap e => (fix go kvs := match kvs with [] => True | (_, v) :: kvs => faithful e v /\ go kvs end) kvs | _ => False end
  | VStruct vs =>
      match fields_of decl t with
      | Some fs => distinct fs /\
          (fix go vs fs {struct vs} :=
            match vs, fs with
            | v :: vs, f :: fs => (plain f v = true /\ (omitted f v = false -> faithful (f_Type f) v)) /\ go vs fs
            | _, _ => True
            end) vs fs
      | None => False
      end
  | _ => True
  end.

Fixpoint faithful_fields (vs : list gval) (fs : list gfield) : Prop :=
  match vs, fs with
  | v :: vs, f :: fs => (plain f v = true /\ (omitted f v = false -> faithful (f_Type f) v)) /\ faithful_fields vs fs
  | _, _ => True
  end.

Lemma faithful_struct (t : gtype) (vs : list gval) (fs : list gfield) :
  fields_of decl t = Some fs -> faithful t (VStruct vs) = (distinct fs /\ faithful_fields vs fs).
Proof. intros E. cbn [faithful]. by rewrite E. Qed.
Lemma faithful_list (e : gtype) (l : list gval) :
  (faithful (GSlice e) (VList l) -> Forall (faithful e) l) /\ (faithful (GArray e) (VList l) -> Forall (faithful e) l).
Proof. cbn [faithful]. split; (induction l as [|v l IH]; [by constructor|]; intros [Hv Hl]; constructor; [done|by apply IH]). Qed.
Lemma faithful_map (e : gtype) (kvs : list (string * gval)) : faithful (GMap e) (VMap kvs) -> Forall (fun kv => faithful e kv.2) kvs.
Proof. cbn [faithful]. induction kvs as [|[k v] kvs IH]; [by constructor|]. intros [Hv Hl]. constructor; [done|by apply IH]. Qed.
End Faithful.

(** ** Facts on schemas *)

Lemma applyBound_type (s : Schema) (raw : string) (b1 b2 b3 b4 : bool) : same_type s (applyBound s raw b1 b2 b3 b4).
Proof. split; [apply applyBound_shape|]. unfold applyBound. repeat case_match; done. Qed.

Lemma applyValidate_type (s : Schema) (vr : validateRules) (t : gtype) : same_type s (applyValidate s vr t).
Proof.
  split; [apply applyValidate_shape|]. unfold applyValidate. cbv zeta.
  set (s1 := match rules vr !! "oneof"%string with Some _ => _ | None => _ end).
  assert (H1 : same_type s s1) by (unfold s1; case_match; done). clearbody s1.
  set (s2 := match rules vr !! "min"%string with Some _ => _ | None => _ end).
  assert (H2 : same_type s1 s2) by (unfold s2; case_match; [apply applyBound_type|done]). clearbody s2.
  set (s3 := match rules vr !! "max"%string with Some _ => _ | None => _ end).
  assert (H3 : same_type s2 s3) by (unfold s3; case_match; [apply applyBound_type|done]). clearbody s3.
  set (s4 := match rules vr !! "len"%string with Some _ => _ | None => _ end).
  assert (H4 : same_type s3 s4) by (unfold s4; case_match; [etransitivity; apply applyBound_type|done]). clearbody s4.
  assert (H : same_type s s4) by (repeat (etransitivity; [eassumption|]); reflexivity).
  destruct H as (_ & HT & HN). repeat case_match; split; done.
Qed.

Lemma set_Nullable_type (s : Schema) : same_type s (set_Nullable s).
Proof. by repeat split. Qed.

Lemma assign_all_elem (ps props : list (string * Schema)) (k : string) (p : Schema) :
  (k, p) ∈ assign_all ps props -> (k, p) ∈ ps \/ (k, p) ∈ props.
Proof.
  revert props. induction ps as [|[k' p'] ps IH]; intros props; unfold assign_all in *; cbn [fold_left fst snd]; [by right|].
  intros [H|H]%IH; [left; set_solver|]. unfold set_prop in H. apply elem_of_app in H as [[_ H]%list_elem_of_filter|H]; [by right|left; set_solver].
Qed.

Lemma assign_all_keys (ps props : list (string * Schema)) (k : string) : k ∈ ps.*1 \/ k ∈ props.*1 -> k ∈ (assign_all ps props).*1.
Proof.
  revert props. induction ps as [|[k' p'] ps IH]; intros props; unfold assign_all in *; cbn [fold_left fst snd]; [intros [H|H]; [by apply not_elem_of_nil in H|done]|].
  intros H. apply IH. rewrite set_prop_keys. rewrite fmap_cons, elem_of_cons in H. cbn in H. tauto.
Qed.

(** ** Values conform *)

Section Soundness.
  Context (decl : decls) (quoted : json -> string) (cs : components) (roots : list gtype).
  Context (Htable : forall id, reachable decl roots id -> exists o, cs !! (decl id).1 = Some o /\ objectRef decl (decl id).2 o).
Let enc := encode decl quoted.
Let sref n := schema_ref decl n.
Let oref n := object_ref decl n.

Lemma object_ref_inv (n : nat) (fs : list gfield) (o : Schema) : object_ref decl n fs = Some o ->
  exists m ps rs, fields_ref decl (sref m) (oref m) fs = Some (ps, rs) /\ o = object_of (assign_all ps []) rs.
Proof. destruct n as [|m]; [done|]. cbn [object_ref]. intros ([ps rs] & E & ->)%fmap_Some. by exists m, ps, rs. Qed.

Lemma base_ref_Ref (n : nat) (t : gtype) (s : Schema) : base_ref decl (sref n) (oref n) t = Some s ->
  match t with GNamed _ => True | _ => Ref s = "" end.
Proof.
  destruct t; cbn [base_ref]; try (by intros [= <-]); try (by intros (? & _ & ->)%fmap_Some). by intros (? & ? & ? & _ & ->)%object_ref_inv.
Qed.

(** The schema of a pointer is that of its target, nullable unless a reference. *)
Lemma schemaRef_ptr (e : gtype) (s : Schema) : schemaRef decl (GPtr e) s ->
  exists s', schemaRef decl e s' /\ same_type s' s /\ (match (deref e).2 with GNamed _ => False | _ => True end -> Ref s = "" /\ Nullable s = true).
Proof.
  intros [[|n] H]; [done|]. cbn [schema_ref deref fst snd] in H. apply fmap_Some in H as (s0 & H & ->).
  exists (if (deref e).1 && String.eqb (Ref s0) "" then set_Nullable s0 else s0). split_and!.
  - exists (S n). cbn [schema_ref]. by rewrite H.
  - cbn [andb]. destruct (deref e).1, (String.eqb (Ref s0) ""); cbn [andb]; by repeat split.
  - intros Hn. apply base_ref_Ref in H. cbn [andb]. assert (E : Ref s0 = "") by (by destruct (deref e).2). by rewrite E.
Qed.

Lemma schemaRef_base (t : gtype) (s : Schema) : (deref t).1 = false -> schemaRef decl t s -> exists n, base_ref decl (sref n) (oref n) t = Some s.
Proof.
  intros Hd [[|n] H]; [done|]. cbn [schema_ref] in H. rewrite Hd in H. cbn [andb] in H. rewrite option_fmap_id in H.
  exists n. by destruct t.
Qed.

(** What an object's members are to its schema. *)
Definition obj_ok (o : Schema) (kvs : list (string * json)) : Prop :=
  (forall k, k ∈ kvs.*1 -> k ∈ (Properties o).*1) /\ (forall r, r ∈ Required o -> r ∈ kvs.*1) /\
  (forall k j p, (k, j) ∈ kvs -> (k, p) ∈ Properties o -> conforms cs p j).

(** What is proved of a value: its JSON conforms to the schema of its type, and if it is a struct (behind pointers), to the
    object of its fields. *)
Definition sound (v : gval) : Prop := forall t j, enc t v = Some j -> faithful decl quoted t v ->
  (forall s, (forall id, sees decl t id -> reachable decl roots id) -> schemaRef decl t s -> conforms cs s j) /\
  (forall fs o, fields_of decl (deref t).2 = Some fs -> (forall id, sees_fields decl fs id -> reachable decl roots id) -> objectRef decl fs o ->
     j = JNull \/ exists kvs, j = JObj kvs /\ obj_ok o kvs).

(** The members and the properties of one field. *)
Definition parts_ok (kvs : list (string * json)) (ps : list (string * Schema)) (rs : list string) : Prop :=
  (forall k, k ∈ kvs.*1 -> k ∈ ps.*1) /\ (forall r, r ∈ rs -> r ∈ kvs.*1) /\ (forall k j p, (k, j) ∈ kvs -> (k, p) ∈ ps -> conforms cs p j).

Lemma parts_ok_nil (ps : list (string * Schema)) : parts_ok [] ps [].
Proof. split_and!; [by intros k ?%not_elem_of_nil|by intros k ?%not_elem_of_nil|by intros k j p ?%not_elem_of_nil]. Qed.

Lemma embedded_struct (f : gfield) (fs : list gfield) : anonymous f = true -> json_tag f = ""%string -> (deref (f_Type f)).2 <> GTime ->
  fields_of decl (deref (f_Type f)).2 = Some fs -> embedded decl f = Some fs.
Proof.
  intros Ha Ht Hn Hf. unfold embedded. rewrite Ha, Ht. cbn [andb String.eqb]. by destruct (deref (f_Type f)).2.
Qed.
Lemma struct_behind_fields (t : gtype) : struct_behind t = true -> (deref t).2 = GTime \/ exists fs, fields_of decl (deref t).2 = Some fs.
Proof. unfold struct_behind. destruct (deref t).2; try done; [by left|right; by eexists|right; by eexists]. Qed.
Lemma not_struct_behind (f : gfield) : struct_behind (f_Type f) = false -> embedded decl f = None.
Proof. unfold struct_behind, embedded. destruct (_ && _); [|done]. by destruct (deref (f_Type f)).2. Qed.

Lemma field_sound (f : gfield) (v : gval) (kvs : list (string * json)) (n : nat) (ps : list (string * Schema)) (rs : list string) :
  sound v -> plain decl quoted f v = true -> (omitted f v = false -> faithful decl quoted (f_Type f) v) ->
  field_members quoted (fun t => enc t v) f v = Some kvs -> field_ref decl (sref n) (oref n) f = Some (ps, rs) ->
  (forall id, sees_one decl f id -> reachable decl roots id) -> parts_ok kvs ps rs.
Proof.
  intros Hv Hplain Hf Hm Hr Hs. unfold plain in Hplain. unfold field_members in Hm. unfold field_ref in Hr. unfold omitted in Hf.
  destruct (exported f) eqn:Hexp; cbn [negb andb orb] in *.
  2: { rewrite Hplain in Hm. injection Hm as <-. injection Hr as <- <-. apply parts_ok_nil. }
  destruct (String.eqb_spec (json_tag f) "-") as [Htag|Htag]; cbn [orb] in *.
  { injection Hm as <-. assert (He : embedded decl f = None) by (unfold embedded; rewrite Htag; by destruct (anonymous f)).
    rewrite He in Hr. unfold jsonName in Hr. rewrite Htag in Hr. injection Hr as <- <-. apply parts_ok_nil. }
  apply andb_true_iff in Hplain as [Hname%String.eqb_eq Hplain].
  destruct (anonymous f && String.eqb (tag_name (json_tag f)) "" && struct_behind (f_Type f)) eqn:Hemb.
  - apply andb_true_iff in Hemb as [[Hanon _]%andb_true_iff Hsb]. apply andb_true_iff in Hplain as [[Ht%String.eqb_eq Hnt]%andb_true_iff Hnn].
    apply struct_behind_fields in Hsb as [Hsb|[fs Hfs]]; [by rewrite Hsb in Hnt|].
    assert (He : embedded decl f = Some fs) by (apply embedded_struct; try done; by intros E; rewrite E in Hnt). rewrite He in Hr.
    apply fmap_Some in Hr as (o & Ho & E). injection E as -> ->. rewrite Ht in Hf. specialize (Hf eq_refl).
    fold enc in Hnn. destruct (enc (f_Type f) v) as [j|] eqn:Ej; [|done]. destruct (Hv _ _ Ej Hf) as [_ HB].
    destruct (HB fs o Hfs) as [->|(kvs' & -> & H1 & H2 & H3)]; [|by exists n|done|].
    { intros id Hid. apply Hs. eapply sees_embedded; [by left|done|exact He|done]. }
    injection Hm as <-. by split_and!.
  - assert (He : embedded decl f = None).
    { destruct (struct_behind (f_Type f)) eqn:Esb; [|by apply not_struct_behind]. unfold embedded.
      destruct (anonymous f); [|done]. destruct (String.eqb_spec (json_tag f) "") as [Ht|]; [|done]. by rewrite Ht in Hemb. }
    rewrite He in Hr. unfold jsonName in Hr. rewrite (proj2 (String.eqb_neq _ _) Htag) in Hr. apply fmap_Some in Hr as (s & Hsch & E).
    injection E as -> ->. apply andb_true_iff in Hplain as [Hq Hreq]. rewrite negb_true_iff in Hq, Hreq. rewrite Hname, Hq in Hm.
    destruct (_ || _) eqn:Hom in Hm.
    + injection Hm as <-. assert (Hopt : has_option "omitempty" (json_tag f) || has_option "omitzero" (json_tag f) = true).
      { apply orb_true_iff in Hom as [[-> _]%andb_true_iff|[-> _]%andb_true_iff]; [done|apply orb_true_r]. }
      rewrite Hopt, andb_true_r in Hreq. rewrite Hreq. apply parts_ok_nil.
    + destruct (enc (f_Type f) v) as [j|] eqn:Ej; [|done]. injection Hm as <-.
      destruct (Hv _ _ Ej (Hf Hom)) as [HA _]. set (name := if String.eqb _ "" then _ else _).
      assert (Hc : conforms cs (applyValidate s (parseValidate (validate_tag f)) (f_Type f)) j).
      { eapply conforms_same_type; [apply applyValidate_type|]. apply HA; [|by exists n]. intros id Hid. apply Hs.
        eapply (sees_field decl [f] f name); [by left|done|exact He| |exact Hid]. unfold jsonName. by rewrite (proj2 (String.eqb_neq _ _) Htag). }
      split_and!.
      * done.
      * intros r. destruct (is_required _); [done|]. by intros ?%not_elem_of_nil.
      * intros k j' p [= -> ->]%list_elem_of_singleton [= ->]%list_elem_of_singleton. exact Hc.
Qed.

Lemma members_sound (vs : list gval) (fs : list gfield) (kvs : list (string * json)) (n : nat) (ps : list (string * Schema)) (rs : list string) :
  Forall sound vs -> faithful_fields decl quoted vs fs -> members decl quoted vs fs = Some kvs ->
  fields_ref decl (sref n) (oref n) fs = Some (ps, rs) -> NoDup ps.*1 -> (forall id, sees_fields decl fs id -> reachable decl roots id) ->
  parts_ok kvs ps rs.
Proof.
  intros Hvs. revert fs kvs ps rs. induction Hvs as [|v vs Hv Hvs IH]; intros [|f fs] kvs ps rs; cbn [members faithful_fields fields_ref]; try done.
  { intros _ [= <-] [= <- <-] _ _. apply parts_ok_nil. }
  intros [[Hp Hf] Hfs] Hm Hr Hnd Hs.
  destruct (field_members quoted (fun t => encode decl quoted t v) f v) as [kvs1|] eqn:Em; [|done]. cbn [mbind option_bind] in Hm.
  destruct (members decl quoted vs fs) as [kvs2|] eqn:Em2; [|done]. injection Hm as <-.
  destruct (field_ref decl (sref n) (oref n) f) as [[ps1 rs1]|] eqn:Er; [|done]. cbn [mbind option_bind] in Hr.
  destruct (fields_ref decl (sref n) (oref n) fs) as [[ps2 rs2]|] eqn:Er2; [|done]. injection Hr as <- <-.
  rewrite fmap_app in Hnd. apply NoDup_app in Hnd as (Hnd1 & Hdis & Hnd2).
  assert (Hs' : forall id, sees_one decl f id \/ sees_fields decl fs id -> reachable decl roots id) by (intros id Hid; apply Hs; by apply sees_fields_cons).
  destruct (field_sound f v kvs1 n ps1 rs1 Hv Hp Hf Em Er) as (A1 & A2 & A3); [auto|].
  destruct (IH fs kvs2 ps2 rs2 Hfs Em2 Er2 Hnd2) as (B1 & B2 & B3); [auto|]. clear IH.
  unfold parts_ok. rewrite !fmap_app. split_and!.
  - intros k. rewrite !elem_of_app. intros [?|?]; auto.
  - intros r. rewrite !elem_of_app. intros [?|?]; auto.
  - intros k j p. rewrite !elem_of_app. intros [Hk|Hk] [Hp'|Hp']; [by eapply A3| | |by eapply B3].
    + destruct (Hdis k); [apply A1|]; by apply (list_elem_of_fmap_2 fst) in Hk, Hp'.
    + destruct (Hdis k); [|apply B1]; by apply (list_elem_of_fmap_2 fst) in Hk, Hp'.
Qed.

Lemma fields_ref_unique (n m : nat) (fs : list gfield) x y :
  fields_ref decl (sref n) (oref n) fs = Some x -> fields_ref decl (sref m) (oref m) fs = Some y -> x = y.
Proof.
  assert (Hup : forall n m x, (n <= m)%nat -> fields_ref decl (sref n) (oref n) fs = Some x -> fields_ref decl (sref m) (oref m) fs = Some x).
  { intros a b z Hle. apply fields_ref_mono; intros t s; (induction Hle as [|b Hle IH]; [done|]); intros H; by apply ref_fuel_step, IH. }
  intros H1 H2. apply (Hup n (Nat.max n m)) in H1; [|lia]. apply (Hup m (Nat.max n m)) in H2; [|lia]. congruence.
Qed.

(** The members of a struct against the object of its fields. *)
Lemma struct_sound (vs : list gval) (fs : list gfield) (kvs : list (string * json)) (o : Schema) :
  Forall sound vs -> distinct decl fs -> faithful_fields decl quoted vs fs -> members decl quoted vs fs = Some kvs ->
  (forall id, sees_fields decl fs id -> reachable decl roots id) -> objectRef decl fs o -> obj_ok o kvs /\ conforms cs o (JObj kvs).
Proof.
  intros Hvs (m & ps & rs & Hr & Hnd) Hf Hm Hs [n Ho]. apply object_ref_inv in Ho as (n' & ps' & rs' & Hr' & ->).
  assert (E := fields_ref_unique _ _ _ _ _ Hr Hr'). injection E as <- <-.
  destruct (members_sound vs fs kvs m ps rs Hvs Hf Hm Hr Hnd Hs) as (H1 & H2 & H3).
  assert (Hprops : forall k p, (k, p) ∈ assign_all ps [] -> (k, p) ∈ ps) by (intros k p [H|H]%assign_all_elem; [done|by apply not_elem_of_nil in H]).
  split.
  - split_and!; cbn [Properties Required object_of]; [|done|].
    + intros k Hk. apply assign_all_keys. left. by apply H1.
    + intros k j p Hk Hp. eapply H3; [done|by apply Hprops].
  - apply conforms_object; cbn [Ref s_Type Properties Required AdditionalProperties object_of]; try done.
    intros k j p Hk Hp. eapply H3; [done|by apply Hprops].
Qed.

Lemma leaf_sound (v : gval) : (forall t j, enc t v = Some j -> faithful decl quoted t v -> fields_of decl (deref t).2 = None /\ (deref t).1 = false /\
    forall s n, base_ref decl (sref n) (oref n) t = Some s -> conforms cs s j) -> sound v.
Proof.
  intros H t j Ej Hf. destruct (H t j Ej Hf) as (H1 & H2 & H3). split; [|by rewrite H1].
  intros s _ Hs. apply schemaRef_base in Hs as [n Hs]; [|done]. by eapply H3.
Qed.

Lemma list_sound (l : list gval) : Forall sound l -> sound (VList l).
Proof.
  intros IH t j Ej Hf. assert (Hel : exists e, (t = GSlice e \/ t = GArray e) /\ Forall (faithful decl quoted e) l /\ exists js, mapM (enc e) l = Some js /\ j = JArr js).
  { unfold enc in *. destruct t as [ | | | | | | |e|e| | | | | | ]; try done; exists e.
    - apply (faithful_list decl quoted e l) in Hf. rewrite (proj1 (encode_list decl quoted e l)) in Ej.
      apply fmap_Some in Ej as (js & Ej & ->). split_and!; [by left|done|by exists js].
    - apply (faithful_list decl quoted e l) in Hf. rewrite (proj2 (encode_list decl quoted e l)) in Ej.
      apply fmap_Some in Ej as (js & Ej & ->). split_and!; [by right|done|by exists js]. }
  clear Ej Hf. destruct Hel as (e & He & Hf & js & Ej & ->). split; [|by destruct He as [->| ->]]. intros s Hs Hsch.
  assert (Hsc : exists n s', schema_ref decl n e = Some s' /\ s = array_of s').
  { destruct He as [->| ->]; apply schemaRef_base in Hsch as [n H]; try done; cbn [base_ref] in H; apply fmap_Some in H as (s' & H & ->); by exists n, s'. }
  destruct Hsc as (n & s' & Hs' & ->). apply (conforms_array cs _ s'); [done..|].
  assert (Hse : forall id, sees decl e id -> reachable decl roots id) by (intros id Hid; apply Hs; destruct He as [->| ->]; by constructor).
  apply mapM_Some_1 in Ej. clear -Ej Hf IH Hse Hs'. induction Ej as [|v j l js Ej Hl IHl]; constructor.
  - apply Forall_inv in IH, Hf. apply (IH e j Ej Hf); [exact Hse|by exists n].
  - apply IHl; by eapply Forall_inv_tail.
Qed.

Lemma map_sound (kvs : list (string * gval)) : Forall (fun kv => sound kv.2) kvs -> sound (VMap kvs).
Proof.
  intros IH t j Ej Hf. destruct t as [ | | | | | | | | |e| | | | | ]; try done. split; [|done].
  apply faithful_map in Hf. unfold enc in Ej. rewrite encode_map in Ej. apply fmap_Some in Ej as (js & Ej & ->). intros s Hs Hsch.
  apply schemaRef_base in Hsch as [n Hsch]; [|done]. cbn [base_ref] in Hsch. apply fmap_Some in Hsch as (s' & Hs' & ->).
  apply conforms_object; cbn [Ref s_Type Properties Required AdditionalProperties map_of]; [done|done|by intros r ?%not_elem_of_nil|by intros k j p _ ?%not_elem_of_nil|].
  intros a k j [= <-] Hk _. apply mapM_Some_1 in Ej.
  assert (Hse : forall id, sees decl e id -> reachable decl roots id) by (intros id Hid; apply Hs; by constructor).
  clear -Ej Hf IH Hse Hs' Hk. induction Ej as [|[k' v] [k'' j'] l js Ej Hl IHl]; [by apply not_elem_of_nil in Hk|].
  apply elem_of_cons in Hk as [E|Hk]; [|apply IHl; try done; by eapply Forall_inv_tail]. injection E as <- <-.
  apply fmap_Some in Ej as (j2 & Ej & E). injection E as -> ->. apply Forall_inv in IH, Hf. apply (IH e j2 Ej Hf); [exact Hse|by exists n].
Qed.

Lemma struct_value_sound (vs : list gval) : Forall sound vs -> sound (VStruct vs).
Proof.
  intros IH t j Ej Hf. assert (Hfs : exists fs, fields_of decl t = Some fs /\ (deref t).2 = t /\ (deref t).1 = false) by (destruct t; try done; by eexists).
  destruct Hfs as (fs & Hfs & Hd & Hd1). unfold enc in Ej. rewrite (encode_struct decl quoted t vs fs Hfs) in Ej.
  apply fmap_Some in Ej as (kvs & Ej & ->). rewrite (faithful_struct decl quoted t vs fs Hfs) in Hf. destruct Hf as [Hdis Hf].
  pose proof (struct_sound vs fs kvs) as Hstruct. split.
  - intros s Hs Hsch. apply schemaRef_base in Hsch as [n Hsch]; [|done]. destruct t as [ | | | | | | | | | | | | |fs'|id]; try done; injection Hfs as <-.
    + apply (Hstruct s IH Hdis Hf Ej); [|by exists n]. intros id Hid. apply Hs. by constructor.
    + injection Hsch as <-. assert (Hr : reachable decl roots id) by (apply Hs; constructor).
      destruct (Htable id Hr) as (o & Ho & Hobj). eapply conforms_ref; [done|exact Ho|].
      apply (Hstruct o IH Hdis Hf Ej); [|done]. intros id' Hid'. by eapply reach_field.
  - intros fs' o Hfs' Hs Ho. rewrite Hd, Hfs in Hfs'. injection Hfs' as <-. right. exists kvs. split; [done|]. by apply (Hstruct o IH Hdis Hf Ej).
Qed.

Lemma value_sound (v : gval) : sound v.
Proof.
  induction v as [s|s|b|z|f| |v IH|l IH|s|kvs IH|j0|vs IH] using gval_nested_ind.
  8: by apply list_sound. 9: by apply map_sound. 10: by apply struct_value_sound.
  1-5,8,9: apply leaf_sound; unfold enc; intros t j; cbn [encode faithful]; intros Ej Hf; destruct t; try done;
    (split; [done|split; [done|]]); intros sc n; cbn [base_ref]; intros [= <-].
  - injection Ej as <-. by apply conforms_string.
  - injection Ej as <-. by apply conforms_string.
  - injection Ej as <-. by apply conforms_boolean.
  - injection Ej as <-. by apply conforms_integer.
  - injection Ej as <-. by apply conforms_integer.
  - destruct (finite f); [|done]. injection Ej as <-. by apply conforms_number.
  - destruct (finite f); [|done]. injection Ej as <-. by apply conforms_number.
  - by apply conforms_any.
  - intros t j. unfold enc. cbn [encode faithful]. intros Ej Hf. destruct t as [ | | | | | | | | | |e| | | | ]; try done; injection Ej as <-.
    + split; [|by left]. intros s _ Hs. apply schemaRef_ptr in Hs as (_ & _ & _ & Hn). destruct (Hn Hf) as [H1 H2]. by apply conforms_null.
    + split; [|done]. intros s _ Hs. apply schemaRef_base in Hs as [n Hs]; [|done]. injection Hs as <-. by apply conforms_any.
  - intros t j Ej Hf. unfold enc in Ej. cbn [encode] in Ej. cbn [faithful] in Hf. destruct t as [ | | | | | | | | | |e| | | | ]; try done.
    destruct (IH e j Ej Hf) as [HA HB]. split; [|exact HB]. intros s Hs Hsch. apply schemaRef_ptr in Hsch as (s' & H1 & H2 & _).
    eapply conforms_same_type; [exact H2|]. apply HA; [|done]. intros id Hid. apply Hs. by constructor.
Qed.
End Soundness.

(** ** Claim *)

(** (C28) Whatever types a program describes, of kinds alone (none with a [MarshalJSON] or [MarshalText] of its own, no
    [json.Number]) and with different names for different structs, the JSON that [encoding/json] writes for a value
    of one of them has the shape of its schema, the components being those of the document: the described types, required
    properties present, and properties, elements and references likewise, however deep. The value is to be
    one the schemas are meant for ([faithful]): no nil slice or map, nil pointer to a named struct or byte
    slice, and fields that are described under the name and with the presence they are encoded with. *)
Theorem json_conforms (decl : decls) (quoted : json -> string) (n : nat) (ts : list gtype) (ss : list Schema) (cs : components)
    (i : nat) (t : gtype) (s : Schema) (v : gval) (j : json)
    (Hu : unique_names decl ts) (Hrun : describe decl n ts ∅ = Some (ss, cs)) (Ht : ts !! i = Some t) (Hs : ss !! i = Some s)
    (Hj : encode decl quoted t v = Some j) (Hv : faithful decl quoted t v) :
  conforms cs s j.
Proof.
  destruct (describe_spec decl n ts ss cs Hu Hrun) as (Hss & Hex & Hdom).
  assert (Htable : forall id, reachable decl ts id -> exists o, cs !! (decl id).1 = Some o /\ objectRef decl (decl id).2 o)
    by (intros id Hr; eapply exact_dom; eauto).
  apply (value_sound decl quoted cs ts Htable v t j Hj Hv).
  - intros id Hid. eapply reach_root; [by eapply list_elem_of_lookup_2|exact Hid].
  - by eapply Forall2_lookup_lr.
Qed.

Definition quote_text (j : json) : string := match j with JInt z => itoa z | JStr s => s | _ => EmptyString end.

(** Two nodes: one behind the other, the second without a next one. *)
Definition sample_value : gval :=
  VList [VStruct [VStruct [VInt 7]; VPtr (VStruct [VStruct [VInt 8]; VNil; VList []]); VList [VString "a"]]].
Definition sample_json : json :=
  JArr [JObj [("id", JInt 7); ("next", JObj [("id", JInt 8); ("tags", JArr [])]); ("tags", JArr [JStr "a"])]]%string.

Lemma sample_distinct (id : nat) : distinct sample_decls (sample_decls id).2.
Proof.
  destruct id as [|id]; (exists 5%nat; eexists _, _; split; [vm_compute; reflexivity|]); apply (bool_decide_eq_true_1 _); vm_compute; reflexivity.
Qed.

Ltac faithful_sample :=
  lazymatch goal with
  | |- _ /\ _ => split; faithful_sample
  | |- True => exact I
  | |- distinct _ _ => first [exact (sample_distinct 0) | exact (sample_distinct 1)]
  | |- _ = true => vm_compute; reflexivity
  | |- omitted _ _ = false -> _ => let H := fresh in intros H; first [vm_compute in H; discriminate H | clear H; faithful_sample]
  | |- faithful _ _ _ _ => cbn [faithful fields_of f_Type sample_decls fst snd]; faithful_sample
  end.

Lemma sample_faithful : faithful sample_decls quote_text (GSlice (GNamed 0)) sample_value.
Proof. unfold sample_value. faithful_sample. Qed.

Lemma json_conforms_witness : describe sample_decls 6 sample_roots ∅ = Some (sample_run.1, sample_run.2) /\
  encode sample_decls quote_text (GSlice (GNamed 0)) sample_value = Some sample_json /\
  conforms sample_run.2 (array_of (ref_to "Node")) sample_json.
Proof.
  assert (Hrun : describe sample_decls 6 sample_roots ∅ = Some (sample_run.1, sample_run.2)) by (vm_compute; reflexivity).
  assert (Hj : encode sample_decls quote_text (GSlice (GNamed 0)) sample_value = Some sample_json) by (vm_compute; reflexivity).
  split; [exact Hrun|split; [exact Hj|]].
  apply (json_conforms sample_decls quote_text 6 sample_roots sample_run.1 sample_run.2 0 (GSlice (GNamed 0)) _ sample_value _ sample_unique Hrun);
    [reflexivity|vm_compute; reflexivity|exact Hj|exact sample_faithful].
Defined.

(** ** What modelling showed *)

(** What a field of a struct is encoded as, and whether its schema takes it. *)
Definition field_json (f : gfield) (v : gval) : option (list (string * json)) := field_members quote_text (fun t => encode sample_decls quote_text t v) f v.
Definition field_schema (f : gfield) : option (list (string * Schema) * list string) := field_ref sample_decls (schema_ref sample_decls 5) (object_ref sample_decls 5) f.

Ltac refuted := let H := fresh in intros H; inversion H; subst; try discriminate.

(** A nil slice is null, and the schema is an array that is not nullable. *)
Example nil_slice_is_null : let f := GField "Tags" true false "tags" "" (GSlice GString) in
  field_json f VNil = Some [("tags", JNull)]%string /\ field_schema f = Some ([("tags", array_of (typed "string" ""))]%string, []) /\
  ~ conforms ∅ (array_of (typed "string" "")) JNull.
Proof. cbv zeta. split_and!; [vm_compute; reflexivity..|refuted]. Qed.

(** So is a nil pointer to a named struct, whose schema is a reference to an object. *)
Example nil_reference_is_null : let f := GField "Next" true false "next" "" (GPtr (GNamed 0)) in
  field_json f VNil = Some [("next", JNull)]%string /\ field_schema f = Some ([("next", ref_to "Node")]%string, []) /\
  forall o, Nullable o = false -> Ref o = ""%string -> s_Type o = "object"%string -> ~ conforms {["Node" := o]} (ref_to "Node") JNull.
Proof.
  cbv zeta. split_and!; [vm_compute; reflexivity..|]. intros o Hn Hr Ht H. inversion H as [? n o' ? E Ho Hc| | | | | | | |]; subst; try discriminate.
  cbn [Ref ref_to] in E. apply (string_app_inj_l "#/components/schemas/") in E as <-. rewrite lookup_singleton_eq in Ho. injection Ho as <-.
  inversion Hc as [? n o2 ? E2| | | | | | | |]; subst; try congruence. by rewrite Hr in E2.
Qed.

(** The option "string" makes a number a string in JSON, and the schema does not know it. *)
Example string_option_ignored : let f := GField "ID" true false "id,string" "" GInt64 in
  field_json f (VInt 7) = Some [("id", JStr "7")]%string /\ field_schema f = Some ([("id", typed "integer" "int64")]%string, []) /\
  ~ conforms ∅ (typed "integer" "int64") (JStr "7").
Proof. cbv zeta. split_and!; [vm_compute; reflexivity..|refuted]. Qed.

(** An embedded struct with options but no name in its tag is flattened in JSON, and a property of its own in the schema. *)
Example embedded_with_options : let f := GField "Base" true true ",omitempty" "required" (GNamed 1) in
  field_json f (VStruct [VInt 7]) = Some [("id", JInt 7)]%string /\ field_schema f = Some ([("Base", ref_to "Base")]%string, ["Base"%string]).
Proof. vm_compute. done. Qed.

(** A required field that is left out when empty. *)
Example required_and_omitted : let f := GField "Count" true false "count,omitempty" "required" GInt in
  field_json f (VInt 0) = Some [] /\ option_map snd (field_schema f) = Some ["count"%string].
Proof. vm_compute. done. Qed.
