(* ===== verification/OpenApi.v ===== *)
(** * The OpenAPI document (openapi/openapi.go, spec_model.go, handlers.go)

    A [Spec] collects operations, keyed by path and method, and the component schemas of the types
    they use. [Register] runs the walk of OpenApiSchema on the query, request and response types, so
    it takes the walk's fuel. The document is built as a JSON tree; [bytes] keeps the first one. A
    value given to [Register] is known by its reflected type. *)

From S2P Require Import Prelude GoStrings GoFloat OpenApiSchema.
Open Scope Z_scope.

(** ** The document model (spec_model.go) *)

Record Info := MkInfo { Title : string; Version : string; i_Description : string }.
Record Parameter_ := MkParameter { p_Name : string; p_In : string; p_Required : bool; p_Schema : Schema }.
(** [map[string]MediaType] with at most the entry for "application/json". *)
Abbreviation content := (gmap string Schema).
Record RequestBody := MkRequestBody { rb_Required : bool; rb_Content : content }.
Record Response := MkResponse { r_Description : string; r_Content : content }.
Record Operation := MkOperation {
  Summary : string; o_Description : string; Tags : list string; Parameters_ : list Parameter_; o_RequestBody : option RequestBody;
  Responses : gmap string Response; Security : list (gmap string (list string)) }.
Record PathItem := MkPathItem {
  Get : option Operation; Post : option Operation; Put : option Operation; Patch : option Operation;
  Delete : option Operation; Head : option Operation; Options : option Operation }.
Record SecurityScheme := MkScheme { ss_Type : string; Scheme_ : string; BearerFormat : string }.
Record Components := MkComponents { Schemas : components; SecuritySchemes : gmap string SecurityScheme }.
Record Document := MkDocument { OpenAPI : string; d_Info : Info; Paths : gmap string PathItem; d_Components : option Components }.

(** ** JSON trees, with the fields the struct tags name; map keys are sorted *)

#[warnings="-register-all"]
Inductive json :=
| JBool (b : bool) | JInt (z : Z) | JFloat (f : spec_float) | JString (s : string)
| JArray (l : list json) | JObject (l : list (string * json)).

Fixpoint string_leb (a b : string) : bool :=
  match a, b with
  | EmptyString, _ => true
  | _, EmptyString => false
  | String x a, String y b => (code x <? code y) || ((code x =? code y) && string_leb a b)
  end.
Fixpoint insert_key {A} (k : string) (v : A) (l : list (string * A)) : list (string * A) :=
  match l with
  | [] => [(k, v)]
  | (k', v') :: l' => if string_leb k k' then (k, v) :: l else (k', v') :: insert_key k v l'
  end.
Definition sort_keys {A} (l : list (string * A)) : list (string * A) := fold_right (fun kv acc => insert_key kv.1 kv.2 acc) [] l.
Definition map_json {A} (f : A -> json) (m : gmap string A) : json := JObject (sort_keys (map (fun kv => (kv.1, f kv.2)) (map_to_list m))).

(** [omitempty]. *)
Definition omit_string (k s : string) : list (string * json) := if String.eqb s "" then [] else [(k, JString s)].
Definition omit_bool (k : string) (b : bool) : list (string * json) := if b then [(k, JBool true)] else [].
Definition omit_list {A} (k : string) (f : A -> json) (l : list A) : list (string * json) :=
  match l with [] => [] | _ => [(k, JArray (map f l))] end.
Definition omit_map {A} (k : string) (f : A -> json) (m : gmap string A) : list (string * json) :=
  if decide (m = ∅) then [] else [(k, map_json f m)].
Definition omit_nil {A} (k : string) (f : A -> json) (o : option A) : list (string * json) :=
  match o with None => [] | Some v => [(k, f v)] end.

Definition enum_json (e : enum_item) : json := match e with EText s => JString s | ENumber f => JFloat f end.

Fixpoint schema_json (s : Schema) : json :=
  JObject (omit_string "$ref" (Ref s) ++ omit_string "type" (s_Type s) ++ omit_string "format" (Format s) ++
    omit_bool "nullable" (Nullable s) ++
    match Properties s with
    | [] => []
    | ps => [("properties"%string, JObject (sort_keys (map (fun '(k, v) => (k, schema_json v)) ps)))]
    end ++
    omit_list "required" JString (Required s) ++
    match Items s with None => [] | Some i => [("items"%string, schema_json i)] end ++
    match AdditionalProperties s with None => [] | Some a => [("additionalProperties"%string, schema_json a)] end ++
    omit_list "enum" enum_json (Enum s) ++ omit_nil "minimum" JFloat (Minimum s) ++ omit_nil "maximum" JFloat (Maximum s) ++
    omit_nil "minLength" JInt (MinLength s) ++ omit_nil "maxLength" JInt (MaxLength s) ++
    omit_nil "minItems" JInt (MinItems s) ++ omit_nil "maxItems" JInt (MaxItems s)).

Definition media_json (s : Schema) : json := JObject [("schema"%string, schema_json s)].
Definition parameter_json (p : Parameter_) : json :=
  JObject ([("name"%string, JString (p_Name p)); ("in"%string, JString (p_In p))] ++ omit_bool "required" (p_Required p) ++
    [("schema"%string, schema_json (p_Schema p))]).
Definition body_json (b : RequestBody) : json :=
  JObject (omit_bool "required" (rb_Required b) ++ [("content"%string, map_json media_json (rb_Content b))]).
Definition response_json (r : Response) : json :=
  JObject (("description"%string, JString (r_Description r)) :: omit_map "content" media_json (r_Content r)).
Definition operation_json (o : Operation) : json :=
  JObject (omit_string "summary" (Summary o) ++ omit_string "description" (o_Description o) ++ omit_list "tags" JString (Tags o) ++
    omit_list "parameters" parameter_json (Parameters_ o) ++ omit_nil "requestBody" body_json (o_RequestBody o) ++
    [("responses"%string, map_json response_json (Responses o))] ++
    omit_list "security" (map_json (fun l => JArray (map JString l))) (Security o)).
Definition item_json (i : PathItem) : json :=
  JObject (omit_nil "get" operation_json (Get i) ++ omit_nil "post" operation_json (Post i) ++ omit_nil "put" operation_json (Put i) ++
    omit_nil "patch" operation_json (Patch i) ++ omit_nil "delete" operation_json (Delete i) ++
    omit_nil "head" operation_json (Head i) ++ omit_nil "options" operation_json (Options i)).
Definition scheme_json (s : SecurityScheme) : json :=
  JObject (("type"%string, JString (ss_Type s)) :: omit_string "scheme" (Scheme_ s) ++ omit_string "bearerFormat" (BearerFormat s)).
Definition components_json (c : Components) : json :=
  JObject (omit_map "schemas" schema_json (Schemas c) ++ omit_map "securitySchemes" scheme_json (SecuritySchemes c)).
Definition info_json (i : Info) : json :=
  JObject ([("title"%string, JString (Title i)); ("version"%string, JString (Version i))] ++ omit_string "description" (i_Description i)).
Definition document_json (d : Document) : json :=
  JObject ([("openapi"%string, JString (OpenAPI d)); ("info"%string, info_json (d_Info d));
            ("paths"%string, map_json item_json (Paths d))] ++ omit_nil "components" components_json (d_Components d)).

(** Encoding fails on a float that is not finite. *)
Fixpoint finite (j : json) : bool :=
  match j with
  | JFloat (S754_infinity _) | JFloat S754_nan => false
  | JArray l => forallb finite l
  | JObject l => forallb (fun '(_, v) => finite v) l
  | _ => true
  end.
Definition json_Marshal (d : Document) : error + json :=
  let j := document_json d in if finite j then inr j else inl (Err "json: unsupported value").

(** ** The spec under construction (openapi.go) *)

Record Spec := MkSpec {
  info : Info; paths : gmap string PathItem; componentSchemas : components; securitySchemes : gmap string SecurityScheme;
  cached : option (error + json) (* [once], [cached], [cerr] *) }.

Definition bearerSchemeName : string := "bearerAuth".
Definition New (info : Info) : Spec := MkSpec info ∅ ∅ ∅ None.
Definition WithBearerAuth (s : Spec) : Spec :=
  MkSpec (info s) (paths s) (componentSchemas s) (<[bearerSchemeName := MkScheme "http" "bearer" "JWT"]> (securitySchemes s)) (cached s).

Record Op := MkOp {
  op_Summary : string; op_Description : string; op_Tags : list string;
  Request : option gtype; op_Response : option gtype; Query : option gtype; Status : Z; Secured : bool }.

(** The segments of [convertPath]'s loop: the new segment, and the parameter it names. *)
Definition convert_segment (seg : string) : string * option string :=
  if has_prefix ":" seg then
    let name := drop_string 1 seg in ("{" +:+ (name +:+ "}"), Some name)
  else if String.eqb seg "*" then ("{wildcard}"%string, Some "wildcard"%string)
  else (seg, None).
Definition convertPath (path : string) : string * list string :=
  let segs := map convert_segment (split "/" path) in
  (join "/" (map fst segs), omap snd segs).

Definition setOp (item : PathItem) (method : string) (o : Operation) : PathItem :=
  let m := to_upper method in
  if String.eqb m "GET" then MkPathItem (Some o) (Post item) (Put item) (Patch item) (Delete item) (Head item) (Options item)
  else if String.eqb m "POST" then MkPathItem (Get item) (Some o) (Put item) (Patch item) (Delete item) (Head item) (Options item)
  else if String.eqb m "PUT" then MkPathItem (Get item) (Post item) (Some o) (Patch item) (Delete item) (Head item) (Options item)
  else if String.eqb m "PATCH" then MkPathItem (Get item) (Post item) (Put item) (Some o) (Delete item) (Head item) (Options item)
  else if String.eqb m "DELETE" then MkPathItem (Get item) (Post item) (Put item) (Patch item) (Some o) (Head item) (Options item)
  else if String.eqb m "HEAD" then MkPathItem (Get item) (Post item) (Put item) (Patch item) (Delete item) (Some o) (Options item)
  else if String.eqb m "OPTIONS" then MkPathItem (Get item) (Post item) (Put item) (Patch item) (Delete item) (Head item) (Some o)
  else item.

(** [http.StatusText]. *)
Definition status_texts : list (Z * string) := [
  (100, "Continue"); (101, "Switching Protocols"); (102, "Processing"); (103, "Early Hints");
  (200, "OK"); (201, "Created"); (202, "Accepted"); (203, "Non-Authoritative Information"); (204, "No Content");
  (205, "Reset Content"); (206, "Partial Content"); (207, "Multi-Status"); (208, "Already Reported"); (226, "IM Used");
  (300, "Multiple Choices"); (301, "Moved Permanently"); (302, "Found"); (303, "See Other"); (304, "Not Modified");
  (305, "Use Proxy"); (307, "Temporary Redirect"); (308, "Permanent Redirect");
  (400, "Bad Request"); (401, "Unauthorized"); (402, "Payment Required"); (403, "Forbidden"); (404, "Not Found");
  (405, "Method Not Allowed"); (406, "Not Acceptable"); (407, "Proxy Authentication Required"); (408, "Request Timeout");
  (409, "Conflict"); (410, "Gone"); (411, "Length Required"); (412, "Precondition Failed");
  (413, "Request Entity Too Large"); (414, "Request URI Too Long"); (415, "Unsupported Media Type");
  (416, "Requested Range Not Satisfiable"); (417, "Expectation Failed"); (418, "I'm a teapot"); (421, "Misdirected Request");
  (422, "Unprocessable Entity"); (423, "Locked"); (424, "Failed Dependency"); (425, "Too Early"); (426, "Upgrade Required");
  (428, "Precondition Required"); (429, "Too Many Requests"); (431, "Request Header Fields Too Large");
  (451, "Unavailable For Legal Reasons"); (500, "Internal Server Error"); (501, "Not Implemented"); (502, "Bad Gateway");
  (503, "Service Unavailable"); (504, "Gateway Timeout"); (505, "HTTP Version Not Supported"); (506, "Variant Also Negotiates");
  (507, "Insufficient Storage"); (508, "Loop Detected"); (510, "Not Extended"); (511, "Network Authentication Required")]%string.
Definition StatusText (code : Z) : string :=
  match find (fun kv => kv.1 =? code) status_texts with Some (_, t) => t | None => "" end.

Section Register.
  Context (decl : decls) (fuel : nat).

(** One field of [queryParams]'s loop. *)
Fixpoint query_fields (fs : list gfield) (cs : components) : option (list Parameter_ * components) :=
  match fs with
  | [] => Some ([], cs)
  | f :: fs =>
      match (if exported f then jsonName f else None) with
      | None => query_fields fs cs
      | Some name =>
          let vr := parseValidate (validate_tag f) in
          '(sc, cs) ← schemaFor decl fuel (f_Type f) cs;
          '(ps, cs) ← query_fields fs cs;
          Some (MkParameter name "query" (is_required vr) (applyValidate sc vr (f_Type f)) :: ps, cs)
      end
  end.

Definition queryParams (t : gtype) (cs : components) : option (list Parameter_ * components) :=
  match struct_fields decl (deref t).2 with Some fs => query_fields fs cs | None => Some ([], cs) end.

(** A call on a value that may be nil. *)
Definition when_some {A B} (o : option A) (dflt : B) (f : A -> components -> option (B * components)) (cs : components) : option (B * components) :=
  match o with Some v => f v cs | None => Some (dflt, cs) end.

Definition json_content (t : gtype) (cs : components) : option (content * components) :=
  '(sc, cs) ← schemaFor decl fuel t cs; Some ({["application/json"%string := sc]}, cs).

(** [Register]: the operation it builds, and the spec with it; [None] when the walk overflows. *)
Definition Register (method path : string) (op : Op) (s : Spec) : option Spec :=
  let '(oapiPath, pathParams) := convertPath path in
  let item := default (MkPathItem None None None None None None None) (paths s !! oapiPath) in
  let path_params := map (fun name => MkParameter name "path" true (typed "string" "")) pathParams in
  '(query_params, cs) ← when_some (Query op) [] queryParams (componentSchemas s);
  '(body, cs) ← when_some (Request op) None (fun t cs => '(c, cs) ← json_content t cs; Some (Some (MkRequestBody true c), cs)) cs;
  let status := if Status op =? 0 then 200 else Status op in
  let desc := if String.eqb (StatusText status) "" then "response"%string else StatusText status in
  '(rcontent, cs) ← when_some (op_Response op) ∅ json_content cs;
  let o := MkOperation (op_Summary op) (op_Description op) (op_Tags op) (path_params ++ query_params) body
    {[itoa status := MkResponse desc rcontent]} (if Secured op then [{[bearerSchemeName := []]}] else []) in
  Some (MkSpec (info s) (<[oapiPath := setOp item method o]> (paths s)) cs (securitySchemes s) (cached s)).
End Register.

Definition Build (s : Spec) : Document :=
  MkDocument "3.0.3" (info s) (paths s)
    (if decide (componentSchemas s = ∅ /\ securitySchemes s = ∅) then None
     else Some (MkComponents (componentSchemas s) (securitySchemes s))).

(** ** Serving (handlers.go) *)

Definition bytes (s : Spec) : (error + json) * Spec :=
  match cached s with
  | Some r => (r, s)
  | None => let r := json_Marshal (Build s) in (r, MkSpec (info s) (paths s) (componentSchemas s) (securitySchemes s) (Some r))
  end.

(** [SpecHandler]: the content type and the document, or the error handed to Fiber. *)
Definition SpecHandler (s : Spec) : (error + string * json) * Spec :=
  let '(r, s) := bytes s in
  (match r with inl e => inl e | inr b => inr ("application/json"%string, b) end, s).

(** ** Runs of a program *)

Inductive call_ := CRegister (method path : string) (op : Op) | CBearer | CServe.

Definition do_call (decl : decls) (fuel : nat) (c : call_) (s : Spec) : option Spec :=
  match c with
  | CRegister m p op => Register decl fuel m p op s
  | CBearer => Some (WithBearerAuth s)
  | CServe => Some (SpecHandler s).2
  end.

Fixpoint run (decl : decls) (fuel : nat) (cs : list call_) (s : Spec) : option Spec :=
  match cs with [] => Some s | c :: cs => do_call decl fuel c s ≫= run decl fuel cs end.

(** ** Well-formed documents *)

Definition item_ops (i : PathItem) : list Operation :=
  omap id [Get i; Post i; Put i; Patch i; Delete i; Head i; Options i].
Definition op_schemas (o : Operation) : list Schema :=
  map p_Schema (Parameters_ o) ++
  match o_RequestBody o with Some b => (map_to_list (rb_Content b)).*2 | None => [] end ++
  flat_map (fun r => (map_to_list (r_Content r.2)).*2) (map_to_list (Responses o)).

Definition op_wf (names : gset string) (o : Operation) : Prop := forall sc, sc ∈ op_schemas o -> wf_schema names sc.
Definition paths_wf (names : gset string) (ps : gmap string PathItem) : Prop :=
  forall p item o, ps !! p = Some item -> o ∈ item_ops item -> op_wf names o.

(** Every reference in the document names a component of the document. *)
Definition document_wf (d : Document) : Prop :=
  let schemas := match d_Components d with Some c => Schemas c | None => ∅ end in
  wf_components schemas /\ paths_wf (dom schemas) (Paths d).
Definition spec_wf (s : Spec) : Prop := wf_components (componentSchemas s) /\ paths_wf (dom (componentSchemas s)) (paths s).

Lemma Build_wf (s : Spec) : spec_wf s -> document_wf (Build s).
Proof.
  intros [H1 H2]. unfold document_wf, Build. cbn. destruct (decide _) as [[E1 E2]|Hn]; cbn; [|done].
  split; [apply map_Forall_empty|]. by rewrite E1 in H2.
Qed.

Lemma op_wf_mono (names names' : gset string) (o : Operation) : names ⊆ names' -> op_wf names o -> op_wf names' o.
Proof. intros Hs H sc Hsc. eapply wf_schema_mono; [exact Hs|by apply H]. Qed.

Definition item_slots (i : PathItem) : list (option Operation) := [Get i; Post i; Put i; Patch i; Delete i; Head i; Options i].

Lemma item_ops_slots (i : PathItem) (o : Operation) : o ∈ item_ops i <-> Some o ∈ item_slots i.
Proof.
  unfold item_ops, item_slots. rewrite list_elem_of_omap. split; [by intros (x & Hx & [= ->])|by intros H; exists (Some o)].
Qed.

Lemma setOp_ops (item : PathItem) (method : string) (o o' : Operation) :
  o' ∈ item_ops (setOp item method o) -> o' = o \/ o' ∈ item_ops item.
Proof.
  rewrite !item_ops_slots. unfold setOp, item_slots. cbv zeta.
  repeat case_match; cbn; rewrite !elem_of_cons; intros Hin; (destruct_or! Hin; try (injection Hin as ->); auto 10).
Qed.

Section Facts.
  Context (decl : decls) (fuel : nat).

Lemma schemaFor_promise (t : gtype) (cs cs' : components) (s : Schema) : schemaFor decl fuel t cs = Some (s, cs') ->
  cs ⊆ cs' /\ (wf_components cs -> wf_components cs' /\ wf_schema (dom cs') s).
Proof. intros H. pose proof (proj1 (walk_invariant decl fuel) t cs) as Hw. by rewrite H in Hw. Qed.

Lemma query_fields_promise (fs : list gfield) (cs cs' : components) (ps : list Parameter_) : query_fields decl fuel fs cs = Some (ps, cs') ->
  cs ⊆ cs' /\ (wf_components cs -> wf_components cs' /\ forall p, p ∈ ps -> wf_schema (dom cs') (p_Schema p)).
Proof.
  revert cs ps. induction fs as [|f fs IH]; intros cs ps; cbn [query_fields].
  { intros [= <- <-]. split; [done|]. intros H. split; [done|]. by intros p ?%not_elem_of_nil. }
  destruct (if exported f then jsonName f else None) as [name|]; [|apply IH].
  destruct (schemaFor decl fuel (f_Type f) cs) as [[sc cs1]|] eqn:E; [|done]. cbn.
  destruct (query_fields decl fuel fs cs1) as [[ps1 cs2]|] eqn:E2; [|done]. cbn. intros [= <- <-].
  apply schemaFor_promise in E as [S1 W1]. apply IH in E2 as [S2 W2]. split; [by etransitivity|].
  intros Hcs. destruct (W1 Hcs) as [Hcs1 Hsc]. destruct (W2 Hcs1) as [Hcs2 Hps]. split; [done|].
  intros p [->|Hp]%elem_of_cons; [|auto]. cbn. eapply wf_same_shape; [apply applyValidate_shape|].
  eapply wf_schema_mono; [by apply subseteq_dom|done].
Qed.

(** What a call in [Register] promises of its result, by the schemas in it. *)
Definition promise {B} (schemas : B -> list Schema) (cs : components) (r : option (B * components)) : Prop :=
  match r with
  | Some (b, cs') => cs ⊆ cs' /\ (wf_components cs -> wf_components cs' /\ forall sc, sc ∈ schemas b -> wf_schema (dom cs') sc)
  | None => True
  end.

Lemma when_some_promise {A B} (schemas : B -> list Schema) (o : option A) (dflt : B) f cs :
  schemas dflt = [] -> (forall v, promise schemas cs (f v cs)) -> promise schemas cs (when_some o dflt f cs).
Proof.
  intros Hd Hf. destruct o; cbn; [apply Hf|]. split; [done|]. intros Hcs. split; [done|]. rewrite Hd. by intros sc ?%not_elem_of_nil.
Qed.

Definition content_schemas (c : content) : list Schema := (map_to_list c).*2.

Lemma json_content_promise (t : gtype) (cs : components) : promise content_schemas cs (json_content decl fuel t cs).
Proof.
  unfold json_content. destruct (schemaFor decl fuel t cs) as [[sc cs1]|] eqn:E; [|done]. cbn.
  apply schemaFor_promise in E as [S1 W1]. split; [done|]. intros Hcs. destruct (W1 Hcs) as [Hcs1 Hsc]. split; [done|].
  unfold content_schemas. rewrite map_to_list_singleton. by intros sc' ->%list_elem_of_singleton.
Qed.

Lemma queryParams_promise (t : gtype) (cs : components) : promise (map p_Schema) cs (queryParams decl fuel t cs).
Proof.
  unfold queryParams. destruct (struct_fields _ _) as [fs|].
  - destruct (query_fields decl fuel fs cs) as [[ps cs1]|] eqn:E; [|done]. apply query_fields_promise in E as [S1 W1].
    split; [done|]. intros Hcs. destruct (W1 Hcs) as [Hcs1 Hps]. split; [done|].
    intros sc Hsc. apply list_elem_of_fmap in Hsc as (p & -> & Hp). auto.
  - split; [done|]. intros Hcs. split; [done|]. by intros sc ?%not_elem_of_nil.
Qed.

Lemma body_promise (t : gtype) (cs : components) :
  promise (fun b => match b with Some b => content_schemas (rb_Content b) | None => [] end) cs
    ('(c, cs) ← json_content decl fuel t cs; Some (Some (MkRequestBody true c), cs)).
Proof. pose proof (json_content_promise t cs) as H. destruct (json_content decl fuel t cs) as [[c cs1]|]; done. Qed.

Lemma Register_wf (method path : string) (op : Op) (s s' : Spec) :
  Register decl fuel method path op s = Some s' -> spec_wf s ->
  componentSchemas s ⊆ componentSchemas s' /\ spec_wf s'.
Proof.
  unfold Register. destruct (convertPath path) as [oapiPath pathParams].
  set (pathps := map _ pathParams). intros H [Hcs Hps]. revert H.
  pose proof (when_some_promise (map p_Schema) (Query op) [] (queryParams decl fuel) (componentSchemas s) eq_refl
    (fun t => queryParams_promise t _)) as Hq.
  destruct (when_some (Query op) _ _ _) as [[qps cs1]|]; [|done]. cbn [mbind option_bind].
  destruct Hq as [S1 W1]. destruct (W1 Hcs) as [Hcs1 Hq].
  match goal with |- context [when_some (Request op) None ?f cs1] =>
    pose proof (when_some_promise _ (Request op) None f cs1 eq_refl (fun t => body_promise t cs1)) as Hb;
    destruct (when_some (Request op) None f cs1) as [[body cs2]|]; [|done]
  end.
  cbn [mbind option_bind]. destruct Hb as [S2 W2]. destruct (W2 Hcs1) as [Hcs2 Hb].
  pose proof (when_some_promise content_schemas (op_Response op) ∅ (json_content decl fuel) cs2
    ltac:(unfold content_schemas; by rewrite map_to_list_empty) (fun t => json_content_promise t cs2)) as Hr.
  destruct (when_some (op_Response op) _ _ cs2) as [[rc cs3]|]; [|done]. cbn [mbind option_bind].
  destruct Hr as [S3 W3]. destruct (W3 Hcs2) as [Hcs3 Hr]. intros [= <-]. cbn [componentSchemas paths].
  assert (Hsub : componentSchemas s ⊆ cs3) by (etransitivity; [exact S1|]; by etransitivity).
  split; [done|]. split; [done|]. cbn [componentSchemas paths].
  intros p item o Hp Ho. apply lookup_insert_Some in Hp as [[<- <-]|[_ Hp]].
  2: { eapply op_wf_mono; [by apply subseteq_dom|by eapply Hps]. }
  apply setOp_ops in Ho as [->|Ho].
  2: { eapply op_wf_mono; [by apply subseteq_dom|]. destruct (paths s !! oapiPath) as [item'|] eqn:E; [by eapply Hps|].
       cbn in Ho. by apply not_elem_of_nil in Ho. }
  intros sc Hsc. unfold op_schemas in Hsc. cbn [Parameters_ o_RequestBody Responses] in Hsc.
  rewrite map_app, !elem_of_app in Hsc. destruct Hsc as [[Hsc|Hsc]|[Hsc|Hsc]].
  - apply list_elem_of_fmap in Hsc as (p & -> & Hsc). apply list_elem_of_fmap in Hsc as (name & -> & _). apply wf_leaf.
  - eapply wf_schema_mono; [|by apply Hq]. etransitivity; apply subseteq_dom; eassumption.
  - eapply wf_schema_mono; [apply subseteq_dom; exact S3|]. apply Hb. by destruct body.
  - rewrite map_to_list_singleton in Hsc. cbn [flat_map r_Content snd] in Hsc. rewrite app_nil_r in Hsc. by apply Hr.
Qed.

Lemma do_call_wf (c : call_) (s s' : Spec) : do_call decl fuel c s = Some s' -> spec_wf s -> spec_wf s'.
Proof.
  destruct c; cbn [do_call].
  - intros H Hwf. by eapply Register_wf.
  - by intros [= <-].
  - intros [= <-]. unfold SpecHandler, bytes. destruct (cached s) as [r|]; [by destruct r|]. by destruct (json_Marshal _).
Qed.

Lemma run_spec_wf (cs : list call_) (s s' : Spec) : run decl fuel cs s = Some s' -> spec_wf s -> spec_wf s'.
Proof.
  revert s. induction cs as [|c cs IH]; intros s; cbn [run]; [by intros [= ->]|].
  destruct (do_call decl fuel c s) as [s1|] eqn:E; [|done]. cbn. intros H Hwf. eapply IH; [exact H|]. by eapply do_call_wf.
Qed.

Lemma New_wf (i : Info) : spec_wf (New i).
Proof. split; [apply map_Forall_empty|]. intros p item o Hp. cbn in Hp. by rewrite lookup_empty in Hp. Qed.

(** ** Serving *)

Lemma do_call_cached (c : call_) (s s' : Spec) (r : error + json) :
  do_call decl fuel c s = Some s' -> cached s = Some r -> cached s' = Some r.
Proof.
  destruct c; cbn [do_call].
  - unfold Register. destruct (convertPath path) as [p ps]. intros H Hc. revert H.
    destruct (when_some (Query op) _ _ _) as [[qps cs1]|]; [|done]. cbn [mbind option_bind].
    destruct (when_some (Request op) _ _ _) as [[body cs2]|]; [|done]. cbn [mbind option_bind].
    destruct (when_some (op_Response op) _ _ _) as [[rc cs3]|]; [|done]. cbn [mbind option_bind]. by intros [= <-].
  - by intros [= <-].
  - intros [= <-] Hc. unfold SpecHandler, bytes. rewrite Hc. by destruct r.
Qed.

Lemma run_cached (cs : list call_) (s s' : Spec) (r : error + json) :
  run decl fuel cs s = Some s' -> cached s = Some r -> cached s' = Some r.
Proof.
  revert s. induction cs as [|c cs IH]; intros s; cbn [run]; [by intros [= ->]|].
  destruct (do_call decl fuel c s) as [s1|] eqn:E; [|done]. cbn. intros H Hc. eapply IH; [exact H|]. by eapply do_call_cached.
Qed.
End Facts.

Lemma SpecHandler_cached (s : Spec) : exists r, cached (SpecHandler s).2 = Some r /\
  (SpecHandler s).1 = match r with inl e => inl e | inr b => inr ("application/json"%string, b) end.
Proof. unfold SpecHandler, bytes. destruct (cached s) as [r|] eqn:E; cbn; eexists; by rewrite ?E. Qed.

(** ** Paths *)

(** The name in a segment of the form ["{name}"]. *)
Definition placeholder (seg : string) : option string :=
  match seg with
  | String "{" r =>
      let n := String.length r in
      if String.eqb (drop_string (n - 1) r) "}" then Some (take_string (n - 1) r) else None
  | _ => None
  end.

Lemma placeholder_braces (name : string) : placeholder ("{" +:+ (name +:+ "}")) = Some name.
Proof.
  change (placeholder (String "{" (name +:+ "}")) = Some name). unfold placeholder.
  rewrite string_app_length. cbn [String.length]. replace (String.length name + 1 - 1)%nat with (String.length name) by lia.
  by rewrite drop_string_app, take_string_app.
Qed.

Lemma convert_segment_sep (seg : string) : contains_char "/" seg = false -> contains_char "/" (convert_segment seg).1 = false.
Proof.
  intros H. unfold convert_segment. cbv zeta. destruct (has_prefix ":" seg); [|by destruct (String.eqb seg "*")]. cbn [fst].
  assert (Hd : contains_char "/" (drop_string 1 seg) = false).
  { destruct seg as [|c [|d seg]]; [done..|]. unfold contains_char in *. cbn [sexists drop_string] in *. by apply orb_false_iff in H as [_ H]. }
  change ("{" +:+ (drop_string 1 seg +:+ "}")) with (String "{" (drop_string 1 seg +:+ "}")).
  unfold contains_char in *. cbn [sexists]. rewrite sexists_app. by rewrite Hd.
Qed.

Lemma convertPath_segments (path : string) :
  split "/" (convertPath path).1 = map (fun seg => (convert_segment seg).1) (split "/" path).
Proof.
  unfold convertPath. cbn [fst]. rewrite map_map. apply split_join.
  - intros E. apply map_eq_nil in E. unfold split in E. by destruct (split_go "/" path).
  - intros x Hx. apply list_elem_of_fmap in Hx as (seg & -> & Hseg).
    apply convert_segment_sep. by eapply split_parts.
Qed.

Lemma convertPath_placeholders (path : string) :
  Forall (fun seg => has_prefix "{" seg = false) (split "/" path) ->
  omap placeholder (split "/" (convertPath path).1) = (convertPath path).2.
Proof.
  intros H. rewrite convertPath_segments. unfold convertPath. cbn [snd].
  induction H as [|seg segs Hseg _ IH]; [done|]. cbn [map]. csimpl. rewrite IH. clear IH.
  assert (E : placeholder (convert_segment seg).1 = (convert_segment seg).2); [|by rewrite E].
  unfold convert_segment. cbv zeta. destruct (has_prefix ":" seg); [apply placeholder_braces|].
  destruct (String.eqb seg "*"); [done|]. cbn [fst snd]. unfold placeholder. destruct seg as [|c seg]; [done|].
  destruct (Ascii.eqb_spec c "{") as [->|Hc]; [by destruct seg|].
  destruct c as [[] [] [] [] [] [] [] []]; done.
Qed.

(** ** Claims *)

(** (C19) Whatever operations a program registers, and however serving interleaves with registration, the
    document refers only to components it defines: every [$ref] in a parameter, a request body, a
    response or a component names a component of the document. *)
Theorem run_document_wf (decl : decls) (fuel : nat) (i : Info) (cs : list call_) (s : Spec)
    (Hrun : run decl fuel cs (New i) = Some s) : document_wf (Build s).
Proof. apply Build_wf. eapply run_spec_wf; [exact Hrun|apply New_wf]. Qed.

Definition sample_op : Op := MkOp "create" "" [] (Some (GNamed 0)) (Some (GPtr (GNamed 0))) (Some (GNamed 1)) 201 true.
Definition sample_calls : list call_ := [CBearer; CRegister "post" "/nodes/:id/*" sample_op; CServe].
Definition sample_spec : Spec := default (New (MkInfo "" "" "")) (run sample_decls 6 sample_calls (New (MkInfo "API" "1" ""))).

Lemma run_document_wf_witness :
  run sample_decls 6 sample_calls (New (MkInfo "API" "1" "")) = Some sample_spec /\ document_wf (Build sample_spec).
Proof.
  assert (H : run sample_decls 6 sample_calls (New (MkInfo "API" "1" "")) = Some sample_spec) by (vm_compute; reflexivity).
  split; [exact H|]. exact (run_document_wf _ _ _ _ _ H).
Defined.

Definition methods : list string := ["GET"; "POST"; "PUT"; "PATCH"; "DELETE"; "HEAD"; "OPTIONS"]%string.

(** The operation of a method. *)
Definition op_at (method : string) (i : PathItem) : option Operation :=
  match (list_to_map (zip methods (item_slots i)) : gmap string (option Operation)) !! method with Some o => o | None => None end.

Lemma op_at_setOp (item : PathItem) (method m : string) (o : Operation) : to_upper method ∈ methods -> m ∈ methods ->
  op_at m (setOp item method o) = if String.eqb m (to_upper method) then Some o else op_at m item.
Proof.
  intros Hm Hm'. unfold setOp. cbv zeta. generalize dependent (to_upper method). intros mu Hm.
  unfold methods in Hm, Hm'. rewrite !elem_of_cons, elem_of_nil in Hm, Hm'.
  destruct_or! Hm; destruct_or! Hm'; subst; reflexivity || contradiction.
Qed.

Lemma query_fields_in (decl : decls) (fuel : nat) (fs : list gfield) (cs cs' : components) (ps : list Parameter_) :
  query_fields decl fuel fs cs = Some (ps, cs') -> Forall (fun p => p_In p = "query"%string) ps.
Proof.
  revert cs ps. induction fs as [|f fs IH]; intros cs ps; cbn [query_fields]; [intros [= <- <-]; constructor|].
  case_match; [|apply IH]. destruct (schemaFor decl fuel (f_Type f) cs) as [[sc cs1]|]; [|done]. cbn.
  destruct (query_fields decl fuel fs cs1) as [[ps1 cs2]|] eqn:E2; [|done]. cbn. intros [= <- <-].
  constructor; [done|]. by eapply IH.
Qed.

Lemma queryParams_in (decl : decls) (fuel : nat) (t : gtype) (cs cs' : components) (ps : list Parameter_) :
  queryParams decl fuel t cs = Some (ps, cs') -> Forall (fun p => p_In p = "query"%string) ps.
Proof. unfold queryParams. destruct (struct_fields _ _); [apply query_fields_in|intros [= <- <-]; constructor]. Qed.

(** Registering an operation under a known method, in any case, puts it at the converted path and that
    method, leaves the other methods of the path and every other path alone, and keeps the earlier
    components. Its path parameters are the placeholders of the documented path, in order, and
    required; unless a segment of the given path starts with a brace itself. *)
Theorem Register_records (decl : decls) (fuel : nat) (method path : string) (op : Op) (s s' : Spec)
    (Hm : to_upper method ∈ methods) (Hlit : Forall (fun seg => has_prefix "{" seg = false) (split "/" path))
    (Hrun : Register decl fuel method path op s = Some s') :
  exists o item, paths s' = <[(convertPath path).1 := item]> (paths s) /\
    op_at (to_upper method) item = Some o /\
    (forall m, m ∈ methods -> m <> to_upper method -> op_at m item = paths s !! (convertPath path).1 ≫= op_at m) /\
    (exists query_params, Parameters_ o =
      map (fun name => MkParameter name "path" true (typed "string" ""))
        (omap placeholder (split "/" (convertPath path).1)) ++ query_params /\
      Forall (fun p => p_In p = "query"%string) query_params).
Proof.
  rewrite (convertPath_placeholders path Hlit). revert Hrun. unfold Register.
  destruct (convertPath path) as [oapiPath pathParams]. cbn [fst snd].
  destruct (when_some (Query op) _ _ _) as [[qps cs1]|] eqn:Eq; [|done]. cbn [mbind option_bind].
  destruct (when_some (Request op) _ _ _) as [[body cs2]|]; [|done]. cbn [mbind option_bind].
  destruct (when_some (op_Response op) _ _ _) as [[rc cs3]|]; [|done]. cbn [mbind option_bind]. intros [= <-].
  cbn [paths]. eexists _, _. split; [reflexivity|]. split_and!.
  - rewrite op_at_setOp by done. by rewrite String.eqb_refl.
  - intros m Hm' Hne. rewrite op_at_setOp by done. rewrite (proj2 (String.eqb_neq _ _) Hne).
    destruct (paths s !! oapiPath) as [item|]; [done|]. cbn.
    unfold methods in Hm'. rewrite !elem_of_cons, elem_of_nil in Hm'. by destruct_or! Hm'; subst.
  - exists qps. cbn [Parameters_]. split; [done|]. destruct (Query op) as [t|]; cbn [when_some] in Eq; [|by injection Eq as <- _].
    by eapply queryParams_in.
Qed.

Lemma Register_records_witness :
  exists s', Register sample_decls 6 "post" "/nodes/:id/*" sample_op (New (MkInfo "API" "1" "")) = Some s' /\
    exists o item, paths s' = <[(convertPath "/nodes/:id/*").1 := item]> ∅ /\ op_at "POST" item = Some o.
Proof.
  eexists. split; [vm_compute; reflexivity|].
  destruct (Register_records sample_decls 6 "post" "/nodes/:id/*" sample_op (New (MkInfo "API" "1" "")) _
    ltac:(vm_compute; right; left) ltac:(vm_compute; repeat constructor) ltac:(vm_compute; reflexivity))
    as (o & item & H1 & H2 & _).
  exists o, item. split; [exact H1|exact H2].
Defined.

(** The document is fixed by the first request: what is registered afterwards is not served. *)
Lemma SpecHandler_once (decl : decls) (fuel : nat) (cs : list call_) (s s' : Spec) :
  run decl fuel cs (SpecHandler s).2 = Some s' -> (SpecHandler s').1 = (SpecHandler s).1.
Proof.
  intros H. destruct (SpecHandler_cached s) as (r & Hc & ->). apply (run_cached _ _ _ _ _ r) in H; [|done].
  unfold SpecHandler, bytes. by rewrite H.
Qed.

(** ** What modelling showed *)

(** A method Fiber knows and [setOp] does not is dropped; its path is documented without operations. *)
Example unknown_method_dropped :
  option_map (fun s => op_at "GET" <$> (paths s !! "/x"%string)) (Register sample_decls 3 "CONNECT" "/x" (MkOp "" "" [] None None None 0 false) (New (MkInfo "" "" "")))
  = Some (Some None).
Proof. vm_compute. reflexivity. Qed.

(** An optional parameter keeps its question mark, and two wildcards share one name. *)
Example optional_and_wildcards :
  convertPath "/u/:id?" = ("/u/{id?}"%string, ["id?"%string]) /\
  convertPath "/a/*/b/*" = ("/a/{wildcard}/b/{wildcard}"%string, ["wildcard"; "wildcard"]%string).
Proof. vm_compute. split; reflexivity. Qed.

(** The fields of an embedded struct are no query parameters; the struct is one, by its name. *)
Example embedded_query :
  option_map (fun r => map p_Name r.1) (queryParams sample_decls 5 (GNamed 0) ∅) = Some ["Base"; "next"; "tags"]%string.
Proof. vm_compute. reflexivity. Qed.

(** An operation may require the bearer scheme in a document that does not define it. *)
Example secured_without_scheme :
  option_map (fun s => match document_json (Build s) with JObject l => map fst l | _ => [] end)
    (Register sample_decls 3 "GET" "/x" (MkOp "" "" [] None None None 0 true) (New (MkInfo "" "" "")))
  = Some ["openapi"; "info"; "paths"]%string.
Proof. vm_compute. reflexivity. Qed.
