(* ===== verification/GoFloatFacts.v ===== *)
(** * Rounding of doubles

    What the packages need of IEEE 754 addition, subtraction and comparison: results are canonical, rounding
    is monotone, so a sum or difference that does not exceed a double is not rounded beyond it, and
    a difference that is a double is exact. A double is read as the integer [sval], its value in
    units of the smallest positive double. *)

From Stdlib Require Import SpecFloat.
From S2P Require Import Prelude GoFloat.
Open Scope Z_scope.

Definition f64_emin : Z := -1074.

(** The value of a non-negative double that is not infinite, in units of [2 ^ f64_emin]. *)
Definition sval (x : spec_float) : Z := match x with S754_finite _ m e => Zpos m * 2 ^ (e - f64_emin) | _ => 0 end.

(** Zero or a canonical positive double. *)
Definition nonneg (x : spec_float) : Prop :=
  match x with
  | S754_zero _ => True
  | S754_finite s m e => s = false /\ bounded f64_prec f64_emax m e = true
  | _ => False
  end.

(** ** Digits *)

Lemma digits2_pos_log2 (p : positive) : Zpos (digits2_pos p) = Z.log2 (Zpos p) + 1.
Proof.
  induction p as [p IH|p IH|]; [| |done]; cbn [digits2_pos]; rewrite Pos2Z.inj_succ, IH.
  - change (Zpos p~1) with (2 * Zpos p + 1). rewrite Z.log2_succ_double by lia. lia.
  - change (Zpos p~0) with (2 * Zpos p). rewrite Z.log2_double by lia. lia.
Qed.

Lemma pow2_pos (n : Z) : 0 <= n -> 0 < 2 ^ n.
Proof. intros. by apply Z.pow_pos_nonneg. Qed.

Definition fexp64 (e : Z) : Z := Z.max (e - 53) f64_emin.
Lemma fexp64_eq (e : Z) : fexp f64_prec f64_emax e = fexp64 e.
Proof. reflexivity. Qed.

(** A canonical mantissa has 53 bits, or fewer at the smallest exponent. *)
Lemma bounded_spec (m : positive) (e : Z) :
  bounded f64_prec f64_emax m e = true <->
  f64_emin <= e <= 971 /\ Zpos m < 2 ^ 53 /\ (e = f64_emin \/ 2 ^ 52 <= Zpos m).
Proof.
  unfold bounded, canonical_mantissa. rewrite andb_true_iff, Z.eqb_eq, Z.leb_le, fexp64_eq, digits2_pos_log2.
  unfold fexp64, f64_emax, f64_prec, f64_emin.
  assert (Hlo : 2 ^ Z.log2 (Zpos m) <= Zpos m < 2 ^ Z.succ (Z.log2 (Zpos m))) by (apply Z.log2_spec; lia).
  pose proof (Z.log2_nonneg (Zpos m)) as Hn. split.
  - intros [H1 H2]. split; [lia|].
    assert (Hl : Z.log2 (Zpos m) <= 52) by lia. split.
    + eapply Z.lt_le_trans; [apply Hlo|]. apply Z.pow_le_mono_r; lia.
    + destruct (Z.eq_dec e (-1074)); [by left|right]. replace 52 with (Z.log2 (Zpos m)) by lia. apply Hlo.
  - intros (H1 & H2 & H3). assert (Hl : Z.log2 (Zpos m) < 53) by (apply Z.log2_lt_pow2; lia).
    split; [|lia]. destruct H3 as [->|H3]; [lia|]. apply Z.log2_le_pow2 in H3; lia.
Qed.

(** ** Shifting right *)

Lemma iter_pos_nat {A} (f : A -> A) (p : positive) (x : A) : iter_pos f p x = Nat.iter (Pos.to_nat p) f x.
Proof.
  revert x. induction p as [p IH|p IH|]; intros x; cbn [iter_pos]; [| |done].
  - rewrite !IH, Pos2Nat.inj_xI. rewrite <- Nat.iter_add, <- Nat.iter_succ_r. f_equal. lia.
  - rewrite !IH, Pos2Nat.inj_xO. rewrite <- Nat.iter_add. f_equal. lia.
Qed.

Lemma shr_1_spec (r : shr_record) : 0 <= shr_m r ->
  shr_m (shr_1 r) = shr_m r / 2 /\
  (shr_r r || shr_s r = false -> shr_m r mod 2 = 0 -> shr_r (shr_1 r) || shr_s (shr_1 r) = false).
Proof.
  destruct r as [m b1 b2]. cbn [shr_m shr_r shr_s]. intros Hm. destruct m as [|[p|p|]|]; cbn; [| | | |lia].
  - split; [done|]. by intros ->.
  - change (Zpos p~1) with (2 * Zpos p + 1). rewrite Z.mul_comm, Z.add_comm, Z_div_plus_full, Z_mod_plus_full by lia. split; [done|]. done.
  - change (Zpos p~0) with (2 * Zpos p). rewrite Z.mul_comm, Z_div_mult_full by lia. split; [done|]. by intros ->.
  - split; [done|]. done.
Qed.

Lemma shr_iter_spec (n : nat) (m : Z) : 0 <= m ->
  let r := Nat.iter n shr_1 (Build_shr_record m false false) in
  shr_m r = m / 2 ^ Z.of_nat n /\ (m mod 2 ^ Z.of_nat n = 0 -> shr_r r || shr_s r = false).
Proof.
  intros Hm. induction n as [|n IH]; cbn zeta in *.
  { cbn. rewrite Z.div_1_r. done. }
  rewrite Nat.iter_succ. destruct IH as [I1 I2]. generalize dependent (Nat.iter n shr_1 (Build_shr_record m false false)). intros r I1 I2.
  assert (Hp : 0 < 2 ^ Z.of_nat n) by (apply pow2_pos; lia).
  assert (Hr : 0 <= shr_m r) by (rewrite I1; apply Z.div_pos; lia).
  destruct (shr_1_spec r Hr) as [S1 S2]. rewrite Nat2Z.inj_succ, Z.pow_succ_r by lia. split.
  - rewrite S1, I1, Z.div_div by lia. f_equal. lia.
  - intros Hmod. rewrite (Z.mul_comm 2), Z.rem_mul_r in Hmod by lia.
    pose proof (Z.mod_pos_bound m (2 ^ Z.of_nat n) Hp). pose proof (Z.mod_pos_bound (m / 2 ^ Z.of_nat n) 2).
    apply S2; [apply I2|rewrite I1]; nia.
Qed.

(** What a shift and the rounding of its remainder yield: the quotient or its successor, and the quotient when
    the remainder is zero. *)
Lemma shr_round (m e n : Z) : 0 <= m -> 0 <= n ->
  exists q, let '(r, e') := shr (shr_record_of_loc m loc_Exact) e n in
    e' = e + n /\ round_nearest_even (shr_m r) (loc_of_shr_record r) = q /\
    (q = m / 2 ^ n \/ q = m / 2 ^ n + 1) /\ (m mod 2 ^ n = 0 -> q = m / 2 ^ n).
Proof.
  intros Hm Hn. destruct n as [|p|]; [| |lia].
  - exists m. cbn. rewrite Z.div_1_r. split_and!; [lia|done|by left|done].
  - cbn [shr shr_record_of_loc]. rewrite iter_pos_nat.
    destruct (shr_iter_spec (Pos.to_nat p) m Hm) as [S1 S2]. rewrite positive_nat_Z in S1, S2.
    destruct (Nat.iter _ _ _) as [q b1 b2]. cbn [shr_m shr_r shr_s] in S1, S2. eexists. split; [done|]. split; [reflexivity|].
    rewrite S1. cbn. split; [destruct b1, b2; cbn; try case_match; auto|].
    intros Hz. apply S2 in Hz. by destruct b1, b2.
Qed.

(** ** Rounding a positive dyadic *)

Lemma iter_xO (m : positive) (d : positive) : Zpos (Pos.iter xO m d) = Zpos m * 2 ^ Zpos d.
Proof.
  revert m. induction d as [|d IH] using Pos.peano_ind; intros m; [cbn; lia|].
  rewrite Pos.iter_succ, Pos2Z.inj_succ, Z.pow_succ_r by lia. change (Zpos (xO (Pos.iter xO m d))) with (2 * Zpos (Pos.iter xO m d)). rewrite IH. lia.
Qed.

Lemma log2_bounds (m : Z) : 0 < m -> 2 ^ Z.log2 m <= m < 2 ^ (Z.log2 m + 1).
Proof. apply Z.log2_spec. Qed.

(** No shift when the exponent is the canonical one. *)
Lemma round_aux_canonical (m : positive) (e : Z) : fexp64 (Z.log2 (Zpos m) + 1 + e) = e ->
  binary_round_aux f64_prec f64_emax false (Zpos m) e loc_Exact = if e <=? 971 then S754_finite false m e else S754_infinity false.
Proof.
  intros He. unfold binary_round_aux, shr_fexp. cbn [Zdigits2]. rewrite digits2_pos_log2, fexp64_eq, He, Z.sub_diag.
  cbn [shr shr_record_of_loc shr_m loc_of_shr_record round_nearest_even Zdigits2].
  rewrite digits2_pos_log2, fexp64_eq, He, Z.sub_diag. reflexivity.
Qed.

Lemma log2_eq (m n : Z) : 0 <= n -> 2 ^ n <= m < 2 ^ (n + 1) -> Z.log2 m = n.
Proof. intros Hn Hm. apply Z.log2_unique; [done|]. by replace (Z.succ n) with (n + 1) by lia. Qed.

(** The value of [q * 2 ^ e'] next to [m * 2 ^ e]: whichever side of the latter a canonical double lies on, the
    former is on that side too. *)
Definition brackets_value (m e q e' : Z) : Prop :=
  forall my ey, f64_emin <= ey -> 0 < my < 2 ^ 53 ->
    (m * 2 ^ (e - f64_emin) <= my * 2 ^ (ey - f64_emin) -> q * 2 ^ (e' - f64_emin) <= my * 2 ^ (ey - f64_emin)) /\
    (my * 2 ^ (ey - f64_emin) <= m * 2 ^ (e - f64_emin) -> my * 2 ^ (ey - f64_emin) <= q * 2 ^ (e' - f64_emin)).

Lemma brackets_exact (m e q e' : Z) :
  q * 2 ^ (e' - f64_emin) = m * 2 ^ (e - f64_emin) -> brackets_value m e q e'.
Proof. intros E my ey _ _. by rewrite E. Qed.

Lemma pow_split (a b : Z) : 0 <= a <= b -> 2 ^ b = 2 ^ a * 2 ^ (b - a).
Proof. intros. rewrite <- Z.pow_add_r by lia. f_equal. lia. Qed.

(** Rounding to 53 bits, when [m] has [53 + n] of them. *)
Lemma brackets_shift (m e n q : Z) : f64_emin <= e -> 0 < n -> 2 ^ 52 <= m / 2 ^ n -> 0 < m ->
  (q = m / 2 ^ n \/ q = m / 2 ^ n + 1) -> (m mod 2 ^ n = 0 -> q = m / 2 ^ n) -> brackets_value m e q (e + n).
Proof.
  intros He Hn Hq0 Hm Hq Hexact my ey Hey Hmy.
  assert (Hpn : 0 < 2 ^ n) by (apply pow2_pos; lia).
  pose proof (Z.div_mod m (2 ^ n) ltac:(lia)) as Hdm. pose proof (Z.mod_pos_bound m (2 ^ n) Hpn) as Hr.
  set (q0 := m / 2 ^ n) in *. set (r := m mod 2 ^ n) in *.
  replace (e + n - f64_emin) with (e - f64_emin + n) by lia. rewrite Z.pow_add_r by lia.
  set (P := 2 ^ (e - f64_emin)). assert (HP : 0 < P) by (apply pow2_pos; lia).
  destruct (Z_le_gt_dec (e + n) ey) as [Hle|Hgt].
  - replace (ey - f64_emin) with (e - f64_emin + n + (ey - (e + n))) by lia. rewrite !Z.pow_add_r by lia. fold P.
    assert (HK : 0 < 2 ^ (ey - (e + n))) by (apply pow2_pos; lia). set (K := 2 ^ (ey - (e + n))) in *.
    replace (my * (P * 2 ^ n * K)) with (my * K * (P * 2 ^ n)) by ring. set (k := my * K) in *. clearbody k K P.
    rewrite Hdm. split; intros H.
    + assert (2 ^ n * q0 + r <= k * 2 ^ n) by nia.
      destruct (Z.eq_dec r 0) as [Hr0|Hr0]; [rewrite (Hexact Hr0); nia|]. assert (q0 < k) by nia. nia.
    + assert (k * 2 ^ n <= 2 ^ n * q0 + r) by nia. assert (k <= q0) by nia. nia.
  - assert (Hlt : my * 2 ^ (ey - f64_emin) < q0 * (P * 2 ^ n)).
    { unfold P. rewrite <- Z.pow_add_r by lia.
      assert (H1 : 2 ^ (ey - f64_emin) * 2 <= 2 ^ (e - f64_emin + n)).
      { replace (2 ^ (ey - f64_emin) * 2) with (2 ^ (ey - f64_emin + 1)) by (rewrite Z.pow_add_r by lia; lia). apply Z.pow_le_mono_r; lia. }
      pose proof (pow2_pos (ey - f64_emin) ltac:(lia)) as H2. generalize dependent (2 ^ (e - f64_emin + n)). generalize dependent (2 ^ (ey - f64_emin)).
      change (2 ^ 53) with (2 * 2 ^ 52) in Hmy. clear -Hq0 Hmy. generalize dependent (2 ^ 52). intros. nia. }
    split; intros H; [exfalso|]; rewrite ?Hdm in H; nia.
Qed.

(** What a rounding is to be: a 53-bit significand at an exponent not below the smallest, that brackets the value. *)
Definition rounds_to (m : positive) (e : Z) (q : positive) (e' : Z) : Prop :=
  f64_emin <= e' /\ Zpos q < 2 ^ 53 /\ (e' = f64_emin \/ 2 ^ 52 <= Zpos q) /\ brackets_value (Zpos m) e (Zpos q) e'.

(** At or below its exponent, a value is only aligned ... *)
Lemma align_exact (m : positive) (e d : Z) : d <= e ->
  exists mz, shl_align m e d = (mz, d) /\ Zpos mz = Zpos m * 2 ^ (e - d) /\ Z.log2 (Zpos mz) = Z.log2 (Zpos m) + (e - d).
Proof.
  intros Hle. assert (Hal : exists mz, shl_align m e d = (mz, d) /\ Zpos mz = Zpos m * 2 ^ (e - d)).
  { unfold shl_align. destruct (d - e) as [|p|p] eqn:E.
    - exists m. replace d with e by lia. rewrite Z.sub_diag. split; [done|]. cbn. lia.
    - lia.
    - exists (Pos.iter xO m p). split; [done|]. rewrite iter_xO. f_equal. f_equal. lia. }
  destruct Hal as (mz & E & Hmz). exists mz. split_and!; [done|done|]. rewrite Hmz, Z.log2_mul_pow2 by lia. lia.
Qed.

(** ... and above it, the bits that do not fit are rounded away; a carry moves the exponent up. *)
Lemma round_above (m : positive) (e : Z) (d := fexp64 (Z.log2 (Zpos m) + 1 + e)) : f64_emin <= e -> e < d ->
  exists q e', binary_round_aux f64_prec f64_emax false (Zpos m) e loc_Exact = (if e' <=? 971 then S754_finite false q e' else S754_infinity false) /\ rounds_to m e q e'.
Proof.
  intros He Hgt. pose proof (log2_bounds (Zpos m) ltac:(lia)) as Hlog. pose proof (Z.log2_nonneg (Zpos m)) as Hl0.
  assert (Hd : d = Z.max (Z.log2 (Zpos m) + 1 + e - 53) f64_emin) by reflexivity.
  assert (Hlm : Z.log2 (Zpos m) = 52 + (d - e)) by lia. set (n := d - e) in *.
  assert (Hpn : 0 < 2 ^ n) by (apply pow2_pos; lia).
  assert (Hq0 : 2 ^ 52 <= Zpos m / 2 ^ n < 2 ^ 53).
  { rewrite Hlm in Hlog. replace (52 + n + 1) with (53 + n) in Hlog by lia. rewrite !Z.pow_add_r in Hlog by lia. split.
    - apply Z.div_le_lower_bound; [done|]. lia.
    - apply Z.div_lt_upper_bound; [done|]. lia. }
  unfold binary_round_aux, shr_fexp at 1. cbn [Zdigits2]. rewrite digits2_pos_log2, fexp64_eq. fold d. fold n.
  destruct (shr_round (Zpos m) e n ltac:(lia) ltac:(lia)) as (q & Hshr).
  destruct (shr (shr_record_of_loc (Zpos m) loc_Exact) e n) as [r e1]. destruct Hshr as (-> & -> & Hq & Hexact).
  pose proof (brackets_shift (Zpos m) e n q He ltac:(lia) (proj1 Hq0) ltac:(lia) Hq Hexact) as Hbr.
  replace (e + n) with d in * by lia. destruct q as [|q|q]; [lia| |lia].
  destruct (Z_lt_ge_dec (Zpos q) (2 ^ 53)) as [Hlt|Hge].
  - assert (Hlq : Z.log2 (Zpos q) = 52) by (apply log2_eq; lia).
    unfold shr_fexp. cbn [Zdigits2]. rewrite digits2_pos_log2, Hlq, fexp64_eq.
    replace (fexp64 (52 + 1 + d)) with d by (unfold fexp64, f64_emin in *; lia). rewrite Z.sub_diag. cbn [shr shr_record_of_loc shr_m].
    exists q, d. split; [done|]. split_and!; [lia|done|right; lia|done].
  - assert (Hq53 : q = 9007199254740992%positive) by lia. rewrite Hq53 in Hbr |- *.
    unfold shr_fexp. cbn [Zdigits2]. rewrite digits2_pos_log2, fexp64_eq. change (Z.log2 9007199254740992) with 53.
    replace (fexp64 (53 + 1 + d)) with (d + 1) by (unfold fexp64, f64_emin in *; lia).
    replace (d + 1 - d) with 1 by lia. cbn [shr shr_record_of_loc iter_pos shr_1 shr_m].
    exists 4503599627370496%positive, (d + 1). split; [reflexivity|]. split_and!; [lia|lia|right; lia|].
    intros my ey Hey Hmy. replace (4503599627370496 * 2 ^ (d + 1 - f64_emin)) with (9007199254740992 * 2 ^ (d - f64_emin)); [by apply Hbr|].
    replace (d + 1 - f64_emin) with (1 + (d - f64_emin)) by lia. rewrite Z.pow_add_r by lia. lia.
Qed.

(** [binary_round] of a positive integer scaled by a power of two not below the smallest. *)
Lemma binary_round_spec (m : positive) (e : Z) : f64_emin <= e ->
  exists q e', binary_round f64_prec f64_emax false m e = (if e' <=? 971 then S754_finite false q e' else S754_infinity false) /\
    f64_emin <= e' /\ Zpos q < 2 ^ 53 /\ (e' = f64_emin \/ 2 ^ 52 <= Zpos q) /\ brackets_value (Zpos m) e (Zpos q) e'.
Proof.
  intros He. set (d := fexp64 (Z.log2 (Zpos m) + 1 + e)). pose proof (log2_bounds (Zpos m) ltac:(lia)) as Hlog.
  assert (Hd : d = Z.max (Z.log2 (Zpos m) + 1 + e - 53) f64_emin) by reflexivity.
  unfold binary_round. rewrite digits2_pos_log2, fexp64_eq. fold d. destruct (Z_le_gt_dec d e) as [Hle|Hgt].
  - destruct (align_exact m e d Hle) as (mz & -> & Hmz & Hlz). exists mz, d.
    split; [apply round_aux_canonical; rewrite Hlz; unfold d at 2; f_equal; lia|].
    pose proof (log2_bounds (Zpos mz) ltac:(lia)) as Hlq. split_and!; [lia| | |].
    + eapply Z.lt_le_trans; [apply Hlq|]. apply Z.pow_le_mono_r; lia.
    + destruct (Z.eq_dec d f64_emin); [by left|right]. eapply Z.le_trans; [|apply Hlq]. apply Z.pow_le_mono_r; lia.
    + apply brackets_exact. rewrite Hmz, <- Z.mul_assoc, <- Z.pow_add_r by lia. f_equal. f_equal. lia.
  - assert (Hal : shl_align m e d = (m, e)) by (unfold shl_align; destruct (d - e) eqn:E; [done|done|lia]). rewrite Hal.
    destruct (round_above m e He) as (q & e' & H1 & H2); [fold d; lia|]. by exists q, e'.
Qed.

(** ** Comparison *)

Lemma scaled_pos (m : positive) (e : Z) : f64_emin <= e -> 0 < Zpos m * 2 ^ (e - f64_emin).
Proof. intros. apply Z.mul_pos_pos; [done|]. apply pow2_pos. lia. Qed.

Lemma nonneg_sval (x : spec_float) : nonneg x -> 0 <= sval x.
Proof. destruct x as [| | |s m e]; cbn [nonneg sval]; try done. intros [_ [[? ?] _]%bounded_spec]. pose proof (scaled_pos m e ltac:(lia)). lia. Qed.

Lemma canonical_lt (m1 m2 : positive) (e1 e2 : Z) :
  bounded f64_prec f64_emax m1 e1 = true -> bounded f64_prec f64_emax m2 e2 = true -> e1 < e2 ->
  Zpos m1 * 2 ^ (e1 - f64_emin) < Zpos m2 * 2 ^ (e2 - f64_emin).
Proof.
  intros (H1 & H2 & H3)%bounded_spec (H4 & H5 & H6)%bounded_spec Hlt.
  replace (e2 - f64_emin) with (e1 - f64_emin + 1 + (e2 - e1 - 1)) by lia. rewrite !Z.pow_add_r by lia.
  pose proof (pow2_pos (e1 - f64_emin) ltac:(lia)) as P1. pose proof (pow2_pos (e2 - e1 - 1) ltac:(lia)) as P2.
  destruct H6 as [?|H6]; [lia|]. assert (Hm : Zpos m1 < 2 * Zpos m2) by lia. clear -P1 P2 Hm.
  change (2 ^ 1) with 2. generalize dependent (2 ^ (e1 - f64_emin)). generalize dependent (2 ^ (e2 - e1 - 1)). intros k Hk b Hb.
  apply Z.lt_le_trans with (2 * Zpos m2 * b); [nia|]. replace (Zpos m2 * (b * 2 * k)) with (2 * Zpos m2 * b * k) by ring. nia.
Qed.

Lemma compare_sval (x y : spec_float) : nonneg x -> nonneg y -> SFcompare x y = Some (sval x ?= sval y).
Proof.
  destruct x as [sx| | |sx mx ex], y as [sy| | |sy my ey]; cbn [nonneg]; try done.
  - intros _ [-> [[? ?] _]%bounded_spec]. cbn [SFcompare sval]. f_equal. symmetry. apply Z.compare_lt_iff. by apply scaled_pos.
  - intros [-> [[? ?] _]%bounded_spec] _. cbn [SFcompare sval]. f_equal. symmetry. apply Z.compare_gt_iff. by apply scaled_pos.
  - intros [-> Hx] [-> Hy]. cbn [SFcompare sval]. f_equal. symmetry. destruct (Z.compare_spec ex ey) as [->|Hlt|Hgt].
    + apply bounded_spec in Hy as [? _]. rewrite <- Zmult_compare_compat_r; [done|]. apply Z.lt_gt, pow2_pos. lia.
    + apply Z.compare_lt_iff. by apply canonical_lt.
    + apply Z.compare_gt_iff. by apply canonical_lt.
Qed.

Lemma ltb_sval (x y : spec_float) : nonneg x -> nonneg y -> SFltb x y = (sval x <? sval y).
Proof. intros Hx Hy. unfold SFltb, Z.ltb. by rewrite compare_sval by done. Qed.
Lemma leb_sval (x y : spec_float) : nonneg x -> nonneg y -> SFleb x y = (sval x <=? sval y).
Proof. intros Hx Hy. unfold SFleb, Z.leb. rewrite compare_sval by done. by destruct (_ ?= _). Qed.

(** ** Sums and differences *)

(** The double next to a non-negative number [v] (in units of the smallest double): a double bounds it as it
    bounds [v]. *)
Definition rounds (v : Z) (r : spec_float) : Prop :=
  nonneg r /\ forall y, nonneg y -> (v <= sval y -> sval r <= sval y) /\ (sval y <= v -> sval y <= sval r).

Lemma rounds_exact (v : Z) (r y : spec_float) : rounds v r -> nonneg y -> sval y = v -> sval r = v.
Proof. intros [_ H] Hy E. destruct (H y Hy) as [H1 H2]. lia. Qed.

Lemma sval_max (x : spec_float) : nonneg x -> sval x < 2 ^ 2098.
Proof.
  destruct x as [| | |s m e]; cbn [nonneg sval]; try done. intros [_ (H1 & H2 & _)%bounded_spec].
  assert (H3 : 2 ^ (e - f64_emin) <= 2 ^ 2045) by (apply Z.pow_le_mono_r; unfold f64_emin in *; lia).
  replace 2098 with (53 + 2045) by lia. rewrite Z.pow_add_r by lia. pose proof (pow2_pos (e - f64_emin) ltac:(lia)).
  pose proof (pow2_pos 2045 ltac:(lia)). generalize dependent (2 ^ 2045). generalize dependent (2 ^ (e - f64_emin)). generalize dependent (2 ^ 53). intros. nia.
Qed.

(** Normalising a non-negative dyadic below the largest double. *)
Lemma normalize_rounds (m e : Z) : 0 <= m -> f64_emin <= e ->
  (exists y, nonneg y /\ m * 2 ^ (e - f64_emin) <= sval y) ->
  rounds (m * 2 ^ (e - f64_emin)) (binary_normalize f64_prec f64_emax m e false).
Proof.
  intros Hm He (top & Htop & Hle). destruct m as [|m|m]; [| |lia]; cbn [binary_normalize].
  - split; [done|]. intros y Hy. cbn [sval]. pose proof (nonneg_sval y Hy). lia.
  - destruct (binary_round_spec m e He) as (q & e' & -> & He' & Hq & Hc & Hbr).
    assert (Hb : forall y, nonneg y -> (Zpos m * 2 ^ (e - f64_emin) <= sval y -> Zpos q * 2 ^ (e' - f64_emin) <= sval y) /\
                   (sval y <= Zpos m * 2 ^ (e - f64_emin) -> sval y <= Zpos q * 2 ^ (e' - f64_emin))).
    { intros [| | |s my ey]; cbn [nonneg sval]; try done; intros Hy.
      - pose proof (scaled_pos m e He). pose proof (scaled_pos q e' He'). split; lia.
      - destruct Hy as [_ (H1 & H2 & _)%bounded_spec]. apply Hbr; lia. }
    assert (He971 : e' <= 971).
    { destruct (Z_le_gt_dec e' 971) as [|Hgt]; [done|exfalso]. destruct Hc as [->|Hc]; [unfold f64_emin in *; lia|].
      pose proof (sval_max top Htop) as Hmax. apply (Hb top Htop) in Hle.
      assert (H1 : 2 ^ 2046 <= 2 ^ (e' - f64_emin)) by (apply Z.pow_le_mono_r; unfold f64_emin in *; lia).
      replace 2098 with (52 + 2046) in Hmax by lia. rewrite Z.pow_add_r in Hmax by lia. pose proof (pow2_pos 2046 ltac:(lia)).
      generalize dependent (2 ^ 2046). generalize dependent (2 ^ (e' - f64_emin)). generalize dependent (2 ^ 52). intros. nia. }
    rewrite (proj2 (Z.leb_le _ _) He971). split.
    + cbn [nonneg]. split; [done|]. apply bounded_spec. lia.
    + cbn [sval]. exact Hb.
Qed.

Lemma shl_align_value (m : positive) (e e' : Z) : e' <= e -> Zpos (fst (shl_align m e e')) = Zpos m * 2 ^ (e - e').
Proof.
  intros Hle. unfold shl_align. destruct (e' - e) as [|p|p] eqn:E; [| lia|]; cbn [fst].
  - replace (e - e') with 0 by lia. cbn. lia.
  - rewrite iter_xO. f_equal. f_equal. lia.
Qed.

Lemma align_sval (m : positive) (e ez : Z) : f64_emin <= ez <= e ->
  Zpos (fst (shl_align m e ez)) * 2 ^ (ez - f64_emin) = Zpos m * 2 ^ (e - f64_emin).
Proof. intros H. rewrite shl_align_value by lia. rewrite <- Z.mul_assoc, <- Z.pow_add_r by lia. f_equal. f_equal. lia. Qed.

Lemma rounds_self (x : spec_float) (v : Z) : nonneg x -> v = sval x -> rounds v x.
Proof. intros Hx ->. split; [done|]. intros y Hy. lia. Qed.

Lemma sub_rounds (x y : spec_float) : nonneg x -> nonneg y -> sval y <= sval x -> rounds (sval x - sval y) (f64_sub x y).
Proof.
  intros Hx Hy Hle. unfold f64_sub. destruct x as [sx| | |sx mx ex], y as [sy| | |sy my ey]; cbn [nonneg] in *; try done.
  - cbn [SFsub]. destruct sx, sy; by apply rounds_self.
  - exfalso. destruct Hy as [_ [[? ?] _]%bounded_spec]. cbn [sval] in Hle. pose proof (scaled_pos my ey ltac:(lia)). lia.
  - cbn [SFsub]. apply rounds_self; [done|]. cbn [sval]. lia.
  - destruct Hx as [-> Hx], Hy as [-> Hy]. pose proof Hx as (Hx1 & _)%bounded_spec. pose proof Hy as (Hy1 & _)%bounded_spec.
    cbn [SFsub cond_Zopp]. set (ez := Z.min ex ey). cbn [sval] in *.
    assert (Hv : Zpos mx * 2 ^ (ex - f64_emin) - Zpos my * 2 ^ (ey - f64_emin) =
      (Zpos (fst (shl_align mx ex ez)) - Zpos (fst (shl_align my ey ez))) * 2 ^ (ez - f64_emin)).
    { rewrite Z.mul_sub_distr_r, !align_sval by lia. done. }
    rewrite Hv in *. pose proof (pow2_pos (ez - f64_emin) ltac:(lia)). pose proof (scaled_pos my ey ltac:(lia)).
    apply normalize_rounds; [nia|lia|]. exists (S754_finite false mx ex). split; [done|]. cbn [sval]. lia.
Qed.

(** What sums and products of non-negative numbers are, overflow and NaN included. *)
Definition wide (x : spec_float) : Prop := x = S754_nan \/ x = S754_infinity false \/ nonneg x.

Lemma nonneg_wide (x : spec_float) : nonneg x -> wide x.
Proof. by right; right. Qed.

Lemma normalize_wide (m e : Z) : 0 <= m -> f64_emin <= e -> wide (binary_normalize f64_prec f64_emax m e false).
Proof.
  intros Hm He. destruct m as [|m|m]; [by apply nonneg_wide| |lia]. cbn [binary_normalize].
  destruct (binary_round_spec m e He) as (q & e' & -> & He' & Hq & Hc & _).
  destruct (Z.leb_spec e' 971) as [Hle|]; [apply nonneg_wide|right; by left]. cbn [nonneg]. split; [done|]. apply bounded_spec. lia.
Qed.

Lemma add_wide (x y : spec_float) : nonneg x -> wide y -> wide (f64_add x y).
Proof.
  intros Hx [->|[->|Hy]]; unfold f64_add.
  - left. by destruct x as [[]|[]| |].
  - destruct x as [sx|sx| |sx mx ex]; cbn [SFadd] in *; try done; by right; left.
  - destruct x as [sx| | |sx mx ex], y as [sy| | |sy my ey]; cbn [nonneg] in *; try done; cbn [SFadd]; try (by apply nonneg_wide).
    + apply nonneg_wide. by destruct sx, sy.
    + destruct Hx as [-> Hx], Hy as [-> Hy]. pose proof Hx as (Hx1 & _)%bounded_spec. pose proof Hy as (Hy1 & _)%bounded_spec.
      cbn [cond_Zopp]. apply normalize_wide; lia.
Qed.

(** A product, whose mantissa has at least the bits the format keeps. *)
Lemma round_aux_wide (m : positive) (e : Z) : e <= fexp64 (Z.log2 (Zpos m) + 1 + e) ->
  wide (binary_round_aux f64_prec f64_emax false (Zpos m) e loc_Exact).
Proof.
  intros Hle. set (d := fexp64 (Z.log2 (Zpos m) + 1 + e)) in *. pose proof (log2_bounds (Zpos m) ltac:(lia)) as Hlog.
  pose proof (Z.log2_nonneg (Zpos m)) as Hl0.
  assert (Hd : d = Z.max (Z.log2 (Zpos m) + 1 + e - 53) f64_emin) by reflexivity.
  unfold binary_round_aux, shr_fexp at 1. cbn [Zdigits2]. rewrite digits2_pos_log2, fexp64_eq. fold d. set (n := d - e) in *.
  assert (Hpn : 0 < 2 ^ n) by (apply pow2_pos; lia).
  destruct (shr_round (Zpos m) e n ltac:(lia) ltac:(lia)) as (q & Hshr).
  destruct (shr (shr_record_of_loc (Zpos m) loc_Exact) e n) as [r e1]. destruct Hshr as (-> & -> & Hq & _).
  replace (e + n) with d in * by lia.
  assert (Hq0 : 0 <= Zpos m / 2 ^ n < 2 ^ 53).
  { split; [apply Z.div_pos; lia|]. apply Z.div_lt_upper_bound; [done|]. rewrite <- Z.pow_add_r by lia.
    eapply Z.lt_le_trans; [apply Hlog|]. apply Z.pow_le_mono_r; lia. }
  assert (Hnorm : d <> f64_emin -> 2 ^ 52 <= Zpos m / 2 ^ n).
  { intros Hne. apply Z.div_le_lower_bound; [done|]. rewrite <- Z.pow_add_r by lia.
    eapply Z.le_trans; [|apply Hlog]. apply Z.pow_le_mono_r; lia. }
  set (q0 := Zpos m / 2 ^ n) in *. clearbody q0. unfold shr_fexp.
  destruct q as [|q|q]; [|..|lia].
  - cbn [Zdigits2]. rewrite fexp64_eq. replace (fexp64 (0 + d) - d) with (Z.min 0 (fexp64 (0 + d) - d)) by (unfold fexp64; lia).
    assert (H : shr (shr_record_of_loc 0 loc_Exact) d (Z.min 0 (fexp64 (0 + d) - d)) = (shr_record_of_loc 0 loc_Exact, d)).
    { unfold shr. destruct (Z.min 0 (fexp64 (0 + d) - d)) eqn:E; [done|lia|done]. }
    rewrite H. by apply nonneg_wide.
  - cbn [Zdigits2]. rewrite digits2_pos_log2, fexp64_eq. destruct (Z_lt_ge_dec (Zpos q) (2 ^ 53)) as [Hlt|Hge].
    + assert (Hf : fexp64 (Z.log2 (Zpos q) + 1 + d) = d).
      { assert (Hl : Z.log2 (Zpos q) < 53) by (apply Z.log2_lt_pow2; lia). unfold fexp64.
        destruct (Z.eq_dec d f64_emin) as [->|Hne]; [lia|]. specialize (Hnorm Hne).
        assert (52 <= Z.log2 (Zpos q)) by (apply Z.log2_le_pow2; lia). lia. }
      rewrite Hf, Z.sub_diag. cbn [shr shr_record_of_loc shr_m]. change (f64_emax - f64_prec) with 971. destruct (Z.leb_spec d 971); [apply nonneg_wide|right; by left].
      cbn [nonneg]. split; [done|]. apply bounded_spec. lia.
    + assert (Hq53 : q = 9007199254740992%positive) by lia. rewrite Hq53. change (Z.log2 9007199254740992) with 53.
      replace (fexp64 (53 + 1 + d)) with (d + 1) by (unfold fexp64, f64_emin in *; lia).
      replace (d + 1 - d) with 1 by lia. cbn [shr shr_record_of_loc iter_pos shr_1 shr_m]. change (f64_emax - f64_prec) with 971.
      destruct (Z.leb_spec (d + 1) 971); [apply nonneg_wide|right; by left]. cbn [nonneg]. split; [done|]. apply bounded_spec. lia.
Qed.

Lemma mul_wide (x y : spec_float) : wide x -> nonneg y -> wide (f64_mul x y).
Proof.
  intros [->|[->|Hx]] Hy; unfold f64_mul.
  - left. by destruct y.
  - destruct y as [sy| | |sy my ey]; cbn [nonneg] in *; try done; cbn [SFmul]; [by left|]. destruct Hy as [-> _]. right; by left.
  - destruct x as [sx| | |sx mx ex], y as [sy| | |sy my ey]; cbn [nonneg] in *; try done; cbn [SFmul]; try (by apply nonneg_wide).
    destruct Hx as [-> (Hx1 & Hx2 & Hx3)%bounded_spec], Hy as [-> (Hy1 & Hy2 & Hy3)%bounded_spec]. cbn [xorb].
    apply round_aux_wide. rewrite Pos2Z.inj_mul. unfold fexp64.
    assert (Hlog : 52 <= Z.log2 (Zpos mx * Zpos my) \/ ex = f64_emin /\ ey = f64_emin).
    { destruct Hx3 as [->|Hx3]; [destruct Hy3 as [->|Hy3]; [by right|]|]; left; apply Z.log2_le_pow2; nia. }
    unfold f64_emin in *. pose proof (Z.log2_nonneg (Zpos mx * Zpos my)). lia.
Qed.

(** ** Integers *)

Lemma of_Z_exact (n : Z) : 0 <= n < 2 ^ 53 -> nonneg (f64_of_Z n) /\ sval (f64_of_Z n) = n * 2 ^ 1074.
Proof.
  intros Hn. unfold f64_of_Z. destruct n as [|m|m]; [split; done| |lia]. cbn [binary_normalize].
  destruct (binary_round_spec m 0 ltac:(unfold f64_emin; lia)) as (q & e' & -> & He' & Hq & Hc & Hbr).
  destruct (Hbr (Zpos m) 0 ltac:(unfold f64_emin; lia) ltac:(lia)) as [H1 H2].
  assert (Hv : Zpos q * 2 ^ (e' - f64_emin) = Zpos m * 2 ^ (0 - f64_emin)) by lia.
  change (0 - f64_emin) with 1074 in Hv.
  assert (He971 : e' <= 971).
  { destruct (Z_le_gt_dec e' 971) as [|Hgt]; [done|exfalso]. destruct Hc as [->|Hc]; [unfold f64_emin in *; lia|].
    assert (H3 : 2 ^ 1200 <= 2 ^ (e' - f64_emin)) by (apply Z.pow_le_mono_r; unfold f64_emin in *; lia).
    assert (H4 : 2 ^ 1200 = 2 ^ 126 * 2 ^ 1074) by (rewrite <- Z.pow_add_r by lia; done).
    pose proof (pow2_pos 1074 ltac:(lia)). assert (2 ^ 53 < 2 ^ 126) by (apply Z.pow_lt_mono_r; lia).
    rewrite H4 in H3. generalize dependent (2 ^ 1074). generalize dependent (2 ^ (e' - f64_emin)). generalize dependent (2 ^ 126).
    generalize dependent (2 ^ 52). generalize dependent (2 ^ 53). intros. nia. }
  rewrite (proj2 (Z.leb_le _ _) He971). split; [|exact Hv]. cbn [nonneg]. split; [done|]. apply bounded_spec. lia.
Qed.
