(* ===== verification/RateLimit.v ===== *)
(** * The token-bucket rate limiter (ratelimit/ratelimit.go, middleware.go)

    A bucket is a Redis hash with the tokens left and the time of the last request; the script that
    refills, consumes and stores it runs atomically on the server. Its numbers are doubles (in Lua
    as in Go), with the rounding of GoFloat. The time it uses is the client's clock in
    milliseconds; the expiry of a bucket goes by the server's. *)

From Stdlib Require Import SpecFloat.
From S2P Require Import Prelude GoStrings GoFloat GoFloatFacts.
Open Scope Z_scope.

(** ** The commands of a Redis server on hashes that the script uses *)

Class RedisHash (S : Type) := {
  (** HMGET key tokens ts, read as numbers, at a server time *)
  hmget : S -> Z -> string -> option (spec_float * spec_float);
  (** HMSET key tokens ts, and PEXPIRE key with milliseconds *)
  hmset_pexpire : S -> Z -> string -> spec_float * spec_float -> Z -> S }.

Class RedisHashLaws (S : Type) `{RedisHash S} := {
  (** a number is stored so that it reads back as it was, until the key expires *)
  hmget_set s st k v ms st' k' : 0 < ms -> st <= st' ->
    hmget (hmset_pexpire s st k v ms) st' k' =
      if decide (k = k') then (if st' <? st + ms * Millisecond then Some v else None) else hmget s st' k';
  hmget_antitone s st st' k v : st <= st' -> hmget s st' k = Some v -> hmget s st k = Some v }.

(** A server in memory. *)
Module HashMem.
Abbreviation store := (gmap string (spec_float * spec_float * Z)).

#[export] Instance hash_mem : RedisHash store := {
  hmget s st k := match (s : store) !! k with Some (v, x) => if st <? x then Some v else None | None => None end;
  hmset_pexpire s st k v ms := <[k := (v, st + ms * Millisecond)]> s }.

#[export] Instance hash_mem_laws : RedisHashLaws store.
Proof.
  split; cbn.
  - intros s st k v ms st' k' Hms Hle. case_decide; [subst; by rewrite lookup_insert_eq|by rewrite lookup_insert_ne].
  - intros s st st' k v Hle. destruct (s !! k) as [[v' x]|]; [|done]. destruct (Z.ltb_spec st' x), (Z.ltb_spec st x); try done; lia.
Qed.
End HashMem.

(** ** Numbers *)

Definition f64_div : spec_float -> spec_float -> spec_float := SFdiv f64_prec f64_emax.

(** [math.Ceil]. *)
Definition Ceil (x : spec_float) : spec_float :=
  match x with
  | S754_finite s m e =>
      if 0 <=? e then x
      else f64_of_Z (- ((if s then Zpos m else Zneg m) / 2 ^ (- e)))
  | _ => x
  end.

(** [math.floor], as the integer reply Redis makes of it. *)
Definition floor_reply (oob : Z) (x : spec_float) : Z :=
  match x with
  | S754_finite s m e =>
      if 0 <=? e then f64_to_int oob x else (if s then Zneg m else Zpos m) / 2 ^ (- e)
  | _ => f64_to_int oob x
  end.

(** ** The limiter *)

Definition keyPrefix : string := "ratelimit:".

Record Rule := MkRule { Capacity : Z; RefillPerSec : spec_float }.
Record Result := MkResult { Allowed : bool; Remaining : Z; RetryAfter : Z }.

Section Limiter.
  Context {S : Type} `{RedisHash S}.
  (** The integer that a conversion out of range yields. *)
  Context (oob : Z).

(** [math.min(cap, x)], which keeps [cap] unless [x] is less. *)
Definition lua_min (cap x : spec_float) : spec_float := if SFltb x cap then x else cap.

Definition tokenBucket (st : Z) (key : string) (cap rate now cost : spec_float) (ttl : Z) (s : S) : list Z * S :=
  let '(tokens, ts) := match hmget s st key with None => (cap, now) | Some (tokens, ts) => (tokens, ts) end in
  let elapsed := f64_sub now ts in
  let elapsed := if SFltb elapsed (S754_zero false) then S754_zero false else elapsed in
  let tokens := lua_min cap (f64_add tokens (f64_mul elapsed rate)) in
  let '(allowed, tokens) := if SFleb cost tokens then (1, f64_sub tokens cost) else (0, tokens) in
  ([allowed; floor_reply oob tokens], hmset_pexpire s st key (tokens, now) ttl).

Definition bucketTTLMs (rule : Rule) : Z :=
  if SFleb (RefillPerSec rule) (S754_zero false) then 1000
  else
    let ms := wrap64 (f64_to_int oob (Ceil (f64_div (f64_of_Z (Capacity rule)) (RefillPerSec rule))) * 1000) in
    if ms <? 1000 then 1000 else ms.

Definition retryAfter (cost remaining : Z) (refillPerSec : spec_float) : Z :=
  if SFleb refillPerSec (S754_zero false) then Second
  else
    let need := f64_of_Z (wrap64 (cost - remaining)) in
    if SFleb need (S754_zero false) then Second
    else
      let secs := Ceil (f64_div need refillPerSec) in
      let secs := if SFltb secs f64_one then f64_one else secs in
      wrap64 (f64_to_int oob secs * Second).

(** The numbers of ARGV, as the script reads them. *)
Definition Allow (n : net) (st nowMs : Z) (key : string) (rule : Rule) (cost : Z) (s : S) : (error + Result) * S :=
  let cost := if cost <? 1 then 1 else cost in
  let ratePerMs := f64_div (RefillPerSec rule) (f64_of_Z 1000) in
  let ttlMs := bucketTTLMs rule in
  let '(res, s) := call n (tokenBucket st (keyPrefix +:+ key) (f64_of_Z (Capacity rule)) ratePerMs (f64_of_Z nowMs) (f64_of_Z cost) ttlMs) s in
  match res with
  | inl err => (inl (Wrap "ratelimit: eval" [err]), s)
  | inr res =>
      let allowed := nth 0 res 0 =? 1 in
      let remaining := nth 1 res 0 in
      (inr (MkResult allowed remaining (if allowed then 0 else retryAfter cost remaining (RefillPerSec rule))), s)
  end.

(** ** The middleware *)

Inductive mw_outcome := Proceed (headers : list (string * string)) | Deny (status : Z) (headers : list (string * string)).

(** [int(d.Seconds())], for a whole number of seconds. *)
Definition seconds (d : Z) : Z := Z.quot d Second.

Definition Middleware (rule : Rule) (key : string) (n : net) (st nowMs : Z) (s : S) : mw_outcome * S :=
  let '(res, s) := Allow n st nowMs key rule 1 s in
  match res with
  | inl _ => (Proceed [], s)
  | inr res =>
      let headers := [("X-RateLimit-Limit", itoa (Capacity rule)); ("X-RateLimit-Remaining", itoa (Remaining res))]%string in
      if negb (Allowed res) then (Deny 429 (headers ++ [("Retry-After"%string, itoa (seconds (RetryAfter res)))]), s)
      else (Proceed headers, s)
  end.
End Limiter.
Arguments Result : clear implicits.

(** ** Facts on the numbers *)

(** A token in units of [sval]. *)
Definition token : Z := 2 ^ 1074.

Lemma token_pos : 0 < token.
Proof. apply pow2_pos. lia. Qed.

Lemma floor_sval (oob : Z) (x : spec_float) : nonneg x -> sval x < 2 ^ 53 * token -> floor_reply oob x = sval x / token.
Proof.
  destruct x as [s| | |s m e]; cbn [nonneg sval]; try done. intros [-> ((He & _) & _)%bounded_spec] Hlt.
  unfold floor_reply. destruct (Z.leb_spec 0 e) as [H0|H0].
  - assert (E : Zpos m * 2 ^ (e - f64_emin) / token = Zpos m * 2 ^ e).
    { unfold token. replace (e - f64_emin) with (e + 1074) by (unfold f64_emin; lia). rewrite Z.pow_add_r, Z.mul_assoc by lia.
      apply Z.div_mul. pose proof token_pos. unfold token in *. lia. }
    rewrite E. unfold f64_to_int. rewrite (proj2 (Z.leb_le 0 e) H0).
    assert (Hb : Zpos m * 2 ^ e < 2 ^ 53).
    { rewrite <- E. apply Z.div_lt_upper_bound; [apply token_pos|]. lia. }
    pose proof (pow2_pos e H0) as Hpe. assert (Hp : 0 <= Zpos m * 2 ^ e) by (apply Z.mul_nonneg_nonneg; lia).
    assert (Hr : (int_min <=? Zpos m * 2 ^ e) && (Zpos m * 2 ^ e <=? int_max) = true).
    { apply andb_true_iff. rewrite !Z.leb_le. unfold int_min, int_max. clear -Hb Hp. lia. }
    by rewrite Hr.
  - unfold token. replace 1074 with ((e - f64_emin) + (- e)) by (unfold f64_emin; lia). rewrite Z.pow_add_r by lia.
    pose proof (pow2_pos (e - f64_emin) ltac:(lia)). pose proof (pow2_pos (- e) ltac:(lia)).
    rewrite <- Z.div_div by lia. rewrite Z.div_mul by lia. done.
Qed.

Lemma lua_min_spec (cap x : spec_float) : nonneg cap -> wide x ->
  nonneg (lua_min cap x) /\ sval (lua_min cap x) <= sval cap /\
  (nonneg x -> sval (lua_min cap x) = Z.min (sval cap) (sval x)).
Proof.
  intros Hc Hx. unfold lua_min. destruct Hx as [->|[->|Hx]].
  - replace (SFltb S754_nan cap) with false by (by destruct cap). split_and!; [done|lia|done].
  - replace (SFltb (S754_infinity false) cap) with false by (by destruct cap). split_and!; [done|lia|done].
  - rewrite ltb_sval by done. destruct (Z.ltb_spec (sval x) (sval cap)); split_and!; try done; lia.
Qed.

Lemma round_aux_sign (sx : bool) (m e : Z) (l : location) :
  match binary_round_aux f64_prec f64_emax sx m e l with
  | S754_zero s | S754_infinity s | S754_finite s _ _ => s = sx
  | S754_nan => True
  end.
Proof.
  unfold binary_round_aux. destruct (shr_fexp _ _ m e l) as [r1 e1]. destruct (shr_fexp _ _ _ e1 _) as [r2 e2].
  destruct (shr_m r2); [done| |done]. by destruct (e2 <=? _).
Qed.

(** The elapsed time of the script: never negative. *)
Definition elapsed (now ts : spec_float) : spec_float :=
  if SFltb (f64_sub now ts) (S754_zero false) then S754_zero false else f64_sub now ts.

Lemma elapsed_wide (now ts : spec_float) : nonneg now -> nonneg ts -> wide (elapsed now ts).
Proof.
  intros Hn Ht. destruct (Z_le_gt_dec (sval ts) (sval now)) as [Hle|Hgt].
  - destruct (sub_rounds now ts Hn Ht Hle) as [Hd _]. unfold elapsed. destruct (SFltb _ _); [by apply nonneg_wide|by apply nonneg_wide].
  - unfold elapsed, f64_sub. destruct now as [sx| | |sx mx ex], ts as [sy| | |sy my ey]; cbn [nonneg] in *; try done.
    + cbn [SFsub]. destruct Ht as [-> _]. cbn. by apply nonneg_wide.
    + cbn [sval] in Hgt. destruct Hn as [-> [[? ?] _]%bounded_spec]. pose proof (scaled_pos mx ex ltac:(lia)). lia.
    + destruct Hn as [-> (Hx & _)%bounded_spec], Ht as [-> (Hy & _)%bounded_spec]. cbn [SFsub cond_Zopp sval] in *.
      set (ez := Z.min ex ey). pose proof (align_sval mx ex ez ltac:(lia)) as E1. pose proof (align_sval my ey ez ltac:(lia)) as E2.
      pose proof (pow2_pos (ez - f64_emin) ltac:(lia)).
      set (d := Zpos (fst (shl_align mx ex ez)) - Zpos (fst (shl_align my ey ez))). assert (Hd : d < 0) by nia. clearbody d.
      destruct d as [|d|d]; [lia|lia|]. cbn [binary_normalize]. unfold binary_round.
      destruct (shl_align d ez _) as [mz ez']. pose proof (round_aux_sign true (Zpos mz) ez' loc_Exact) as Hs.
      destruct (binary_round_aux _ _ _ _ _ _) as [s|s| |s m e]; subst; cbn; [by apply nonneg_wide|by apply nonneg_wide|by left|by apply nonneg_wide].
Qed.

Lemma rounds_le (v : Z) (r y : spec_float) : rounds v r -> nonneg y -> v <= sval y -> sval r <= sval y.
Proof. intros [_ H] Hy. by apply H. Qed.
Lemma rounds_nonneg (v : Z) (r : spec_float) : rounds v r -> nonneg r.
Proof. by intros [H _]. Qed.

(** ** One run of the script *)

Section Facts.
  Context {S : Type} `{RedisHashLaws S} (oob : Z).

(** The buckets a server shows from a time on: numbers that are not negative. *)
Definition buckets_ok (s : S) (st : Z) : Prop :=
  forall st' key tokens ts, st <= st' -> hmget s st' key = Some (tokens, ts) -> nonneg tokens /\ nonneg ts.

(** The tokens a request finds. *)
Definition available (s : S) (st : Z) (key : string) (cap rate now : spec_float) : spec_float :=
  match hmget s st key with
  | None => lua_min cap (f64_add cap (f64_mul (elapsed now now) rate))
  | Some (tokens, ts) => lua_min cap (f64_add tokens (f64_mul (elapsed now ts) rate))
  end.

Lemma available_spec (s : S) (st : Z) (key : string) (cap rate now : spec_float) :
  buckets_ok s st -> nonneg cap -> nonneg rate -> nonneg now ->
  nonneg (available s st key cap rate now) /\ sval (available s st key cap rate now) <= sval cap.
Proof.
  intros Hok Hc Hr Hn. unfold available.
  assert (Hgo : forall tokens ts, nonneg tokens -> nonneg ts ->
    let t := lua_min cap (f64_add tokens (f64_mul (elapsed now ts) rate)) in nonneg t /\ sval t <= sval cap).
  { intros tokens ts Ht Hts. destruct (lua_min_spec cap (f64_add tokens (f64_mul (elapsed now ts) rate)) Hc) as (H1 & H2 & _); [|done].
    apply add_wide; [done|]. apply mul_wide; [by apply elapsed_wide|done]. }
  destruct (hmget s st key) as [[tokens ts]|] eqn:E; [|by apply Hgo]. destruct (Hok _ _ _ _ (Z.le_refl st) E). by apply Hgo.
Qed.

Lemma tokenBucket_spec (s : S) (st : Z) (key : string) (cap rate now cost : spec_float) (ttl : Z) :
  let t := available s st key cap rate now in
  let left := if SFleb cost t then f64_sub t cost else t in
  tokenBucket oob st key cap rate now cost ttl s =
    ([if SFleb cost t then 1 else 0; floor_reply oob left], hmset_pexpire s st key (left, now) ttl).
Proof.
  cbv zeta. unfold tokenBucket, available, elapsed. destruct (hmget s st key) as [[tokens ts]|]; by destruct (SFleb cost _).
Qed.

Lemma buckets_ok_set (s : S) (st ttl : Z) (key : string) (tokens ts : spec_float) : 0 < ttl ->
  nonneg tokens -> nonneg ts -> buckets_ok s st -> buckets_ok (hmset_pexpire s st key (tokens, ts) ttl) st.
Proof.
  intros Httl Ht Hts Hok st' k tokens' ts' Hle Hget. rewrite hmget_set in Hget by done.
  case_decide; [|by eapply Hok]. destruct (st' <? _); [|done]. by injection Hget as <- <-.
Qed.

Lemma bucketTTLMs_pos (rule : Rule) : 1000 <= bucketTTLMs oob rule.
Proof. unfold bucketTTLMs. case_match; [lia|]. cbv zeta. case_match; lia. Qed.

Definition rule_ok (rule : Rule) : Prop := 0 <= Capacity rule < 2 ^ 53 /\ nonneg (f64_div (RefillPerSec rule) (f64_of_Z 1000)).
Definition cost_of (cost : Z) : Z := if cost <? 1 then 1 else cost.

(** What a reply says of a rule and a cost. *)
Definition reply_ok (rule : Rule) (cost : Z) (r : Result) : Prop :=
  if Allowed r then 0 <= Remaining r <= Capacity rule - cost_of cost /\ RetryAfter r = 0
  else 0 <= Remaining r <= Capacity rule /\ Remaining r < cost_of cost /\
       RetryAfter r = retryAfter oob (cost_of cost) (Remaining r) (RefillPerSec rule).

(** The script on numbers that are not negative. *)
Lemma script_reply (s : S) (st nowMs cost : Z) (key : string) (rule : Rule) (ttl : Z) :
  buckets_ok s st -> rule_ok rule -> 0 <= nowMs < 2 ^ 53 -> 1 <= cost < 2 ^ 53 -> 0 < ttl ->
  let '(res, s') := tokenBucket oob st key (f64_of_Z (Capacity rule)) (f64_div (RefillPerSec rule) (f64_of_Z 1000))
                      (f64_of_Z nowMs) (f64_of_Z cost) ttl s in
  buckets_ok s' st /\
  ((exists rem, res = [1; rem] /\ 0 <= rem <= Capacity rule - cost) \/
   (exists rem, res = [0; rem] /\ 0 <= rem <= Capacity rule /\ rem < cost)).
Proof.
  intros Hok [Hcap Hrate] Hnow Hcost Httl.
  destruct (of_Z_exact _ Hcap) as [Hc1 Hc2]. destruct (of_Z_exact _ Hnow) as [Hn1 _]. destruct (of_Z_exact cost ltac:(lia)) as [Hk1 Hk2].
  rewrite tokenBucket_spec. cbv zeta.
  destruct (available_spec s st key _ _ (f64_of_Z nowMs) Hok Hc1 Hrate Hn1) as [Ht1 Ht2].
  set (t := available s st key _ _ _) in *. rewrite leb_sval by done. rewrite Hc2, Hk2 in *.
  pose proof token_pos as Htok. change (2 ^ 1074) with token in *. pose proof (nonneg_sval t Ht1) as Ht0.
  destruct (Z.leb_spec (cost * token) (sval t)) as [Hle|Hgt].
  - assert (Hsub : rounds (sval t - cost * token) (f64_sub t (f64_of_Z cost))) by (rewrite <- Hk2; apply sub_rounds; [done|done|lia]).
    pose proof (rounds_nonneg _ _ Hsub) as Hd.
    destruct (of_Z_exact (Capacity rule - cost) ltac:(nia)) as [Hm1 Hm2]. change (2 ^ 1074) with token in Hm2.
    pose proof (rounds_le _ _ _ Hsub Hm1 ltac:(rewrite Hm2; nia)) as Hup. rewrite Hm2 in Hup.
    split; [by apply buckets_ok_set|]. left. eexists. split; [reflexivity|].
    pose proof (nonneg_sval _ Hd). rewrite floor_sval by (done || nia). split; [apply Z.div_pos; lia|].
    apply Z.div_le_upper_bound; lia.
  - split; [by apply buckets_ok_set|]. right. eexists. split; [reflexivity|].
    rewrite floor_sval by (done || nia). split; [split; [apply Z.div_pos; lia|apply Z.div_le_upper_bound; lia]|].
    apply Z.div_lt_upper_bound; lia.
Qed.

Lemma Allow_ok (n : net) (s s' : S) (st nowMs cost : Z) (key : string) (rule : Rule) (res : error + Result) :
  buckets_ok s st -> rule_ok rule -> 0 <= nowMs < 2 ^ 53 -> cost < 2 ^ 53 ->
  Allow oob n st nowMs key rule cost s = (res, s') ->
  buckets_ok s' st /\ match res with inr r => reply_ok rule cost r | inl _ => True end.
Proof.
  intros Hok Hrule Hnow Hcost. unfold Allow. fold (cost_of cost). cbv zeta.
  assert (Hk : 1 <= cost_of cost < 2 ^ 53) by (unfold cost_of; destruct (Z.ltb_spec cost 1); lia).
  pose proof (bucketTTLMs_pos rule) as Httl.
  pose proof (script_reply s st nowMs (cost_of cost) (keyPrefix +:+ key) rule (bucketTTLMs oob rule) Hok Hrule Hnow Hk ltac:(lia)) as Hs.
  destruct n as [|e|e]; cbn [call].
  - destruct (tokenBucket oob st _ _ _ _ _ _ s) as [l s1]. destruct Hs as [Hok' Hs]. intros [= <- <-]. split; [done|].
    destruct Hs as [(rem & -> & Hr)|(rem & -> & Hr)]; cbn [nth]; unfold reply_ok; cbn; [done|]. tauto.
  - intros [= <- <-]. done.
  - destruct (tokenBucket oob st _ _ _ _ _ _ s) as [l s1]. destruct Hs as [Hok' _]. intros [= <- <-]. done.
Qed.

(** ** Histories *)

Record request := MkRequest { q_net : net; q_st : Z; q_now : Z; q_key : string; q_rule : Rule; q_cost : Z }.

Fixpoint serve (qs : list request) (s : S) : list (error + Result) * S :=
  match qs with
  | [] => ([], s)
  | q :: qs =>
      let '(r, s) := Allow oob (q_net q) (q_st q) (q_now q) (q_key q) (q_rule q) (q_cost q) s in
      let '(rs, s) := serve qs s in (r :: rs, s)
  end.

(** Server times that do not decrease. *)
Fixpoint ordered (st : Z) (qs : list request) : Prop :=
  match qs with [] => True | q :: qs => st <= q_st q /\ ordered (q_st q) qs end.

Definition request_ok (q : request) : Prop := rule_ok (q_rule q) /\ 0 <= q_now q < 2 ^ 53 /\ q_cost q < 2 ^ 53.

Lemma serve_ok (qs : list request) (s : S) (st : Z) :
  buckets_ok s st -> ordered st qs -> Forall request_ok qs ->
  Forall2 (fun q r => match r with inr r => reply_ok (q_rule q) (q_cost q) r | inl _ => True end) qs (serve qs s).1.
Proof.
  revert s st. induction qs as [|q qs IH]; intros s st Hok Hord Hqs; cbn [serve]; [constructor|].
  destruct Hord as [Hst Hord]. apply Forall_cons in Hqs as [(Hr & Hn & Hc) Hqs].
  assert (Hok' : buckets_ok s (q_st q)) by (intros st' k t ts Hle; apply Hok; lia).
  destruct (Allow oob _ _ _ _ _ _ s) as [r s1] eqn:E. destruct (Allow_ok _ _ _ _ _ _ _ _ _ Hok' Hr Hn Hc E) as [Hok1 Hrep].
  specialize (IH s1 (q_st q) Hok1 Hord Hqs). destruct (serve qs s1) as [rs s2]. cbn [fst] in *. by constructor.
Qed.

(** ** One instant of the client's clock *)

(** The integer bucket: each cost taken if it fits, what is left. *)
Fixpoint int_bucket (left : Z) (costs : list Z) : list (bool * Z) :=
  match costs with
  | [] => []
  | c :: cs => if cost_of c <=? left then (true, left - cost_of c) :: int_bucket (left - cost_of c) cs
               else (false, left) :: int_bucket left cs
  end.

Lemma nonneg_zero (x : spec_float) : nonneg x -> sval x = 0 -> exists s, x = S754_zero s.
Proof.
  destruct x as [s| | |s m e]; cbn [nonneg sval]; try done; [by exists s|]. intros [_ [[? ?] _]%bounded_spec] Hz.
  pose proof (scaled_pos m e ltac:(lia)). lia.
Qed.

(** Without elapsed time nothing is refilled. *)
Lemma no_refill (cap rate now tokens : spec_float) :
  nonneg cap -> nonneg rate -> nonneg now -> nonneg tokens -> sval tokens <= sval cap ->
  let t := lua_min cap (f64_add tokens (f64_mul (elapsed now now) rate)) in nonneg t /\ sval t = sval tokens.
Proof.
  intros Hc Hr Hn Ht Hle. cbv zeta.
  assert (Hd : exists b, elapsed now now = S754_zero b).
  { unfold elapsed. pose proof (sub_rounds now now Hn Hn (Z.le_refl _)) as Hs. rewrite Z.sub_diag in Hs.
    destruct (nonneg_zero _ (rounds_nonneg _ _ Hs) (rounds_exact 0 _ (S754_zero false) Hs I eq_refl)) as [b ->].
    destruct (SFltb _ _); [by exists false|by exists b]. }
  destruct Hd as [b ->].
  assert (Hm : exists b', f64_mul (S754_zero b) rate = S754_zero b') by (destruct rate as [| | |? ? ?]; cbn in Hr; try done; by eexists).
  destruct Hm as [b' ->].
  assert (Ha : nonneg (f64_add tokens (S754_zero b')) /\ sval (f64_add tokens (S754_zero b')) = sval tokens).
  { unfold f64_add. destruct tokens as [[]| | |? ? ?]; cbn in Ht; try done; cbn; by destruct b'. }
  destruct Ha as [Ha1 Ha2]. destruct (lua_min_spec cap _ Hc (nonneg_wide _ Ha1)) as (H1 & _ & H3). split; [done|].
  rewrite H3 by done. lia.
Qed.

(** Between two server times the bucket of a key holds a whole number of tokens, last stored at this instant of the
    client's clock. *)
Definition holds (s : S) (st till : Z) (key : string) (cap left now : Z) : Prop :=
  forall st', st <= st' < till ->
    match hmget s st' key with
    | None => left = cap
    | Some (tokens, ts) => nonneg tokens /\ sval tokens = left * token /\ ts = f64_of_Z now
    end.

Lemma script_holds (s : S) (st till now cost left ttl : Z) (key : string) (rule : Rule) :
  rule_ok rule -> 0 <= now < 2 ^ 53 -> 1 <= cost < 2 ^ 53 -> 1000 <= ttl -> 0 <= left <= Capacity rule ->
  st < till <= st + Second -> holds s st till key (Capacity rule) left now ->
  let '(res, s') := tokenBucket oob st key (f64_of_Z (Capacity rule)) (f64_div (RefillPerSec rule) (f64_of_Z 1000))
                      (f64_of_Z now) (f64_of_Z cost) ttl s in
  let left' := if cost <=? left then left - cost else left in
  res = [if cost <=? left then 1 else 0; left'] /\ holds s' st till key (Capacity rule) left' now.
Proof.
  intros [Hcap Hrate] Hnow Hcost Httl Hleft Htill Hh.
  destruct (of_Z_exact _ Hcap) as [Hc1 Hc2]. destruct (of_Z_exact _ Hnow) as [Hn1 _]. destruct (of_Z_exact cost ltac:(lia)) as [Hk1 Hk2].
  change (2 ^ 1074) with token in *. pose proof token_pos as Htok.
  rewrite tokenBucket_spec. cbv zeta. set (t := available s st key _ _ _).
  assert (Ht : nonneg t /\ sval t = left * token).
  { unfold t, available. specialize (Hh st ltac:(lia)). destruct (hmget s st key) as [[tokens ts]|].
    - destruct Hh as (Ht1 & Ht2 & ->). destruct (no_refill (f64_of_Z (Capacity rule)) (f64_div (RefillPerSec rule) (f64_of_Z 1000)) (f64_of_Z now) tokens) as [? ->]; try done. nia.
    - subst. destruct (no_refill (f64_of_Z (Capacity rule)) (f64_div (RefillPerSec rule) (f64_of_Z 1000)) (f64_of_Z now) (f64_of_Z (Capacity rule))) as [? ->]; try done. }
  destruct Ht as [Ht1 Ht2]. clearbody t. rewrite leb_sval by done. rewrite Hk2, Ht2.
  replace (cost * token <=? left * token) with (cost <=? left)
    by (destruct (Z.leb_spec cost left), (Z.leb_spec (cost * token) (left * token)); try done; nia).
  assert (Hset : forall x l, nonneg x -> sval x = l * token ->
    holds (hmset_pexpire s st key (x, f64_of_Z now) ttl) st till key (Capacity rule) l now).
  { intros x l Hx Hv st' Hst'. rewrite hmget_set by lia. rewrite decide_True by done.
    rewrite (proj2 (Z.ltb_lt _ _)); [done|]. unfold Second, Millisecond in *. lia. }
  destruct (Z.leb_spec cost left) as [Hle|Hgt].
  - assert (Hsub : rounds (left * token - cost * token) (f64_sub t (f64_of_Z cost))) by (rewrite <- Hk2, <- Ht2; apply sub_rounds; [done|done|nia]).
    destruct (of_Z_exact (left - cost) ltac:(lia)) as [Hm1 Hm2]. change (2 ^ 1074) with token in Hm2.
    pose proof (rounds_exact _ _ _ Hsub Hm1 ltac:(rewrite Hm2; ring)) as Hv.
    pose proof (rounds_nonneg _ _ Hsub). split; [|apply Hset; [done|rewrite Hv; ring]].
    rewrite floor_sval by (done || nia). rewrite Hv, <- Z.mul_sub_distr_r, Z.div_mul by lia. done.
  - split; [|by apply Hset]. rewrite floor_sval by (done || nia). rewrite Ht2, Z.div_mul by lia. done.
Qed.

Lemma Allow_holds (s s' : S) (st till now cost left : Z) (key : string) (rule : Rule) (res : error + Result) :
  rule_ok rule -> 0 <= now < 2 ^ 53 -> cost < 2 ^ 53 -> 0 <= left <= Capacity rule ->
  st < till <= st + Second -> holds s st till (keyPrefix +:+ key) (Capacity rule) left now ->
  Allow oob NetOk st now key rule cost s = (res, s') ->
  let ok := cost_of cost <=? left in
  let left' := if ok then left - cost_of cost else left in
  (exists r, res = inr r /\ Allowed r = ok /\ Remaining r = left') /\ holds s' st till (keyPrefix +:+ key) (Capacity rule) left' now.
Proof.
  intros Hrule Hnow Hcost Hleft Htill Hh. unfold Allow. fold (cost_of cost). cbv zeta. cbn [call].
  assert (Hk : 1 <= cost_of cost < 2 ^ 53) by (unfold cost_of; destruct (Z.ltb_spec cost 1); lia).
  pose proof (script_holds s st till now (cost_of cost) left (bucketTTLMs oob rule) (keyPrefix +:+ key) rule Hrule Hnow Hk
    (bucketTTLMs_pos rule) Hleft Htill Hh) as Hs.
  destruct (tokenBucket oob st _ _ _ _ _ _ s) as [l s1]. cbv zeta in Hs. destruct Hs as [-> Hs]. intros [= <- <-].
  split; [|exact Hs]. eexists. split; [reflexivity|]. cbn [nth Allowed Remaining]. split; [|done]. by destruct (cost_of cost <=? left).
Qed.

(** The requests of a burst: one key and rule, one instant of the client's clock. *)
Definition burst (key : string) (rule : Rule) (now : Z) (calls : list (Z * Z)) : list request :=
  map (fun c => MkRequest NetOk c.1 now key rule c.2) calls.

Lemma burst_holds (key : string) (rule : Rule) (now st till left : Z) (calls : list (Z * Z)) (s : S) :
  rule_ok rule -> 0 <= now < 2 ^ 53 -> 0 <= left <= Capacity rule -> till <= st + Second ->
  Forall (fun c => c.1 < till /\ c.2 < 2 ^ 53) calls -> ordered st (burst key rule now calls) ->
  holds s st till (keyPrefix +:+ key) (Capacity rule) left now ->
  map (fun r => match r with inr r => (Allowed r, Remaining r) | inl _ => (false, -1) end) (serve (burst key rule now calls) s).1 =
    int_bucket left (map snd calls).
Proof.
  intros Hrule Hnow. revert st left s. induction calls as [|[st1 cost] calls IH]; intros st left s Hleft Htill Hc Hord Hh; [done|].
  apply Forall_cons in Hc as [[Hst1 Hcost] Hc]. cbn [burst map ordered q_st fst snd] in *. destruct Hord as [Hle Hord].
  cbn [serve q_net q_st q_now q_key q_rule q_cost]. destruct (Allow oob NetOk st1 now key rule cost s) as [r s1] eqn:E.
  assert (Hh' : holds s st1 till (keyPrefix +:+ key) (Capacity rule) left now) by (intros st' Hst'; apply Hh; lia).
  destruct (Allow_holds s s1 st1 till now cost left key rule r Hrule Hnow Hcost Hleft ltac:(lia) Hh' E) as ((r' & -> & Ha & Hr) & Hs1).
  assert (Hk : 1 <= cost_of cost) by (unfold cost_of; destruct (Z.ltb_spec cost 1); lia).
  pose proof (IH st1 (if cost_of cost <=? left then left - cost_of cost else left) s1) as IH1.
  unfold burst in IH1, Hord. destruct (serve _ s1) as [rs s2]. cbn [fst map] in *. rewrite Ha, Hr.
  cbn [int_bucket]. destruct (Z.leb_spec (cost_of cost) left); f_equal; apply IH1; try done; lia.
Qed.

(** The integer bucket never admits more than it holds. *)
Fixpoint admitted (costs : list Z) (rs : list (bool * Z)) : Z :=
  match costs, rs with c :: costs, (ok, _) :: rs => (if ok then cost_of c else 0) + admitted costs rs | _, _ => 0 end.

Lemma admitted_le (costs : list Z) (left : Z) : 0 <= left -> admitted costs (int_bucket left costs) <= left.
Proof.
  revert left. induction costs as [|c costs IH]; intros left Hl; cbn [int_bucket admitted]; [done|].
  destruct (Z.leb_spec (cost_of c) left); cbn [admitted]; [specialize (IH (left - cost_of c) ltac:(lia))|specialize (IH left Hl)]; lia.
Qed.
End Facts.

(** ** Claims *)

Import (hints) HashMem.

(** Over any history of requests (any keys, rules, costs below 2^53, clocks of the clients, network failures;
    server times in order), on double arithmetic: an admitted request leaves between 0 and capacity
    minus cost tokens; a denied one found fewer whole tokens than its cost, at most the capacity,
    and carries the [retryAfter] of these. *)
Theorem limiter_bounds {S : Type} `{RedisHashLaws S} (oob st : Z) (s : S) (qs : list request)
    (Hs : buckets_ok s st) (Hord : ordered st qs) (Hqs : Forall request_ok qs) :
  Forall2 (fun q r => match r with inr r => reply_ok oob (q_rule q) (q_cost q) r | inl _ => True end) qs (serve oob qs s).1.
Proof. by eapply serve_ok. Qed.

Definition rule_3_in_10s : Rule := MkRule 5 (default S754_nan (parse_float 64 "0.3")).
Definition sample_requests : list request := [
  MkRequest NetOk 0 1000 "k" rule_3_in_10s 3; MkRequest (LostReply (Err "timeout")) 5 900 "k" rule_3_in_10s 1;
  MkRequest NetOk 7 4000 "k" rule_3_in_10s 0; MkRequest NetOk 9 9000 "k" rule_3_in_10s 5].

Lemma empty_buckets_ok (st : Z) : buckets_ok (∅ : HashMem.store) st.
Proof. intros st' key tokens ts _ Hget. cbn in Hget. by rewrite lookup_empty in Hget. Qed.

Lemma rule_3_ok : rule_ok rule_3_in_10s.
Proof. split; [cbn; lia|]. vm_compute. split; reflexivity. Qed.

Lemma limiter_bounds_witness : buckets_ok (∅ : HashMem.store) 0 /\ ordered 0 sample_requests /\
  Forall2 (fun q r => match r with inr r => reply_ok 0 (q_rule q) (q_cost q) r | inl _ => True end) sample_requests
    (serve 0 sample_requests (∅ : HashMem.store)).1.
Proof.
  assert (Hord : ordered 0 sample_requests) by (cbn; lia).
  assert (Hqs : Forall request_ok sample_requests)
    by (apply Forall_fold_right; cbn [sample_requests foldr]; split_and!; try exact I; (split; [exact rule_3_ok|]); cbn [q_now q_cost]; lia).
  split; [apply empty_buckets_ok|split; [exact Hord|]].
  exact (limiter_bounds 0 0 (∅ : HashMem.store) sample_requests (empty_buckets_ok 0) Hord Hqs).
Defined.

(** (C30) A burst against a fresh bucket, all at one instant of the client's clock and within a second of the
    server's, is served as by an integer bucket of the rule's capacity: a request is admitted exactly
    when its cost fits what is left, and remaining counts are exact. In all, no more than the
    capacity is admitted. *)
Theorem burst_integer_bucket {S : Type} `{RedisHashLaws S} (oob st now : Z) (s : S) (key : string) (rule : Rule) (calls : list (Z * Z))
    (Hrule : rule_ok rule) (Hnow : 0 <= now < 2 ^ 53) (Hfresh : forall st', st <= st' -> hmget s st' (keyPrefix +:+ key) = None)
    (Hord : ordered st (burst key rule now calls)) (Hcalls : Forall (fun c => c.1 < st + Second /\ c.2 < 2 ^ 53) calls) :
  map (fun r => match r with inr r => (Allowed r, Remaining r) | inl _ => (false, -1) end) (serve oob (burst key rule now calls) s).1
    = int_bucket (Capacity rule) (map snd calls) /\
  admitted (map snd calls) (int_bucket (Capacity rule) (map snd calls)) <= Capacity rule.
Proof.
  split; [|apply admitted_le; apply Hrule]. apply (burst_holds oob key rule now st (st + Second)); try done.
  - destruct Hrule. lia.
  - intros st' Hst'. by rewrite Hfresh by lia.
Qed.

Lemma burst_integer_bucket_witness :
  rule_ok rule_3_in_10s /\
  map (fun r => match r with inr r => (Allowed r, Remaining r) | inl _ => (false, -1) end)
    (serve 0 (burst "k" rule_3_in_10s 1000 [(0, 2); (3, 4); (9, 0); (9, 2)]) (∅ : HashMem.store)).1
    = [(true, 3); (false, 3); (true, 2); (true, 0)].
Proof.
  split; [exact rule_3_ok|].
  refine (proj1 (burst_integer_bucket 0 0 1000 (∅ : HashMem.store) "k" rule_3_in_10s [(0, 2); (3, 4); (9, 0); (9, 2)] rule_3_ok _ _ _ _)).
  - lia.
  - intros st' _. cbn. by rewrite lookup_empty.
  - cbn. lia.
  - apply Forall_fold_right. cbn [foldr fst snd]. unfold Second. lia.
Defined.

(** The middleware denies only what the limiter denies; an error of the server lets the request through. *)
Lemma Middleware_fails_open {S : Type} `{RedisHash S} (oob : Z) (rule : Rule) (key : string) (n : net) (st now : Z) (s : S) :
  (exists code hs s', Middleware oob rule key n st now s = (Deny code hs, s')) <->
  exists r s', Allow oob n st now key rule 1 s = (inr r, s') /\ Allowed r = false.
Proof.
  unfold Middleware. destruct (Allow oob n st now key rule 1 s) as [[e|r] s'].
  - split; [by intros (? & ? & ? & ?)|by intros (? & ? & [=] & _)].
  - destruct (Allowed r) eqn:Ea; cbn; split.
    + by intros (? & ? & ? & ?).
    + intros (r' & s'' & [= <- <-] & ?). congruence.
    + eauto.
    + intros _. eauto.
Qed.

(** ** What modelling showed *)

Definition outcomes {S : Type} `{RedisHash S} (qs : list request) (s : S) : list (bool * Z) :=
  map (fun r => match r with inr r => (Allowed r, RetryAfter r) | inl _ => (false, -1) end) (serve 0 qs s).1.

(** Two clients whose clocks are ten seconds apart refill the bucket at every turn: all of forty requests pass,
    in one millisecond of the server's time, where the capacity is ten and a token a second is
    refilled. *)
Definition rule_10 : Rule := MkRule 10 f64_one.
Example skewed_clocks_refill :
  forallb fst (outcomes (map (fun i => MkRequest NetOk 0 (if Nat.even i then 0 else 10000) "k" rule_10 1) (seq 0 40)) (∅ : HashMem.store)) = true.
Proof. vm_compute. reflexivity. Qed.

(** A client that waits as long as Retry-After says can be denied again, by rounding: ten seconds at 0.3 a second
    are not quite three tokens. *)
Example retry_after_too_short :
  outcomes [MkRequest NetOk 0 0 "k" rule_3_in_10s 5; MkRequest NetOk 0 0 "k" rule_3_in_10s 3;
            MkRequest NetOk (10 * Second) 10000 "k" rule_3_in_10s 3] (∅ : HashMem.store)
  = [(true, 0); (false, 10 * Second); (false, 4 * Second)].
Proof. vm_compute. reflexivity. Qed.

(** A cost above the capacity is never admitted, and is told to come back. *)
Example cost_above_capacity :
  outcomes [MkRequest NetOk 0 0 "k" rule_3_in_10s 6; MkRequest NetOk (4 * Second) 4000 "k" rule_3_in_10s 6] (∅ : HashMem.store) = [(false, 4 * Second); (false, 4 * Second)].
Proof. vm_compute. reflexivity. Qed.

(** A bucket that is never refilled is forgotten after a second, and is full again. *)
Example unrefilled_bucket_forgotten :
  outcomes [MkRequest NetOk 0 0 "k" (MkRule 1 (S754_zero false)) 1; MkRequest NetOk 1 0 "k" (MkRule 1 (S754_zero false)) 1;
            MkRequest NetOk (2 * Second) 2000 "k" (MkRule 1 (S754_zero false)) 1] (∅ : HashMem.store)
  = [(true, 0); (false, Second); (true, 0)].
Proof. vm_compute. reflexivity. Qed.
