(* ===== verification/RedisClient.v ===== *)
(** * The Redis wrapper (redis/redis.go, bulk.go, storage.go, pubsub.go)

    JSON values under keys, cache-aside ([Remember]), bulk and atomic helpers, Fiber's storage
    interface, and the subscription loop. The server is the interface of RedisServer, with the
    further commands the wrapper uses. Each call that reaches the server has its fate ([net]) and
    its time. What is stored is a value of some type with its JSON encoding. *)

From S2P Require Import Prelude GoStrings Fiber GoJson RedisServer.
Open Scope Z_scope.

(** ** Further commands of the server *)

Class RedisKeys (S : Type) `{RedisServer S} := {
  (** SCAN with MATCH from a cursor: some keys, and the cursor to go on from, 0 at the end *)
  scan_page : S -> Z -> string -> Z -> list string * Z;
  (** PTTL: nothing for a missing key, and whether and when the key expires *)
  pttl : S -> Z -> string -> option (option Z);
  (** SET key value KEEPTTL, which is what INCR does to a key *)
  cmd_set_keepttl : Z -> string -> string -> S -> S }.

(** No character of the string is special in a pattern. *)
Definition glob_plain (p : string) : bool :=
  sforall (fun c => let n := code c in negb ((n =? 42) || (n =? 63) || (n =? 91) || (n =? 92))) p.

(** A full iteration: the pages found on the states the server goes through at those times, up to the cursor 0. *)
Fixpoint iterate {S} `{RedisKeys S} (pat : string) (cursor : Z) (visits : list (S * Z)) : list string * Z :=
  match visits with
  | [] => ([], cursor)
  | (s, now) :: visits =>
      let '(keys, cursor) := scan_page s now pat cursor in
      if cursor =? 0 then (keys, 0) else let '(more, cursor) := iterate pat cursor visits in (keys ++ more, cursor)
  end.

(** Documented of SCAN: only matching keys are returned, and a full iteration returns every matching key that is there all
    the time; a key may be returned twice, and one that comes or goes may be returned or not. *)
Class RedisKeysLaws (S : Type) `{RedisKeys S, !RedisLaws S} := {
  scan_matches s now p cursor k : glob_plain p = true -> k ∈ (scan_page s now (p +:+ "*") cursor).1 -> has_prefix p k = true;
  scan_full p visits keys k : glob_plain p = true -> visits <> [] -> iterate (p +:+ "*") 0 visits = (keys, 0) ->
    has_prefix p k = true -> (forall s now, (s, now) ∈ visits -> is_Some (live s now k)) -> k ∈ keys;
  pttl_missing s now k : pttl s now k = None <-> live s now k = None;
  pttl_expiry s now k d : pttl s now k = Some (Some d) -> forall t, now <= t -> is_Some (live s t k) <-> t < now + d;
  pttl_persistent s now k : pttl s now k = Some None -> forall t, now <= t -> is_Some (live s t k);
  live_set_keepttl s now k v t k' : now <= t ->
    live (cmd_set_keepttl now k v s) t k' =
      if decide (k = k')
      then (if decide (live s now k = None) then Some v else (fun _ => v) <$> live s t k)
      else live s t k' }.

(** ** Values and their encoding *)

Class Codec (V : Type) := {
  Marshal : V -> error + string;
  Unmarshal : string -> option V;
  (** a value that is a nil interface *)
  is_nil : V -> bool }.

(** Dynamic values; [json.Number] and objects are outside the round trip of GoJson. *)
#[export] Instance any_codec : Codec any := {
  Marshal v := inr (marshal v);
  Unmarshal := unmarshal;
  is_nil v := match v with ANil => true | _ => false end }.

Section Redis.
  Context {S V : Type} `{RedisKeys S, Codec V}.

Definition errNil : error := Err "redis: nil".
Definition errDecode : error := Err "json: cannot unmarshal".

(** *** redis.go *)

Definition Set_ (n : net) (now : Z) (key : string) (value : V) (expiration : Z) (s : S) : option error * S :=
  match Marshal value with
  | inl err => (Some err, s)
  | inr p => let '(r, s) := call n (fun s => (tt, cmd_set now key p expiration s)) s in
             (match r with inl err => Some err | inr _ => None end, s)
  end.

Definition Get (n : net) (now : Z) (key : string) (s : S) : (error + V) * S :=
  let '(r, s) := call n (fun s => (live s now key, s)) s in
  (match r with
   | inl err => inl err
   | inr None => inl errNil
   | inr (Some p) => match Unmarshal p with Some v => inr v | None => inl errDecode end
   end, s).

Inductive remembered := RVal (v : V) | RErr (e : error) | RPanic.

(** A conversion [v.(T)] of a value that came through [any]. *)
Definition assert_type (v : V) : remembered := if is_nil v then RPanic else RVal v.

(** The two reads and the write of a call, each with its fate and time; the loader works on its own world. *)
Record remember_env := REnv { fate1 : net; time1 : Z; fate2 : net; time2 : Z; fate3 : net; time3 : Z }.

Definition Remember {W : Type} (env : remember_env) (key : string) (ttl : Z) (loader : W -> (error + V) * W) (s : S) (w : W)
    : remembered * S * W :=
  let '(r, s) := Get (fate1 env) (time1 env) key s in
  match r with
  | inr out => (RVal out, s, w)
  | inl _ =>
      (* one flight of the group *)
      let '(r, s) := Get (fate2 env) (time2 env) key s in
      match r with
      | inr inner => (assert_type inner, s, w)
      | inl _ =>
          let '(r, w) := loader w in
          match r with
          | inl err => (RErr err, s, w)
          | inr val => let '(_, s) := Set_ (fate3 env) (time3 env) key val ttl s in (assert_type val, s, w)
          end
      end
  end.

Definition Delete (n : net) (now : Z) (keys : list string) (s : S) : option error * S :=
  match keys with
  | [] => (None, s)
  | _ => let '(r, s) := call n (fun s => (tt, fold_left (fun s k => cmd_del now k s) keys s)) s in
         (match r with inl err => Some err | inr _ => None end, s)
  end.

Definition Exists_ (n : net) (now : Z) (key : string) (s : S) : (error + bool) * S :=
  call n (fun s => (match live s now key with Some _ => true | None => false end, s)) s.

(** go-redis sends whole seconds, and one for less than a second. *)
Definition ex_seconds (ttl : Z) : Z := if (0 <? ttl) && (ttl <? Second) then 1 else Z.quot ttl Second.

Definition Expire (n : net) (now : Z) (key : string) (ttl : Z) (s : S) : (error + bool) * S :=
  call n (fun s => (match live s now key with Some _ => true | None => false end,
                    cmd_pexpire now key (ex_seconds ttl * 1000) s)) s.

(** Redis answers in seconds, rounded; -2 and -1 come back as durations. *)
Definition TTL (n : net) (now : Z) (key : string) (s : S) : (error + Z) * S :=
  call n (fun s => (match pttl s now key with
                    | None => -2 | Some None => -1
                    | Some (Some d) => (d / Millisecond + 500) / 1000 * Second
                    end, s)) s.

(** *** bulk.go *)

(** The pairs in an order of the map's iteration: the first that does not encode ends the call, before anything is
    sent. *)
Fixpoint encode_all (pairs : list (string * V)) : error + list (string * string) :=
  match pairs with
  | [] => inr []
  | (k, v) :: pairs =>
      match Marshal v with
      | inl err => inl (Wrap ("redis: encode " +:+ k) [err])
      | inr b => match encode_all pairs with inl err => inl err | inr l => inr ((k, b) :: l) end
      end
  end.

Definition MSet (n : net) (now : Z) (pairs : list (string * V)) (ttl : Z) (s : S) : option error * S :=
  match pairs with
  | [] => (None, s)
  | _ =>
      match encode_all pairs with
      | inl err => (Some err, s)
      | inr l => let '(r, s) := call n (fun s => (tt, fold_left (fun s kb => cmd_set now kb.1 kb.2 ttl s) l s)) s in
                 (match r with inl err => Some err | inr _ => None end, s)
      end
  end.

Definition MGet (n : net) (now : Z) (keys : list string) (s : S) : (error + gmap string string) * S :=
  match keys with
  | [] => (inr ∅, s)
  | _ =>
      let '(r, s) := call n (fun s => (map (live s now) keys, s)) s in
      (match r with
       | inl err => inl err
       | inr vals => inr (fold_left (fun out kv => match kv.2 with Some v => <[kv.1 := v]> out | None => out end) (zip keys vals) ∅)
       end, s)
  end.

(** INCR and DECR, on the server. *)
Definition incr_by (d now : Z) (key : string) (s : S) : (error + Z) * S :=
  match (match live s now key with None => Some 0 | Some v => parse_int 64 v end) with
  | None => (inl (Err "ERR value is not an integer or out of range"), s)
  | Some v =>
      if (int_min <=? v + d) && (v + d <=? int_max) then (inr (v + d), cmd_set_keepttl now key (itoa (v + d)) s)
      else (inl (Err "ERR increment or decrement would overflow"), s)
  end.
Definition flatten {A} (r : error + (error + A)) : error + A := match r with inl e => inl e | inr r => r end.
Definition Incr (n : net) (now : Z) (key : string) (s : S) : (error + Z) * S :=
  let '(r, s) := call n (incr_by 1 now key) s in (flatten r, s).
Definition Decr (n : net) (now : Z) (key : string) (s : S) : (error + Z) * S :=
  let '(r, s) := call n (incr_by (-1) now key) s in (flatten r, s).

Definition SetNX (n : net) (now : Z) (key : string) (value : V) (ttl : Z) (s : S) : (error + bool) * S :=
  match Marshal value with
  | inl err => (inl (Wrap "redis: encode" [err]), s)
  | inr b => call n (fun s => match live s now key with
                              | Some _ => (false, s)
                              | None => (true, cmd_set now key b ttl s)
                              end) s
  end.

(** SET with GET: the old value, and no expiry afterwards. *)
Definition GetSet (n : net) (now : Z) (key : string) (value : V) (s : S) : (error + string) * S :=
  match Marshal value with
  | inl err => (inl (Wrap "redis: encode" [err]), s)
  | inr b =>
      let '(r, s) := call n (fun s => (live s now key, cmd_set now key b 0 s)) s in
      (match r with inl err => inl err | inr None => inl errNil | inr (Some old) => inr old end, s)
  end.

(** *** storage.go *)

Record Storage := MkStorage { prefix : string }.
Definition WithPrefix (p : string) (_ : Storage) : Storage := MkStorage p.
Definition NewStorage (opts : list (Storage -> Storage)) : Storage := fold_left (fun s o => o s) opts (MkStorage "fiber:storage:").

Definition st_Get (st : Storage) (n : net) (now : Z) (key : string) (s : S) : (error + option string) * S :=
  if String.eqb key "" then (inr None, s) else call n (fun s => (live s now (prefix st +:+ key), s)) s.

Definition st_Set (st : Storage) (n : net) (now : Z) (key val : string) (exp : Z) (s : S) : option error * S :=
  if String.eqb key "" || String.eqb val "" then (None, s)
  else let '(r, s) := call n (fun s => (tt, cmd_set now (prefix st +:+ key) val exp s)) s in
       (match r with inl err => Some err | inr _ => None end, s).

Definition st_Delete (st : Storage) (n : net) (now : Z) (key : string) (s : S) : option error * S :=
  if String.eqb key "" then (None, s) else Delete n now [prefix st +:+ key] s.

(** The body of the loop of [Reset] over one page: batches of 500; [env i] is the fate and the time of the [i]th command
    of the call and [n] the number of those sent. The error, or the batch begun. *)
Fixpoint reset_page (env : nat -> net * Z) (n : nat) (keys batch : list string) (s : S) : (error + nat * list string) * S :=
  match keys with
  | [] => (inr (n, batch), s)
  | k :: keys =>
      let batch := batch ++ [k] in
      if 500 <=? Z.of_nat (length batch) then
        match Delete (env n).1 (env n).2 batch s with
        | (Some err, s) => (inl err, s)
        | (None, s) => reset_page env (Datatypes.S n) keys [] s
        end
      else reset_page env n keys batch s
  end.

(** The loop: the iterator asks for the next page when the last one is used up, so keys are deleted while the scan goes on;
    a failing SCAN ends it before the last batch is deleted. [None] is a scan that has not ended after that many pages. *)
Fixpoint reset_loop (env : nat -> net * Z) (pages n : nat) (pat : string) (cursor : Z) (batch : list string) (s : S) : option (option error * S) :=
  match pages with
  | O => None
  | Datatypes.S pages =>
      match call (env n).1 (fun s => (scan_page s (env n).2 pat cursor, s)) s with
      | (inl err, s) => Some (Some err, s)
      | (inr (keys, cursor), s) =>
          match reset_page env (Datatypes.S n) keys batch s with
          | (inl err, s) => Some (Some err, s)
          | (inr (n, batch), s) =>
              if cursor =? 0 then Some (Delete (env n).1 (env n).2 batch s) else reset_loop env pages n pat cursor batch s
          end
      end
  end.

Definition Reset_ (st : Storage) (env : nat -> net * Z) (pages : nat) (s : S) : option (option error * S) :=
  reset_loop env pages 0 (prefix st +:+ "*") 0 [] s.

(** *** pubsub.go *)

(** What the goroutine of [Subscribe] does with the messages it receives until it ends: the handled values, and
    the errors logged. *)
Fixpoint deliver {W : Type} (handler : V -> W -> option error * W) (payloads : list string) (w : W) : list error * W :=
  match payloads with
  | [] => ([], w)
  | p :: payloads =>
      match Unmarshal p with
      | None => let '(log, w) := deliver handler payloads w in (errDecode :: log, w)
      | Some v =>
          let '(err, w) := handler v w in
          let '(log, w) := deliver handler payloads w in
          (match err with Some e => e :: log | None => log end, w)
      end
  end.

Definition Publish (n : net) (value : V) (send : string -> S -> S) (s : S) : option error * S :=
  match Marshal value with
  | inl err => (Some (Wrap "redis: encode publish payload" [err]), s)
  | inr b => let '(r, s) := call n (fun s => (tt, send b s)) s in (match r with inl err => Some err | inr _ => None end, s)
  end.
End Redis.
Arguments remembered : clear implicits.

(** ** The server in memory *)

Module KeysMem.
Import (hints) RedisServer.Mem.

(** The keys lie in three buckets by their length, and a page is a bucket. *)
Definition bucket (k : string) : Z := Z.of_nat (String.length k) mod 3.

#[export] Instance mem_keys : RedisKeys Mem.store := {
  scan_page s now pat cursor :=
    let p := take_string (String.length pat - 1) pat in
    (filter (fun k => has_prefix p k = true /\ live s now k <> None /\ bucket k = cursor) (map_to_list (s : Mem.store)).*1,
     if cursor =? 2 then 0 else cursor + 1);
  pttl s now k :=
    match (s : Mem.store) !! k ≫= (fun e => (fun _ => e) <$> Mem.entry_live now e) with
    | None => None
    | Some (_, None) => Some None
    | Some (_, Some x) => Some (Some (x - now))
    end;
  cmd_set_keepttl now k v s :=
    <[k := (v, match (s : Mem.store) !! k ≫= (fun e => (fun _ => e) <$> Mem.entry_live now e) with Some (_, x) => x | None => None end)]> s }.

Lemma take_drop_last (p q : string) : take_string (String.length (p +:+ q) - String.length q) (p +:+ q) = p.
Proof.
  rewrite string_app_length. replace (_ + _ - _)%nat with (String.length p) by lia.
  induction p as [|c p IH]; [by destruct q|]. rewrite string_app_cons. cbn. by rewrite IH.
Qed.

#[export] Instance mem_keys_laws : RedisKeysLaws Mem.store.
Proof.
  split.
  - intros s now p c k _. cbn -[take_string String.length live bucket]. change 1%nat with (String.length "*"). rewrite take_drop_last.
    by intros [[Hp _] _]%list_elem_of_filter.
  - intros p visits keys k _ Hne Hit Hp Hlive.
    assert (Hb : 0 <= bucket k < 3) by (apply Z.mod_pos_bound; lia).
    assert (Hgen : forall vs c keys, iterate (p +:+ "*") c vs = (keys, 0) -> (vs = [] -> c <> 0) -> (forall s now, (s, now) ∈ vs -> is_Some (live s now k)) ->
      0 <= c <= bucket k -> k ∈ keys).
    { clear keys Hit Hlive. induction vs as [|[s now] vs IH]; intros c keys Hit Hc Hlive Hle; cbn [iterate] in Hit.
      { injection Hit as _ ->. by destruct Hc. }
      destruct (scan_page s now (p +:+ "*") c) as [ks c'] eqn:Hs.
      assert (Hks : bucket k = c -> k ∈ ks).
      { intros Hbk. injection Hs as <- _. change 1%nat with (String.length "*"). rewrite take_drop_last. apply list_elem_of_filter.
        destruct (Hlive s now) as [v Hv]; [by left|]. split; [split; [done|split; [intros Hx; discriminate (eq_trans (eq_sym Hv) Hx)|done]]|]. cbn in Hv.
        destruct ((s : Mem.store) !! k) as [e|] eqn:E; [|done]. apply list_elem_of_fmap. exists (k, e). split; [done|]. by apply elem_of_map_to_list. }
      assert (Hc' : c' = if c =? 2 then 0 else c + 1) by (by injection Hs). destruct (Z.eqb_spec c' 0) as [H0|H0].
      - injection Hit as <-. apply Hks. destruct (Z.eqb_spec c 2); lia.
      - destruct (iterate (p +:+ "*") c' vs) as [more c2] eqn:Hi. injection Hit as <- ->. apply elem_of_app.
        destruct (decide (bucket k = c)) as [Hbk|Hbk]; [left; by apply Hks|right]. apply (IH c' more Hi); [done| |].
        + intros s' now' Hin. apply (Hlive s' now'). by right.
        + destruct (Z.eqb_spec c 2); lia. }
    apply (Hgen visits 0 keys Hit); [done|done|lia].
  - intros s now k. cbn. destruct (s !! k) as [[v [x|]]|]; cbn; [|done|done]. unfold Mem.entry_live; cbn. by destruct (now <? x).
  - intros s now k d. cbn. destruct (s !! k) as [[v [x|]]|]; cbn; [|done|done]. unfold Mem.entry_live; cbn.
    destruct (Z.ltb_spec now x); cbn; [|done]. intros [= <-] t Ht. destruct (Z.ltb_spec t x); split; try done; try lia.
  - intros s now k. cbn. destruct (s !! k) as [[v [x|]]|]; cbn; [| |done]; unfold Mem.entry_live; cbn; [by destruct (now <? x)|done].
  - intros s now k v t k' Ht. cbn. case_decide as Hk; [subst; rewrite lookup_insert_eq|by rewrite lookup_insert_ne].
    cbn. destruct (s !! k') as [[v' [x|]]|]; cbn; unfold Mem.entry_live; cbn; [|done|done].
    destruct (Z.ltb_spec now x); cbn.
    + by destruct (t <? x).
    + done.
Qed.
End KeysMem.

Section Facts.
  Context {S V : Type} `{HS : RedisServer S, HK : !RedisKeys S, HL : !RedisLaws S, HKL : !RedisKeysLaws S, HC : Codec V}.

(** ** Deleting *)

Lemma live_fold_del (keys : list string) (now t : Z) (s : S) (k : string) : now <= t ->
  live (fold_left (fun s k => cmd_del now k s) keys s) t k = if decide (k ∈ keys) then None else live s t k.
Proof.
  intros Ht. revert s. induction keys as [|k0 keys IH]; intros s; cbn [fold_left].
  { rewrite decide_False; [done|]. by apply not_elem_of_nil. }
  rewrite IH, live_del by done. destruct (decide (k ∈ keys)) as [Hin|Hnin].
  - rewrite decide_True; [done|]. rewrite elem_of_cons. by right.
  - destruct (decide (k0 = k)) as [->|Hne]; [rewrite decide_True; [done|]; rewrite elem_of_cons; by left|].
    rewrite decide_False; [done|]. rewrite elem_of_cons. intros [->|?]; done.
Qed.

(** Whatever a DEL meets, only the given keys can go; when it answers, all are gone. *)
Lemma Delete_spec (n : net) (now : Z) (keys : list string) (s : S) :
  let '(r, s') := Delete n now keys s in
  (forall t k, now <= t -> k ∉ keys -> live s' t k = live s t k) /\
  (forall t k, now <= t -> live s' t k = None \/ live s' t k = live s t k) /\
  (r = None -> forall t k, now <= t -> k ∈ keys -> live s' t k = None) /\
  (n = NetOk -> r = None).
Proof.
  destruct keys as [|k0 keys]; [cbn; split_and!; auto; by intros _ t k _ ?%not_elem_of_nil|].
  unfold Delete. generalize (k0 :: keys). intros l.
  assert (Hdel : forall t k, now <= t -> live (fold_left (fun s k => cmd_del now k s) l s) t k = if decide (k ∈ l) then None else live s t k)
    by (intros; by apply live_fold_del).
  assert (Hout : forall t k, now <= t -> k ∉ l -> live (fold_left (fun s k => cmd_del now k s) l s) t k = live s t k)
    by (intros t k Ht Hk; rewrite Hdel, decide_False; done).
  assert (Hor : forall t k, now <= t -> live (fold_left (fun s k => cmd_del now k s) l s) t k = None \/
                  live (fold_left (fun s k => cmd_del now k s) l s) t k = live s t k)
    by (intros t k Ht; rewrite Hdel by done; case_decide; auto).
  destruct n as [|e|e]; cbn [call]; split_and!; try done.
  - intros _ t k Ht Hk. by rewrite Hdel, decide_True by done.
  - intros t k _. by right.
Qed.

(** A later state of the server in which keys outside [ks] are what they were and others only go. *)
Definition shrunk (T : Z) (ks : list string) (s s' : S) : Prop :=
  (forall t k, T <= t -> k ∉ ks -> live s' t k = live s t k) /\ (forall t k, T <= t -> live s' t k = None \/ live s' t k = live s t k).

Lemma shrunk_refl T ks s : shrunk T ks s s.
Proof. split; [done|by right]. Qed.
Lemma shrunk_trans T ks ks1 ks2 s s1 s2 : shrunk T ks1 s s1 -> shrunk T ks2 s1 s2 -> ks1 ⊆ ks -> ks2 ⊆ ks -> shrunk T ks s s2.
Proof.
  intros [A1 A2] [B1 B2] H1 H2. split.
  - intros t k Ht Hk. rewrite B1, A1; [done|done| |done|]; intros Hin; apply Hk; auto.
  - intros t k Ht. destruct (B2 t k Ht) as [->| ->]; [by left|by apply A2].
Qed.
Lemma Delete_shrunk T (nt : net) (now : Z) (ks : list string) (s : S) : now <= T -> shrunk T ks s (Delete nt now ks s).2.
Proof.
  intros Hle. pose proof (Delete_spec nt now ks s) as HD. destruct (Delete nt now ks s) as [r s']. destruct HD as (H1 & H2 & _).
  split; cbn [snd]; [intros t k Ht; apply H1; lia|intros t k Ht; apply H2; lia].
Qed.

(** What a page does: keys that went are among the page and the batch; those not deleted yet are in the new batch. *)
Lemma reset_page_spec (env : nat -> net * Z) (T : Z) (Henv : forall i, (env i).2 <= T) (keys : list string) : forall n batch s,
  let '(r, s') := reset_page env n keys batch s in
  shrunk T (batch ++ keys) s s' /\
  match r with
  | inl _ => exists i, (env i).1 <> NetOk
  | inr (n', batch') => batch' ⊆ batch ++ keys /\ forall k, k ∈ batch ++ keys -> k ∈ batch' \/ forall t, T <= t -> live s' t k = None
  end.
Proof.
  induction keys as [|k0 keys IH]; intros n batch s; cbn [reset_page].
  - rewrite app_nil_r. split; [apply shrunk_refl|]. split; [done|by left].
  - assert (Hcat : forall k, k ∈ (batch ++ [k0]) ++ keys <-> k ∈ batch ++ k0 :: keys) by (intros k; by rewrite <- app_assoc).
    destruct (500 <=? _); [|specialize (IH n (batch ++ [k0]) s); by rewrite <- app_assoc in IH].
    pose proof (Delete_shrunk T (env n).1 (env n).2 (batch ++ [k0]) s (Henv n)) as Hd.
    pose proof (Delete_spec (env n).1 (env n).2 (batch ++ [k0]) s) as HD. destruct (Delete _ _ (batch ++ [k0]) s) as [[e|] s1]; cbn [snd] in Hd.
    { split; [eapply shrunk_trans; [exact Hd|apply (shrunk_refl T [])|intros k Hk; apply Hcat, elem_of_app; by left|apply list_subseteq_nil]|].
      exists n. intros Hn. destruct HD as (_ & _ & _ & Hok). by specialize (Hok Hn). }
    destruct HD as (_ & _ & Hgone & _). specialize (Hgone eq_refl). specialize (IH (Datatypes.S n) [] s1).
    destruct (reset_page env (Datatypes.S n) keys [] s1) as [r s2]. cbn [app] in IH. destruct IH as [Hs2 Hr]. split.
    { eapply shrunk_trans; [exact Hd|exact Hs2| |]; intros k Hk; apply Hcat, elem_of_app; auto. }
    destruct r as [err|[n' batch']]; [done|]. destruct Hr as [Hsub Hall]. split; [intros k Hk; apply Hcat, elem_of_app; right; by apply Hsub|].
    intros k [Hk|Hk]%Hcat%elem_of_app; [|by apply Hall]. right. intros t Ht. pose proof (Hgone t k) as Hg. specialize (Henv n).
    destruct (proj2 Hs2 t k Ht) as [|Heq]; [done|]. rewrite Heq. apply Hg; [lia|done].
Qed.

(** What the loop does, with the states the scan has seen: each still had what is there at the end. *)
Lemma reset_loop_spec (env : nat -> net * Z) (T : Z) (Henv : forall i, (env i).2 <= T) (pat : string) (pages : nat) : forall n cursor batch s r s',
  reset_loop env pages n pat cursor batch s = Some (r, s') ->
  exists visits keys c, iterate pat cursor visits = (keys, c) /\ shrunk T (batch ++ keys) s s' /\
    (forall sv now, (sv, now) ∈ visits -> now <= T /\ forall t k v, T <= t -> live s' t k = Some v -> live sv t k = Some v) /\
    (r = None -> visits <> [] /\ c = 0 /\ forall k t, k ∈ batch ++ keys -> T <= t -> live s' t k = None) /\
    (r <> None -> exists i, (env i).1 <> NetOk).
Proof.
  induction pages as [|pages IH]; intros n cursor batch s r s'; cbn [reset_loop]; [done|].
  destruct (call (env n).1 (fun s => (scan_page s (env n).2 pat cursor, s)) s) as [[err|[keys c']] s0] eqn:Hcall.
  { intros [= <- <-]. assert (s0 = s /\ (env n).1 <> NetOk) as [-> Hbad] by (destruct (env n).1; cbn in Hcall; by simplify_eq).
    exists [], [], cursor. rewrite app_nil_r. do 2 (split; [done || apply shrunk_refl|]); split_and!; [by intros ? ? ?%elem_of_nil|done|by exists n]. }
  assert (s0 = s /\ scan_page s (env n).2 pat cursor = (keys, c')) as [-> Hpage] by (destruct (env n).1; cbn in Hcall; by simplify_eq). clear Hcall.
  pose proof (reset_page_spec env T Henv keys (Datatypes.S n) batch s) as Hp. destruct (reset_page env (Datatypes.S n) keys batch s) as [[err|[n' batch']] s1].
  { intros [= <- <-]. destruct Hp as [Hs1 Hbad]. exists [(s, (env n).2)], keys, (if c' =? 0 then 0 else c').
    split; [cbn [iterate]; rewrite Hpage; destruct (c' =? 0); by rewrite ?app_nil_r|]. split; [exact Hs1|]. split; [|by split].
    intros sv now Hin%list_elem_of_singleton. injection Hin as -> ->. split; [apply Henv|]. intros t k v Ht Hv.
    destruct (proj2 Hs1 t k Ht) as [He|He]; congruence. }
  destruct Hp as (Hs1 & Hsub & Hall). destruct (c' =? 0) eqn:Hc0.
  - intros Heq. injection Heq as Heq. pose proof (Delete_shrunk T (env n').1 (env n').2 batch' s1 (Henv n')) as Hd.
    pose proof (Delete_spec (env n').1 (env n').2 batch' s1) as HD. rewrite Heq in Hd, HD. cbn [snd] in Hd. destruct HD as (_ & _ & Hgone & Hok).
    assert (Hs : shrunk T (batch ++ keys) s s') by (eapply shrunk_trans; [exact Hs1|exact Hd|done|done]).
    exists [(s, (env n).2)], keys, 0. cbn [iterate]. rewrite Hpage, Hc0. split_and!; [done|exact Hs| | |].
    + intros sv now Hin%list_elem_of_singleton. injection Hin as -> ->. split; [apply Henv|]. intros t k v Ht Hv.
      destruct (proj2 Hs t k Ht) as [He|He]; congruence.
    + intros ->. split_and!; [done|done|]. intros k t Hk Ht. destruct (Hall k Hk) as [Hb|Hg].
      * apply Hgone; [done|specialize (Henv n'); lia|done].
      * destruct (proj2 Hd t k Ht) as [|He]; [done|]. rewrite He. by apply Hg.
    + intros Hr. exists n'. intros Hn. by apply Hr, Hok.
  - intros Heq. destruct (IH n' c' batch' s1 r s' Heq) as (visits & more & c & Hit & Hs2 & Hseen & Hok & Hbad).
    exists ((s, (env n).2) :: visits), (keys ++ more), c. cbn [iterate]. rewrite Hpage, Hc0, Hit.
    assert (Hs : shrunk T (batch ++ keys ++ more) s s').
    { eapply shrunk_trans; [exact Hs1|exact Hs2|set_solver|]. intros k [Hk|Hk]%elem_of_app; [apply Hsub in Hk; set_solver|set_solver]. }
    split_and!; [done|exact Hs| | |done].
    + intros sv now [Hin|Hin]%elem_of_cons; [|by apply Hseen]. injection Hin as -> ->. split; [apply Henv|]. intros t k v Ht Hv.
      destruct (proj2 Hs t k Ht) as [He|He]; congruence.
    + intros Hr. destruct (Hok Hr) as (_ & -> & Hg). split_and!; [done|done|]. intros k t Hk Ht.
      destruct (decide (k ∈ batch' ++ more)) as [Hin|Hn]; [by apply Hg|]. rewrite (proj1 Hs2 t k Ht Hn).
      rewrite app_assoc in Hk. apply elem_of_app in Hk as [Hk|Hk]; [|exfalso; apply Hn, elem_of_app; by right].
      destruct (Hall k Hk) as [Hb|Hg']; [exfalso; apply Hn, elem_of_app; by left|by apply Hg'].
Qed.

(** A key a page returns matches. *)
Lemma iterate_matches (p : string) (visits : list (S * Z)) : glob_plain p = true -> forall cursor k, k ∈ (iterate (p +:+ "*") cursor visits).1 -> has_prefix p k = true.
Proof.
  intros Hp. induction visits as [|[s now] visits IH]; intros cursor k; cbn [iterate]; [by intros ?%elem_of_nil|].
  pose proof (scan_matches s now p cursor k Hp) as Hm. destruct (scan_page s now _ cursor) as [keys c']. cbn [fst] in Hm.
  destruct (c' =? 0); [exact Hm|]. specialize (IH c' k). destruct (iterate _ c' visits) as [more c]. cbn [fst] in *. intros [Hk|Hk]%elem_of_app; auto.
Qed.

(** ** Loading once *)

Definition ok_env (t : Z) : remember_env := REnv NetOk t NetOk t NetOk t.

(** Calls one after the other, at their times. *)
Fixpoint remember_all {W : Type} (key : string) (ttl : Z) (loader : W -> (error + V) * W) (ts : list Z) (s : S) (w : W)
    : list (remembered V) * S * W :=
  match ts with
  | [] => ([], s, w)
  | t :: ts =>
      let '(r, s, w) := Remember (ok_env t) key ttl loader s w in
      let '(rs, s, w) := remember_all key ttl loader ts s w in (r :: rs, s, w)
  end.

Lemma remember_hits {W : Type} (key : string) (ttl : Z) (loader : W -> (error + V) * W) (ts : list Z) (s : S) (w : W) (p : string) (v : V) :
  Unmarshal p = Some v -> Forall (fun t => live s t key = Some p) ts ->
  remember_all key ttl loader ts s w = (repeat (RVal v) (length ts), s, w).
Proof.
  intros Hp. induction 1 as [|t ts Ht Hts IH]; [done|]. cbn [remember_all]. unfold Remember, Get. cbn [ok_env fate1 time1 call].
  rewrite Ht, Hp. cbn [length repeat]. by rewrite IH.
Qed.

Lemma remember_loads {W : Type} (key : string) (ttl t0 : Z) (loader : W -> (error + V) * W) (ts : list Z) (s : S) (w w' : W) (v v' : V) (p : string) :
  0 <= ttl -> (forall p0, live s t0 key = Some p0 -> Unmarshal p0 = None) ->
  loader w = (inr v, w') -> Marshal v = inr p -> Unmarshal p = Some v' ->
  Forall (fun t => t0 <= t /\ (ttl = 0 \/ t < t0 + px ttl)) ts ->
  remember_all key ttl loader (t0 :: ts) s w = (assert_type v :: repeat (RVal v') (length ts), cmd_set t0 key p ttl s, w').
Proof.
  intros Httl Hmiss Hload Hp Hv Hts. cbn [remember_all]. unfold Remember, Get, Set_. cbn [ok_env fate1 time1 fate2 time2 fate3 time3 call].
  assert (Hget : match live s t0 key with Some p0 => match Unmarshal p0 with Some v => inr v | None => inl errDecode end | None => inl errNil end
     = (inl (match live s t0 key with Some _ => errDecode | None => errNil end) : error + V)).
  { destruct (live s t0 key) as [p0|]; [by rewrite Hmiss|done]. }
  rewrite Hget, Hload, Hp. cbn [call].
  rewrite (remember_hits _ _ _ _ _ _ p v'); [done|done|]. eapply Forall_impl; [exact Hts|]. intros t [Ht Hlt].
  rewrite live_set, decide_True by done. destruct Hlt as [->|Hlt]; [done|]. by rewrite (proj2 (Z.ltb_lt _ _) Hlt), orb_true_r.
Qed.

(** ** Bulk *)

Lemma live_fold_set (l : list (string * string)) (now ttl t : Z) (s : S) (k : string) : now <= t -> 0 <= ttl -> ttl = 0 \/ t < now + px ttl ->
  NoDup l.*1 ->
  live (fold_left (fun s kb => cmd_set now kb.1 kb.2 ttl s) l s) t k = match (list_to_map l : gmap string string) !! k with Some b => Some b | None => live s t k end.
Proof.
  intros Ht Httl Hlt. revert s. induction l as [|[k0 b0] l IH]; intros s Hnd; [done|]. cbn [fold_left fst snd].
  rewrite fmap_cons in Hnd. apply NoDup_cons in Hnd as [Hn Hnd]. rewrite IH by done. cbn [list_to_map foldr uncurry fst snd].
  rewrite live_set by done. destruct (decide (k0 = k)) as [->|Hne].
  - rewrite lookup_insert_eq. rewrite (not_elem_of_list_to_map_1 l k) by done.
    destruct Hlt as [->|Hlt]; [done|]. by rewrite (proj2 (Z.ltb_lt _ _) Hlt), orb_true_r.
  - by rewrite lookup_insert_ne by done.
Qed.

Lemma encode_all_spec (pairs : list (string * V)) (l : list (string * string)) : encode_all pairs = inr l ->
  l.*1 = pairs.*1 /\ Forall2 (fun kv kb => kb.1 = kv.1 /\ Marshal kv.2 = inr kb.2) pairs l.
Proof.
  revert l. induction pairs as [|[k v] pairs IH]; intros l; cbn [encode_all]; [by intros [= <-]|].
  destruct (Marshal v) as [e|b] eqn:Em; [done|]. destruct (encode_all pairs) as [e|l'] eqn:E; [done|]. intros [= <-].
  destruct (IH l' eq_refl) as [I1 I2]. rewrite !fmap_cons, I1. split; [done|]. by constructor.
Qed.

Lemma MGet_spec (now : Z) (keys : list string) (s : S) :
  exists m, (MGet NetOk now keys s) = (inr m, s) /\ forall k, m !! k = if decide (k ∈ keys) then live s now k else None.
Proof.
  assert (Hgo : forall l (out : gmap string string) k, (forall k', k' ∈ l -> out !! k' = None \/ out !! k' = live s now k') ->
    fold_left (fun out kv => match kv.2 with Some v => <[kv.1 := v]> out | None => out end) (zip l (map (live s now) l)) out !! k
      = if decide (k ∈ l) then live s now k else (out : gmap string string) !! k).
  { intros l. induction l as [|k0 l IH]; intros out k Hout; cbn [map zip_with fold_left fst snd].
    { rewrite decide_False; [done|]. by apply not_elem_of_nil. }
    rewrite IH.
    - destruct (decide (k ∈ l)) as [Hin|Hn]; [rewrite decide_True; [done|set_solver]|].
      destruct (decide (k = k0)) as [->|Hne].
      + rewrite (decide_True (P := k0 ∈ k0 :: l)) by set_solver. destruct (live s now k0) as [v|] eqn:E; [by rewrite lookup_insert_eq|].
        destruct (Hout k0) as [H|H]; [set_solver|done|by rewrite H, E].
      + rewrite decide_False by set_solver. destruct (live s now k0); [by rewrite lookup_insert_ne|done].
    - intros k' Hk'. destruct (live s now k0) as [v|] eqn:E; [|apply Hout; set_solver].
      destruct (decide (k' = k0)) as [->|Hne]; [right; by rewrite lookup_insert_eq|]. rewrite lookup_insert_ne by done. apply Hout; set_solver. }
  unfold MGet. destruct keys as [|k0 keys].
  { exists ∅. split; [done|]. intros k. rewrite decide_False; [done|]. by apply not_elem_of_nil. }
  generalize (k0 :: keys). intros l. cbn [call]. eexists. split; [reflexivity|]. intros k. rewrite Hgo.
  - by rewrite lookup_empty.
  - intros k' _. left. apply lookup_empty.
Qed.

(** What one MSet stored, MGet reads back raw, until the keys expire. *)
Lemma MSet_MGet (now t ttl : Z) (pairs : list (string * V)) (l : list (string * string)) (s s' : S) (keys : list string) :
  NoDup pairs.*1 -> encode_all pairs = inr l -> now <= t -> 0 <= ttl -> ttl = 0 \/ t < now + px ttl ->
  MSet NetOk now pairs ttl s = (None, s') ->
  exists m, MGet NetOk t keys s' = (inr m, s') /\
    forall k, k ∈ keys -> m !! k = match (list_to_map l : gmap string string) !! k with Some b => Some b | None => live s t k end.
Proof.
  intros Hnd Hl Ht Httl Hlt Hset. destruct (MGet_spec t keys s') as (m & Hm & Hk). exists m. split; [done|]. intros k Hin.
  rewrite Hk, decide_True by done. apply encode_all_spec in Hl as Hl'. destruct Hl' as [Hkeys _].
  unfold MSet in Hset. destruct pairs as [|pr pairs].
  - injection Hset as <-. cbn in Hl. injection Hl as <-. done.
  - rewrite Hl in Hset. cbn [call] in Hset. injection Hset as <-. rewrite live_fold_set; [done|done|done|done|by rewrite Hkeys].
Qed.

(** ** Counting *)

Fixpoint incr_all (ts : list Z) (key : string) (s : S) : list (error + Z) * S :=
  match ts with
  | [] => ([], s)
  | t :: ts => let '(r, s) := Incr NetOk t key s in let '(rs, s) := incr_all ts key s in (r :: rs, s)
  end.

(** Increments of a key without an expiry: consecutive numbers. *)
Lemma incr_all_spec (key : string) (ts : list Z) (s : S) (t0 z : Z) :
  Sorted Z.le (t0 :: ts) -> int_min <= z -> z + Z.of_nat (length ts) <= int_max ->
  (forall t, t0 <= t -> live s t key = Some (itoa z)) ->
  (incr_all ts key s).1 = map (fun i => inr (z + Z.of_nat i)) (seq 1 (length ts)).
Proof.
  revert s t0 z. induction ts as [|t ts IH]; intros s t0 z Hs Hlo Hhi Hlive; [done|].
  cbn [incr_all length] in *. unfold Incr, incr_by. cbn [call]. apply Sorted_inv in Hs as [Hs Hhd]. apply HdRel_inv in Hhd.
  rewrite Hlive by done. rewrite parse_int_itoa by (unfold in_int; lia).
  rewrite (proj2 (Z.leb_le _ _)), (proj2 (Z.leb_le _ _)) by lia. cbn [andb flatten].
  specialize (IH (cmd_set_keepttl t key (itoa (z + 1)) s) t (z + 1) Hs ltac:(lia) ltac:(lia)).
  destruct (incr_all ts key _) as [rs s2]. cbn [fst seq map] in *. f_equal.
  rewrite IH.
  - rewrite <- (seq_shift (length ts) 1), map_map. apply map_ext. intros i. f_equal. lia.
  - intros t' Ht'. rewrite live_set_keepttl by done. rewrite decide_True by done. rewrite (Hlive t) by lia. rewrite decide_False by done.
    by rewrite Hlive by lia.
Qed.

(** ** Delivering *)

(** Every payload that decodes is handled, once and in order, whatever fails in between. *)
Definition recording (fails : V -> option error) (v : V) (w : list V) : option error * list V := (fails v, w ++ [v]).

Lemma deliver_all (fails : V -> option error) (payloads : list string) (w : list V) :
  (deliver (recording fails) payloads w).2 = w ++ omap Unmarshal payloads.
Proof.
  revert w. induction payloads as [|p payloads IH]; intros w.
  { cbn. by rewrite app_nil_r. }
  cbn [deliver]. csimpl.
  destruct (Unmarshal p) as [v|].
  - cbn [recording]. specialize (IH (w ++ [v])). destruct (deliver _ payloads _) as [log w']. cbn [snd] in *. rewrite IH.
    by rewrite <- app_assoc.
  - specialize (IH w). destruct (deliver _ payloads w) as [log w']. exact IH.
Qed.
End Facts.

(** ** Claims *)

(** (C37) Resetting a storage whose prefix holds no character special in a pattern. Keys are deleted in batches
    while the server is asked for the next pages. However its calls fail, a Reset that ends touches no key outside
    the prefix; when it returns nil every key of the storage is gone; and it returns an error only if a call
    failed. (With a [*], [?], [\] or [[] in the prefix it deletes keys of others: [glob_prefix_deletes_others].) *)
Theorem Reset_scoped {S : Type} `{RedisKeysLaws S} (st : Storage) (env : nat -> net * Z) (T : Z) (pages : nat) (s s' : S) (r : option error)
    (Hp : glob_plain (prefix st) = true) (Henv : forall i, (env i).2 <= T) (Hr : Reset_ st env pages s = Some (r, s')) :
  (forall t k, T <= t -> has_prefix (prefix st) k = false -> live s' t k = live s t k) /\
  (r = None -> forall t key, T <= t -> (st_Get st NetOk t key s').1 = inr None) /\
  (r <> None -> exists i, (env i).1 <> NetOk).
Proof.
  apply (reset_loop_spec env T Henv) in Hr as (visits & keys & c & Hit & Hs & Hseen & Hok & Hbad). cbn [app] in *.
  assert (Hkeys : forall k, k ∈ keys -> has_prefix (prefix st) k = true).
  { intros k Hk. eapply (iterate_matches _ visits Hp 0). by rewrite Hit. }
  split_and!; [|intros Hn|done].
  - intros t k Ht Hk. apply (proj1 Hs); [done|]. intros Hin%Hkeys. congruence.
  - destruct (Hok Hn) as (Hne & -> & Hgone). intros t key Ht. unfold st_Get. destruct (String.eqb key ""); [done|]. cbn [call fst]. f_equal.
    destruct (live s' t (prefix st +:+ key)) as [v|] eqn:E; [|done]. exfalso.
    assert (Hin : (prefix st +:+ key) ∈ keys).
    { eapply scan_full; [exact Hp|exact Hne|exact Hit|apply has_prefix_app|]. intros sv now Hv. destruct (Hseen sv now Hv) as [Hle Hl].
      exists v. eapply live_antitone; [|by eapply Hl]. lia. }
    by rewrite (Hgone _ t Hin Ht) in E.
Qed.

Import (hints) RedisServer.Mem.
Import (hints) KeysMem.

Definition sample_storage : Mem.store := {["fiber:storage:a" := ("1", None); "fiber:storage:b" := ("2", Some 50); "app:c" := ("3", None)]}%string.

(** Three pages; the reset ends, without an error. *)
Definition reset_sample : option (option error * Mem.store) := Reset_ (NewStorage []) (fun _ => (NetOk, 10)) 3 sample_storage.

Lemma Reset_scoped_witness : glob_plain "fiber:storage:" = true /\ exists s', reset_sample = Some (None, s') /\
  live s' 11 "app:c" = Some "3"%string /\ (st_Get (NewStorage []) NetOk 11 "a" s').1 = inr None.
Proof.
  split; [reflexivity|].
  assert (Hr : exists s', reset_sample = Some (None, s')) by (unfold reset_sample; vm_compute; eexists; reflexivity).
  destruct Hr as [s' Hr]. exists s'. split; [exact Hr|].
  destruct (Reset_scoped (NewStorage []) (fun _ => (NetOk, 10)) 10 3 sample_storage s' None eq_refl ltac:(intros i; cbn; lia) Hr) as (H1 & H2 & _). split.
  - rewrite (H1 11 "app:c"%string ltac:(lia) eq_refl). vm_compute. reflexivity.
  - apply (H2 eq_refl). lia.
Defined.

(** Cache-aside loads once: after a miss the loader runs, its value is stored and returned, and every later
    call while the entry lives returns the stored value without loading and without writing, however
    many there are. *)
Theorem Remember_loads_once {S V W : Type} `{RedisServer S, !RedisKeys S, !RedisLaws S, Codec V} (key : string) (ttl t0 : Z)
    (loader : W -> (error + V) * W) (ts : list Z) (s : S) (w w' : W) (v v' : V) (p : string)
    (Httl : 0 <= ttl) (Hmiss : forall p0, live s t0 key = Some p0 -> Unmarshal p0 = None)
    (Hload : loader w = (inr v, w')) (Hp : Marshal v = inr p) (Hv : Unmarshal p = Some v')
    (Hts : Forall (fun t => t0 <= t /\ (ttl = 0 \/ t < t0 + px ttl)) ts) :
  remember_all key ttl loader (t0 :: ts) s w = (assert_type v :: repeat (RVal v') (length ts), cmd_set t0 key p ttl s, w').
Proof. by apply remember_loads. Qed.

(** A loader that counts its runs. *)
Definition counting_loader (n : Z) : (error + any) * Z := (inr (AList [AInt n; AStr "x"]), n + 1).

Lemma Remember_loads_once_witness :
  remember_all "k" Second counting_loader [0; 5; 900000000] (∅ : Mem.store) 0 =
    (assert_type (AList [AInt 0; AStr "x"]) :: repeat (RVal (AList [AFloat 0; AStr "x"])) 2,
     cmd_set 0 "k" (marshal (AList [AInt 0; AStr "x"])) Second (∅ : Mem.store), 1).
Proof.
  apply (Remember_loads_once "k" Second 0 counting_loader [5; 900000000] (∅ : Mem.store) 0 1 (AList [AInt 0; AStr "x"]) (AList [AFloat 0; AStr "x"])
    (marshal (AList [AInt 0; AStr "x"]))).
  - unfold Second. lia.
  - intros p0 Hl. cbn in Hl. by rewrite lookup_empty in Hl.
  - reflexivity.
  - reflexivity.
  - vm_compute. reflexivity.
  - apply Forall_fold_right. vm_compute. split_and!; try (right; reflexivity); try discriminate; exact I.
Defined.

(** ** What modelling showed *)

(** Reset deletes whatever the server takes to match the prefix and a star. A prefix is a pattern: with [WithPrefix] of
    [app[1]:] the server answers with the keys of [app1:], which are deleted, and not with the storage's own. *)
Lemma glob_prefix_deletes_others {S : Type} `{RedisServer S, !RedisKeys S, !RedisLaws S} (st : Storage) (now : Z) (s : S) (k : string) :
  scan_page s now (prefix st +:+ "*") 0 = ([k], 0) ->
  exists s', Reset_ st (fun _ => (NetOk, now)) 1 s = Some (None, s') /\ live s' now k = None.
Proof.
  intros Hs. unfold Reset_. cbn [reset_loop fst snd call]. rewrite Hs. cbn [reset_page app length]. cbn. eexists. split; [reflexivity|].
  change (live (cmd_del now k s) now k = None). rewrite live_del by lia. by rewrite decide_True.
Qed.

(** A loader of an interface type that returns nil makes the call panic, though the value was stored: [v.(T)] fails
    on a nil interface. A later call finds [null] and returns nil. *)
Example remember_nil_panics :
  (remember_all "k" Second (fun n : Z => (inr ANil, n + 1)) [0; 5] (∅ : Mem.store) 0).1.1 = [RPanic; RVal ANil].
Proof. vm_compute. reflexivity. Qed.

(** GetSet drops the expiry of the key. *)
Example getset_persists :
  let s := cmd_set 0 "k" "1" Second (∅ : Mem.store) in
  (live s (2 * Second) "k", live (GetSet NetOk 5 "k" (AInt 2) s).2 (2 * Second) "k") = (None, Some "2"%string).
Proof. vm_compute. reflexivity. Qed.

(** The missing key and the key without expiry come back as a duration of minus two and minus one nanoseconds. *)
Example ttl_sentinels : ((TTL NetOk 0 "k" (∅ : Mem.store)).1, (TTL NetOk 0 "k" (cmd_set 0 "k" "v" 0 (∅ : Mem.store))).1) = (inr (-2), inr (-1)).
Proof. vm_compute. reflexivity. Qed.
