(* ===== verification/Server.v ===== *)
(** * Graceful shutdown (server/server.go)

    [run] serves until the listener fails or a shutdown is requested. Hooks are functions of a
    deadline and the time, and say whether they failed and when they were done; every step of the
    shutdown is recorded in a trace. Waiting for the signal is the choice between the two ends of
    the [select]. *)

From S2P Require Import Prelude.
Open Scope Z_scope.

(** What a hook does, given the context's deadline and the time it starts: its error, and the time it ends. *)
Definition hook : Type := Z -> Z -> option error * Z.

Record Config := MkConfig { Timeout : Z; DrainDelay : Z; PreShutdown : list hook; Cleanup : list hook }.

(** The steps of a shutdown: when they start, and the error they end with. *)
Inductive event :=
| EPre (i : nat) (at_ : Z) (err : option error) | EDrain (from till : Z)
| EShutdown (at_ : Z) (err : option error) | EClean (i : nat) (at_ : Z) (err : option error).

(** How the wait ends: [Listen] returned an error, or a shutdown was requested at a time. *)
Inductive wait := ListenErr (e : error) | Signal (at_ : Z).

(** A loop over hooks: errors are collected, and the next hook runs all the same. *)
Fixpoint run_hooks (mk : nat -> Z -> option error -> event) (deadline : Z) (i : nat) (hooks : list hook) (now : Z)
    : list (option error) * list event * Z :=
  match hooks with
  | [] => ([], [], now)
  | fn :: hooks =>
      let '(err, now') := fn deadline now in
      let '(errs, trace, now'') := run_hooks mk deadline (S i) hooks now' in
      (err :: errs, mk i now err :: trace, now'')
  end.

(** [shutdown] is [app.ShutdownWithContext]. *)
Definition run (w : wait) (shutdown : hook) (cfg : Config) : option error * list event :=
  match w with
  | ListenErr err => (Some err, [])
  | Signal now =>
      let deadline := now + Timeout cfg in
      let '(errs1, tr1, now) := run_hooks EPre deadline 0 (PreShutdown cfg) now in
      let '(tr2, now) :=
        if 0 <? DrainDelay cfg then
          let till := Z.max now (Z.min (now + DrainDelay cfg) deadline) in ([EDrain now till], till)
        else ([], now) in
      let '(err, now') := shutdown deadline now in
      let '(errs3, tr3, _) := run_hooks EClean deadline 0 (Cleanup cfg) now' in
      (errors_join (errs1 ++ [err] ++ errs3), tr1 ++ tr2 ++ [EShutdown now err] ++ tr3)
  end.

Definition RunGracefulWithConfig := run.
Definition RunGraceful (w : wait) (shutdown : hook) (timeout : Z) (cleanup : list hook) : option error * list event :=
  RunGracefulWithConfig w shutdown (MkConfig timeout 0 [] cleanup).

(** ** What a shutdown does *)

Inductive kind := KPre (i : nat) | KDrain | KShutdown | KClean (i : nat).
Definition kind_of (e : event) : kind := match e with EPre i _ _ => KPre i | EDrain _ _ => KDrain | EShutdown _ _ => KShutdown | EClean i _ _ => KClean i end.
Definition time_of (e : event) : Z := match e with EPre _ t _ | EDrain t _ | EShutdown t _ | EClean _ t _ => t end.
Definition error_of (e : event) : option error := match e with EPre _ _ e | EShutdown _ e | EClean _ _ e => e | EDrain _ _ => None end.

(** Time does not go back in a hook. *)
Definition forward (h : hook) : Prop := forall d t, t <= (h d t).2.

(** A trace between two times: its events start in order within them. *)
Definition spans (lo hi : Z) (tr : list event) : Prop :=
  lo <= hi /\ Sorted Z.le (map time_of tr) /\ Forall (fun e => lo <= time_of e <= hi) tr.

Lemma Sorted_le_app (l1 l2 : list Z) (m : Z) : Sorted Z.le l1 -> Sorted Z.le l2 ->
  Forall (fun x => x <= m) l1 -> Forall (fun x => m <= x) l2 -> Sorted Z.le (l1 ++ l2).
Proof.
  intros H1 H2 F1 F2. induction H1 as [|x l1 H1 IH Hhd]; [done|]. apply Forall_cons in F1 as [Fx F1].
  cbn. constructor; [by apply IH|]. destruct Hhd as [|y l1 Hxy]; [|by constructor].
  destruct l2 as [|y l2]; constructor. apply Forall_cons in F2 as [Fy _]. lia.
Qed.

Lemma spans_app (lo mid hi : Z) (tr1 tr2 : list event) : spans lo mid tr1 -> spans mid hi tr2 -> spans lo hi (tr1 ++ tr2).
Proof.
  intros (L1 & S1 & F1) (L2 & S2 & F2). split_and!; [lia| |].
  - rewrite map_app. apply (Sorted_le_app _ _ mid); [done|done| |]; apply Forall_map; eapply Forall_impl; try eassumption; cbn; lia.
  - apply Forall_app. split; eapply Forall_impl; try eassumption; cbn; lia.
Qed.

Lemma run_hooks_spec (mk : nat -> Z -> option error -> event) (K : nat -> kind) (deadline : Z) (i : nat) (hooks : list hook) (now : Z) :
  (forall i t e, kind_of (mk i t e) = K i /\ time_of (mk i t e) = t /\ error_of (mk i t e) = e) ->
  let '(errs, tr, now') := run_hooks mk deadline i hooks now in
  map kind_of tr = map K (seq i (length hooks)) /\ map error_of tr = errs /\ (Forall forward hooks -> spans now now' tr).
Proof.
  intros Hmk. revert i now. induction hooks as [|fn hooks IH]; intros i now; cbn [run_hooks].
  { split_and!; [done|done|]. intros _. split_and!; [lia|constructor|constructor]. }
  destruct (fn deadline now) as [err now1] eqn:Ef. specialize (IH (S i) now1).
  destruct (run_hooks mk deadline (S i) hooks now1) as [[errs tr] now2]. destruct IH as (I1 & I2 & I3).
  destruct (Hmk i now err) as (M1 & M2 & M3). cbn [map length seq]. split_and!; [by rewrite M1, I1|by rewrite M3, I2|].
  intros [Hf Hfs]%Forall_cons. specialize (Hf deadline now). rewrite Ef in Hf. cbn in Hf.
  apply (spans_app now now1 now2 [mk i now err]); [|by apply I3]. split_and!; [done| |].
  - cbn. repeat constructor.
  - repeat constructor; rewrite M2; lia.
Qed.

Lemma no_drain (tr : list event) (K : nat -> kind) (i n : nat) (from till : Z) :
  (forall i, K i <> KDrain) -> map kind_of tr = map K (seq i n) -> EDrain from till ∉ tr.
Proof.
  intros HK E Hin. apply (list_elem_of_fmap_2 kind_of) in Hin. change (kind_of <$> tr) with (map kind_of tr) in Hin.
  rewrite E in Hin. apply list_elem_of_fmap in Hin as (j & Hj & _). by apply (HK j).
Qed.

(** The drain, if there is one. *)
Lemma drain_spec (cfg : Config) (now deadline : Z) :
  let '(tr, now') := if 0 <? DrainDelay cfg then let till := Z.max now (Z.min (now + DrainDelay cfg) deadline) in ([EDrain now till], till) else ([], now) in
  map kind_of tr = (if 0 <? DrainDelay cfg then [KDrain] else []) /\ spans now now' tr /\ omap error_of tr = [] /\
  forall from till, EDrain from till ∈ tr -> from <= till <= from + DrainDelay cfg /\ till <= Z.max from deadline.
Proof.
  destruct (Z.ltb_spec 0 (DrainDelay cfg)).
  - split_and!; [done| |done|].
    + split_and!; [lia|cbn; repeat constructor|repeat constructor; cbn; lia].
    + intros from till [= -> ->]%list_elem_of_singleton. lia.
  - split_and!; [done| |done|by intros ? ? ?%not_elem_of_nil]. split_and!; [lia|constructor|constructor].
Qed.

(** (C31) A requested shutdown runs every pre-shutdown hook, the drain if one is set, the server's shutdown and
    every cleanup hook, each once and in this order, whatever fails on the way; the drain lasts no
    longer than asked for and no longer than the timeout allows; and the error returned joins exactly
    the errors of the steps. *)
Theorem run_shutdown (now : Z) (shutdown : hook) (cfg : Config)
    (Hf : Forall forward (shutdown :: PreShutdown cfg ++ Cleanup cfg)) :
  let '(r, tr) := run (Signal now) shutdown cfg in
  map kind_of tr = map KPre (seq 0 (length (PreShutdown cfg))) ++ (if 0 <? DrainDelay cfg then [KDrain] else []) ++ [KShutdown] ++
    map KClean (seq 0 (length (Cleanup cfg))) /\
  Sorted Z.le (map time_of tr) /\
  (forall from till, EDrain from till ∈ tr -> from <= till <= from + DrainDelay cfg /\ till <= Z.max from (now + Timeout cfg)) /\
  r = errors_join (map error_of tr).
Proof.
  apply Forall_cons in Hf as [Hs Hf]. apply Forall_app in Hf as [Hpre Hclean]. cbn [run]. set (deadline := now + Timeout cfg).
  pose proof (run_hooks_spec EPre KPre deadline 0 (PreShutdown cfg) now ltac:(done)) as H1.
  destruct (run_hooks EPre deadline 0 (PreShutdown cfg) now) as [[errs1 tr1] now1]. destruct H1 as (A1 & A2 & A3). specialize (A3 Hpre).
  pose proof (drain_spec cfg now1 deadline) as Hdr. set (dr := if 0 <? DrainDelay cfg then _ else _) in *.
  destruct dr as [tr2 now2]. destruct Hdr as (B1 & B2 & B3 & B4).
  destruct (shutdown deadline now2) as [err now3] eqn:Es.
  pose proof (run_hooks_spec EClean KClean deadline 0 (Cleanup cfg) now3 ltac:(done)) as H3.
  destruct (run_hooks EClean deadline 0 (Cleanup cfg) now3) as [[errs3 tr3] now4]. destruct H3 as (C1 & C2 & C3). specialize (C3 Hclean).
  specialize (Hs deadline now2). rewrite Es in Hs. cbn in Hs.
  assert (Hsp : spans now now4 (tr1 ++ tr2 ++ [EShutdown now2 err] ++ tr3)).
  { eapply spans_app; [exact A3|]. eapply spans_app; [exact B2|]. eapply (spans_app now2 now3 now4); [|exact C3].
    split_and!; [done|cbn; repeat constructor|repeat constructor; cbn; lia]. }
  split_and!.
  - by rewrite !map_app, A1, B1, C1.
  - apply Hsp.
  - intros from till Hin. rewrite !elem_of_app, list_elem_of_singleton in Hin. destruct Hin as [Hin|[Hin|[Hin|Hin]]]; [|by apply B4|done|].
    + by eapply no_drain in Hin; [|..|exact A1].
    + by eapply no_drain in Hin; [|..|exact C1].
  - rewrite !map_app, A2, C2. unfold errors_join. rewrite !omap_app. cbn [map omap list_omap error_of].
    replace (omap id (map error_of tr2)) with ([] : list error); [done|].
    rewrite <- B3. clear. induction tr2 as [|e tr2 IH]; [done|]. cbn. by destruct (error_of e); cbn; rewrite IH.
Qed.

(** A hook that takes a second, one that fails, and one that waits for the deadline. *)
Definition slow_hook : hook := fun _ t => (None, t + Second).
Definition failing_hook : hook := fun _ t => (Some (Err "flush failed"), t).
Definition stuck_hook : hook := fun d t => (Some (Err "context deadline exceeded"), Z.max d t).
Definition sample_config : Config := MkConfig (10 * Second) (5 * Second) [slow_hook; failing_hook] [stuck_hook; slow_hook].

Lemma sample_forward : Forall forward (slow_hook :: PreShutdown sample_config ++ Cleanup sample_config).
Proof. repeat constructor; intros d t; cbn; unfold Second; lia. Qed.

Lemma run_shutdown_witness :
  map kind_of (run (Signal 0) slow_hook sample_config).2 = [KPre 0; KPre 1; KDrain; KShutdown; KClean 0; KClean 1] /\
  (run (Signal 0) slow_hook sample_config).1 = Some (Join [Err "flush failed"; Err "context deadline exceeded"]).
Proof.
  pose proof (run_shutdown 0 slow_hook sample_config sample_forward) as H.
  destruct (run (Signal 0) slow_hook sample_config) as [r tr] eqn:E. destruct H as (H1 & _ & _ & H4). cbn [fst snd].
  split; [rewrite H1; reflexivity|]. rewrite H4. vm_compute in E. injection E as <- <-. vm_compute. reflexivity.
Defined.

(** ** What modelling showed *)

(** When the listener fails no cleanup hook runs, though they are documented for a listen error too. *)
Lemma listen_error_skips_cleanup (e : error) (shutdown : hook) (cfg : Config) : run (ListenErr e) shutdown cfg = (Some e, []).
Proof. done. Qed.
