(* ===== verification/Bootstrap.v ===== *)
(** * Application wiring (bootstrap/bootstrap.go, module.go, middleware/, context/ctx.go)

    A request runs through the registrations of an app in order, as an onion: a middleware receives
    the rest of the chain ([c.Next()]) as a function, so that it can act before and after it, answer
    without it, or recover from its panic. [New] builds the registrations the code makes from the
    options; [Mount] appends those of modules. Fiber's matching of routes and the middlewares of
    other packages are parameters. *)

From S2P Require Import Prelude GoStrings Fiber ApiError Health I18n Server.
Open Scope Z_scope.

(** ** A request in flight *)

Inductive body := BNone | BEnvelope (r : Fiber.Response) | BHealth (r : Health.reply) | BRaw (s : string).

Inductive entry := LogRequest (method path : string) (status : Z) (request_id : string) | LogPanic (v request_id : string).

Record cx := Cx {
  method : string; path : string; request : I18n.request;   (* what the client sent *)
  checks : list NamedCheck; arrivals : list nat;              (* the readiness checks now, and how their results arrive *)
  fresh_uuid : string; route : string;                        (* the registration matched last *)
  requestid : option string; response_headers : list (string * string); status_code : Z; sent : body;
  logs : list entry; metered : list (string * string * string) }.

Definition set_request (r : I18n.request) (c : cx) : cx :=
  Cx (method c) (path c) r (checks c) (arrivals c) (fresh_uuid c) (route c) (requestid c) (response_headers c) (status_code c) (sent c) (logs c) (metered c).
Definition set_requestid (id : string) (c : cx) : cx :=
  Cx (method c) (path c) (request c) (checks c) (arrivals c) (fresh_uuid c) (route c) (Some id) (response_headers c) (status_code c) (sent c) (logs c) (metered c).
Definition set_header (k v : string) (c : cx) : cx :=
  Cx (method c) (path c) (request c) (checks c) (arrivals c) (fresh_uuid c) (route c) (requestid c) ((k, v) :: filter (fun kv => kv.1 <> k) (response_headers c))
    (status_code c) (sent c) (logs c) (metered c).
Definition set_route (r : string) (c : cx) : cx :=
  Cx (method c) (path c) (request c) (checks c) (arrivals c) (fresh_uuid c) r (requestid c) (response_headers c) (status_code c) (sent c) (logs c) (metered c).
Definition send (status : Z) (b : body) (c : cx) : cx :=
  Cx (method c) (path c) (request c) (checks c) (arrivals c) (fresh_uuid c) (route c) (requestid c) (response_headers c) status b (logs c) (metered c).
Definition log (e : entry) (c : cx) : cx :=
  Cx (method c) (path c) (request c) (checks c) (arrivals c) (fresh_uuid c) (route c) (requestid c) (response_headers c) (status_code c) (sent c) (logs c ++ [e]) (metered c).
Definition meter (l : option (string * string * string)) (c : cx) : cx :=
  Cx (method c) (path c) (request c) (checks c) (arrivals c) (fresh_uuid c) (route c) (requestid c) (response_headers c) (status_code c) (sent c) (logs c)
    (metered c ++ match l with Some x => [x] | None => [] end).

(** How a handler ends. *)
Inductive result := ROk | RErr (e : goerr) | RPanic (v : string).
Definition handler : Type := cx -> result * cx.
Definition layer : Type := handler -> handler.

(** ** context/ctx.go *)

Definition GetRequestID (c : cx) : string := match requestid c with Some id => id | None => "" end.

(** ** middleware/ *)

Definition RequestIDKey : string := "request_id".

Definition Recover : layer := fun next c =>
  match next c with
  | (RPanic v, c) =>
      (ROk, send StatusInternalServerError
              (BEnvelope (MkResponse StatusInternalServerError "Internal Server Error" "" ANil "error")) (log (LogPanic v (GetRequestID c)) c))
  | r => r
  end.

Definition ContextMiddleware : layer := fun next c =>
  let '(id, c) :=
    match requestid c with
    | Some id => if String.eqb id "" then (fresh_uuid c, set_requestid (fresh_uuid c) c) else (id, c)
    | None => (fresh_uuid c, set_requestid (fresh_uuid c) c)
    end in
  next (set_header "X-Request-ID" id c).

(** The deferred part is skipped by a panic. *)
Definition RequestLogger : layer := fun next c =>
  match next c with
  | (RPanic v, c) => (RPanic v, c)
  | (r, c) => (r, log (LogRequest (method c) (path c) (status_code c) (GetRequestID c)) c)
  end.

(** [metrics.Middleware]: what it observes, by the path of the route matched last. *)
Definition MetricsMiddleware : layer := fun next c =>
  if String.eqb (path c) MetricsPath then next c
  else
    match next c with
    | (RPanic v, c) => (RPanic v, c)
    | (r, c) => (r, meter (metrics_labels (path c) (method c) (route c) (status_code c) (match r with RErr e => Some e | _ => None end)) c)
    end.

Definition I18nMiddleware (b : Bundle) : layer := fun next c => next (set_request (I18n.Middleware b [] (request c)) c).

(** ** Options and the app *)

(** The middlewares of other packages, and the handlers of the metrics, documents and monitoring packages. *)
Record third_party := ThirdParty {
  helmet : layer; compress : layer; idempotency : layer; otelfiber : layer; cors : layer; limiter : Z -> layer;
  metrics_handler : handler; spec_handler : handler; ui_handler : string -> handler;
  db_close : hook }.

Record AsynqmonMount := MkAsynqmon { a_Handler : option handler; a_Path : string; a_Middleware : list layer }.

Record Options := MkOptions {
  ShutdownTimeout : Z; DB : bool; EnableCORS : bool; RateLimit : Z; SecurityHeaders : bool; Compression : bool; Idempotency : bool;
  AutoMigrate : bool; Metrics : bool; Tracing : bool; o_Cleanup : list hook; Asynqmon : option AsynqmonMount; HealthChecks : list NamedCheck;
  ErrorHandler : option (goerr -> Fiber.reply);
  OpenAPI : bool; OpenAPISpecURL : string; OpenAPIDocsURL : string; o_I18n : option Bundle }.

(** One registration on the Fiber app. *)
Inductive reg :=
| RUse (l : layer)                                              (* app.Use(handler) *)
| RUsePath (prefix : string) (guards : list layer) (h : handler)  (* app.Use(path, guards..., handler) *)
| RRoute (m : string) (pattern : string) (h : handler).           (* app.Get(path, handler), and the like *)

Record App := MkApp {
  regs : list reg; errorHandler : goerr -> Fiber.reply; cleanup : list hook; shutdownTimeout : Z; healthChecks : list NamedCheck; autoMigrate : bool }.

Definition opt {A} (b : bool) (x : A) : list A := if b then [x] else [].
Definition or_default (s d : string) : string := if String.eqb s "" then d else s.

(** health.go's registrations: the readiness handler asks its provider on each request. The checks given to
    [RegisterAt] are fixed; the app's provider gives the checks of the moment. *)
Definition livez_handler : handler := fun c => (ROk, send 200 (BHealth livez) c).
Definition readyz_of (provider : cx -> list NamedCheck) : handler :=
  fun c => let r := readyz (provider c) (arrivals c) in (ROk, send (code r) (BHealth r) c).
Definition health_RegisterProviderAt (livez readyz : string) (provider : cx -> list NamedCheck) : list reg :=
  [RRoute "GET" livez livez_handler; RRoute "GET" readyz (readyz_of provider)].
Definition health_RegisterProvider : (cx -> list NamedCheck) -> list reg := health_RegisterProviderAt "/livez" "/readyz".
Definition health_RegisterAt (livez readyz : string) (fixed : list NamedCheck) : list reg := health_RegisterProviderAt livez readyz (fun _ => fixed).
Definition health_Register : list NamedCheck -> list reg := health_RegisterAt "/livez" "/readyz".

Definition readyz_handler : handler := readyz_of checks.
Definition health_regs : list reg := health_RegisterProvider checks.

Definition asynqmon_regs (o : Options) : list reg :=
  match Asynqmon o with
  | Some a => match a_Handler a with
              | Some h => [RUsePath (or_default (a_Path a) "/monitoring") (a_Middleware a) h]
              | None => []
              end
  | None => []
  end.

Definition openapi_regs (T : third_party) (o : Options) : list reg :=
  if OpenAPI o then
    let specURL := or_default (OpenAPISpecURL o) "/openapi.json" in
    [RRoute "GET" specURL (spec_handler T); RRoute "GET" (or_default (OpenAPIDocsURL o) "/docs") (ui_handler T specURL)]
  else [].

Definition New (T : third_party) (o : Options) : App :=
  let timeout := if ShutdownTimeout o =? 0 then 10 * Second else ShutdownTimeout o in
  MkApp
    ([RUse Recover; RUse ContextMiddleware] ++
     match o_I18n o with Some b => [RUse (I18nMiddleware b)] | None => [] end ++
     opt (SecurityHeaders o) (RUse (helmet T)) ++ opt (Compression o) (RUse (compress T)) ++ opt (Idempotency o) (RUse (idempotency T)) ++
     opt (Tracing o) (RUse (otelfiber T)) ++ [RUse RequestLogger] ++ opt (Metrics o) (RUse MetricsMiddleware) ++
     health_regs ++ opt (Metrics o) (RRoute "GET" MetricsPath (metrics_handler T)) ++ asynqmon_regs o ++
     opt (EnableCORS o) (RUse (cors T)) ++ opt (0 <? RateLimit o) (RUse (limiter T (RateLimit o))) ++ openapi_regs T o)
    (match ErrorHandler o with Some h => h | None => ApiError.Handler end)
    (opt (DB o) (db_close T) ++ o_Cleanup o) timeout (HealthChecks o) (AutoMigrate o).

Definition snapshotChecks (a : App) : list NamedCheck := healthChecks a.

Definition Run (w : wait) (shutdown : hook) (a : App) : option error * list event :=
  RunGraceful w shutdown (shutdownTimeout a) (cleanup a).

(** ** Modules *)

(** [Register] may have added routes before it fails. *)
Record Module_ := MkModule {
  m_Name : string; m_Register : list reg * option error;
  m_Migrate : option (option error); (* a Migrator's answer *)
  m_Checks : option (list NamedCheck) (* a HealthChecker's checks *) }.

Definition add_regs (rs : list reg) (a : App) : App := MkApp (regs a ++ rs) (errorHandler a) (cleanup a) (shutdownTimeout a) (healthChecks a) (autoMigrate a).
Definition add_checks (cs : list NamedCheck) (a : App) : App :=
  MkApp (regs a) (errorHandler a) (cleanup a) (shutdownTimeout a) (healthChecks a ++ cs) (autoMigrate a).

(** The names of the modules that migrated are returned too. *)
Fixpoint Mount (mods : list Module_) (a : App) : option error * list string * App :=
  match mods with
  | [] => (None, [], a)
  | m :: mods =>
      let migrate := if autoMigrate a then m_Migrate m else None in
      let did := match migrate with Some _ => [m_Name m] | None => [] end in
      match migrate with
      | Some (Some err) => (Some (Wrap ("mount " +:+ (m_Name m +:+ ": migrate")) [err]), did, a)
      | _ =>
          let '(rs, err) := m_Register m in
          let a := add_regs rs a in
          match err with
          | Some err => (Some (Wrap ("mount " +:+ (m_Name m +:+ ": register")) [err]), did, a)
          | None =>
              let a := match m_Checks m with Some cs => add_checks cs a | None => a end in
              let '(err, more, a) := Mount mods a in (err, did ++ more, a)
          end
      end
  end.

(** ** Serving a request *)

Section Serve.
  (** Fiber's matching: of a registered method and pattern, and of the prefix of a [Use]. *)
  Context (matches : string -> string -> cx -> bool) (prefixes : string -> cx -> bool).

Fixpoint serve (rs : list reg) : handler :=
  match rs with
  | [] => fun c => (RErr (EFiber 404 ("Cannot " +:+ (method c +:+ (" " +:+ path c)))), c)
  | RUse l :: rs => fun c => l (serve rs) (set_route "/" c)
  | RUsePath p guards h :: rs => fun c => if prefixes p c then fold_right (fun l next => l next) h guards (set_route p c) else serve rs c
  | RRoute m p h :: rs => fun c => if matches m p c then h (set_route p c) else serve rs c
  end.

(** A request as it comes to an app: the readiness checks are those of that moment. *)
Definition arrive (a : App) (c : cx) : cx :=
  Cx (method c) (path c) (request c) (snapshotChecks a) (arrivals c) (fresh_uuid c) (route c) (requestid c) (response_headers c) (status_code c) (sent c) (logs c) (metered c).

(** Its answer: an error goes to the app's error handler; [None] is a panic nobody recovered from. *)
Definition handle (a : App) (c : cx) : option cx :=
  match serve (regs a) (arrive a c) with
  | (ROk, c) => Some c
  | (RErr e, c) => let r := errorHandler a e in Some (send (http_status r) (BEnvelope (Fiber.body r)) c)
  | (RPanic _, _) => None
  end.
End Serve.

(** ** Facts *)

Section Facts.
  Context (matches : string -> string -> cx -> bool) (prefixes : string -> cx -> bool).
  Local Abbreviation serve := (serve matches prefixes).
  Local Abbreviation handle := (handle matches prefixes).

Lemma Recover_no_panic (next : handler) (c : cx) (v : string) (c' : cx) : Recover next c <> (RPanic v, c').
Proof. unfold Recover. by destruct (next c) as [[|e|v'] c1]. Qed.

(** *** Layers that pass requests on as the requests they are *)

(** The same request on its way: its target and the identifier that would be drawn for it. *)
Definition same_request (c c' : cx) : Prop := method c' = method c /\ path c' = path c /\ fresh_uuid c' = fresh_uuid c.
#[local] Instance same_request_equiv : Equivalence same_request.
Proof. split; unfold same_request; [intros c|intros c c' (? & ? & ?)|intros c c' c'' (? & ? & ?) (? & ? & ?)]; split_and!; congruence. Qed.

(** Handlers that agree on the contexts of a request. *)
Definition agree (c0 : cx) (h h' : handler) : Prop := forall c, same_request c0 c -> h c = h' c.

(** A layer that hands on contexts of the request it was given, or none. *)
Definition addressed (l : layer) : Prop := forall c0 next next', agree c0 next next' -> agree c0 (l next) (l next').

Lemma Recover_addressed : addressed Recover.
Proof. intros c0 next next' H c Hc. unfold Recover. by rewrite (H c Hc). Qed.
Lemma ContextMiddleware_addressed : addressed ContextMiddleware.
Proof.
  intros c0 next next' H c Hc. unfold ContextMiddleware.
  assert (Hgo : forall id (c' : cx), same_request c c' -> next (set_header "X-Request-ID" id c') = next' (set_header "X-Request-ID" id c')).
  { intros id c' Hc'. apply H. transitivity c'; [by transitivity c|done]. }
  destruct (requestid c) as [id|]; [destruct (String.eqb id "")|]; by apply Hgo.
Qed.
Lemma RequestLogger_addressed : addressed RequestLogger.
Proof. intros c0 next next' H c Hc. unfold RequestLogger. by rewrite (H c Hc). Qed.
Lemma MetricsMiddleware_addressed : addressed MetricsMiddleware.
Proof. intros c0 next next' H c Hc. unfold MetricsMiddleware. by rewrite (H c Hc). Qed.
Lemma I18nMiddleware_addressed (b : Bundle) : addressed (I18nMiddleware b).
Proof. intros c0 next next' H c Hc. unfold I18nMiddleware. apply H. by transitivity c. Qed.

(** Registrations whose layers are addressed. *)
Definition reg_addressed (r : reg) : Prop := match r with RUse l => addressed l | _ => True end.

(** What follows a registration only matters for the requests it lets through. *)
Lemma serve_agree (rs : list reg) (c0 : cx) (B B' : list reg) : Forall reg_addressed rs ->
  agree c0 (serve B) (serve B') -> agree c0 (serve (rs ++ B)) (serve (rs ++ B')).
Proof.
  intros Hrs H. induction Hrs as [|r rs Hr Hrs IH]; [done|]. destruct r as [l|p guards h|m p h]; cbn [app Bootstrap.serve]; intros c Hc.
  - apply (Hr c0 _ _ IH). by transitivity c.
  - by destruct (prefixes p c); [|apply IH].
  - by destruct (matches m p c); [|apply IH].
Qed.

(** A route that the target matches hides what follows. *)
Lemma serve_hidden (c0 : cx) (m p : string) (h : handler) (mid B B' : list reg) :
  (forall c, same_request c0 c -> matches m p c = true) -> Forall reg_addressed mid ->
  agree c0 (serve (mid ++ RRoute m p h :: B)) (serve (mid ++ RRoute m p h :: B')).
Proof. intros Hm Hmid. apply serve_agree; [done|]. intros c Hc. cbn [Bootstrap.serve]. by rewrite Hm. Qed.

(** The layers in front of the health endpoints. *)
Definition front (T : third_party) (o : Options) : list reg :=
  [RUse Recover; RUse ContextMiddleware] ++
  match o_I18n o with Some b => [RUse (I18nMiddleware b)] | None => [] end ++
  opt (SecurityHeaders o) (RUse (helmet T)) ++ opt (Compression o) (RUse (compress T)) ++ opt (Idempotency o) (RUse (idempotency T)) ++
  opt (Tracing o) (RUse (otelfiber T)) ++ [RUse RequestLogger] ++ opt (Metrics o) (RUse MetricsMiddleware).

Definition back (T : third_party) (o : Options) : list reg :=
  opt (Metrics o) (RRoute "GET" MetricsPath (metrics_handler T)) ++ asynqmon_regs o ++
  opt (EnableCORS o) (RUse (cors T)) ++ opt (0 <? RateLimit o) (RUse (limiter T (RateLimit o))) ++ openapi_regs T o.

Lemma New_regs (T : third_party) (o : Options) : regs (New T o) = front T o ++ health_regs ++ back T o.
Proof. unfold New, front, back. cbn [regs]. by rewrite <- !app_assoc. Qed.

Definition third_addressed (T : third_party) : Prop :=
  addressed (helmet T) /\ addressed (compress T) /\ addressed (idempotency T) /\ addressed (otelfiber T).

Lemma front_addressed (T : third_party) (o : Options) : third_addressed T -> Forall reg_addressed (front T o).
Proof.
  intros (H1 & H2 & H3 & H4). unfold front, opt.
  assert (Hs : forall (b : bool) l, addressed l -> Forall reg_addressed (if b then [RUse l] else [])) by (intros [] l Hl; repeat constructor; done).
  repeat (apply Forall_app; split); try (by apply Hs); repeat constructor.
  - exact Recover_addressed.
  - exact ContextMiddleware_addressed.
  - destruct (o_I18n o); repeat constructor. apply I18nMiddleware_addressed.
  - exact RequestLogger_addressed.
  - apply Hs, MetricsMiddleware_addressed.
Qed.

(** *** Mounting *)

Lemma Mount_regs (mods : list Module_) (a : App) : exists rs, regs (Mount mods a).2 = regs a ++ rs.
Proof.
  revert a. induction mods as [|m mods IH]; intros a; cbn [Mount]; [exists []; by rewrite app_nil_r|].
  destruct (if autoMigrate a then m_Migrate m else None) as [[err|]|]; [by exists []; rewrite app_nil_r| |].
  all: destruct (m_Register m) as [rs [err|]]; [by exists rs|].
  all: set (a1 := match m_Checks m with Some cs => _ | None => _ end); destruct (IH a1) as [rs' Hrs'];
    destruct (Mount mods a1) as [[err more] a2]; exists (rs ++ rs'); cbn [snd] in *; rewrite Hrs';
    unfold a1; destruct (m_Checks m); cbn; by rewrite <- app_assoc.
Qed.

Lemma Mount_rest (mods : list Module_) (a : App) :
  let a' := (Mount mods a).2 in errorHandler a' = errorHandler a /\ cleanup a' = cleanup a /\ autoMigrate a' = autoMigrate a.
Proof.
  cbv zeta. revert a. induction mods as [|m mods IH]; intros a; cbn [Mount]; [done|].
  destruct (if autoMigrate a then m_Migrate m else None) as [[err|]|]; [done| |].
  all: destruct (m_Register m) as [rs [err|]]; [done|].
  all: set (a1 := match m_Checks m with Some cs => _ | None => _ end); specialize (IH a1);
    destruct (Mount mods a1) as [[err more] a2]; cbn [snd] in *; destruct IH as (-> & -> & ->); unfold a1; by destruct (m_Checks m).
Qed.

(** A module that mounts: its migration, when it runs, and its registration succeed. *)
Definition migration (auto : bool) (m : Module_) : option (option error) := if auto then m_Migrate m else None.
Definition mounts (auto : bool) (m : Module_) : Prop := (forall e, migration auto m <> Some (Some e)) /\ (m_Register m).2 = None.
Definition migrated (auto : bool) (m : Module_) : list string := match migration auto m with Some _ => [m_Name m] | None => [] end.

(** How mounting ends at a module that fails, if one does: the error names the module and the step. *)
Definition stopped_at (auto : bool) (m : Module_) (err : option error) (extra : list reg) : Prop :=
  (exists e, migration auto m = Some (Some e) /\ err = Some (Wrap ("mount " +:+ (m_Name m +:+ ": migrate")) [e]) /\ extra = []) \/
  (exists e, (forall e', migration auto m <> Some (Some e')) /\ (m_Register m).2 = Some e /\
     err = Some (Wrap ("mount " +:+ (m_Name m +:+ ": register")) [e]) /\ extra = (m_Register m).1).

Lemma Mount_outcome (mods : list Module_) (a a' : App) (err : option error) (did : list string) :
  Mount mods a = (err, did, a') ->
  exists done rest extra, mods = done ++ rest /\ Forall (mounts (autoMigrate a)) done /\
    regs a' = regs a ++ concat (map (fun m => (m_Register m).1) done) ++ extra /\
    healthChecks a' = healthChecks a ++ concat (map (fun m => default [] (m_Checks m)) done) /\
    did = concat (map (migrated (autoMigrate a)) (done ++ take 1 rest)) /\
    match rest with [] => err = None /\ extra = [] | m :: _ => stopped_at (autoMigrate a) m err extra end.
Proof.
  revert a err did. induction mods as [|m mods IH]; intros a err did; cbn [Mount].
  { intros [= <- <- <-]. exists [], [], []. cbn. rewrite !app_nil_r. split_and!; try done; constructor. }
  fold (migration (autoMigrate a) m). destruct (migration (autoMigrate a) m) as [[e|]|] eqn:Em.
  { intros [= <- <- <-]. exists [], (m :: mods), []. cbn. rewrite !app_nil_r. unfold migrated. rewrite Em. split_and!; try done.
    left. by exists e. }
  all: destruct (m_Register m) as [rs [e|]] eqn:Er.
  1, 3: intros [= <- <- <-]; exists [], (m :: mods), rs; cbn; rewrite !app_nil_r; unfold migrated; rewrite Em;
    (split_and!; [done|constructor|done|done|done|]); right; exists e; rewrite Er, Em; split_and!; done.
  all: set (a1 := match m_Checks m with Some cs => _ | None => _ end); destruct (Mount mods a1) as [[err1 more] a2] eqn:E1;
    intros [= <- <- <-]; apply IH in E1 as (oks & rest & extra & -> & Hd & Hr & Hh & Hdid & Hrest);
    assert (Ha1 : autoMigrate a1 = autoMigrate a) by (unfold a1; by destruct (m_Checks m)); rewrite Ha1 in *;
    exists (m :: oks), rest, extra; cbn [app map concat]; unfold migrated at 1; rewrite Em, Er; cbn [fst];
    (split_and!; [done| | | |by rewrite Hdid|done]).
  1, 4: constructor; [|done]; split; [by rewrite Em|by rewrite Er].
  1, 3: rewrite Hr; unfold a1; destruct (m_Checks m); cbn; by rewrite <- !app_assoc.
  all: rewrite Hh; unfold a1; destruct (m_Checks m); cbn; by rewrite <- ?app_assoc.
Qed.
End Facts.

(** What an app whose first registration is [Recover] makes of the end of the rest of its chain. *)
Lemma handle_recovered (matches : string -> string -> cx -> bool) (prefixes : string -> cx -> bool) (a : App) (c : cx) :
  regs a = RUse Recover :: tail (regs a) ->
  match serve matches prefixes (tail (regs a)) (set_route "/" (arrive a c)) with
  | (RPanic v, c1) => exists c', handle matches prefixes a c = Some c' /\ status_code c' = 500 /\
      sent c' = BEnvelope (MkResponse 500 "Internal Server Error" "" ANil "error") /\ logs c' = logs c1 ++ [LogPanic v (GetRequestID c1)]
  | (RErr e, c1) => exists c', handle matches prefixes a c = Some c' /\
      status_code c' = http_status (errorHandler a e) /\ sent c' = BEnvelope (Fiber.body (errorHandler a e))
  | (ROk, c1) => handle matches prefixes a c = Some c1
  end.
Proof.
  intros Hr. unfold handle. rewrite Hr. cbn [tail serve]. unfold Recover. generalize (tail (regs a)). intros rest.
  destruct (serve matches prefixes rest (set_route "/" (arrive a c))) as [[|e|v] c1]; [done|by eexists|by eexists].
Qed.

(** ** Claims *)

(** (C20) Modules behind the guards of the app. In an app built by [New], with whatever modules mounted, a panic
    anywhere below becomes a reply with status 500 and the envelope of an internal error, logged with the
    request's identifier; an error becomes the reply of the error handler; and anything else stays as it
    was answered. And a request that the rate limiter refuses (whatever else it does with other
    requests) reaches no module: whatever routes follow, the answer is the same. The layers of other
    packages in front of the limiter are to pass the request on as the one it is. *)
Theorem module_routes_guarded (matches : string -> string -> cx -> bool) (prefixes : string -> cx -> bool)
    (T : third_party) (o : Options) (mods : list Module_) (c : cx) :
  let app := (Mount mods (New T o)).2 in
  match serve matches prefixes (tail (regs app)) (set_route "/" (arrive app c)) with
  | (RPanic v, c1) => exists c', handle matches prefixes app c = Some c' /\ status_code c' = 500 /\
      sent c' = BEnvelope (MkResponse 500 "Internal Server Error" "" ANil "error") /\ logs c' = logs c1 ++ [LogPanic v (GetRequestID c1)]
  | (RErr e, c1) => exists c', handle matches prefixes app c = Some c' /\
      status_code c' = http_status (errorHandler (New T o) e) /\ sent c' = BEnvelope (Fiber.body (errorHandler (New T o) e))
  | (ROk, c1) => handle matches prefixes app c = Some c1
  end /\
  (0 < RateLimit o -> third_addressed T -> (EnableCORS o = true -> addressed (cors T)) ->
   (forall c1 next next', same_request c c1 -> limiter T (RateLimit o) next c1 = limiter T (RateLimit o) next' c1) ->
   forall others, handle matches prefixes app c =
     handle matches prefixes (MkApp (regs (New T o) ++ others) (errorHandler app) (cleanup app) (shutdownTimeout app) (healthChecks app) (autoMigrate app)) c).
Proof.
  cbv zeta. destruct (Mount_regs mods (New T o)) as [rs Hrs]. split.
  - pose proof (Mount_rest mods (New T o)) as (Herr & _). cbv zeta in Herr.
    rewrite <- Herr. apply handle_recovered. rewrite Hrs, New_regs. reflexivity.
  - intros Hlimit HT Hcors Hrefuse others. unfold handle. cbn [regs errorHandler]. rewrite Hrs. unfold arrive, snapshotChecks. cbn [healthChecks].
    set (c1 := Cx _ _ _ _ _ _ _ _ _ _ _ _ _).
    assert (Heq : agree c (serve matches prefixes (regs (New T o) ++ rs)) (serve matches prefixes (regs (New T o) ++ others))); [|by rewrite (Heq c1)].
    rewrite New_regs. unfold back. rewrite (proj2 (Z.ltb_lt _ _) Hlimit). cbn [opt]. rewrite <- !app_assoc. cbn [app].
    apply serve_agree; [by apply front_addressed|]. apply serve_agree; [repeat constructor|]. apply serve_agree.
    { unfold opt. destruct (Metrics o); repeat constructor. }
    apply serve_agree. { unfold asynqmon_regs. destruct (Asynqmon o) as [a|]; [destruct (a_Handler a)|]; repeat constructor. }
    apply serve_agree. { unfold opt. destruct (EnableCORS o); repeat constructor. by apply Hcors. }
    intros c2 Hc2. cbn [serve]. apply Hrefuse. exact Hc2.
Qed.

(** A limiter that refuses one client's requests, and modules whose handlers panic. *)
Definition refusing : third_party :=
  let pass : layer := fun next => next in
  let ok : handler := fun c => (ROk, c) in
  ThirdParty pass pass pass pass pass
    (fun _ next c => if String.eqb (fresh_uuid c) "id-1" then (ROk, send 429 (BRaw "Too Many Requests") c) else next c) ok ok (fun _ => ok) (fun _ t => (None, t)).
Definition sample_options : Options :=
  MkOptions 0 true true 5 true true true true true true [] None [] None true "" "" (Some (I18n.New [])).
Definition sample_module : Module_ := MkModule "users" ([RRoute "GET" "/users" (fun c => (RPanic "boom", c))], None) (Some None) (Some [Check "users" Passes]).
Definition by_path (m p : string) (c : cx) : bool := String.eqb m (method c) && String.eqb p (path c).
Definition get_as (id p : string) : cx :=
  Cx "GET" p (I18n.MkRequest (fun _ => ""%string) (fun _ => ""%string) "" None None) [] [0%nat] id "" None [] 200 BNone [] [].
Definition get : string -> cx := get_as "id-1".

Lemma refusing_addressed : third_addressed refusing.
Proof. unfold third_addressed. split_and!; intros c0 next next' H; exact H. Qed.

(** One client's request is refused; another's gets as far as the module and is answered with a 500. *)
Lemma module_routes_guarded_witness :
  let app := (Mount [sample_module] (New refusing sample_options)).2 in
  (fun c => (status_code c, sent c)) <$> handle by_path (fun _ _ => false) app (get "/users") = Some (429, BRaw "Too Many Requests") /\
  exists c', handle by_path (fun _ _ => false) app (get_as "id-2" "/users") = Some c' /\ status_code c' = 500.
Proof.
  cbv zeta. split.
  - destruct (module_routes_guarded by_path (fun _ _ => false) refusing sample_options [sample_module] (get "/users")) as [_ H].
    rewrite (H ltac:(cbn; lia) refusing_addressed) with (others := []); [vm_compute; reflexivity| |].
    + intros _ c0 next next' Ha. exact Ha.
    + intros c1 next next' (_ & _ & Hid). cbn [limiter refusing]. rewrite Hid. reflexivity.
  - destruct (module_routes_guarded by_path (fun _ _ => false) refusing sample_options [sample_module] (get_as "id-2" "/users")) as [H _].
    assert (Hp : (serve by_path (fun _ _ => false) (tail (regs (Mount [sample_module] (New refusing sample_options)).2))
      (set_route "/" (arrive (Mount [sample_module] (New refusing sample_options)).2 (get_as "id-2" "/users")))).1 = RPanic "boom") by (vm_compute; reflexivity).
    cbv zeta in H. destruct (serve by_path _ _ _) as [r c1]. cbn [fst] in Hp. subst r. destruct H as (c' & H1 & H2 & _). by exists c'.
Defined.

(** The probes answer whatever else the app does: on a request for a health endpoint, the result does not
    depend on CORS, rate limiting, the monitoring and documentation mounts, or the routes of modules,
    provided the third-party layers in front of them pass requests on as they are addressed. *)
Theorem probes_independent (matches : string -> string -> cx -> bool) (prefixes : string -> cx -> bool)
    (T T' : third_party) (o o' : Options) (extra extra' : list reg) (p : string) (c0 : cx)
    (Hp : p = "/livez"%string \/ p = "/readyz"%string)
    (Hmatch : forall c, same_request c0 c -> matches "GET" p c = true)
    (HT : third_addressed T) (Hsame : front T o = front T' o') :
  serve matches prefixes (regs (New T o) ++ extra) c0 = serve matches prefixes (regs (New T' o') ++ extra') c0.
Proof.
  rewrite !New_regs, <- Hsame, <- !app_assoc.
  pose proof (front_addressed T o HT) as Hfront. change health_regs with [RRoute "GET" "/livez" livez_handler; RRoute "GET" "/readyz" readyz_handler]. cbn [app].
  destruct Hp as [->| ->].
  - by apply (serve_hidden matches prefixes c0 "GET" "/livez" livez_handler (front T o)).
  - pose proof (serve_hidden matches prefixes c0 "GET" "/readyz" readyz_handler (front T o ++ [RRoute "GET" "/livez" livez_handler])
      (back T o ++ extra) (back T' o' ++ extra')) as H.
    rewrite <- !app_assoc in H. cbn [app] in H. apply H; [done|apply Forall_app; split; [done|repeat constructor]|done].
Qed.

Definition strict_options : Options :=
  MkOptions 0 true true 1 true true true true true true [] (Some (MkAsynqmon (Some (fun c => (RPanic "down", c))) "" [])) [] None true "" "" (Some (I18n.New [])).

Lemma probes_independent_witness :
  serve by_path (fun _ _ => true) (regs (New refusing strict_options) ++ fst (m_Register sample_module)) (get "/readyz") =
    serve by_path (fun _ _ => true) (regs (New refusing sample_options) ++ []) (get "/readyz").
Proof.
  apply (probes_independent by_path (fun _ _ => true) refusing refusing strict_options sample_options _ _ "/readyz").
  - right. reflexivity.
  - intros c (H1 & H2 & _). unfold by_path. rewrite H1, H2. reflexivity.
  - exact refusing_addressed.
  - reflexivity.
Defined.

(** Mounting stops at the first module that fails. The modules before it are in place, with their routes and
    health checks; the failing one contributes no checks, and no routes but those it registered before
    it failed; the ones after it nothing. Only modules up to there are migrated, and none without
    AutoMigrate. The error names the module and the step. *)
Theorem Mount_stops (mods : list Module_) (a a' : App) (err : option error) (did : list string) (Hrun : Mount mods a = (err, did, a')) :
  exists ok rest extra, mods = ok ++ rest /\ Forall (mounts (autoMigrate a)) ok /\
    regs a' = regs a ++ concat (map (fun m => (m_Register m).1) ok) ++ extra /\
    healthChecks a' = healthChecks a ++ concat (map (fun m => default [] (m_Checks m)) ok) /\
    did = concat (map (migrated (autoMigrate a)) (ok ++ take 1 rest)) /\
    match rest with [] => err = None /\ extra = [] | m :: _ => stopped_at (autoMigrate a) m err extra end.
Proof. by apply Mount_outcome. Qed.

Definition failing_module : Module_ := MkModule "orders" ([], Some (Err "no db")) None None.
Lemma Mount_stops_witness : exists err did a', Mount [sample_module; failing_module; sample_module] (New refusing sample_options) = (err, did, a') /\
  did = ["users"%string] /\ err = Some (Wrap "mount orders: register" [Err "no db"]) /\ exists ok, healthChecks a' = concat (map (fun m => default [] (m_Checks m)) ok).
Proof.
  destruct (Mount [sample_module; failing_module; sample_module] (New refusing sample_options)) as [[err did] a'] eqn:E.
  exists err, did, a'. destruct (Mount_stops _ _ _ _ _ E) as (ok & _ & _ & _ & _ & _ & H & _).
  assert (E2 : (err, did) = (Some (Wrap "mount orders: register" [Err "no db"]), ["users"%string])).
  { change (err, did) with ((err, did, a').1). rewrite <- E. vm_compute. reflexivity. }
  injection E2 as -> ->. split_and!; try reflexivity. exists ok. exact H.
Defined.

(** ** What modelling showed *)

(** The request log is written before the app's error handler runs: a 404 error is logged as 200. *)
Example error_logged_as_ok :
  (fun c => (status_code c, logs c)) <$>
    handle by_path (fun _ _ => false) (New refusing (MkOptions 0 false false 0 false false false false false false [] None [] None false "" "" None)) (get "/nowhere")
  = Some (404, [LogRequest "GET" "/nowhere" 200 "id-1"]).
Proof. vm_compute. reflexivity. Qed.

(** A request whose handler panics is in neither the request log nor the metrics. *)
Example panic_not_logged :
  (fun c => (status_code c, logs c, metered c)) <$>
    handle by_path (fun _ _ => false)
      (Mount [sample_module] (New refusing (MkOptions 0 false false 0 false false false false true false [] None [] None false "" "" None))).2 (get "/users")
  = Some (500, [LogPanic "boom" "id-1"], []).
Proof. vm_compute. reflexivity. Qed.
