(* ===== verification/Sse.v ===== *)
(** * Server-sent events (sse/sse.go)

    A stream writes frames to a buffered writer and flushes it after each. The writer keeps what was
    written and not yet flushed, also when an event fails half way. The other side is the event
    stream interpretation of the HTML standard, [interpret], against which frames are read back. *)

From S2P Require Import Prelude GoStrings Fiber GoJson.
Open Scope Z_scope.

Definition LF : ascii := chr 10.
Definition CR : ascii := chr 13.
Definition line (s : string) : string := s +:+ String LF EmptyString.

(** ** The writer *)

(** A [bufio.Writer]: its size, the bytes passed on, the bytes buffered, whether an earlier write
    failed (its error is kept), and whether the client behind it is gone. *)
Record Stream := MkStream { size : nat; out : string; buf : string; failed : bool; gone : bool }.
Definition errGone : error := Err "write: broken pipe".

(** [Write]: what fits is buffered; otherwise the buffer is filled and passed on, and a rest longer than
    the buffer, or a write on an empty buffer, goes through directly. *)
Definition write (s : string) (w : Stream) : option error * Stream :=
  let avail := (size w - String.length (buf w))%nat in
  if failed w then (Some errGone, w)
  else if (String.length s <=? avail)%nat then (None, MkStream (size w) (out w) (buf w +:+ s) false (gone w))
  else if gone w then
    (Some errGone, MkStream (size w) (out w) (if String.eqb (buf w) "" then buf w else buf w +:+ take_string avail s) true true)
  else if String.eqb (buf w) "" then (None, MkStream (size w) (out w +:+ s) EmptyString false false)
  else
    let sent := out w +:+ buf w +:+ take_string avail s in
    let rest := drop_string avail s in
    if (String.length rest <=? size w)%nat then (None, MkStream (size w) sent rest false false)
    else (None, MkStream (size w) (sent +:+ rest) EmptyString false false).

Definition Flush (w : Stream) : option error * Stream :=
  if failed w then (Some errGone, w)
  else if String.eqb (buf w) "" then (None, w)
  else if gone w then (Some errGone, MkStream (size w) (out w) (buf w) true true)
  else (None, MkStream (size w) (out w +:+ buf w) EmptyString false false).

(** ** Events *)

(** The dynamic types [encode] distinguishes; other values go through [json.Marshal], which may fail. *)
Inductive data := DNil | DRaw (s : string) | DString (s : string) | DBytes (s : string) | DJson (v : any) | DUnsupported.
Record Event := MkEvent { ID : string; Name : string; Data : data; Retry : Z }.

Definition encode (v : data) : error + string :=
  match v with
  | DNil => inr EmptyString
  | DRaw s | DString s | DBytes s => inr s
  | DJson v => inr (marshal v)
  | DUnsupported => inl (Err "json: unsupported type")
  end.

(** The lines written before the payload is encoded. *)
Definition head_lines (e : Event) : list string :=
  (if String.eqb (ID e) "" then [] else ["id: " +:+ ID e]) ++
  (if String.eqb (Name e) "" then [] else ["event: " +:+ Name e]) ++
  (if 0 <? Retry e then ["retry: " +:+ itoa (Retry e)] else []).
Definition data_lines (payload : string) : list string := map (fun l => "data: " +:+ l) (split LF payload).

(** One write per line, up to the first that fails. *)
Fixpoint write_lines (ls : list string) (w : Stream) : option error * Stream :=
  match ls with
  | [] => (None, w)
  | l :: ls => match write (line l) w with (None, w) => write_lines ls w | failure => failure end
  end.

(** The method [Event] of a stream. *)
Definition Event_ (e : Event) (w : Stream) : option error * Stream :=
  match write_lines (head_lines e) w with
  | (Some err, w) => (Some err, w)
  | (None, w) =>
      match encode (Data e) with
      | inl err => (Some err, w)
      | inr payload =>
          match write_lines (data_lines payload) w with
          | (Some err, w) => (Some err, w)
          | (None, w) =>
              match write (String LF EmptyString) w with
              | (Some err, w) => (Some err, w)
              | (None, w) => Flush w
              end
          end
      end
  end.

Definition Send (event : string) (v : data) (w : Stream) : option error * Stream := Event_ (MkEvent EmptyString event v 0) w.
Definition SendRaw (event s : string) (w : Stream) : option error * Stream := Event_ (MkEvent EmptyString event (DRaw s) 0) w.
Definition Comment (text : string) (w : Stream) : option error * Stream :=
  match write (line (": " +:+ text)) w with (None, w) => Flush w | failure => failure end.

(** [Handler]: the headers, and the body written by [fn] on a fresh writer, of the size the server gives it. *)
Definition Handler (size : nat) (fn : Stream -> Stream) (client_gone : bool) : list (string * string) * Stream :=
  ([("Content-Type", "text/event-stream"); ("Cache-Control", "no-cache"); ("Connection", "keep-alive")]%string,
   fn (MkStream size EmptyString EmptyString false client_gone)).

(** ** The client: interpreting an event stream *)

(** Lines end with CR LF, LF or CR; what follows the last of them is not a line. *)
Fixpoint lines_go (cur : string) (s : string) : list string :=
  match s with
  | EmptyString => []
  | String c t =>
      if Ascii.eqb c LF then cur :: lines_go EmptyString t
      else if Ascii.eqb c CR then cur :: match t with String d t' => if Ascii.eqb d LF then lines_go EmptyString t' else lines_go EmptyString t | EmptyString => [] end
      else lines_go (cur +:+ String c EmptyString) t
  end.

Record message := Message { m_type : string; m_data : string; m_id : string }.
Record client := Client { data_buf : string; type_buf : string; last_id : string; received : list message }.

Definition dispatch (c : client) : client :=
  if String.eqb (data_buf c) "" then Client "" "" (last_id c) (received c)
  else Client "" "" (last_id c)
         (received c ++ [Message (if String.eqb (type_buf c) "" then "message" else type_buf c)
                           (take_string (String.length (data_buf c) - 1) (data_buf c)) (last_id c)]).

Definition field (name value : string) (c : client) : client :=
  if String.eqb name "event" then Client (data_buf c) value (last_id c) (received c)
  else if String.eqb name "data" then Client (data_buf c +:+ line value) (type_buf c) (last_id c) (received c)
  else if String.eqb name "id" then
    if contains_char (chr 0) value then c else Client (data_buf c) (type_buf c) value (received c)
  else c.

Definition strip_space (v : string) : string := match v with String " " v' => v' | _ => v end.

Definition take_line (c : client) (l : string) : client :=
  if String.eqb l "" then dispatch c
  else if has_prefix ":" l then c
  else let '(name, value, _) := cut ":" l in field name (strip_space value) c.

Definition interpret (s : string) (c : client) : client := fold_left take_line (lines_go EmptyString s) c.

(** ** Reading back what was written *)

Definition no_break (s : string) : bool := negb (contains_char LF s) && negb (contains_char CR s).

(** Identifiers and names are single lines; payloads hold no carriage return. *)
Definition event_ok (e : Event) : bool :=
  no_break (ID e) && negb (contains_char (chr 0) (ID e)) && no_break (Name e) &&
  match encode (Data e) with inr p => negb (contains_char CR p) | inl _ => false end.

Definition payload_of (e : Event) : string := match encode (Data e) with inr p => p | inl _ => "" end.

(** What a client makes of an event. *)
Definition deliver (e : Event) (c : client) : client :=
  let id := if String.eqb (ID e) "" then last_id c else ID e in
  Client "" "" id (received c ++ [Message (if String.eqb (Name e) "" then "message" else Name e) (payload_of e) id]).

Definition all_lines (e : Event) : list string := head_lines e ++ data_lines (payload_of e) ++ [EmptyString].

Fixpoint text_of (ls : list string) : string := match ls with [] => EmptyString | l :: ls => line l +:+ text_of ls end.

Lemma text_of_app (l1 l2 : list string) : text_of (l1 ++ l2) = text_of l1 +:+ text_of l2.
Proof. induction l1 as [|l l1 IH]; cbn [text_of app]; [by rewrite string_app_nil_l|]. by rewrite IH, string_app_assoc. Qed.

(** A writer whose client is there, and the bytes given to it so far. *)
Record given (w : Stream) (t : string) : Prop := Given { g_failed : failed w = false; g_gone : gone w = false; g_text : out w +:+ buf w = t }.

Lemma write_given (s : string) (w : Stream) (t : string) : given w t -> exists w', write s w = (None, w') /\ given w' (t +:+ s).
Proof.
  intros [Hf Hg <-]. unfold write. rewrite Hf, Hg. destruct (_ <=? _)%nat.
  { eexists. split; [reflexivity|]. split; [done|done|]. cbn [out buf]. by rewrite string_app_assoc. }
  destruct (String.eqb_spec (buf w) "") as [->|_].
  { eexists. split; [reflexivity|]. split; [done|done|]. cbn [out buf]. by rewrite !string_app_nil_r. }
  set (k := (size w - _)%nat). pose proof (take_drop_string k s) as E.
  destruct (_ <=? _)%nat; (eexists; split; [reflexivity|]; split; [done|done|]; cbn [out buf]; rewrite ?string_app_nil_r, <- !string_app_assoc; by rewrite E).
Qed.

Lemma write_lines_given (ls : list string) (w : Stream) (t : string) : given w t ->
  exists w', write_lines ls w = (None, w') /\ given w' (t +:+ text_of ls).
Proof.
  revert w t. induction ls as [|l ls IH]; intros w t Hw; cbn [write_lines text_of]; [exists w; by rewrite string_app_nil_r|].
  destruct (write_given (line l) w t Hw) as [w1 [-> H1]]. destruct (IH _ _ H1) as [w2 [-> H2]]. exists w2. by rewrite string_app_assoc.
Qed.

Lemma Flush_given (w : Stream) (t : string) : given w t -> exists w', Flush w = (None, w') /\ given w' t /\ out w' = t.
Proof.
  intros [Hf Hg <-]. unfold Flush. rewrite Hf, Hg. destruct (String.eqb_spec (buf w) "") as [E|_].
  - exists w. split; [done|]. split; [done|]. by rewrite E, string_app_nil_r.
  - eexists. split; [done|]. split; [|done]. split; [done|done|]. cbn [out buf]. by rewrite string_app_nil_r.
Qed.

Lemma Event_given (e : Event) (w : Stream) (t p : string) : encode (Data e) = inr p -> given w t ->
  exists w', Event_ e w = (None, w') /\ given w' (t +:+ text_of (all_lines e)) /\ out w' = t +:+ text_of (all_lines e).
Proof.
  intros He Hw. unfold Event_, all_lines, payload_of. rewrite He. destruct (write_lines_given (head_lines e) w t Hw) as [w1 [-> H1]].
  destruct (write_lines_given (data_lines p) w1 _ H1) as [w2 [-> H2]]. destruct (write_given (String LF EmptyString) w2 _ H2) as [w3 [-> H3]].
  rewrite !text_of_app. cbn [text_of]. unfold line. rewrite string_app_nil_l, string_app_nil_r. rewrite <- !string_app_assoc in H3. by apply Flush_given.
Qed.

Lemma lines_go_line (cur l rest : string) : no_break l = true -> lines_go cur (line l +:+ rest) = (cur +:+ l) :: lines_go "" rest.
Proof.
  unfold line, no_break. revert cur. induction l as [|c l IH]; intros cur H.
  - rewrite string_app_nil_l, string_app_cons, string_app_nil_l, string_app_nil_r. reflexivity.
  - rewrite !string_app_cons. cbn [lines_go]. unfold contains_char in H. cbn [sexists] in H.
    apply andb_true_iff in H as [H1 H2]. rewrite negb_true_iff in H1, H2. apply orb_false_iff in H1 as [H1 H1'], H2 as [H2 H2'].
    rewrite (Ascii.eqb_sym c LF), H1, (Ascii.eqb_sym c CR), H2. rewrite IH.
    + by rewrite <- string_app_assoc, string_app_cons, string_app_nil_l.
    + unfold contains_char. by rewrite H1', H2'.
Qed.

Lemma lines_go_text (ls : list string) (rest : string) : Forall (fun l => no_break l = true) ls ->
  lines_go "" (text_of ls +:+ rest) = ls ++ lines_go "" rest.
Proof.
  induction 1 as [|l ls Hl Hls IH]; cbn [text_of app]; [by rewrite string_app_nil_l|].
  rewrite <- string_app_assoc, lines_go_line by done. by rewrite IH, string_app_nil_l.
Qed.

Lemma no_break_app (a b : string) : no_break a = true -> no_break b = true -> no_break (a +:+ b) = true.
Proof.
  unfold no_break, contains_char. rewrite !sexists_app. intros [H1 H2]%andb_true_iff [H3 H4]%andb_true_iff.
  rewrite negb_true_iff in *. by rewrite H1, H2, H3, H4.
Qed.

Lemma itoa_no_break (z : Z) : no_break (itoa z) = true.
Proof.
  unfold no_break. apply andb_true_iff. rewrite !negb_true_iff. split; (apply (sforall_not_contains _ numeric_char); [reflexivity|apply itoa_chars]).
Qed.

(** A line "name: value" is the field of that name. *)
Lemma take_field (name value : string) (c : client) : contains_char ":" name = false -> name <> EmptyString ->
  take_line c (name +:+ (": " +:+ value)) = field name value c.
Proof.
  intros Hn Hne. unfold take_line. change (": " +:+ value) with (String ":" (String " " value)).
  destruct name as [|d name]; [done|]. rewrite string_app_cons. cbn [String.eqb has_prefix].
  assert (Hd : Ascii.eqb ":" d = false) by (unfold contains_char in Hn; cbn [sexists] in Hn; by apply orb_false_iff in Hn as [? _]).
  rewrite Hd. cbn [andb]. rewrite <- string_app_cons, cut_app by done. reflexivity.
Qed.

Lemma take_data (l : string) (c : client) : take_line c ("data: " +:+ l) = Client (data_buf c +:+ line l) (type_buf c) (last_id c) (received c).
Proof. change ("data: " +:+ l) with ("data" +:+ (": " +:+ l)). by rewrite take_field. Qed.

Lemma take_data_lines (ls : list string) (c : client) :
  fold_left take_line (map (fun l => "data: " +:+ l) ls) c = Client (data_buf c +:+ text_of ls) (type_buf c) (last_id c) (received c).
Proof.
  revert c. induction ls as [|l ls IH]; intros c; cbn [map fold_left text_of]; [rewrite string_app_nil_r; by destruct c|].
  rewrite take_data, IH. cbn. by rewrite string_app_assoc.
Qed.

(** The text of the lines of a payload is the payload and a line feed. *)
Lemma text_of_split (p : string) : text_of (split LF p) = line p.
Proof.
  rewrite <- (join_split LF p) at 2. assert (Hne : split LF p <> []) by (unfold split; by destruct (split_go LF p)).
  induction (split LF p) as [|l ls IH]; [done|]. destruct ls as [|l2 ls]; [cbn [text_of join]; by rewrite string_app_nil_r|].
  change (text_of (l :: l2 :: ls)) with (line l +:+ text_of (l2 :: ls)). rewrite IH by done.
  change (join (String LF EmptyString) (l :: l2 :: ls)) with (l +:+ (String LF EmptyString +:+ join (String LF EmptyString) (l2 :: ls))).
  unfold line. by rewrite !string_app_assoc.
Qed.

Lemma take_last_char (p : string) : take_string (String.length (line p) - 1) (line p) = p.
Proof.
  unfold line. rewrite string_app_length. cbn [String.length]. replace (String.length p + 1 - 1)%nat with (String.length p) by lia.
  apply take_string_app.
Qed.

Lemma take_head (e : Event) (c : client) : contains_char (chr 0) (ID e) = false ->
  fold_left take_line (head_lines e) c =
    Client (data_buf c) (if String.eqb (Name e) "" then type_buf c else Name e) (if String.eqb (ID e) "" then last_id c else ID e) (received c).
Proof.
  intros Hid. unfold head_lines. rewrite !fold_left_app.
  assert (H1 : fold_left take_line (if String.eqb (ID e) "" then [] else ["id: " +:+ ID e]) c =
    Client (data_buf c) (type_buf c) (if String.eqb (ID e) "" then last_id c else ID e) (received c)).
  { destruct (String.eqb (ID e) ""); cbn [fold_left]; [by destruct c|].
    change ("id: " +:+ ID e) with ("id" +:+ (": " +:+ ID e)). rewrite take_field by done. unfold field. cbn [String.eqb]. by rewrite Hid. }
  rewrite H1. clear H1.
  assert (H2 : forall c', fold_left take_line (if String.eqb (Name e) "" then [] else ["event: " +:+ Name e]) c' =
    Client (data_buf c') (if String.eqb (Name e) "" then type_buf c' else Name e) (last_id c') (received c')).
  { intros c'. destruct (String.eqb (Name e) ""); cbn [fold_left]; [by destruct c'|].
    change ("event: " +:+ Name e) with ("event" +:+ (": " +:+ Name e)). by rewrite take_field. }
  rewrite H2. cbn [data_buf type_buf last_id received]. destruct (0 <? Retry e); [|done]. cbn [fold_left].
  change ("retry: " +:+ itoa (Retry e)) with ("retry" +:+ (": " +:+ itoa (Retry e))). by rewrite take_field.
Qed.

Lemma take_event (e : Event) (c : client) : contains_char (chr 0) (ID e) = false -> data_buf c = EmptyString -> type_buf c = EmptyString ->
  fold_left take_line (all_lines e) c = deliver e c.
Proof.
  intros Hid Hd Ht. unfold all_lines, data_lines. rewrite !fold_left_app, take_head by done. rewrite take_data_lines. cbn [fold_left].
  unfold take_line. cbn [String.eqb]. unfold dispatch. cbn [data_buf type_buf last_id received]. rewrite Hd, Ht, text_of_split, string_app_nil_l.
  rewrite take_last_char. unfold deliver. destruct (String.eqb_spec (line (payload_of e)) "") as [E|_]; [by destruct (payload_of e)|].
  destruct (String.eqb_spec (Name e) "") as [_|Hn]; [done|]. by rewrite (proj2 (String.eqb_neq _ _) Hn).
Qed.

Lemma join_parts (ls : list string) : contains_char CR (join (String LF EmptyString) ls) = false -> Forall (fun l => contains_char CR l = false) ls.
Proof.
  induction ls as [|x ls IH]; intros H; [constructor|]. destruct ls as [|y ls]; [by repeat constructor|].
  change (join (String LF EmptyString) (x :: y :: ls)) with (x +:+ (String LF EmptyString +:+ join (String LF EmptyString) (y :: ls))) in H.
  unfold contains_char in *. rewrite !sexists_app in H. apply orb_false_iff in H as [Hx H]. apply orb_false_iff in H as [_ H].
  constructor; [exact Hx|by apply IH].
Qed.

Lemma split_no_break (p : string) : contains_char CR p = false -> Forall (fun l => no_break ("data: " +:+ l) = true) (split LF p).
Proof.
  intros Hp. rewrite <- (join_split LF p) in Hp. apply join_parts in Hp. rewrite Forall_forall in Hp. apply Forall_forall. intros l Hl.
  apply no_break_app; [done|]. unfold no_break. apply andb_true_iff. rewrite !negb_true_iff. split; [by eapply split_parts|by apply Hp].
Qed.

Lemma all_lines_ok (e : Event) : event_ok e = true -> Forall (fun l => no_break l = true) (all_lines e).
Proof.
  unfold event_ok. intros [[[H1 H2]%andb_true_iff H3]%andb_true_iff H4]%andb_true_iff.
  unfold all_lines, head_lines, data_lines, payload_of. destruct (encode (Data e)) as [|p]; [done|]. rewrite negb_true_iff in H4.
  repeat (apply Forall_app; split).
  - destruct (String.eqb (ID e) ""); repeat constructor. by apply no_break_app.
  - destruct (String.eqb (Name e) ""); repeat constructor. by apply no_break_app.
  - destruct (0 <? Retry e); repeat constructor. apply no_break_app; [done|apply itoa_no_break].
  - apply Forall_map. by apply split_no_break.
  - by repeat constructor.
Qed.

(** Events sent one after the other. *)
Fixpoint send_all (es : list Event) (w : Stream) : Stream := match es with [] => w | e :: es => send_all es (Event_ e w).2 end.

Lemma send_all_text (es : list Event) (w : Stream) (t : string) : Forall (fun e => event_ok e = true) es -> given w t -> out w = t ->
  out (send_all es w) = t +:+ text_of (flat_map all_lines es).
Proof.
  intros Hes. revert w t. induction Hes as [|e es He Hes IH]; intros w t Hw Ho; cbn [send_all flat_map].
  { cbn. by rewrite string_app_nil_r. }
  assert (Henc : exists p, encode (Data e) = inr p).
  { unfold event_ok in He. destruct (encode (Data e)) as [|p]; [|by exists p]. by rewrite andb_false_r in He. }
  destruct Henc as [p Hp]. destruct (Event_given e w t p Hp Hw) as (w1 & -> & H1 & O1). cbn [snd].
  rewrite (IH w1 _ H1 O1), text_of_app. by rewrite string_app_assoc.
Qed.

Lemma take_events (es : list Event) (c : client) : Forall (fun e => event_ok e = true) es -> data_buf c = EmptyString -> type_buf c = EmptyString ->
  fold_left take_line (flat_map all_lines es) c = fold_left (fun c e => deliver e c) es c.
Proof.
  intros Hes. revert c. induction Hes as [|e es He Hes IH]; intros c Hd Ht; cbn [flat_map fold_left]; [done|].
  rewrite fold_left_app, take_event; [by apply IH| |done|done].
  unfold event_ok in He. rewrite !andb_true_iff, !negb_true_iff in He. tauto.
Qed.

Lemma interpret_text (es : list Event) (c : client) : Forall (fun e => event_ok e = true) es -> data_buf c = EmptyString -> type_buf c = EmptyString ->
  interpret (text_of (flat_map all_lines es)) c = fold_left (fun c e => deliver e c) es c.
Proof.
  intros Hes Hd Ht. unfold interpret. rewrite <- (string_app_nil_r (text_of _)), lines_go_text.
  - cbn [lines_go]. rewrite app_nil_r. by apply take_events.
  - induction Hes as [|e es He Hes IH]; [constructor|]. cbn [flat_map]. apply Forall_app. split; [by apply all_lines_ok|exact IH].
Qed.

(** ** Claims *)

(** (C33) A client that is there reads back the events sent: in order, one message each, with the event's name (or
    "message"), its payload, line breaks included, and the last identifier sent so far, whatever the size of the buffer, provided
    names and identifiers are single lines and payloads hold no carriage return. *)
Theorem stream_roundtrip (n : nat) (es : list Event) (c : client) (Hes : Forall (fun e => event_ok e = true) es)
    (Hc : data_buf c = EmptyString /\ type_buf c = EmptyString) :
  interpret (out (send_all es (MkStream n EmptyString EmptyString false false))) c = fold_left (fun c e => deliver e c) es c.
Proof.
  destruct Hc. rewrite (send_all_text es _ EmptyString) by done. rewrite string_app_nil_l. by apply interpret_text.
Qed.

Definition sample_events : list Event :=
  [MkEvent "7" "tick" (DString (line "a" +:+ "b")) 100; MkEvent "" "" (DJson (AList [AInt 1; AStr "x"])) 0; MkEvent "8" "" DNil 0].

Lemma stream_roundtrip_witness : Forall (fun e => event_ok e = true) sample_events /\
  received (interpret (out (send_all sample_events (MkStream 16 EmptyString EmptyString false false))) (Client "" "" "" [])) =
    [Message "tick" (line "a" +:+ "b") "7"; Message "message" (marshal (AList [AInt 1; AStr "x"])) "7"; Message "message" "" "8"].
Proof.
  assert (H : Forall (fun e => event_ok e = true) sample_events) by (repeat constructor).
  split; [exact H|]. rewrite (stream_roundtrip 16 sample_events (Client "" "" "" []) H (conj eq_refl eq_refl)). vm_compute. reflexivity.
Defined.

(** ** What modelling showed *)

Definition fresh : Stream := MkStream 4096 EmptyString EmptyString false false.
Definition seen (w : Stream) : list message := received (interpret (out w) (Client "" "" "" [])).

(** An event whose data does not encode leaves its identifier and name in the buffer; the next event is sent behind
    them and takes them on. *)
Example failed_event_leaks :
  seen (Event_ (MkEvent "" "" (DString "hello") 0) (Event_ (MkEvent "9" "secret" DUnsupported 0) fresh).2).2 = [Message "secret" "hello" "9"].
Proof. vm_compute. reflexivity. Qed.

(** A carriage return in a payload ends its line for the client: what follows is read as another field. *)
Example carriage_return_injects :
  seen (SendRaw "note" ("hi" +:+ String CR "event: admin") fresh).2 = [Message "admin" "hi" ""].
Proof. vm_compute. reflexivity. Qed.

(** A line feed in a name or a comment starts a new field. *)
Example name_injects :
  seen (SendRaw ("note" +:+ String LF "data: forged") "x" fresh).2 = [Message "note" ("forged" +:+ String LF "x") ""].
Proof. vm_compute. reflexivity. Qed.
