(* ===== verification/Migrate.v ===== *)
(** * Database migrations (migrate/migrate.go, migrate/command.go)

    bun's migrator is an interface: it prepares its tables, takes and gives back the lock row, applies
    and rolls back groups, and reports. Each call to the database has its fate ([net]); a context that
    is done is a [LostRequest] from then on. [Up] and [Down] are also run as processes, one call of the
    migrator at a time, for what several replicas do at once. *)

From S2P Require Import Prelude.
Open Scope Z_scope.

Class Migrator (S G M : Type) := {
  init : S -> (error + unit) * S;
  lock : S -> (error + unit) * S;
  unlock : S -> (error + unit) * S;
  migrate : S -> (error + G) * S;
  rollback : S -> (error + G) * S;
  migrations_with_status : S -> (error + M) * S;
  is_zero : G -> bool;
  group_string : G -> string;
  applied : M -> string;
  unapplied : M -> string;
  (** whether the lock row is there *)
  locked : S -> bool }.

(** What the package relies on: the lock is exclusive, and no other call touches it. *)
Class MigratorLaws (S G M : Type) `{Migrator S G M} := {
  init_locked s : locked (init s).2 = locked s;
  lock_free s : locked s = false -> (lock s).1 = inr tt /\ locked (lock s).2 = true;
  lock_held s : locked s = true -> exists e, lock s = (inl e, s);
  unlock_locked s : locked (unlock s).2 = false;
  migrate_locked s : locked (migrate s).2 = locked s;
  rollback_locked s : locked (rollback s).2 = locked s }.

Section Migrate.
  Context {S G M : Type} `{Migrator S G M}.

(** ** migrate.go *)

(** The fates of the four calls [Up] and [Down] make. *)
Record fates := Fates { on_init : net; on_lock : net; on_run : net; on_unlock : net }.

Definition newMigrator (n : net) (s : S) : (error + unit) * S := remote n init s.

(** [Up] and [Down] differ in the call made under the lock and in their messages. *)
Definition under_lock (op : S -> (error + G) * S) (none prefix : string) (n : fates) (s : S) : (error + string) * S :=
  match newMigrator (on_init n) s with
  | (inl err, s) => (inl err, s)
  | (inr _, s) =>
      match remote (on_lock n) lock s with
      | (inl err, s) => (inl err, s)
      | (inr _, s) =>
          let '(r, s) := remote (on_run n) op s in
          (match r with
           | inl err => inl err
           | inr group => if is_zero group then inr none else inr (prefix +:+ group_string group)
           end, (remote (on_unlock n) unlock s).2)
      end
  end.

Definition Up : fates -> S -> (error + string) * S := under_lock migrate "no new migrations to run" "migrated: ".
Definition Down : fates -> S -> (error + string) * S := under_lock rollback "nothing to roll back" "rolled back: ".

Definition Status (n_init n_status : net) (s : S) : (error + string) * S :=
  match newMigrator n_init s with
  | (inl err, s) => (inl err, s)
  | (inr _, s) =>
      match remote n_status migrations_with_status s with
      | (inl err, s) => (inl err, s)
      | (inr all, s) => (inr ("applied: " +:+ applied all +:+ String (Ascii.ascii_of_nat 10) ("pending: " +:+ unapplied all)), s)
      end
  end.

(** [Create] needs no database; what is asked of bun is the path of the file it wrote. *)
Definition Create (create_go_migration : string -> error + string) (name : string) : error + string :=
  match create_go_migration name with inl err => inl err | inr path => inr path end.

(** ** command.go *)

(** What running a subcommand does outside the migrator. *)
Inductive effect := EOpen | EClose | EPrint (msg : string).

(** [run]: [db] is what the provider gives: an error, no database, or one. *)
Definition run (db : error + bool) (fn : S -> (error + string) * S) (s : S) : option error * list effect * S :=
  match db with
  | inl err => (Some err, [], s)
  | inr false => (Some (Err "migrate: DBProvider returned a nil database"), [], s)
  | inr true =>
      match fn s with
      | (inl err, s) => (Some err, [EOpen; EClose], s)
      | (inr msg, s) => (None, [EOpen; EPrint msg; EClose], s)
      end
  end.

(** The subcommands of [NewCommand], each on its arguments: [create] asks for no database. *)
Definition create_run (create_go_migration : string -> error + string) (args : list string) : option error * list effect :=
  match args with
  | [name] => match Create create_go_migration name with
              | inl err => (Some err, [])
              | inr path => (None, [EPrint ("created " +:+ path)])
              end
  | _ => (Some (Err "accepts 1 arg(s)"), [])
  end.
Definition command : Type := list string -> S -> option error * list effect * S.
Definition NewCommand (db : error + bool) (create_go_migration : string -> error + string) (n : fates) (n_init n_status : net) : list (string * command) :=
  [("up", fun _ => run db (Up n)); ("down", fun _ => run db (Down n)); ("status", fun _ => run db (Status n_init n_status));
   ("create", fun args s => (create_run create_go_migration args, s))]%string.

(** ** Processes *)

(** Where a call of [Up] or [Down] is: before each call of the migrator, inside the one under the
    lock, and after the last one. *)
Inductive pc := PInit | PLock | PHold | PRun | PUnlock (r : error + G) | PDone (r : error + string).
Inductive dir := DUp | DDown.
Definition op_of (d : dir) : S -> (error + G) * S := match d with DUp => migrate | DDown => rollback end.
Definition none_of (d : dir) : string := match d with DUp => "no new migrations to run" | DDown => "nothing to roll back" end.
Definition prefix_of (d : dir) : string := match d with DUp => "migrated: " | DDown => "rolled back: " end.

Definition proc_step (d : dir) (n : net) (p : pc) (s : S) : pc * S :=
  match p with
  | PInit => match newMigrator n s with (inl err, s) => (PDone (inl err), s) | (inr _, s) => (PLock, s) end
  | PLock => match remote n lock s with (inl err, s) => (PDone (inl err), s) | (inr _, s) => (PHold, s) end
  | PHold => (PRun, s)
  | PRun => let '(r, s) := remote n (op_of d) s in (PUnlock r, s)
  | PUnlock r =>
      (PDone match r with inl err => inl err | inr group => if is_zero group then inr (none_of d) else inr (prefix_of d +:+ group_string group) end,
       (remote n unlock s).2)
  | PDone r => (PDone r, s)
  end.

(** Several processes on one database: one of them makes a step. *)
Definition system : Type := list (dir * pc) * S.
Inductive step : system -> system -> Prop :=
| step_proc (i : nat) (n : net) (ps : list (dir * pc)) (s : S) (d : dir) (p : pc) : ps !! i = Some (d, p) ->
    step (ps, s) (<[i := (d, (proc_step d n p s).1)]> ps, (proc_step d n p s).2).

Definition started (ds : list dir) (s : S) : system := (map (fun d => (d, PInit)) ds, s).

(** A call run on its own makes the steps of its process. *)
Definition solo (d : dir) (n : fates) (s : S) : pc * S :=
  let '(p, s) := proc_step d (on_init n) PInit s in
  let '(p, s) := proc_step d (on_lock n) p s in
  let '(p, s) := proc_step d (on_run n) p s in
  let '(p, s) := proc_step d (on_run n) p s in
  proc_step d (on_unlock n) p s.
End Migrate.

Section Facts.
  Context {S G M : Type} `{HM : Migrator S G M, HL : !MigratorLaws S G M}.

Lemma solo_call (d : dir) (n : fates) (s : S) :
  solo d n s = let '(r, s) := match d with DUp => Up n s | DDown => Down n s end in (PDone r, s).
Proof.
  unfold solo, Up, Down, under_lock. cbn [proc_step].
  assert (Hdone : forall (f : fates -> net) (r : error + string) (s : S), proc_step d (f n) (PDone r) s = (PDone r, s)) by done.
  destruct (newMigrator (on_init n) s) as [[err|[]] s1]; cbn [proc_step]; [by destruct d|].
  destruct (remote (on_lock n) lock s1) as [[err|[]] s2]; cbn [proc_step]; [by destruct d|].
  destruct d; cbn [op_of none_of prefix_of]; by destruct (remote (on_run n) _ s2) as [r s3].
Qed.

(** The holder of the lock: past [Lock] and not yet past [Unlock]. *)
Definition holds (p : pc (G := G)) : bool := match p with PHold | PRun | PUnlock _ => true | _ => false end.

(** One process at most holds the lock, and then the lock row is there. *)
Definition exclusive (x : system (S := S) (G := G)) : Prop :=
  forall i d p, x.1 !! i = Some (d, p) -> holds p = true ->
    locked x.2 = true /\ forall j d' p', x.1 !! j = Some (d', p') -> holds p' = true -> i = j.

Lemma remote_locked {A} (n : net) (f : S -> (error + A) * S) (s : S) : locked (f s).2 = locked s -> locked (remote n f s).2 = locked s.
Proof. intros Hf. by destruct (remote_cases n f s) as [[e ->]|[[e ->]|[_ ->]]]. Qed.

Lemma remote_lock (n : net) (s : S) :
  match remote n lock s with
  | (inr _, s') => locked s = false /\ locked s' = true
  | (inl _, s') => locked s = true -> locked s' = true
  end.
Proof.
  destruct (locked s) eqn:Hs.
  - destruct (lock_held s Hs) as [e He]. destruct (remote_cases n lock s) as [[e' ->]|[[e' ->]|[_ ->]]]; rewrite ?He; done.
  - destruct (lock_free s Hs) as [H1 H2]. destruct (remote_cases n lock s) as [[e' ->]|[[e' ->]|[_ ->]]]; [done|done|].
    destruct (lock s) as [r s']. cbn in *. by subst r.
Qed.

(** What a step of one process does to the lock. *)
Lemma proc_step_lock (d : dir) (n : net) (p : pc) (s : S) :
  let '(p', s') := proc_step d n p s in
  if holds p then holds p' = true -> locked s' = locked s
  else if holds p' then locked s = false /\ locked s' = true
  else locked s = true -> locked s' = true.
Proof.
  destruct p; cbn [proc_step holds]; try done.
  - pose proof (remote_locked n init s (init_locked s)) as Hi. unfold newMigrator. destruct (remote n init s) as [[]]; cbn in *; congruence.
  - pose proof (remote_lock n s) as Hl. by destruct (remote n lock s) as [[]].
  - assert (Ho : locked (op_of d s).2 = locked s) by (destruct d; [apply migrate_locked|apply rollback_locked]).
    pose proof (remote_locked n (op_of d) s Ho) as Hr. by destruct (remote n (op_of d) s).
Qed.

Lemma step_exclusive (x y : system) : exclusive x -> step x y -> exclusive y.
Proof.
  intros Hx Hstep. destruct Hstep as [i n ps s d p Hi]. pose proof (proc_step_lock d n p s) as Hp.
  destruct (proc_step d n p s) as [p' s']. cbn [fst snd] in *. unfold exclusive in *. cbn [fst snd] in *.
  assert (Hlen : (i < length ps)%nat) by (apply lookup_lt_is_Some; by exists (d, p)).
  assert (Hother : forall j e q, j <> i -> <[i:=(d, p')]> ps !! j = Some (e, q) -> ps !! j = Some (e, q)).
  { intros j e q Hj. by rewrite list_lookup_insert_ne. }
  assert (Hself : forall e q, <[i:=(d, p')]> ps !! i = Some (e, q) -> q = p') by (intros e q; rewrite list_lookup_insert_eq by done; by intros [= _ <-]).
  destruct (holds p) eqn:Hold.
  - destruct (Hx i d p Hi Hold) as [Hlk Honly].
    assert (Hnone : forall j e q, <[i:=(d, p')]> ps !! j = Some (e, q) -> holds q = true -> j = i).
    { intros j e q Hj Hq. destruct (decide (j = i)) as [->|Hne]; [done|]. symmetry. by eapply Honly; [eapply Hother|]. }
    intros j e q Hj Hq. rewrite (Hnone j e q Hj Hq) in Hj |- *. apply Hself in Hj as ->. split; [by rewrite Hp|].
    intros k e' q' Hk Hq'. symmetry. by eapply Hnone.
  - destruct (holds p') eqn:Hnew.
    + destruct Hp as [Hfree Hlk].
      assert (Hnone : forall j e q, <[i:=(d, p')]> ps !! j = Some (e, q) -> holds q = true -> j = i).
      { intros j e q Hj Hq. destruct (decide (j = i)) as [->|Hne]; [done|]. apply Hother in Hj; [|done].
        destruct (Hx j e q Hj Hq) as [Hbad _]. congruence. }
      intros j e q Hj Hq. split; [done|]. intros k e' q' Hk Hq'. by rewrite (Hnone j e q Hj Hq), (Hnone k e' q' Hk Hq').
    + intros j e q Hj Hq. destruct (decide (j = i)) as [->|Hne]; [apply Hself in Hj; congruence|].
      apply Hother in Hj; [|done]. destruct (Hx j e q Hj Hq) as [Hlk Honly]. split; [by apply Hp|].
      intros k e' q' Hk Hq'. destruct (decide (k = i)) as [->|Hne']; [apply Hself in Hk; congruence|].
      eapply Honly; [by eapply Hother|done].
Qed.

(** What is left of the lock after a call that found it free. *)
Lemma under_lock_spec (op : S -> (error + G) * S) (none prefix : string) (n : fates) (s : S) :
  (forall s, locked (op s).2 = locked s) ->
  let '(r, s') := under_lock op none prefix n s in
  if locked s then (exists e, r = inl e) /\ locked s' = true
  else locked s' = match on_init n, on_lock n, on_unlock n with
    | NetOk, LostReply _, _ | NetOk, NetOk, LostRequest _ => match (init s).1 with inr _ => true | inl _ => false end
    | _, _, _ => false end.
Proof.
  intros Hop. unfold under_lock, newMigrator. pose proof (remote_locked (on_init n) init s (init_locked s)) as Hi.
  destruct (on_init n) as [|e|e]; unfold remote at 1 in Hi; unfold remote at 1; cbn [call] in *.
  2,3: cbn [snd] in Hi; destruct (locked s); [split; [by eexists|exact Hi]|exact Hi].
  destruct (init s) as [r1 s1]. cbn [fst snd] in *. destruct r1 as [e|[]]; cbn [snd] in Hi.
  { destruct (locked s); [split; [by eexists|exact Hi]|]. rewrite Hi. by destruct (on_lock n), (on_unlock n). }
  destruct (locked s).
  - destruct (lock_held s1 Hi) as [e He]. unfold remote at 1. destruct (on_lock n) as [|e'|e']; cbn [call]; rewrite ?He; (split; [by eexists|exact Hi]).
  - destruct (lock_free s1 Hi) as [H1 H2]. unfold remote at 1. destruct (on_lock n) as [|e'|e']; cbn [call]; [|exact Hi|exact H2].
    destruct (lock s1) as [r2 s2]. cbn [fst snd] in *. subst r2. pose proof (remote_locked (on_run n) op s2 (Hop s2)) as Ho.
    destruct (remote (on_run n) op s2) as [r s3]. cbn [snd] in Ho. unfold remote. pose proof (unlock_locked s3) as Hu.
    destruct (on_unlock n) as [|e'|e']; cbn [call]; destruct (unlock s3); cbn in *; congruence.
Qed.
End Facts.

(** ** A migrator in memory *)

Module Mem.
Record db := Db { lock_row : bool; done_ : list (list string); todo : list string }.

#[export] Instance mem_migrator : Migrator db (list string) (list string * list string) := {
  init s := (inr tt, s);
  lock s := if lock_row s then (inl (Err "migrate: migrations table is already locked"), s) else (inr tt, Db true (done_ s) (todo s));
  unlock s := (inr tt, Db false (done_ s) (todo s));
  migrate s := (inr (todo s), Db (lock_row s) (match todo s with [] => done_ s | g => g :: done_ s end) []);
  rollback s := match done_ s with [] => (inr [], s) | g :: rest => (inr g, Db (lock_row s) rest (g ++ todo s)) end;
  migrations_with_status s := (inr (concat (done_ s), todo s), s);
  is_zero g := match g with [] => true | _ => false end;
  group_string g := String.concat ", " g;
  applied m := String.concat ", " m.1;
  unapplied m := String.concat ", " m.2;
  locked := lock_row }.

#[export] Instance mem_migrator_laws : MigratorLaws db (list string) (list string * list string).
Proof.
  split; cbn; try done.
  - intros s Hs. by rewrite Hs.
  - intros s Hs. rewrite Hs. by eexists.
  - intros s. by destruct (done_ s).
Qed.
End Mem.
Import (hints) Mem.

Definition sample_db : Mem.db := Mem.Db false [] ["create_users"; "create_posts"]%string.
Definition all_ok : fates := Fates NetOk NetOk NetOk NetOk.

Example up_twice :
  let '(r1, s) := Up all_ok sample_db in let '(r2, s) := Up all_ok s in let '(r3, s) := Down all_ok s in
  r1 = inr "migrated: create_users, create_posts"%string /\ r2 = inr "no new migrations to run"%string /\
  r3 = inr "rolled back: create_users, create_posts"%string /\ s = sample_db.
Proof. vm_compute. done. Qed.

(** ** Claims *)

(** (C32) However many replicas run [Up] and [Down] at once, in whatever interleaving and whatever calls fail, at most
    one of them is between taking and giving back the lock, and so at most one runs migrations; a call
    on its own is its process run to the end. *)
Theorem migrations_exclusive {S G M : Type} `{HM : Migrator S G M, HL : !MigratorLaws S G M} (ds : list dir) (s : S) (y : system)
    (Hy : rtc step (started ds s) y) :
  (forall i j d p d' p', y.1 !! i = Some (d, p) -> y.1 !! j = Some (d', p') -> holds p = true -> holds p' = true ->
     i = j /\ locked y.2 = true) /\
  (forall n s, solo DUp n s = (PDone (Up n s).1, (Up n s).2) /\ solo DDown n s = (PDone (Down n s).1, (Down n s).2)).
Proof.
  split.
  - assert (Hx : exclusive y).
    { assert (H0 : exclusive (started ds s)).
      { intros i d p Hi. unfold started in Hi. cbn [fst] in Hi. rewrite list_lookup_fmap in Hi. destruct (ds !! i); [|done]. by injection Hi as _ <-. }
      clear -Hy H0 HL. induction Hy as [|x z y Hstep Hy IH]; [done|]. apply IH. by eapply step_exclusive. }
    intros i j d p d' p' Hi Hj Hp Hp'. destruct (Hx i d p Hi Hp) as [Hlk Hone]. split; [by eapply Hone|done].
  - intros n t. rewrite !solo_call. by destruct (Up n t), (Down n t).
Qed.

Definition two_ups : system (S := Mem.db) (G := list string) :=
  ([(DUp, PRun); (DUp, PDone (inl (Err "migrate: migrations table is already locked")))], Mem.Db true [] ["create_users"; "create_posts"]%string).

Lemma two_ups_reachable : rtc step (started [DUp; DUp] sample_db) two_ups.
Proof.
  eapply rtc_l; [apply (step_proc 0 NetOk); reflexivity|]. eapply rtc_l; [apply (step_proc 1 NetOk); reflexivity|].
  eapply rtc_l; [apply (step_proc 0 NetOk); reflexivity|]. eapply rtc_l; [apply (step_proc 1 NetOk); reflexivity|].
  eapply rtc_l; [apply (step_proc 0 NetOk); reflexivity|]. apply rtc_refl.
Qed.

Lemma migrations_exclusive_witness : rtc step (started [DUp; DUp] sample_db) two_ups /\
  (forall j d p, two_ups.1 !! j = Some (d, p) -> holds p = true -> j = 0%nat /\ locked two_ups.2 = true).
Proof.
  split; [exact two_ups_reachable|]. intros j d p Hj Hp.
  destruct (migrations_exclusive [DUp; DUp] sample_db two_ups two_ups_reachable) as [H _]. by eapply H.
Defined.

(** The command closes the database it opened, once and last, whatever the migration does; it opens
    nothing when the provider fails. *)
Lemma run_closes {S : Type} (db : error + bool) (fn : S -> (error + string) * S) (s : S) :
  let '(r, tr, s') := run db fn s in
  match db with
  | inr true => s' = (fn s).2 /\ exists mid, tr = EOpen :: mid ++ [EClose] /\ ~ EClose ∈ mid /\ (r = None <-> exists msg, mid = [EPrint msg])
  | _ => is_Some r /\ tr = [] /\ s' = s
  end.
Proof.
  destruct db as [e|[]]; cbn [run]; [by split_and!| |by split_and!]. destruct (fn s) as [[e|msg] s'].
  - split; [done|]. exists []. split_and!; [done|by apply not_elem_of_nil|]. split; [done|]. by intros [? ?].
  - split; [done|]. exists [EPrint msg]. split_and!; [done|by intros ?%list_elem_of_singleton|]. split; [intros _; by eexists|done].
Qed.

(** Every subcommand leaves no database open, and prints its result exactly when it succeeds; [create] opens none and
    changes nothing in it. *)
#[local] Instance effect_eq_dec : EqDecision effect.
Proof. solve_decision. Defined.
Definition trace_ok (r : option error) (tr : list effect) : Prop :=
  length (filter (fun e => e = EOpen) tr) = length (filter (fun e => e = EClose) tr) /\ (r = None <-> exists msg, EPrint msg ∈ tr).

Lemma run_trace {S : Type} (db : error + bool) (fn : S -> (error + string) * S) (s : S) : let '(r, tr, _) := run db fn s in trace_ok r tr.
Proof.
  unfold trace_ok, run. destruct db as [e|[]]; [|destruct (fn s) as [[e|msg] s']|]; (split; [reflexivity|]); (split; [intros Hr|intros [m Hm]]).
  all: try discriminate Hr; try (repeat (apply elem_of_cons in Hm as [Hm|Hm]; [discriminate Hm|]); by apply elem_of_nil in Hm); try reflexivity.
  exists msg. right. by left.
Qed.

Lemma NewCommand_ok {S G M : Type} `{Migrator S G M} (db : error + bool) (create : string -> error + string) (n : fates) (n1 n2 : net)
    (name : string) (cmd : command) (args : list string) (s : S) : (name, cmd) ∈ NewCommand db create n n1 n2 ->
  let '(r, tr, s') := cmd args s in trace_ok r tr /\ (name = "create"%string -> (EOpen ∉ tr) /\ s' = s).
Proof.
  unfold NewCommand. intros Hin. repeat (apply elem_of_cons in Hin as [Hin|Hin]; [injection Hin as -> ->|]); [..|by apply elem_of_nil in Hin].
  1-3: match goal with |- context [run ?d ?f ?x] => pose proof (run_trace d f x) as Ht; destruct (run d f x) as [[r tr] s'] end; by split.
  unfold create_run, Create, trace_ok. destruct args as [|a [|b args]]; [|destruct (create a) as [e|p]|]; cbn [fst snd].
  all: split; [split; [reflexivity|]|intros _; split; [set_solver|reflexivity]]; (split; [intros Hr|intros [m Hm]]).
  all: try discriminate Hr; try (by apply elem_of_nil in Hm); try reflexivity. eexists. by left.
Qed.

(** ** What modelling showed *)

(** The lock is given back on the caller's context: when that is done during the migration, the call that
    would release it fails, and every later [Up] is refused. *)
Definition cancelled : error := Err "context canceled".
Example cancelled_stays_locked :
  let '(r1, s) := Up (Fates NetOk NetOk (LostReply cancelled) (LostRequest cancelled)) sample_db in
  let '(r2, s) := Up all_ok s in
  r1 = inl cancelled /\ r2 = inl (Err "migrate: migrations table is already locked") /\ locked s = true.
Proof. vm_compute. done. Qed.
