(* ===== verification/Slug.v ===== *)
(** * Unique slugs (slug/generator.go)

    The title's slug and the table are third-party: a function, and the count of rows with a slug, asked
    for at each attempt. Random bytes come as the source gives them, one read an attempt. *)

From S2P Require Import Prelude GoStrings.
Open Scope Z_scope.

(** ** encoding/base32 *)

Definition b32_char (n : Z) : ascii := if n <? 26 then chr (65 + n) else chr (24 + n).

(** Five bytes as a number of forty bits, and its eight digits of five. *)
Definition word40 (a b c d e : Z) : Z := (((a * 256 + b) * 256 + c) * 256 + d) * 256 + e.
Fixpoint digits32 (k : nat) (v : Z) (acc : string) : string :=
  match k with O => acc | S k => digits32 k (v / 32) (String (b32_char (v mod 32)) acc) end.

(** The digits kept of a group, and its padding. *)
Definition group (keep : nat) (v : Z) : string := take_string keep (digits32 8 v EmptyString) +:+ take_string (8 - keep) "========".

(** [base32.StdEncoding.EncodeToString]. *)
Fixpoint b32_encode (s : string) : string :=
  match s with
  | String a (String b (String c (String d (String e s)))) =>
      digits32 8 (word40 (code a) (code b) (code c) (code d) (code e)) (b32_encode s)
  | String a (String b (String c (String d EmptyString))) => group 7 (word40 (code a) (code b) (code c) (code d) 0)
  | String a (String b (String c EmptyString)) => group 5 (word40 (code a) (code b) (code c) 0 0)
  | String a (String b EmptyString) => group 4 (word40 (code a) (code b) 0 0 0)
  | String a EmptyString => group 2 (word40 (code a) 0 0 0 0)
  | EmptyString => EmptyString
  end.

(** [strings.TrimRight] with one character to trim. *)
Fixpoint trim_right (c : ascii) (s : string) : string :=
  match s with
  | EmptyString => EmptyString
  | String x s => match trim_right c s with
                  | EmptyString => if Ascii.eqb x c then EmptyString else String x EmptyString
                  | t => String x t end
  end.

Definition uniqueID (randomBytes : string) : string := to_lower (trim_right "=" (b32_encode randomBytes)).

(** ** Generate *)

Definition maxSlugAttempts : nat := 10.

Section Slug.
  (** [slug.Make]; the random source and the number of rows with a slug, at each attempt. *)
  Context (make : string -> string) (read : nat -> error + string) (count : nat -> string -> error + Z).

Definition candidate (title randomBytes : string) : string := make title +:+ "-" +:+ uniqueID randomBytes.

Fixpoint attempts (n attempt : nat) (title : string) : error + string :=
  match n with
  | O => inl (Err ("could not generate a unique slug for " +:+ title))
  | S n =>
      match read attempt with
      | inl err => inl (Wrap "slug: reading random bytes: " [err])
      | inr randomBytes =>
          let slugCandidate := candidate title randomBytes in
          match count attempt slugCandidate with
          | inl err => inl (Wrap "error checking slug uniqueness: " [err])
          | inr c => if c =? 0 then inr slugCandidate else attempts n (S attempt) title
          end
      end
  end.

(** [db] says whether there is a database. *)
Definition Generate (db : bool) (title : string) : error + string :=
  if db then attempts maxSlugAttempts 0 title else inl (Err "slug: db must not be nil").

(** How an attempt ends: taken, or the result of the call. *)
Definition attempt (title : string) (i : nat) : option (error + string) :=
  match read i with
  | inl err => Some (inl (Wrap "slug: reading random bytes: " [err]))
  | inr bs =>
      match count i (candidate title bs) with
      | inl err => Some (inl (Wrap "error checking slug uniqueness: " [err]))
      | inr c => if c =? 0 then Some (inr (candidate title bs)) else None
      end
  end.
Definition exhausted (title : string) : error := Err ("could not generate a unique slug for " +:+ title).

Lemma attempts_first (n i : nat) (title : string) :
  (exists k r, (k < n)%nat /\ attempt title (i + k) = Some r /\ attempts n i title = r /\ forall j, (j < k)%nat -> attempt title (i + j) = None) \/
  (attempts n i title = inl (exhausted title) /\ forall j, (j < n)%nat -> attempt title (i + j) = None).
Proof.
  revert i. induction n as [|n IH]; intros i; [right; split; [done|lia]|]. cbn [attempts].
  destruct (attempt title i) as [r|] eqn:Ea.
  - left. exists 0%nat, r. rewrite Nat.add_0_r. split_and!; [lia|done| |lia]. unfold attempt in Ea.
    destruct (read i); [congruence|]. destruct (count i _); [congruence|]. destruct (_ =? 0); congruence.
  - assert (Hnext : forall (F : error + string),
      match read i with inl err => inl (Wrap "slug: reading random bytes: " [err]) | inr bs =>
        match count i (candidate title bs) with inl err => inl (Wrap "error checking slug uniqueness: " [err])
        | inr c => if c =? 0 then inr (candidate title bs) else F end end = F).
    { intros F. unfold attempt in Ea. destruct (read i); [done|]. destruct (count i _); [done|]. by destruct (_ =? 0). }
    rewrite Hnext. destruct (IH (S i)) as [(k & r & Hk & Hr & Ha & Hlt)|[Ha Hall]].
    + left. exists (S k), r. replace (i + S k)%nat with (S i + k)%nat by lia. split_and!; [lia|done|done|].
      intros [|j] Hj; [by rewrite Nat.add_0_r|]. replace (i + S j)%nat with (S i + j)%nat by lia. apply Hlt. lia.
    + right. split; [done|]. intros [|j] Hj; [by rewrite Nat.add_0_r|]. replace (i + S j)%nat with (S i + j)%nat by lia. apply Hall. lia.
Qed.
End Slug.

(** ** The random part *)

Lemma digits32_length (k : nat) (v : Z) (acc : string) : String.length (digits32 k v acc) = (k + String.length acc)%nat.
Proof. revert v acc. induction k as [|k IH]; intros v acc; cbn [digits32]; [done|]. rewrite IH. cbn. lia. Qed.

Definition b32_lower (c : ascii) : bool := is_lower c || ((50 <=? code c) && (code c <=? 55)).

Lemma b32_digit (n : Z) : 0 <= n < 32 ->
  b32_lower (lower_char (b32_char n)) = true /\ Ascii.eqb (b32_char n) "=" = false.
Proof.
  intros Hn. assert (H : forallb (fun m => b32_lower (lower_char (b32_char (Z.of_nat m))) && negb (Ascii.eqb (b32_char (Z.of_nat m)) "=")) (seq 0 32) = true) by (vm_compute; done).
  rewrite forallb_forall in H. specialize (H (Z.to_nat n) ltac:(apply in_seq; lia)). rewrite Z2Nat.id in H by lia.
  apply andb_true_iff in H as [H1 H2]. by rewrite negb_true_iff in H2.
Qed.

Lemma b32_char_inj (n m : Z) : 0 <= n < 32 -> 0 <= m < 32 -> lower_char (b32_char n) = lower_char (b32_char m) -> n = m.
Proof.
  intros Hn Hm E.
  assert (H : forallb (fun p => forallb (fun q => implb (Ascii.eqb (lower_char (b32_char (Z.of_nat p))) (lower_char (b32_char (Z.of_nat q)))) (p =? q)%nat) (seq 0 32)) (seq 0 32) = true) by (vm_compute; done).
  rewrite forallb_forall in H. specialize (H (Z.to_nat n) ltac:(apply in_seq; lia)). rewrite forallb_forall in H.
  specialize (H (Z.to_nat m) ltac:(apply in_seq; lia)). rewrite !Z2Nat.id in H by lia. rewrite E, Ascii.eqb_refl in H. cbn in H.
  apply Nat.eqb_eq in H. lia.
Qed.

Lemma digits32_forall (p : ascii -> bool) (k : nat) (v : Z) (acc : string) :
  (forall n, 0 <= n < 32 -> p (b32_char n) = true) -> sforall p acc = true -> sforall p (digits32 k v acc) = true.
Proof.
  intros Hp. revert v acc. induction k as [|k IH]; intros v acc Hacc; cbn [digits32]; [done|]. apply IH. cbn [sforall].
  rewrite Hp by (apply Z.mod_pos_bound; lia). done.
Qed.

Lemma trim_right_none (c : ascii) (s : string) : sforall (fun x => negb (Ascii.eqb x c)) s = true -> trim_right c s = s.
Proof.
  induction s as [|x s IH]; cbn [sforall trim_right]; [done|]. intros [Hx Hs]%andb_true_iff. rewrite negb_true_iff in Hx.
  rewrite (IH Hs), Hx. by destruct s.
Qed.

Lemma smap_length (f : ascii -> ascii) (s : string) : String.length (smap f s) = String.length s.
Proof. induction s as [|c s IH]; cbn; congruence. Qed.

(** Digits of equal length, in lower case, determine the number and what follows. *)
Lemma digits32_inj (k : nat) (v w : Z) (s t : string) : 0 <= v < 32 ^ Z.of_nat k -> 0 <= w < 32 ^ Z.of_nat k ->
  to_lower (digits32 k v s) = to_lower (digits32 k w t) -> v = w /\ to_lower s = to_lower t.
Proof.
  revert v w s t. induction k as [|k IH]; intros v w s t Hv Hw E; cbn [digits32] in E.
  { change (32 ^ Z.of_nat 0) with 1 in *. split; [lia|done]. }
  rewrite Nat2Z.inj_succ, Z.pow_succ_r in Hv, Hw by lia.
  assert (Hdiv : forall u, 0 <= u < 32 * 32 ^ Z.of_nat k -> 0 <= u / 32 < 32 ^ Z.of_nat k).
  { intros u Hu. split; [apply Z.div_pos; lia|apply Z.div_lt_upper_bound; lia]. }
  destruct (IH _ _ _ _ (Hdiv v Hv) (Hdiv w Hw) E) as [Eq Et]. unfold to_lower in Et. cbn [smap] in Et.
  injection Et as Ec Et. apply b32_char_inj in Ec; [|apply Z.mod_pos_bound; lia..]. split; [|exact Et].
  rewrite (Z.div_mod v 32), (Z.div_mod w 32) by lia. congruence.
Qed.

Lemma word40_range (a b c d e : ascii) : 0 <= word40 (code a) (code b) (code c) (code d) (code e) < 32 ^ Z.of_nat 8.
Proof.
  unfold word40. pose proof (code_range a). pose proof (code_range b). pose proof (code_range c). pose proof (code_range d). pose proof (code_range e).
  change (32 ^ Z.of_nat 8) with 1099511627776. lia.
Qed.
Lemma byte_digit (v w x y : Z) : 0 <= x < 256 -> 0 <= y < 256 -> v * 256 + x = w * 256 + y -> v = w /\ x = y.
Proof. lia. Qed.
Lemma word40_inj (a b c d e a' b' c' d' e' : ascii) :
  word40 (code a) (code b) (code c) (code d) (code e) = word40 (code a') (code b') (code c') (code d') (code e') ->
  a = a' /\ b = b' /\ c = c' /\ d = d' /\ e = e'.
Proof.
  unfold word40. intros E. repeat (apply byte_digit in E as [E ?%code_inj]; [|apply code_range..]). apply code_inj in E. done.
Qed.

(** Ten bytes, as two groups of five. *)
Lemma ten_bytes (bs : string) : String.length bs = 10%nat ->
  exists a b c d e f g h i j, bs = String a (String b (String c (String d (String e (String f (String g (String h (String i (String j EmptyString))))))))).
Proof.
  intros H. do 10 (destruct bs as [|? bs]; [discriminate H|]). destruct bs; [|discriminate H]. by do 10 eexists.
Qed.

Lemma uniqueID_digits (bs : string) : sforall (fun x => negb (Ascii.eqb x "=")) (b32_encode bs) = true -> uniqueID bs = to_lower (b32_encode bs).
Proof. intros H. unfold uniqueID. by rewrite trim_right_none. Qed.

Lemma uniqueID_shape (bs : string) : String.length bs = 10%nat ->
  uniqueID bs = to_lower (b32_encode bs) /\ String.length (uniqueID bs) = 16%nat /\ sforall b32_lower (uniqueID bs) = true.
Proof.
  intros (a & b & c & d & e & f & g & h & i & j & ->)%ten_bytes.
  assert (Hno : sforall (fun x => negb (Ascii.eqb x "=")) (b32_encode (String a (String b (String c (String d (String e (String f (String g (String h (String i (String j EmptyString))))))))))) = true).
  { cbn [b32_encode]. repeat apply digits32_forall; [intros n Hn; by rewrite (proj2 (b32_digit n Hn))..|done]. }
  rewrite (uniqueID_digits _ Hno). split; [done|]. unfold to_lower. rewrite smap_length. cbn [b32_encode]. split; [by rewrite !digits32_length|].
  assert (Hmap : forall s, sforall (fun x => b32_lower (lower_char x)) s = true -> sforall b32_lower (smap lower_char s) = true).
  { intros s. induction s as [|x s IH]; cbn [sforall smap]; [done|]. intros [-> ?]%andb_true_iff. by apply IH. }
  apply Hmap. repeat apply digits32_forall; [intros n Hn; by apply b32_digit..|done].
Qed.

Lemma uniqueID_inj (x y : string) : String.length x = 10%nat -> String.length y = 10%nat -> uniqueID x = uniqueID y -> x = y.
Proof.
  intros Hx Hy. destruct (uniqueID_shape x Hx) as [-> _], (uniqueID_shape y Hy) as [-> _].
  apply ten_bytes in Hx as (a & b & c & d & e & f & g & h & i & j & ->). apply ten_bytes in Hy as (a' & b' & c' & d' & e' & f' & g' & h' & i' & j' & ->).
  cbn [b32_encode]. intros E. apply digits32_inj in E as [E1 E]; [|apply word40_range..]. apply digits32_inj in E as [E2 _]; [|apply word40_range..].
  apply word40_inj in E1 as (-> & -> & -> & -> & ->). by apply word40_inj in E2 as (-> & -> & -> & -> & ->).
Qed.

(** ** Claims *)

(** [Generate] makes at most ten attempts and returns the candidate of the first one whose read succeeds and
    that no row has, unless an earlier one failed outright; it fails for good only after ten taken
    candidates or with the error of an attempt. What it returns is the title's slug, a hyphen and sixteen
    characters a-z or 2-7, which differ whenever the random bytes do. *)
Theorem Generate_spec (make : string -> string) (read : nat -> error + string) (count : nat -> string -> error + Z) (title : string)
    (Hread : forall i bs, read i = inr bs -> String.length bs = 10%nat) :
  (forall s, Generate make read count true title = inr s <->
     exists k bs, (k < maxSlugAttempts)%nat /\ read k = inr bs /\ count k s = inr 0 /\
       s = make title +:+ "-" +:+ uniqueID bs /\ String.length (uniqueID bs) = 16%nat /\ sforall b32_lower (uniqueID bs) = true /\
       forall j, (j < k)%nat -> attempt make read count title j = None) /\
  (Generate make read count true title = inl (exhausted title) \/
   exists k, (k < maxSlugAttempts)%nat /\ attempt make read count title k = Some (Generate make read count true title) /\
     forall j, (j < k)%nat -> attempt make read count title j = None) /\
  (forall i j x y, read i = inr x -> read j = inr y -> candidate make title x = candidate make title y -> x = y).
Proof.
  destruct (attempts_first make read count maxSlugAttempts 0 title) as [(k & r & Hk & Hr & Ha & Hlt)|[Ha Hall]];
    cbn [Nat.add] in *; unfold Generate; rewrite Ha.
  2: { split_and!; [|by left|].
    - intros s. split; [done|]. intros (k & bs & Hk & Hrd & Hc & -> & _ & _ & _). exfalso. specialize (Hall k Hk).
      unfold attempt in Hall. rewrite Hrd in Hall. unfold candidate in Hall. by rewrite Hc in Hall.
    - intros i j x y Hx Hy E. apply (string_app_inj_l (make title)) in E. injection E as E. apply uniqueID_inj; eauto. }
  split_and!.
  - intros s. split.
    + intros ->. exists k. unfold attempt in Hr. destruct (read k) as [|bs] eqn:Ek; [done|]. destruct (count k _) as [|c] eqn:Ec; [done|].
      destruct (Z.eqb_spec c 0) as [->|]; [|done]. injection Hr as <-. exists bs. destruct (uniqueID_shape bs (Hread _ _ Ek)) as (_ & ? & ?).
      unfold candidate in *. by split_and!.
    + intros (k' & bs & Hk' & Hrd & Hc & -> & _ & _ & Hlt').
      assert (Hat : attempt make read count title k' = Some (inr (candidate make title bs))).
      { unfold attempt. rewrite Hrd. unfold candidate at 1. by rewrite Hc. }
      change (make title +:+ "-" +:+ uniqueID bs) with (candidate make title bs).
      destruct (Nat.lt_total k k') as [Hl|[<-|Hl]]; [rewrite (Hlt' k Hl) in Hr; done|congruence|rewrite (Hlt k' Hl) in Hat; done].
  - right. by exists k.
  - intros i j x y Hx Hy E. apply (string_app_inj_l (make title)) in E. injection E as E. apply uniqueID_inj; eauto.
Qed.

Definition sample_read (i : nat) : error + string := inr (take_string 10 (String (chr (Z.of_nat i)) "fibrfibr!")).
Definition sample_count (i : nat) (_ : string) : error + Z := inr (if (i =? 0)%nat then 1 else 0).

Lemma Generate_spec_witness :
  (forall i bs, sample_read i = inr bs -> String.length bs = 10%nat) /\
  Generate (fun t => t) sample_read sample_count true "post" = inr ("post-" +:+ uniqueID (String (chr 1) "fibrfibr!")).
Proof.
  assert (H : forall i bs, sample_read i = inr bs -> String.length bs = 10%nat) by (intros i bs [= <-]; reflexivity).
  split; [exact H|]. destruct (Generate_spec (fun t => t) sample_read sample_count "post" H) as [Hs _]. apply Hs.
  exists 1%nat, (String (chr 1) "fibrfibr!"). split_and!; [unfold maxSlugAttempts; lia|reflexivity..|].
  intros [|j] Hj; [reflexivity|lia].
Defined.

Example unique_id_text : uniqueID "fibrrocks!" = "mzuwe4tsn5rww4zb"%string /\ b32_encode "fibr" = "MZUWE4Q="%string.
Proof. vm_compute. done. Qed.
