(* ===== verification/AuditLog.v ===== *)
(** * The audit trail (audit/audit.go, audit/bun.go)

    Entries go through a sink; bun's sink inserts them into a table, which is an interface: the rows in
    the order of their ids, inserts that may fail on the way, and queries as bun builds them. *)

From S2P Require Import Prelude Fiber Bootstrap.
Open Scope Z_scope.

(** [CreatedAt] is [None] for the zero time. *)
Record Entry := MkEntry {
  ID : Z; Actor : string; Action : string; Target : string; TargetID : string; Metadata : claims; IP : string; RequestID : string;
  CreatedAt : option Z }.

Definition with_id (id : Z) (e : Entry) : Entry :=
  MkEntry id (Actor e) (Action e) (Target e) (TargetID e) (Metadata e) (IP e) (RequestID e) (CreatedAt e).
Definition with_created (t : Z) (e : Entry) : Entry :=
  MkEntry (ID e) (Actor e) (Action e) (Target e) (TargetID e) (Metadata e) (IP e) (RequestID e) (Some t).

(** ** The table *)

Record query := Query { q_where : list (string * string); q_order : string; q_limit : Z }.

(** The text columns. *)
Definition column (c : string) (e : Entry) : option string :=
  if String.eqb c "actor" then Some (Actor e) else if String.eqb c "action" then Some (Action e)
  else if String.eqb c "target" then Some (Target e) else if String.eqb c "target_id" then Some (TargetID e)
  else if String.eqb c "ip" then Some (IP e) else if String.eqb c "request_id" then Some (RequestID e) else None.
Definition satisfies (e : Entry) (cv : string * string) : bool := match column cv.1 e with Some v => String.eqb v cv.2 | None => false end.
Definition all_of (ws : list (string * string)) (e : Entry) : bool := forallb (satisfies e) ws.

Class AuditDB (D : Type) := {
  (** whether the table is there, and its rows in ascending order of id *)
  ready : D -> bool;
  rows : D -> list Entry;
  create_table : D -> (error + unit) * D;
  create_index : list string -> D -> (error + unit) * D;
  insert : Entry -> D -> (error + unit) * D;
  select : query -> D -> (error + list Entry) * D }.

Class AuditLaws (D : Type) `{AuditDB D} := {
  create_ok d : (create_table d).1 = inr tt /\ ready (create_table d).2 = true /\ rows (create_table d).2 = rows d;
  index_ok d cols : ready d = true ->
    (create_index cols d).1 = inr tt /\ ready (create_index cols d).2 = true /\ rows (create_index cols d).2 = rows d;
  (** a row without an id is given the next one *)
  insert_ok d e : ready d = true -> ID e = 0 -> exists id,
    (insert e d).1 = inr tt /\ ready (insert e d).2 = true /\ rows (insert e d).2 = rows d ++ [with_id id e];
  insert_err d e : ready d = false -> exists err, insert e d = (inl err, d);
  select_desc d ws n : ready d = true -> 0 < n ->
    select (Query ws "id DESC" n) d = (inr (take (Z.to_nat n) (reverse (filter (fun e => all_of ws e = true) (rows d)))), d) }.

(** ** audit.go *)

(** [Sink]: a recorder works with any. *)
Class Sink (S : Type) := record_entry : net -> Entry -> S -> option error * S.

(** [C] is what the program has as a request's context, with [base] the part of it that [GetRequestID] reads. *)
Record Recorder {C : Type} := MkRecorder { actor : option (C -> string) }.
Arguments Recorder C : clear implicits.
Arguments MkRecorder {C} actor.
Definition WithActor {C} (fn : C -> string) (_ : Recorder C) : Recorder C := MkRecorder (Some fn).
Definition New {C} (opts : list (Recorder C -> Recorder C)) : Recorder C := fold_left (fun r o => o r) opts (MkRecorder None).

(** [now] is the clock when the entry has no time yet. *)
Definition stamp (now : Z) (e : Entry) : Entry := match CreatedAt e with None => with_created now e | Some _ => e end.
Definition Record_ {S} `{Sink S} (n : net) (now : Z) (e : Entry) (s : S) : option error * S := record_entry n (stamp now e) s.

Definition FromRequest {C} (base : C -> cx) (c_IP : C -> string) (r : Recorder C) (c : C) : Entry :=
  MkEntry 0 (match actor r with Some f => f c | None => "" end) "" "" "" ∅ (c_IP c) (GetRequestID (base c)) None.

(** ** bun.go *)

Section Bun.
  Context {D : Type} `{AuditDB D}.

#[export] Instance bunSink : Sink D := fun n e d =>
  match remote n (insert e) d with
  | (inl err, d) => (Some (Wrap "audit: insert entry: " [err]), d)
  | (inr _, d) => (None, d)
  end.

Definition Migrate (n1 n2 : net) (d : D) : option error * D :=
  match remote n1 create_table d with
  | (inl err, d) => (Some (Wrap "audit: create table: " [err]), d)
  | (inr _, d) =>
      match remote n2 (create_index ["actor"; "created_at"]%string) d with
      | (inl err, d) => (Some (Wrap "audit: create index: " [err]), d)
      | (inr _, d) => (None, d)
      end
  end.

Record Filter := MkFilter { f_Actor : string; f_Action : string; f_Target : string; Limit : Z }.
Definition defaultListLimit : Z := 100.
Definition limit_of (f : Filter) : Z := if Limit f <=? 0 then defaultListLimit else Limit f.

Definition wheres (f : Filter) : list (string * string) :=
  (if String.eqb (f_Actor f) "" then [] else [("actor"%string, f_Actor f)]) ++
  (if String.eqb (f_Action f) "" then [] else [("action"%string, f_Action f)]) ++
  (if String.eqb (f_Target f) "" then [] else [("target"%string, f_Target f)]).

Definition List_ (n : net) (f : Filter) (d : D) : (error + list Entry) * D :=
  match remote n (select (Query (wheres f) "id DESC" (limit_of f))) d with
  | (inl err, d) => (inl (Wrap "audit: list entries: " [err]), d)
  | (inr entries, d) => (inr entries, d)
  end.

(** Entries recorded one after the other, each with the fate of its call and the clock. *)
Fixpoint record_all (es : list (net * Z * Entry)) (d : D) : list (option error) * D :=
  match es with
  | [] => ([], d)
  | (n, now, e) :: es =>
      let '(r, d) := Record_ n now e d in let '(rs, d) := record_all es d in (r :: rs, d)
  end.
End Bun.

(** ** What a filter asks for *)

Definition matches (f : Filter) (e : Entry) : bool :=
  (String.eqb (f_Actor f) "" || String.eqb (Actor e) (f_Actor f)) && (String.eqb (f_Action f) "" || String.eqb (Action e) (f_Action f)) &&
  (String.eqb (f_Target f) "" || String.eqb (Target e) (f_Target f)).

Definition forget (e : Entry) : Entry := with_id 0 e.

(** What reached the table of what was recorded. *)
Definition reached (x : net * Z * Entry) : option Entry :=
  let '(n, now, e) := x in match n with LostRequest _ => None | _ => Some (stamp now e) end.

Lemma wheres_matches (f : Filter) (e : Entry) : all_of (wheres f) e = matches f e.
Proof.
  unfold all_of, wheres, matches. rewrite !forallb_app. 
  destruct (String.eqb (f_Actor f) ""), (String.eqb (f_Action f) ""), (String.eqb (f_Target f) ""); cbn; rewrite ?andb_true_r; done || by rewrite ?andb_assoc.
Qed.

Lemma stamp_id (now : Z) (e : Entry) : ID (stamp now e) = ID e /\ is_Some (CreatedAt (stamp now e)).
Proof. unfold stamp. destruct (CreatedAt e) eqn:E; [by rewrite E|done]. Qed.

Lemma forget_with_id (id : Z) (e : Entry) : ID e = 0 -> forget (with_id id e) = e.
Proof. intros E. destruct e. cbn in *. by subst. Qed.

Lemma matches_forget (f : Filter) (e : Entry) : matches f (forget e) = matches f e.
Proof. done. Qed.

Section Facts.
  Context {D : Type} `{HD : AuditDB D, HL : !AuditLaws D}.

Lemma Record_rows (n : net) (now : Z) (e : Entry) (d : D) : ready d = true -> ID e = 0 ->
  let '(r, d') := Record_ n now e d in
  (r = None <-> n = NetOk) /\ ready d' = true /\ map forget (rows d') = map forget (rows d) ++ match reached (n, now, e) with Some e => [e] | None => [] end.
Proof.
  intros Hr Hid. destruct (stamp_id now e) as [Hs _]. rewrite Hid in Hs. destruct (insert_ok d (stamp now e) Hr Hs) as (id & H1 & H2 & H3).
  unfold Record_, record_entry, bunSink, remote. assert (Hf : map forget (rows (insert (stamp now e) d).2) = map forget (rows d) ++ [stamp now e])
    by (rewrite H3, map_app; cbn; by rewrite forget_with_id).
  destruct n; cbn [call reached].
  - destruct (insert (stamp now e) d) as [r d']. cbn in *. by subst r.
  - split_and!; [done|done|]. by rewrite app_nil_r.
  - by split_and!.
Qed.

Lemma record_all_rows (es : list (net * Z * Entry)) (d : D) : ready d = true -> Forall (fun x => ID x.2 = 0) es ->
  let '(rs, d') := record_all es d in
  Forall2 (fun x r => r = None <-> x.1.1 = NetOk) es rs /\ ready d' = true /\ map forget (rows d') = map forget (rows d) ++ omap reached es.
Proof.
  intros Hr Hes. revert d Hr. induction Hes as [|[[n now] e] es He Hes IH]; intros d Hr; cbn [record_all].
  { split_and!; [constructor|done|]. by rewrite app_nil_r. }
  pose proof (Record_rows n now e d Hr He) as H. destruct (Record_ n now e d) as [r d1]. destruct H as (H1 & H2 & H3).
  specialize (IH d1 H2). destruct (record_all es d1) as [rs d2]. destruct IH as (I1 & I2 & I3). split_and!; [by constructor|done|].
  rewrite I3, H3, <- app_assoc. csimpl. by destruct n.
Qed.

Lemma Migrate_ready (d : D) : (Migrate NetOk NetOk d).1 = None /\ ready (Migrate NetOk NetOk d).2 = true /\ rows (Migrate NetOk NetOk d).2 = rows d.
Proof.
  unfold Migrate, remote. cbn [call]. destruct (create_ok d) as (H1 & H2 & H3). destruct (create_table d) as [r d1]. cbn in *. subst r.
  destruct (index_ok d1 ["actor"; "created_at"]%string H2) as (H4 & H5 & H6). destruct (create_index _ d1) as [r d2]. cbn in *. subst r.
  split_and!; [done|done|cbn; congruence].
Qed.

Lemma filter_forget (f : Filter) (l : list Entry) : map forget (filter (fun e => all_of (wheres f) e = true) l) = filter (fun e => matches f e = true) (map forget l).
Proof.
  induction l as [|e l IH]; [done|]. cbn [map]. rewrite !filter_cons, wheres_matches, matches_forget. by destruct (decide _); cbn [map]; rewrite IH.
Qed.

Lemma List_rows (f : Filter) (d : D) : ready d = true -> exists l, List_ NetOk f d = (inr l, d) /\
  map forget l = take (Z.to_nat (limit_of f)) (reverse (filter (fun e => matches f e = true) (map forget (rows d)))).
Proof.
  intros Hr. assert (Hlim : 0 < limit_of f) by (unfold limit_of, defaultListLimit; destruct (Z.leb_spec (Limit f) 0); lia).
  unfold List_, remote. cbn [call]. rewrite (select_desc d (wheres f) (limit_of f) Hr Hlim). eexists. split; [reflexivity|].
  rewrite <- filter_forget. change (map forget) with (fmap (M := list) forget). by rewrite fmap_take, fmap_reverse.
Qed.
End Facts.

(** ** A table in memory *)

Module Mem.
Record table := Table { there : bool; next_id : Z; stored : list Entry }.

#[export] Instance mem_audit : AuditDB table := {
  ready := there;
  rows := stored;
  create_table t := (inr tt, Table true (next_id t) (stored t));
  create_index _ t := (inr tt, t);
  insert e t := if there t then (inr tt, Table true (next_id t + 1) (stored t ++ [with_id (next_id t) e])) else (inl (Err "no such table: audit_log"), t);
  select q t :=
    if there t then (inr (take (Z.to_nat (q_limit q)) (reverse (filter (fun e => all_of (q_where q) e = true) (stored t)))), t)
    else (inl (Err "no such table: audit_log"), t) }.

#[export] Instance mem_audit_laws : AuditLaws table.
Proof.
  split; cbn; try done.
  - intros d e Hr _. rewrite Hr. by exists (next_id d).
  - intros d e Hr. rewrite Hr. by eexists.
  - intros d ws n Hr _. by rewrite Hr.
Qed.
End Mem.
Import (hints) Mem.

(** ** Claims *)

(** After a migration, whatever is recorded and whatever calls fail: [Record] returns nil exactly when its call
    went through, and [List] returns, newest first and no more than the limit (or a hundred), exactly the
    entries that reached the table and match every field of the filter that is set, each as recorded and
    with its time set. *)
Theorem List_newest {D : Type} `{HD : AuditDB D, HL : !AuditLaws D} (d : D) (es : list (net * Z * Entry)) (f : Filter)
    (Hes : Forall (fun x => ID x.2 = 0) es) :
  let '(rs, d') := record_all es (Migrate NetOk NetOk d).2 in
  Forall2 (fun x r => r = None <-> x.1.1 = NetOk) es rs /\
  (exists l, List_ NetOk f d' = (inr l, d') /\
     map forget l = take (Z.to_nat (limit_of f)) (reverse (filter (fun e => matches f e = true) (map forget (rows d) ++ omap reached es)))) /\
  Forall (fun e => is_Some (CreatedAt e)) (omap reached es).
Proof.
  destruct (Migrate_ready d) as (_ & Hr & Hrows). pose proof (record_all_rows es _ Hr Hes) as H.
  destruct (record_all es (Migrate NetOk NetOk d).2) as [rs d']. destruct H as (H1 & H2 & H3). split_and!; [done| |].
  - rewrite <- Hrows, <- H3. by apply List_rows.
  - clear. apply Forall_forall. intros e He. apply list_elem_of_omap in He as ([[n now] e'] & _ & He). unfold reached in He.
    destruct n; try done; injection He as <-; apply stamp_id.
Qed.

Definition entry_of (who what : string) : Entry := MkEntry 0 who what "" "" ∅ "" "" None.
Definition sample_records : list (net * Z * Entry) :=
  [(NetOk, 10, entry_of "u1" "login"); (LostReply (Err "timeout"), 11, entry_of "u2" "login"); (LostRequest (Err "timeout"), 12, entry_of "u1" "login");
   (NetOk, 13, entry_of "u1" "logout")].
Definition empty_table : Mem.table := Mem.Table false 1 [].

Lemma List_newest_witness : Forall (fun x => ID x.2 = 0) sample_records /\
  exists l d', List_ NetOk (MkFilter "u1" "" "" 0) d' = (inr l, d') /\ map Action l = ["logout"; "login"]%string /\ map CreatedAt l = [Some 13; Some 10].
Proof.
  assert (H : Forall (fun x => ID x.2 = 0) sample_records) by (repeat constructor).
  split; [exact H|]. pose proof (List_newest empty_table sample_records (MkFilter "u1" "" "" 0) H) as Hl.
  destruct (record_all sample_records _) as [rs d']. destruct Hl as (_ & (l & Hl & Em) & _). exists l, d'. split; [exact Hl|].
  assert (Ha : map Action l = map Action (map forget l)) by (rewrite map_map; reflexivity).
  assert (Hc : map CreatedAt l = map CreatedAt (map forget l)) by (rewrite map_map; reflexivity).
  rewrite Ha, Hc, Em. vm_compute. split; reflexivity.
Defined.

(** An entry made in a request that passed [ContextMiddleware] carries the id sent back to the client. *)
Lemma FromRequest_id (c_IP : cx -> string) (r : Recorder cx) (next : Bootstrap.handler) (c : cx) : requestid c <> Some ""%string ->
  exists c1 rid, ContextMiddleware next c = next c1 /\ RequestID (FromRequest (fun c => c) c_IP r c1) = rid /\ In ("X-Request-ID"%string, rid) (response_headers c1).
Proof.
  intros Hne. unfold ContextMiddleware, FromRequest, GetRequestID. cbn [RequestID].
  destruct (requestid c) as [rid|] eqn:E; [|by eexists _, _; split_and!; [reflexivity|reflexivity|left]].
  destruct (String.eqb_spec rid "") as [->|_]; [done|]. eexists _, rid. split_and!; [reflexivity|cbn [set_header requestid]; by rewrite E|by left].
Qed.

(** ** What modelling showed *)

(** "Newest first" is the order of insertion: an entry recorded with an earlier time of its own comes first. *)
Example newest_is_last_inserted :
  let '(_, d) := record_all [(NetOk, 20, entry_of "u" "now"); (NetOk, 21, with_created 3 (entry_of "u" "backdated"))] (Mem.Table true 1 []) in
  exists l, (List_ NetOk (MkFilter "" "" "" 1) d).1 = inr l /\ map CreatedAt l = [Some 3].
Proof. eexists. vm_compute. split; reflexivity. Qed.
