(* ===== verification/Jobs.v ===== *)
(** * Background jobs (jobs/jobs.go, jobs/options.go, jobs/scheduler.go)

    A typed wrapper of asynq, which is an interface: a client that puts tasks on queues, a mux that
    routes a task to a handler by its type name, a scheduler with its entries. Payloads travel as the
    JSON of a value of one type and are read back as a value of another. *)

From S2P Require Import Prelude GoStrings Fiber GoJson RedisClient.
Open Scope Z_scope.

Record Task := NewTask { typename : string; task_payload : string }.

(** ** asynq *)

(** [W] is the state handlers act on. *)
Class Asynq (W Opt Conn Queue Mux Sched Info : Type) := {
  ParseRedisURI : string -> error + Conn;
  MaxRetry : Z -> Opt; QueueOpt : string -> Opt; ProcessIn : Z -> Opt; Deadline : Z -> Opt;
  (** the tasks put on the queues, with their options *)
  tasks : Queue -> list (Task * list Opt);
  enqueue : Task -> list Opt -> Queue -> (error + Info) * Queue;
  NewServeMux : Mux;
  (** registering a pattern twice panics *)
  handle_func : string -> (Task -> W -> option error * W) -> Mux -> option Mux;
  route : Mux -> Task -> W -> option error * W;
  entries : Sched -> list (string * (string * Task * list Opt));
  sched_register : string -> Task -> list Opt -> Sched -> (error + string) * Sched;
  sched_unregister : string -> Sched -> (error + unit) * Sched }.

Definition SkipRetry : string := "skip retry for the task".

Class AsynqLaws (W Opt Conn Queue Mux Sched Info : Type) `{Asynq W Opt Conn Queue Mux Sched Info} := {
  enqueue_ok t opts (q : Queue) info q' : enqueue t opts q = (inr info, q') -> tasks q' = tasks q ++ [(t, opts)];
  enqueue_err t opts (q : Queue) err q' : enqueue t opts q = (inl err, q') -> tasks q' = tasks q;
  (** the exact type name goes before the patterns that are prefixes of it *)
  route_exact name h m m' payload w : handle_func name h m = Some m' -> route m' (NewTask name payload) w = h (NewTask name payload) w;
  route_other name h m m' t w : handle_func name h m = Some m' -> has_prefix name (typename t) = false -> route m' t w = route m t w;
  register_ok spec t opts (s : Sched) id s' : sched_register spec t opts s = (inr id, s') -> entries s' = entries s ++ [(id, (spec, t, opts))];
  unregister_ok id (s : Sched) s' : sched_unregister id s = (inr tt, s') -> entries s' = filter (fun e => e.1 ≠ id) (entries s) }.

Section Jobs.
  Context {W Opt Conn Queue Mux Sched Info : Type} `{HA : Asynq W Opt Conn Queue Mux Sched Info}.

Definition RedisConnOpt (redisURL : string) : error + Conn :=
  match ParseRedisURI redisURL with inl err => inl (Wrap "jobs: invalid redis url: " [err]) | inr opt => inr opt end.

(** ** options.go *)

Definition WithRetry (n : Z) : Opt := MaxRetry n.
Definition WithPriority (queue : string) : Opt := QueueOpt queue.
Definition WithProcessIn (d : Z) : Opt := ProcessIn d.
Definition WithDeadline (t : Z) : Opt := Deadline t.

(** ** jobs.go *)

Definition encode_payload {V} `{Codec V} (name : string) (payload : V) : error + string :=
  match Marshal payload with inl err => inl (Wrap ("jobs: encode " +:+ name +:+ " payload: ") [err]) | inr b => inr b end.

Definition Enqueue {V} `{Codec V} (n : net) (name : string) (payload : V) (opts : list Opt) (q : Queue) : (error + Info) * Queue :=
  match encode_payload name payload with
  | inl err => (inl err, q)
  | inr b => remote n (enqueue (NewTask name b) opts) q
  end.

(** The handler [Handle] registers: the payload is decoded first, and what does not decode is not retried. *)
Definition typed_handler {T} `{Codec T} (name : string) (fn : T -> W -> option error * W) (t : Task) (w : W) : option error * W :=
  match Unmarshal (task_payload t) with
  | None => (Some (Wrap ("jobs: decode " +:+ name +:+ " payload: ") [Err SkipRetry]), w)
  | Some p => fn p w
  end.
Definition Handle {T} `{Codec T} (m : Mux) (name : string) (fn : T -> W -> option error * W) : option Mux := handle_func name (typed_handler name fn) m.

Definition ProcessTask (m : Mux) (t : Task) (w : W) : option error * W := route m t w.

(** ** scheduler.go *)

(** The time zone entries are read in; none is UTC. *)
Definition SchedulerOpts : Type := option string.
Definition WithLocation (loc : option string) (_ : SchedulerOpts) : SchedulerOpts := loc.
Definition NewScheduler (make : SchedulerOpts -> Sched) (opts : list (SchedulerOpts -> SchedulerOpts)) : Sched :=
  make (fold_left (fun o fn => fn o) opts None).

Definition Register {V} `{Codec V} (n : net) (cronspec name : string) (payload : V) (opts : list Opt) (s : Sched) : (error + string) * Sched :=
  match encode_payload name payload with
  | inl err => (inl err, s)
  | inr b => remote n (sched_register cronspec (NewTask name b) opts) s
  end.
Definition Unregister (n : net) (entryID : string) (s : Sched) : (error + unit) * Sched := remote n (sched_unregister entryID) s.

(** The worker, as far as asynq promises it: a queued task is routed by the server's mux. *)
Definition work (m : Mux) (t : Task * list Opt) (w : W) : option error * W := ProcessTask m t.1 w.
End Jobs.

(** ** Claims *)

Section Claims.
  Context {W Opt Conn Queue Mux Sched Info V T : Type} `{HA : Asynq W Opt Conn Queue Mux Sched Info, HL : !AsynqLaws W Opt Conn Queue Mux Sched Info}
    `{HV : Codec V, HT : Codec T}.

(** A job enqueued with an encodable payload reaches the function handled under its type name, once, as
    the value its JSON decodes to, and the function's error is the task's; a payload that does not
    decode never reaches it, and the error is one asynq does not retry. *)
Lemma job_delivered (n : net) (name : string) (v : V) (b : string) (opts : list Opt) (q : Queue) (info : Info) (q' : Queue)
    (fn : T -> W -> option error * W) (m m' : Mux) (w : W)
    (Hb : Marshal v = inr b) (He : Enqueue n name v opts q = (inr info, q')) (Hm : Handle m name fn = Some m') :
  exists t, tasks q' = tasks q ++ [(t, opts)] /\ typename t = name /\
    match Unmarshal (V := T) b with
    | Some p => work m' (t, opts) w = fn p w
    | None => exists err, work m' (t, opts) w = (Some err, w) /\ errors_is err SkipRetry = true
    end.
Proof.
  unfold Enqueue, encode_payload in He. rewrite Hb in He. exists (NewTask name b). split_and!; [|done|].
  - destruct (remote_cases n (enqueue (NewTask name b) opts) q) as [[e E]|[[e E]|[_ E]]]; rewrite E in He; try done. by apply enqueue_ok in He.
  - unfold work, ProcessTask. cbn [fst]. rewrite (route_exact _ _ _ _ b w Hm). unfold typed_handler. cbn [task_payload].
    destruct (Unmarshal b) as [p|]; [done|]. eexists. split; [done|]. cbn. done.
Qed.

(** A scheduled task is what the client would have enqueued, and unregistering its id removes it. *)
Lemma Register_Unregister (n n' : net) (spec name : string) (v : V) (opts : list Opt) (s s' s'' : Sched) (id : string)
    (Hr : Register n spec name v opts s = (inr id, s')) (Hu : Unregister n' id s' = (inr tt, s'')) :
  (exists b, Marshal v = inr b /\ entries s' = entries s ++ [(id, (spec, NewTask name b, opts))]) /\ entries s'' = filter (fun e => e.1 ≠ id) (entries s).
Proof.
  unfold Register, encode_payload in Hr. destruct (Marshal v) as [|b] eqn:Hb; [done|].
  destruct (remote_cases n (sched_register spec (NewTask name b) opts) s) as [[e E]|[[e E]|[_ E]]]; rewrite E in Hr; try done. apply register_ok in Hr.
  unfold Unregister in Hu. destruct (remote_cases n' (sched_unregister id) s') as [[e E']|[[e E']|[_ E']]]; rewrite E' in Hu; try done. apply unregister_ok in Hu.
  split; [by exists b|]. rewrite Hu, Hr, filter_app, filter_cons. cbn [fst]. rewrite decide_False by tauto. by rewrite filter_nil, app_nil_r.
Qed.
End Claims.

(** ** asynq in memory *)

Module Mem.
Definition world : Type := list any.
Inductive opt := OMaxRetry (n : Z) | OQueue (q : string) | OProcessIn (d : Z) | ODeadline (t : Z).
Definition handler : Type := Task -> world -> option error * world.

#[export] Instance mem_asynq : Asynq world opt string (list (Task * list opt)) (list (string * handler)) (list (string * (string * Task * list opt))) string := {
  ParseRedisURI u := if has_prefix "redis://" u then inr u else inl (Err "asynq: unsupported uri scheme");
  MaxRetry := OMaxRetry; QueueOpt := OQueue; ProcessIn := OProcessIn; Deadline := ODeadline;
  tasks q := q;
  enqueue t opts q := (inr (typename t), q ++ [(t, opts)]);
  NewServeMux := [];
  handle_func name h m := if bool_decide (name ∈ map fst m) then None else Some ((name, h) :: m);
  route m t w :=
    match find (fun e => String.eqb e.1 (typename t)) m with
    | Some (_, h) => h t w
    | None => (Some (Err "handler not found for task"), w)
    end;
  entries s := s;
  sched_register spec t opts s := (inr (typename t), s ++ [(typename t, (spec, t, opts))]);
  sched_unregister id s := (inr tt, filter (fun e => e.1 ≠ id) s) }.

#[export] Instance mem_asynq_laws : AsynqLaws world opt string (list (Task * list opt)) (list (string * handler)) (list (string * (string * Task * list opt))) string.
Proof.
  split; cbn.
  - by intros t opts q info q' [= _ <-].
  - done.
  - intros name h m m' payload w. destruct (bool_decide _); [done|]. intros [= <-]. cbn. by rewrite String.eqb_refl.
  - intros name h m m' t w. destruct (bool_decide _); [done|]. intros [= <-] Hp. cbn.
    destruct (String.eqb_spec name (typename t)) as [->|]; [|done]. pose proof (has_prefix_app (typename t) EmptyString) as Hself. rewrite string_app_nil_r in Hself. congruence.
  - by intros spec t opts s id s' [= <- <-].
  - by intros id s s' [= <-].
Qed.
End Mem.
Import (hints) Mem.

Definition store_arg (p : any) (w : Mem.world) : option error * Mem.world := (None, w ++ [p]).

Example sample_job :
  exists q m, Enqueue (W := Mem.world) NetOk "email" (AList [AStr "a@b.c"]) [WithRetry (W := Mem.world) 3] [] = (inr "email"%string, q) /\
    Handle (T := any) [] "email" store_arg = Some m /\
    map (fun t => work m t []) q = [(None, [AList [AStr "a@b.c"]])] /\
    errors_is (default (Err "") (ProcessTask m (NewTask "email" "{") []).1) SkipRetry = true.
Proof. eexists _, _. split_and!; reflexivity. Qed.
