(* ===== verification/Mailer.v ===== *)
(** * Sending mail (mailer/mailer.go)

    Messages go through a sender: SMTP, the log, or memory. go-mail's message is an interface with the
    laws of its documentation (a body replaces the parts, an alternative is added behind them); the
    template engines are functions from a source to a template and from data to text. *)

From S2P Require Import Prelude GoStrings Fiber.
Open Scope Z_scope.

Record Message := MkMessage { To : list string; Subject : string; HTML : string; Text : string }.
Record SMTPConfig := MkSMTPConfig { Host : string; Port : Z; Username : string; Password : string; From : string }.

(** ** go-mail *)

Definition TypeTextPlain : string := "text/plain".
Definition TypeTextHTML : string := "text/html".

Class Mail (Msg Client W : Type) := {
  NewMsg : Msg;
  set_from : string -> Msg -> error + Msg;
  set_to : list string -> Msg -> error + Msg;
  set_subject : string -> Msg -> Msg;
  SetBodyString : string -> string -> Msg -> Msg;
  AddAlternativeString : string -> string -> Msg -> Msg;
  (** [mail.NewClient] with the options given *)
  NewClient : string -> list (string * string) -> error + Client;
  DialAndSend : Client -> Msg -> W -> option error * W;
  from_of : Msg -> string; to_of : Msg -> list string; subject_of : Msg -> string;
  parts : Msg -> list (string * string) }.

Class MailLaws (Msg Client W : Type) `{Mail Msg Client W} := {
  from_ok a m m' : set_from a m = inr m' -> from_of m' = a /\ to_of m' = to_of m /\ subject_of m' = subject_of m /\ parts m' = parts m;
  to_ok l m m' : set_to l m = inr m' -> from_of m' = from_of m /\ to_of m' = l /\ subject_of m' = subject_of m /\ parts m' = parts m;
  subject_ok s m : let m' := set_subject s m in from_of m' = from_of m /\ to_of m' = to_of m /\ subject_of m' = s /\ parts m' = parts m;
  body_ok t b m : let m' := SetBodyString t b m in from_of m' = from_of m /\ to_of m' = to_of m /\ subject_of m' = subject_of m /\ parts m' = [(t, b)];
  alt_ok t b m : let m' := AddAlternativeString t b m in
    from_of m' = from_of m /\ to_of m' = to_of m /\ subject_of m' = subject_of m /\ parts m' = parts m ++ [(t, b)] }.

Section Mailer.
  Context {Msg Client W : Type} `{HM : Mail Msg Client W}.

(** ** SMTP *)

Record SMTPSender := MkSMTP { cfg : SMTPConfig; client : Client }.

Definition smtp_options (cfg : SMTPConfig) : list (string * string) :=
  app (A := string * string) [("port", itoa (Port cfg)); ("tls", "opportunistic")]%string
    (if String.eqb (Username cfg) "" then [] else [("auth", "PLAIN"); ("username", Username cfg); ("password", Password cfg)]%string).

(** A nil pointer and an error, or a sender. *)
Definition NewSMTP (cfg : SMTPConfig) : option SMTPSender * option error :=
  match NewClient (Host cfg) (smtp_options cfg) with
  | inl err => (None, Some (Wrap "mailer: smtp client: " [err]))
  | inr c => (Some (MkSMTP cfg c), None)
  end.

Definition with_body (msg : Message) (m : Msg) : Msg :=
  if negb (String.eqb (Text msg) "") && negb (String.eqb (HTML msg) "") then
    AddAlternativeString TypeTextHTML (HTML msg) (SetBodyString TypeTextPlain (Text msg) m)
  else if negb (String.eqb (HTML msg) "") then SetBodyString TypeTextHTML (HTML msg) m
  else SetBodyString TypeTextPlain (Text msg) m.

Definition smtp_Send (s : SMTPSender) (msg : Message) (w : W) : option error * W :=
  match set_from (From (cfg s)) NewMsg with
  | inl err => (Some (Wrap "mailer: from: " [err]), w)
  | inr m =>
      match set_to (To msg) m with
      | inl err => (Some (Wrap "mailer: to: " [err]), w)
      | inr m => DialAndSend (client s) (with_body msg (set_subject (Subject msg) m)) w
      end
  end.

(** ** The other senders *)

(** What [LogSender] writes: the recipients and the subject. *)
Definition log_Send (msg : Message) (log : list (list string * string)) : option error * list (list string * string) :=
  (None, log ++ [(To msg, Subject msg)]).

Record MemorySender := MkMemory { sent : list Message }.
Definition memory_Send (msg : Message) (s : MemorySender) : option error * MemorySender := (None, MkMemory (sent s ++ [msg])).
Definition Messages (s : MemorySender) : list Message := sent s.

(** ** New *)

(** A value of the interface [Sender]; an interface holding a nil pointer is not nil. *)
Inductive Sender := SLog | SSMTP (p : option SMTPSender).
Definition New (cfg : SMTPConfig) : option Sender * option error :=
  if String.eqb (Host cfg) "" then (Some SLog, None)
  else let '(p, err) := NewSMTP cfg in (Some (SSMTP p), err).
End Mailer.

(** ** Render *)

Section Render.
  Context {Html Txt : Type} (parse_html : string -> error + Html) (exec_html : Html -> any -> error + string)
    (parse_text : string -> error + Txt) (exec_text : Txt -> any -> error + string).

Definition Render (htmlSrc textSrc : string) (data : any) : error + string * string :=
  match parse_html htmlSrc with
  | inl err => inl (Wrap "mailer: parse html: " [err])
  | inr ht =>
      match exec_html ht data with
      | inl err => inl (Wrap "mailer: exec html: " [err])
      | inr html =>
          match parse_text textSrc with
          | inl err => inl (Wrap "mailer: parse text: " [err])
          | inr tmpl =>
              match exec_text tmpl data with
              | inl err => inl (Wrap "mailer: exec text: " [err])
              | inr text => inr (html, text)
              end
          end
      end
  end.

Lemma Render_spec (h t : string) (data : any) (bodies : string * string) : Render h t data = inr bodies <->
  exists ht tt, parse_html h = inr ht /\ exec_html ht data = inr bodies.1 /\ parse_text t = inr tt /\ exec_text tt data = inr bodies.2.
Proof.
  unfold Render. destruct (parse_html h) as [|ht]; [split; [done|intros (? & ? & ? & ? & ? & ?); congruence]|]. destruct (exec_html ht data) as [|b1] eqn:E1; [split; [done|intros (? & ? & ? & ? & ? & ?); congruence]|].
  destruct (parse_text t) as [|tt]; [split; [done|intros (? & ? & ? & ? & ? & ?); congruence]|]. destruct (exec_text tt data) as [|b2] eqn:E2; [split; [done|intros (? & ? & ? & ? & ? & ?); congruence]|].
  destruct bodies as [c1 c2]. cbn. split; [intros [= <- <-]; by exists ht, tt|]. intros (? & ? & [= <-] & ? & [= <-] & ?). congruence.
Qed.
End Render.

(** ** What is sent *)

(** The parts of a message: the plain text first and the HTML as its alternative; an empty HTML is no part, and an
    empty text only when there is HTML. *)
Definition expected_parts (msg : Message) : list (string * string) :=
  (if String.eqb (Text msg) "" && negb (String.eqb (HTML msg) "") then [] else [(TypeTextPlain, Text msg)]) ++
  (if String.eqb (HTML msg) "" then [] else [(TypeTextHTML, HTML msg)]).

Section Facts.
  Context {Msg Client W : Type} `{HM : Mail Msg Client W, HL : !MailLaws Msg Client W}.

Lemma with_body_spec (msg : Message) (m : Msg) : let m' := with_body msg m in
  from_of m' = from_of m /\ to_of m' = to_of m /\ subject_of m' = subject_of m /\ parts m' = expected_parts msg.
Proof.
  cbv zeta. unfold with_body, expected_parts. pose proof (body_ok TypeTextPlain (Text msg) m) as Hb. pose proof (body_ok TypeTextHTML (HTML msg) m) as Hh.
  pose proof (alt_ok TypeTextHTML (HTML msg) (SetBodyString TypeTextPlain (Text msg) m)) as Ha. cbv zeta in Hb, Hh, Ha.
  destruct (String.eqb (Text msg) ""), (String.eqb (HTML msg) ""); cbn [andb negb app];
    destruct Hb as (? & ? & ? & Hb), Hh as (? & ? & ? & Hh), Ha as (? & ? & ? & Ha); rewrite ?Hb in Ha; cbn [app] in Ha; split_and!; congruence.
Qed.

(** Nothing is sent when an address is refused; otherwise one message is handed to the client, from
    the configured address, with the recipients, the subject and the parts of the message. *)
Lemma smtp_Send_spec (s : SMTPSender (Client := Client)) (msg : Message) (w : W) :
  (exists err, smtp_Send s msg w = (Some err, w)) \/
  exists m, smtp_Send s msg w = DialAndSend (client s) m w /\
    from_of m = From (cfg s) /\ to_of m = To msg /\ subject_of m = Subject msg /\ parts m = expected_parts msg.
Proof.
  unfold smtp_Send. destruct (set_from _ _) as [err|m1] eqn:E1; [left; by eexists|]. destruct (set_to _ m1) as [err|m2] eqn:E2; [left; by eexists|].
  right. eexists. split; [reflexivity|]. apply from_ok in E1 as (F1 & _). apply to_ok in E2 as (F2 & T2 & _).
  pose proof (subject_ok (Subject msg) m2) as (S1 & S2 & S3 & _). pose proof (with_body_spec msg (set_subject (Subject msg) m2)) as (B1 & B2 & B3 & B4).
  cbv zeta in *. split_and!; congruence.
Qed.
End Facts.

(** What was sent through a [MemorySender] is what it reports, in order. *)
Lemma memory_captures (msgs : list Message) (s : MemorySender) : Messages (fold_left (fun s m => (memory_Send m s).2) msgs s) = sent s ++ msgs.
Proof.
  unfold Messages. revert s. induction msgs as [|m msgs IH]; intros s; cbn [fold_left]; [by rewrite app_nil_r|]. rewrite IH. cbn. by rewrite <- app_assoc.
Qed.

(** ** go-mail in memory *)

Module Mem.
Record msg := Msg { m_from : string; m_to : list string; m_subject : string; m_parts : list (string * string) }.
Definition address (a : string) : bool := contains "@" a.

#[export] Instance mem_mail : Mail msg string (list msg) := {
  NewMsg := Msg "" [] "" [];
  set_from a m := if address a then inr (Msg a (m_to m) (m_subject m) (m_parts m)) else inl (Err "mail: no address");
  set_to l m := if forallb address l then inr (Msg (m_from m) l (m_subject m) (m_parts m)) else inl (Err "mail: no address");
  set_subject s m := Msg (m_from m) (m_to m) s (m_parts m);
  SetBodyString t b m := Msg (m_from m) (m_to m) (m_subject m) [(t, b)];
  AddAlternativeString t b m := Msg (m_from m) (m_to m) (m_subject m) (m_parts m ++ [(t, b)]);
  NewClient h opts := if existsb (fun o => String.eqb o.1 "port" && String.eqb o.2 "0") opts then inl (Err "invalid port number") else inr h;
  DialAndSend _ m w := (None, w ++ [m]);
  from_of := m_from; to_of := m_to; subject_of := m_subject; parts := m_parts }.

#[export] Instance mem_mail_laws : MailLaws msg string (list msg).
Proof.
  split; cbn; try done.
  - intros a m m'. destruct (address a); [|done]. by intros [= <-].
  - intros l m m'. destruct (forallb address l); [|done]. by intros [= <-].
Qed.
End Mem.
Import (hints) Mem.

Example sample_mail :
  let s := MkSMTP (MkSMTPConfig "localhost" 25 "" "" "app@x.io") "localhost"%string in
  (smtp_Send s (MkMessage ["a@b.c"] "Hi" "<p>Hi</p>" "Hi") []).2 =
    [Mem.Msg "app@x.io" ["a@b.c"%string] "Hi" [(TypeTextPlain, "Hi"); (TypeTextHTML, "<p>Hi</p>")]%string] /\
  (smtp_Send s (MkMessage ["nobody"] "Hi" "" "Hi") []).2 = [].
Proof. vm_compute. done. Qed.

(** ** What modelling showed *)

(** When the client cannot be made, [New] returns the error with a sender that is not nil and holds no pointer. *)
Example failed_New_is_not_nil :
  New (Client := string) (W := list Mem.msg) (MkSMTPConfig "mail.x.io" 0 "" "" "app@x.io") = (Some (SSMTP None), Some (Wrap "mailer: smtp client: " [Err "invalid port number"])).
Proof. reflexivity. Qed.
