(* ===== verification/Database.v ===== *)
(** * Opening a database (database/database.go)

    The drivers and bun are an interface: handles that are opened, configured, pinged and closed. What is
    opened and closed is recorded. *)

From S2P Require Import Prelude GoStrings.
Open Scope Z_scope.

Inductive dialectKind := dialectUnknown | dialectPostgres | dialectSQLite.

Record config := Config { maxOpenConns : Z; maxIdleConns : Z; connMaxLifetime : Z; pingTimeout : Z; skipPing : bool; tracing : bool }.
Definition option_ : Type := config -> config.
Definition WithMaxOpenConns (n : Z) : option_ := fun c => Config n (maxIdleConns c) (connMaxLifetime c) (pingTimeout c) (skipPing c) (tracing c).
Definition WithMaxIdleConns (n : Z) : option_ := fun c => Config (maxOpenConns c) n (connMaxLifetime c) (pingTimeout c) (skipPing c) (tracing c).
Definition WithConnMaxLifetime (d : Z) : option_ := fun c => Config (maxOpenConns c) (maxIdleConns c) d (pingTimeout c) (skipPing c) (tracing c).
Definition WithPingTimeout (d : Z) : option_ := fun c => Config (maxOpenConns c) (maxIdleConns c) (connMaxLifetime c) d (skipPing c) (tracing c).
Definition WithoutPing : option_ := fun c => Config (maxOpenConns c) (maxIdleConns c) (connMaxLifetime c) (pingTimeout c) true (tracing c).
Definition WithTracing : option_ := fun c => Config (maxOpenConns c) (maxIdleConns c) (connMaxLifetime c) (pingTimeout c) (skipPing c) true.

Definition detectDialect (dsn : string) : dialectKind * option error :=
  if has_prefix "postgres://" dsn || has_prefix "postgresql://" dsn then (dialectPostgres, None)
  else if has_prefix "file:" dsn || String.eqb dsn ":memory:" then (dialectSQLite, None)
  else if contains ":" dsn then (dialectUnknown, Some (Err ("database: unsupported DSN scheme in " +:+ dsn)))
  else (dialectSQLite, None).

(** What is done with a handle. *)
Inductive call := COpen (k : dialectKind) (dsn : string) | CMaxOpen (n : Z) | CMaxIdle (n : Z) | CMaxLifetime (d : Z) | CHook | CPing (timeout : Z) | CClose.

Section NewBun.
  (** [sql.Open] for SQLite fails or not (Postgres' [OpenDB] does not), and the ping within its time. *)
  Context (sqlite_open : string -> option error) (ping : dialectKind -> string -> Z -> option error).

(** The dialect of the database returned, and the calls made. *)
Definition NewBun (dsn : string) (opts : list option_) : (error + dialectKind) * list call :=
  let cfg := fold_left (fun c o => o c) opts (Config 0 0 0 (5 * Second) false false) in
  match detectDialect dsn with
  | (_, Some err) => (inl err, [])
  | (kind, None) =>
      let opened :=
        match kind with
        | dialectPostgres => inr [COpen dialectPostgres dsn]
        | dialectSQLite => match sqlite_open dsn with Some err => inl (Wrap "database: open sqlite: " [err]) | None => inr [COpen dialectSQLite dsn] end
        | dialectUnknown => inl (Err "database: unsupported dialect")
        end in
      match opened with
      | inl err => (inl err, [])
      | inr calls =>
          let calls := calls ++ (if 0 <? maxOpenConns cfg then [CMaxOpen (maxOpenConns cfg)] else [])
            ++ (if 0 <? maxIdleConns cfg then [CMaxIdle (maxIdleConns cfg)] else [])
            ++ (if 0 <? connMaxLifetime cfg then [CMaxLifetime (connMaxLifetime cfg)] else [])
            ++ (if tracing cfg then [CHook] else []) in
          if skipPing cfg then (inr kind, calls)
          else
            match ping kind dsn (pingTimeout cfg) with
            | Some err => (inl (Wrap "database: ping: " [err]), calls ++ [CPing (pingTimeout cfg); CClose])
            | None => (inr kind, calls ++ [CPing (pingTimeout cfg)])
            end
      end
  end.

Definition opens (l : list call) : nat := length (List.filter (fun c => match c with COpen _ _ => true | _ => false end) l).
Definition closes (l : list call) : nat := length (List.filter (fun c => match c with CClose => true | _ => false end) l).

Lemma opens_app (l1 l2 : list call) : opens (l1 ++ l2) = (opens l1 + opens l2)%nat.
Proof. unfold opens. by rewrite List.filter_app, length_app. Qed.
Lemma closes_app (l1 l2 : list call) : closes (l1 ++ l2) = (closes l1 + closes l2)%nat.
Proof. unfold closes. by rewrite List.filter_app, length_app. Qed.

(** A database returned is of the dialect of its DSN, opened once and open; on an error nothing is left open. *)
Lemma NewBun_no_leak (dsn : string) (opts : list option_) :
  match NewBun dsn opts with
  | (inr kind, calls) => detectDialect dsn = (kind, None) /\ opens calls = 1%nat /\ closes calls = 0%nat
  | (inl _, calls) => opens calls = closes calls
  end.
Proof.
  unfold NewBun. destruct (detectDialect dsn) as [kind [err|]]; [done|]. set (cfg := fold_left _ _ _).
  destruct kind; [done| |destruct (sqlite_open dsn) as [err|]; [done|]]; cbv beta iota zeta;
    (destruct (skipPing cfg); [|destruct (ping _ _ _)]); rewrite ?opens_app, ?closes_app;
    destruct (0 <? maxOpenConns cfg), (0 <? maxIdleConns cfg), (0 <? connMaxLifetime cfg), (tracing cfg); cbn; done.
Qed.
End NewBun.

(** Which DSNs are refused: those with a colon that are not one of the schemes. *)
Lemma detectDialect_refused (dsn : string) : is_Some (detectDialect dsn).2 <->
  contains ":" dsn = true /\ has_prefix "postgres://" dsn = false /\ has_prefix "postgresql://" dsn = false /\ has_prefix "file:" dsn = false /\ dsn <> ":memory:"%string.
Proof.
  unfold detectDialect. destruct (has_prefix "postgres://" dsn); cbn [orb]; [split; [by intros []|naive_solver]|].
  destruct (has_prefix "postgresql://" dsn); cbn [orb]; [split; [by intros []|naive_solver]|].
  destruct (has_prefix "file:" dsn); cbn [orb]; [split; [by intros []|naive_solver]|].
  destruct (String.eqb_spec dsn ":memory:"); [split; [by intros []|naive_solver]|].
  destruct (contains ":" dsn); cbn; [|split; [by intros []|naive_solver]]. split; [done|]. by eexists.
Qed.

(** ** What modelling showed *)

(** A bare path is documented to be SQLite; one with a colon in it is not. *)
Example bare_path_with_colon : (detectDialect "C:/data/app.db").1 = dialectUnknown /\ (detectDialect "backups/12:00.db").1 = dialectUnknown.
Proof. vm_compute. done. Qed.
