(* ===== verification/WsConn.v ===== *)
(** * Connections of the hub: reading, keepalive and shutdown (ws/conn.go, ws/hub.go)

    The read pump consumes what the client sends, message by message, under the deadline that pongs
    extend; [Hub.Close] closes every registered connection, and the write pumps then flush what was
    buffered. Built on the hub of WsHub. *)

From S2P Require Import Prelude WsHub.
Open Scope Z_scope.

(** ** Options and accessors *)

(** The backplane's channel, and the ping interval. *)
Record hubConfig := HubConfig { redis_channel : option string; ping : Z; cfg_sendBuf : nat }.
Definition Option_ : Type := hubConfig -> hubConfig.
Definition WithRedis (channel : string) : Option_ := fun c => HubConfig (Some channel) (ping c) (cfg_sendBuf c).
Definition WithPingInterval (d : Z) : Option_ := fun c => HubConfig (redis_channel c) d (cfg_sendBuf c).
Definition configure (opts : list Option_) : hubConfig := fold_left (fun c o => o c) opts (HubConfig None (30 * Second) 16).

Definition Rooms (c : Conn) : list string := elements (crooms c).

(** [Send]: nothing is enqueued when the message does not encode. *)
Definition Send {T} (marshal : T -> error + string) (c : nat) (msg : T) : option error * list action :=
  match marshal msg with inl err => (Some err, []) | inr b => (None, [Enqueue c b]) end.

(** ** The read pump *)

(** What arrives on the socket, and when; pongs are handled while a read waits. *)
Inductive incoming := Data_ (at_ : Z) (bytes : string) | Pong (at_ : Z).
Definition at_of (e : incoming) : Z := match e with Data_ t _ | Pong t => t end.

(** Why it stopped: the deadline passed first, or the socket failed or was closed. *)
Inductive stop := Deadline (at_ : Z) | Closed.

Section Read.
  Context {T : Type} (unmarshal : string -> option T) (ping : Z).

Definition extend (now : Z) : option Z := if 0 <? ping then Some (now + ping * 2) else None.
Definition late (deadline : option Z) (t : Z) : bool := match deadline with Some d => d <=? t | None => false end.

(** The messages given to [OnMessage], and the end. [quiet] is how the socket ends after the last event:
    it fails at a time, or never. *)
Fixpoint read_loop (quiet : option Z) (deadline : option Z) (evs : list incoming) : list T * stop :=
  match evs with
  | [] => ([], match deadline, quiet with
               | Some d, Some q => if q <? d then Closed else Deadline d
               | Some d, None => Deadline d
               | None, _ => Closed
               end)
  | e :: evs =>
      if late deadline (at_of e) then ([], Deadline (default 0 deadline))
      else match e with
           | Pong t => read_loop quiet (extend t) evs
           | Data_ _ b =>
               let '(msgs, r) := read_loop quiet deadline evs in
               (match unmarshal b with Some m => m :: msgs | None => msgs end, r)
           end
  end.

Definition readPump (start : Z) (quiet : option Z) (evs : list incoming) : list T * stop := read_loop quiet (extend start) evs.

(** The events before the first that comes too late. *)
Fixpoint in_time (deadline : option Z) (evs : list incoming) : list incoming :=
  match evs with
  | [] => []
  | e :: evs => if late deadline (at_of e) then [] else e :: in_time (match e with Pong t => extend t | Data_ _ _ => deadline end) evs
  end.
Definition message_of (e : incoming) : option T := match e with Data_ _ b => unmarshal b | Pong _ => None end.

(** The last sign of life before an event: a pong, or the start. *)
Definition last_pong (start : Z) (evs : list incoming) : Z :=
  fold_left (fun l e => match e with Pong t => t | Data_ _ _ => l end) evs start.

Lemma read_loop_messages (quiet deadline : option Z) (evs : list incoming) :
  (read_loop quiet deadline evs).1 = omap message_of (in_time deadline evs).
Proof.
  revert deadline. induction evs as [|e evs IH]; intros deadline; cbn [read_loop in_time]; [done|].
  destruct (late deadline (at_of e)); [done|]. destruct e as [t b|t]; csimpl; [|by rewrite IH].
  specialize (IH deadline). destruct (read_loop quiet deadline evs) as [msgs r]. cbn in *. subst. by destruct (unmarshal b).
Qed.

(** An event is in time when every gap between pongs before it is below the deadline. *)
Lemma in_time_all (last : Z) (evs : list incoming) :
  (forall pre e post, evs = pre ++ e :: post -> at_of e < last_pong last pre + ping * 2) -> in_time (extend last) evs = evs.
Proof.
  revert last. induction evs as [|e evs IH]; intros last H; [done|]. cbn [in_time].
  assert (Hl : late (extend last) (at_of e) = false).
  { unfold extend. destruct (0 <? ping); [|done]. cbn [late]. apply Z.leb_gt. exact (H [] e evs eq_refl). }
  rewrite Hl. destruct e as [t b|t]; f_equal; apply IH; intros pre e post ->.
  - apply (H (Data_ t b :: pre) e post eq_refl).
  - apply (H (Pong t :: pre) e post eq_refl).
Qed.
End Read.

(** ** Closing the hub *)

Section Close.
  Context (order : gset nat -> list nat).

(** The backplane is stopped; then the snapshot of the connections, each closed outside the lock. *)
Definition Hub_Close (h : Hub) : list action :=
  (match bp h with Some _ => [CloseBackplane] | None => [] end) ++ map CloseConn (order (conns h)).
End Close.

(** Turns of a connection's write pump in a run. *)
Definition pumps (c : nat) (l : list action) : nat := length (List.filter (fun a => match a with Pump c' _ => bool_decide (c' = c) | _ => false end) l).

(** A closed connection, and a connection up to its rooms. *)
Definition closing (x : Conn) : Conn := if once x then x else MkConn (send x) true (crooms x) true true (written x) (pumping x).
Definition core (x : Conn) : Conn := set_crooms ∅ x.

Lemma Close_closing (cap : nat) (x : Conn) : conn_ok cap x -> Close x = Some (closing x) /\ closed (closing x) = true /\ chan_closed (closing x) = true.
Proof.
  intros (Hc & Ho & _ & _). unfold Close, closing. rewrite Ho, Hc. destruct (closed x) eqn:E; [|done]. rewrite Hc. done.
Qed.

Lemma closing_idem (x : Conn) : closing (closing x) = closing x.
Proof. unfold closing. destruct (once x) eqn:E; [by rewrite E|done]. Qed.

Lemma run_app (l1 l2 : list action) (h : Hub) :
  run (l1 ++ l2) h = '(es1, h1) ← run l1 h; '(es2, h2) ← run l2 h1; Some (es1 ++ es2, h2).
Proof.
  revert h. induction l1 as [|a l1 IH]; intros h; cbn [run app].
  { cbn. by destruct (run l2 h) as [[]|]. }
  destruct (step a h) as [[e h1]|]; [|done]. cbn. rewrite IH. destruct (run l1 h1) as [[es1 h2]|]; [|done]. cbn. by destruct (run l2 h2) as [[]|].
Qed.

Lemma run_close (cs : list nat) (h : Hub) : hub_ok h -> exists es h', run (map CloseConn cs) h = Some (es, h') /\ hub_ok h' /\
  forall c x, objects h !! c = Some x -> objects h' !! c = Some (if decide (c ∈ cs) then closing x else x).
Proof.
  revert h. induction cs as [|c0 cs IH]; intros h Hh; cbn [map run].
  { exists [], h. split_and!; [done|exact Hh|]. intros c x Hx. by rewrite decide_False by apply not_elem_of_nil. }
  destruct (step_ok (CloseConn c0) h Hh) as (e & h1 & Es & Hh1 & _). rewrite Es. cbn.
  destruct (IH h1 Hh1) as (es & h2 & -> & Hh2 & Hobj). cbn. exists (e :: es), h2. split_and!; [done|exact Hh2|].
  intros c x Hx. cbn [step] in Es. destruct (decide (c = c0)) as [->|Hne].
  - rewrite Hx in Es. destruct (Close_closing (sendBuf h) x) as (Ec & _); [by eapply (proj1 Hh)|]. rewrite Ec in Es. cbn in Es. injection Es as _ <-.
    rewrite (Hobj c0 (closing x)) by apply lookup_insert_eq. rewrite (decide_True (P := c0 ∈ c0 :: cs)) by set_solver.
    destruct (decide (c0 ∈ cs)); by rewrite ?closing_idem.
  - assert (Hx1 : objects h1 !! c = Some x).
    { destruct (objects h !! c0) as [y|]; [|by injection Es as _ <-]. destruct (Close y); [|done]. cbn in Es. injection Es as _ <-.
      cbn. by rewrite lookup_insert_ne. }
    rewrite (Hobj c x Hx1). destruct (decide (c ∈ cs)); [rewrite decide_True by set_solver|rewrite decide_False by set_solver]; done.
Qed.

(** Closing the hub closes what is registered, and its backplane for good. *)
Lemma run_Hub_Close (order : gset nat -> list nat) (h : Hub) : hub_ok h -> exists es h', run (Hub_Close order h) h = Some (es, h') /\ hub_ok h' /\
  (forall c x, objects h !! c = Some x -> objects h' !! c = Some (if decide (c ∈ order (conns h)) then closing x else x)).
Proof.
  intros Hh. unfold Hub_Close. destruct (bp h) as [bk|]; [|exact (run_close (order (conns h)) h Hh)].
  destruct (run_close (order (conns h)) (with_bp (fmap close_backplane) h) Hh) as (es & h' & E & H). exists (None :: es), h'.
  cbn [app run step]. cbn. by rewrite E.
Qed.

Lemma step_bp (a : action) (h h' : Hub) (e : option error) : step a h = Some (e, h') -> bp h' = bp h \/ bp h' = close_backplane <$> bp h.
Proof.
  destruct a as [c|c|c|c r|c r|c r|c r|c b|c|c ok|]; cbn [step]; try (intros [= _ <-]; by left).
  - intros [= _ <-]. left. by destruct (objects h !! c).
  - destruct (objects h !! c) as [x|]; [|intros [= _ <-]; by left]. destruct (enqueue (sendBuf h) b x) as [[e1 x1]|]; [|done]. intros [= _ <-]. by left.
  - destruct (objects h !! c) as [x|]; [|intros [= _ <-]; by left]. destruct (Close x); [|done]. intros [= _ <-]. by left.
  - intros [= _ <-]. by right.
Qed.

(** A backplane that was stopped stays so. *)
Lemma run_stopped (l : list action) (h h' : Hub) (es : list (option error)) (bk : backplane) : run l h = Some (es, h') ->
  bp h = Some bk -> cancelled bk = true -> bp h' = Some bk.
Proof.
  revert h es. induction l as [|a l IH]; intros h es; cbn [run]; [by intros [= _ <-]|].
  destruct (step a h) as [[e h1]|] eqn:Es; [|done]. cbn. destruct (run l h1) as [[es1 h2]|] eqn:El; [|done]. intros [= _ <-] Hb Hc.
  apply (IH h1 es1 El); [|done]. destruct (step_bp a h h1 e Es) as [-> | ->]; [done|]. rewrite Hb. destruct bk. cbn in *. by subst.
Qed.

(** What any action does to a closed connection. *)
Lemma step_closed (a : action) (h h' : Hub) (e : option error) (c : nat) (x : Conn) :
  objects h !! c = Some x -> closed x = true -> once x = true -> step a h = Some (e, h') -> a <> Pump c false ->
  exists x', objects h' !! c = Some x' /\ core x' = core (match a with Pump c' _ => if decide (c' = c) then pump true x else x | _ => x end).
Proof.
  intros Hx Hc Ho Hs Hne.
  assert (Hupd : forall c' f, (forall y, core (f y) = core y) -> exists x', objects (update c' f h) !! c = Some x' /\ core x' = core x).
  { intros c' f Hf. unfold update, with_objects. cbn [objects]. destruct (decide (c' = c)) as [->|Hn].
    - rewrite lookup_alter_eq, Hx. cbn. by eexists.
    - rewrite lookup_alter_ne by done. by exists x. }
  destruct a as [c'|c'|c'|c' r|c' r|c' r|c' r|c' b|c'|c' ok|]; cbn [step] in Hs.
  - injection Hs as _ <-. destruct (objects h !! c') eqn:E; [by exists x|]. exists x. split; [|done]. cbn. rewrite lookup_insert_ne; [done|]. by intros ->; congruence.
  - injection Hs as _ <-. by exists x.
  - injection Hs as _ <-. by exists x.
  - injection Hs as _ <-. by apply Hupd.
  - injection Hs as _ <-. by exists x.
  - injection Hs as _ <-. by apply Hupd.
  - injection Hs as _ <-. by exists x.
  - destruct (objects h !! c') as [y|] eqn:E; [|injection Hs as _ <-; by exists x].
    destruct (decide (c' = c)) as [->|Hn].
    + rewrite Hx in E. injection E as <-. unfold enqueue in Hs. rewrite Hc in Hs. cbn in Hs. injection Hs as _ <-. exists x. cbn. by rewrite lookup_insert_eq.
    + destruct (enqueue (sendBuf h) b y) as [[e1 y']|]; [|done]. cbn in Hs. injection Hs as _ <-. exists x. cbn. by rewrite lookup_insert_ne.
  - destruct (objects h !! c') as [y|] eqn:E; [|injection Hs as _ <-; by exists x].
    destruct (decide (c' = c)) as [->|Hn].
    + rewrite Hx in E. injection E as <-. unfold Close in Hs. rewrite Ho in Hs. cbn in Hs. injection Hs as _ <-. exists x. cbn. by rewrite lookup_insert_eq.
    + destruct (Close y) as [y'|]; [|done]. cbn in Hs. injection Hs as _ <-. exists x. cbn. by rewrite lookup_insert_ne.
  - injection Hs as _ <-. unfold update, with_objects. cbn [objects]. destruct (decide (c' = c)) as [->|Hn].
    + rewrite lookup_alter_eq, Hx. cbn. destruct ok; [by eexists|done].
    + rewrite lookup_alter_ne by done. by exists x.
  - injection Hs as _ <-. by exists x.
Qed.

Lemma pump_core (x y : Conn) : core x = core y -> core (pump true x) = core (pump true y).
Proof.
  destruct x as [s1 c1 r1 d1 o1 w1 p1], y as [s2 c2 r2 d2 o2 w2 p2]. unfold core, set_crooms. cbn. intros [= -> -> -> -> -> ->].
  unfold pump. cbn. destruct p2; [|done]. cbn. destruct s2; [|done]. by destruct c2.
Qed.
Lemma pump_closed (x : Conn) : closed (pump true x) = closed x /\ once (pump true x) = once x.
Proof. unfold pump. destruct (pumping x); [|done]. cbn. destruct (send x); [|done]. by destruct (chan_closed x). Qed.

(** After its closing a connection only moves by its pump's turns. *)
Lemma run_closed (l : list action) (h : Hub) (c : nat) (x : Conn) : hub_ok h -> objects h !! c = Some x -> closed x = true -> once x = true ->
  Pump c false ∉ l -> exists es h' x', run l h = Some (es, h') /\ objects h' !! c = Some x' /\ core x' = core (Nat.iter (pumps c l) (pump true) x).
Proof.
  revert h x. induction l as [|a l IH]; intros h x Hh Hx Hc Ho Hne; cbn [run]; [by exists [], h, x|].
  apply not_elem_of_cons in Hne as [Ha Hl]. destruct (step_ok a h Hh) as (e & h1 & Es & Hh1 & _). rewrite Es. cbn.
  destruct (step_closed a h h1 e c x Hx Hc Ho Es) as (x1 & Hx1 & Ecore); [by intros ->|].
  set (y := match a with Pump c' _ => if decide (c' = c) then pump true x else x | _ => x end) in *.
  assert (Hy : closed y = true /\ once y = true).
  { unfold y. destruct a; try done. destruct (decide _); [|done]. destruct (pump_closed x) as [-> ->]. done. }
  assert (Hflags : closed x1 = closed y /\ once x1 = once y) by (injection Ecore as _ _ ? ? _ _; done).
  destruct (IH h1 x1 Hh1 Hx1) as (es & h2 & x2 & -> & Hx2 & Ecore2); [destruct Hflags, Hy; congruence..|done|]. cbn.
  exists (e :: es), h2, x2. split_and!; [done|done|]. rewrite Ecore2.
  assert (Hiter : forall n u v, core u = core v -> core (Nat.iter n (pump true) u) = core (Nat.iter n (pump true) v)).
  { intros n u v Huv. induction n as [|n IHn]; [done|]. cbn. by apply pump_core. }
  rewrite (Hiter _ _ _ Ecore). unfold pumps, y. destruct a as [| | | | | | | | |c' ok|]; try done. cbn [List.filter].
  destruct (decide (c' = c)) as [->|Hn]; [rewrite bool_decide_eq_true_2 by done|by rewrite bool_decide_eq_false_2].
  apply (f_equal core). symmetry. apply (Nat.iter_succ_r (length _)).
Qed.

(** Turns enough drain the buffer and send the close frame, once. *)
Lemma pump_drains (n : nat) (x : Conn) : chan_closed x = true -> pumping x = true -> (length (send x) < n)%nat ->
  let y := Nat.iter n (pump true) x in
  send y = [] /\ written y = written x ++ map Text (send x) ++ [CloseFrame] /\ pumping y = false /\ closed y = closed x.
Proof.
  cbv zeta. intros Hc Hp Hn.
  assert (Hshift : forall k u, Nat.iter (S k) (pump true) u = Nat.iter k (pump true) (pump true u)) by (intros k u; apply Nat.iter_succ_r).
  assert (Hidle : forall k u, pumping u = false -> Nat.iter k (pump true) u = u).
  { intros k u Hu. induction k as [|k IHk]; [done|].
    change (pump true (Nat.iter k (pump true) u) = u). rewrite IHk. unfold pump. by rewrite Hu. }
  remember (send x) as bs eqn:Hs. revert n x Hs Hc Hp Hn. induction bs as [|b bs IH]; intros [|n] x Hs Hc Hp Hn; cbn in Hn; [lia| |lia|];
    rewrite Hshift; unfold pump at 2 4 6 8; rewrite Hp, <- Hs; cbn [negb].
  - rewrite Hc, Hidle by done. done.
  - destruct (IH n (MkConn bs (chan_closed x) (crooms x) (closed x) (once x) (written x ++ [Text b]) true)) as (I1 & I2 & I3 & I4); [done..|lia|].
    cbn [written] in I2. split_and!; [done| |done|done]. rewrite I2. cbn. by rewrite <- app_assoc.
Qed.

(** ** Claims *)

(** (C35) Closing the hub is graceful: from any state a hub can reach, whatever else goes on meanwhile (sends, joins, other
    closes, connections coming and going), a registered connection whose write pump runs, given a turn
    for each buffered message and one more, and no failing write, sends every message that was buffered, in order,
    then one close frame, and stops; nothing panics and nothing is sent after. *)
Theorem Hub_Close_flushes (order : gset nat -> list nat) (opts : list (nat -> nat)) (sub : option (option error)) (l0 l : list action)
    (es0 : list (option error)) (h : Hub) (c : nat) (x : Conn)
    (Horder : forall s c, c ∈ order s <-> c ∈ s)
    (Hreach : run l0 (NewHub opts sub) = Some (es0, h)) (Hc : c ∈ conns h) (Hx : objects h !! c = Some x) (Hp : pumping x = true)
    (Hl : Pump c false ∉ l) (Hn : (length (send x) < pumps c l)%nat) :
  exists es h' x', run (Hub_Close order h ++ l) h = Some (es, h') /\ objects h' !! c = Some x' /\
    written x' = written x ++ map Text (send x) ++ [CloseFrame] /\ send x' = [] /\ pumping x' = false /\ closed x' = true.
Proof.
  assert (Hh : hub_ok h). { destruct (run_ok l0 _ (NewHub_ok opts sub)) as (es & h' & E & Hh & _). congruence. }
  destruct (run_Hub_Close order h Hh) as (es1 & h1 & E1 & Hh1 & Hobj). specialize (Hobj c x Hx).
  rewrite decide_True in Hobj by (by apply Horder).
  destruct (Close_closing (sendBuf h) x) as (_ & Hcl & Hch); [by eapply (proj1 Hh)|].
  assert (Ho : once (closing x) = true) by (unfold closing; destruct (once x) eqn:E; [exact E|done]).
  assert (Hsame : send (closing x) = send x /\ written (closing x) = written x /\ pumping (closing x) = pumping x) by (unfold closing; by destruct (once x)).
  destruct Hsame as (S1 & S2 & S3).
  destruct (run_closed l h1 c (closing x) Hh1 Hobj Hcl Ho Hl) as (es2 & h2 & x2 & E2 & Hx2 & Ecore).
  destruct (pump_drains (pumps c l) (closing x) Hch) as (D1 & D2 & D3 & D4); [congruence|by rewrite S1|].
  exists (es1 ++ es2), h2, x2. rewrite run_app, E1. cbn. rewrite E2. cbn. injection Ecore as F1 F2 F3 F4 F5 F6.
  split_and!; [done|done|congruence|congruence|congruence|congruence].
Qed.

Definition two_buffered : list action := two_conns ++ [Enqueue 1 "a"; Enqueue 2 "b"; Enqueue 2 "c"; Pump 1 true].
Definition buffered_hub : Hub := match run two_buffered (NewHub [] None) with Some (_, h) => h | None => NewHub [] None end.
Definition late_actions : list action := [Pump 2 true; Enqueue 2 "late"; Pump 1 true; Pump 2 true; JoinConn 2 "x"; Pump 2 true; CloseConn 2].

Lemma Hub_Close_flushes_witness :
  exists es0 x es h' x', run two_buffered (NewHub [] None) = Some (es0, buffered_hub) /\ objects buffered_hub !! 2%nat = Some x /\
    run (Hub_Close elements buffered_hub ++ late_actions) buffered_hub = Some (es, h') /\ objects h' !! 2%nat = Some x' /\
    written x' = [Text "b"; Text "c"; CloseFrame].
Proof.
  assert (Hr : exists es0, run two_buffered (NewHub [] None) = Some (es0, buffered_hub)) by (eexists; vm_compute; reflexivity).
  assert (Hx : exists x, objects buffered_hub !! 2%nat = Some x /\ send x = ["b"; "c"]%string /\ written x = [] /\ pumping x = true)
    by (eexists; split_and!; vm_compute; reflexivity).
  destruct Hr as [es0 Hr], Hx as (x & Hx & Hs & Hw & Hp).
  destruct (Hub_Close_flushes elements [] None two_buffered late_actions es0 buffered_hub 2 x) as (es & h' & x' & E & Hx' & Hw' & _).
  - intros s c. apply elem_of_elements.
  - exact Hr.
  - apply (bool_decide_eq_true_1 _). vm_compute. reflexivity.
  - exact Hx.
  - exact Hp.
  - intros Hin. apply list_elem_of_In in Hin. cbn in Hin. repeat (destruct Hin as [Hin|Hin]; [discriminate Hin|]). exact Hin.
  - rewrite Hs. vm_compute. lia.
  - exists es0, x, es, h', x'. split_and!; [exact Hr|exact Hx|exact E|exact Hx'|]. rewrite Hw', Hw, Hs. reflexivity.
Defined.

(** What a handler is given: the messages that decode and arrive while the pongs keep up, in order; all of them when they
    always do. *)
Lemma readPump_messages {T} (unmarshal : string -> option T) (ping start : Z) (quiet : option Z) (evs : list incoming) :
  (readPump unmarshal ping start quiet evs).1 = omap (message_of unmarshal) (in_time ping (extend ping start) evs) /\
  ((forall pre e post, evs = pre ++ e :: post -> at_of e < last_pong start pre + ping * 2) ->
     (readPump unmarshal ping start quiet evs).1 = omap (message_of unmarshal) evs).
Proof.
  unfold readPump. rewrite read_loop_messages. split; [done|]. intros H. by rewrite in_time_all.
Qed.

(** A hub with a backplane that was closed receives nothing from then on, and what it is asked to broadcast reaches nobody,
    not even the connections that registered later. *)
Lemma closed_hub_is_silent {T} (marshal : T -> error + string) (recode : T -> option T) (order : gset nat -> list nat) (h h' : Hub) (bk : backplane) (l : list action)
    (es : list (option error)) (wire : list nat) (i : nat) (hubs : list Hub) (msg : T) (room : string) :
  bp h = Some bk -> run (Hub_Close order h ++ l) h = Some (es, h') -> hubs !! i = Some h' ->
  receives h' = false /\ Broadcast marshal recode order wire i msg hubs = Some hubs /\ ToRoom marshal recode order wire i room msg hubs = Some hubs.
Proof.
  intros Hb Hr Hi. unfold Hub_Close in Hr. rewrite Hb in Hr. cbn [app run step] in Hr. cbn in Hr.
  destruct (run _ (with_bp _ h)) as [[es1 h1]|] eqn:E; [|done]. injection Hr as _ <-.
  apply (run_stopped _ _ _ _ (close_backplane bk)) in E; [|cbn; by rewrite Hb|done].
  unfold receives, Broadcast, ToRoom, publish. rewrite Hi, E. cbn. by destruct (bp_err bk).
Qed.

(** ** What modelling showed *)

(** Messages do not extend the deadline: a client that writes but does not answer pings is dropped. *)
Example writing_is_not_a_sign_of_life :
  readPump (fun s => Some s) (30 * Second) 0 None [Data_ (20 * Second) "a"; Data_ (50 * Second) "b"; Data_ (61 * Second) "c"] = (["a"; "b"]%string, Deadline (60 * Second)).
Proof. vm_compute. reflexivity. Qed.

(** A connection that registers while the hub closes, after its snapshot, stays open. *)
Example late_registration_survives : let h := NewHub [] None in
  option_map (fun r => option_map closed (objects r.2 !! 1%nat)) (run (Hub_Close elements h ++ [NewConn 1; Register 1]) h) = Some (Some false).
Proof. vm_compute. reflexivity. Qed.
