(* ===== verification/GoUrl.v ===== *)
(** * Query strings (net/url)

    Escaping, parsing and encoding of URL queries as Go's net/url has them, and that parsing what was
    encoded gives the same values back. *)

From S2P Require Import Prelude GoStrings.
Open Scope Z_scope.

(** ** Escaping *)

(** What [QueryEscape] leaves as it is. *)
Definition unreserved (c : ascii) : bool :=
  is_upper c || is_lower c || is_digit c || Ascii.eqb c "-" || Ascii.eqb c "_" || Ascii.eqb c "." || Ascii.eqb c "~".

Definition upper_hex (d : Z) : ascii := if d <? 10 then chr (48 + d) else chr (55 + d).
Definition unhex (c : ascii) : option Z :=
  let n := code c in
  if is_digit c then Some (n - 48)
  else if (97 <=? n) && (n <=? 102) then Some (n - 87)
  else if (65 <=? n) && (n <=? 70) then Some (n - 55) else None.

Definition escape_char (c : ascii) : string :=
  if unreserved c then String c EmptyString
  else if Ascii.eqb c " " then "+"
  else String "%" (String (upper_hex (code c / 16)) (String (upper_hex (code c mod 16)) EmptyString)).
Fixpoint QueryEscape (s : string) : string := match s with EmptyString => EmptyString | String c s => escape_char c +:+ QueryEscape s end.

Fixpoint QueryUnescape (s : string) : option string :=
  match s with
  | EmptyString => Some EmptyString
  | String "%" (String a (String b t)) => x ← unhex a; y ← unhex b; t ← QueryUnescape t; Some (String (chr (x * 16 + y)) t)
  | String "%" _ => None
  | String "+" t => t ← QueryUnescape t; Some (String " " t)
  | String c t => t ← QueryUnescape t; Some (String c t)
  end.

(** ** Values *)

(** [url.Values]: the values of each key, in order. *)
Abbreviation values := (gmap string (list string)).

Definition Set_ (k v : string) (vs : values) : values := <[k := [v]]> vs.
Definition Del (k : string) (vs : values) : values := delete k vs.
Definition Get (k : string) (vs : values) : string := match vs !! k with Some (v :: _) => v | _ => EmptyString end.
Definition add (k v : string) (vs : values) : values := <[k := default [] (vs !! k) ++ [v]]> vs.

(** One setting of a query; a malformed one is skipped, as [URL.Query] ignores the error. *)
Definition parse_setting (vs : values) (s : string) : values :=
  if contains_char ";" s || String.eqb s "" then vs
  else let '(k, v, _) := cut "=" s in
       match QueryUnescape k, QueryUnescape v with Some k, Some v => add k v vs | _, _ => vs end.
Definition ParseQuery (s : string) : values := fold_left parse_setting (split "&" s) ∅.

Definition setting (k v : string) : string := QueryEscape k +:+ String "=" (QueryEscape v).
Definition Encode (vs : values) : string :=
  join "&" (flat_map (fun k => map (setting k) (default [] (vs !! k))) (merge_sort String.le (map fst (map_to_list vs)))).

(** ** Facts *)

(** What a query is written with. *)
Definition query_char (c : ascii) : bool := unreserved c || Ascii.eqb c "%" || Ascii.eqb c "+".

Lemma upper_hex_spec (d : Z) : 0 <= d < 16 -> unhex (upper_hex d) = Some d /\ unreserved (upper_hex d) = true.
Proof.
  intros Hd. assert (H : forallb (fun n => bool_decide (unhex (upper_hex (Z.of_nat n)) = Some (Z.of_nat n)) && unreserved (upper_hex (Z.of_nat n))) (seq 0 16) = true) by (vm_compute; done).
  rewrite forallb_forall in H. specialize (H (Z.to_nat d) ltac:(apply in_seq; lia)). rewrite Z2Nat.id in H by lia.
  apply andb_true_iff in H as [H1 H2]. by apply bool_decide_eq_true_1 in H1.
Qed.

Lemma unescape_char (c : ascii) (t : string) : QueryUnescape (escape_char c +:+ t) = t ← QueryUnescape t; Some (String c t).
Proof.
  unfold escape_char. destruct (unreserved c) eqn:Hu.
  { rewrite string_app_cons, string_app_nil_l. destruct c as [[] [] [] [] [] [] [] []]; first [discriminate Hu|reflexivity]. }
  destruct (Ascii.eqb_spec c " ") as [->|Hs]; [reflexivity|]. rewrite !string_app_cons, string_app_nil_l. cbn [QueryUnescape].
  pose proof (code_range c) as Hc. destruct (upper_hex_spec (code c / 16)) as [-> _]; [split; [apply Z.div_pos; lia|apply Z.div_lt_upper_bound; lia]|].
  destruct (upper_hex_spec (code c mod 16)) as [-> _]; [apply Z.mod_pos_bound; lia|]. cbn. destruct (QueryUnescape t); [|done]. cbn.
  rewrite Z.mul_comm, <- Z.div_mod by lia. by rewrite chr_code.
Qed.

Lemma unescape_escape (s : string) : QueryUnescape (QueryEscape s) = Some s.
Proof. induction s as [|c s IH]; [done|]. cbn [QueryEscape]. by rewrite unescape_char, IH. Qed.

Lemma escape_chars (s : string) : sforall query_char (QueryEscape s) = true.
Proof.
  induction s as [|c s IH]; [done|]. cbn [QueryEscape]. rewrite sforall_app, IH, andb_true_r. unfold escape_char.
  destruct (unreserved c) eqn:Hu; [cbn; unfold query_char; by rewrite Hu|]. destruct (Ascii.eqb c " "); [done|]. pose proof (code_range c) as Hc.
  destruct (upper_hex_spec (code c / 16)) as [_ H1]; [split; [apply Z.div_pos; lia|apply Z.div_lt_upper_bound; lia]|].
  destruct (upper_hex_spec (code c mod 16)) as [_ H2]; [apply Z.mod_pos_bound; lia|]. cbn. unfold query_char. by rewrite H1, H2.
Qed.

Lemma escape_no (c : ascii) (s : string) : query_char c = false -> contains_char c (QueryEscape s) = false.
Proof. intros Hc. apply (sforall_not_contains _ query_char); [done|apply escape_chars]. Qed.

Lemma setting_no (c : ascii) (k v : string) : query_char c = false -> c <> "="%char -> contains_char c (setting k v) = false.
Proof.
  intros Hc Hne. pose proof (escape_no c k Hc) as Hk. pose proof (escape_no c v Hc) as Hv. unfold setting, contains_char in *.
  rewrite sexists_app, Hk. cbn [sexists orb]. rewrite Hv, orb_false_r. by apply Ascii.eqb_neq.
Qed.

Lemma parse_setting_setting (vs : values) (k v : string) : parse_setting vs (setting k v) = add k v vs.
Proof.
  unfold parse_setting. rewrite setting_no by done. cbn [orb]. unfold setting.
  destruct (String.eqb_spec (QueryEscape k +:+ String "=" (QueryEscape v)) "") as [E|_]; [by destruct (QueryEscape k)|].
  rewrite cut_app by (by apply escape_no). by rewrite !unescape_escape.
Qed.

Lemma parse_settings (k : string) (l : list string) (vs : values) : l <> [] ->
  fold_left parse_setting (map (setting k) l) vs = <[k := default [] (vs !! k) ++ l]> vs.
Proof.
  revert vs. induction l as [|v l IH]; intros vs Hl; [done|]. cbn [map fold_left]. rewrite parse_setting_setting.
  destruct l as [|w l]; [done|]. rewrite IH by done. unfold add. rewrite lookup_insert_eq. cbn [default from_option id]. rewrite insert_insert_eq.
  by rewrite <- app_assoc.
Qed.

Lemma parse_keys (ks : list string) (vs acc : values) : NoDup ks -> (forall k, k ∈ ks -> acc !! k = None /\ exists v l, vs !! k = Some (v :: l)) ->
  forall k, fold_left parse_setting (flat_map (fun k => map (setting k) (default [] (vs !! k))) ks) acc !! k = if decide (k ∈ ks) then vs !! k else acc !! k.
Proof.
  intros Hnd. revert acc. induction Hnd as [|k ks Hk Hnd IH]; intros acc Hks k'; cbn [flat_map fold_left].
  { by rewrite decide_False by apply not_elem_of_nil. }
  destruct (Hks k) as [Hacc (v & l & Hv)]; [by left|]. rewrite Hv. cbn [default from_option id]. rewrite fold_left_app, parse_settings by done.
  rewrite Hacc. cbn [default from_option app]. rewrite IH.
  - destruct (decide (k' ∈ ks)) as [Hin|Hin]; [by rewrite decide_True by (by right)|].
    destruct (decide (k' = k)) as [->|Hne]; [rewrite lookup_insert_eq, decide_True by (by left); done|].
    rewrite lookup_insert_ne by done. by rewrite decide_False by (intros [?|?]%elem_of_cons; done).
  - intros k2 Hin. destruct (Hks k2) as [Ha Hb]; [by right|]. rewrite lookup_insert_ne; [done|]. by intros ->.
Qed.

(** Parsing what [Encode] wrote gives the values back; keys without values are not written. *)
Lemma ParseQuery_Encode (vs : values) : map_Forall (fun _ l => l <> []) vs -> ParseQuery (Encode vs) = vs.
Proof.
  intros Hne. unfold ParseQuery, Encode. set (ks := merge_sort String.le (map fst (map_to_list vs))).
  assert (Hmem : forall k, k ∈ ks <-> is_Some (vs !! k)).
  { intros k. unfold ks. rewrite merge_sort_Permutation, list_elem_of_fmap. split.
    - intros ([k' l] & -> & Hin%elem_of_map_to_list). by eexists.
    - intros [l Hl]. exists (k, l). split; [done|]. by apply elem_of_map_to_list. }
  assert (Hnd : NoDup ks) by (unfold ks; rewrite merge_sort_Permutation; apply NoDup_fst_map_to_list).
  assert (Hks : forall k, k ∈ ks -> (∅ : values) !! k = None /\ exists v l, vs !! k = Some (v :: l)).
  { intros k [l Hl]%Hmem. split; [done|]. specialize (Hne k l Hl). destruct l as [|v l]; [done|]. by exists v, l. }
  set (segs := flat_map _ ks).
  assert (Hsegs : fold_left parse_setting segs ∅ = vs).
  { apply map_eq. intros k. unfold segs. rewrite (parse_keys ks vs ∅ Hnd Hks k). destruct (decide (k ∈ ks)) as [|Hk]; [done|].
    rewrite lookup_empty. symmetry. apply eq_None_not_Some. by rewrite <- Hmem. }
  destruct (decide (segs = [])) as [E|E]; [rewrite E in *; by rewrite <- Hsegs|].
  rewrite split_join; [exact Hsegs|exact E|]. intros s Hs. apply list_elem_of_In, in_flat_map in Hs as (k & _ & Hs). apply in_map_iff in Hs as (v & <- & _). by apply setting_no.
Qed.

(** What an encoded query is written with, and that parsed values are never empty. *)
Definition encode_char (c : ascii) : bool := query_char c || Ascii.eqb c "=" || Ascii.eqb c "&".

Lemma Encode_chars (vs : values) : sforall encode_char (Encode vs) = true.
Proof.
  assert (Hesc : forall s, sforall encode_char (QueryEscape s) = true).
  { intros s. eapply sforall_impl; [|apply escape_chars]. intros c Hc. unfold encode_char. by rewrite Hc. }
  unfold Encode. set (segs := flat_map _ _). assert (Hs : Forall (fun s => sforall encode_char s = true) segs).
  { apply Forall_forall. intros s Hs. apply list_elem_of_In, in_flat_map in Hs as (k & _ & Hs). apply in_map_iff in Hs as (v & <- & _).
    unfold setting. rewrite sforall_app, Hesc. cbn. by rewrite Hesc. }
  clearbody segs. induction Hs as [|s segs Hs Hsegs IH]; [done|]. destruct segs as [|s2 segs]; [done|].
  change (join "&" (s :: s2 :: segs)) with (s +:+ ("&" +:+ join "&" (s2 :: segs))). by rewrite !sforall_app, Hs, IH.
Qed.

Lemma ParseQuery_nonempty (s : string) : map_Forall (fun _ l => l <> []) (ParseQuery s).
Proof.
  unfold ParseQuery. assert (H : forall segs (vs : values), map_Forall (fun _ l => l <> []) vs -> map_Forall (fun _ l => l <> []) (fold_left parse_setting segs vs)).
  { induction segs as [|x segs IH]; intros vs Hvs; [done|]. apply IH. unfold parse_setting. destruct (_ || _); [done|]. destruct (cut "=" x) as [[k v] ok].
    destruct (QueryUnescape k); [|done]. destruct (QueryUnescape v); [|done]. apply map_Forall_insert_2; [by destruct (default [] _)|done]. }
  apply H, map_Forall_empty.
Qed.

Example query_text : Encode (Set_ "cursor" "a b&c" (ParseQuery "limit=20&tag=x&tag=%C3%A9&bad=%zz&a;b")) = "cursor=a+b%26c&limit=20&tag=x&tag=%C3%A9"%string.
Proof. vm_compute. reflexivity. Qed.
