(* ===== verification/PageLinks.v ===== *)
(** * Links to result pages (pagination/cursor.go)

    [LinkHeader] writes the next and previous pages as URLs in a Link header. A URL is its part before the
    query, its query and its fragment; how net/url prints the first and the last is a parameter. The
    other side is a client that reads the header and follows a link. *)

From S2P Require Import Prelude GoStrings Fiber GoJson Parser Pagination GoUrl.
Open Scope Z_scope.

Record URL := MkURL { u_base : string; RawQuery : string; Fragment : string }.
Definition Query (u : URL) : values := ParseQuery (RawQuery u).

Definition ctl (c : ascii) : bool := (code c <? 32) || (code c =? 127).

Section Links.
  (** What net/url makes of the part before the query, and of a fragment, as it prints them again; [None] is an error. *)
  Context (normal normal_fragment : string -> option string).

Definition Parse (rawURL : string) : option URL :=
  let '(rest, frag, _) := cut "#" rawURL in
  if sexists ctl rest then None
  else
    let '(b, q, _) := cut "?" rest in
    b ← normal b;
    frag ← (if String.eqb frag "" then Some EmptyString else normal_fragment frag);
    Some (MkURL b q frag).

Definition String_ (u : URL) : string :=
  u_base u +:+ ((if String.eqb (RawQuery u) "" then EmptyString else String "?" (RawQuery u)) +:+
  (if String.eqb (Fragment u) "" then EmptyString else String "#" (Fragment u))).

(** The query of a link: the request's, with the page's cursor and direction. *)
Definition link_query (cursor : string) (before : bool) (q : values) : values :=
  let q := Set_ "cursor" cursor q in if before then Set_ "before" "true" q else Del "before" q.

Definition quoted_rel (rel : string) : string := ">; rel=" +:+ String quote (rel +:+ String quote EmptyString).

Definition cursorLink (baseURL cursor : string) (before : bool) (rel : string) : string :=
  match Parse baseURL with
  | None => EmptyString
  | Some u => String "<" (String_ (MkURL (u_base u) (Encode (link_query cursor before (Query u))) (Fragment u)) +:+ quoted_rel rel)
  end.

Definition LinkHeader {T} (p : CursorPage T) (baseURL : string) : string :=
  let entry cursor before rel :=
    if String.eqb cursor "" then []
    else let l := cursorLink baseURL cursor before rel in if String.eqb l "" then [] else [l] in
  join ", " (entry (NextCursor p) false "next"%string ++ entry (PrevCursor p) true "prev"%string).

(** ** The client *)

(** The relation and the target of each entry of a Link header. *)
Fixpoint read_links (fuel : nat) (s : string) : list (string * string) :=
  match fuel, s with
  | S fuel, String "<" s =>
      let '(target, s, _) := cut ">" s in
      if has_prefix ("; rel=" +:+ String quote EmptyString) s then
        let '(rel, s, _) := cut quote (drop_string 7 s) in
        (rel, target) :: if has_prefix ", " s then read_links fuel (drop_string 2 s) else []
      else []
  | _, _ => []
  end.
Definition follow (header : string) : list (string * string) := read_links (String.length header) header.

(** ** Facts *)

(** Characters of a printed base. *)
Definition base_char (c : ascii) : bool := negb (ctl c || Ascii.eqb c "?" || Ascii.eqb c "#" || Ascii.eqb c ">").

(** What the two parameters are to satisfy: what they print is stable, and its delimiters are escaped. *)
Record printable : Prop := {
  normal_stable r r' : normal r = Some r' -> normal r' = Some r';
  normal_chars r r' : normal r = Some r' -> sforall base_char r' = true;
  fragment_stable f f' : normal_fragment f = Some f' -> f' <> EmptyString -> normal_fragment f' = Some f';
  fragment_chars f f' : normal_fragment f = Some f' -> contains_char ">" f' = false }.

Section Facts.
  Context (Hp : printable).

Lemma plain_no (c : ascii) (r : string) (p : ascii -> bool) : sforall p r = true -> p c = false -> contains_char c r = false.
Proof. intros H1 H2. by apply (sforall_not_contains c p). Qed.

Lemma sexists_false (p q : ascii -> bool) (s : string) : (forall c, q c = true -> p c = false) -> sforall q s = true -> sexists p s = false.
Proof. intros H. induction s as [|c s IH]; cbn; [done|]. intros [Hc Hs]%andb_true_iff. by rewrite (H c Hc), IH. Qed.

Lemma Parse_inv (raw : string) (u : URL) : Parse raw = Some u ->
  (exists r, normal r = Some (u_base u)) /\ (Fragment u = EmptyString \/ exists f, normal_fragment f = Some (Fragment u)).
Proof.
  unfold Parse. destruct (cut "#" raw) as [[rest frag] ok]. destruct (sexists ctl rest); [done|]. destruct (cut "?" rest) as [[b q] ok2].
  destruct (normal b) as [b'|] eqn:Eb; [|done]. cbn. destruct (String.eqb frag ""); cbn.
  - intros [= <-]. split; [by exists b|by left].
  - destruct (normal_fragment frag) as [f'|] eqn:Ef; [|done]. cbn. intros [= <-]. split; [by exists b|right; by exists frag].
Qed.

(** Printing a URL with an encoded query and parsing it gives it back. *)
Lemma Parse_String (u : URL) (vs : values) (raw : string) : Parse raw = Some u -> Encode vs <> EmptyString ->
  let u' := MkURL (u_base u) (Encode vs) (Fragment u) in Parse (String_ u') = Some u' /\ contains_char ">" (String_ u') = false.
Proof.
  intros Hu Hne. apply Parse_inv in Hu as [[r Hr] Hf]. pose proof (normal_chars Hp _ _ Hr) as Hb. pose proof (Encode_chars vs) as Hq.
  unfold String_. cbn [u_base RawQuery Fragment]. rewrite (proj2 (String.eqb_neq _ _) Hne).
  set (b := u_base u) in *. set (q := Encode vs) in *. set (f := Fragment u) in *.
  assert (Hctl : sexists ctl (b +:+ String "?" q) = false).
  { rewrite sexists_app. rewrite (sexists_false ctl base_char b); [|intros c Hc; unfold base_char in Hc; by destruct (ctl c)|exact Hb]. cbn [sexists orb].
    rewrite (sexists_false ctl encode_char q); [done| |done]. intros c Hc. destruct c as [[] [] [] [] [] [] [] []]; first [discriminate Hc|reflexivity]. }
  assert (Hno : forall c, c ∈ ["#"; ">"]%char -> contains_char c (b +:+ String "?" q) = false).
  { intros c Hc. unfold contains_char. rewrite sexists_app. cbn [sexists].
    assert (H1 : contains_char c b = false) by (eapply plain_no; [exact Hb|]; apply list_elem_of_In in Hc as [<-|[<-|[]]]; reflexivity).
    assert (H2 : contains_char c q = false) by (eapply plain_no; [exact Hq|]; apply list_elem_of_In in Hc as [<-|[<-|[]]]; reflexivity).
    unfold contains_char in *. rewrite H1, H2. by apply list_elem_of_In in Hc as [<-|[<-|[]]]. }
  assert (Hcutq : cut "?" (b +:+ String "?" q) = (b, q, true)) by (apply cut_app; eapply plain_no; [exact Hb|reflexivity]).
  rewrite string_app_assoc. split.
  - unfold Parse. destruct (String.eqb_spec f "") as [E|E].
    + rewrite string_app_nil_r, cut_no by (apply Hno; set_solver). rewrite Hctl, Hcutq, (normal_stable Hp _ _ Hr). cbn. by rewrite E.
    + rewrite cut_app by (apply Hno; set_solver). rewrite Hctl, Hcutq, (normal_stable Hp _ _ Hr). cbn. rewrite (proj2 (String.eqb_neq _ _) E).
      destruct Hf as [?|[f0 Hf]]; [done|]. by rewrite (fragment_stable Hp _ _ Hf E).
  - unfold contains_char in *. rewrite sexists_app, (Hno ">"%char) by set_solver. cbn [orb].
    destruct (String.eqb_spec f "") as [E|E]; [done|]. destruct Hf as [?|[f0 Hf]]; [done|]. pose proof (fragment_chars Hp _ _ Hf) as H. unfold contains_char in H. cbn. exact H.
Qed.

Lemma Encode_nonempty (k v : string) (l : list string) (vs : values) : vs !! k = Some (v :: l) -> map_Forall (fun _ l => l <> []) vs -> Encode vs <> EmptyString.
Proof.
  intros Hk Hne E. pose proof (ParseQuery_Encode vs Hne) as H. rewrite E in H. by rewrite <- H in Hk.
Qed.

Lemma link_query_ok (cursor : string) (before : bool) (q : values) : map_Forall (fun _ l => l <> []) q ->
  map_Forall (fun _ l => l <> []) (link_query cursor before q) /\ link_query cursor before q !! "cursor"%string = Some [cursor].
Proof.
  intros Hq. unfold link_query, Set_, Del. destruct before; split.
  - by repeat apply map_Forall_insert_2.
  - rewrite lookup_insert_ne by done. by rewrite lookup_insert_eq.
  - apply map_Forall_delete. by apply map_Forall_insert_2.
  - rewrite lookup_delete_ne by done. by rewrite lookup_insert_eq.
Qed.

(** The target of a link, read back. *)
Definition target (u : URL) (cursor : string) (before : bool) : string :=
  String_ (MkURL (u_base u) (Encode (link_query cursor before (Query u))) (Fragment u)).

Lemma target_ok (raw : string) (u : URL) (cursor : string) (before : bool) : Parse raw = Some u ->
  exists u', Parse (target u cursor before) = Some u' /\ u_base u' = u_base u /\ Fragment u' = Fragment u /\
    Query u' = link_query cursor before (Query u) /\ contains_char ">" (target u cursor before) = false.
Proof.
  intros Hu. destruct (link_query_ok cursor before (Query u) (ParseQuery_nonempty _)) as [Hne Hc].
  destruct (Parse_String u (link_query cursor before (Query u)) raw Hu) as [H1 H2]; [by eapply Encode_nonempty|].
  eexists. split_and!; [exact H1|done|done| |exact H2]. unfold Query at 1. cbn [RawQuery]. by apply ParseQuery_Encode.
Qed.

Lemma read_link (fuel : nat) (t rel rest : string) : contains_char ">" t = false -> contains_char quote rel = false ->
  read_links (S fuel) (String "<" (t +:+ quoted_rel rel) +:+ rest) =
    (rel, t) :: if has_prefix ", " rest then read_links fuel (drop_string 2 rest) else [].
Proof.
  intros Ht Hrel. rewrite string_app_cons. cbn [read_links]. unfold quoted_rel. rewrite <- string_app_assoc.
  change ((">; rel=" +:+ String quote (rel +:+ String quote EmptyString)) +:+ rest) with (String ">" ("; rel=" +:+ String quote ((rel +:+ String quote EmptyString) +:+ rest))).
  rewrite cut_app by done.
  change ("; rel=" +:+ String quote ((rel +:+ String quote EmptyString) +:+ rest)) with (("; rel=" +:+ String quote EmptyString) +:+ ((rel +:+ String quote EmptyString) +:+ rest)).
  rewrite has_prefix_app. change (drop_string 7 (("; rel=" +:+ String quote EmptyString) +:+ ?x)) with x.
  rewrite <- string_app_assoc, string_app_cons, string_app_nil_l. by rewrite cut_app.
Qed.

(** Where a link leads: the request's URL but for its page. *)
Definition leads (u : URL) (cursor : string) (before : bool) (t : string) : Prop :=
  exists u', Parse t = Some u' /\ u_base u' = u_base u /\ Fragment u' = Fragment u /\
    Get "cursor" (Query u') = cursor /\ Get "before" (Query u') = (if before then "true" else "")%string /\
    forall k, k <> "cursor"%string -> k <> "before"%string -> Query u' !! k = Query u !! k.

Lemma target_leads (raw : string) (u : URL) (cursor : string) (before : bool) : Parse raw = Some u -> leads u cursor before (target u cursor before).
Proof.
  intros Hu. destruct (target_ok raw u cursor before Hu) as (u' & H1 & H2 & H3 & H4 & _). exists u'. rewrite H4. split_and!; [done..| | |].
  - unfold Get. by rewrite (proj2 (link_query_ok cursor before (Query u) (ParseQuery_nonempty _))).
  - unfold Get, link_query, Set_, Del. destruct before; [by rewrite lookup_insert_eq|by rewrite lookup_delete_eq].
  - intros k Hk1 Hk2. unfold link_query, Set_, Del. destruct before; [by rewrite !lookup_insert_ne|by rewrite lookup_delete_ne, lookup_insert_ne].
Qed.

Lemma LinkHeader_follow {T} (p : CursorPage T) (raw : string) (u : URL) : Parse raw = Some u ->
  follow (LinkHeader p raw) =
    (if String.eqb (NextCursor p) "" then [] else [("next", target u (NextCursor p) false)]%string) ++
    (if String.eqb (PrevCursor p) "" then [] else [("prev", target u (PrevCursor p) true)]%string).
Proof.
  intros Hu. unfold LinkHeader, cursorLink. rewrite Hu. fold (target u (NextCursor p) false) (target u (PrevCursor p) true).
  destruct (target_ok raw u (NextCursor p) false Hu) as (_ & _ & _ & _ & _ & Hn). destruct (target_ok raw u (PrevCursor p) true Hu) as (_ & _ & _ & _ & _ & Hv).
  assert (Hone : forall t rel, contains_char ">" t = false -> contains_char quote rel = false -> follow (String "<" (t +:+ quoted_rel rel)) = [(rel, t)]).
  { intros t rel Ht Hrel. unfold follow. cbn [String.length]. rewrite <- (string_app_nil_r (String "<" _)). rewrite read_link by done. done. }
  destruct (String.eqb (NextCursor p) ""), (String.eqb (PrevCursor p) ""); cbn [String.eqb app].
  - done.
  - by apply Hone.
  - by apply Hone.
  - set (a := String "<" (target u (NextCursor p) false +:+ quoted_rel "next")). set (b := String "<" (target u (PrevCursor p) true +:+ quoted_rel "prev")).
    change (join ", " [a; b]) with (a +:+ (", " +:+ b)). unfold follow. rewrite string_app_length.
    destruct (String.length (", " +:+ b)) as [|k] eqn:Ek; [done|]. unfold a at 1. cbn [String.length Nat.add]. unfold a. rewrite read_link by done.
    rewrite has_prefix_app. change (drop_string 2 (", " +:+ b)) with b. f_equal. rewrite string_app_length in Ek |- *. cbn [String.length quoted_rel] in *.
    rewrite Nat.add_succ_r. unfold b. rewrite <- (string_app_nil_r (String "<" _)). by rewrite read_link.
Qed.
End Facts.
End Links.

(** ** Claims *)

(** (C16) A client that reads the Link header of a page finds exactly one link for each neighbouring page the page
    has; following it, the server reads that page's cursor and direction in the query, and every other
    parameter, the path and the fragment are those of the request, whatever they hold. *)
Theorem LinkHeader_roundtrip {T} (normal normal_fragment : string -> option string) (p : CursorPage T) (baseURL : string) (u : URL)
    (Hp : printable normal normal_fragment) (Hu : Parse normal normal_fragment baseURL = Some u) :
  exists next prev,
    follow (LinkHeader normal normal_fragment p baseURL) =
      (if String.eqb (NextCursor p) "" then [] else [("next"%string, next)]) ++ (if String.eqb (PrevCursor p) "" then [] else [("prev"%string, prev)]) /\
    leads normal normal_fragment u (NextCursor p) false next /\ leads normal normal_fragment u (PrevCursor p) true prev.
Proof.
  exists (target u (NextCursor p) false), (target u (PrevCursor p) true). split_and!; [by apply LinkHeader_follow|by eapply target_leads..].
Qed.

(** Bases and fragments that are printed as they are, or refused. *)
Definition strict (s : string) : option string := if sforall base_char s then Some s else None.

Lemma strict_printable : printable strict strict.
Proof.
  assert (H : forall s s', strict s = Some s' -> s' = s /\ sforall base_char s = true) by (unfold strict; intros s s'; destruct (sforall base_char s) eqn:E; [by intros [= <-]|done]).
  split.
  - intros r r' E. by destruct (H r r' E) as [-> _].
  - by intros r r' [-> ?]%H.
  - intros f f' E _. by destruct (H f f' E) as [-> _].
  - intros f f' [-> ?]%H. by apply (sforall_not_contains _ base_char).
Qed.

Definition sample_page : CursorPage Z := MkCursorPage [1; 2] "WzJd" "WzFd".
Definition sample_url : string := "https://api.test/items?limit=20&before=true&tag=a%26b&cursor=old#top".

Lemma LinkHeader_roundtrip_witness :
  printable strict strict /\
  exists u next prev, Parse strict strict sample_url = Some u /\
    follow (LinkHeader strict strict sample_page sample_url) = [("next", next); ("prev", prev)]%string /\
    leads strict strict u "WzJd" false next /\ leads strict strict u "WzFd" true prev.
Proof.
  split; [exact strict_printable|].
  destruct (Parse strict strict sample_url) as [u|] eqn:Hu; [|vm_compute in Hu; discriminate Hu].
  destruct (LinkHeader_roundtrip strict strict sample_page sample_url u strict_printable Hu) as (next & prev & H1 & H2 & H3).
  exists u, next, prev. split_and!; [reflexivity|exact H1|exact H2|exact H3].
Defined.

Example link_header_text : LinkHeader strict strict sample_page "https://api.test/items?limit=20" =
  ("<https://api.test/items?cursor=WzJd&limit=20" +:+ quoted_rel "next" +:+ ", <https://api.test/items?before=true&cursor=WzFd&limit=20" +:+ quoted_rel "prev")%string.
Proof. vm_compute. reflexivity. Qed.

(** A base that does not parse gives no links, without an error. *)
Example bad_base_is_silent : LinkHeader strict strict sample_page "https://api.test/it>ems" = EmptyString.
Proof. vm_compute. reflexivity. Qed.
