(* ===== verification/Metrics.v ===== *)
(** * Request metrics (metrics/metrics.go)

    The metric vectors are process-wide and registered once; every request that ends (and is not a scrape)
    counts once under its method, route and status. The labels are those of ApiError. *)

From S2P Require Import Prelude GoStrings Fiber ApiError.
Open Scope Z_scope.

Record config := Config { namespace : string }.
Definition Option_ : Type := config -> config.
Definition WithNamespace (ns : string) : Option_ := fun _ => Config ns.

Abbreviation labels := (string * string * string)%type.

(** The vectors: a counter and the observations of a histogram for each combination of labels. *)
Record vectors := Vectors { v_namespace : string; reqTotal : gmap labels Z; reqDur : gmap labels (list Z) }.

(** [once.Do]: only the first configuration counts. *)
Definition register (cfg : config) (st : option vectors) : option vectors :=
  match st with Some v => Some v | None => Some (Vectors (namespace cfg) ∅ ∅) end.

(** A request as the middleware sees it: what [c.Next()] did, and how long it took. *)
Record request := Request { path : string; method : string; route : string; response_code : Z; err : option goerr; panicked : bool; took : Z }.

Definition observe (l : labels) (d : Z) (v : vectors) : vectors :=
  Vectors (v_namespace v) (<[l := default 0 (reqTotal v !! l) + 1]> (reqTotal v)) (<[l := default [] (reqDur v !! l) ++ [d]]> (reqDur v)).

(** The handler [Middleware] returns, once the vectors are there; a panic leaves it before it observes. *)
Definition handle (r : request) (v : vectors) : vectors :=
  if String.eqb (path r) MetricsPath then v
  else if panicked r then v
  else match metrics_labels (path r) (method r) (route r) (response_code r) (err r) with Some l => observe l (took r) v | None => v end.

Definition Middleware (opts : list Option_) (st : option vectors) : option vectors * (request -> vectors -> vectors) :=
  (register (fold_left (fun c o => o c) opts (Config "")) st, handle).

(** What a request is counted under. *)
Definition counted (r : request) : option labels :=
  if String.eqb (path r) MetricsPath || panicked r then None
  else metrics_labels (path r) (method r) (route r) (response_code r) (err r).
Definition under (l : labels) (rs : list request) : list request := List.filter (fun r => bool_decide (counted r = Some l)) rs.

Lemma handle_counted (r : request) (v : vectors) : handle r v = match counted r with Some l => observe l (took r) v | None => v end.
Proof. unfold handle, counted. destruct (String.eqb _ _); [done|]. by destruct (panicked r). Qed.

Lemma handle_all (rs : list request) (v : vectors) (l : labels) : let v' := fold_left (fun v r => handle r v) rs v in
  v_namespace v' = v_namespace v /\
  default 0 (reqTotal v' !! l) = default 0 (reqTotal v !! l) + Z.of_nat (length (under l rs)) /\
  default [] (reqDur v' !! l) = default [] (reqDur v !! l) ++ map took (under l rs).
Proof.
  cbv zeta. revert v. induction rs as [|r rs IH]; intros v; cbn [fold_left]; [unfold under; cbn; split_and!; [done|lia|by rewrite app_nil_r]|].
  destruct (IH (handle r v)) as (I1 & I2 & I3). rewrite I1, I2, I3, handle_counted. clear IH I1 I2 I3. unfold under. cbn [List.filter].
  destruct (counted r) as [l'|] eqn:E; [|by rewrite bool_decide_eq_false_2].
  unfold observe. cbn [v_namespace reqTotal reqDur]. destruct (decide (l' = l)) as [->|Hne].
  - rewrite bool_decide_eq_true_2 by done. rewrite !lookup_insert_eq. cbn [default from_option id length map]. split_and!; [done|lia|by rewrite <- app_assoc].
  - rewrite bool_decide_eq_false_2 by congruence. by rewrite !lookup_insert_ne.
Qed.

(** However many middlewares are made, the vectors are those of the first call's namespace, and after any
    requests each counter is the number of requests that ended under its labels, scrapes and panics apart, and
    its histogram holds their durations, one each in order. *)
Theorem counts_exact (calls : list (list Option_)) (opts : list Option_) (rs : list request) (l : labels) :
  exists v, fold_left (fun st os => (Middleware os st).1) (opts :: calls) None = Some v /\
    v_namespace v = namespace (fold_left (fun c o => o c) opts (Config "")) /\
    let v' := fold_left (fun v r => (Middleware opts None).2 r v) rs v in
    v_namespace v' = v_namespace v /\ default 0 (reqTotal v' !! l) = Z.of_nat (length (under l rs)) /\ default [] (reqDur v' !! l) = map took (under l rs).
Proof.
  set (v := Vectors (namespace (fold_left (fun c o => o c) opts (Config ""))) ∅ ∅). exists v. split_and!; [|done|].
  - cbn [fold_left Middleware fst register]. fold v. clear. induction calls as [|os calls IH]; [done|]. exact IH.
  - cbn [Middleware snd]. destruct (handle_all rs v l) as (H1 & H2 & H3). cbv zeta. rewrite H1, H2, H3. done.
Qed.

Definition get_item (code : Z) (e : option goerr) : request := Request "/items/7" "GET" "/items/:id" code e false 5.

Example counts_example : let rs := [get_item 200 None; get_item 200 (Some (EPlain "boom")); Request "/metrics" "GET" "/metrics" 200 None false 1; get_item 200 None] in
  length (under ("GET", "/items/:id", "200")%string rs) = 2%nat /\ length (under ("GET", "/items/:id", "500")%string rs) = 1%nat.
Proof. vm_compute. done. Qed.
