(* ===== verification/Validation.v ===== *)
(** * Validation and binding (validator/validator.go, bind/bind.go)

    The validation engine is a parameter: what it says of a payload. [ValidateStruct] turns its errors into
    responses, named by the JSON tags, and [Body], [Query] and [Params] answer with them. *)

From S2P Require Import Prelude GoStrings Fiber ApiError OpenApiSchema.
Open Scope Z_scope.

(** What the engine returns: nothing, the failed fields, or that the payload cannot be validated. *)
Record FieldError := MkFieldError { fe_Field : string; fe_Tag : string; fe_Param : string; fe_Value : string }.
Inductive verdict := Valid | Invalid (ve : list FieldError) | Unfit (text : string).

(** The name errors give a field: [strings.SplitN(tag, ",", 2)[0]], or its Go name. *)
Definition tag_name_func (f : gfield) : string :=
  let name := (cut "," (json_tag f)).1.1 in if String.eqb name "-" || String.eqb name "" then f_Name f else name.

(** [Register]: the engine's table of custom tags; it refuses some. *)
Definition Register {F} (refuse : string -> F -> option error) (tag : string) (fn : F) (table : gmap string F) : option error * gmap string F :=
  match refuse tag fn with Some err => (Some err, table) | None => (None, <[tag := fn]> table) end.

Section Validate.
  Context {T : Type} (engine : T -> verdict).

Definition response_of (e : FieldError) : ErrorResponse := MkErrorResponse (fe_Field e) (fe_Tag e) (fe_Param e) (fe_Value e).

Definition ValidateStruct (payload : T) : list ErrorResponse :=
  match engine payload with
  | Valid => []
  | Unfit text => [MkErrorResponse "" "invalid" "" text]
  | Invalid ve => map response_of ve
  end.

(** ** bind.go *)

Section Bind.
  (** Fiber's parsers of a request's body, query and parameters, and how errors and their texts are rendered. *)
  Context {C : Type} (BodyParser QueryParser ParamsParser : C -> goerr + T) (err_text : goerr -> string) (errors_data : list ErrorResponse -> any).

Definition bind_with (parse : C -> goerr + T) (c : C) : reply + T := bindAndValidate ValidateStruct errors_data (parse c) err_text.
Definition Body : C -> reply + T := bind_with BodyParser.
Definition Query : C -> reply + T := bind_with QueryParser.
Definition Params : C -> reply + T := bind_with ParamsParser.

(** A handler goes on with a value exactly when it was parsed and is valid; otherwise one reply is written: a 400
    with the parser's message, or a 422 with the responses of the failed fields. *)
Lemma bind_spec (parse : C -> goerr + T) (c : C) :
  match bind_with parse c with
  | inr v => parse c = inr v /\ engine v = Valid
  | inl r =>
      (exists err, parse c = inl err /\ http_status r = StatusBadRequest /\ r_message (body r) = err_text err) \/
      (exists v errs, parse c = inr v /\ engine v <> Valid /\ errs = ValidateStruct v /\ http_status r = StatusUnprocessableEntity /\ r_data (body r) = errors_data errs)
  end \/ exists v, parse c = inr v /\ engine v = Invalid [] /\ bind_with parse c = inr v.
Proof.
  unfold bind_with, bindAndValidate. destruct (parse c) as [err|v]; [left; left; by exists err|]. unfold ValidateStruct. destruct (engine v) as [|ve|text] eqn:Ev.
  - by left.
  - destruct ve as [|fe ve]; [right; by exists v|]. left. cbn [map]. right. exists v. eexists. rewrite Ev. by split_and!.
  - left. right. exists v. eexists. rewrite Ev. by split_and!.
Qed.
End Bind.

(** One response for each failed field, in order. *)
Lemma ValidateStruct_fields (payload : T) (ve : list FieldError) : engine payload = Invalid ve ->
  map Field (ValidateStruct payload) = map fe_Field ve /\ map Tag (ValidateStruct payload) = map fe_Tag ve.
Proof. intros E. unfold ValidateStruct. rewrite E, !map_map. done. Qed.
End Validate.

(** Errors name a field as the OpenAPI document does, when the document has it, unless its name is a single hyphen. *)
Lemma names_agree (f : gfield) (n : string) : jsonName f = Some n -> n <> "-"%string -> tag_name_func f = n.
Proof.
  unfold jsonName, tag_name_func. destruct (String.eqb (json_tag f) "-"); [done|]. intros [= <-].
  destruct (String.eqb_spec (cut "," (json_tag f)).1.1 "") as [->|]; [done|]. intros Hne. by rewrite (proj2 (String.eqb_neq _ _) Hne).
Qed.

(** A field whose JSON name is a hyphen (tag "-,") is documented under it and reported under its Go name. *)
Example hyphen_names : let f := GField "Dash" true false "-," "required" GString in jsonName f = Some "-"%string /\ tag_name_func f = "Dash"%string.
Proof. vm_compute. done. Qed.
