(* ===== verification/OutboxRun.v ===== *)
(** * The outbox relay's loop (outbox/relay.go)

    [Run] processes a batch at every tick until its context is done, whatever a batch ends with. What the
    ticks of a relay without a lock leave of an outbox, and when it is empty. *)

From S2P Require Import Prelude RedisServer Lock Outbox.
Open Scope Z_scope.

Section Run.
  Context {D P S : Type} `{HD : OutboxDB D} `{HP : Publisher P} `{HS : RedisServer S}.

(** The fates of one tick's calls: lock, load, marks. *)
Record tick := Tick { t_acquire : net; t_rnd : error + string; t_at : Z; t_release : net; t_release_at : Z; t_load : net; t_marks : nat -> net * Z }.

(** The loop over the ticks that come before the context is done, with [ctx.Err()] as the result; a batch's error is
    logged. *)
Fixpoint Run (r : Relay) (ctx_err : error) (ticks : list tick) (w : world) : error * list error * world (S := S) (D := D) (P := P) :=
  match ticks with
  | [] => (ctx_err, [], w)
  | t :: ticks =>
      let '((_, err), w) := Process r (t_acquire t) (t_rnd t) (t_at t) (t_release t) (t_release_at t) (t_load t) (t_marks t) w in
      let '(e, logged, w) := Run r ctx_err ticks w in
      (e, match err with Some err => err :: logged | None => logged end, w)
  end.
End Run.

Section Facts.
  Context {D P S : Type} `{HD : OutboxDB D, HL : !OutboxLaws D} `{HP : Publisher P} `{HS : RedisServer S}.

Lemma sublist_take_mono {A} (l : list A) (i j : nat) : (i <= j)%nat -> take i l `sublist_of` take j l.
Proof. intros Hij. replace (take i l) with (take i (take j l)) by (rewrite take_take; f_equal; lia). apply sublist_take. Qed.

(** After any ticks a prefix of the outbox is gone, all of it carried in order; every tick without an error took a batch. *)
Lemma Run_spec (r : Relay) (ctx_err : error) (ticks : list tick) (s : S) (d : D) (p : P) : lock_opt r = None ->
  let '(e, logged, (s', (d', p'))) := Run r ctx_err ticks (s, (d, p)) in
  e = ctx_err /\ exists k out, pending d' = drop k (pending d) /\ carried p' = carried p ++ out /\
    map message (take k (pending d)) `sublist_of` out /\ out ⊆ map message (pending d) /\
    (Nat.min (length (pending d)) ((length ticks - length logged) * Z.to_nat (batchSize r)) <= k)%nat /\ (length logged <= length ticks)%nat.
Proof.
  intros Hlock. revert s d p. induction ticks as [|t ticks IH]; intros s d p; cbn [Run].
  { split; [done|]. exists 0%nat, []. rewrite app_nil_r. cbn. split_and!; try done; try apply list_subseteq_nil; lia. }
  unfold Process. rewrite Hlock. pose proof (process_outcome r (t_load t) (t_marks t) d p) as Ho.
  destruct (process r (t_load t) (t_marks t) d p) as [[n err] [d1 p1]]. destruct Ho as (i & j & Hn & Hj & Hd & Hc & Hok).
  specialize (IH s d1 p1). destruct (Run r ctx_err ticks (s, (d1, p1))) as [[e logged] [s' [d' p']]].
  destruct IH as (-> & k & out & Hd' & Hc' & Hsub & Hin & Hk & Hlen). split; [done|].
  exists (i + k)%nat, (map message (take j (pending d)) ++ out). split_and!.
  - by rewrite Hd', Hd, drop_drop.
  - by rewrite Hc', Hc, app_assoc.
  - rewrite <- (take_drop i (take (i + k) (pending d))), map_app, take_take. replace ((i `min` (i + k))%nat) with i by lia.
    rewrite skipn_firstn_comm. replace (i + k - i)%nat with k by lia. rewrite <- Hd. apply sublist_app; [|exact Hsub].
    apply (fmap_sublist message). apply sublist_take_mono. lia.
  - intros m [Hm|Hm]%elem_of_app.
    + apply list_elem_of_fmap in Hm as (ev & -> & He). apply list_elem_of_fmap. exists ev. split; [done|]. by eapply elem_of_take in He as (? & ? & _); eapply list_elem_of_lookup_2.
    + apply Hin in Hm. rewrite Hd in Hm. apply list_elem_of_fmap in Hm as (ev & -> & He). apply list_elem_of_fmap. exists ev. split; [done|].
      rewrite <- (take_drop i (pending d)). apply elem_of_app. by right.
  - rewrite Hd, length_drop in Hk. destruct err as [err|]; cbn [length].
    + replace (Datatypes.S (length ticks) - Datatypes.S (length logged))%nat with (length ticks - length logged)%nat by lia. lia.
    + destruct (Hok eq_refl) as (_ & _ & ->). replace (Datatypes.S (length ticks) - length logged)%nat with (Datatypes.S (length ticks - length logged)) by lia.
      cbn [Nat.mul]. lia.
  - destruct err; cbn [length]; lia.
Qed.
End Facts.

(** (C10) The loop of a relay without a distributed lock never stops on an error, and it drains the outbox: however its calls
    fail in between, once the ticks that ended without an error are enough for the events that were pending, none is pending any more
    and the publisher has carried every one of them, in order. (With [WithLock], a tick
    that finds the lock held elsewhere ends without an error and without having done anything.) *)
Theorem Run_drains {D P S : Type} `{HD : OutboxDB D, HL : !OutboxLaws D} `{HP : Publisher P} `{HS : RedisServer S}
    (r : Relay) (ctx_err : error) (ticks : list tick) (s : S) (d : D) (p : P) (Hlock : lock_opt r = None) :
  let '(e, logged, (s', (d', p'))) := Run r ctx_err ticks (s, (d, p)) in
  e = ctx_err /\ (length logged <= length ticks)%nat /\
  ((length (pending d) <= (length ticks - length logged) * Z.to_nat (batchSize r))%nat ->
     pending d' = [] /\ exists out, carried p' = carried p ++ out /\ map message (pending d) `sublist_of` out).
Proof.
  pose proof (Run_spec r ctx_err ticks s d p Hlock) as Ho. destruct (Run r ctx_err ticks (s, (d, p))) as [[e logged] [s' [d' p']]].
  destruct Ho as (-> & k & out & Hd & Hc & Hsub & _ & Hk & Hlen). split_and!; [done|done|]. intros Henough.
  split; [rewrite Hd; apply drop_ge; lia|]. exists out. split; [done|]. rewrite take_ge in Hsub by lia. exact Hsub.
Qed.

Import Mem MemOutbox.

Definition ok_tick : tick := Tick NetOk (inr "r"%string) 0 NetOk 0 NetOk (fun _ => (NetOk, 7)).
Definition bad_tick : tick := Tick NetOk (inr "r"%string) 0 NetOk 0 (LostReply (Err "timeout")) (fun _ => (NetOk, 7)).
Definition lossy_tick : tick := Tick NetOk (inr "r"%string) 0 NetOk 0 NetOk (fun _ => (LostRequest (Err "lost"), 7)).
Definition one_at_a_time : Relay := NewRelay [WithBatchSize 1].
Definition sample_ticks : list tick := [bad_tick; ok_tick; lossy_tick; ok_tick].

Lemma Run_drains_witness : lock_opt one_at_a_time = None /\
  let '(_, logged, (_, (d', p'))) := Run one_at_a_time (Err "context canceled") sample_ticks ((∅ : Mem.store), (two, ([] : list (string * string)))) in
  length logged = 2%nat /\ pending d' = [] /\ exists out, carried p' = out /\ [("a", "1"); ("b", "2")]%string `sublist_of` out.
Proof.
  split; [reflexivity|].
  pose proof (Run_drains one_at_a_time (Err "context canceled") sample_ticks (∅ : Mem.store) two ([] : list (string * string)) eq_refl) as Hw.
  assert (Hl : length (Run one_at_a_time (Err "context canceled") sample_ticks ((∅ : Mem.store), (two, ([] : list (string * string))))).1.2 = 2%nat) by (vm_compute; reflexivity).
  destruct (Run one_at_a_time _ sample_ticks _) as [[e logged] [s' [d' p']]]. cbn [fst snd] in Hl. destruct Hw as (_ & _ & Hw). split; [exact Hl|].
  destruct Hw as (Hd & out & Hc & Hsub); [rewrite Hl; vm_compute; lia|]. split; [exact Hd|]. exists out. split; [exact Hc|exact Hsub].
Defined.
