(* ===== verification/Cli.v ===== *)
(** * The command line (cmd/fibr/main.go)

    What cobra and pflag hand over is data: the flags of a line in order, already typed, and the
    arguments that are left; a line they refuse is an error. The table of flags with the option
    each is bound to, the defaults, the argument counts, and what each command then runs are the
    code's. [Generator]'s parameters (templates, gofmt, writes, clock format, commands) stay
    parameters here. *)

From S2P Require Import Prelude GoStrings Generator.
Open Scope Z_scope.

(** ** The flags of [fibr new] *)

Inductive str_flag := FModule | FDB | FLayout | FDir | FHelpersVersion | FLocal.
Inductive bool_flag := FSample | FAuth | FAuthWithTeam | FQueue | FMailer | FRealtime | FI18n | FNoGit | FNoTidy.
Inductive flag := StringFlag (f : str_flag) (v : string) | BoolFlag (f : bool_flag) (b : bool).

#[export] Instance str_flag_eq : EqDecision str_flag.
Proof. solve_decision. Defined.
#[export] Instance bool_flag_eq : EqDecision bool_flag.
Proof. solve_decision. Defined.

Definition str_name (f : str_flag) : string :=
  match f with
  | FModule => "module" | FDB => "db" | FLayout => "layout" | FDir => "dir"
  | FHelpersVersion => "helpers-version" | FLocal => "local"
  end.
Definition bool_name (f : bool_flag) : string :=
  match f with
  | FSample => "sample" | FAuth => "auth" | FAuthWithTeam => "auth-with-team" | FQueue => "queue" | FMailer => "mailer"
  | FRealtime => "realtime" | FI18n => "i18n" | FNoGit => "no-git" | FNoTidy => "no-tidy"
  end.
Definition flag_name (f : flag) : string :=
  match f with StringFlag f _ => str_name f | BoolFlag f _ => bool_name f end.

(** The option a flag is bound to. *)
Definition str_get (f : str_flag) (o : Options) : string :=
  match f with
  | FModule => o_Module o | FDB => o_DB o | FLayout => o_Layout o | FDir => o_Dir o
  | FHelpersVersion => o_HelpersVersion o | FLocal => Local_ o
  end.
Definition bool_get (f : bool_flag) (o : Options) : bool :=
  match f with
  | FSample => o_Sample o | FAuth => o_Auth o | FAuthWithTeam => o_Team o | FQueue => o_Queue o | FMailer => o_Mailer o
  | FRealtime => o_Realtime o | FI18n => o_I18n o | FNoGit => NoGit o | FNoTidy => NoTidy o
  end.

Definition with_rest (realtime i18n nogit notidy : bool) (version local : string) (o : Options) : Options :=
  MkOptions (o_Name o) (o_Module o) (o_DB o) (o_Layout o) (o_Sample o) (o_Auth o) (o_Team o) (o_Queue o) (o_Mailer o)
    realtime i18n (o_Dir o) nogit notidy version local.
Definition str_set (f : str_flag) (v : string) (o : Options) : Options :=
  match f with
  | FModule => set_Module v o | FDB => set_DB v o | FLayout => set_Layout v o | FDir => set_Dir v o
  | FHelpersVersion => with_rest (o_Realtime o) (o_I18n o) (NoGit o) (NoTidy o) v (Local_ o) o
  | FLocal => with_rest (o_Realtime o) (o_I18n o) (NoGit o) (NoTidy o) (o_HelpersVersion o) v o
  end.
Definition bool_set (f : bool_flag) (b : bool) (o : Options) : Options :=
  match f with
  | FSample => set_Sample b o | FAuth => set_Auth b o | FAuthWithTeam => set_Team b o
  | FQueue => set_Queue b o | FMailer => set_Mailer b o
  | FRealtime => with_rest b (o_I18n o) (NoGit o) (NoTidy o) (o_HelpersVersion o) (Local_ o) o
  | FI18n => with_rest (o_Realtime o) b (NoGit o) (NoTidy o) (o_HelpersVersion o) (Local_ o) o
  | FNoGit => with_rest (o_Realtime o) (o_I18n o) b (NoTidy o) (o_HelpersVersion o) (Local_ o) o
  | FNoTidy => with_rest (o_Realtime o) (o_I18n o) (NoGit o) b (o_HelpersVersion o) (Local_ o) o
  end.
Definition flag_set (f : flag) (o : Options) : Options :=
  match f with StringFlag f v => str_set f v o | BoolFlag f b => bool_set f b o end.

(** The defaults the flags are declared with. *)
Definition default_options : Options :=
  MkOptions "" "" "postgres" "ddd" false false false false false false false "" false false "latest" "".

(** pflag stores each value as it meets it; [Changed] is whether a flag was on the line. *)
Definition parse_flags (flags : list flag) : Options := fold_left (fun o f => flag_set f o) flags default_options.
Definition Changed (flags : list flag) (name : string) : bool := existsb (fun f => String.eqb name (flag_name f)) flags.

(** ** The commands *)

Inductive line :=
| Usage
| New_ (flags : list flag) (args : list string)
| AddModule_ (dir layout : option string) (args : list string)
| Refused (e : error).

(** What a run reads: standard input, whether it is a terminal, [os.ReadDir], random bytes, the clock. *)
Record inputs := MkInputs { stdin : string; tty : bool; readdir : string -> option error; random : error + string; clock : Z }.

(** The options [fibr new] generates from. *)
Definition new_options (i : inputs) (flags : list flag) (args : list string) : option error * Options :=
  let o := parse_flags flags in
  let o := match args with [name] => set_Name name o | _ => o end in
  Resolve (stdin i) (tty i) (Changed flags) o.

Section Cli.
  Context (render : string -> tdata -> error + string) (format : string -> error + string)
    (fate : string -> io) (stuck : string -> bool) (stamp : Z -> string) (runCmd : string -> list string -> fs -> fs).

Definition newNewCmd (i : inputs) (flags : list flag) (args : list string) (s : fs) : option error * fs :=
  if (1 <? length args)%nat then (Some (Err "accepts at most 1 arg(s)"), s)
  else match new_options i flags args with
       | (Some e, _) => (Some e, s)
       | (None, o) => Generate render format fate stuck stamp runCmd o (readdir i (o_Dir o)) (random i) (clock i) s
       end.

Definition newAddModuleCmd (i : inputs) (dir layout : option string) (args : list string) (s : fs) : option error * fs :=
  match args with
  | [name] => AddModule render format fate stuck stamp name (default "."%string dir) (default EmptyString layout) (clock i) s
  | _ => (Some (Err "accepts 1 arg(s)"), s)
  end.

Definition Execute (i : inputs) (l : line) (s : fs) : option error * fs :=
  match l with
  | Usage => (None, s)
  | New_ flags args => newNewCmd i flags args s
  | AddModule_ dir layout args => newAddModuleCmd i dir layout args s
  | Refused e => (Some e, s)
  end.

(** [main]: the exit status, and what standard error gets. *)
Definition main (i : inputs) (l : line) (s : fs) : Z * option error * fs :=
  match Execute i l s with (Some e, s) => (1, Some e, s) | (None, s) => (0, None, s) end.
End Cli.

(** [mountHint]: the import and the call that mount the new module. *)
Definition tab : string := String (chr 9) EmptyString.
Definition quote : string := String (chr 34) EmptyString.
Definition mountHint (layout modulePath : string) (md : ModuleData) : string * string :=
  if String.eqb layout "ddd" then
    (tab +:+ ("httpiface " +:+ (quote +:+ (modulePath +:+ ("/internal/interface/http" +:+ quote)))),
     "app.Mount(httpiface.New" +:+ (Type_ md +:+ "Module(db))"))
  else if String.eqb layout "layered" then
    (tab +:+ (quote +:+ (modulePath +:+ ("/internal/handler" +:+ quote))),
     "app.Mount(handler.New" +:+ (Type_ md +:+ "Module(db))"))
  else (EmptyString, EmptyString).

(** * Proofs *)

(** The value a line gives a flag: the last one. *)
Definition last_str (f : str_flag) (flags : list flag) : option string :=
  last (omap (fun x => match x with StringFlag g v => if decide (g = f) then Some v else None | _ => None end) flags).
Definition last_bool (f : bool_flag) (flags : list flag) : option bool :=
  last (omap (fun x => match x with BoolFlag g b => if decide (g = f) then Some b else None | _ => None end) flags).

Lemma str_get_set f g v o : str_get f (str_set g v o) = if decide (g = f) then v else str_get f o.
Proof. by destruct f, g. Qed.
Lemma str_get_bool f g b o : str_get f (bool_set g b o) = str_get f o.
Proof. by destruct f, g. Qed.
Lemma bool_get_set f g b o : bool_get f (bool_set g b o) = if decide (g = f) then b else bool_get f o.
Proof. by destruct f, g. Qed.
Lemma bool_get_str f g v o : bool_get f (str_set g v o) = bool_get f o.
Proof. by destruct f, g. Qed.

Lemma parse_flags_snoc flags x : parse_flags (flags ++ [x]) = flag_set x (parse_flags flags).
Proof. apply (fold_left_app (fun o f => flag_set f o)). Qed.

Lemma parse_flags_str f flags : str_get f (parse_flags flags) = default (str_get f default_options) (last_str f flags).
Proof.
  induction flags as [|x flags IH] using rev_ind; [done|]. rewrite parse_flags_snoc. unfold last_str in *. rewrite omap_app.
  destruct x as [g v|g b]; csimpl.
  - rewrite str_get_set. case_decide; csimpl; [by rewrite last_snoc|by rewrite app_nil_r].
  - by rewrite str_get_bool, app_nil_r.
Qed.

Lemma parse_flags_bool f flags : bool_get f (parse_flags flags) = default (bool_get f default_options) (last_bool f flags).
Proof.
  induction flags as [|x flags IH] using rev_ind; [done|]. rewrite parse_flags_snoc. unfold last_bool in *. rewrite omap_app.
  destruct x as [g v|g b]; csimpl.
  - by rewrite bool_get_str, app_nil_r.
  - rewrite bool_get_set. case_decide; csimpl; [by rewrite last_snoc|by rewrite app_nil_r].
Qed.

Lemma last_omap_elem {A B} (g : A -> option B) l v : last (omap g l) = Some v -> exists x, x ∈ l /\ g x = Some v.
Proof. intros Hl. apply last_Some_elem_of in Hl. by apply list_elem_of_omap in Hl. Qed.

Lemma Changed_elem flags x : x ∈ flags -> Changed flags (flag_name x) = true.
Proof. intros Hx. apply existsb_exists. exists x. split; [by apply list_elem_of_In|apply String.eqb_refl]. Qed.

Lemma Changed_str f flags v : last_str f flags = Some v -> Changed flags (str_name f) = true.
Proof.
  intros ([g w|g b] & Hin & Hg)%last_omap_elem; [|done]. case_decide; [|done]. subst g. exact (Changed_elem _ _ Hin).
Qed.
Lemma Changed_bool f flags b : last_bool f flags = Some b -> Changed flags (bool_name f) = true.
Proof.
  intros ([g w|g c] & Hin & Hg)%last_omap_elem; [done|]. case_decide; [|done]. subst g. exact (Changed_elem _ _ Hin).
Qed.

(** A question leaves every option alone that its answer is not stored in. *)
Section Asking.
  Context {A : Type} (get : Options -> A).

Lemma ask_string_get ask def set oi : (forall v o, get (set v o) = get o) -> get (ask_string ask def set oi).1 = get oi.1.
Proof. intros Hg. unfold ask_string. destruct ask; [|done]. destruct (prompt def oi.2). apply Hg. Qed.
Lemma ask_bool_get ask set oi : (forall v o, get (set v o) = get o) -> get (ask_bool ask set oi).1 = get oi.1.
Proof. intros Hg. unfold ask_bool. destruct ask; [|done]. destruct (yesNo oi.2). apply Hg. Qed.
End Asking.

(** What [Validate] does to options it accepts. *)
Lemma Validate_ok o o' : Validate o = (None, o') ->
  o' = (if is_empty (o_Dir o) then set_Dir (o_Name o) (team_auth o) else team_auth o).
Proof.
  unfold Validate. fold (team_auth o).
  assert (Hd : o_Dir (team_auth o) = o_Dir o) by (unfold team_auth; by destruct (o_Team o)).
  assert (Hn : o_Name (team_auth o) = o_Name o) by (unfold team_auth; by destruct (o_Team o)).
  destruct (is_empty (o_Name (team_auth o))); [done|]. destruct (_ || _); [done|].
  destruct (is_empty (o_Module (team_auth o))); [done|]. destruct (negb _); [done|]. destruct (negb _); [done|].
  rewrite Hd, Hn. intros [= <-]. done.
Qed.

(** The options after the questions. *)
Definition asked (input : string) (interactive : bool) (changed : string -> bool) (o : Options) : Options :=
  let oi := (o, input) in
  if interactive then
    let oi := ask_string (is_empty (o_Name oi.1)) EmptyString set_Name oi in
    let oi := ask_string (is_empty (o_Module oi.1)) EmptyString set_Module oi in
    let oi := ask_string (negb (changed "db"%string)) (o_DB oi.1) set_DB oi in
    let oi := ask_string (negb (changed "layout"%string)) (o_Layout oi.1) set_Layout oi in
    let oi := ask_bool (negb (changed "sample"%string) && negb (o_Sample oi.1)) set_Sample oi in
    let oi := ask_bool (negb (changed "auth"%string) && negb (o_Auth oi.1)) set_Auth oi in
    let oi := ask_bool (o_Auth oi.1 && negb (changed "auth-with-team"%string) && negb (o_Team oi.1)) set_Team oi in
    let oi := ask_bool (negb (changed "queue"%string) && negb (o_Queue oi.1)) set_Queue oi in
    (ask_bool (negb (changed "mailer"%string) && negb (o_Mailer oi.1)) set_Mailer oi).1
  else o.

Lemma Resolve_asked input interactive changed o : Resolve input interactive changed o = Validate (asked input interactive changed o).
Proof. by destruct interactive. Qed.

(** One pass over the questions: those about other options do not matter, the one about this
    option is not asked. *)
Ltac skip_questions :=
  repeat first [ rewrite ask_bool_get by done | rewrite ask_string_get by done ].

Lemma asked_str f input interactive changed o :
  changed (str_name f) = true -> (f = FModule -> o_Module o <> EmptyString) ->
  str_get f (asked input interactive changed o) = str_get f o.
Proof.
  intros Hc Hm. destruct interactive; [|done]. unfold asked.
  destruct f; cbn [str_get str_name] in *; try (rewrite Hc; cbn [negb andb]); skip_questions; try done.
  - assert (Hn : is_empty (o_Module (ask_string (is_empty (o_Name o)) EmptyString set_Name (o, input)).1) = false).
    { skip_questions. by apply String.eqb_neq, Hm. }
    cbn [fst]. rewrite Hn. unfold ask_string at 1. by skip_questions.
  - unfold ask_string at 1. by skip_questions.
  - unfold ask_string at 1. by skip_questions.
Qed.

Lemma asked_bool f input interactive changed o :
  changed (bool_name f) = true -> bool_get f (asked input interactive changed o) = bool_get f o.
Proof.
  intros Hc. destruct interactive; [|done]. unfold asked.
  destruct f; cbn [bool_get bool_name] in *; try (rewrite Hc; cbn [negb]; rewrite ?andb_false_r; cbn [andb]); skip_questions;
    try done; unfold ask_bool at 1; skip_questions; done.
Qed.

Lemma asked_name input interactive changed o : o_Name o <> EmptyString -> o_Name (asked input interactive changed o) = o_Name o.
Proof.
  intros Hn. destruct interactive; [|done]. unfold asked. skip_questions.
  unfold ask_string, is_empty. cbn [fst]. by rewrite (proj2 (String.eqb_neq _ _) Hn).
Qed.

Lemma str_get_validated f o o' : Validate o = (None, o') -> (f = FDir -> o_Dir o <> EmptyString) -> str_get f o' = str_get f o.
Proof.
  intros ->%Validate_ok Hd. unfold team_auth. destruct f; try (by destruct (o_Team o), (is_empty (o_Dir o))).
  specialize (Hd eq_refl). unfold is_empty. rewrite (proj2 (String.eqb_neq _ _) Hd). by destruct (o_Team o).
Qed.
Lemma bool_get_validated f o o' : Validate o = (None, o') ->
  bool_get f o' = bool_get f o || (bool_decide (f = FAuth) && o_Team o).
Proof.
  intros ->%Validate_ok. unfold team_auth. destruct f; destruct (o_Team o) eqn:Ht, (is_empty (o_Dir o)); simpl;
    by rewrite ?Ht, ?orb_true_r, ?orb_false_r.
Qed.
Lemma o_Name_validated o o' : Validate o = (None, o') -> o_Name o' = o_Name o.
Proof. intros ->%Validate_ok. unfold team_auth. by destruct (o_Team o), (is_empty (o_Dir o)). Qed.
Lemma o_Team_validated o o' : Validate o = (None, o') -> o_Team o' = o_Team o.
Proof. intros Hv. pose proof (bool_get_validated FAuthWithTeam o o' Hv) as Ht. simpl in Ht. by rewrite orb_false_r in Ht. Qed.

Definition named (args : list string) (o : Options) : Options := match args with [name] => set_Name name o | _ => o end.
Lemma str_get_named f args o : str_get f (named args o) = str_get f o.
Proof. destruct args as [|n [|? ?]]; by destruct f. Qed.
Lemma bool_get_named f args o : bool_get f (named args o) = bool_get f o.
Proof. destruct args as [|n [|? ?]]; by destruct f. Qed.

(** The command line wins over the terminal. When [fibr new] goes on to generate, it
    generates with the last value the line gives each flag, whatever is typed at the prompts, up
    to three exceptions: an empty module path or directory counts as not given, and auth is on
    whenever teams are. The name argument, when it is not empty, is the project's name. Without a
    terminal nothing is asked: every flag the line does not have keeps its default, and an absent
    directory is the project's name. *)
Theorem new_flags_win i flags args o' : new_options i flags args = (None, o') ->
  (forall f v, last_str f flags = Some v -> (f = FModule \/ f = FDir -> v <> EmptyString) -> str_get f o' = v) /\
  (forall f b, last_bool f flags = Some b -> bool_get f o' = b || (bool_decide (f = FAuth) && o_Team o')) /\
  (forall n, args = [n] -> n <> EmptyString -> o_Name o' = n) /\
  (tty i = false ->
     (forall f, last_str f flags = None -> str_get f o' = if decide (f = FDir) then o_Name o' else str_get f default_options) /\
     (forall f, last_bool f flags = None -> bool_get f o' = bool_get f default_options || (bool_decide (f = FAuth) && o_Team o'))).
Proof.
  unfold new_options. cbv zeta. fold (named args (parse_flags flags)). set (o := named args (parse_flags flags)).
  rewrite Resolve_asked. intros Hv.
  assert (Hs : forall f, str_get f o = default (str_get f default_options) (last_str f flags))
    by (intros f; unfold o; by rewrite str_get_named, parse_flags_str).
  assert (Hb : forall f, bool_get f o = default (bool_get f default_options) (last_bool f flags))
    by (intros f; unfold o; by rewrite bool_get_named, parse_flags_bool).
  split_and!.
  - intros f v Hf Hne. pose proof (Changed_str f flags v Hf) as Hc. specialize (Hs f). rewrite Hf in Hs. simpl in Hs.
    assert (Ha : str_get f (asked (stdin i) (tty i) (Changed flags) o) = v).
    { rewrite asked_str; [done|exact Hc|]. intros ->. change (o_Module o) with (str_get FModule o). rewrite Hs. apply Hne. by left. }
    rewrite (str_get_validated f _ _ Hv); [done|]. intros ->. change (o_Dir ?x) with (str_get FDir x). rewrite Ha. apply Hne. by right.
  - intros f b Hf. rewrite (bool_get_validated f _ _ Hv), (asked_bool f) by exact (Changed_bool f flags b Hf).
    rewrite Hb, Hf. by rewrite (o_Team_validated _ _ Hv).
  - intros n -> Hn. rewrite (o_Name_validated _ _ Hv), asked_name; done.
  - intros Ht. rewrite Ht in Hv. unfold asked in Hv. split; intros f Hf.
    + case_decide as Hd.
      * subst f. rewrite (o_Name_validated _ _ Hv). specialize (Hs FDir). rewrite Hf in Hs. simpl in Hs.
        rewrite (Validate_ok _ _ Hv), Hs. done.
      * rewrite (str_get_validated f _ _ Hv) by (by intros ->). by rewrite Hs, Hf.
    + rewrite (bool_get_validated f _ _ Hv), (o_Team_validated _ _ Hv), Hb, Hf. done.
Qed.

Lemma Validate_layout o o' : Validate o = (None, o') -> valid_layout (o_Layout o') = true.
Proof.
  intros Hv. change (o_Layout o') with (str_get FLayout o'). rewrite (str_get_validated FLayout _ _ Hv) by done.
  revert Hv. unfold Validate. fold (team_auth o). assert (Hl : o_Layout (team_auth o) = o_Layout o) by (unfold team_auth; by destruct (o_Team o)).
  rewrite Hl. destruct (is_empty _); [done|]. destruct (_ || _); [done|]. destruct (is_empty _); [done|].
  destruct (negb (valid_db _)); [done|]. by destruct (valid_layout (o_Layout o)) eqn:?.
Qed.

Section Main.
  Context (render : string -> tdata -> error + string) (format : string -> error + string)
    (fate : string -> io) (stuck : string -> bool) (stamp : Z -> string) (runCmd : string -> list string -> fs -> fs)
    (stamp_ok : forall z, String.length (stamp z) = 14%nat /\ sforall is_digit (stamp z) = true).

(** The exit status of [fibr new] tells what is on disk. It is 0 exactly when nothing is
    reported. With status 1 no file outside the project directory differs and either nothing has
    changed or no file that can be removed is left in it; with status 0 the directory was not in use and every file
    and migration planned for the options of the line (and of the prompts) is there when the
    external commands start. For a directory other than the current one. *)
Theorem new_exit_status i flags args s :
  let '(status, reported, s') := main render format fate stuck stamp runCmd i (New_ flags args) s in
  let '(_, o) := new_options i flags args in
  (status = 0 <-> reported = None) /\ (status = 1 <-> reported <> None) /\
  (o_Dir o <> "."%string -> has_suffix "/." (o_Dir o) = false ->
   (status = 1 -> s' = s \/ cleared stuck (o_Dir o) s s') /\
   (status = 0 -> new_options i flags args = (None, o) /\
      exists secret s1, s' = post_commands runCmd (team_auth o) s1 /\ dirNonEmpty (o_Dir o) s = false /\
        (forall it, it ∈ planned stamp (team_auth o) (project_data (team_auth o) secret) (user_module (team_auth o)) (clock i) ->
           exists c, rendered render format (i_spec it) (i_data it) c /\ files s1 !! Join (o_Dir o) (dest (i_spec it)) = Some c) /\
        (forall p, under (o_Dir o) p = false -> files s1 !! p = files s !! p))).
Proof.
  unfold main. cbn [Execute]. unfold newNewCmd.
  destruct (1 <? length args)%nat; [destruct (new_options i flags args); split_and!; try done; intros; split; [by left|done]|].
  destruct (new_options i flags args) as [[e|] o] eqn:Ho; [split_and!; try done; intros; split; [by left|done]|].
  pose proof (Generate_outcome render format fate stuck stamp runCmd stamp_ok o (readdir i (o_Dir o)) (random i) (clock i) s) as Hg.
  assert (Hl : valid_layout (o_Layout o) = true).
  { revert Ho. unfold new_options. cbv zeta. rewrite Resolve_asked. apply Validate_layout. }
  destruct (Generate _ _ _ _ _ _ _ _ _ _ _) as [[e|] s']; cbv zeta beta iota in *; (split_and!; [done|done|]);
    intros Hd Hsuf; specialize (Hg Hl Hd Hsuf); (split; [|try done]); [done|done|].
  intros _. split; [done|]. destruct Hg as (secret & s1 & Hs & He & _ & Hin & Hout). by exists secret, s1.
Qed.
End Main.

(** ** Concrete runs *)

(** A user at a terminal who answers each prompt; the database, layout and teams are on the line. *)
Definition typed : string := "acme" +:+ String newline ("y" +:+ String newline ("n" +:+ String newline ("y" +:+ String newline "n"))).
Definition toy_inputs : inputs := MkInputs typed true (fun _ => None) (inr "k"%string) 0.
Definition toy_line : list flag :=
  [StringFlag FDB "postgres"; StringFlag FDB "sqlite"; StringFlag FLayout "layered"; BoolFlag FAuthWithTeam true; BoolFlag FQueue false].

Lemma new_flags_win_witness :
  exists o', new_options toy_inputs toy_line ["shop"%string] = (None, o') /\ str_get FDB o' = "sqlite"%string /\
    str_get FLayout o' = "layered"%string /\ bool_get FQueue o' = false /\ o_Name o' = "shop"%string /\
    o_Module o' = "acme"%string /\ o_Sample o' = true /\ o_Auth o' = true.
Proof.
  destruct (new_options toy_inputs toy_line ["shop"%string]) as [e o'] eqn:Ho.
  assert (He : e = None) by (revert Ho; vm_compute; congruence). subst e. exists o'.
  destruct (new_flags_win toy_inputs toy_line ["shop"%string] o' Ho) as (Hs & Hb & Hn & _).
  split; [reflexivity|].
  split; [apply (Hs FDB); [reflexivity|intros [|]; discriminate]|].
  split; [apply (Hs FLayout); [reflexivity|intros [|]; discriminate]|].
  split; [apply (Hb FQueue false); reflexivity|].
  split; [apply (Hn "shop"%string); [reflexivity|discriminate]|].
  revert Ho. vm_compute. intros [= <-]. split_and!; reflexivity.
Defined.

Lemma new_exit_status_witness :
  let '(status, reported, s') := main toy_render toy_format (fun _ => IoOk) all_removable toy_stamp toy_run toy_inputs (New_ toy_line ["shop"%string]) no_files in
  status = 0 /\ reported = None /\ exists c, files s' !! "shop/go.mod"%string = Some c.
Proof.
  pose proof (new_exit_status toy_render toy_format (fun _ => IoOk) all_removable toy_stamp toy_run toy_stamp_ok toy_inputs toy_line ["shop"%string] no_files) as H.
  assert (Hst : (main toy_render toy_format (fun _ => IoOk) all_removable toy_stamp toy_run toy_inputs (New_ toy_line ["shop"%string]) no_files).1.1 = 0)
    by (vm_compute; reflexivity).
  assert (Hf : files (main toy_render toy_format (fun _ => IoOk) all_removable toy_stamp toy_run toy_inputs (New_ toy_line ["shop"%string]) no_files).2
    !! "shop/go.mod"%string = Some "rendered common/gomod.tmpl"%string) by (vm_compute; reflexivity).
  revert H Hst Hf. destruct (main _ _ _ _ _ _ _ _ _) as [[status reported] s']. destruct (new_options _ _ _) as [e o].
  cbn [fst snd]. intros (Hr & _) -> Hf. split; [reflexivity|]. split; [by apply Hr|]. by exists "rendered common/gomod.tmpl"%string.
Defined.

(** An empty [--module] is on the line and still asked for, an answered auth question is overruled
    by [--auth-with-team]. *)
Lemma empty_module_is_prompted :
  let i := MkInputs ("acme" +:+ String newline EmptyString) true (fun _ => None) (inr EmptyString) 0 in
  o_Module (new_options i [StringFlag FModule ""] ["shop"%string]).2 = "acme"%string.
Proof. reflexivity. Qed.
