(* ===== verification/FibrTest.v ===== *)
(** * The test client (fibrtest/client.go, request.go, response.go, token.go)

    A client holds default headers and a timeout; a request is built step by step and run against
    the app. The app ([app.Test] with the reading of the body, [serve]), JSON and token signing are
    parameters. [TB] is the test: a real one stops at a fatal failure, a stub goes on. Header keys
    are canonicalized as net/http does, and maps of headers are ranged over in any order. *)

From S2P Require Import Prelude GoStrings GoUrl.
From S2P Require Fiber Jwt.
Open Scope Z_scope.

(** ** The test *)

(** Whether [Fatalf] ends the test's goroutine, and what it was called with. *)
Record TB := MkTB { aborts : bool; fatals : list string }.
Definition Fatalf {A} (msg : string) (a : A) (t : TB) : TB * option A :=
  (MkTB (aborts t) (fatals t ++ [msg]), if aborts t then None else Some a).
Definition continue {A} (a : A) (t : TB) : TB * option A := (t, Some a).
Definition bind {A B} (x : TB * option A) (f : A -> TB -> TB * option B) : TB * option B :=
  match x with (t, Some a) => f a t | (t, None) => (t, None) end.

(** ** Headers ([http.Header]) *)

Definition token_char (c : ascii) : bool :=
  is_lower c || is_upper c || is_digit c ||
  existsb (Ascii.eqb c) ["!"; "#"; "$"; "%"; "&"; "'"; "*"; "+"; "-"; "."; "^"; "_"; "`"; "|"; "~"]%char.
Fixpoint canonical_go (upper : bool) (s : string) : string :=
  match s with
  | EmptyString => EmptyString
  | String c s => String (if upper then upper_char c else lower_char c) (canonical_go (Ascii.eqb c "-") s)
  end.
Definition canonical (k : string) : string := if sforall token_char k then canonical_go true k else k.

Abbreviation headers := (gmap string (list string)).
Definition Set_ (k v : string) (h : headers) : headers := <[canonical k := [v]]> h.

(** Setting every value of a map, keys in the order the range takes. *)
Definition set_all (l : list (string * list string)) (h : headers) : headers :=
  fold_left (fun h kv => fold_left (fun h v => Set_ kv.1 v h) kv.2 h) l h.

(** ** The client *)

Record Client := MkClient { c_headers : headers; timeout : Z }.
Definition defaultTimeout : Z := 10 * Second.
Definition New : Client := MkClient ∅ defaultTimeout.
Definition WithHeader (k v : string) (c : Client) : Client := MkClient (Set_ k v (c_headers c)) (timeout c).
Definition WithBearer (token : string) (c : Client) : Client := WithHeader "Authorization" ("Bearer " +:+ token) c.
Definition WithTimeout (d : Z) (c : Client) : Client := MkClient (c_headers c) d.

(** ** Requests *)

Record Request := MkRequest {
  r_method : string; r_path : string; r_header : headers; r_query : values; r_body : option string; contentType : string }.
Definition Request_ (method path : string) : Request := MkRequest method path ∅ ∅ None "".

Definition Body (raw : string) (ct : string) (r : Request) : Request :=
  MkRequest (r_method r) (r_path r) (r_header r) (r_query r) (Some raw) ct.
Definition Header (k v : string) (r : Request) : Request :=
  MkRequest (r_method r) (r_path r) (Set_ k v (r_header r)) (r_query r) (r_body r) (contentType r).
Definition Bearer (token : string) (r : Request) : Request := Header "Authorization" ("Bearer " +:+ token) r.
Definition Query (k v : string) (r : Request) : Request :=
  MkRequest (r_method r) (r_path r) (r_header r) (add k v (r_query r)) (r_body r) (contentType r).

(** What the app is handed, and what it gives back: an error, or a status and the body or the error
    of reading it. *)
Record http_request := MkHttp { q_method : string; q_target : string; q_headers : headers; q_body : option string }.
Record Response := MkResponse { Raw : option Z; Body_ : string }.

(** The order in which a range over headers visits the keys. *)
Record orders := MkOrders {
  order1 : list (string * list string) -> list (string * list string);
  order2 : list (string * list string) -> list (string * list string);
  order1_perm : forall l, order1 l ≡ₚ l;
  order2_perm : forall l, order2 l ≡ₚ l }.

Section FibrTest.
  Context {V : Type} (Marshal : V -> error + string) (os : orders)
    (serve : http_request -> Z -> error + (Z * (error + string))).

Definition JSON (v : V) (r : Request) (t : TB) : TB * option Request :=
  match Marshal v with
  | inl _ => Fatalf "fibrtest: marshal request body" r t
  | inr b => continue (Body b "application/json" r) t
  end.

(** The request line and headers [Do] builds. *)
Definition target (r : Request) : string :=
  if bool_decide (r_query r = ∅) then r_path r
  else r_path r +:+ ((if contains_char "?" (r_path r) then "&" else "?") +:+ Encode (r_query r)).
Definition build (c : Client) (r : Request) : http_request :=
  let h := set_all (order1 os (map_to_list (c_headers c))) ∅ in
  let h := set_all (order2 os (map_to_list (r_header r))) h in
  MkHttp (r_method r) (target r) (if String.eqb (contentType r) "" then h else Set_ "Content-Type" (contentType r) h) (r_body r).

Definition Do (c : Client) (r : Request) (t : TB) : TB * option Response :=
  match serve (build c r) (Z.quot (timeout c) Millisecond) with
  | inl _ => Fatalf "fibrtest: app.Test" (MkResponse None "") t
  | inr (status, inl _) => Fatalf "fibrtest: read response body" (MkResponse (Some status) "") t
  | inr (status, inr raw) => continue (MkResponse (Some status) raw) t
  end.

Definition bodyRequest (c : Client) (method path : string) (body : option V) (t : TB) : TB * option Response :=
  bind (match body with Some v => JSON v (Request_ method path) t | None => continue (Request_ method path) t end) (Do c).
Definition Get (c : Client) (path : string) : TB -> TB * option Response := Do c (Request_ "GET" path).
Definition Delete (c : Client) (path : string) : TB -> TB * option Response := Do c (Request_ "DELETE" path).
Definition Post (c : Client) (path : string) (body : option V) := bodyRequest c "POST" path body.
Definition Put (c : Client) (path : string) (body : option V) := bodyRequest c "PUT" path body.
Definition Patch (c : Client) (path : string) (body : option V) := bodyRequest c "PATCH" path body.

(** ** Responses *)

Definition Status (r : Response) : Z := default 0 (Raw r).
Definition ExpectStatus (want : Z) (r : Response) (t : TB) : TB * option Response :=
  if Status r =? want then continue r t else Fatalf "fibrtest: expected status" r t.
Definition resp_JSON {A} (Unmarshal : string -> error + A) (r : Response) (t : TB) : TB * option (option A * Response) :=
  match Unmarshal (Body_ r) with
  | inl _ => Fatalf "fibrtest: decode JSON body" (None, r) t
  | inr a => continue (Some a, r) t
  end.
Definition Text (r : Response) : string := Body_ r.
End FibrTest.

Definition Token `{Jwt.JwtLib} (secret : string) (claims : Fiber.claims) (t : TB) : TB * option string :=
  match Jwt.GenerateToken claims secret with
  | inl _ => Fatalf "fibrtest: generate token" "" t
  | inr tok => continue tok t
  end.

(** * Proofs *)

(** ** Headers *)

Lemma canonical_char (b : bool) (c : ascii) :
  let f (b : bool) (c : ascii) := if b then upper_char c else lower_char c in
  (token_char c = true -> token_char (f b c) = true) /\ f b (f b c) = f b c /\ Ascii.eqb (f b c) "-" = Ascii.eqb c "-".
Proof. destruct b, c as [[] [] [] [] [] [] [] []]; vm_compute; split_and!; congruence. Qed.

Lemma canonical_go_idem (b : bool) (s : string) : canonical_go b (canonical_go b s) = canonical_go b s.
Proof.
  revert b. induction s as [|c s IH]; intros b; [done|]. cbn [canonical_go].
  destruct (canonical_char b c) as (_ & H1 & H2). by rewrite H1, H2, IH.
Qed.
Lemma canonical_go_token (b : bool) (s : string) : sforall token_char s = true -> sforall token_char (canonical_go b s) = true.
Proof.
  revert b. induction s as [|c s IH]; intros b; [done|]. cbn [canonical_go sforall].
  intros [Hc Hs]%andb_true_iff. rewrite (proj1 (canonical_char b c) Hc). by apply IH.
Qed.
Lemma canonical_idem (k : string) : canonical (canonical k) = canonical k.
Proof.
  unfold canonical at 2 3. destruct (sforall token_char k) eqn:Hk; [|unfold canonical; by rewrite Hk].
  unfold canonical. by rewrite canonical_go_token, canonical_go_idem.
Qed.

(** Headers that [Set] made: canonical keys, one value each. *)
Definition set_made (h : headers) : Prop := map_Forall (fun k vs => canonical k = k /\ exists v, vs = [v]) h.

Lemma set_made_Set (k v : string) (h : headers) : set_made h -> set_made (Set_ k v h).
Proof. intros Hh. apply map_Forall_insert_2; [|done]. split; [apply canonical_idem|by exists v]. Qed.

Lemma set_all_lookup (l : list (string * list string)) (acc : headers) (k : string) :
  NoDup l.*1 -> (forall kv, kv ∈ l -> canonical kv.1 = kv.1 /\ exists v, kv.2 = [v]) ->
  set_all l acc !! k = match (list_to_map l : headers) !! k with Some vs => Some vs | None => acc !! k end.
Proof.
  revert acc. induction l as [|[k1 vs] l IH]; intros acc Hnd Hl; [done|]. csimpl. apply NoDup_cons in Hnd as [Hk1 Hnd].
  destruct (Hl (k1, vs)) as [Hc (v & Hv)]; [by left|]. cbn [fst snd] in Hc, Hv. subst vs.
  unfold set_all in *. cbn [fold_left fst snd]. rewrite IH; [|done|by intros kv Hin; apply Hl; right]. unfold Set_. rewrite Hc.
  destruct (decide (k = k1)) as [->|Hne]; simplify_map_eq.
  - by rewrite (not_elem_of_list_to_map_1 l k1).
  - done.
Qed.

Lemma set_all_map (ord : list (string * list string)) (h acc : headers) (k : string) : set_made h -> ord ≡ₚ map_to_list h ->
  set_all ord acc !! k = match h !! k with Some vs => Some vs | None => acc !! k end.
Proof.
  intros Hh Hp. assert (Hnd : NoDup ord.*1) by (rewrite Hp; apply NoDup_fst_map_to_list).
  rewrite set_all_lookup; [|done|].
  - by rewrite (list_to_map_proper ord (map_to_list h)), list_to_map_to_list.
  - intros [k' vs] Hin. rewrite Hp in Hin. apply elem_of_map_to_list in Hin. apply (Hh k' vs Hin).
Qed.

(** ** Queries *)

(** Values of one query followed by those of another. *)
Definition combine (a b : values) : values := union_with (fun x y => Some (x ++ y)) a b.

Lemma combine_add (k v : string) (a b : values) : combine a (add k v b) = add k v (combine a b).
Proof.
  apply map_eq. intros k'. unfold combine, add. rewrite lookup_union_with.
  destruct (decide (k = k')) as [->|Hne].
  - rewrite !lookup_insert_eq, lookup_union_with. destruct (a !! k') as [x|], (b !! k') as [y|]; cbn; by rewrite ?app_assoc, ?app_nil_r.
  - rewrite !lookup_insert_ne, lookup_union_with by done. done.
Qed.
Lemma combine_empty (a : values) : combine a ∅ = a.
Proof. apply map_eq. intros k. unfold combine. rewrite lookup_union_with, lookup_empty. by destruct (a !! k). Qed.

Lemma combine_setting (a b : values) (s : string) : parse_setting (combine a b) s = combine a (parse_setting b s).
Proof.
  unfold parse_setting. destruct (_ || _); [done|]. destruct (cut "=" s) as [[k v] ?].
  destruct (QueryUnescape k), (QueryUnescape v); by rewrite ?combine_add.
Qed.
Lemma combine_settings (l : list string) (a b : values) :
  fold_left parse_setting l (combine a b) = combine a (fold_left parse_setting l b).
Proof. revert b. induction l as [|s l IH]; intros b; [done|]. cbn [fold_left]. by rewrite combine_setting, IH. Qed.

Lemma ParseQuery_app (s t : string) : ParseQuery (s +:+ String "&" t) = combine (ParseQuery s) (ParseQuery t).
Proof.
  unfold ParseQuery. rewrite split_app_sep, fold_left_app. rewrite <- (combine_empty (fold_left parse_setting (split "&" s) ∅)) at 1.
  apply combine_settings.
Qed.

(** The query of a target: what follows its first question mark. *)
Definition query_of (t : string) : values := ParseQuery (let '(_, q, _) := cut "?" t in q).
Definition path_of (t : string) : string := let '(p, _, _) := cut "?" t in p.

Lemma target_query (r : Request) : map_Forall (fun _ l => l <> []) (r_query r) ->
  query_of (target r) = combine (query_of (r_path r)) (r_query r) /\ path_of (target r) = path_of (r_path r).
Proof.
  intros Hq. unfold target. case_bool_decide as Hd; [by rewrite Hd, combine_empty|].
  destruct (contains_char "?" (r_path r)) eqn:Hc.
  - apply cut_split in Hc as (p & q & -> & Hp). rewrite <- string_app_assoc. cbn [String.app]. unfold query_of, path_of.
    change (String "?" q +:+ ("&" +:+ Encode (r_query r))) with (String "?" (q +:+ String "&" (Encode (r_query r)))).
    rewrite !cut_app by done. by rewrite ParseQuery_app, ParseQuery_Encode.
  - cbn [String.app]. unfold query_of, path_of. change ("?" +:+ Encode (r_query r)) with (String "?" (Encode (r_query r))).
    rewrite cut_app, cut_no by done. rewrite ParseQuery_Encode by done. split; [|done].
    apply map_eq. intros k. unfold combine. rewrite lookup_union_with. by destruct (r_query r !! k).
Qed.

(** ** What a test sends *)

Section Sends.
  Context {V : Type} (Marshal : V -> error + string) (os : orders)
    (serve : http_request -> Z -> error + (Z * (error + string))).

(** The steps that configure a client and a request. *)
Inductive client_step := CHeader (k v : string) | CBearer (token : string) | CTimeout (d : Z).
Definition client_with (x : client_step) (c : Client) : Client :=
  match x with CHeader k v => WithHeader k v c | CBearer t => WithBearer t c | CTimeout d => WithTimeout d c end.
Definition client_of (xs : list client_step) : Client := fold_left (fun c x => client_with x c) xs New.

Inductive step := SJson (v : V) | SBody (raw ct : string) | SHeader (k v : string) | SBearer (token : string) | SQuery (k v : string).
Definition request_with (x : step) (r : Request) (t : TB) : TB * option Request :=
  match x with
  | SJson v => JSON Marshal v r t
  | SBody raw ct => continue (Body raw ct r) t
  | SHeader k v => continue (Header k v r) t
  | SBearer tok => continue (Bearer tok r) t
  | SQuery k v => continue (Query k v r) t
  end.
Fixpoint request_of (xs : list step) (r : Request) (t : TB) : TB * option Request :=
  match xs with [] => continue r t | x :: xs => bind (request_with x r t) (request_of xs) end.

(** The header a step sets, the parameter it adds, the body it gives. *)
Definition client_header (x : client_step) : option (string * string) :=
  match x with CHeader k v => Some (canonical k, v) | CBearer t => Some ("Authorization", "Bearer " +:+ t)%string | CTimeout _ => None end.
Definition step_header (x : step) : option (string * string) :=
  match x with SHeader k v => Some (canonical k, v) | SBearer t => Some ("Authorization", "Bearer " +:+ t)%string | _ => None end.
Definition step_query (x : step) : option (string * string) := match x with SQuery k v => Some (k, v) | _ => None end.
Definition step_body (x : step) : option (string * string) :=
  match x with
  | SJson v => match Marshal v with inr b => Some (b, "application/json"%string) | inl _ => None end
  | SBody raw ct => Some (raw, ct)
  | _ => None
  end.
Definition last_of (k : string) (l : list (string * string)) : option (list string) :=
  (fun kv => [kv.2]) <$> last (filter (fun kv => kv.1 = k) l).
Definition values_of (k : string) (l : list (string * string)) : list string := map snd (filter (fun kv => kv.1 = k) l).

Lemma last_of_snoc (k : string) (l : list (string * string)) (kv : string * string) :
  last_of k (l ++ [kv]) = if decide (kv.1 = k) then Some [kv.2] else last_of k l.
Proof.
  unfold last_of. rewrite filter_app, filter_cons, filter_nil. case_decide; [by rewrite last_snoc|by rewrite app_nil_r].
Qed.

Lemma Set_lookup (k k' v : string) (h : headers) : Set_ k v h !! k' = if decide (canonical k = k') then Some [v] else h !! k'.
Proof. unfold Set_. case_decide as Hd; [by rewrite Hd, lookup_insert_eq|by rewrite lookup_insert_ne]. Qed.

Lemma client_of_spec (xs : list client_step) :
  set_made (c_headers (client_of xs)) /\
  (forall k, c_headers (client_of xs) !! k = last_of k (omap client_header xs)) /\
  timeout (client_of xs) = default defaultTimeout (last (omap (fun x => match x with CTimeout d => Some d | _ => None end) xs)).
Proof.
  unfold client_of. induction xs as [|x xs (IH1 & IH2 & IH3)] using rev_ind; [split_and!; [apply map_Forall_empty|done|done]|].
  rewrite fold_left_app, !omap_app. destruct x as [k v|tok|d]; cbn [fold_left client_with]; csimpl;
    rewrite ?app_nil_r, ?last_snoc; (split_and!; [by try apply set_made_Set| |done]); try done;
    intros k'; rewrite Set_lookup, last_of_snoc, IH2; done.
Qed.

Lemma request_of_snoc (xs : list step) (x : step) (r : Request) (t : TB) :
  request_of (xs ++ [x]) r t = bind (request_of xs r t) (request_with x).
Proof.
  revert r t. induction xs as [|y xs IH]; intros r t; cbn [request_of app bind].
  - unfold continue. cbn [bind]. by destruct (request_with x r t) as [? [?|]].
  - destruct (request_with y r t) as [t' [r'|]]; [cbn [bind]; apply IH|done].
Qed.

Lemma values_of_snoc (k : string) (l : list (string * string)) (kv : string * string) :
  values_of k (l ++ [kv]) = values_of k l ++ (if decide (kv.1 = k) then [kv.2] else []).
Proof. unfold values_of. rewrite filter_app, filter_cons, filter_nil, map_app. by case_decide. Qed.

Lemma request_of_spec (xs : list step) (method path : string) (t t' : TB) (r : Request) :
  request_of xs (Request_ method path) t = (t', Some r) ->
  (r_method r = method /\ r_path r = path) /\ set_made (r_header r) /\
  (forall k, r_header r !! k = last_of k (omap step_header xs)) /\
  (forall k, r_query r !! k = match values_of k (omap step_query xs) with [] => None | vs => Some vs end) /\
  (r_body r, contentType r) = match last (omap step_body xs) with Some (b, ct) => (Some b, ct) | None => (None, ""%string) end.
Proof.
  revert t' r. induction xs as [|x xs IH] using rev_ind; intros t' r.
  { intros [= <- <-]. split_and!; done. }
  rewrite request_of_snoc. destruct (request_of xs (Request_ method path) t) as [t1 [r1|]]; [|done].
  destruct (IH t1 r1 eq_refl) as ([Hm Hp] & Hmade & Hh & Hq & Hb). clear IH. cbn [bind].
  rewrite !omap_app. destruct x as [v|raw ct|k v|tok|k v]; csimpl; rewrite ?app_nil_r, ?last_snoc.
  - unfold JSON. destruct (Marshal v) as [err|b]; csimpl.
    + unfold Fatalf. destruct (aborts t1); [done|]. intros [= <- <-]. rewrite app_nil_r. split_and!; done.
    + rewrite last_snoc. intros [= <- <-]. split_and!; done.
  - intros [= <- <-]. split_and!; done.
  - intros [= <- <-]. split_and!; try done; [by apply set_made_Set|]. intros k'. cbn [r_header Header]. rewrite Set_lookup, last_of_snoc, Hh. done.
  - intros [= <- <-]. split_and!; try done; [by apply set_made_Set|]. intros k'. cbn [r_header Bearer Header]. rewrite Set_lookup, last_of_snoc, Hh. done.
  - intros [= <- <-]. split_and!; try done. intros k'. cbn [r_query Query]. rewrite values_of_snoc. unfold add.
    cbn [fst snd]. case_decide as Hk; [subst k'; rewrite lookup_insert_eq, Hq; by destruct (values_of k _)|].
    rewrite lookup_insert_ne by done. by rewrite app_nil_r.
Qed.

(** What a test writes is what the app receives. Whatever steps configure a client and build
    a request, and in whatever order the header maps are ranged over: the app is handed the
    method, the path, and the parameters of the path's own query followed by those added, read
    back exactly; a header has the last value the request's steps gave it, or else the client's
    (keys compared in canonical form), and a body with a content type sets that header over both;
    the body is the one last given. *)
Theorem Do_sends cs xs method path t t' r : request_of xs (Request_ method path) t = (t', Some r) ->
  let q := build os (client_of cs) r in
  q_method q = method /\ path_of (q_target q) = path_of path /\
  (forall k, default [] (query_of (q_target q) !! k) = default [] (query_of path !! k) ++ values_of k (omap step_query xs)) /\
  (forall k, q_headers q !! k =
     let ct := default ""%string (snd <$> last (omap step_body xs)) in
     if negb (String.eqb ct "") && String.eqb k "Content-Type" then Some [ct]
     else match last_of k (omap step_header xs) with Some vs => Some vs | None => last_of k (omap client_header cs) end) /\
  q_body q = fst <$> last (omap step_body xs).
Proof.
  intros Hr q. destruct (request_of_spec _ _ _ _ _ _ Hr) as ([Hm Hp] & Hmade & Hh & Hq & Hb).
  destruct (client_of_spec cs) as (Hcm & Hch & _).
  assert (Hne : map_Forall (fun _ l => l <> []) (r_query r)).
  { intros k l Hk. rewrite Hq in Hk. destruct (values_of k _); [done|]. congruence. }
  destruct (target_query r Hne) as [Htq Htp]. unfold q, build. cbn [q_method q_target q_headers q_body]. rewrite Htq, Htp, Hp.
  split_and!; try done.
  - intros k. unfold combine. rewrite lookup_union_with, Hq. destruct (query_of path !! k), (values_of k _); cbn; by rewrite ?app_nil_r.
  - intros k. assert (Hct : contentType r = default ""%string (snd <$> last (omap step_body xs)))
      by (destruct (last (omap step_body xs)) as [[b ct]|]; by injection Hb). cbv zeta. rewrite <- Hct.
    assert (Hbase : forall k, set_all (order2 os (map_to_list (r_header r))) (set_all (order1 os (map_to_list (c_headers (client_of cs)))) ∅) !! k =
      match last_of k (omap step_header xs) with Some vs => Some vs | None => last_of k (omap client_header cs) end).
    { intros k'. rewrite (set_all_map _ _ _ _ Hmade (order2_perm os _)), (set_all_map _ _ _ _ Hcm (order1_perm os _)).
      rewrite Hh, Hch, lookup_empty. destruct (last_of k' (omap step_header xs)); [done|]. by destruct (last_of k' (omap client_header cs)). }
    destruct (String.eqb_spec (contentType r) "") as [_|_]; [apply Hbase|]. rewrite Set_lookup, Hbase. cbn [negb andb].
    change (canonical "Content-Type") with "Content-Type"%string. destruct (String.eqb_spec k "Content-Type") as [->|Hk]; [by rewrite decide_True|].
    rewrite decide_False by congruence. done.
  - destruct (last (omap step_body xs)) as [[b ct]|]; by injection Hb.
Qed.

(** A computation only adds to what was reported, and in a real test that ends it. *)
Definition reports {A} (t : TB) (x : TB * option A) : Prop :=
  exists l, fatals x.1 = fatals t ++ l /\ aborts x.1 = aborts t /\ (l <> [] -> aborts t = true -> x.2 = None).

Lemma reports_Fatalf {A} msg (a : A) t : reports t (Fatalf msg a t).
Proof. exists [msg]. split_and!; [done|done|]. intros _ Ha. unfold Fatalf. by rewrite Ha. Qed.
Lemma reports_continue {A} (a : A) t : reports t (continue a t).
Proof. exists []. rewrite app_nil_r. split_and!; done. Qed.
Lemma Fatalf_speaks {A} msg (a : A) t : fatals (Fatalf msg a t).1 <> fatals t.
Proof. intros E. apply (f_equal length) in E. cbn [Fatalf fst fatals] in E. rewrite length_app in E. simpl in E. lia. Qed.

Lemma reports_bind {A B} t (x : TB * option A) (f : A -> TB -> TB * option B) :
  reports t x -> (forall a t, reports t (f a t)) -> reports t (bind x f).
Proof.
  destruct x as [t1 [a|]]; intros (l & Hl & Ha & Hn) Hf; cbn [fst snd bind] in *.
  - destruct (Hf a t1) as (l2 & Hl2 & Ha2 & Hn2). exists (l ++ l2). rewrite Hl2, Hl, app_assoc, Ha2, Ha. split_and!; [done|done|].
    intros Hne Hab. destruct l as [|? ?]; [apply Hn2; [done|by rewrite Ha]|by specialize (Hn ltac:(done) Hab)].
  - exists l. split_and!; done.
Qed.

Lemma silent_bind {A B} t (x : TB * option A) (f : A -> TB -> TB * option B) :
  reports t x -> (forall a t, reports t (f a t)) -> fatals (bind x f).1 = fatals t -> fatals x.1 = fatals t.
Proof.
  destruct x as [t1 [a|]]; intros (l & Hl & _ & _) Hf Hs; cbn [fst snd bind] in *; [|done].
  destruct (Hf a t1) as (l2 & Hl2 & _). rewrite Hl2, Hl, <- app_assoc in Hs. rewrite <- (app_nil_r (fatals t)) in Hs at 2.
  apply app_inv_head in Hs. apply app_eq_nil in Hs as [-> _]. by rewrite app_nil_r in Hl.
Qed.

(** The verdict of a test is the app's answer: running a request, expecting a status and
    decoding the body reports nothing exactly when the app answered with that status and a body
    that decodes, which the test then has; otherwise a real test has ended. *)
Theorem test_verdict {A} (Unmarshal : string -> error + A) c r want t :
  let '(t', res) := bind (bind (Do os serve c r t) (ExpectStatus want)) (resp_JSON Unmarshal) in
  (fatals t' = fatals t <->
     exists raw a, serve (build os c r) (Z.quot (timeout c) Millisecond) = inr (want, inr raw) /\ Unmarshal raw = inr a /\
       res = Some (Some a, MkResponse (Some want) raw)) /\
  (fatals t' <> fatals t -> aborts t = true -> res = None).
Proof.
  assert (Hj : forall (r : Response) t, reports t (resp_JSON Unmarshal r t)).
  { intros r' t'. unfold resp_JSON. destruct (Unmarshal _); [apply reports_Fatalf|apply reports_continue]. }
  assert (He : forall (r : Response) t, reports t (ExpectStatus want r t)).
  { intros r' t'. unfold ExpectStatus. destruct (_ =? _); [apply reports_continue|apply reports_Fatalf]. }
  assert (Hd : reports t (Do os serve c r t)).
  { unfold Do. destruct (serve _ _) as [?|[? [?|?]]]; [apply reports_Fatalf|apply reports_Fatalf|apply reports_continue]. }
  pose proof (reports_bind t _ _ Hd He) as Hde. pose proof (reports_bind t _ _ Hde Hj) as Hall.
  destruct (bind (bind _ _) _) as [t' res] eqn:Hx. split.
  2:{ destruct Hall as (l & Hl & _ & Hn). cbn [fst snd] in *. intros Hne. apply Hn. intros ->. by rewrite app_nil_r in Hl. }
  split.
  - intros Hsil. assert (Hsil' : fatals (bind (bind (Do os serve c r t) (ExpectStatus want)) (resp_JSON Unmarshal)).1 = fatals t) by (by rewrite Hx).
    pose proof (silent_bind t _ _ Hde Hj Hsil') as Hsde. pose proof (silent_bind t _ _ Hd He Hsde) as Hsd.
    revert Hx Hsil' Hsde Hsd. clear. unfold Do. destruct (serve _ _) as [e|[status [e|raw]]].
    1,2: intros _ _ _ Hs; by apply Fatalf_speaks in Hs.
    cbn [bind continue]. unfold ExpectStatus. cbn [Status Raw default from_option id]. unfold Status. cbn [Raw default from_option id].
    destruct (Z.eqb_spec status want) as [->|_]; [|intros _ _ Hs _; by apply Fatalf_speaks in Hs].
    cbn [bind continue]. unfold resp_JSON. cbn [Body_]. destruct (Unmarshal raw) as [err|a] eqn:Hu; [intros _ Hs _ _; by apply Fatalf_speaks in Hs|].
    intros [= <- <-] _ _ _. by exists raw, a.
  - intros (raw & a & Hs & Hu & ->). revert Hx. unfold Do. rewrite Hs. cbn [bind continue]. unfold ExpectStatus, Status.
    cbn [Raw default from_option id]. rewrite Z.eqb_refl. cbn [bind continue]. unfold resp_JSON. cbn [Body_]. rewrite Hu. by intros [= <-].
Qed.
End Sends.

(** ** A concrete test *)

Definition toy_orders : orders := MkOrders (@rev _) id (fun l => symmetry (Permutation_rev l)) (fun l => reflexivity l).
Definition toy_marshal (v : string) : error + string := inr v.
(** An app that answers 201 to a bearer of "tok" and 401 otherwise. *)
Definition toy_app (q : http_request) (ms : Z) : error + (Z * (error + string)) :=
  if bool_decide (q_headers q !! "Authorization"%string = Some ["Bearer tok"%string]) then inr (201, inr (default "" (q_body q)))
  else inr (401, inr "denied")%string.
Definition toy_client : list client_step := [CBearer "tok"; CHeader "x-trace" "1"; CHeader "content-TYPE" "text/plain"].
Definition toy_steps : list (step (V := string)) := [SQuery "k" "a&b"; SJson "{}"; SQuery "k" "2"; SHeader "X-Trace" "7"].

Lemma Do_sends_witness : exists t' r, request_of toy_marshal toy_steps (Request_ "POST" "/echo?k=0") (MkTB true []) = (t', Some r) /\
  let q := build toy_orders (client_of toy_client) r in
  path_of (q_target q) = "/echo"%string /\ default [] (query_of (q_target q) !! "k"%string) = ["0"; "a&b"; "2"]%string /\
  q_headers q !! "X-Trace"%string = Some ["7"%string] /\ q_headers q !! "Content-Type"%string = Some ["application/json"%string].
Proof.
  destruct (request_of toy_marshal toy_steps (Request_ "POST" "/echo?k=0") (MkTB true [])) as [t' [r|]] eqn:Hr; [|discriminate Hr].
  exists t', r. split; [reflexivity|].
  destruct (Do_sends toy_marshal toy_orders toy_client toy_steps "POST" "/echo?k=0" (MkTB true []) t' r Hr) as (_ & Hp & Hq & Hh & _).
  cbv zeta. split; [rewrite Hp; reflexivity|]. split; [rewrite Hq; reflexivity|].
  split; [rewrite Hh; reflexivity|rewrite Hh; reflexivity].
Defined.

(** Without the bearer a real test ends at its expectation; a stub goes on and has one report. *)
Lemma verdicts :
  let run c t := bind (bind (Do toy_orders toy_app c (Request_ "GET" "/") t) (ExpectStatus 201)) (resp_JSON (fun s => inr s : error + string)) in
  (run (client_of toy_client) (MkTB true [])).1 = MkTB true [] /\
  run New (MkTB true []) = (MkTB true ["fibrtest: expected status"%string], None) /\
  run New (MkTB false []) = (MkTB false ["fibrtest: expected status"%string], Some (Some "denied"%string, MkResponse (Some 401) "denied")).
Proof. vm_compute. split_and!; reflexivity. Qed.
