(* ===== verification/HttpForms.v ===== *)
(** * Multipart and background requests (http/http.go: PostMultipart, FireAndForget)

    The multipart writer is mime/multipart's: each part is a delimiter line, its header lines, an
    empty line and the content as it is. [read_form] is the other side (RFC 2046). The boundary is
    drawn by the writer; the escaping of quotes in names differs between Go releases and is a
    parameter. *)

From S2P Require Import Prelude GoStrings Http.
Open Scope Z_scope.

(** ** The multipart writer *)

Definition CR : ascii := chr 13.
Definition crlf : string := String CR (String (chr 10) EmptyString).
Definition quote : string := String (chr 34) EmptyString.
Definition dashes (boundary : string) : string := "--" +:+ boundary.
Definition delimiter (boundary : string) : string := crlf +:+ dashes boundary.

(** Texts one after the other. *)
Fixpoint sconcat (l : list string) : string := match l with [] => EmptyString | s :: l => s +:+ sconcat l end.

(** A part: its header lines (keys sorted) and content. *)
Record part := MkPart { p_headers : list string; p_content : string }.

(** What is written for a part, after the two dashes and the boundary; what closes the body. *)
Definition write_part (p : part) : string :=
  crlf +:+ (sconcat (map (fun l => l +:+ crlf) (p_headers p)) +:+ (crlf +:+ p_content p)).
Definition body_of (boundary : string) (ps : list part) : string :=
  match ps with
  | [] => delimiter boundary +:+ ("--" +:+ crlf)
  | p :: ps => dashes boundary +:+ (write_part p +:+
      (sconcat (map (fun p => delimiter boundary +:+ write_part p) ps) +:+ (delimiter boundary +:+ ("--" +:+ crlf))))
  end.

Section Forms.
  Context {C : Type} (Deadline : C -> option Z) (escapeQuotes : string -> string).

Definition field_part (name value : string) : part :=
  MkPart ["Content-Disposition: form-data; name=" +:+ (quote +:+ (escapeQuotes name +:+ quote))] value.
Definition file_part (field filename content : string) : part :=
  MkPart ["Content-Disposition: form-data; name=" +:+ (quote +:+ (escapeQuotes field +:+
            (quote +:+ ("; filename=" +:+ (quote +:+ (escapeQuotes filename +:+ quote))))));
          "Content-Type: application/octet-stream"%string] content.

(** A file of the form, its content what reading it gives. *)
Record FileField := MkFile { Field : string; Filename : string; Content : error + string }.

(** The files in order, up to the first that cannot be read. *)
Fixpoint file_parts (files : list FileField) : error + list part :=
  match files with
  | [] => inr []
  | f :: files =>
      match Content f with
      | inl e => inl e
      | inr c => match file_parts files with inl e => inl e | inr ps => inr (file_part (Field f) (Filename f) c :: ps) end
      end
  end.

(** [fields] is the form's map in the order it is ranged over. *)
Definition PostMultipart (boundary : string) (e : env) (ta td : Z) (h : HTTP (C := C)) (ctx : C) (path : string)
    (fields : list (string * string)) (files : list FileField) (out : option (string -> option error))
    : ((Z * option http_error) * nat) * HTTP :=
  match file_parts files with
  | inl err => (((0, Some (Other err)), O), h)
  | inr ps =>
      requestRaw Deadline e ta td h ctx "POST" path
        (Some (body_of boundary (map (fun kv => field_part kv.1 kv.2) fields ++ ps)))
        ("multipart/form-data; boundary=" +:+ boundary) out
  end.

(** [FireAndForget]: what its goroutine does, and what it logs. [WithoutCancel] is the context's. *)
Definition FireAndForget (WithoutCancel : C -> C) (logger : bool) (e : env) (ta td : Z) (h : HTTP (C := C)) (ctx : C)
    (method path : string) (body : option (error + string)) : list http_error * HTTP :=
  let '(((_, err), _), h') := request Deadline e ta td h (WithoutCancel ctx) method path body None in
  (match err with Some err => if logger then [err] else [] | None => [] end, h').
End Forms.

(** ** Reading a form *)

(** The text before and after the first occurrence of [sep]. *)
Fixpoint cut_str (sep s : string) : option (string * string) :=
  if has_prefix sep s then Some (EmptyString, drop_string (String.length sep) s)
  else match s with
       | EmptyString => None
       | String c s => match cut_str sep s with Some (a, b) => Some (String c a, b) | None => None end
       end.

(** Header lines up to the empty one. *)
Fixpoint read_headers (fuel : nat) (s : string) : option (list string * string) :=
  match fuel with
  | O => None
  | S fuel =>
      match cut_str crlf s with
      | Some (EmptyString, rest) => Some ([], rest)
      | Some (l, rest) => match read_headers fuel rest with Some (ls, rest) => Some (l :: ls, rest) | None => None end
      | None => None
      end
  end.

(** The parts after a delimiter. *)
Fixpoint read_parts (fuel : nat) (boundary s : string) : option (list part) :=
  match fuel with
  | O => None
  | S fuel =>
      if has_prefix "--" s then Some []
      else if has_prefix crlf s then
        match read_headers (String.length s) (drop_string 2 s) with
        | Some (hs, rest) =>
            match cut_str (delimiter boundary) rest with
            | Some (content, rest) => option_map (cons (MkPart hs content)) (read_parts fuel boundary rest)
            | None => None
            end
        | None => None
        end
      else None
  end.

Definition read_form (boundary body : string) : option (list part) :=
  if has_prefix (dashes boundary) body
  then read_parts (String.length body) boundary (drop_string (String.length (dashes boundary)) body)
  else match cut_str (delimiter boundary) body with
       | Some (_, rest) => read_parts (String.length body) boundary rest
       | None => None
       end.

(** * Proofs *)

Lemma has_prefix_past (c : ascii) (d a x : string) : contains_char c d = false ->
  has_prefix d a = false -> has_prefix d (a +:+ String c x) = false.
Proof.
  revert a. induction d as [|e d IH]; intros a Hd; [by destruct a|]. unfold contains_char in Hd. cbn [sexists] in Hd.
  apply orb_false_iff in Hd as [He Hd]. destruct a as [|b a].
  - intros _. change (EmptyString +:+ String c x) with (String c x). cbn [has_prefix]. by rewrite Ascii.eqb_sym, He.
  - change (String b a +:+ String c x) with (String b (a +:+ String c x)). cbn [has_prefix].
    destruct (Ascii.eqb e b); [apply IH, Hd|done].
Qed.

(** A separator whose first character does not come again in it is found where it was put. *)
Lemma cut_str_app (c : ascii) (d a b : string) : contains_char c d = false -> contains (String c d) a = false ->
  cut_str (String c d) (a +:+ (String c d +:+ b)) = Some (a, b).
Proof.
  intros Hd. induction a as [|x a IH]; intros Ha.
  - change (EmptyString +:+ (String c d +:+ b)) with (String c d +:+ b).
    change (cut_str (String c d) (String c d +:+ b)) with
      (if has_prefix (String c d) (String c d +:+ b) then Some (EmptyString, drop_string (String.length (String c d)) (String c d +:+ b))
       else match cut_str (String c d) (d +:+ b) with Some (a, b) => Some (String c a, b) | None => None end).
    by rewrite has_prefix_app, drop_string_app.
  - cbn [contains] in Ha. apply orb_false_iff in Ha as [Hp Ha].
    change (String x a +:+ (String c d +:+ b)) with (String x (a +:+ (String c d +:+ b))). cbn [cut_str].
    rewrite (IH Ha). assert (Hn : has_prefix (String c d) (String x (a +:+ (String c d +:+ b))) = false); [|by rewrite Hn].
    cbn [has_prefix] in *. destruct (Ascii.eqb c x); [|done]. change (String c d +:+ b) with (String c (d +:+ b)). by apply has_prefix_past.
Qed.

Lemma contains_head (c : ascii) (d a : string) : contains_char c a = false -> contains (String c d) a = false.
Proof.
  unfold contains_char. induction a as [|x a IH]; [done|]. cbn [sexists contains has_prefix]. intros [Hx Ha]%orb_false_iff.
  by rewrite Hx, IH.
Qed.

(** A header line is a non-empty line. *)
Definition header_line (l : string) : Prop := l <> EmptyString /\ contains_char CR l = false.

Lemma read_headers_ok (hs : list string) (rest : string) (fuel : nat) : Forall header_line hs -> (length hs < fuel)%nat ->
  read_headers fuel (sconcat (map (fun l => l +:+ crlf) hs) +:+ (crlf +:+ rest)) = Some (hs, rest).
Proof.
  intros Hh. revert fuel. induction Hh as [|l hs [Hne Hl] Hh IH]; intros [|fuel] Hf; simpl in Hf; try lia.
  - cbn [map sconcat read_headers]. change (EmptyString +:+ (crlf +:+ rest)) with (EmptyString +:+ (crlf +:+ rest)).
    unfold crlf. rewrite cut_str_app by done. done.
  - cbn [map sconcat read_headers]. rewrite <- !string_app_assoc. unfold crlf at 1 2. rewrite cut_str_app; [|done|by apply contains_head].
    rewrite IH by lia. by destruct l.
Qed.

Section Reading.
  Context (boundary : string) (Hb : contains_char CR boundary = false).

(** What follows a delimiter: the next part and all after it, or the end. *)
Fixpoint after (ps : list part) : string :=
  match ps with [] => "--" +:+ crlf | p :: ps => write_part p +:+ (delimiter boundary +:+ after ps) end.

Lemma after_body ps : sconcat (map (fun p => delimiter boundary +:+ write_part p) ps) +:+ (delimiter boundary +:+ ("--" +:+ crlf))
  = delimiter boundary +:+ after ps.
Proof. induction ps as [|p ps IH]; [done|]. cbn [map sconcat after]. rewrite <- !string_app_assoc. by rewrite IH. Qed.

(** A part that can be read back: proper header lines, and a content without the delimiter. *)
Definition readable (p : part) : Prop := Forall header_line (p_headers p) /\ contains (delimiter boundary) (p_content p) = false.

Lemma sconcat_length (hs : list string) rest : (length hs < String.length (sconcat (map (fun l => l +:+ crlf) hs) +:+ (crlf +:+ rest)))%nat.
Proof.
  induction hs as [|h hs IH]; [simpl; lia|]. cbn [map sconcat length]. rewrite <- !string_app_assoc, string_app_length.
  change (String.length (crlf +:+ ?x)) with (S (S (String.length x))). lia.
Qed.

Lemma after_length ps : (length ps < String.length (after ps))%nat.
Proof.
  induction ps as [|p ps IH]; [simpl; lia|]. cbn [after length]. rewrite string_app_length. unfold delimiter.
  rewrite <- string_app_assoc. change (String.length (crlf +:+ ?x)) with (S (S (String.length x))). rewrite string_app_length. lia.
Qed.

Lemma delimiter_split a b : contains (delimiter boundary) a = false ->
  cut_str (delimiter boundary) (a +:+ (delimiter boundary +:+ b)) = Some (a, b).
Proof. intros Ha. apply (cut_str_app CR (String (chr 10) (dashes boundary))); [|exact Ha]. exact Hb. Qed.

Lemma read_parts_after ps fuel : Forall readable ps -> (length ps < fuel)%nat -> read_parts fuel boundary (after ps) = Some ps.
Proof.
  intros Hps. revert fuel. induction Hps as [|p ps [Hh Hc] Hps IH]; intros [|fuel] Hf; simpl in Hf; try lia; [done|].
  cbn [after]. unfold write_part. rewrite <- !string_app_assoc.
  set (rest := sconcat _ +:+ _).
  change (read_parts (S fuel) boundary (crlf +:+ rest)) with
    (match read_headers (S (S (String.length rest))) rest with
     | Some (hs, rest) =>
         match cut_str (delimiter boundary) rest with
         | Some (content, rest) => option_map (cons (MkPart hs content)) (read_parts fuel boundary rest)
         | None => None
         end
     | None => None
     end).
  unfold rest. rewrite read_headers_ok; [|done|pose proof (sconcat_length (p_headers p) (p_content p +:+ (delimiter boundary +:+ after ps))); lia].
  rewrite delimiter_split by done. rewrite IH by lia. by destruct p.
Qed.

Lemma read_form_body ps : Forall readable ps -> read_form boundary (body_of boundary ps) = Some ps.
Proof.
  intros Hps. unfold read_form. destruct ps as [|p ps].
  - change (has_prefix (dashes boundary) (body_of boundary [])) with false. cbv iota.
    change (body_of boundary []) with (EmptyString +:+ (delimiter boundary +:+ after [])). rewrite delimiter_split by done. done.
  - cbn [body_of]. rewrite after_body. change (write_part p +:+ (delimiter boundary +:+ after ps)) with (after (p :: ps)).
    rewrite has_prefix_app, drop_string_app. apply read_parts_after; [done|]. rewrite string_app_length.
    pose proof (after_length (p :: ps)). lia.
Qed.
End Reading.

Section Client.
  Context {C : Type} (Deadline : C -> option Z) (escapeQuotes : string -> string).

Lemma header_line_app (a b : string) : a <> EmptyString -> contains_char CR a = false -> contains_char CR b = false -> header_line (a +:+ b).
Proof.
  intros Ha Hca Hcb. split; [by destruct a|]. unfold contains_char in *. by rewrite sexists_app, Hca, Hcb.
Qed.
Lemma no_CR_app (a b : string) : contains_char CR a = false -> contains_char CR b = false -> contains_char CR (a +:+ b) = false.
Proof. unfold contains_char. intros Ha Hb. by rewrite sexists_app, Ha, Hb. Qed.

Definition name_ok (name : string) : Prop := contains_char CR (escapeQuotes name) = false.

Lemma field_readable boundary name v : name_ok name -> contains (delimiter boundary) v = false ->
  readable boundary (field_part escapeQuotes name v).
Proof.
  intros Hn Hv. split; [|done]. constructor; [|constructor]. apply header_line_app; [done|done|].
  apply no_CR_app; [done|]. by apply no_CR_app.
Qed.
Lemma file_readable boundary field filename c : name_ok field -> name_ok filename -> contains (delimiter boundary) c = false ->
  readable boundary (file_part escapeQuotes field filename c).
Proof.
  intros Hn Hf Hc. split; [|done]. constructor; [|constructor; [|constructor]]; [|by split].
  apply header_line_app; [done|done|]. repeat (apply no_CR_app; [done|]). done.
Qed.

(** The files of a form, read. *)
Lemma file_parts_spec files : match file_parts escapeQuotes files with
  | inl err => exists before f rest, files = before ++ f :: rest /\ Content f = inl err
  | inr ps => Forall2 (fun f p => exists c, Content f = inr c /\ p = file_part escapeQuotes (Field f) (Filename f) c) files ps
  end.
Proof.
  induction files as [|f files IH]; [constructor|]. cbn [file_parts]. destruct (Content f) as [e|c] eqn:Hc; [by exists [], f, files|].
  destruct (file_parts escapeQuotes files) as [e|ps].
  - destruct IH as (before & g & rest & -> & Hg). by exists (f :: before), g, rest.
  - constructor; [by exists c|done].
Qed.

(** A multipart form arrives as it was given. When every file can be read, one POST is made
    whose body, read back with the boundary its content type names, has one part per field and
    then one per file, in order, each under its name (and file name) and with its content byte for
    byte, provided names escape to single lines and no content holds the boundary line; when a
    file cannot be read, its error is returned, nothing is sent and the breaker is not asked. *)
Theorem PostMultipart_received boundary e ta td (h : HTTP (C := C)) ctx path fields files out :
  contains_char CR boundary = false ->
  Forall (fun kv => name_ok kv.1 /\ contains (delimiter boundary) kv.2 = false) fields ->
  Forall (fun f => name_ok (Field f) /\ name_ok (Filename f) /\ forall c, Content f = inr c -> contains (delimiter boundary) c = false) files ->
  match file_parts escapeQuotes files with
  | inl err =>
      PostMultipart Deadline escapeQuotes boundary e ta td h ctx path fields files out = (((0, Some (Other err)), O), h) /\
      exists f, f ∈ files /\ Content f = inl err
  | inr ps =>
      Forall2 (fun f p => exists c, Content f = inr c /\ p = file_part escapeQuotes (Field f) (Filename f) c) files ps /\
      exists body,
        PostMultipart Deadline escapeQuotes boundary e ta td h ctx path fields files out =
          requestRaw Deadline e ta td h ctx "POST" path (Some body) ("multipart/form-data; boundary=" +:+ boundary) out /\
        read_form boundary body = Some (map (fun kv => field_part escapeQuotes kv.1 kv.2) fields ++ ps)
  end.
Proof.
  intros Hb Hfields Hfiles. pose proof (file_parts_spec files) as Hs. unfold PostMultipart.
  destruct (file_parts escapeQuotes files) as [err|ps].
  { split; [done|]. destruct Hs as (before & f & rest & -> & Hc). exists f. split; [|done]. apply elem_of_app. right. by left. }
  split; [done|]. eexists. split; [reflexivity|]. apply read_form_body; [done|]. apply Forall_app. split.
  - apply Forall_map. eapply Forall_impl; [exact Hfields|]. intros [k v] [Hk Hv]. by apply field_readable.
  - clear Hfields. revert Hs. induction Hfiles as [|f files (Hf & Hn & Hc) Hfiles IH] in ps |- *; intros Hs; inversion Hs; subst; [constructor|].
    destruct H1 as (c & Hcont & ->). constructor; [|by apply IH]. apply file_readable; [done|done|by apply Hc].
Qed.

(** A background request is not bounded by its caller's deadline, and its error reaches the log or nobody. *)
Lemma FireAndForget_outlives (WithoutCancel : C -> C) (Hwc : forall c, Deadline (WithoutCancel c) = None) h ctx method path payload ct hs :
  forall t, rq_bound (build_request Deadline h (WithoutCancel ctx) method path payload ct hs) <> DoDeadline t.
Proof. intros t. unfold build_request. cbn [rq_bound]. rewrite Hwc. by destruct (0 <? timeout h). Qed.

Lemma FireAndForget_logs (WithoutCancel : C -> C) e ta td h ctx method path body :
  (FireAndForget Deadline WithoutCancel false e ta td h ctx method path body).1 = [].
Proof. unfold FireAndForget. by destruct (request _ _ _ _ _ _ _ _ _ _) as [[[c [err|]] n] h']. Qed.
End Client.

(** ** A concrete form *)

Lemma PostMultipart_received_witness : exists body,
  PostMultipart no_deadline (fun s => s) "b42" flaky 0 0 client tt "/up" [("kind", "a b")]%string
    [MkFile "doc" "x.txt" (inr "--b4")%string] None =
    requestRaw no_deadline flaky 0 0 client tt "POST" "/up" (Some body) "multipart/form-data; boundary=b42" None /\
  option_map (map p_content) (read_form "b42" body) = Some ["a b"; "--b4"]%string.
Proof.
  destruct (PostMultipart_received no_deadline (fun s => s) "b42" flaky 0 0 client tt "/up" [("kind", "a b")]%string
    [MkFile "doc" "x.txt" (inr "--b4")%string] None) as (_ & body & Hp & Hr).
  - reflexivity.
  - constructor; [split; reflexivity|constructor].
  - constructor; [|constructor]. split; [reflexivity|]. split; [reflexivity|]. intros c [= <-]. reflexivity.
  - exists body. split; [exact Hp|]. rewrite Hr. reflexivity.
Defined.
