(* ===== verification/Sessions.v ===== *)
(** * Concurrent sessions (auth/issuer.go at the granularity of its store calls)

    Requests of several clients and replicas run at once: each call of the token store is one
    atomic step (a command of Redis, a critical section of the memory store's mutex) and the rest
    of a request is local. [Auth] has each operation as a function; here it is a process whose
    steps, run without interruption, are that function, and a system of processes interleaves them. *)

From S2P Require Import Prelude GoStrings Fiber Jwt TokenStore Auth.
Open Scope Z_scope.

(** ** Requests as processes *)

(** What a step meets: three readings of the clock, the store being called at the last, the fate of
    that call, and what the random source gives. *)
Record env := Env { t1 : Z; t2 : Z; t3 : Z; call_net : net; draw1 : error + string; draw2 : error + string }.

Inductive request := RqIssue (c : claims) | RqRefresh (tok : string) | RqLogout (access refresh : string).

(** Where a request is. [ISet] and [RSet] hold what was signed and is about to be recorded. *)
Inductive proc :=
| IStart (c : claims) | ISign (c : claims) (fid : string) | ISet (fid jti : string) (tp : TokenPair) | IDone (r : error + TokenPair)
| RStart (tok : string) | RRead (c : claims) | RRevoke (fid : string) | RSign (c : claims)
| RSet (c : claims) (jti : string) (tp : TokenPair) | RBlock (c : claims) (tp : TokenPair) | RDone (r : error + TokenPair)
| LStart (access refresh : string) | LRefresh (err : option error) (refresh : string) | LDone (r : option error).

Definition start (q : request) : proc :=
  match q with RqIssue c => IStart c | RqRefresh tok => RStart tok | RqLogout a r => LStart a r end.

Section Steps.
  Context `{JwtLib} {S : Type} `{TokenStore S} (i : Issuer).

(** The part of [mint] before the store: the identifiers and the two signatures. *)
Definition sign (e : env) (base : claims) (fid : string) : error + (string * TokenPair) :=
  match newID (draw1 e), newID (draw2 e) with
  | inl err, _ => inl err
  | _, inl err => inl err
  | inr accessJti, inr refreshJti =>
      match (GenerateTokenWithExpiry (t1 e) (access_claims base accessJti) (secret i) (accessTTL i)).1 with
      | inl err => inl err
      | inr at_ =>
          match (GenerateTokenWithExpiry (t2 e) (refresh_claims base fid refreshJti) (secret i) (refreshTTL i)).1 with
          | inl err => inl err
          | inr rt => inr (refreshJti, MkTokenPair at_ rt "Bearer" (seconds (accessTTL i)) (seconds (refreshTTL i)))
          end
      end
  end.

Definition proc_step (e : env) (p : proc) (s : S) : proc * S :=
  match p with
  | IStart c =>
      if String.eqb (claim_str c "sub") EmptyString then (IDone (inl (Err "auth: issue: missing sub claim")), s)
      else match newID (draw1 e) with inl err => (IDone (inl err), s) | inr fid => (ISign c fid, s) end
  | ISign c fid => match sign e c fid with inl err => (IDone (inl err), s) | inr (jti, tp) => (ISet fid jti tp, s) end
  | ISet fid jti tp =>
      match SetFamily (call_net e) (t3 e) fid jti (refreshTTL i) s with
      | (Some err, s) => (IDone (inl err), s)
      | (None, s) => (IDone (inr tp), s)
      end
  | RStart tok =>
      match parseValid (t1 e) i tok with
      | inl _ => (RDone (inl ErrInvalidToken), s)
      | inr c =>
          if negb (String.eqb (claim_str c "type") "refresh") then (RDone (inl ErrInvalidToken), s)
          else if String.eqb (claim_str c "fid") EmptyString || String.eqb (claim_str c "jti") EmptyString
          then (RDone (inl ErrInvalidToken), s) else (RRead c, s)
      end
  | RRead c =>
      match Family (call_net e) (t3 e) (claim_str c "fid") s with
      | (inl err, s) => (RDone (inl err), s)
      | (inr None, s) => (RDone (inl ErrInvalidToken), s)
      | (inr (Some active), s) =>
          if negb (String.eqb active (claim_str c "jti")) then (RRevoke (claim_str c "fid"), s) else (RSign c, s)
      end
  | RRevoke fid => (RDone (inl ErrTokenReuse), (RevokeFamily (call_net e) (t3 e) fid s).2)
  | RSign c => match sign e c (claim_str c "fid") with inl err => (RDone (inl err), s) | inr (jti, tp) => (RSet c jti tp, s) end
  | RSet c jti tp =>
      match SetFamily (call_net e) (t3 e) (claim_str c "fid") jti (refreshTTL i) s with
      | (Some err, s) => (RDone (inl err), s)
      | (None, s) => (RBlock c tp, s)
      end
  | RBlock c tp =>
      let rem := remainingTTL (t2 e) c in
      (RDone (inr tp), if 0 <? rem then (Block (call_net e) (t3 e) (claim_str c "jti") rem s).2 else s)
  | LStart a r =>
      let '(err, s) := logout_access i (LogoutEnv (t1 e) (t2 e) (call_net e) (t3 e) 0 NetOk 0) a s in (LRefresh err r, s)
  | LRefresh err r =>
      let '(err2, s) := logout_refresh i (LogoutEnv 0 0 NetOk 0 (t1 e) (call_net e) (t3 e)) r s in
      (LDone (match err with Some err => Some err | None => err2 end), s)
  | IDone _ | RDone _ | LDone _ => (p, s)
  end.

(** A process on its own. *)
Fixpoint alone (es : list env) (p : proc) (s : S) : proc * S :=
  match es with [] => (p, s) | e :: es => let '(p, s) := proc_step e p s in alone es p s end.

(** ** Systems *)

(** The requests so far with where each is, the store, and the clock. *)
Record system := Sys { procs : list (request * proc); store : S; clock : Z }.

(** Process [k] makes a step. *)
Definition advance (k : nat) (e : env) (x : system) : system :=
  match procs x !! k with
  | Some (q, p) => let '(p', s') := proc_step e p (store x) in Sys (<[k := (q, p')]> (procs x)) s' (t3 e)
  | None => x
  end.

(** Identifiers that the random source may give to families and to refresh tokens. *)
  Context (may_fid may_jti : string -> Prop).

Definition draws_ok (e : env) (p : proc) : Prop :=
  match p with
  | IStart _ => forall f, newID (draw1 e) = inr f -> may_fid f
  | ISign _ _ | RSign _ => forall j, newID (draw2 e) = inr j -> may_jti j
  | _ => True
  end.

Inductive step : system -> system -> Prop :=
| step_arrives (q : request) (x : system) : step x (Sys (procs x ++ [(q, start q)]) (store x) (clock x))
| step_proc (k : nat) (e : env) (q : request) (p : proc) (x : system) :
    procs x !! k = Some (q, p) -> clock x <= t3 e -> draws_ok e p -> step x (advance k e x).
End Steps.
Arguments system S : clear implicits.

(** * A process run alone is the operation *)

Section Alone.
  Context `{JwtLib} {S : Type} `{TokenStore S} (i : Issuer).

Definition no_draw : error + string := inl (Err "").
Definition mint_steps (m : mint_env) : list env :=
  [Env (t_access m) (t_refresh m) 0 NetOk (rand_access m) (rand_refresh m); Env 0 0 (t_set m) (set_net m) no_draw no_draw].
Definition issue_steps (rand_fid : error + string) (m : mint_env) : list env := Env 0 0 0 NetOk rand_fid no_draw :: mint_steps m.
Definition refresh_steps (v : refresh_env) : list env :=
  [Env (t_parse v) 0 0 NetOk no_draw no_draw; Env 0 0 (t_fam v) (fam_net v) no_draw no_draw;
   Env (t_access (mint_of v)) (t_refresh (mint_of v)) (t_revoke v) (revoke_net v) (rand_access (mint_of v)) (rand_refresh (mint_of v));
   Env 0 0 (t_set (mint_of v)) (set_net (mint_of v)) no_draw no_draw; Env 0 (t_rem v) (t_block v) (block_net v) no_draw no_draw].
Definition logout_steps (v : logout_env) : list env :=
  [Env (t_parse_a v) (t_rem_a v) (t_block_a v) (block_net_a v) no_draw no_draw; Env (t_parse_r v) 0 (t_revoke_r v) (revoke_net_r v) no_draw no_draw].

Lemma alone_done_R es r s : alone i es (RDone r) s = (RDone r, s).
Proof. by induction es. Qed.
Lemma alone_done_I es r s : alone i es (IDone r) s = (IDone r, s).
Proof. by induction es. Qed.

Lemma Issue_alone rand_fid m c s :
  alone i (issue_steps rand_fid m) (IStart c) s = (IDone (Issue i rand_fid m c s).1, (Issue i rand_fid m c s).2).
Proof.
  unfold Issue, issue_steps, mint_steps. cbn [alone proc_step draw1]. destruct (String.eqb _ _); [done|].
  destruct (newID rand_fid) as [|fid]; [done|]. unfold mint. cbn [alone proc_step]. unfold sign. cbn [draw1 draw2 t1 t2].
  destruct (newID (rand_access m)); [done|]. destruct (newID (rand_refresh m)) as [|j]; [done|].
  destruct (GenerateTokenWithExpiry (t_access m) _ _ _).1; [done|]. destruct (GenerateTokenWithExpiry (t_refresh m) _ _ _).1; [done|].
  cbn [alone proc_step call_net t3]. by destruct (SetFamily _ _ _ _ _ _) as [[]].
Qed.

Lemma Refresh_alone v tok s :
  alone i (refresh_steps v) (RStart tok) s = (RDone (Refresh i v tok s).1, (Refresh i v tok s).2).
Proof.
  unfold Refresh, refresh_steps. cbn [alone proc_step t1]. destruct (parseValid _ _ _) as [|c]; [done|].
  destruct (negb _); [done|]. destruct (_ || _); [done|]. cbn [alone proc_step call_net t3].
  destruct (Family _ _ _ _) as [[err|[active|]] s1]; [done| |done]. destruct (negb _); [done|].
  cbn [alone proc_step]. unfold mint, sign. cbn [draw1 draw2 t1 t2].
  destruct (newID (rand_access _)); [done|]. destruct (newID (rand_refresh _)) as [|j]; [done|].
  destruct (GenerateTokenWithExpiry (t_access _) _ _ _).1; [done|]. destruct (GenerateTokenWithExpiry (t_refresh _) _ _ _).1; [done|].
  cbn [alone proc_step call_net t3]. by destruct (SetFamily _ _ _ _ _ _) as [[]].
Qed.

Lemma Logout_alone v a r s :
  alone i (logout_steps v) (LStart a r) s = (LDone (Logout i v a r s).1, (Logout i v a r s).2).
Proof.
  unfold Logout, logout_steps. cbn [alone proc_step t1 t2 t3 call_net].
  change (logout_access i (LogoutEnv (t_parse_a v) (t_rem_a v) (block_net_a v) (t_block_a v) 0 NetOk 0) a s) with (logout_access i v a s).
  destruct (logout_access i v a s) as [e1 s1]. cbn [alone proc_step t1 t2 t3 call_net].
  change (logout_refresh i (LogoutEnv 0 0 NetOk 0 (t_parse_r v) (revoke_net_r v) (t_revoke_r v)) r s1) with (logout_refresh i v r s1).
  by destruct (logout_refresh i v r s1).
Qed.
End Alone.

(** * Invariants of a family *)

Section Invariants.
  Context `{JwtLaws} {S : Type} `{TokenStoreLaws S} (i : Issuer) (may_fid may_jti : string -> Prop) (fid : string).
  Context (Hfid : forall f, may_fid f -> f <> fid).
Implicit Types (x y : system S).

Abbreviation steps := (rtc (step i may_fid may_jti)).

(** A refresh token of the family, by its family and identifier. *)
Definition presents (tok jti : string) : Prop :=
  exists t c, parseValid t i tok = inr c /\ claim_str c "fid" = fid /\ claim_str c "jti" = jti.

(** Each process works on its request. *)
Definition follows (q : request) (p : proc) : Prop :=
  match q, p with
  | RqRefresh tok, RStart tok' => tok' = tok
  | RqRefresh tok, (RRead c | RSign c | RSet c _ _ | RBlock c _) => exists t, parseValid t i tok = inr c
  | RqRefresh _, (RRevoke _ | RDone _) => True
  | RqIssue _, (IStart _ | ISign _ _ | ISet _ _ _ | IDone _) => True
  | RqLogout _ r, LStart _ r' => r' = r
  | RqLogout _ r, LRefresh _ r' => r' = r
  | RqLogout _ _, LDone _ => True
  | _, _ => False
  end.

Lemma proc_step_follows e q p s : follows q p -> follows q (proc_step i e p s).1.
Proof.
  destruct q, p; cbn [follows proc_step]; try done; intros Hf.
  - destruct (String.eqb _ _); [done|]. by destruct (newID _).
  - by destruct (sign _ _ _ _) as [|[]].
  - by destruct (SetFamily _ _ _ _ _ _) as [[]].
  - subst. destruct (parseValid _ _ _) as [|c] eqn:Hp; [done|]. destruct (negb _); [done|]. destruct (_ || _); [done|]. by exists (t1 e).
  - destruct (Family _ _ _ _) as [[|[]] ?]; [done| |done]. by destruct (negb _).
  - by destruct (sign _ _ _ _) as [|[]].
  - by destruct (SetFamily _ _ _ _ _ _) as [[]].
  - subst. by destruct (logout_access _ _ _ _).
  - by destruct (logout_refresh _ _ _ _).
Qed.

(** What a process may still write as the family's active token must have [W]. *)
Definition pending_ok (W : string -> Prop) (p : proc) : Prop :=
  match p with
  | ISign _ f => f <> fid
  | ISet f _ _ => f <> fid
  | RSign c => claim_str c "fid" = fid -> forall j, may_jti j -> W j
  | RSet c j _ => claim_str c "fid" = fid -> W j
  | _ => True
  end.

(** A property of the active token that holds from now on, whatever the pending writes. *)
Definition lasting (P : option string -> Prop) (W : string -> Prop) x : Prop :=
  fam_inv fid P (clock x) (store x) /\ forall q p, (q, p) ∈ procs x -> follows q p /\ pending_ok W p.

Section Lasting.
  Context (P : option string -> Prop) (W : string -> Prop) (HP : P None) (HW : forall j, W j -> P (Some j))
    (Hgen : forall a j, P (Some a) -> may_jti j -> W j).

Lemma fam_inv_set T n now f j ttl (s : S) : fam_inv fid P T s -> (f = fid -> P (Some j)) ->
  fam_inv fid P (Z.max T now) (SetFamily n now f j ttl s).2.
Proof.
  intros Hi Hw t Ht. pose proof (setfamily_spec n now f j ttl s) as Hs. destruct (SetFamily n now f j ttl s) as [r s'].
  destruct Hs as (_ & _ & Hfr & Hsub & _). cbn [snd]. destruct (decide (fid = f)) as [<-|Hne].
  - destruct (family_at s' t fid) as [k|] eqn:Hk; [|done]. destruct (Hsub t k ltac:(lia) Hk) as [->|Ho]; [by apply Hw|].
    rewrite <- Ho. apply Hi. lia.
  - rewrite Hfr by (done || lia). apply Hi. lia.
Qed.

Lemma logout_refresh_inv T v r (s : S) : fam_inv fid P T s -> fam_inv fid P (Z.max T (t_revoke_r v)) (logout_refresh i v r s).2.
Proof.
  intros Hi. assert (Hk : fam_inv fid P (Z.max T (t_revoke_r v)) s) by (eapply fam_inv_mono; [done|lia]).
  unfold logout_refresh. destruct (String.eqb r _); [done|]. destruct (parseValid _ _ _); [done|]. cbv zeta.
  destruct (String.eqb _ _); [done|]. by apply fam_inv_revoke.
Qed.
Lemma logout_access_inv T v a (s : S) : fam_inv fid P T s -> fam_inv fid P (Z.max T (t_block_a v)) (logout_access i v a s).2.
Proof.
  intros Hi. assert (Hk : fam_inv fid P (Z.max T (t_block_a v)) s) by (eapply fam_inv_mono; [done|lia]).
  unfold logout_access. destruct (String.eqb a _); [done|]. destruct (parseValid _ _ _); [done|]. cbv zeta.
  destruct (String.eqb _ _); [done|]. destruct (0 <? _); [|done]. by apply fam_inv_block.
Qed.

Lemma sign_drew e base f j tp : sign i e base f = inr (j, tp) -> newID (draw2 e) = inr j.
Proof.
  unfold sign. destruct (newID (draw1 e)); [done|]. destruct (newID (draw2 e)) as [|j']; [done|].
  destruct (GenerateTokenWithExpiry (t1 e) _ _ _).1; [done|]. destruct (GenerateTokenWithExpiry (t2 e) _ _ _).1; [done|].
  by intros [= <- _].
Qed.

Lemma proc_step_lasting e p T (s : S) : fam_inv fid P T s -> pending_ok W p -> draws_ok may_fid may_jti e p ->
  fam_inv fid P (Z.max T (t3 e)) (proc_step i e p s).2 /\ (T <= t3 e -> pending_ok W (proc_step i e p s).1).
Proof.
  intros Hi Hp Hd. assert (Hk : fam_inv fid P (Z.max T (t3 e)) s) by (eapply fam_inv_mono; [done|lia]).
  destruct p; cbn [proc_step pending_ok draws_ok] in *; try done.
  - destruct (String.eqb _ _); [done|]. destruct (newID (draw1 e)) as [|f] eqn:Hf; [done|]. split; [done|]. intros _. by apply Hfid, Hd.
  - by destruct (sign _ _ _ _) as [|[]].
  - assert (Hset : fam_inv fid P (Z.max T (t3 e)) (SetFamily (call_net e) (t3 e) fid0 jti (refreshTTL i) s).2) by (apply fam_inv_set; [done|by intros ->]).
    by destruct (SetFamily _ _ _ _ _ _) as [[]].
  - destruct (parseValid _ _ _); [done|]. destruct (negb _); [done|]. by destruct (_ || _).
  - destruct (family_spec (call_net e) (t3 e) (claim_str c "fid") s) as [Hres Hsv]. pose proof (fam_inv_same _ _ _ _ _ _ Hi Hsv) as Hi'.
    destruct (Family _ _ _ _) as [r s']. cbn [fst snd] in *. destruct r as [|[active|]]; [done| |done].
    destruct (negb _); [done|]. split; [done|]. intros Hle Hc j Hj. destruct Hres as [[= Hr]|[_ [? ?]]]; [|done].
    apply (Hgen active); [|done]. rewrite Hr, Hc. by apply Hi.
  - split; [|done]. by apply fam_inv_revoke.
  - destruct (sign _ _ _ _) as [|[j tp]] eqn:Hs; [done|]. split; [done|]. intros _ Hc. apply Hp; [done|]. by eapply Hd, sign_drew.
  - assert (Hset : fam_inv fid P (Z.max T (t3 e)) (SetFamily (call_net e) (t3 e) (claim_str c "fid") jti (refreshTTL i) s).2) by (apply fam_inv_set; [done|by intros Hc; apply HW, Hp]).
    by destruct (SetFamily _ _ _ _ _ _) as [[]].
  - destruct (0 <? _); [|done]. split; [|done]. by apply fam_inv_block.
  - pose proof (logout_access_inv T (LogoutEnv (t1 e) (t2 e) (call_net e) (t3 e) 0 NetOk 0) access s Hi) as Hl.
    by destruct (logout_access _ _ _ _).
  - pose proof (logout_refresh_inv T (LogoutEnv 0 0 NetOk 0 (t1 e) (call_net e) (t3 e)) refresh s Hi) as Hl.
    by destruct (logout_refresh _ _ _ _).
Qed.

Lemma start_ok q : follows q (start q) /\ pending_ok W (start q).
Proof. by destruct q. Qed.

Lemma step_lasting x y : lasting P W x -> step i may_fid may_jti x y -> lasting P W y.
Proof.
  intros [Hi Hps] Hstep. destruct Hstep as [q x|k e q p x Hk Hle Hd].
  - split; [done|]. cbn [procs]. intros q' p' [Hin|Hin%list_elem_of_singleton]%elem_of_app; [by apply Hps|].
    injection Hin as -> ->. apply start_ok.
  - destruct (Hps q p) as [Hf Hp]; [by eapply list_elem_of_lookup_2|]. unfold advance. rewrite Hk.
    pose proof (proc_step_lasting e p (clock x) (store x) Hi Hp Hd) as [Hi' Hp']. pose proof (proc_step_follows e q p (store x) Hf) as Hf'.
    destruct (proc_step i e p (store x)) as [p' s']. cbn [fst snd] in *. rewrite Z.max_r in Hi' by done.
    split; [exact Hi'|]. cbn [procs]. intros q2 p2 [Heq|Hin]%elem_insert; [injection Heq as -> ->; split; [done|by apply Hp']|by apply Hps].
Qed.

Lemma steps_lasting x y : lasting P W x -> steps x y -> lasting P W y.
Proof. intros Hx Hxy. induction Hxy as [|x1 x2 x3 Hs Hr IH]; [done|]. apply IH. by eapply step_lasting. Qed.
End Lasting.

(** ** Winners *)

(** Past the read that found the presented token active; past the write as well. *)
Definition past (p : proc) : Prop :=
  match p with RSign _ | RSet _ _ _ | RBlock _ _ | RDone (inr _) => True | _ => False end.
Definition wrote (p : proc) : Prop := match p with RBlock _ _ | RDone (inr _) => True | _ => False end.

Lemma past_read j e tok p (s : S) P T : fam_inv fid P T s -> (P (Some j) -> False) -> T <= t3 e ->
  follows (RqRefresh tok) p -> presents tok j -> past (proc_step i e p s).1 -> past p.
Proof.
  intros Hi Hj Hle Hf (t & c0 & Hp0 & Hfid0 & Hjti0) Hpast. destruct p; cbn [follows past] in *; try done; cbn [proc_step] in Hpast.
  - revert Hpast. destruct (parseValid (t1 e) i tok0); [done|]. destruct (negb _); [done|]. by destruct (_ || _).
  - destruct Hf as [t' Hp]. pose proof (parse_stable _ _ _ _ _ _ Hp Hp0) as ->. rewrite Hfid0, Hjti0 in Hpast.
    destruct (family_spec (call_net e) (t3 e) fid s) as [Hres _]. destruct (Family _ _ _ _) as [[err|[active|]] s']; [done| |done].
    cbn [fst] in Hres. destruct Hres as [[= Hr]|[_ [? ?]]]; [|done].
    destruct (String.eqb_spec active j) as [->|]; [|done]. destruct Hj. rewrite Hr. by apply Hi.
Qed.

Lemma advance_lookup k e x q p : procs x !! k = Some (q, p) ->
  procs (advance i k e x) = <[k := (q, (proc_step i e p (store x)).1)]> (procs x) /\
  store (advance i k e x) = (proc_step i e p (store x)).2 /\ clock (advance i k e x) = t3 e.
Proof. intros Hk. unfold advance. rewrite Hk. by destruct (proc_step i e p (store x)). Qed.

(** Once a token's identifier cannot be the active one, no process gets past its read with it. *)
Lemma no_new_winner P W j x y m tok p' : lasting P W x -> (P (Some j) -> False) -> step i may_fid may_jti x y ->
  presents tok j -> procs y !! m = Some (RqRefresh tok, p') -> past p' -> exists p, procs x !! m = Some (RqRefresh tok, p) /\ past p.
Proof.
  intros [Hi Hps] Hj Hstep Hpres Hm Hpast. destruct Hstep as [q x|k e q p x Hk Hle Hd].
  - cbn [procs] in Hm. apply lookup_app_Some in Hm as [Hm|[_ Hm]]; [by exists p'|].
    apply list_lookup_singleton_Some in Hm as [_ Heq]. by destruct q; injection Heq as <- <-.
  - destruct (advance_lookup k e x q p Hk) as (Hpr & _ & _). rewrite Hpr in Hm.
    apply insert_cases in Hm as [(-> & Heq & _)|[_ Hm]]; [|by exists p'].
    injection Heq as <- ->. exists p. split; [done|]. destruct (Hps (RqRefresh tok) p) as [Hf _]; [by eapply list_elem_of_lookup_2|].
    by eapply past_read.
Qed.

Lemma no_new_winners P W j x y m tok p' : P None -> (forall j, W j -> P (Some j)) -> (forall a j, P (Some a) -> may_jti j -> W j) ->
  (P (Some j) -> False) -> lasting P W x -> steps x y ->
  presents tok j -> procs y !! m = Some (RqRefresh tok, p') -> past p' -> exists p, procs x !! m = Some (RqRefresh tok, p) /\ past p.
Proof.
  intros HP HW Hg Hj Hx Hxy Hpres Hm Hpast. induction Hxy as [|x1 x2 x3 Hs Hr IH]; [by exists p'|].
  destruct IH as (p2 & Hm2 & Hp2); [by eapply step_lasting|done|]. by eapply no_new_winner.
Qed.

(** ** Before and after the first write *)

Definition anything (a : option string) : Prop := True.
Definition not_j (j : string) (a : option string) : Prop := a <> Some j.

(** Some request with this token has written its successor. *)
Definition rotated_away j x : Prop := exists k tok p, procs x !! k = Some (RqRefresh tok, p) /\ presents tok j /\ wrote p.

Lemma lasting_start (W : string -> Prop) (s : S) T : lasting anything W (Sys [] s T).
Proof. split; [done|]. intros q p Hin. by apply not_elem_of_nil in Hin. Qed.

Lemma rotation_spends j x y : 0 < refreshTTL i -> (forall j', may_jti j' -> j' <> j) ->
  lasting anything (fun j' => j' <> j) x -> (rotated_away j x -> fam_inv fid (not_j j) (clock x) (store x)) ->
  step i may_fid may_jti x y -> rotated_away j y -> fam_inv fid (not_j j) (clock y) (store y).
Proof.
  intros Httl Hmay Hx Hspent Hstep (m & tok & p' & Hm & Hpres & Hw).
  assert (Hkeep : rotated_away j x -> fam_inv fid (not_j j) (clock y) (store y)).
  { intros Hr. eapply (step_lasting (not_j j) (fun j' => j' <> j)) with (x := x); [done|by intros j' Hj' [= ->]|by intros a j' _; apply Hmay| |exact Hstep].
    split; [by apply Hspent|apply Hx]. }
  destruct Hstep as [q x|k e q p x Hk Hle Hd].
  - apply Hkeep. cbn [procs] in Hm. apply lookup_app_Some in Hm as [Hm|[_ Hm]]; [by exists m, tok, p'|].
    apply list_lookup_singleton_Some in Hm as [_ Heq]. by destruct q; simplify_eq.
  - destruct (advance_lookup k e x q p Hk) as (Hpr & Hst & Hcl). rewrite Hpr in Hm.
    apply insert_cases in Hm as [(-> & Heq & _)|[_ Hm]]; [|by apply Hkeep; exists m, tok, p'].
    injection Heq as <- ->. destruct Hx as [_ Hps]. destruct (Hps (RqRefresh tok) p) as [Hf Hp]; [by eapply list_elem_of_lookup_2|].
    destruct p; cbn [follows] in Hf; try done; try (by apply Hkeep; exists k, tok; eexists; split_and!; [exact Hk|done|]); cbn [proc_step] in Hw.
    + exfalso. revert Hw. destruct (parseValid (t1 e) i tok0); [done|]. destruct (negb _); [done|]. by destruct (_ || _).
    + exfalso. revert Hw. destruct (Family _ _ _ _) as [[|[]] ?]; [done| |done]. by destruct (negb _).
    + exfalso. revert Hw. by destruct (sign _ _ _ _) as [|[]].
    + rewrite Hst, Hcl. cbn [proc_step]. destruct Hf as [t Hpc]. destruct Hpres as (t' & c' & Hpc' & Hfid' & Hjti').
      pose proof (parse_stable _ _ _ _ _ _ Hpc Hpc') as ->. cbn [pending_ok] in Hp. specialize (Hp Hfid'). rewrite Hfid' in Hw |- *.
      pose proof (setfamily_spec (call_net e) (t3 e) fid jti (refreshTTL i) (store x)) as Hset.
      destruct (SetFamily _ _ _ _ _ _) as [[err|] s']; [done|]. destruct Hset as (_ & _ & _ & _ & Hact & _).
      intros t0 Ht0 Heq. apply Hp. symmetry. by apply (Hact eq_refl Httl t0 j).
Qed.

Lemma steps_spent j x y : 0 < refreshTTL i -> (forall j', may_jti j' -> j' <> j) ->
  lasting anything (fun j' => j' <> j) x -> (rotated_away j x -> fam_inv fid (not_j j) (clock x) (store x)) ->
  steps x y -> lasting anything (fun j' => j' <> j) y /\ (rotated_away j y -> fam_inv fid (not_j j) (clock y) (store y)).
Proof.
  intros Httl Hmay Hx Hsp Hxy. induction Hxy as [|x1 x2 x3 Hs Hr IH]; [done|]. apply IH.
  - eapply step_lasting; [done|done|by intros a j' _; apply Hmay|exact Hx|exact Hs].
  - intros Hro. by eapply rotation_spends.
Qed.
End Invariants.

(** * Claims *)

Section Claims.
  Context `{JwtLaws} {S : Type} `{TokenStoreLaws S} (i : Issuer) (may_fid may_jti : string -> Prop) (fid : string).
  Context (Hfid : forall f, may_fid f -> f <> fid).

(** (C2) Single use under concurrency. However issues, refreshes and logouts interleave, call by
    call, on any store and with any failing calls: once one refresh of a token has returned a pair,
    another refresh of that token can return one only when it was, at that moment, already past
    its own read of the family; one that reads later is refused. Identifiers drawn meanwhile are new. *)
Theorem concurrent_single_use (j : string) (s : S) (T : Z) (y z : system S) :
  0 < refreshTTL i -> (forall j', may_jti j' -> j' <> j) ->
  rtc (step i may_fid may_jti) (Sys [] s T) y -> rtc (step i may_fid may_jti) y z ->
  (exists k tok tp, procs y !! k = Some (RqRefresh tok, RDone (inr tp)) /\ presents i fid tok j) ->
  forall m tok tp, procs z !! m = Some (RqRefresh tok, RDone (inr tp)) -> presents i fid tok j ->
  exists p, procs y !! m = Some (RqRefresh tok, p) /\ past p.
Proof.
  intros Httl Hmay Hsy Hyz (k & tok0 & tp0 & Hk & Hpres0) m tok tp Hm Hpres.
  destruct (steps_spent i may_fid may_jti fid Hfid j (Sys [] s T) y) as [[_ Hps] Hspent]; try done.
  { apply lasting_start. }
  { intros (k' & tok' & p' & Hk' & _). cbn [procs] in Hk'. by rewrite lookup_nil in Hk'. }
  eapply (no_new_winners i may_fid may_jti fid Hfid (not_j j) (fun j' => j' <> j) j y z m tok (RDone (inr tp)));
    [done|by intros j' Hj' [= ->]|by intros a j' _; apply Hmay|by intros Hn; apply Hn| |done|done|done|done].
  split; [|done]. apply Hspent. by exists k, tok0, (RDone (inr tp0)).
Qed.

(** A process about to revoke the family: the refresh that saw a superseded token, or the logout
    with a token of the family. *)
Definition revoking (e : env) (p : proc) : Prop :=
  match p with
  | RRevoke f => f = fid
  | LRefresh _ r => r <> EmptyString /\ fid <> EmptyString /\ exists c, parseValid (t1 e) i r = inr c /\ claim_str c "fid" = fid
  | _ => False
  end.
(** A process between reading the family and recording a new token in it. *)
Definition racing (p : proc) : Prop :=
  match p with RSign c | RSet c _ _ => claim_str c "fid" = fid | _ => False end.

Lemma revoking_step e p (s : S) : revoking e p -> (proc_step i e p s).2 = (RevokeFamily (call_net e) (t3 e) fid s).2.
Proof.
  destruct p; cbn [revoking proc_step]; try done; [by intros ->|]. intros (Hr & Hf & c & Hp & Hc). unfold logout_refresh. cbn [t_parse_r].
  rewrite (proj2 (String.eqb_neq _ _) Hr), Hp, Hc, (proj2 (String.eqb_neq _ _) Hf). cbn [revoke_net_r t_revoke_r].
  by destruct (RevokeFamily _ _ _ _).
Qed.

(** (C3) Revocation under concurrency. When a logout or the detection of a reused token revokes a
    family with a call that succeeds, and no refresh of the family is at that moment between its
    read and its write, then whatever follows, in any interleaving: the family stays without an
    active token, and no refresh of any of its tokens returns a pair that was not already made. *)
Theorem concurrent_revocation (s : S) (T : Z) (x z : system S) k e q p :
  rtc (step i may_fid may_jti) (Sys [] s T) x -> procs x !! k = Some (q, p) -> clock x <= t3 e ->
  revoking e p -> (RevokeFamily (call_net e) (t3 e) fid (store x)).1 = None ->
  (forall q' p', (q', p') ∈ procs x -> ~ racing p') ->
  rtc (step i may_fid may_jti) (advance i k e x) z ->
  (forall t, clock z <= t -> family_at (store z) t fid = None) /\
  (forall m tok tp j, procs z !! m = Some (RqRefresh tok, RDone (inr tp)) -> presents i fid tok j ->
     exists p', procs (advance i k e x) !! m = Some (RqRefresh tok, p') /\ wrote p').
Proof.
  intros Hsx Hk Hle Hrev Hok Hquiet Hz. set (W := fun _ : string => False). set (P := fun a : option string => a = None).
  assert (Hx : lasting i may_jti fid anything (fun _ => True) x).
  { eapply (steps_lasting i may_fid may_jti fid Hfid) with (x := Sys [] s T); [done|done|done| |exact Hsx]. apply lasting_start. }
  destruct Hx as [_ Hps]. destruct (advance_lookup i k e x q p Hk) as (Hpr & Hst & Hcl).
  pose proof (revoking_step e p (store x) Hrev) as Hstore.
  assert (Hquiet' : forall q' p', (q', p') ∈ procs (advance i k e x) -> ~ racing p').
  { intros q' p'. rewrite Hpr. intros [Heq|Hin]%elem_insert; [|by eapply Hquiet]. injection Heq as -> ->.
    destruct p; cbn [revoking] in Hrev; try done; cbn [proc_step]; [by intros []|]. destruct (logout_refresh _ _ _ _). by intros []. }
  assert (Hy : lasting i may_jti fid P W (advance i k e x)).
  { split.
    - rewrite Hst, Hcl, Hstore. pose proof (revoke_spec (call_net e) (t3 e) fid (store x)) as Hs.
      destruct (RevokeFamily _ _ _ _) as [r s']. cbn [fst snd] in *. subst r. intros t Ht. by apply Hs.
    - intros q' p' Hin. pose proof (Hquiet' q' p' Hin) as Hnr.
      assert (Hfp : follows i q' p' /\ pending_ok may_jti fid (fun _ => True) p').
      { eapply (step_lasting i may_fid may_jti fid Hfid anything (fun _ => True)) with (x := x); [done|done|done| | |exact Hin].
        - split; [done|exact Hps].
        - apply (step_proc i may_fid may_jti k e q p); [done|done|]. by destruct p. }
      destruct Hfp as [Hf Hp]. split; [done|]. destruct p'; try done; intros Hc; exfalso; by apply Hnr. }
  split.
  - intros t Ht. destruct (steps_lasting i may_fid may_jti fid Hfid P W) with (x := advance i k e x) (y := z) as [Hi _]; try done. by apply Hi.
  - intros m tok tp j Hm Hpres.
    destruct (no_new_winners i may_fid may_jti fid Hfid P W j (advance i k e x) z m tok (RDone (inr tp))) as (p' & Hm' & Hpast); try done.
    exists p'. split; [done|]. pose proof (Hquiet' _ _ (list_elem_of_lookup_2 _ _ _ Hm')) as Hnr.
    destruct p'; try done; exfalso; apply Hnr; destruct Hy as [_ Hpsy]; (destruct (Hpsy _ _ (list_elem_of_lookup_2 _ _ _ Hm')) as [[t Hp] _]);
      destruct Hpres as (t' & c' & Hp' & Hf' & _); by rewrite (parse_stable _ _ _ _ _ _ Hp Hp').
Qed.
End Claims.

(** ** Concrete interleavings, on the memory store *)

Import ToyJwt MemoryStore.

(** What happens: a request arrives, or a process makes a step. *)
Definition happen (x : system MemoryStore) (ev : request + nat * env) : system MemoryStore :=
  match ev with
  | inl q => Sys (procs x ++ [(q, start q)]) (store x) (clock x)
  | inr (k, e) => advance iss k e x
  end.
Definition happens (evs : list (request + nat * env)) (x : system MemoryStore) : system MemoryStore := fold_left happen evs x.

Definition fresh_draw (s : string) (r : error + string) : bool := match newID r with inr v => negb (String.eqb v s) | inl _ => true end.
Fixpoint events_ok (fid j : string) (evs : list (request + nat * env)) (x : system MemoryStore) : bool :=
  match evs with
  | [] => true
  | ev :: evs =>
      match ev with
      | inl _ => true
      | inr (k, e) => bool_decide (k < length (procs x))%nat && (clock x <=? t3 e) && fresh_draw fid (draw1 e) && fresh_draw j (draw2 e)
      end && events_ok fid j evs (happen x ev)
  end.

Lemma fresh_draw_ok s r f : fresh_draw s r = true -> newID r = inr f -> f <> s.
Proof. unfold fresh_draw. intros Hd Hf. rewrite Hf in Hd. intros ->. by rewrite String.eqb_refl in Hd. Qed.

Lemma happens_steps fid j evs x : events_ok fid j evs x = true -> rtc (step iss (fun f => f <> fid) (fun j' => j' <> j)) x (happens evs x).
Proof.
  revert x. induction evs as [|ev evs IH]; intros x; [intros _; apply rtc_refl|]. cbn [events_ok]. intros [Hev Hok]%andb_true_iff.
  eapply rtc_l; [|by apply IH]. destruct ev as [q|[k e]]; [apply step_arrives|].
  apply andb_true_iff in Hev as [[[Hk%bool_decide_eq_true Hle%Z.leb_le]%andb_true_iff Hd1]%andb_true_iff Hd2].
  apply lookup_lt_is_Some in Hk as [[q p] Hk]. apply (step_proc _ _ _ k e q p); [done|done|].
  destruct p; try done; intros f Hf; by eapply fresh_draw_ok.
Qed.

Definition at_ (t : Z) (a r : string) : env := Env t t t NetOk (inr a) (inr r).
Definition family1 : string := hex_encode "F".
Definition token1 : string := RefreshToken first_pair.
Definition before : system MemoryStore := Sys [] issued.2 0.

(** Two refreshes of one token read before either writes, and both succeed; a third is refused. *)
Definition race : list (request + nat * env) :=
  [inl (RqRefresh token1); inl (RqRefresh token1); inr (0%nat, at_ 1 "" ""); inr (1%nat, at_ 1 "" ""); inr (0%nat, at_ 1 "" ""); inr (1%nat, at_ 1 "" "");
   inr (0%nat, at_ 2 "c" "d"); inr (0%nat, at_ 2 "" ""); inr (0%nat, at_ 3 "" "")].
Definition race_end : list (request + nat * env) :=
  [inl (RqRefresh token1); inr (1%nat, at_ 3 "e" "f"); inr (1%nat, at_ 4 "" ""); inr (1%nat, at_ 4 "" "");
   inr (2%nat, at_ 5 "" ""); inr (2%nat, at_ 5 "" ""); inr (2%nat, at_ 5 "" "")].

Lemma presents_token1 : presents iss family1 token1 (hex_encode "b").
Proof. exists 0, (claims_of token1). split_and!; vm_compute; reflexivity. Qed.

Lemma concurrent_single_use_witness :
  (exists tp, procs (happens race_end (happens race before)) !! 1%nat = Some (RqRefresh token1, RDone (inr tp))) /\
  procs (happens race_end (happens race before)) !! 2%nat = Some (RqRefresh token1, RDone (inl ErrTokenReuse)) /\
  exists p, procs (happens race before) !! 1%nat = Some (RqRefresh token1, p) /\ past p.
Proof.
  assert (H1 : exists tp, procs (happens race_end (happens race before)) !! 1%nat = Some (RqRefresh token1, RDone (inr tp)))
    by (eexists; vm_compute; reflexivity).
  split; [exact H1|]. split; [vm_compute; reflexivity|]. destruct H1 as [tp H1].
  apply (concurrent_single_use iss (fun f => f <> family1) (fun j' => j' <> hex_encode "b") family1 (fun f Hf => Hf)
    (hex_encode "b") issued.2 0 (happens race before) (happens race_end (happens race before))) with (tok := token1) (tp := tp).
  - reflexivity.
  - intros j' Hj'. exact Hj'.
  - apply happens_steps. vm_compute. reflexivity.
  - apply happens_steps. vm_compute. reflexivity.
  - exists 0%nat, token1. eexists. split; [vm_compute; reflexivity|exact presents_token1].
  - exact H1.
  - exact presents_token1.
Defined.

(** A logout with nothing in flight, then a refresh that had arrived before it. *)
Definition quiet : list (request + nat * env) :=
  [inl (RqRefresh token1); inl (RqLogout "" token1); inr (0%nat, at_ 1 "" ""); inr (1%nat, at_ 1 "" "")].
Definition after_quiet : list (request + nat * env) := [inr (0%nat, at_ 2 "" "")].

Lemma concurrent_revocation_witness :
  family_at (store (happens after_quiet (advance iss 1 (at_ 2 "" "") (happens quiet before)))) 2 family1 = None.
Proof.
  assert (Hs : rtc (step iss (fun f => f <> family1) (fun j' => j' <> hex_encode "b")) before (happens quiet before))
    by (apply happens_steps; vm_compute; reflexivity).
  assert (Hk : procs (happens quiet before) !! 1%nat = Some (RqLogout "" token1, LRefresh None token1)) by (vm_compute; reflexivity).
  destruct (concurrent_revocation iss (fun f => f <> family1) (fun j' => j' <> hex_encode "b") family1 (fun f Hf => Hf) issued.2 0
    (happens quiet before) (happens after_quiet (advance iss 1 (at_ 2 "" "") (happens quiet before))) 1%nat (at_ 2 "" "")
    (RqLogout "" token1) (LRefresh None token1)) as [Hnone _].
  - exact Hs.
  - exact Hk.
  - vm_compute. discriminate.
  - split; [vm_compute; discriminate|]. split; [vm_compute; discriminate|]. exists (claims_of token1). split; vm_compute; reflexivity.
  - vm_compute. reflexivity.
  - intros q' p' Hin. assert (Hf : Forall (fun qp => match qp.2 with RSign _ | RSet _ _ _ => false | _ => true end = true) (procs (happens quiet before)))
      by (vm_compute; repeat constructor).
    rewrite Forall_forall in Hf. specialize (Hf _ Hin). cbn [snd] in Hf. clear Hin. destruct p'; first [discriminate Hf | intros []].
  - apply happens_steps. vm_compute. reflexivity.
  - apply Hnone. vm_compute. discriminate.
Defined.

(** Why nothing may be in flight: a refresh that has read the family records its new token after a
    logout of that family has returned nil, and the session goes on with it. *)
Definition resurrection : list (request + nat * env) :=
  [inl (RqRefresh token1); inl (RqLogout "" token1); inr (0%nat, at_ 1 "" ""); inr (0%nat, at_ 1 "" "");
   inr (1%nat, at_ 2 "" ""); inr (1%nat, at_ 2 "" ""); inr (0%nat, at_ 3 "c" "d"); inr (0%nat, at_ 3 "" ""); inr (0%nat, at_ 3 "" "")].
Definition resurrected : TokenPair :=
  match procs (happens resurrection before) !! 0%nat with Some (_, RDone (inr tp)) => tp | _ => MkTokenPair "" "" "" 0 0 end.
Example logout_undone_by_refresh :
  procs (happens resurrection before) !! 1%nat = Some (RqLogout "" token1, LDone None) /\
  match (Refresh iss (renv "e" "f" (4 * Second)) (RefreshToken resurrected) (store (happens resurrection before))).1 with
  | inr tp => negb (String.eqb (RefreshToken tp) "") = true
  | inl _ => False
  end.
Proof. split; vm_compute; reflexivity. Qed.
