(* ===== verification/CacheFlight.v ===== *)
(** * Concurrent loads (cache/cache.go, GetOrLoad)

    Callers of [GetOrLoad] run at once with each other and with every other use of the cache. The
    mutex makes each use of the cache one step; the rest of a caller is its progress through
    [GetOrLoad] and through singleflight's [Do], of which the documented part is kept: while a call
    for a key is in flight, another [Do] of the key waits and gets the same result. *)

From S2P Require Import Prelude Cache.
Open Scope Z_scope.

Section Flight.
  Context {V : Type}.

(** Where a caller is: at the first [Get], at [Do], in the function [Do] runs ([FGet] to [FEnd]), or
    waiting for the caller [leader] whose function runs. *)
Inductive pc := CGet | CDo | FGet | FLoad | FSet (v : V) | FEnd (r : error + V) | CWait (leader : nat) | CDone (r : error + V).

(** [flights] is the group's map of running calls; [loads] records what each run of a loader gave. *)
Record system := Sys {
  callers : list (string * pc); store : cache (V := V); flights : gmap string nat; loads : list (string * (error + V)) }.

(** Caller [n] makes a step at the clock reading [now]; a loader that runs in it gives [r]. *)
Definition advance (n : nat) (now : Z) (r : error + V) (x : system) : system :=
  match callers x !! n with
  | None => x
  | Some (k, p) =>
      let become p' c := Sys (<[n := (k, p')]> (callers x)) c (flights x) (loads x) in
      match p with
      | CGet => match Get now k (store x) with
                | (Some v, c) => become (CDone (inr v)) c
                | (None, c) => become CDo c
                end
      | CDo => match flights x !! k with
               | Some l => become (CWait l) (store x)
               | None => Sys (<[n := (k, FGet)]> (callers x)) (store x) (<[k := n]> (flights x)) (loads x)
               end
      | FGet => match Get now k (store x) with
                | (Some v, c) => become (FEnd (inr v)) c
                | (None, c) => become FLoad c
                end
      | FLoad => Sys (<[n := (k, match r with inl e => FEnd (inl e) | inr v => FSet v end)]> (callers x))
                     (store x) (flights x) (loads x ++ [(k, r)])
      | FSet v => become (FEnd (inr v)) (Set_ now k v (store x))
      | FEnd res => Sys (<[n := (k, CDone res)]> (callers x)) (store x) (delete k (flights x)) (loads x)
      | CWait l => match callers x !! l with Some (_, CDone res) => become (CDone res) (store x) | _ => x end
      | CDone _ => x
      end
  end.

(** ** The steps considered, for one key *)

  (** The clock readings lie in an interval shorter than the default lifetime of an entry. *)
  Context (key : string) (T H : Z).

(** Uses of the cache that leave the key's entry alone. *)
Definition calm (o : op (V := V)) : Prop :=
  match o with
  | OGet now _ => now < H
  | OSweep order => Forall (fun v => v.1 < H) order
  | OSet _ k _ | OSetTTL _ k _ _ | ODelete k => k <> key
  | OLen => True
  end.

Inductive step : system -> system -> Prop :=
| step_arrives (k : string) (x : system) : step x (Sys (callers x ++ [(k, CGet)]) (store x) (flights x) (loads x))
| step_caller (n : nat) (now : Z) (r : error + V) (x : system) : T <= now < H -> step x (advance n now r x)
| step_uses (o : op) (x : system) : calm o -> step x (Sys (callers x) (Cache.step o (store x)).2 (flights x) (loads x)).

(** ** What the cache holds for a key *)

Definition held (c : cache (V := V)) (k : string) : option (V * Z) := snd <$> s_find k (abs c).
Definition live (exp : Z) : Prop := exp = 0 \/ H <= exp.

Lemma s_find_del_ne (k k' : string) (l : list (binding (V := V))) : k <> k' -> s_find k (s_del k' l) = s_find k l.
Proof.
  intros Hne. unfold s_find, s_del. rewrite list_filter_filter. f_equal. apply filter_ext_in. intros b _. naive_solver.
Qed.
Lemma s_find_cons_ne (k : string) (b : binding (V := V)) l : b.1 <> k -> s_find k (b :: l) = s_find k l.
Proof. intros Hne. unfold s_find. by rewrite filter_cons_False. Qed.

Lemma find_get now k k' (l : list (binding (V := V))) :
  (forall v exp, s_find k l = Some (k, (v, exp)) -> b_expired now (k, (v, exp)) = false) ->
  s_find k (s_get now k' l).2 = s_find k l.
Proof.
  intros Hlive. unfold s_get. destruct (s_find k' l) as [[k2 [v exp]]|] eqn:Hf; [|done].
  pose proof (s_find_in _ _ _ Hf) as [_ Hk2]. cbn [fst] in Hk2. subst k2. destruct (decide (k = k')) as [->|Hne].
  - rewrite (Hlive v exp Hf). cbn [snd]. rewrite (s_find_head k' (k', (v, exp))) by done. done.
  - destruct (b_expired now (k', (v, exp))); cbn [snd]; [by apply s_find_del_ne|].
    rewrite s_find_cons_ne by (cbn; congruence). by apply s_find_del_ne.
Qed.

Lemma find_set_ne max now k k' v ttl (l : list (binding (V := V))) : max <= 0 -> k <> k' ->
  s_find k (s_set max now k' v ttl l) = s_find k l.
Proof.
  intros Hm Hne. unfold s_set. destruct (s_find k' l); [rewrite s_find_cons_ne by (cbn; congruence); by apply s_find_del_ne|].
  destruct (Z.ltb_spec 0 max); [lia|]. cbn [andb]. apply s_find_cons_ne. cbn. congruence.
Qed.

Lemma find_set_eq max now k v ttl (l : list (binding (V := V))) :
  s_find k (s_set max now k v ttl l) = Some (k, (v, if 0 <? ttl then now + ttl else 0)).
Proof. destruct (s_set_head max now k v ttl l) as [l' ->]. by apply s_find_head. Qed.

Lemma live_not_expired now k v exp : live exp -> now < H -> b_expired (V := V) now (k, (v, exp)) = false.
Proof.
  unfold b_expired. cbn [snd]. intros [->|He] Hn; [done|]. destruct (Z.eqb_spec exp 0); [done|]. cbn [negb andb].
  destruct (Z.ltb_spec now exp); [done|lia].
Qed.

Lemma find_sweep order k (l : list (binding (V := V))) :
  (forall v exp, s_find k l = Some (k, (v, exp)) -> Forall (fun o => b_expired o.1 (k, (v, exp)) = false) order) ->
  s_find k (s_sweep order l) = s_find k l.
Proof.
  intros Hlive. unfold s_find, s_sweep in *. rewrite list_filter_filter. induction l as [|[k1 [v e]] l IH]; [done|].
  rewrite !filter_cons. cbn [fst]. destruct (decide (k1 = k)) as [->|Hk].
  - rewrite filter_cons in Hlive. cbn [fst] in Hlive. rewrite decide_True in Hlive by done. cbn [head] in Hlive. rewrite decide_True; [done|].
    split; [done|]. intros (o & Ho & _ & Hx)%Exists_exists. specialize (Hlive v e eq_refl). rewrite Forall_forall in Hlive. by rewrite (Hlive o Ho) in Hx.
  - rewrite filter_cons in Hlive. cbn [fst] in Hlive. rewrite decide_False in Hlive by done. rewrite decide_False by (intros [? _]; done). by apply IH.
Qed.

(** The key's entry, absent or live, outlives every calm use. *)
Lemma calm_find o max dttl (l : list (binding (V := V))) : calm o -> max <= 0 ->
  (forall v exp, s_find key l = Some (key, (v, exp)) -> live exp) -> s_find key (s_step max dttl o l).2 = s_find key l.
Proof.
  intros Hc Hm Hl. destruct o as [now k|now k v|now k v ttl|k| |order]; cbn [calm s_step] in *.
  - pose proof (find_get now key k l) as Hg. destruct (s_get now k l) as [r l']. cbn [snd] in *. apply Hg.
    intros v exp Hf. by apply live_not_expired; [eapply Hl|].
  - by apply find_set_ne; [|congruence].
  - by apply find_set_ne; [|congruence].
  - cbn [snd]. by apply s_find_del_ne.
  - done.
  - cbn [snd]. apply find_sweep. intros v exp Hf. eapply Forall_impl; [exact Hc|]. intros o Ho. by apply live_not_expired; [eapply Hl|].
Qed.
End Flight.
Arguments system V : clear implicits.
Arguments pc V : clear implicits.

(** * One load at a time, and one value *)

Section Invariant.
  Context {V : Type} (key : string) (T H : Z).
Implicit Types (cs : list (string * pc V)) (c : cache (V := V)).

(** A caller whose function is the one [Do] runs. *)
Definition flying (p : pc V) : bool := match p with FGet | FLoad | FSet _ | FEnd _ => true | _ => false end.

(** The flights of the key and its callers agree. *)
Record coherent cs (fl : gmap string nat) : Prop := {
  leader_flies m p : cs !! m = Some (key, p) -> flying p = true -> fl !! key = Some m;
  flight_leads m : fl !! key = Some m -> exists p, cs !! m = Some (key, p) /\ flying p = true;
  waits_for m l : cs !! m = Some (key, CWait l) -> exists p, cs !! l = Some (key, p) /\ (flying p = true \/ exists r, p = CDone r);
}.

Definition loads_of (ld : list (string * (error + V))) : list (error + V) := omap (fun kr => if decide (kr.1 = key) then Some kr.2 else None) ld.

(** What a caller of the key may have, given the failed loads and the value loaded, if one was. *)
Definition pc_ok (errs : list error) (res : option V) (p : pc V) : Prop :=
  match p with
  | FSet w | FEnd (inr w) | CDone (inr w) => res = Some w
  | FEnd (inl e) | CDone (inl e) => e ∈ errs
  | _ => True
  end.
Definition idle (p : pc V) : Prop := match p with FLoad | FSet _ => False | _ => True end.

Record phase errs (res : option V) cs c ld : Prop := {
  ph_loads : loads_of ld = map inl errs ++ match res with None => [] | Some v => [inr v] end;
  ph_callers m p : cs !! m = Some (key, p) -> pc_ok errs res p;
  ph_held : match res with
            | None => held c key = None
            | Some v => (exists exp, held c key = Some (v, exp) /\ live H exp /\ forall m p, cs !! m = Some (key, p) -> idle p)
                        \/ (held c key = None /\ exists m w, cs !! m = Some (key, FSet w))
            end;
}.

Definition store_ok (d : Z) c : Prop := wf c /\ maxSize c <= 0 /\ defaultTTL c = d.
Definition held_live c : Prop := forall v exp, held c key = Some (v, exp) -> live H exp.

Definition inv (d : Z) (x : system V) : Prop :=
  store_ok d (store x) /\ coherent (callers x) (flights x) /\ exists errs res, phase errs res (callers x) (store x) (loads x).

(** ** The cache *)

Lemma held_find c v exp : s_find key (abs c) = Some (key, (v, exp)) <-> held c key = Some (v, exp).
Proof.
  unfold held. destruct (s_find key (abs c)) as [[k b]|] eqn:Hf; [|done]. apply s_find_in in Hf as [_ Hk]. cbn [fst] in Hk. subst k.
  cbn. naive_solver.
Qed.

Lemma store_step d o c : store_ok d c -> store_ok d (Cache.step o c).2.
Proof.
  intros (Hwf & Hm & Hd). pose proof (step_sim o c Hwf) as [Hwf' _]. pose proof (step_cfg o c) as Hcfg.
  injection Hcfg as Hm' Hd'. split_and!; [done|lia|congruence].
Qed.
Lemma calm_held d o c : store_ok d c -> held_live c -> calm key H o -> held (Cache.step o c).2 key = held c key.
Proof.
  intros (Hwf & Hm & _) Hl Hc. unfold held. pose proof (step_sim o c Hwf) as [_ Hs].
  pose proof (calm_find key H o (maxSize c) (defaultTTL c) (abs c) Hc Hm) as Hf. rewrite Hs in Hf. cbn [snd] in Hf. rewrite Hf; [done|].
  intros v exp Hv. apply (Hl v). by apply held_find.
Qed.
Lemma Get_step now k c : (Cache.step (OGet now k) c).2 = (Get now k c).2.
Proof. cbn [Cache.step]. by destruct (Get now k c). Qed.

Lemma Get_held d now c : store_ok d c -> held_live c -> now < H ->
  (Get now key c).1 = fst <$> held c key /\ held (Get now key c).2 key = held c key /\ store_ok d (Get now key c).2.
Proof.
  intros Hc Hl Hn. rewrite <- Get_step. rewrite (calm_held d) by done. split_and!; [|done|by apply store_step].
  destruct Hc as (Hwf & _). destruct (Get_sim now key c Hwf) as [_ Hg]. unfold s_get in Hg.
  destruct (s_find key (abs c)) as [[k [v exp]]|] eqn:Hf.
  - pose proof (s_find_in _ _ _ Hf) as [_ Hk]. cbn [fst] in Hk. subst k. pose proof (proj1 (held_find c v exp) Hf) as Hv.
    rewrite (live_not_expired H) in Hg by (done || by eapply Hl). injection Hg as <- _. by rewrite Hv.
  - injection Hg as <- _. unfold held. by rewrite Hf.
Qed.

Lemma Set_held d now v c : store_ok d c -> T <= now -> d <= 0 \/ H <= T + d ->
  exists exp, held (Set_ now key v c) key = Some (v, exp) /\ live H exp.
Proof.
  intros (Hwf & _ & Hd) Hn Httl. destruct (setLocked_sim now key v (defaultTTL c) c Hwf) as [_ Habs].
  unfold held, Set_, SetTTL. rewrite Habs, find_set_eq. eexists. split; [reflexivity|]. unfold live. subst d.
  destruct (Z.ltb_spec 0 (defaultTTL c)); [right; lia|by left].
Qed.

(** ** Callers *)

Lemma phase_live errs res cs c ld : phase errs res cs c ld -> held_live c.
Proof.
  intros Hp v exp Hv. pose proof (ph_held _ _ _ _ _ Hp) as Hh. destruct res as [w|]; [|congruence].
  destruct Hh as [(exp' & Hw & Hl & _)|[Hn _]]; congruence.
Qed.

(** A caller's move that starts and ends no flight. *)
Lemma coherent_move cs fl n k p p' : coherent cs fl -> cs !! n = Some (k, p) -> (k = key -> flying p' = flying p) -> (forall r, p <> CDone r) ->
  (forall l, p' = CWait l -> k = key -> fl !! key = Some l) -> coherent (<[n := (k, p')]> cs) fl.
Proof.
  intros Hc Hn Hf Hd Hw. pose proof (lookup_lt_Some _ _ _ Hn) as Hlt. split.
  - intros m q [(-> & Heq & _)|[_ Hm]]%insert_cases Hq; [injection Heq as <- ->; specialize (Hf eq_refl); apply (leader_flies _ _ Hc n p); [done|congruence]|].
    by apply (leader_flies _ _ Hc m q).
  - intros m Hm. destruct (flight_leads _ _ Hc m Hm) as (q & Hq & Hfq). destruct (decide (m = n)) as [->|Hne].
    + rewrite Hq in Hn. injection Hn as <- <-. exists p'. rewrite list_lookup_insert_eq by done. split; [done|]. by rewrite Hf.
    + exists q. by rewrite list_lookup_insert_ne.
  - assert (Hkeep : forall l q, cs !! l = Some (key, q) -> (flying q = true \/ exists r, q = CDone r) ->
      exists q', <[n := (k, p')]> cs !! l = Some (key, q') /\ (flying q' = true \/ exists r, q' = CDone r)).
    { intros l q Hl Hq. destruct (decide (l = n)) as [->|Hne]; [|exists q; by rewrite list_lookup_insert_ne].
      rewrite Hl in Hn. injection Hn as <- <-. exists p'. rewrite list_lookup_insert_eq by done. split; [done|].
      destruct Hq as [Hq|[r ->]]; [left; by rewrite Hf|by destruct (Hd r)]. }
    intros m l [(-> & Heq & _)|[_ Hm]]%insert_cases.
    + injection Heq as <- <-. destruct (flight_leads _ _ Hc l) as (q & Hq & Hfq); [by apply Hw|]. apply (Hkeep l q Hq). by left.
    + destruct (waits_for _ _ Hc m l Hm) as (q & Hq & Hor). by apply (Hkeep l q).
Qed.

(** A caller's move that leaves loads and entry as they are. *)
Lemma phase_move errs res cs c c' ld n k p p' : phase errs res cs c ld -> cs !! n = Some (k, p) -> held c' key = held c key ->
  (k = key -> (forall w, p <> FSet w) /\ idle p' /\ pc_ok errs res p') -> phase errs res (<[n := (k, p')]> cs) c' ld.
Proof.
  intros Hp Hn Hh Hk. split; [apply Hp| |].
  - intros m q [(-> & Heq & _)|[_ Hm]]%insert_cases; [injection Heq as <- ->; by apply Hk|by apply (ph_callers _ _ _ _ _ Hp m)].
  - rewrite Hh. pose proof (ph_held _ _ _ _ _ Hp) as Hheld. destruct res as [v|]; [|done]. destruct Hheld as [(exp & He & Hl & Hi)|[He (m & w & Hm)]].
    + left. exists exp. split_and!; [done|done|]. intros m q [(-> & Heq & _)|[_ Hm]]%insert_cases; [injection Heq as <- ->; by apply Hk|by apply (Hi m)].
    + right. split; [done|]. exists m, w. rewrite list_lookup_insert_ne; [done|]. intros <-. rewrite Hm in Hn. injection Hn as <- <-.
      by destruct (Hk eq_refl) as [Hne _]; destruct (Hne w).
Qed.

(** Of the key's callers only one flies, and while a value waits to be stored nobody else does. *)
Lemma flying_unique cs fl m n p q : coherent cs fl -> cs !! m = Some (key, p) -> cs !! n = Some (key, q) -> flying p = true -> flying q = true -> m = n.
Proof. intros Hc Hm Hn Hp Hq. pose proof (leader_flies _ _ Hc m p Hm Hp). pose proof (leader_flies _ _ Hc n q Hn Hq). congruence. Qed.


Lemma coherent_flights cs fl fl' : coherent cs fl -> fl' !! key = fl !! key -> coherent cs fl'.
Proof. intros [H1 H2 H3] Heq. split; [intros m p; rewrite Heq; apply H1|intros m; rewrite Heq; apply H2|done]. Qed.

Lemma coherent_takeoff cs fl n : coherent cs fl -> cs !! n = Some (key, CDo) -> fl !! key = None ->
  coherent (<[n := (key, FGet)]> cs) (<[key := n]> fl).
Proof.
  intros Hc Hn Hfl. pose proof (lookup_lt_Some _ _ _ Hn) as Hlt. split.
  - intros m q [(-> & _)|[_ Hm]]%insert_cases Hq; [by rewrite lookup_insert_eq|]. pose proof (leader_flies _ _ Hc m q Hm Hq). congruence.
  - intros m. rewrite lookup_insert_eq. intros [= <-]. exists FGet. by rewrite list_lookup_insert_eq.
  - intros m l [(_ & Heq & _)|[_ Hm]]%insert_cases; [done|]. destruct (waits_for _ _ Hc m l Hm) as (q & Hq & Hor). exists q.
    rewrite list_lookup_insert_ne; [done|]. intros <-. rewrite Hq in Hn. injection Hn as ->. by destruct Hor as [|[r ?]].
Qed.

Lemma coherent_landing cs fl n r : coherent cs fl -> cs !! n = Some (key, FEnd r) ->
  coherent (<[n := (key, CDone r)]> cs) (delete key fl).
Proof.
  intros Hc Hn. pose proof (lookup_lt_Some _ _ _ Hn) as Hlt. pose proof (leader_flies _ _ Hc n _ Hn eq_refl) as Hfl. split.
  - intros m q [(_ & Heq & _)|[Hne Hm]]%insert_cases Hq; [injection Heq as ->; done|].
    destruct Hne. by apply (flying_unique cs fl m n q (FEnd r)).
  - intros m. by rewrite lookup_delete_eq.
  - intros m l [(_ & Heq & _)|[_ Hm]]%insert_cases; [done|]. destruct (waits_for _ _ Hc m l Hm) as (q & Hq & Hor).
    destruct (decide (l = n)) as [->|Hne]; [exists (CDone r); rewrite list_lookup_insert_eq by done; split; [done|right; by exists r]|].
    exists q. by rewrite list_lookup_insert_ne.
Qed.

(** Before the key's loader runs, nothing was loaded. *)
Lemma not_loaded errs res cs fl c ld n p d now : coherent cs fl -> phase errs res cs c ld -> cs !! n = Some (key, p) ->
  store_ok d c -> now < H -> p = FLoad \/ p = FGet /\ (Get now key c).1 = None -> res = None.
Proof.
  intros Hc Hp Hn Hs Hnow Hor. pose proof (ph_held _ _ _ _ _ Hp) as Hh. pose proof (phase_live _ _ _ _ _ Hp) as Hlive.
  destruct res as [v|]; [exfalso|done].
  destruct Hh as [(exp & He & Hl & Hi)|[He (m & w & Hm)]].
  - destruct Hor as [->|[-> Hg]]; [by apply (Hi n FLoad)|]. destruct (Get_held d now c Hs Hlive Hnow) as (Hg' & _). rewrite Hg, He in Hg'. done.
  - assert (flying p = true) by (by destruct Hor as [->|[-> _]]). assert (m = n) as -> by by apply (flying_unique cs fl m n (FSet w) p).
    rewrite Hm in Hn. injection Hn as <-. by destruct Hor as [|[? _]].
Qed.

Lemma loads_of_snoc ld k r : loads_of (ld ++ [(k, r)]) = loads_of ld ++ (if decide (k = key) then [r] else []).
Proof. unfold loads_of. rewrite omap_app. csimpl. by destruct (decide (k = key)). Qed.

Lemma pc_ok_more errs errs' res res' p : pc_ok errs res p -> (forall e, e ∈ errs -> e ∈ errs') -> (forall w, res = Some w -> res' = Some w) ->
  pc_ok errs' res' p.
Proof. destruct p as [| | | | |[]| |[]]; cbn; auto. Qed.

(** A run of the key's loader. *)
Lemma phase_load errs cs fl c ld n r : coherent cs fl -> phase errs None cs c ld -> cs !! n = Some (key, FLoad) ->
  exists errs' res', phase errs' res' (<[n := (key, match r with inl e => FEnd (inl e) | inr v => FSet v end)]> cs) c (ld ++ [(key, r)]).
Proof.
  intros Hc Hp Hn. pose proof (lookup_lt_Some _ _ _ Hn) as Hlt. pose proof (ph_held _ _ _ _ _ Hp) as Hh. pose proof (ph_loads _ _ _ _ _ Hp) as Hl.
  rewrite app_nil_r in Hl. destruct r as [e|v].
  - exists (errs ++ [e]), None. split; [|intros m q [(_ & Heq & _)|[_ Hm]]%insert_cases|done].
    + by rewrite loads_of_snoc, decide_True, Hl, map_app, app_nil_r by done.
    + injection Heq as ->. cbn. apply elem_of_app. right. by left.
    + apply (pc_ok_more errs (errs ++ [e]) None None); [by apply (ph_callers _ _ _ _ _ Hp m)| |done]. intros e' He'. apply elem_of_app. by left.
  - exists errs, (Some v). split; [|intros m q [(_ & Heq & _)|[_ Hm]]%insert_cases|].
    + by rewrite loads_of_snoc, decide_True, Hl by done.
    + by injection Heq as ->.
    + apply (pc_ok_more errs errs None (Some v)); [by apply (ph_callers _ _ _ _ _ Hp m)|done|done].
    + right. split; [done|]. exists n, v. by rewrite list_lookup_insert_eq.
Qed.

(** The loaded value is stored. *)
Lemma phase_store errs res cs fl c ld n d now w : coherent cs fl -> phase errs res cs c ld -> cs !! n = Some (key, FSet w) ->
  store_ok d c -> T <= now -> d <= 0 \/ H <= T + d -> phase errs res (<[n := (key, FEnd (inr w))]> cs) (Set_ now key w c) ld.
Proof.
  intros Hc Hp Hn Hs Hnow Httl. pose proof (ph_callers _ _ _ _ _ Hp n _ Hn) as Hres. cbn in Hres. subst res.
  destruct (Set_held d now w c Hs Hnow Httl) as (exp & He & Hl). split; [apply Hp| |].
  - intros m q [(_ & Heq & _)|[_ Hm]]%insert_cases; [by injection Heq as ->|by apply (ph_callers _ _ _ _ _ Hp m)].
  - left. exists exp. split_and!; [done|done|]. intros m q [(_ & Heq & _)|[Hne Hm]]%insert_cases; [by injection Heq as ->|].
    destruct q; try done; destruct Hne; by eapply (flying_unique cs fl m n _ (FSet w)).
Qed.

(** A caller of another key: its uses of the cache are calm for this one. *)
Lemma other_caller d x n k p now r : inv d x -> T <= now < H -> callers x !! n = Some (k, p) -> k <> key -> inv d (advance n now r x).
Proof.
  intros (Hs & Hc & errs & res & Hp) Hnow Hn Hk. pose proof (phase_live _ _ _ _ _ Hp) as Hlive.
  assert (Hmove : forall p' c', store_ok d c' -> held c' key = held (store x) key -> (forall r, p <> CDone r) ->
    inv d (Sys (<[n := (k, p')]> (callers x)) c' (flights x) (loads x))).
  { intros p' c' Hs' Hh Hd. split; [done|]. split; [by eapply coherent_move|]. exists errs, res. by eapply phase_move. }
  assert (Hget : store_ok d (Get now k (store x)).2 /\ held (Get now k (store x)).2 key = held (store x) key).
  { rewrite <- Get_step. split; [by apply store_step|]. apply (calm_held d); [done|done|]. cbn. lia. }
  assert (Hset : forall v, store_ok d (Set_ now k v (store x)) /\ held (Set_ now k v (store x)) key = held (store x) key).
  { intros v. change (Set_ now k v (store x)) with (Cache.step (OSet now k v) (store x)).2. split; [by apply store_step|]. by apply (calm_held d). }
  unfold advance. rewrite Hn. destruct p as [| | | |w|res'|l|res'].
  - destruct Hget as [Hg1 Hg2]. destruct (Get now k (store x)) as [[v|] c']; by apply Hmove.
  - destruct (flights x !! k) as [l|]; [by apply Hmove|]. destruct (Hmove FGet (store x)) as (H1 & H2 & H3); [done..|].
    split; [done|]. split; [|exact H3]. eapply coherent_flights; [exact H2|]. cbn. by rewrite lookup_insert_ne.
  - destruct Hget as [Hg1 Hg2]. destruct (Get now k (store x)) as [[v|] c']; by apply Hmove.
  - destruct (Hmove match r with inl e => FEnd (inl e) | inr v => FSet v end (store x)) as (H1 & H2 & errs' & res' & [Hl Hcs Hh]); [done..|].
    split; [done|]. split; [done|]. exists errs', res'. split; [|done|done]. cbn [loads] in *. by rewrite loads_of_snoc, decide_False, app_nil_r.
  - destruct (Hset w). by apply Hmove.
  - destruct (Hmove (CDone res') (store x)) as (H1 & H2 & H3); [done..|].
    split; [done|]. split; [|exact H3]. eapply coherent_flights; [exact H2|]. cbn. by rewrite lookup_delete_ne.
  - destruct (callers x !! l) as [[k' [| | | | | | |res']]|]; try by split_and!; [..|exists errs, res]. by apply Hmove.
  - by split_and!; [..|exists errs, res].
Qed.

Lemma key_caller d x n p now r : d <= 0 \/ H <= T + d -> inv d x -> T <= now < H -> callers x !! n = Some (key, p) -> inv d (advance n now r x).
Proof.
  intros Httl (Hs & Hc & errs & res & Hp) Hnow Hn. pose proof (phase_live _ _ _ _ _ Hp) as Hlive.
  destruct (Get_held d now (store x) Hs Hlive) as (Hg & Hgh & Hgs); [lia|].
  assert (Hmove : forall p' c', store_ok d c' -> held c' key = held (store x) key -> flying p' = flying p -> (forall r, p <> CDone r) ->
    (forall w, p <> FSet w) -> (forall l, p' = CWait l -> flights x !! key = Some l) -> idle p' \/ res = None /\ p' = FLoad ->
    pc_ok errs res p' -> inv d (Sys (<[n := (key, p')]> (callers x)) c' (flights x) (loads x))).
  { intros p' c' Hs' Hh Hf Hd Hset Hw Hi Hok. split; [done|]. split; [by eapply coherent_move; [| |intros _| |intros l Hl _; apply Hw]|].
    exists errs, res. destruct Hi as [Hi|[-> ->]]; [by eapply phase_move|]. split; [apply Hp| |].
    - intros m q [(-> & Heq & _)|[_ Hm]]%insert_cases; [by injection Heq as ->|by apply (ph_callers _ _ _ _ _ Hp m)].
    - cbn. rewrite Hh. apply (ph_held _ _ _ _ _ Hp). }
  assert (Hhit : forall v c', Get now key (store x) = (Some v, c') -> res = Some v).
  { intros v c' Heq. rewrite Heq in Hg. cbn in Hg. pose proof (ph_held _ _ _ _ _ Hp) as Hh. destruct res as [w|]; [|rewrite Hh in Hg; done].
    destruct Hh as [(exp & He & _)|[He _]]; rewrite He in Hg; [|done]. by injection Hg as ->. }
  unfold advance. rewrite Hn. destruct p as [| | | |w|res'|l|res'].
  - destruct (Get now key (store x)) as [[v|] c'] eqn:Heq; cbn [snd] in *; apply Hmove; try done; try (by left). by apply (Hhit v c').
  - destruct (flights x !! key) as [l|] eqn:Hfl; [apply Hmove; try done; [by intros l' [= ->]|by left]|].
    split; [done|]. split; [by apply coherent_takeoff|]. exists errs, res. eapply phase_move; [done|done|done|]. intros _. by split_and!.
  - destruct (Get now key (store x)) as [[v|] c'] eqn:Heq; cbn [snd] in *; apply Hmove; try done; [by left|by apply (Hhit v c')|].
    right. split; [|done]. eapply (not_loaded errs res (callers x) (flights x) (store x)); [done|done|exact Hn|done|apply Hnow|]. right. by rewrite Heq.
  - assert (res = None) as -> by (eapply (not_loaded errs res (callers x) (flights x) (store x)); [done|done|exact Hn|done|apply Hnow|by left]).
    split; [done|]. split; [by eapply coherent_move; [| |destruct r| |destruct r]|]. by eapply phase_load.
  - split; [change (Set_ now key w (store x)) with (Cache.step (OSet now key w) (store x)).2; by apply store_step|].
    split; [by eapply coherent_move|]. exists errs, res. by eapply phase_store; [| | | |apply Hnow|].
  - split; [done|]. split; [by apply coherent_landing|]. exists errs, res. eapply phase_move; [done|done|done|]. intros _.
    split_and!; [done|done|]. by apply (ph_callers _ _ _ _ _ Hp n _ Hn).
  - destruct (waits_for _ _ Hc n l Hn) as (q & Hq & _). rewrite Hq. destruct q as [| | | | | | |res']; try by split_and!; [..|exists errs, res].
    apply Hmove; try done; [by left|]. by apply (ph_callers _ _ _ _ _ Hp l _ Hq).
  - by split_and!; [..|exists errs, res].
Qed.

Lemma step_inv d x y : d <= 0 \/ H <= T + d -> inv d x -> step key T H x y -> inv d y.
Proof.
  intros Httl Hx Hstep. destruct Hstep as [k x|n now r x Hnow|o x Ho].
  - destruct Hx as (Hs & Hc & errs & res & Hp).
    assert (Hold : forall m k' p, (callers x ++ [(k, CGet)]) !! m = Some (k', p) -> callers x !! m = Some (k', p) \/ p = CGet).
    { intros m k' p [Hm|[_ Heq]]%app_one_cases; [by left|right; by injection Heq]. }
    assert (Hkeep : forall m kp, callers x !! m = Some kp -> (callers x ++ [(k, CGet)]) !! m = Some kp) by (intros; by apply lookup_app_l_Some).
    split; [done|]. split.
    + split; cbn.
      * intros m p [Hm| ->]%Hold Hf; [by apply (leader_flies _ _ Hc m p)|done].
      * intros m (p & Hm & Hf)%(flight_leads _ _ Hc). exists p. split; [by apply Hkeep|done].
      * intros m l [Hm|]%Hold; [|done]. destruct (waits_for _ _ Hc m l Hm) as (p & Hl & Hor). exists p. split; [by apply Hkeep|done].
    + exists errs, res. split; [apply Hp| |].
      * intros m p [Hm| ->]%Hold; [by apply (ph_callers _ _ _ _ _ Hp m)|done].
      * pose proof (ph_held _ _ _ _ _ Hp) as Hh. destruct res as [v|]; [|done]. destruct Hh as [(exp & He & Hl & Hi)|[He (m & w & Hm)]].
        -- left. exists exp. split_and!; [done|done|]. intros m p [Hm| ->]%Hold; [by apply (Hi m)|done].
        -- right. split; [done|]. exists m, w. by apply Hkeep.
  - destruct (callers x !! n) as [[k p]|] eqn:Hn; [|by unfold advance; rewrite Hn].
    destruct (decide (k = key)) as [->|Hk]; [by eapply key_caller|by eapply other_caller].
  - destruct Hx as (Hs & Hc & errs & res & [Hl Hcs Hh]). assert (Hp : phase errs res (callers x) (store x) (loads x)) by done.
    assert (Hsame : held (Cache.step o (store x)).2 key = held (store x) key) by (apply (calm_held d); [done|by eapply phase_live|done]).
    split; [by apply store_step|]. split; [done|]. exists errs, res. split; [done|done|]. cbn. by rewrite Hsame.
Qed.
End Invariant.

(** How far a caller is from being done. *)
Definition rank {V} (p : pc V) : nat :=
  match p with CGet => 7 | CDo => 6 | FGet => 5 | FLoad => 4 | FSet _ => 3 | FEnd _ => 2 | CWait _ => 1 | CDone _ => 0 end.

Section Progress.
  Context {V : Type} (key : string).

(** A caller that does not wait moves on, whatever it meets; a waiting one once its leader is done. *)
Lemma advance_ranks n now r (x : system V) k p : callers x !! n = Some (k, p) ->
  (match p with CDone _ => False | CWait l => exists k' res, callers x !! l = Some (k', CDone res) | _ => True end) ->
  exists p', callers (advance n now r x) !! n = Some (k, p') /\ (rank p' < rank p)%nat.
Proof.
  intros Hn Hp. pose proof (lookup_lt_Some _ _ _ Hn) as Hlt.
  assert (Hgo : forall p' c fl ld, callers (Sys (<[n := (k, p')]> (callers x)) c fl ld) !! n = Some (k, p')) by (intros; cbn; by rewrite list_lookup_insert_eq).
  unfold advance. rewrite Hn. destruct p as [| | | |w|res|l|res]; try done.
  - destruct (Get now k (store x)) as [[v|] c]; eexists; (split; [apply Hgo|cbn; lia]).
  - destruct (flights x !! k); eexists; (split; [apply Hgo|cbn; lia]).
  - destruct (Get now k (store x)) as [[v|] c]; eexists; (split; [apply Hgo|cbn; lia]).
  - eexists; (split; [apply Hgo|destruct r; cbn; lia]).
  - eexists; (split; [apply Hgo|cbn; lia]).
  - eexists; (split; [apply Hgo|cbn; lia]).
  - destruct Hp as (k' & res & ->). eexists; (split; [apply Hgo|cbn; lia]).
Qed.

Lemma somebody_moves cs fl (x : system V) m p now r : callers x = cs -> coherent key cs fl -> cs !! m = Some (key, p) -> (forall res, p <> CDone res) ->
  exists n q q', callers x !! n = Some (key, q) /\ callers (advance n now r x) !! n = Some (key, q') /\ (rank q' < rank q)%nat.
Proof.
  intros <- Hc Hm Hd. assert (Hgo : forall n q, callers x !! n = Some (key, q) ->
    (match q with CDone _ => False | CWait l => exists k' res, callers x !! l = Some (k', CDone res) | _ => True end) ->
    exists n q q', callers x !! n = Some (key, q) /\ callers (advance n now r x) !! n = Some (key, q') /\ (rank q' < rank q)%nat).
  { intros n q Hn Hq. destruct (advance_ranks n now r x key q Hn Hq) as (q' & H1 & H2). by exists n, q, q'. }
  destruct p as [| | | | | |l|res]; try by apply (Hgo m _ Hm).
  - destruct (waits_for _ _ _ Hc m l Hm) as (q & Hq & [Hf|[res ->]]); [apply (Hgo l q Hq); by destruct q|]. apply (Hgo m _ Hm). by exists key, res.
  - by destruct (Hd res).
Qed.
End Progress.

(** (C6) One load, one value. In a cache without a size bound, over any time shorter than the default
    lifetime of its entries, in which nobody sets or deletes the key: however callers of
    [GetOrLoad], on this and other keys, and other uses of the cache interleave, at most one runs
    the key's loader at a time; the loader is never run again once it has given a value; every
    caller that is done has that value, or the error of a run that failed; and while a caller is
    not done some caller of the key can move, towards its end whatever it meets. (A size bound may
    evict the value and the lifetime may end, and then a later call loads again.) *)
Theorem single_load {V : Type} (opts : list (config -> config)) (os : list (op (V := V))) (key : string) (T H : Z) (y : system V)
    (c := (run os (New opts)).2) :
  maxSize (New (V := V) opts) <= 0 -> defaultTTL (New (V := V) opts) <= 0 \/ H <= T + defaultTTL (New (V := V) opts) ->
  items c !! key = None -> rtc (step key T H) (Sys [] c ∅ []) y ->
  exists errs res,
    loads_of key (loads y) = map inl errs ++ match res with None => [] | Some v => [inr v] end /\
    (forall n w, callers y !! n = Some (key, CDone (inr w)) -> res = Some w) /\
    (forall n e, callers y !! n = Some (key, CDone (inl e)) -> e ∈ errs) /\
    (forall m n, callers y !! m = Some (key, FLoad) -> callers y !! n = Some (key, FLoad) -> m = n) /\
    (forall m p now r, callers y !! m = Some (key, p) -> (forall res, p <> CDone res) ->
       exists n q q', callers y !! n = Some (key, q) /\ callers (advance n now r y) !! n = Some (key, q') /\ (rank q' < rank q)%nat).
Proof.
  intros Hmax Httl Hnone Hy. destruct (wf_New (V := V) opts) as [Hwf0 _]. destruct (run_sim os _ Hwf0) as (Hwf & Hm & _). fold c in Hwf, Hm.
  assert (Hcfg : defaultTTL c = defaultTTL (New (V := V) opts)).
  { unfold c. clear. generalize (New (V := V) opts). induction os as [|o os IH]; intros c; [done|]. cbn [run].
    pose proof (step_cfg o c) as Hc. destruct (Cache.step o c) as [r c1]. specialize (IH c1). destruct (run os c1). cbn [snd] in *.
    injection Hc as _ Hd. congruence. }
  assert (Hinv : inv key H (defaultTTL (New (V := V) opts)) (Sys [] c ∅ [])).
  { split; [split_and!; [done|cbn; lia|done]|]. split; [by split|]. exists [], None. split; [done|done|]. cbn. unfold held.
    rewrite s_find_abs by done. by rewrite Hnone. }
  assert (Hyinv : inv key H (defaultTTL (New (V := V) opts)) y).
  { clear -Hy Hinv Httl. induction Hy as [|x1 x2 x3 Hs Hr IH]; [done|]. apply IH. by eapply step_inv. }
  destruct Hyinv as (_ & Hc & errs & res & Hp). exists errs, res. split_and!.
  - apply Hp.
  - intros n w Hn. by apply (ph_callers _ _ _ _ _ _ _ Hp n _ Hn).
  - intros n e Hn. by apply (ph_callers _ _ _ _ _ _ _ Hp n _ Hn).
  - intros m n Hm' Hn'. by eapply flying_unique.
  - intros m p now r Hm' Hd. by eapply somebody_moves.
Qed.

(** Two callers race, the loader of the first fails, and a third call finds the second's value. *)
Definition happen (x : system Z) (ev : string + nat * Z * (error + Z)) : system Z :=
  match ev with inl k => Sys (callers x ++ [(k, CGet)]) (store x) (flights x) (loads x) | inr (n, now, r) => advance n now r x end.
Definition happens := fold_left happen.
Definition in_time (T H : Z) (ev : string + nat * Z * (error + Z)) : bool := match ev with inl _ => true | inr (_, now, _) => (T <=? now) && (now <? H) end.
Lemma happenings_steps key T H evs x : forallb (in_time T H) evs = true -> rtc (step key T H) x (happens evs x).
Proof.
  revert x. induction evs as [|ev evs IH]; intros x; [intros _; apply rtc_refl|]. cbn [forallb]. intros [Hev Hok]%andb_true_iff.
  eapply rtc_l; [|by apply IH]. destruct ev as [k|[[n now] r]]; [apply step_arrives|apply step_caller].
  apply andb_true_iff in Hev as [?%Z.leb_le ?%Z.ltb_lt]. done.
Qed.

Definition move (n : nat) (r : error + Z) : string + nat * Z * (error + Z) := inr (n, 5, r).
Definition two_callers : list (string + nat * Z * (error + Z)) :=
  [inl "k"; inl "k"; move 0 (inr 0); move 1 (inr 0); move 0 (inr 0); move 0 (inr 0); move 0 (inl (Err "down")); move 0 (inr 0);
   move 1 (inr 0); move 1 (inr 0); move 1 (inr 7); move 1 (inr 0); inl "k"; move 2 (inr 0)]%string.

Lemma single_load_witness :
  let y := happens two_callers (Sys [] (New (V := Z) [WithDefaultTTL Second]) ∅ []) in
  map snd (callers y) = [CDone (inl (Err "down")); FEnd (inr 7); CDone (inr 7)] /\
  exists errs res, loads_of "k" (loads y) = map inl errs ++ match res with None => [] | Some v => [inr v] end /\ res = Some 7.
Proof.
  cbv zeta. split; [vm_compute; reflexivity|].
  destruct (single_load [WithDefaultTTL Second] [] "k" 0 Second (happens two_callers (Sys [] (New (V := Z) [WithDefaultTTL Second]) ∅ [])))
    as (errs & res & Hl & Hd & _).
  - vm_compute. discriminate.
  - right. vm_compute. discriminate.
  - reflexivity.
  - apply happenings_steps. vm_compute. reflexivity.
  - exists errs, res. split; [exact Hl|]. apply (Hd 2%nat). vm_compute. reflexivity.
Defined.
