(* ===== verification/CacheJanitor.v ===== *)
(** * The janitor (cache/cache.go: runJanitor, Close)

    A cache with an interval has a goroutine that sweeps expired entries at each tick until [Close].
    Whenever it runs, and whenever it is stopped, nobody notices: on a cache without a size bound
    every [Get] answers as a plain map from keys to values with an end does. *)

From S2P Require Import Prelude Cache CacheFlight.
Open Scope Z_scope.

(** ** The goroutine and its channel *)

(** [janitorStop], nil or a channel that is closed or not, and whether [closeOnce] is done. *)
Record janitor := Janitor { janitorStop : option bool; closeOnce : bool }.
Definition started (interval : Z) : janitor := Janitor (if 0 <? interval then Some false else None) false.

(** Closing a channel twice panics: [None]. *)
Definition close_channel (j : janitor) : option janitor :=
  match janitorStop j with Some false => Some (Janitor (Some true) (closeOnce j)) | _ => None end.
Definition Close (j : janitor) : option janitor :=
  match janitorStop j with
  | None => Some j
  | Some _ => if closeOnce j then Some j
              else match close_channel j with Some j => Some (Janitor (janitorStop j) true) | None => None end
  end.

(** What happens around a cache: a use of it, a turn of the janitor's [select] that takes the tick, its taking the
    closed channel (which it can when both are ready, too), and a call of [Close]. *)
Section Runs.
  Context {V : Type}.

Inductive happening := HUse (o : op (V := V)) | HTick (order : list (Z * string)) | HStop | HClose.

(** [alive]: the goroutine has not returned. *)
Record state := State { the_cache : cache (V := V); the_janitor : janitor; alive : bool }.
Definition start (opts : list (config -> config)) : state :=
  let cfg := fold_left (fun c o => o c) opts (Config 0 0 0) in
  State (New opts) (started (cfg_janitor cfg)) (0 <? cfg_janitor cfg).

(** The result of a use; [None] for what cannot happen. *)
Inductive step : state -> happening -> option (output (V := V)) -> state -> Prop :=
| step_use c j b o : step (State c j b) (HUse o) (Some (Cache.step o c).1) (State (Cache.step o c).2 j b)
| step_tick c j order : step (State c j true) (HTick order) None (State (sweep order c) j true)
| step_stop c j : janitorStop j = Some true -> step (State c j true) HStop None (State c j false)
| step_close c j j' b : Close j = Some j' -> step (State c j b) HClose None (State c j' b).

Inductive runs : state -> list happening -> list (output (V := V)) -> state -> Prop :=
| runs_nil x : runs x [] [] x
| runs_cons x h r y hs rs z : step x h r y -> runs y hs rs z -> runs x (h :: hs) (match r with Some r => r :: rs | None => rs end) z.

(** ** A map of values with an end *)

Abbreviation table := (gmap string (V * Z)).

Definition m_lookup (now : Z) (k : string) (m : table) : option V :=
  match m !! k with Some b => if b_expired now (k, b) then None else Some b.1 | None => None end.
Definition m_step (dttl : Z) (o : op (V := V)) (m : table) : output (V := V) * table :=
  match o with
  | OGet now k => (RVal (m_lookup now k m), m)
  | OSet now k v => (RUnit, <[k := (v, if 0 <? dttl then now + dttl else 0)]> m)
  | OSetTTL now k v ttl => (RUnit, <[k := (v, if 0 <? ttl then now + ttl else 0)]> m)
  | ODelete k => (RUnit, delete k m)
  | OLen | OSweep _ => (RUnit, m)
  end.
Fixpoint m_run (dttl : Z) (os : list (op (V := V))) (m : table) : list (output (V := V)) :=
  match os with [] => [] | o :: os => let '(r, m) := m_step dttl o m in r :: m_run dttl os m end.

(** The length is not what a map would say: it counts expired entries that nobody has met. *)
Definition but_len (r : output (V := V)) : output (V := V) := match r with RLen _ => RUnit | r => r end.

(** The clock readings of a happening, and readings that do not go back. *)
Definition clocks (h : happening) : list Z :=
  match h with
  | HUse (OGet t _ | OSet t _ _ | OSetTTL t _ _ _) => [t]
  | HUse (OSweep order) | HTick order => map fst order
  | _ => []
  end.
Fixpoint climb (T : Z) (ts : list Z) : Prop := match ts with [] => True | t :: ts => T <= t /\ climb t ts end.
Fixpoint latest (T : Z) (ts : list Z) : Z := match ts with [] => T | t :: ts => latest t ts end.
Fixpoint forward (T : Z) (hs : list happening) : Prop :=
  match hs with [] => True | h :: hs => climb T (clocks h) /\ forward (latest T (clocks h)) hs end.
Definition uses (hs : list happening) : list (op (V := V)) := omap (fun h => match h with HUse o => Some o | _ => None end) hs.

(** ** Views *)

Definition view (t : Z) (k : string) (l : list (string * (V * Z))) : option V :=
  match s_find k l with Some b => if b_expired t b then None else Some b.2.1 | None => None end.

(** From [T] on the list and the map show the same. *)
Definition agrees (T : Z) (l : list (string * (V * Z))) (m : table) : Prop :=
  NoDup (map fst l) /\ forall t k, T <= t -> view t k l = m_lookup t k m.

Lemma b_expired_later t t' (b : string * (V * Z)) : t <= t' -> b_expired t b = true -> b_expired t' b = true.
Proof. unfold b_expired. intros Hle. destruct (b.2.2 =? 0); [done|]. cbn. destruct (Z.ltb_spec t b.2.2), (Z.ltb_spec t' b.2.2); done || lia. Qed.

Lemma find_cons_ne (k : string) (b : string * (V * Z)) (l : list (string * (V * Z))) : b.1 <> k -> s_find k (b :: l) = s_find k l.
Proof. apply s_find_cons_ne. Qed.

Lemma find_unique (l : list (string * (V * Z))) (b : string * (V * Z)) : NoDup (map fst l) -> b ∈ l -> s_find b.1 l = Some b.
Proof.
  unfold s_find. induction l as [|b1 l IH]; intros Hnd Hb; [by apply elem_of_nil in Hb|]. cbn [map] in Hnd. apply NoDup_cons in Hnd as [Hn Hnd].
  rewrite filter_cons. apply elem_of_cons in Hb as [->|Hb]; [by rewrite decide_True|]. rewrite decide_False; [by apply IH|].
  intros Heq. apply Hn. rewrite Heq. apply list_elem_of_fmap. by exists b.
Qed.
Lemma find_none (k : string) (l : list (string * (V * Z))) : s_find k l = None -> forall b, b ∈ l -> b.1 <> k.
Proof.
  unfold s_find. induction l as [|b1 l IH]; intros Hn b Hb; [by apply elem_of_nil in Hb|]. rewrite filter_cons in Hn.
  destruct (decide (b1.1 = k)); [done|]. apply elem_of_cons in Hb as [->|Hb]; [done|by apply IH].
Qed.
Lemma nodup_filter (P : string * (V * Z) -> Prop) `{forall b, Decision (P b)} (l : list (string * (V * Z))) : NoDup (map fst l) -> NoDup (map fst (filter P l)).
Proof.
  induction l as [|b l IH]; [done|]. cbn [map]. intros [Hn Hnd]%NoDup_cons. rewrite filter_cons. destruct (decide (P b)); [|by apply IH].
  cbn [map]. apply NoDup_cons. split; [|by apply IH]. intros Hin. apply Hn. apply list_elem_of_fmap in Hin as (b' & -> & [_ Hb']%list_elem_of_filter).
  apply list_elem_of_fmap. by exists b'.
Qed.
Lemma nodup_front (b : string * (V * Z)) (l : list (string * (V * Z))) : NoDup (map fst l) -> NoDup (map fst (b :: s_del b.1 l)).
Proof.
  intros Hnd. cbn [map]. apply NoDup_cons. split; [|by apply nodup_filter]. intros Hin.
  apply list_elem_of_fmap in Hin as (b' & Hb & [Hne _]%list_elem_of_filter). congruence.
Qed.

Lemma agrees_later T T' l m : T <= T' -> agrees T l m -> agrees T' l m.
Proof. intros Hle [Hnd Hv]. split; [done|]. intros t k Ht. apply Hv. lia. Qed.

Lemma view_front t k (b : string * (V * Z)) (l : list (string * (V * Z))) :
  view t k (b :: s_del b.1 l) = if decide (k = b.1) then (if b_expired t b then None else Some b.2.1) else view t k l.
Proof.
  unfold view. destruct (decide (k = b.1)) as [->|Hne]; [by rewrite s_find_head by done|]. rewrite find_cons_ne by congruence.
  by rewrite s_find_del_ne.
Qed.
Lemma view_new t k (b : string * (V * Z)) (l : list (string * (V * Z))) : s_find b.1 l = None ->
  view t k (b :: l) = if decide (k = b.1) then (if b_expired t b then None else Some b.2.1) else view t k l.
Proof.
  intros Hn. unfold view. destruct (decide (k = b.1)) as [->|Hne]; [by rewrite s_find_head by done|]. by rewrite find_cons_ne by congruence.
Qed.
Lemma find_del k (l : list (string * (V * Z))) : s_find k (s_del k l) = None.
Proof.
  unfold s_find, s_del. rewrite list_filter_filter. destruct (filter _ l) as [|b l'] eqn:Hf; [done|].
  assert (Hb : b ∈ b :: l') by by left. rewrite <- Hf in Hb. apply list_elem_of_filter in Hb as [[H1 H2] _]. done.
Qed.
Lemma view_del t k k' (l : list (string * (V * Z))) : view t k (s_del k' l) = if decide (k = k') then None else view t k l.
Proof. unfold view. destruct (decide (k = k')) as [->|Hne]; [by rewrite find_del|]. by rewrite s_find_del_ne. Qed.

Lemma climb_latest ts : forall T, climb T ts -> T <= latest T ts /\ Forall (fun t => t <= latest T ts) ts.
Proof.
  induction ts as [|t ts IH]; intros T; cbn; [by intros _; split; [lia|constructor]|]. intros [Hle Hc]. destruct (IH t Hc) as [H1 H2].
  split; [lia|]. by constructor.
Qed.

Lemma view_sweep t k order (l : list (string * (V * Z))) : NoDup (map fst l) -> Forall (fun t' => t' <= t) (map fst order) -> view t k (s_sweep order l) = view t k l.
Proof.
  intros Hnd Hle. unfold view. destruct (s_find k (s_sweep order l)) as [b|] eqn:Hs.
  - apply s_find_in in Hs as [[_ Hb]%list_elem_of_filter <-]. by rewrite (find_unique l b).
  - destruct (s_find k l) as [b|] eqn:Hf; [|done]. apply s_find_in in Hf as [Hb <-]. destruct (b_expired t b) eqn:Hx; [done|]. exfalso.
    apply (find_none _ _ Hs b); [|done]. apply list_elem_of_filter. split; [|done]. intros (v & Hv & _ & Hn)%Exists_exists.
    rewrite Forall_forall in Hle. assert (Ht : v.1 <= t) by (apply Hle, list_elem_of_fmap; by exists v). by rewrite (b_expired_later _ _ _ Ht Hn) in Hx.
Qed.

Lemma agrees_insert T now k v e l l' (m : table) : agrees T l m -> T <= now ->
  l' = (match s_find k l with Some _ => (k, (v, e)) :: s_del k l | None => (k, (v, e)) :: l end) -> agrees now l' (<[k := (v, e)]> m).
Proof.
  intros [Hnd Hv] Hle ->. split.
  - destruct (s_find k l) eqn:Hf; [by apply (nodup_front (k, (v, e)))|]. cbn [map]. apply NoDup_cons. split; [|done].
    intros Hin. apply list_elem_of_fmap in Hin as (b & Hb & Hin). by apply (find_none _ _ Hf b Hin).
  - intros t k' Ht. unfold m_lookup. assert (Hview : view t k' (match s_find k l with Some _ => (k, (v, e)) :: s_del k l | None => (k, (v, e)) :: l end) =
      if decide (k' = k) then (if b_expired t (k, (v, e)) then None else Some v) else view t k' l).
    { destruct (s_find k l) eqn:Hf; [apply (view_front t k' (k, (v, e)))|by apply (view_new t k' (k, (v, e)))]. }
    rewrite Hview. destruct (decide (k' = k)) as [->|Hne]; [by rewrite lookup_insert_eq|]. rewrite lookup_insert_ne by done. rewrite Hv by lia. done.
Qed.

Definition op_clocks (o : op (V := V)) : list Z := clocks (HUse o).

Lemma agrees_step max dttl T o l m : max <= 0 -> agrees T l m -> climb T (op_clocks o) ->
  but_len (s_step max dttl o l).1 = (m_step dttl o m).1 /\ agrees (latest T (op_clocks o)) (s_step max dttl o l).2 (m_step dttl o m).2.
Proof.
  intros Hmax Ha Ht. assert (Hset : forall now k v ttl, op_clocks o = [now] ->
    agrees now (s_set max now k v ttl l) (<[k := (v, if 0 <? ttl then now + ttl else 0)]> m)).
  { intros now k v ttl Ho. eapply (agrees_insert T); [done|rewrite Ho in Ht; apply Ht|]. unfold s_set. destruct (Z.ltb_spec 0 max); [lia|]. done. }
  destruct o as [now k|now k v|now k v ttl|k| |order]; cbn [s_step m_step op_clocks clocks climb latest fst snd] in *; try by (split; [done|apply Hset]).
  - destruct Ht as [Ht _]. destruct Ha as [Hnd Hv]. pose proof (Hv now k Ht) as Hnow. unfold view in Hnow. unfold s_get.
    destruct (s_find k l) as [b|] eqn:Hf.
    + pose proof (s_find_in _ _ _ Hf) as [Hb <-]. destruct (b_expired now b) eqn:Hx; cbn [fst snd but_len].
      * split; [by rewrite <- Hnow|]. split; [by apply nodup_filter|]. intros t k' Hle; cbn in Hle. rewrite view_del, <- Hv by lia.
        destruct (decide (k' = b.1)) as [->|]; [|done]. unfold view. by rewrite Hf, (b_expired_later _ _ _ Hle Hx).
      * split; [by rewrite <- Hnow|]. split; [by apply nodup_front|]. intros t k' Hle; cbn in Hle. rewrite view_front, <- Hv by lia.
        destruct (decide (k' = b.1)) as [->|]; [|done]. unfold view. by rewrite Hf.
    + split; [by rewrite <- Hnow|]. split; [done|]. intros t k' Hle; cbn in Hle. apply Hv. lia.
  - split; [done|]. destruct Ha as [Hnd Hv]. split; [by apply nodup_filter|]. intros t k' Hle; cbn in Hle. rewrite view_del, Hv by done. unfold m_lookup.
    destruct (decide (k' = k)) as [->|Hne]; [by rewrite lookup_delete_eq|by rewrite lookup_delete_ne].
  - done.
  - destruct (climb_latest _ _ Ht) as [Hlast Hall]. destruct Ha as [Hnd Hv]. split; [done|]. split; [by apply nodup_filter|]. intros t k' Hle.
    rewrite view_sweep; [apply Hv; lia|done|]. eapply Forall_impl; [exact Hall|]. intros x Hx. cbn beta in Hx. lia.
Qed.

(** The channel is closed exactly when [closeOnce] is done. *)
Definition tidy (j : janitor) : Prop := match janitorStop j with Some b => b = closeOnce j | None => True end.
Lemma Close_tidy j : tidy j -> exists j', Close j = Some j' /\ tidy j' /\ Close j' = Some j'.
Proof. destruct j as [[[]|] []]; cbn; try done; intros _; by eexists. Qed.

Lemma runs_agree hs : forall x rs z T m, runs x hs rs z -> wf (the_cache x) -> maxSize (the_cache x) <= 0 -> agrees T (abs (the_cache x)) m ->
  tidy (the_janitor x) -> forward T hs -> map but_len rs = m_run (defaultTTL (the_cache x)) (uses hs) m /\ tidy (the_janitor z).
Proof.
  induction hs as [|h hs IH]; intros x rs z T m Hr Hwf Hmax Ha Htidy Hfwd.
  { by inversion Hr; subst. }
  assert (Hop : forall o c, wf c -> maxSize c <= 0 -> agrees T (abs c) m -> climb T (op_clocks o) ->
    but_len (Cache.step o c).1 = (m_step (defaultTTL c) o m).1 /\ wf (Cache.step o c).2 /\ maxSize (Cache.step o c).2 <= 0 /\
    agrees (latest T (op_clocks o)) (abs (Cache.step o c).2) (m_step (defaultTTL c) o m).2 /\ defaultTTL (Cache.step o c).2 = defaultTTL c).
  { intros o c Hc Hm Hag Hclk. destruct (step_sim o c Hc) as [Hc' Hs]. injection (step_cfg o c) as H1 H2.
    pose proof (agrees_step (maxSize c) (defaultTTL c) T o (abs c) m Hm Hag Hclk) as [H3 H4]. rewrite Hs in H3, H4. split_and!; try done. lia. }
  inversion Hr as [|x' h' r y hs' rs' z' Hstep Hrest]; subst. inversion Hstep; subst; cbn [the_cache the_janitor] in *.
  - destruct Hfwd as [Hcl Hfwd']. destruct (Hop o c Hwf Hmax Ha Hcl) as (H1 & H2 & H3 & H4 & H5).
    destruct (IH _ _ _ _ _ Hrest H2 H3 H4 Htidy Hfwd') as [Hrs Hz]. split; [|done]. cbn [the_cache] in Hrs. rewrite H5 in Hrs.
    unfold uses. csimpl. fold (uses hs). cbn [map m_run]. destruct (m_step _ o m) as [r m']. cbn [fst snd] in *. by rewrite H1, Hrs.
  - destruct Hfwd as [Hcl Hfwd]. destruct (Hop (OSweep order) c Hwf Hmax Ha Hcl) as (_ & H2 & H3 & H4 & H5).
    destruct (IH _ _ _ _ _ Hrest H2 H3 H4 Htidy Hfwd) as [Hrs Hz]. split; [|done]. cbn [the_cache Cache.step snd] in Hrs, H5. by rewrite H5 in Hrs.
  - destruct Hfwd as [_ Hfwd]. by apply (IH _ _ _ T m Hrest).
  - destruct Hfwd as [_ Hfwd]. apply (IH _ _ _ T m Hrest); try done. cbn [the_janitor]. destruct (Close_tidy j Htidy) as (j2 & Hj & Ht & _). congruence.
Qed.

(** (C7) The janitor is invisible. On a cache without a size bound, however the turns of the janitor, its end and calls of
    [Close] fall between the uses of the cache, on clocks that do not go back, every use answers as a map of
    values with an end does that knows of no janitor, lengths apart. [Close] never panics, as often as it is called. *)
Theorem janitor_invisible (opts : list (config -> config)) (T : Z) (hs : list happening) (rs : list output) (z : state) :
  maxSize (New (V := V) opts) <= 0 -> runs (start opts) hs rs z -> forward T hs ->
  map but_len rs = m_run (defaultTTL (New (V := V) opts)) (uses hs) ∅ /\ exists j, Close (the_janitor z) = Some j /\ Close j = Some j.
Proof.
  intros Hmax Hr Hfwd. destruct (wf_New (V := V) opts) as [Hwf Habs].
  destruct (runs_agree hs _ rs z T ∅ Hr Hwf Hmax) as [Hrs Hz]; [|by unfold start, started; cbn; destruct (0 <? _)|done|].
  - cbn [the_cache start]. rewrite Habs. split; [by apply NoDup_nil_2|]. intros t k _. unfold m_lookup. by rewrite lookup_empty.
  - split; [done|]. destruct (Close_tidy _ Hz) as (j & H1 & _ & H2). by exists j.
Qed.
End Runs.

(** ** A cache whose janitor runs twice and is closed twice *)

Lemma use_step {V : Type} (c : cache (V := V)) j b o r : (Cache.step o c).1 = r -> step (State c j b) (HUse o) (Some r) (State (Cache.step o c).2 j b).
Proof. intros <-. apply step_use. Qed.

Definition an_hour_long : list (happening (V := Z)) :=
  [HUse (OSet 1 "k" 7); HTick [(5, "k"%string)]; HUse (OGet 9 "k"); HClose; HTick [(12, "k"%string)]; HUse (OGet 13 "k"); HClose; HStop].

Lemma janitor_invisible_witness : exists rs z, runs (start [WithDefaultTTL 10; WithJanitor 5]) an_hour_long rs z /\ rs = [RUnit; RVal (Some 7); RVal None].
Proof.
  assert (Hr : exists z, runs (V := Z) (start [WithDefaultTTL 10; WithJanitor 5]) an_hour_long [RUnit; RVal (Some 7); RVal None] z).
  { eexists. unfold an_hour_long. eapply (runs_cons _ _ (Some _)); [apply use_step; reflexivity|]. eapply (runs_cons _ _ None); [apply step_tick|]. eapply (runs_cons _ _ (Some _)); [apply use_step; reflexivity|].
    eapply (runs_cons _ _ None); [apply step_close; reflexivity|]. eapply (runs_cons _ _ None); [apply step_tick|]. eapply (runs_cons _ _ (Some _)); [apply use_step; reflexivity|].
    eapply (runs_cons _ _ None); [apply step_close; reflexivity|]. eapply (runs_cons _ _ None); [apply step_stop; reflexivity|]. apply runs_nil. }
  destruct Hr as [z Hr]. exists [RUnit; RVal (Some 7); RVal None], z. split; [exact Hr|].
  destruct (janitor_invisible [WithDefaultTTL 10; WithJanitor 5] 0 an_hour_long _ z ltac:(vm_compute; discriminate) Hr) as [Hrs _].
  - cbn. repeat split; discriminate.
  - cbn [map but_len] in Hrs. rewrite Hrs. vm_compute. reflexivity.
Defined.

(** With a bound the janitor shows: an expired entry that it removes is not counted when the next one is set, so that a live
    one stays which would have been evicted. *)
Example janitor_saves_an_entry :
  let before := [OSetTTL 1 "old" 1 10; OSetTTL 2 "live" 2 0; OGet 3 "old"]%string in
  let after := [OSetTTL 21 "new" 3 0; OGet 22 "live"]%string in
  ((run (before ++ after) (New [WithMaxSize 2])).1 !! 4%nat, (run (before ++ [OSweep [(20, "old"%string)]] ++ after) (New [WithMaxSize 2])).1 !! 5%nat)
    = (Some (RVal None), Some (RVal (Some 2))).
Proof. vm_compute. reflexivity. Qed.
