(* ===== verification/Delivery.v ===== *)
(** * From the outbox to the inbox (outbox/relay.go, inbox/inbox.go)

    The two packages at the two ends of a broker. The relay publishes at least once; the consumer
    applies each message at most once; a broker that redelivers what was not acknowledged joins
    them. What a message is identified by is the application's choice ([idOf]). *)

From S2P Require Import Prelude RedisServer Lock Outbox Inbox OutboxRun.
Open Scope Z_scope.

Definition msg : Type := string * string.

Section Delivery.
  Context {D P S : Type} `{HD : OutboxDB D, HL : !OutboxLaws D} `{HP : Publisher P} `{HS : RedisServer S}.
  Context {E A : Type} `{HT : TxDB E A, HTL : !TxLaws E A}.
  Context (idOf : msg -> string) (handler : msg -> A -> option error * A).

(** A consumer's handling of one delivery: the message's handler, once. *)
Definition receive (f : fate) (m : msg) (d : E) : option error * E := Once f (idOf m) (update (handler m)) d.
Fixpoint receive_all (ds : list (fate * msg)) (d : E) : list (option error) * E :=
  match ds with
  | [] => ([], d)
  | (f, m) :: ds => let '(r, d1) := receive f m d in let '(rs, d2) := receive_all ds d1 in (r :: rs, d2)
  end.

(** The handlers of messages in order, each successful. *)
Fixpoint applied (ms : list msg) (a b : A) : Prop :=
  match ms with [] => b = a | m :: ms => (handler m a).1 = None /\ applied ms (handler m a).2 b end.

(** The message of an identifier, among those of the outbox. *)
Definition by_id (ms : list msg) (id : string) : option msg := head (filter (fun m => idOf m = id) ms).
Definition handler_of (ms : list msg) (id : string) : A -> option error * A :=
  match by_id ms id with Some m => handler m | None => fun a => (None, a) end.

Lemma by_id_found (ms : list msg) (m : msg) : NoDup (map idOf ms) -> m ∈ ms -> by_id ms (idOf m) = Some m.
Proof.
  unfold by_id. induction ms as [|m1 ms IH]; intros Hnd Hm; [by apply elem_of_nil in Hm|]. cbn [map] in Hnd. apply NoDup_cons in Hnd as [Hni Hnd].
  rewrite filter_cons. apply elem_of_cons in Hm as [->|Hm]; [by rewrite decide_True|]. rewrite decide_False; [by apply IH|].
  intros Heq. apply Hni. rewrite Heq. apply list_elem_of_fmap. by exists m.
Qed.

Lemma receive_all_consume (ms : list msg) (ds : list (fate * msg)) (d : E) : NoDup (map idOf ms) -> (forall f m, (f, m) ∈ ds -> m ∈ ms) ->
  receive_all ds d = consume (handler_of ms) (map (fun fm => (fm.1, idOf fm.2)) ds) d.
Proof.
  intros Hnd. revert d. induction ds as [|[f m] ds IH]; intros d Hds; [done|]. cbn [receive_all map consume fst snd].
  assert (Hm : handler_of ms (idOf m) = handler m) by (unfold handler_of; rewrite (by_id_found ms m); [done|done|apply (Hds f m); set_solver]).
  unfold deliver, receive. rewrite Hm.
  destruct (Once f (idOf m) _ d) as [r d1]. rewrite IH; [done|]. intros f' m' Hin. apply (Hds f'). set_solver.
Qed.

Lemma applied_handled (ms all : list msg) (a b : A) : NoDup (map idOf all) -> ms ⊆ all ->
  handled (handler_of all) (map idOf ms) a b <-> applied ms a b.
Proof.
  intros Hnd. revert a. induction ms as [|m ms IH]; intros a Hsub; [done|]. cbn [map handled applied].
  assert (Hm : handler_of all (idOf m) = handler m) by (unfold handler_of; rewrite (by_id_found all m); [done|done|set_solver]).
  rewrite Hm. rewrite IH; [done|]. set_solver.
Qed.

(** Identifiers of a list of messages come from those messages. *)
Lemma ids_from (ids : list string) (ms : list msg) : (forall id, id ∈ ids -> id ∈ map idOf ms) -> exists ms', map idOf ms' = ids /\ ms' ⊆ ms.
Proof.
  induction ids as [|id ids IH]; intros Hin; [exists []; split; [done|apply list_subseteq_nil]|].
  destruct IH as (ms' & Heq & Hsub); [intros x Hx; apply Hin; by right|].
  destruct (proj1 (list_elem_of_fmap idOf ms id) (Hin id ltac:(by left))) as (m & -> & Hm). exists (m :: ms'). cbn [map]. rewrite Heq.
  split; [done|]. intros x [->|Hx]%elem_of_cons; [done|by apply Hsub].
Qed.

(** (C11) Exactly once, end to end. Let a relay without a distributed lock run however its calls fail, with as many successful ticks
    as its outbox needs, and let a broker give the consumer only messages the publisher carried, in
    any order and any number of times, and each of them until its handling returns nil, however
    the consumer's calls and handlers fail in between. Then the consumer's data are the initial
    ones with the handler of every event that was pending applied exactly once, successfully, in
    some order. Messages of different events have different identifiers
    (of two events with one identifier the inbox would apply one). *)
Theorem end_to_end_exactly_once (r : Relay) (ctx_err : error) (ticks : list tick) (s : S) (d : D) (p : P) (ds : list (fate * msg)) (e : E) :
  lock_opt r = None -> NoDup (map idOf (map message (pending d))) -> carried p = [] -> marks e = ∅ ->
  let '(_, logged, (_, (d', p'))) := Run r ctx_err ticks (s, (d, p)) in
  let '(rs, e') := receive_all ds e in
  (length (pending d) <= (length ticks - length logged) * Z.to_nat (batchSize r))%nat ->
  (forall f m, (f, m) ∈ ds -> m ∈ carried p') ->
  (forall m, m ∈ carried p' -> exists i f, ds !! i = Some (f, m) /\ rs !! i = Some None) ->
  pending d' = [] /\ exists ms, ms ≡ₚ map message (pending d) /\ applied ms (data e) (data e').
Proof.
  intros Hlock Hnd Hp He. pose proof (Run_spec r ctx_err ticks s d p Hlock) as Hrun.
  destruct (Run r ctx_err ticks (s, (d, p))) as [[err logged] [s' [d' p']]]. destruct Hrun as (_ & k & out & Hd & Hc & Hsub & Hin & Hk & _).
  rewrite Hp in Hc. cbn [app] in Hc. destruct (receive_all ds e) as [rs e'] eqn:Hrecv. intros Henough Honly Hacked.
  assert (Hall : (length (pending d) <= k)%nat) by lia. rewrite take_ge in Hsub by done.
  split; [rewrite Hd; by apply drop_ge|]. set (all := map message (pending d)) in *.
  rewrite (receive_all_consume all) in Hrecv; [|done|intros f m Hm; apply Hin; rewrite <- Hc; by eapply Honly].
  pose proof (consume_spec (handler_of all) (map (fun fm => (fm.1, idOf fm.2)) ds) e He) as Hcons. rewrite Hrecv in Hcons.
  destruct Hcons as (ids & Hids & _ & Hh & Hfrom & Hdone).
  assert (Hall_ids : forall id, id ∈ ids <-> id ∈ map idOf all).
  { intros id. split.
    - intros Hid. apply Hfrom in Hid. rewrite map_map in Hid. apply list_elem_of_fmap in Hid as ([f m] & -> & Hm). cbn [snd].
      apply list_elem_of_fmap. exists m. split; [done|]. apply Hin. rewrite <- Hc. by eapply Honly.
    - intros Hid. apply list_elem_of_fmap in Hid as (m & -> & Hm). destruct (Hacked m) as (i & f & Hi & Hr).
      { rewrite Hc. apply (elem_of_submseteq all); [done|]. by apply sublist_submseteq. }
      apply (Hdone i f (idOf m)); [|exact Hr]. apply list_lookup_fmap_Some. exists (f, m). split; [done|exact Hi]. }
  destruct (ids_from ids all) as (ms & Hms & Hmsub); [intros id Hid; by apply Hall_ids|].
  exists ms. split; [|apply (applied_handled ms all); [done|done|by rewrite Hms]].
  apply NoDup_Permutation; [rewrite <- Hms in Hids; by apply (NoDup_fmap_1 idOf)|by apply (NoDup_fmap_1 idOf)|].
  intros m. split; [apply Hmsub|]. intros Hm. assert (Hid : idOf m ∈ map idOf ms) by (rewrite Hms; apply Hall_ids, list_elem_of_fmap; by exists m).
  apply list_elem_of_fmap in Hid as (m' & Heq & Hm'). pose proof (Hmsub m' Hm') as Hin'.
  pose proof (by_id_found all m Hnd Hm) as H1. pose proof (by_id_found all m' Hnd Hin') as H2. rewrite Heq in H1. assert (m = m') as -> by congruence. exact Hm'.
Qed.
End Delivery.

(** ** Two events, lost calls on both sides, and a broker that repeats itself *)

Import Mem MemOutbox MemInbox.

Definition by_payload (m : msg) : string := m.2.
Definition note (m : msg) (l : list string) : option error * list string := (None, l ++ [m.2]).
Definition delivered : list (fate * msg) :=
  [(Fate NetOk NetOk None 1, ("b", "2")); (Fate (LostReply (Err "eof")) NetOk None 2, ("a", "1"));
   (Fate NetOk (LostRequest (Err "eof")) None 3, ("a", "1")); (Fate NetOk NetOk None 4, ("a", "1")); (Fate NetOk NetOk None 5, ("b", "2"))]%string.

Lemma end_to_end_exactly_once_witness :
  data (receive_all by_payload note delivered (Db ∅ [])).2 = ["2"; "1"]%string /\
  exists ms, ms ≡ₚ [("a", "1"); ("b", "2")]%string /\ applied note ms [] ["2"; "1"]%string.
Proof.
  assert (Hdata : data (receive_all by_payload note delivered (Db ∅ [])).2 = ["2"; "1"]%string) by (vm_compute; reflexivity).
  split; [exact Hdata|].
  pose proof (end_to_end_exactly_once by_payload note one_at_a_time (Err "context canceled") sample_ticks (∅ : Mem.store) two
    ([] : list (string * string)) delivered (Db ∅ []) eq_refl) as Hw.
  assert (Hl : length (Run one_at_a_time (Err "context canceled") sample_ticks ((∅ : Mem.store), (two, ([] : list (string * string))))).1.2 = 2%nat) by (vm_compute; reflexivity).
  assert (Hc : carried (Run one_at_a_time (Err "context canceled") sample_ticks ((∅ : Mem.store), (two, ([] : list (string * string))))).2.2.2
    = [("a", "1"); ("b", "2"); ("b", "2")]%string) by (vm_compute; reflexivity).
  assert (Hr : (receive_all by_payload note delivered (Db ∅ [])).1 = [None; Some (Err "eof"); Some (Wrap "inbox: mark message: " [Err "eof"]); None; None])
    by (vm_compute; reflexivity).
  specialize (Hw ltac:(vm_compute; repeat (constructor; [set_solver|]); constructor) eq_refl eq_refl).
  revert Hw Hl Hc Hr Hdata. destruct (Run one_at_a_time _ sample_ticks _) as [[e0 logged] [s' [d' p']]].
  destruct (receive_all by_payload note delivered _) as [rs e']. cbn [fst snd]. intros Hw Hl Hc -> Hdata. rewrite Hl, Hc, Hdata in Hw.
  destruct Hw as (_ & ms & Hms & Happ).
  - vm_compute. lia.
  - intros f m Hin. unfold delivered in Hin. set_solver.
  - intros m Hm. assert (Hor : m = ("a", "1")%string \/ m = ("b", "2")%string) by set_solver. destruct Hor as [-> | ->].
    + exists 3%nat. eexists. split; reflexivity.
    + exists 0%nat. eexists. split; reflexivity.
  - exists ms. split; [exact Hms|exact Happ].
Defined.
