(* ===== verification/Observability.v ===== *)
(** * Logs, traces and request contexts (logger/, tracing/, middleware/, context/ctx.go)

    The wrappers around zerolog and OpenTelemetry, as the calls they make to those libraries, which
    are interfaces with what their documentation says of them; and the context of a request: its
    deadline, the identifier in it, and the fields of the request's log line. *)

From S2P Require Import Prelude GoStrings Fiber.
Open Scope Z_scope.

(** ** logger/logger.go *)

(** zerolog's levels and their order. *)
Inductive Level := TraceLevel | DebugLevel | InfoLevel | WarnLevel | ErrorLevel | FatalLevel | PanicLevel.
Definition level_value (l : Level) : Z :=
  match l with
  | TraceLevel => -1 | DebugLevel => 0 | InfoLevel => 1 | WarnLevel => 2 | ErrorLevel => 3 | FatalLevel => 4 | PanicLevel => 5
  end.

(** A line: the level, whether it has the time, the error, the fields in order and the message. *)
Record line := Line { l_level : Level; l_time : bool; l_err : option error; l_fields : list any; l_msg : string }.

(** Loggers [L], events being built [E], and what has been written to outputs [O]. *)
Class Zerolog (L E O : Type) := {
  z_New : nat -> L;                            (* zerolog.New(w), a writer by its number *)
  z_Timestamp : L -> L;                        (* With().Timestamp().Logger() *)
  z_Level : Level -> L -> L;
  z_event : Level -> L -> E;                   (* Debug(), Info(), ... *)
  z_Err : error -> E -> E;
  z_Fields : list any -> E -> E;
  z_Msg : string -> E -> O -> bool * O;        (* does the process exit, and what is written *)
  (** what a logger and an event are, and what each writer has got *)
  l_writer : L -> nat; l_min : L -> Level; l_stamps : L -> bool;
  e_writer : E -> nat; e_enabled : E -> bool; e_line : E -> line;
  written : O -> nat -> list line }.

Definition set_err (err : error) (l : line) : line := Line (l_level l) (l_time l) (Some err) (l_fields l) (l_msg l).
Definition add_fields (fs : list any) (l : line) : line := Line (l_level l) (l_time l) (l_err l) (l_fields l ++ fs) (l_msg l).
Definition set_msg (m : string) (l : line) : line := Line (l_level l) (l_time l) (l_err l) (l_fields l) m.

Class ZerologLaws (L E O : Type) `{Zerolog L E O} := {
  new_law w : l_writer (z_New w) = w /\ l_min (z_New w) = TraceLevel /\ l_stamps (z_New w) = false;
  timestamp_law l : l_writer (z_Timestamp l) = l_writer l /\ l_min (z_Timestamp l) = l_min l /\ l_stamps (z_Timestamp l) = true;
  level_law lv l : l_writer (z_Level lv l) = l_writer l /\ l_min (z_Level lv l) = lv /\ l_stamps (z_Level lv l) = l_stamps l;
  event_law lv l : e_writer (z_event lv l) = l_writer l /\ e_enabled (z_event lv l) = (level_value (l_min l) <=? level_value lv) /\
    e_line (z_event lv l) = Line lv (l_stamps l) None [] "";
  err_law err e : e_writer (z_Err err e) = e_writer e /\ e_enabled (z_Err err e) = e_enabled e /\ e_line (z_Err err e) = set_err err (e_line e);
  fields_law fs e : e_writer (z_Fields fs e) = e_writer e /\ e_enabled (z_Fields fs e) = e_enabled e /\ e_line (z_Fields fs e) = add_fields fs (e_line e);
  (** an event below the logger's level writes nothing; one at FatalLevel ends the process even then *)
  msg_law m e o : let '(exits, o') := z_Msg m e o in
    (exits = match l_level (e_line e) with FatalLevel => true | _ => false end) /\
    forall w, written o' w = written o w ++ (if e_enabled e && Nat.eqb w (e_writer e) then [set_msg m (e_line e)] else []) }.

Section Logger.
  Context {L E O : Type} `{Zerolog L E O}.

Record Logger := MkLogger { logger : L }.

Definition New (out : nat) (level : Level) : Logger := MkLogger (z_Level level (z_Timestamp (z_New out))).
(** Writer 0 is standard output. *)
Definition Default : Logger := New 0 InfoLevel.

Definition Debug_ (l : Logger) (msg : string) (data : list any) : O -> bool * O := z_Msg msg (z_Fields data (z_event DebugLevel (logger l))).
Definition Info_ (l : Logger) (msg : string) (data : list any) : O -> bool * O := z_Msg msg (z_Fields data (z_event InfoLevel (logger l))).
Definition Warning_ (l : Logger) (msg : string) (data : list any) : O -> bool * O := z_Msg msg (z_Fields data (z_event WarnLevel (logger l))).
Definition Error_ (l : Logger) (err : error) (msg : string) (data : list any) : O -> bool * O :=
  z_Msg msg (z_Fields data (z_Err err (z_event ErrorLevel (logger l)))).
Definition Fatal_ (l : Logger) (err : error) (msg : string) (data : list any) : O -> bool * O :=
  z_Msg msg (z_Fields data (z_Err err (z_event FatalLevel (logger l)))).

(** ** What a logger writes *)

Inductive call := CDebug | CInfo | CWarning | CError (err : error) | CFatal (err : error).
Definition invoke (c : call) (l : Logger) (msg : string) (data : list any) : O -> bool * O :=
  match c with
  | CDebug => Debug_ l msg data | CInfo => Info_ l msg data | CWarning => Warning_ l msg data
  | CError err => Error_ l err msg data | CFatal err => Fatal_ l err msg data
  end.
Definition level_of (c : call) : Level :=
  match c with CDebug => DebugLevel | CInfo => InfoLevel | CWarning => WarnLevel | CError _ => ErrorLevel | CFatal _ => FatalLevel end.
Definition err_of (c : call) : option error := match c with CError err | CFatal err => Some err | _ => None end.

(** Each method writes one stamped line with its level, error, fields and message to the logger's writer, unless its
    level is below the logger's; only [Fatal] ends the process, and it does so at every level of the logger. *)
Theorem Logger_writes `{!ZerologLaws L E O} (out : nat) (level : Level) (c : call) (msg : string) (data : list any) (o : O) :
  let '(exits, o') := invoke c (New out level) msg data o in
  (exits = true <-> exists err, c = CFatal err) /\
  (forall w, written o' w = written o w ++
     if (level_value level <=? level_value (level_of c)) && Nat.eqb w out then [Line (level_of c) true (err_of c) data msg] else []).
Proof.
  destruct (new_law (L := L) (E := E) (O := O) out) as (Hn1 & Hn2 & Hn3). destruct (timestamp_law (L := L) (E := E) (O := O) (z_New out)) as (Ht1 & _ & Ht3).
  destruct (level_law (L := L) (E := E) (O := O) level (z_Timestamp (z_New out))) as (Hl1 & Hl2 & Hl3).
  set (lg := z_Level level (z_Timestamp (z_New out))) in *.
  destruct (event_law (L := L) (E := E) (O := O) (level_of c) lg) as (He1 & He2 & He3). rewrite Hl1, Ht1, Hn1 in He1. rewrite Hl2 in He2. rewrite Hl3, Ht3 in He3.
  assert (Hmsg : forall err ev, e_writer ev = out -> e_enabled ev = (level_value level <=? level_value (level_of c)) ->
    e_line ev = Line (level_of c) true err [] "" -> err = err_of c ->
    let '(exits, o') := z_Msg msg (z_Fields data ev) o in
    (exits = true <-> exists err, c = CFatal err) /\
    (forall w, written o' w = written o w ++
       if (level_value level <=? level_value (level_of c)) && Nat.eqb w out then [Line (level_of c) true (err_of c) data msg] else [])).
  { intros err ev Hw Hen Hline ->. destruct (fields_law (L := L) (E := E) (O := O) data ev) as (Hf1 & Hf2 & Hf3).
    pose proof (msg_law (L := L) (E := E) (O := O) msg (z_Fields data ev) o) as Hm. destruct (z_Msg msg _ o) as [exits o'].
    rewrite Hf1, Hf2, Hf3, Hw, Hen, Hline in Hm. cbn [add_fields set_msg l_level l_time l_err l_fields l_msg app] in Hm. destruct Hm as [-> Hm].
    split; [|exact Hm]. destruct c; cbn [level_of]; naive_solver. }
  assert (Herr : forall err, err_of c = Some err -> let ev := z_Err err (z_event (level_of c) lg) in
    e_writer ev = out /\ e_enabled ev = (level_value level <=? level_value (level_of c)) /\ e_line ev = Line (level_of c) true (Some err) [] "").
  { intros err _ ev. destruct (err_law (L := L) (E := E) (O := O) err (z_event (level_of c) lg)) as (H1 & H2 & H3).
    unfold ev. by rewrite H1, H2, H3, He1, He2, He3. }
  destruct c as [| | |err|err]; try (by eapply Hmsg);
    destruct (Herr err eq_refl) as (H1 & H2 & H3); by eapply Hmsg.
Qed.
End Logger.

(** zerolog as documented, to run on. *)
Module Zero.
Record zlogger := ZLogger { zw : nat; zmin : Level; zstamps : bool }.
Record zevent := ZEvent { ev_writer : nat; ev_on : bool; ev_line : line }.
Definition output : Type := list (nat * line).

#[export] Instance zero : Zerolog zlogger zevent output := {
  z_New w := ZLogger w TraceLevel false;
  z_Timestamp l := ZLogger (zw l) (zmin l) true;
  z_Level lv l := ZLogger (zw l) lv (zstamps l);
  z_event lv l := ZEvent (zw l) (level_value (zmin l) <=? level_value lv) (Line lv (zstamps l) None [] "");
  z_Err err e := ZEvent (ev_writer e) (ev_on e) (set_err err (ev_line e));
  z_Fields fs e := ZEvent (ev_writer e) (ev_on e) (add_fields fs (ev_line e));
  z_Msg m e o := (match l_level (ev_line e) with FatalLevel => true | _ => false end,
                  if ev_on e then o ++ [(ev_writer e, set_msg m (ev_line e))] else o);
  l_writer := zw; l_min := zmin; l_stamps := zstamps; e_writer := ev_writer; e_enabled := ev_on; e_line := ev_line;
  written o w := omap (fun wl => if Nat.eqb w wl.1 then Some wl.2 else None) o }.

#[export] Instance zero_laws : ZerologLaws zlogger zevent output.
Proof.
  split; cbn; try done. intros m e o. split; [done|]. intros w. destruct (ev_on e); [|by rewrite app_nil_r].
  rewrite omap_app. csimpl. by destruct (Nat.eqb w (ev_writer e)).
Qed.
End Zero.
Import (hints) Zero.

(** ** A request's context: middleware/context.go, context/ctx.go *)

(** A span context of OpenTelemetry, and Go's [context.Context] as far as it is used: a deadline, values by key. *)
Record SpanContext := MkSpan { IsValid : bool; TraceID : string; SpanID : string }.
Record gctx := GCtx { deadline : option Z; value : gmap string string; span : SpanContext }.
Definition Background : gctx := GCtx None ∅ (MkSpan false "" "").

(** [context.WithTimeout] keeps an earlier deadline of the parent. *)
Definition WithTimeout (now timeout : Z) (p : gctx) : gctx :=
  let d := now + timeout in
  GCtx (Some (match deadline p with Some d' => if d' <? d then d' else d | None => d end)) (value p) (span p).
Definition WithValue (k v : string) (p : gctx) : gctx := GCtx (deadline p) (<[k := v]> (value p)) (span p).

(** The locals of a request, [c.Context()] and [c.UserContext()] of it, and its response headers. *)
Inductive local := LText (s : string) | LContext (g : gctx) | LOther.
Record fctx := FCtx { locals : gmap string local; c_Context : gctx; UserContext : gctx; headers : list (string * string) }.
Definition Locals_set (k : string) (v : local) (c : fctx) : fctx := FCtx (<[k := v]> (locals c)) (c_Context c) (UserContext c) (headers c).

Definition GetContext (c : fctx) : gctx := match locals c !! "ctx"%string with Some (LContext g) => g | _ => Background end.
Definition GetRequestID (c : fctx) : string := match locals c !! "requestid"%string with Some (LText s) => s | _ => ""%string end.

(** What [ContextMiddleware] hands to the rest of the chain. *)
Definition attach (now timeout : Z) (fresh : string) (c : fctx) : fctx :=
  let ctx := WithTimeout now timeout (c_Context c) in
  let requestID := match locals c !! "requestid"%string with Some (LText s) => s | _ => ""%string end in
  let '(requestID, c) := if String.eqb requestID "" then (fresh, Locals_set "requestid" (LText fresh) c) else (requestID, c) in
  let c := Locals_set "ctx" (LContext (WithValue "request_id" requestID ctx)) c in
  FCtx (locals c) (c_Context c) (UserContext c) (("X-Request-ID"%string, requestID) :: headers c).

(** The context of a request ends no later than its timeout and carries the same identifier as the locals and the
    response, the client's own when an earlier handler has set one; the rest of what the request had is untouched. *)
Lemma attach_spec now timeout fresh c (c' := attach now timeout fresh c) :
  (exists d, deadline (GetContext c') = Some d /\ d <= now + timeout) /\
  GetRequestID c' = (if String.eqb (GetRequestID c) "" then fresh else GetRequestID c) /\
  value (GetContext c') !! "request_id"%string = Some (GetRequestID c') /\
  head (headers c') = Some ("X-Request-ID"%string, GetRequestID c') /\
  span (GetContext c') = span (c_Context c) /\
  (forall k, k <> "ctx"%string -> k <> "requestid"%string -> locals c' !! k = locals c !! k).
Proof.
  subst c'. unfold attach, GetContext. fold (GetRequestID c).
  assert (Hd : exists d, deadline (WithTimeout now timeout (c_Context c)) = Some d /\ d <= now + timeout).
  { unfold WithTimeout. cbn [deadline]. eexists. split; [reflexivity|]. destruct (deadline (c_Context c)) as [d|]; [|lia]. destruct (Z.ltb_spec d (now + timeout)); lia. }
  destruct (String.eqb_spec (GetRequestID c) "") as [He|Hne].
  - cbn [locals Locals_set headers head]. rewrite lookup_insert_eq. cbn [WithValue deadline value span].
    assert (Hid : forall a b h, GetRequestID (FCtx (<["ctx"%string:=LContext a]> (<["requestid"%string:=LText fresh]> (locals c))) b (UserContext c) h) = fresh).
    { intros a b h. unfold GetRequestID. cbn [locals]. by rewrite lookup_insert_ne, lookup_insert_eq. }
    rewrite Hid, lookup_insert_eq. split_and!; try done. intros k H1 H2. by rewrite !lookup_insert_ne.
  - cbn [locals Locals_set headers head]. rewrite lookup_insert_eq. cbn [WithValue deadline value span].
    assert (Hid : forall a b h, GetRequestID (FCtx (<["ctx"%string:=LContext a]> (locals c)) b (UserContext c) h) = GetRequestID c).
    { intros a b h. unfold GetRequestID. cbn [locals]. by rewrite lookup_insert_ne. }
    rewrite Hid, lookup_insert_eq. split_and!; try done. intros k H1 H2. by rewrite lookup_insert_ne.
Qed.

(** ** middleware/request_logger.go: the fields of a request's line *)

(** [Duration.String]: the digits of a fraction without trailing zeros, and what is left of the integer. *)
Fixpoint fmtFrac (prec : nat) (v : Z) (print : bool) (acc : string) : string * Z :=
  match prec with
  | O => (if print then "." +:+ acc else acc, v)
  | S p => let d := v mod 10 in
           let print := print || negb (d =? 0) in
           fmtFrac p (v / 10) print (if print then itoa d +:+ acc else acc)
  end.
Definition unsigned_String (u : Z) : string :=
  if u <? 1000 then itoa u +:+ "ns"
  else if u <? 1000000 then let '(f, v) := fmtFrac 3 u false "" in itoa v +:+ (f +:+ "µs")
  else if u <? Second then let '(f, v) := fmtFrac 6 u false "" in itoa v +:+ (f +:+ "ms")
  else let '(f, v) := fmtFrac 9 u false "" in
       let secs := itoa (v mod 60) +:+ (f +:+ "s") in
       let m := v / 60 in
       if m =? 0 then secs
       else let mins := itoa (m mod 60) +:+ ("m" +:+ secs) in
            let h := m / 60 in if h =? 0 then mins else itoa h +:+ ("h" +:+ mins).
Definition Duration_String (d : Z) : string :=
  if d =? 0 then "0s" else if d <? 0 then "-" +:+ unsigned_String (- d) else unsigned_String d.

Example duration_texts : map Duration_String [0; 1; 1100; -2200000; 3300000000; 245000000000; 245001000000; 18367001000000; 480000000001; int_min]
  = ["0s"; "1ns"; "1.1µs"; "-2.2ms"; "3.3s"; "4m5s"; "4m5.001s"; "5h6m7.001s"; "8m0.000000001s"; "-2562047h47m16.854775808s"]%string.
Proof. vm_compute. reflexivity. Qed.

Definition request_fields (method path : string) (status start stop : Z) (c : fctx) : list any :=
  [AStr "method"; AStr method; AStr "path"; AStr path; AStr "status"; AInt status; AStr "latency"; AStr (Duration_String (stop - start));
   AStr "request_id"; AStr (GetRequestID c)] ++
  if IsValid (span (UserContext c)) then [AStr "trace_id"; AStr (TraceID (span (UserContext c))); AStr "span_id"; AStr (SpanID (span (UserContext c)))] else [].

(** ** tracing/tracing.go *)

(** What [resource.New] is asked for, and the propagators installed. *)
Inductive detector := WithAttributes (kvs : list (string * string)) | WithFromEnv | WithTelemetrySDK.
Inductive propagator := TraceContext | Baggage.

(** OpenTelemetry: exporters, resources, samplers and providers; [attribute] reads one of a resource. *)
Class Otel (X R A P : Type) := {
  always : A; ParentBased : A -> A;
  exporter : gmap string string -> error + X;        (* otlptracehttp.New, configured by the environment *)
  resource_New : gmap string string -> list detector -> error + R;   (* given what the environment says *)
  attribute : R -> string -> option string;
  NewTracerProvider : X -> R -> A -> P;
  provider_parts : P -> X * R * A;
  Shutdown : P -> option error }.

Class OtelLaws (X R A P : Type) `{Otel X R A P} := {
  (** the detectors' attributes are merged, a later one's winning; those of the SDK are named telemetry.* *)
  resource_law env kvs r k : resource_New env [WithAttributes kvs; WithFromEnv; WithTelemetrySDK] = inr r ->
    String.prefix "telemetry." k = false ->
    attribute r k = match env !! k with Some v => Some v | None => (list_to_map kvs : gmap string string) !! k end;
  provider_law x r a : provider_parts (NewTracerProvider x r a) = (x, r, a) }.

Section Tracing.
  Context {X R A P : Type} `{Otel X R A P}.

Record config := MkConfig { serviceName : string; sampler : A }.
Definition WithServiceName (name : string) (c : config) : config := MkConfig name (sampler c).
Definition WithSampler (s : A) (c : config) : config := MkConfig (serviceName c) s.

(** otel's globals. *)
Record globals := Globals { g_provider : option P; g_propagators : list propagator }.

(** [env] is the settings of the environment, among them the resource attributes the environment gives (OTEL_SERVICE_NAME, OTEL_RESOURCE_ATTRIBUTES). *)
Definition Setup (env : gmap string string) (opts : list (config -> config)) (g : globals) : (error + (unit -> option error)) * globals :=
  let cfg := fold_left (fun c o => o c) opts (MkConfig "fiber-app" (ParentBased always)) in
  match exporter env with
  | inl err => (inl err, g)
  | inr exp =>
      match resource_New env [WithAttributes [("service.name"%string, serviceName cfg)]; WithFromEnv; WithTelemetrySDK] with
      | inl err => (inl err, g)
      | inr res =>
          let tp := NewTracerProvider exp res (sampler cfg) in
          (inr (fun _ => Shutdown tp), Globals (Some tp) [TraceContext; Baggage])
      end
  end.

Definition LogFields (c : gctx) : string * string * bool :=
  if negb (IsValid (span c)) then (""%string, ""%string, false) else (TraceID (span c), SpanID (span c), true).

(** The service's name is the environment's, else the last one given, else fiber-app; the globals change exactly when
    [Setup] succeeds, and the function returned shuts down the provider installed. *)
Lemma Setup_spec `{!OtelLaws X R A P} env opts g :
  let cfg := fold_left (fun c o => o c) opts (MkConfig "fiber-app" (ParentBased always)) in
  match Setup env opts g with
  | (inl _, g') => g' = g
  | (inr shutdown, g') => exists tp r, g' = Globals (Some tp) [TraceContext; Baggage] /\ shutdown tt = Shutdown tp /\
      (provider_parts tp).1.2 = r /\ (provider_parts tp).2 = sampler cfg /\
      attribute r "service.name" = Some (default (serviceName cfg) (env !! "service.name"%string))
  end.
Proof.
  cbv zeta. unfold Setup. destruct (exporter env) as [|x]; [done|]. destruct (resource_New _ _) as [|r] eqn:Hr; [done|].
  eexists _, r. split_and!; [reflexivity|done|by rewrite provider_law|by rewrite provider_law|].
  rewrite (resource_law _ _ _ "service.name" Hr eq_refl). destruct (env !! "service.name"%string); [done|]. cbn. by rewrite lookup_insert_eq.
Qed.
End Tracing.

(** A request in a valid span logs the identifiers that [LogFields] gives for it, and otherwise none. *)
Lemma request_fields_trace method path status start stop c :
  forall tid sid ok, LogFields (UserContext c) = (tid, sid, ok) ->
  drop 10 (request_fields method path status start stop c) = if ok then [AStr "trace_id"; AStr tid; AStr "span_id"; AStr sid] else [].
Proof. intros tid sid ok. unfold LogFields, request_fields. cbn [app drop]. destruct (IsValid _); by intros [= <- <- <-]. Qed.

(** An SDK as documented, to run on: the endpoint must not be malformed. *)
Module Sdk.
#[export] Instance sdk : Otel unit (gmap string string) nat (unit * gmap string string * nat) := {
  always := 0%nat; ParentBased := S;
  exporter env := if decide (env !! "endpoint"%string = Some "bad"%string) then inl (Err "parse endpoint") else inr tt;
  resource_New env ds := inr (foldl (fun r d => match d with
     | WithAttributes kvs => list_to_map kvs ∪ r | WithFromEnv => env ∪ r | WithTelemetrySDK => <["telemetry.sdk.language"%string := "go"%string]> r end) ∅ ds);
  attribute r k := r !! k;
  NewTracerProvider x r a := (x, r, a); provider_parts p := p; Shutdown _ := None }.

#[export] Instance sdk_laws : OtelLaws unit (gmap string string) nat (unit * gmap string string * nat).
Proof.
  split; [|done]. cbn. intros env kvs r k [= <-] Hk. rewrite lookup_insert_ne by (intros <-; done). rewrite map_union_empty, lookup_union.
  destruct (env !! k); [by destruct (list_to_map kvs !! k)|]. by destruct (list_to_map kvs !! k).
Qed.
End Sdk.
