(* ===== verification/ExampleApi.v ===== *)
(** * The example service (examples/api/main.go)

    One service out of several packages: API keys, feature flags, a cache in front of a loader, the
    event bus and the audit trail. Its handlers are those the packages' files define, composed as
    [main] composes them, over one state. [bootstrap.New]'s own middlewares run around them (file
    Bootstrap); the routes here are those [main] registers, in its order. *)

From S2P Require Import Prelude GoStrings Fiber ApiError ApiKey FeatureFlag Cache Events Bootstrap AuditLog.
Open Scope Z_scope.

(** The text of a parameter of a request. Fiber's [c.Params] gives a view of the buffer of the
    request, which is used again for later requests, and so does its every copy as a Go string:
    a view is kept as the number of the request. *)
Definition view : Type := nat.

Record Widget := MkWidget { w_ID : view; Name : string }.
Record WidgetViewed := MkViewed { WidgetID : string; v_Actor : string }.

(** A request with what the middlewares have put in its locals. *)
Record rq := Rq { base : cx; auth : ctx ApiKey.Identity; flags : option bound }.

(** What a request meets: the clock when the cache and the recorder read it, the fate of the insert,
    and what the views of earlier requests read as meanwhile. *)
Record env := Env { t1 : Z; t2 : Z; t3 : Z; t_audit : Z; insert_net : net; views : view -> string }.

Abbreviation bus := (list string * Events.Bus (K := string))%type.

(** What [main] makes. [printed] is inside [events]: the log lines of the subscriber. *)
Record world {D : Type} := World { served : nat; widgets : Cache.cache (V := Widget); events : bus; db : D }.
Arguments world D : clear implicits.
Arguments World {D} served widgets events db.

Definition identity : Identity := ApiKey.MkIdentity "demo-user" ["widgets:read"%string] [].
Definition keys (hash : string) : Authenticator := ApiKey.New (MapStore {[hash := identity]}) "".
Definition actorOf (r : rq) : string := match ApiKey.FromContext (auth r) with Some id => ApiKey.ID id | None => "" end.
Definition the_flags : Flags := Some (Some (Rules {["fancy_widget_name"%string := MkRule true 0 [] []]})).
Definition rec : Recorder rq := AuditLog.New [WithActor actorOf].

(** The subscriber, the only handler of the bus. *)
Definition viewed_line (e : WidgetViewed) : string := "event: widget " +:+ (WidgetID e +:+ (" viewed by " +:+ v_Actor e)).
Definition subscriber (_ : nat) (e : WidgetViewed) (w : bus) : option error * bus := (None, (w.1 ++ [viewed_line e], w.2)).

(** How a handler of the example ends: the next one runs, an error is returned, or a reply is sent. *)
Inductive ending := Go (r : rq) | Stop (e : goerr) | Answer (rep : Fiber.reply).

(** The handlers of apikey, on the part of the request they see. *)
Definition on_auth (h : Fiber.handler Identity goerr) (r : rq) : ending :=
  match h (auth r) with
  | Next a => Go (Rq (base r) a (flags r))
  | Send rep => Answer rep
  | Fail e => Stop e
  end.
Definition bind_flags (r : rq) : rq :=
  Rq (base r) (auth r) (Some (FeatureFlag.Middleware the_flags (Some (fun r => MkEval (actorOf r) [] [])) r)).

(** What [json.Marshal] makes of the values sent. *)
Definition identity_json (id : Identity) : any :=
  AObj [("ID", AStr (ApiKey.ID id)); ("Scopes", AStrs (Scopes id)); ("Meta", match Meta id with [] => ANil | m => AObj m end)].
Definition widget_json (read : view -> string) (w : Widget) : any := AObj [("ID", AStr (read (w_ID w))); ("Name", AStr (Name w))].

Section Service.
  Context {D : Type} `{AuditDB D}.
  (** Fiber: does a route match, what is the parameter of its pattern, where does a request come from. *)
  Context (matches : string -> cx -> bool) (Params : cx -> string -> string) (c_IP : cx -> string).

Definition public : Fiber.reply := SendSuccess (AObj [("ok", ABool true)]) "public" [].
Definition me (r : rq) : Fiber.reply :=
  SendSuccess (match ApiKey.FromContext (auth r) with Some id => identity_json id | None => ANil end) "identity" [].

(** The loader of request [n]. *)
Definition load (n : view) (r : rq) (c : Cache.cache (V := Widget)) : (error + Widget) * Cache.cache (V := Widget) :=
  let name := "widget-" +:+ Params (base r) "id" in
  (inr (MkWidget n (if request_Enabled (flags r) "fancy_widget_name" then "✨ " +:+ name else name)), c).

Definition entry_for (r : rq) : Entry :=
  let e := FromRequest base (fun r => c_IP (base r)) rec r in
  MkEntry (ID e) (Actor e) "widget.view" "widget" (Params (base r) "id") (Metadata e) (IP e) (RequestID e) (CreatedAt e).

Definition get_widget (e : env) (r : rq) (w : world D) : ending * world D :=
  let id := Params (base r) "id" in
  let n := served w in
  match GetOrLoad (t1 e) (t2 e) (t3 e) ("widget:" +:+ id) (load n r) (widgets w) with
  | (inl _, c) => (Stop (Internal "load widget"), World n c (events w) (db w))
  | (inr wid, c) =>
      let '(_, _, b) := Publish subscriber "WidgetViewed"%string (MkViewed id (actorOf r)) (events w) in
      let '(_, d) := Record_ (insert_net e) (t_audit e) (entry_for r) (db w) in
      (Answer (SendSuccess (widget_json (fun k => if Nat.eqb k n then id else views e k) wid) "widget" []), World n c b d)
  end.

(** The routes in the order of their registration; the group's middlewares guard what comes after. *)
Definition routes (hash : string) (e : env) (r : rq) (w : world D) : ending * world D :=
  if matches "/public" (base r) then (Answer public, w)
  else match on_auth (ApiKey.Middleware (keys hash)) r with
       | Go r =>
           let r := bind_flags r in
           if matches "/me" (base r) then (Answer (me r), w)
           else if matches "/widgets/:id" (base r) then
             match on_auth (RequireScope "widgets:read") r with Go r => get_widget e r w | o => (o, w) end
           else (Stop (EFiber 404 ("Cannot " +:+ (method (base r) +:+ (" " +:+ path (base r))))), w)
       | o => (o, w)
       end.

(** A request; an error returned goes to the error handler. *)
Definition respond (hash : string) (e : env) (r : rq) (w : world D) : Fiber.reply * world D :=
  let '(o, w) := routes hash e r w in
  (match o with Answer rep => rep | Stop err => Handler err | Go _ => Reply StatusOK (MkResponse StatusOK "" "" ANil "") end,
   World (S (served w)) (widgets w) (events w) (db w)).
Fixpoint respond_all (hash : string) (rs : list (env * rq)) (w : world D) : list Fiber.reply * world D :=
  match rs with
  | [] => ([], w)
  | (e, r) :: rs => let '(rep, w) := respond hash e r w in let '(reps, w) := respond_all hash rs w in (rep :: reps, w)
  end.

(** [main] up to the registrations; an error is fatal. [d] is the opened database. *)
Definition setup (n1 n2 : net) (random : error + string) (d : D) : error + (string * string * world D) :=
  match AuditLog.Migrate n1 n2 d with
  | (Some err, _) => inl err
  | (None, d) =>
      match Generate random with
      | inl err => inl err
      | inr (key, hash) =>
          inr (key, hash, World 0 (Cache.New [WithDefaultTTL (60 * Second); WithMaxSize 1024])
                            ([], Events.Subscribe "WidgetViewed"%string 0%nat (Events.New [])) d)
      end
  end.

(** ** What the service promises: the answer to a request on its own *)

Inductive ask := APublic | ARefused (message : string) | AMe | AWidget (id : string) | ANone.

Definition asks (hash : string) (r : rq) : ask :=
  let k := header (auth r) "X-API-Key" in
  if matches "/public" (base r) then APublic
  else if String.eqb k "" then ARefused "missing API key"
  else if negb (String.eqb (Hash k) hash) then ARefused "invalid API key"
  else if matches "/me" (base r) then AMe
  else if matches "/widgets/:id" (base r) then AWidget (Params (base r) "id")
  else ANone.

(** [text] is what the identifier of a widget reads as. *)
Definition reply_to (r : rq) (a : ask) (text : string) : Fiber.reply :=
  match a with
  | APublic => Reply 200 (MkResponse 200 "public" "" (AObj [("ok", ABool true)]) "success")
  | ARefused m => Reply 401 (MkResponse 401 m "unauthorized" ANil "error")
  | AMe => Reply 200 (MkResponse 200 "identity" "" (AObj [("ID", AStr "demo-user"); ("Scopes", AStrs ["widgets:read"]); ("Meta", ANil)]) "success")
  | AWidget id => Reply 200 (MkResponse 200 "widget" "" (AObj [("ID", AStr text); ("Name", AStr ("✨ widget-" +:+ id))]) "success")
  | ANone => Reply 404 (MkResponse 404 ("Cannot " +:+ (method (base r) +:+ (" " +:+ path (base r)))) "" ANil "error")
  end%string.

Definition line_for (hash : string) (er : env * rq) : option string :=
  match asks hash er.2 with AWidget id => Some ("event: widget " +:+ (id +:+ " viewed by demo-user")) | _ => None end.
Definition entry_of (hash : string) (er : env * rq) : option Entry :=
  match asks hash er.2 with
  | AWidget id => reached (insert_net er.1, t_audit er.1,
      MkEntry 0 "demo-user" "widget.view" "widget" id ∅ (c_IP (base er.2)) (GetRequestID (base er.2)) None)
  | _ => None
  end.

(** ** The invariant between requests *)

  Context `{HL : !AuditLaws D} (hash : string).

Definition loaded (past : list (env * rq)) (k : string) (v : Widget) : Prop :=
  exists id er, k = "widget:" +:+ id /\ Name v = "✨ widget-" +:+ id /\ past !! w_ID v = Some er /\ asks hash er.2 = AWidget id.

Record inv (past : list (env * rq)) (w : world D) : Prop := {
  inv_served : served w = length past;
  inv_cache : holds (loaded past) (widgets w);
  inv_bus : async (events w).2 = false /\ registered "WidgetViewed"%string (events w).2 = [0%nat];
  inv_db : ready (db w) = true }.

(** What the identifier may read as: the request's own, or a view of an earlier request that asked for the same widget. *)
Definition text_ok (past : list (env * rq)) (er : env * rq) (text : string) : Prop :=
  text = Params (base er.2) "id" \/
  exists m er', past !! m = Some er' /\ asks hash er'.2 = asks hash er.2 /\ text = views er.1 m.

Lemma loaded_app past er k v : loaded past k v -> loaded (past ++ [er]) k v.
Proof. intros (id & er' & Hk & Hn & Hv & Ha). exists id, er'. split_and!; try done. by apply lookup_app_l_Some. Qed.

Lemma inv_quiet past w er : inv past w -> inv (past ++ [er]) (World (S (served w)) (widgets w) (events w) (db w)).
Proof.
  intros [Hs [Hwf Hc] Hb Hd]. split; cbn [served widgets events db]; try done; [rewrite length_app; cbn; lia|].
  split; [done|]. intros b Hin. by apply loaded_app, Hc.
Qed.

(** The request as the handlers behind the group's middlewares see it. *)
Definition authed (r : rq) : rq := bind_flags (Rq (base r) (set_local localsKey (LIdentity identity) (auth r)) (flags r)).

Lemma authed_identity r : ApiKey.FromContext (auth (authed r)) = Some identity.
Proof. unfold ApiKey.FromContext. cbn. by rewrite lookup_insert_eq. Qed.
Lemma authed_actor r : actorOf (authed r) = "demo-user"%string.
Proof. unfold actorOf. by rewrite authed_identity. Qed.
Lemma authed_fancy r : request_Enabled (flags (authed r)) "fancy_widget_name" = true.
Proof. unfold authed. change (Rules {["fancy_widget_name"%string := MkRule true 0 [] []]} "fancy_widget_name" (MkEval (actorOf (Rq (base r) (set_local localsKey (LIdentity identity) (auth r)) (flags r))) [] []) = true). unfold Rules. rewrite lookup_singleton_eq. unfold eval. cbn. by rewrite andb_false_r. Qed.
Lemma authed_scope r : on_auth (RequireScope "widgets:read") (authed r) = Go (authed r).
Proof. unfold on_auth, RequireScope. rewrite authed_identity. done. Qed.

Lemma key_accepted r k : header (auth r) "X-API-Key" = k -> k <> EmptyString -> Hash k = hash ->
  on_auth (ApiKey.Middleware (keys hash)) r = Go (Rq (base r) (set_local localsKey (LIdentity identity) (auth r)) (flags r)).
Proof.
  intros Hk Hne Hh. unfold on_auth, ApiKey.Middleware. cbn [keys auth_header ApiKey.New String.eqb]. unfold defaultHeader. rewrite Hk.
  rewrite (proj2 (String.eqb_neq _ _) Hne). change (store _ (Hash k)) with (inr (A := error) (({[hash := identity]} : gmap string Identity) !! Hash k)). by rewrite Hh, lookup_singleton_eq.
Qed.

Lemma load_name n r c : load n (authed r) c = (inr (MkWidget n ("✨ widget-" +:+ Params (base r) "id")), c).
Proof. unfold load. by rewrite authed_fancy. Qed.

Lemma get_widget_spec past e r w : inv past w -> asks hash r = AWidget (Params (base r) "id") ->
  exists text c d,
    get_widget e (authed r) w =
      (Answer (reply_to r (AWidget (Params (base r) "id")) text),
       World (served w) c ((events w).1 ++ [viewed_line (MkViewed (Params (base r) "id") "demo-user")], (events w).2) d) /\
    text_ok past (e, r) text /\ holds (loaded (past ++ [(e, r)])) c /\ ready d = true /\
    map forget (rows d) = map forget (rows (db w)) ++ match entry_of hash (e, r) with Some x => [x] | None => [] end.
Proof.
  intros [Hs [Hwf Hc] [Hsync Hreg] Hd] Ha. set (id := Params (base r) "id") in *. unfold get_widget. change (base (authed r)) with (base r).
  fold id. set (wid := MkWidget (served w) ("✨ widget-" +:+ id)).
  assert (Hgl : holds (loaded (past ++ [(e, r)])) (GetOrLoad (t1 e) (t2 e) (t3 e) ("widget:" +:+ id) (fun c => (inr wid, c)) (widgets w)).2 /\
    match (GetOrLoad (t1 e) (t2 e) (t3 e) ("widget:" +:+ id) (fun c => (inr wid, c)) (widgets w)).1 with
    | inr v => loaded (past ++ [(e, r)]) ("widget:" +:+ id) v | inl err => inr wid = inl err end).
  { apply GetOrLoad_holds; [split; [done|intros b Hb; by apply loaded_app, Hc]|]. intros v [= <-]. exists id, (e, r).
    split_and!; [done|done| |done]. cbn [w_ID wid]. rewrite Hs. by apply list_lookup_middle. }
  assert (Hload : forall c, GetOrLoad (t1 e) (t2 e) (t3 e) ("widget:" +:+ id) (load (served w) (authed r)) c =
    GetOrLoad (t1 e) (t2 e) (t3 e) ("widget:" +:+ id) (fun c => (inr wid, c)) c).
  { intros c. unfold GetOrLoad. destruct (Get _ _ c) as [[]]; [done|]. by destruct (Get _ _ _) as [[]]; [done|rewrite load_name]. }
  rewrite Hload. clear Hload. destruct (GetOrLoad _ _ _ _ _ _) as [[err|v] c]; cbn [fst snd] in Hgl; [by destruct Hgl|].
  destruct Hgl as [Hc' (id' & [e' r'] & Hid & Hn & Hv & Ha')]. apply string_app_inj_l in Hid as <-.
  unfold Publish. rewrite Hsync, Hreg. cbn [deliver subscriber]. rewrite authed_actor.
  pose proof (Record_rows (insert_net e) (t_audit e) (entry_for (authed r)) (db w) Hd eq_refl) as Hrec.
  destruct (Record_ (insert_net e) (t_audit e) _ (db w)) as [err d]. destruct Hrec as (_ & Hready & Hrows).
  exists (if Nat.eqb (w_ID v) (served w) then id else views e (w_ID v)), c, d. split_and!; [by unfold reply_to; rewrite <- Hn| |done|done|].
  - unfold text_ok. cbn [fst snd]. destruct (Nat.eqb_spec (w_ID v) (served w)) as [_|Hne]; [by left|]. right.
    exists (w_ID v), (e', r'). cbn [snd] in *. rewrite Ha'. split_and!; [|by rewrite Ha|done].
    apply lookup_app_Some in Hv as [Hv|[Hge Hv]]; [done|]. apply list_lookup_singleton_Some in Hv as [Hz _]. lia.
  - rewrite Hrows. unfold entry_of. cbn [fst snd]. rewrite Ha. unfold entry_for, FromRequest. cbn [actor rec AuditLog.New WithActor fold_left base authed bind_flags]. by rewrite authed_actor.
Qed.

Lemma respond_spec past er w : inv past w ->
  let '(rep, w') := respond hash er.1 er.2 w in
  (exists text, rep = reply_to er.2 (asks hash er.2) text /\ text_ok past er text) /\ inv (past ++ [er]) w' /\
  (events w').1 = (events w).1 ++ match line_for hash er with Some l => [l] | None => [] end /\
  map forget (rows (db w')) = map forget (rows (db w)) ++ match entry_of hash er with Some x => [x] | None => [] end.
Proof.
  destruct er as [e r]. cbn [fst snd]. intros Hinv. unfold respond, routes.
  assert (Hquiet : forall rep a, asks hash r = a -> rep = reply_to r a "" -> (forall id, a <> AWidget id) ->
    (exists text, rep = reply_to r (asks hash r) text /\ text_ok past (e, r) text) /\
    inv (past ++ [(e, r)]) (World (S (served w)) (widgets w) (events w) (db w)) /\
    (events w).1 = (events w).1 ++ match line_for hash (e, r) with Some l => [l] | None => [] end /\
    map forget (rows (db w)) = map forget (rows (db w)) ++ match entry_of hash (e, r) with Some x => [x] | None => [] end).
  { intros rep a Ha -> Hno. split_and!; [|by apply inv_quiet|unfold line_for|unfold entry_of]; cbn [fst snd]; rewrite Ha.
    - exists (Params (base r) "id"). split; [|by left]. destruct a; try done. by destruct (Hno id).
    - destruct a; try by rewrite app_nil_r. by destruct (Hno id).
    - destruct a; try by rewrite app_nil_r. by destruct (Hno id). }
  pose proof (eq_refl (asks hash r)) as Ha. unfold asks at 2 in Ha.
  destruct (matches "/public" (base r)); [by eapply Hquiet|].
  destruct (String.eqb_spec (header (auth r) "X-API-Key") "") as [Hk|Hk].
  { unfold on_auth, ApiKey.Middleware. cbn [keys auth_header ApiKey.New String.eqb]. unfold defaultHeader. rewrite Hk. by eapply Hquiet. }
  destruct (String.eqb_spec (Hash (header (auth r) "X-API-Key")) hash) as [Hh|Hh]; cbn [negb] in Ha.
  2: { unfold on_auth, ApiKey.Middleware. cbn [keys auth_header ApiKey.New String.eqb]. unfold defaultHeader. rewrite (proj2 (String.eqb_neq _ _) Hk).
       change (store _ (Hash ?k)) with (inr (A := error) (({[hash := identity]} : gmap string Identity) !! Hash k)).
       rewrite lookup_singleton_ne by done. by eapply Hquiet. }
  rewrite (key_accepted r _ eq_refl Hk Hh). fold (authed r). cbv zeta. change (base (authed r)) with (base r).
  destruct (matches "/me" (base r)); [eapply Hquiet; [done| |done]; unfold me; by rewrite authed_identity|].
  destruct (matches "/widgets/:id" (base r)); [|by eapply Hquiet].
  rewrite authed_scope. destruct (get_widget_spec past e r w Hinv Ha) as (text & c & d & -> & Ht & Hc & Hd & Hrows).
  cbn [served widgets events db fst]. split_and!; [exists text; by rewrite Ha| | |done].
  - destruct Hinv as [Hs _ Hb _]. split; cbn [served widgets events db snd]; try done. rewrite length_app. cbn. lia.
  - unfold line_for. cbn [fst snd]. by rewrite Ha.
Qed.

Lemma respond_all_spec past rs w : inv past w ->
  let '(reps, w') := respond_all hash rs w in
  length reps = length rs /\
  (forall n er, rs !! n = Some er -> exists text, reps !! n = Some (reply_to er.2 (asks hash er.2) text) /\ text_ok (past ++ take n rs) er text) /\
  inv (past ++ rs) w' /\ (events w').1 = (events w).1 ++ omap (line_for hash) rs /\
  map forget (rows (db w')) = map forget (rows (db w)) ++ omap (entry_of hash) rs.
Proof.
  revert past w. induction rs as [|[e r] rs IH]; intros past w Hinv; cbn [respond_all].
  { rewrite !app_nil_r. by split_and!. }
  pose proof (respond_spec past (e, r) w Hinv) as Hr. cbn [fst snd] in Hr. destruct (respond _ e r w) as [rep w1].
  destruct Hr as ((text & Hrep & Htext) & Hinv1 & Hl & Hrows). specialize (IH (past ++ [(e, r)]) w1 Hinv1).
  destruct (respond_all _ rs w1) as [reps w']. destruct IH as (Hlen & Hans & Hinv' & Hl' & Hrows').
  split_and!.
  - cbn. by rewrite Hlen.
  - intros [|n] er Hn; cbn [lookup list_lookup take] in *.
    + injection Hn as <-. exists text. split; [by rewrite Hrep|by rewrite app_nil_r].
    + destruct (Hans n er Hn) as (tx & H1 & H2). exists tx. split; [done|]. by rewrite <- app_assoc in H2.
  - by rewrite <- app_assoc in Hinv'.
  - rewrite Hl', Hl, <- app_assoc. csimpl. by destruct (line_for hash (e, r)).
  - rewrite Hrows', Hrows, <- app_assoc. csimpl. by destruct (entry_of hash (e, r)).
Qed.
End Service.

Section Setup.
  Context {D : Type} `{HD : AuditDB D, HL : !AuditLaws D} (matches : string -> cx -> bool) (Params : cx -> string -> string) (c_IP : cx -> string).

Lemma setup_ok n1 n2 random (d : D) key hash w : setup n1 n2 random d = inr (key, hash, w) ->
  (exists b, random = inr b /\ key = hex_encode b /\ hash = Hash key) /\ inv matches Params hash [] w /\ (events w).1 = [] /\ rows (db w) = rows d.
Proof.
  unfold setup. destruct (create_ok d) as (H1 & H2 & H3). unfold AuditLog.Migrate, remote.
  destruct n1; cbn [call]; destruct (create_table d) as [r1 d1]; cbn [fst snd] in *; subst r1; try done.
  destruct (index_ok d1 ["actor"; "created_at"]%string H2) as (H4 & H5 & H6).
  destruct n2; cbn [call]; destruct (create_index _ d1) as [r2 d2]; cbn [fst snd] in *; subst r2; try done.
  unfold Generate. destruct random as [err|b]; [done|]. intros [= <- <- <-]. split_and!; [by exists b| |done|cbn; congruence].
  destruct (wf_New (V := Widget) [WithDefaultTTL (60 * Second); WithMaxSize 1024]) as [Hwf Habs].
  split; cbn [served widgets events db]; try done. split; [done|]. intros x Hx. rewrite Habs in Hx. by apply elem_of_nil in Hx.
Qed.

(** (C22) The service answers as if it kept nothing. Whatever requests come, in any order, at any times and
    with any inserts failing, each gets the reply its own contents call for: public data
    to everyone, 401 without a key or with one whose hash is not that of the printed key, 404, and
    a widget under its name, loaded or cached. One field is excepted: the identifier in a widget is
    that of the request, or what the string of an earlier request for the widget, kept in the
    cache while Fiber reuses its bytes, reads as now. One line is printed per
    widget viewed, and the audit trail has, in order, one entry per view whose insert arrived. The
    printed key is accepted. *)
Theorem service_stateless n1 n2 random (d : D) key hash w rs :
  setup n1 n2 random d = inr (key, hash, w) -> random <> inr ""%string ->
  let '(reps, w') := respond_all matches Params c_IP hash rs w in
  length reps = length rs /\
  (forall n e r, rs !! n = Some (e, r) -> exists text, reps !! n = Some (reply_to r (asks matches Params hash r) text) /\
     (text = Params (base r) "id" \/
      exists m e' r', (m < n)%nat /\ rs !! m = Some (e', r') /\ asks matches Params hash r' = asks matches Params hash r /\ text = views e m)) /\
  (events w').1 = omap (line_for matches Params hash) rs /\
  map forget (rows (db w')) = map forget (rows d) ++ omap (entry_of matches Params c_IP hash) rs /\
  (forall r m, header (auth r) "X-API-Key" = key -> asks matches Params hash r <> ARefused m).
Proof.
  intros Hsetup Hne. destruct (setup_ok _ _ _ _ _ _ _ Hsetup) as ((b & -> & -> & ->) & Hinv & Hl & Hd).
  pose proof (respond_all_spec matches Params c_IP (Hash (hex_encode b)) [] rs w Hinv) as Hr.
  destruct (respond_all _ _ _ _ rs w) as [reps w']. destruct Hr as (Hlen & Hans & _ & Hl' & Hrows).
  rewrite Hl in Hl'. rewrite Hd in Hrows. split_and!; [done| |done|done|].
  - intros n e r Hn. destruct (Hans n (e, r) Hn) as (text & H1 & H2). exists text. split; [done|]. destruct H2 as [->|(m & [e' r'] & Hm & Ha & ->)]; [by left|].
    right. cbn [app] in Hm. apply lookup_take_Some in Hm as [Hm Hlt]. by exists m, e', r'.
  - intros r m Hk. unfold asks. rewrite Hk. destruct (matches "/public" _); [done|].
    destruct (String.eqb_spec (hex_encode b) "") as [He|_]; [by destruct b|]. rewrite String.eqb_refl. cbn [negb].
    destruct (matches "/me" _); [done|]. by destruct (matches "/widgets/:id" _).
Qed.
End Setup.

(** ** A session: a refused request, a view, a listing of oneself, the view again, a lost insert *)

Import (hints) AuditLog.Mem.

Definition sample_matches (pattern : string) (c : cx) : bool :=
  if String.eqb pattern "/widgets/:id" then String.prefix "/widgets/" (path c) else String.eqb pattern (path c).
Definition sample_Params (c : cx) (_ : string) : string := String.substring 9 (String.length (path c)) (path c).
Definition sample_IP (_ : cx) : string := "10.0.0.1".
Definition demo_key : string := hex_encode "0123".
Definition ask_for (p key : string) : rq := Rq (set_requestid "r1" (Bootstrap.get p)) (Ctx (fun _ => key) ∅) None.
Definition at_time (t : Z) (n : net) (views : view -> string) : env := Env t t t t n views.
Definition session (views : view -> string) : list (env * rq) :=
  [(at_time 1 NetOk views, ask_for "/widgets/1" "guess"); (at_time 2 NetOk views, ask_for "/widgets/1" demo_key);
   (at_time 3 NetOk views, ask_for "/me" demo_key); (at_time 4 NetOk views, ask_for "/widgets/1" demo_key);
   (at_time 5 (LostRequest (Err "locked")) views, ask_for "/widgets/2" demo_key)].
Definition started : error + (string * string * world Mem.table) := setup NetOk NetOk (inr "0123"%string) empty_table.
Definition started_world : world Mem.table :=
  match started with inr (_, _, w) => w | inl _ => World 0 (Cache.New []) ([], Events.New []) empty_table end.

Lemma service_stateless_witness :
  let '(reps, w') := respond_all sample_matches sample_Params sample_IP (Hash demo_key) (session (fun _ => "1"%string)) started_world in
  map http_status reps = [401; 200; 200; 200; 200] /\
  (events w').1 = ["event: widget 1 viewed by demo-user"; "event: widget 1 viewed by demo-user"; "event: widget 2 viewed by demo-user"]%string /\
  map TargetID (map forget (rows (db w'))) = ["1"; "1"]%string.
Proof.
  assert (Hs : setup NetOk NetOk (inr "0123"%string) empty_table = inr (demo_key, Hash demo_key, started_world)) by (vm_compute; reflexivity).
  pose proof (service_stateless sample_matches sample_Params sample_IP NetOk NetOk (inr "0123"%string) empty_table demo_key (Hash demo_key)
    started_world (session (fun _ => "1"%string)) Hs ltac:(discriminate)) as Hw.
  assert (Hst : map http_status (respond_all sample_matches sample_Params sample_IP (Hash demo_key) (session (fun _ => "1"%string)) started_world).1
    = [401; 200; 200; 200; 200]) by (vm_compute; reflexivity).
  destruct (respond_all _ _ _ _ _ _) as [reps w']. destruct Hw as (_ & _ & Hl & Hrows & _). split_and!; [exact Hst| |].
  - rewrite Hl. vm_compute. reflexivity.
  - rewrite Hrows. vm_compute. reflexivity.
Defined.

(** ** What modelling showed *)

(** [Widget{ID: id}] keeps [c.Params("id")] in the cache after the request: when Fiber uses the buffer again for a
    request of another path, the cached widget 1 is sent with the other's identifier. *)
Example cached_id_is_overwritten :
  let reps := (respond_all sample_matches sample_Params sample_IP (Hash demo_key) (session (fun _ => "7"%string)) started_world).1 in
  map (fun r => r_data (Fiber.body r)) (take 1 (drop 3 reps)) = [AObj [("ID", AStr "7"); ("Name", AStr "✨ widget-1")]]%string.
Proof. vm_compute. reflexivity. Qed.
