(* ===== verification/SessionLife.v ===== *)
(** * Sessions that last (auth/issuer.go)

    The theorems of Auth and Sessions say when a token is refused. Here: a client that refreshes in
    time with the token it was given last is never refused, whatever other sessions do meanwhile. *)

From S2P Require Import Prelude GoStrings Fiber GoJson Jwt TokenStore Auth.
Open Scope Z_scope.

(** Claims that JSON brings back as they were: text, flags, and lists of them. *)
Fixpoint plain (v : any) : bool :=
  match v with
  | ANil | ABool _ => true
  | AStr s => ascii_only s
  | AStrs l => forallb ascii_only l
  | AList l => forallb plain l
  | _ => false
  end.

Lemma plain_json : forall v, plain v = true -> encodable v = true /\ plain (json_any v) = true.
Proof.
  fix IH 1. intros [| | | | | |l|l|]; cbn [plain encodable json_any]; try done.
  - intros Hl. split; [done|]. induction l as [|s l IHl]; [done|]. cbn in *. apply andb_true_iff in Hl as [-> Hl]. by apply IHl.
  - induction l as [|x l IHl]; [done|]. cbn [forallb map]. intros [Hx Hl]%andb_true_iff. destruct (IH x Hx) as [-> ->]. by apply IHl.
Qed.

(** What a token takes over from the claims it is minted from. *)
Definition taken : list string := "sub"%string :: copied.
Definition carried (base : claims) : Prop := forall k v, k ∈ taken -> base !! k = Some v -> plain v = true.

Lemma taken_ascii k : k ∈ taken -> ascii_only k = true.
Proof. unfold taken, copied. intros Hk. repeat (apply elem_of_cons in Hk as [->|Hk]; [reflexivity|]). by apply elem_of_nil in Hk. Qed.

Lemma copied_encodable base l m : carried base -> l ⊆ taken -> claims_encodable m -> claims_encodable (fold_left (copy_claim base) l m).
Proof.
  intros Hb Hl Hm. apply fold_left_inv; [done|]. intros m0 k Hk Hm0. unfold copy_claim. destruct (base !! k) as [v|] eqn:Hv; [|done].
  assert (Hin : k ∈ taken) by (apply Hl; first [done|by apply list_elem_of_In]). apply encodable_insert; [by apply plain_json, (Hb k v)|by apply taken_ascii|done].
Qed.

Lemma subject_encodable base : carried base -> claims_encodable {["sub"%string := default ANil (base !! "sub"%string)]}.
Proof.
  intros Hb k v Hk. apply lookup_singleton_Some in Hk as [<- <-]. split; [|done].
  destruct (base !! "sub"%string) as [x|] eqn:Hx; [|done]. apply plain_json, (Hb "sub"%string x); [by left|done].
Qed.

Definition refresh_token (base : claims) (f j : string) (e : Z) : claims := <["exp"%string := AInt e]> (refresh_claims base f j).
Definition access_token (base : claims) (j : string) (e : Z) : claims := <["exp"%string := AInt e]> (access_claims base j).

Lemma refresh_token_encodable base f j e : carried base -> ascii_only f = true -> ascii_only j = true -> claims_encodable (refresh_token base f j e).
Proof.
  intros Hb Hf Hj. apply encodable_insert; [done..|]. apply copied_encodable; [done|set_solver|].
  repeat (apply encodable_insert; [done..|]). by apply subject_encodable.
Qed.
Lemma access_token_encodable base j e : carried base -> ascii_only j = true -> claims_encodable (access_token base j e).
Proof.
  intros Hb Hj. apply encodable_insert; [done..|]. apply copied_encodable; [done|set_solver|].
  repeat (apply encodable_insert; [done..|]). by apply subject_encodable.
Qed.

(** ** What the claims say *)

Section Claims.
  Context (base : claims) (f j : string) (e : Z).

Lemma refresh_token_own : refresh_token base f j e !! "type"%string = Some (AStr "refresh") /\ refresh_token base f j e !! "fid"%string = Some (AStr f) /\
  refresh_token base f j e !! "jti"%string = Some (AStr j) /\ refresh_token base f j e !! "exp"%string = Some (AInt e) /\
  refresh_token base f j e !! "nbf"%string = None /\ refresh_token base f j e !! "sub"%string = Some (default ANil (base !! "sub"%string)).
Proof. unfold refresh_token, refresh_claims. split_and!; minted; reflexivity. Qed.
Lemma access_token_own : access_token base j e !! "type"%string = Some (AStr "access") /\ access_token base j e !! "exp"%string = Some (AInt e) /\
  access_token base j e !! "nbf"%string = None /\ access_token base j e !! "sub"%string = Some (default ANil (base !! "sub"%string)).
Proof. unfold access_token, access_claims. split_and!; minted; reflexivity. Qed.
Lemma refresh_token_copied k : k ∈ copied -> refresh_token base f j e !! k = base !! k.
Proof.
  intros Hk. unfold refresh_token. rewrite lookup_insert_ne by (intros <-; unfold copied in Hk; set_solver). unfold refresh_claims.
  apply copy_claims_lookup; [done|]. unfold copied in Hk. rewrite !lookup_insert_ne by set_solver. apply lookup_singleton_ne. set_solver.
Qed.

(** Read back, the claims of a refresh token are again such as tokens can be minted from, with the same subject. *)
Lemma carried_again : carried base -> carried (json_claims (refresh_token base f j e)).
Proof.
  intros Hb k v Hk. rewrite json_claims_lookup. intros Hv. apply elem_of_cons in Hk as [->|Hk].
  - rewrite (proj2 (proj2 (proj2 (proj2 (proj2 refresh_token_own))))) in Hv. injection Hv as <-.
    destruct (base !! "sub"%string) as [x|] eqn:Hx; [|done]. apply plain_json, (Hb "sub"%string x); [by left|done].
  - rewrite refresh_token_copied in Hv by done. destruct (base !! k) as [x|] eqn:Hx; [|done]. injection Hv as <-.
    apply plain_json, (Hb k x); [by right|done].
Qed.
Lemma same_subject : claim_str (json_claims (refresh_token base f j e)) "sub" = claim_str base "sub".
Proof.
  unfold claim_str. rewrite json_claims_lookup, (proj2 (proj2 (proj2 (proj2 (proj2 refresh_token_own))))). cbn.
  by destruct (base !! "sub"%string) as [[]|].
Qed.
End Claims.

(** ** A client and its session *)

Section Life.
  Context `{JwtLaws} {S : Type} `{TokenStoreLaws S} (i : Issuer).

(** Before each refresh other things happen to the issuer. *)
Definition round : Type := list op * refresh_env.

(** The client refreshes with the token it got last, until it is refused. *)
Fixpoint keep (rs : list round) (tok : string) (s : S) : list (error + TokenPair) * S :=
  match rs with
  | [] => ([], s)
  | (ops, v) :: rs =>
      match Refresh i v tok (run_ops i ops s) with
      | (inl err, s) => ([inl err], s)
      | (inr p, s) => let '(l, s) := keep rs (RefreshToken p) s in (inr p :: l, s)
      end
  end.

(** In time: after what went before ([T]), while the store keeps the family ([H]) and before the token expires ([e]). *)
Fixpoint in_time (T H e : Z) (rs : list round) : Prop :=
  match rs with
  | [] => True
  | (ops, v) :: rs =>
      ordered T ops /\ ops_end T ops <= t_fam v < H /\ t_parse v < e * Second /\
      in_time (Z.max (t_set (mint_of v)) (t_block v)) (t_set (mint_of v) + whole_ms (refreshTTL i))
        ((t_refresh (mint_of v) + refreshTTL i) / Second) rs
  end.

(** The calls a refresh needs go through, and the random source gives something. Blocking the old token may fail. *)
Definition works (v : refresh_env) : Prop :=
  fam_net v = NetOk /\ set_net (mint_of v) = NetOk /\ (exists a, rand_access (mint_of v) = inr a) /\
  exists b, rand_refresh (mint_of v) = inr b /\ b <> ""%string.

(** What other requests may do: anything, except with refresh tokens of the family [f]. *)
Definition leaves (f : string) (o : op) : Prop :=
  match o with
  | OIssue r _ _ => newID r <> inr f
  | ORefresh _ tok => forall t c, parseValid t i tok = inr c -> claim_str c "fid" <> f
  | OLogout _ _ tok => forall t c, parseValid t i tok = inr c -> claim_str c "fid" <> f
  end.

(** *** Other requests leave the family alone *)

Definition same_at (f : string) (T : Z) (s s' : S) : Prop := forall t, T <= t -> family_at s' t f = family_at s t f.

Lemma same_at_trans f T T' s s1 s2 : same_at f T s s1 -> same_at f T' s1 s2 -> same_at f (Z.max T T') s s2.
Proof. intros H1' H2' t Ht. rewrite H2' by lia. apply H1'. lia. Qed.
Lemma same_at_later f T T' s s' : T <= T' -> same_at f T s s' -> same_at f T' s s'.
Proof. intros Hle Hs t Ht. apply Hs. lia. Qed.

Lemma block_same f n now j ttl s : same_at f now s (Block n now j ttl s).2.
Proof. intros t Ht. destruct (block_spec n now j ttl s) as (_ & Hf & _). by apply Hf. Qed.
Lemma set_same f n now f' j ttl s : f <> f' -> same_at f now s (SetFamily n now f' j ttl s).2.
Proof. intros Hne t Ht. pose proof (setfamily_spec n now f' j ttl s) as Hs. destruct (SetFamily _ _ _ _ _ _). destruct Hs as (_ & _ & Hf & _). by apply Hf. Qed.
Lemma revoke_same f n now f' s : f <> f' -> same_at f now s (RevokeFamily n now f' s).2.
Proof. intros Hne t Ht. pose proof (revoke_spec n now f' s) as Hs. destruct (RevokeFamily _ _ _ _). destruct Hs as (_ & _ & Hf & _). by apply Hf. Qed.
Lemma family_same f n now f' s : same_at f now s (Family n now f' s).2.
Proof. intros t Ht. destruct (family_spec n now f' s) as [_ Hs]. apply (Hs t f Ht). Qed.
Lemma mint_same f env base f' s : f <> f' -> same_at f (t_set env) s (mint i env base f' s).2.
Proof.
  intros Hne. unfold mint. destruct (newID _); [done|]. destruct (newID _) as [|jr]; [done|]. cbn zeta.
  destruct (GenerateTokenWithExpiry (t_access env) _ _ _).1; [done|]. destruct (GenerateTokenWithExpiry (t_refresh env) _ _ _).1; [done|].
  pose proof (set_same f (set_net env) (t_set env) f' jr (refreshTTL i) s Hne) as Hs. by destruct (SetFamily _ _ _ _ _ _) as [[]].
Qed.

Lemma run_op_same f T o s : leaves f o -> same_at f (op_end T o) s (run_op i o s).
Proof.
  assert (Hrefl : forall s, same_at f (op_end T o) s s) by done. intros Hl. destruct o as [r env c|env tok|env a tok]; cbn [run_op leaves] in *.
  - unfold Issue. destruct (String.eqb _ _); [done|]. destruct (newID r) as [|f'] eqn:Hf; [done|].
    eapply same_at_later; [|apply mint_same; congruence]. op_lia.
  - unfold Refresh. destruct (parseValid _ _ _) as [|c] eqn:Hp; [done|]. destruct (negb _); [done|]. destruct (_ || _); [done|].
    specialize (Hl _ _ Hp). set (f' := claim_str c "fid") in *. pose proof (family_same f (fam_net env) (t_fam env) f' s) as H1'.
    destruct (Family _ _ _ s) as [[err|[active|]] s1]; cbn [snd] in *; try (eapply same_at_later; [|exact H1']; op_lia).
    destruct (negb _).
    { eapply same_at_later; [|eapply same_at_trans; [exact H1'|by apply revoke_same]]. op_lia. }
    pose proof (mint_same f (mint_of env) c f' s1 ltac:(done)) as H2'. destruct (mint _ _ _ _ _) as [[err|tp] s2]; cbn [snd] in *.
    { eapply same_at_later; [|eapply same_at_trans; [exact H1'|exact H2']]. op_lia. }
    pose proof (same_at_trans _ _ _ _ _ _ H1' H2') as H12. destruct (0 <? _); [|eapply same_at_later; [|exact H12]; op_lia].
    eapply same_at_later; [|eapply same_at_trans; [exact H12|apply block_same]]. op_lia.
  - unfold Logout. assert (Ha : same_at f (t_block_a env) s (logout_access i env a s).2).
    { unfold logout_access. destruct (String.eqb _ _); [done|]. destruct (parseValid _ _ _); [done|]. cbv zeta. destruct (String.eqb _ _); [done|].
      destruct (0 <? _); [apply block_same|done]. }
    destruct (logout_access i env a s) as [e1 s1]. assert (Hr : same_at f (t_revoke_r env) s1 (logout_refresh i env tok s1).2).
    { unfold logout_refresh. destruct (String.eqb _ _); [done|]. destruct (parseValid _ _ _) as [|c] eqn:Hp; [done|]. cbv zeta. destruct (String.eqb _ _); [done|].
      apply revoke_same. intros Heq. by apply (Hl _ _ Hp). }
    destruct (logout_refresh i env tok s1) as [e2 s2]. cbn [snd] in *. eapply same_at_later; [|eapply same_at_trans; [exact Ha|exact Hr]]. op_lia.
Qed.

Lemma ops_end_ge T ops : T <= ops_end T ops.
Proof. revert T. induction ops as [|o ops IH]; intros T; cbn; [lia|]. pose proof (op_end_ge T o). specialize (IH (op_end T o)). unfold ops_end in IH. lia. Qed.
Lemma run_ops_same f T ops s : Forall (leaves f) ops -> same_at f (ops_end T ops) s (run_ops i ops s).
Proof.
  intros Hl. revert T s. induction Hl as [|o ops Ho Hl IH]; intros T s; [done|]. unfold run_ops, ops_end. cbn [fold_left].
  pose proof (same_at_trans _ _ _ _ _ _ (run_op_same f T o s Ho) (IH (op_end T o) (run_op i o s))) as Hs.
  eapply same_at_later; [|exact Hs]. pose proof (ops_end_ge (op_end T o) ops). unfold ops_end in *. lia.
Qed.

(** *** A refresh in time succeeds *)

  (** HMAC signing of claims that encode does not fail. *)
  Context (Hsign : forall c, claims_encodable c -> exists tok, SignedString (secret i) c = inr tok).

Definition holds_token (base : claims) (f j : string) (e : Z) (tok : string) : Prop :=
  carried base /\ ascii_only f = true /\ ascii_only j = true /\ f <> ""%string /\ j <> ""%string /\
  SignedString (secret i) (refresh_token base f j e) = inr tok.
Definition grants (base : claims) (now : Z) (p : TokenPair) : Prop :=
  exists ja, ascii_only ja = true /\ SignedString (secret i) (access_token base ja ((now + accessTTL i) / Second)) = inr (AccessToken p).

Lemma mint_ok env base f a b s :
  carried base -> ascii_only f = true -> f <> ""%string -> set_net env = NetOk -> rand_access env = inr a -> rand_refresh env = inr b -> b <> ""%string ->
  exists p s', mint i env base f s = (inr p, s') /\ grants base (t_access env) p /\
    holds_token base f (hex_encode b) ((t_refresh env + refreshTTL i) / Second) (RefreshToken p) /\
    (forall t, t_set env <= t < t_set env + whole_ms (refreshTTL i) -> family_at s' t f = Some (hex_encode b)).
Proof.
  intros Hb Hf Hfne Hn Ha Hr Hbne. pose proof (newID_ascii (inr a) _ eq_refl) as Hja. pose proof (newID_ascii (inr b) _ eq_refl) as Hjr.
  unfold mint. rewrite Ha, Hr. cbn [newID]. unfold GenerateTokenWithExpiry. cbn [fst].
  destruct (Hsign _ (access_token_encodable base _ ((t_access env + accessTTL i) / Second) Hb Hja)) as [at_ Hat].
  destruct (Hsign _ (refresh_token_encodable base f _ ((t_refresh env + refreshTTL i) / Second) Hb Hf Hjr)) as [rt Hrt].
  pose proof Hat as Hat'. pose proof Hrt as Hrt'. unfold access_token in Hat'. unfold refresh_token in Hrt'. rewrite Hat', Hrt'.
  pose proof (setfamily_spec (set_net env) (t_set env) f (hex_encode b) (refreshTTL i) s) as Hs. destruct (SetFamily _ _ _ _ _ _) as [r s'].
  destruct Hs as (Hok & _ & _ & _ & _ & Hset). rewrite (Hok Hn) in *. eexists _, s'. split; [reflexivity|]. split_and!.
  - by exists (hex_encode a).
  - split_and!; try done. by destruct b.
  - intros t Ht. by apply Hset.
Qed.

Lemma parse_refresh now base f j e tok : holds_token base f j e tok -> now < e * Second -> parseValid now i tok = inr (json_claims (refresh_token base f j e)).
Proof.
  intros (Hb & Hf & Hj & _ & _ & Hs) Hnow. destruct (refresh_token_own base f j e) as (_ & _ & _ & Hexp & Hnbf & _).
  unfold parseValid. rewrite (validate_signed now _ _ _ Hs); [done|by apply refresh_token_encodable|]. split; [done|]. by rewrite Hexp.
Qed.

Lemma refresh_ok v base f j e tok s (base' := json_claims (refresh_token base f j e)) :
  works v -> holds_token base f j e tok -> t_parse v < e * Second -> family_at s (t_fam v) f = Some j ->
  exists p s' b, rand_refresh (mint_of v) = inr b /\ Refresh i v tok s = (inr p, s') /\ grants base' (t_access (mint_of v)) p /\
    holds_token base' f (hex_encode b) ((t_refresh (mint_of v) + refreshTTL i) / Second) (RefreshToken p) /\
    (forall t, Z.max (t_set (mint_of v)) (t_block v) <= t < t_set (mint_of v) + whole_ms (refreshTTL i) -> family_at s' t f = Some (hex_encode b)).
Proof.
  intros (Hn1 & Hn2 & (a & Ha) & b & Hr & Hbne) Htok Hexp Hfam. pose proof (parse_refresh _ _ _ _ _ _ Htok Hexp) as Hp.
  destruct Htok as (Hb & Hf & Hj & Hfne & Hjne & Hs). unfold Refresh. rewrite Hp. fold base'.
  destruct (refresh_token_own base f j e) as (Hty & Hfid & Hjti & _).
  assert (Hty' : claim_str base' "type" = "refresh"%string) by (by apply str_claim). assert (Hf' : claim_str base' "fid" = f) by (by apply str_claim).
  assert (Hj' : claim_str base' "jti" = j) by (by apply str_claim). rewrite Hty', Hf', Hj'. cbn [String.eqb negb].
  rewrite (proj2 (String.eqb_neq _ _) Hfne), (proj2 (String.eqb_neq _ _) Hjne). cbn [orb].
  destruct (family_spec (fam_net v) (t_fam v) f s) as [[Hres|[Hbad _]] Hsv]; [|by rewrite Hn1 in Hbad].
  change (String.eqb "refresh" "refresh") with true. cbn [negb].
  destruct (Family _ _ _ s) as [fr s1]. cbn [fst] in Hres. rewrite Hfam in Hres. subst fr. rewrite String.eqb_refl. cbn [negb].
  destruct (mint_ok (mint_of v) base' f a b s1) as (p & s2 & -> & Hg & Ht & Hlive); [by apply carried_again|done..|].
  eexists p, _, b. split; [done|]. split; [reflexivity|]. split_and!; [done|done|]. intros t Hlt. destruct (0 <? _); [rewrite block_same by lia|]; apply Hlive; lia.
Qed.

(** A token that was once good is refused when another is the active one of its family. *)
Lemma refresh_stale v base f j j' e tok s now :
  holds_token base f j e tok -> now < e * Second -> family_at s (t_fam v) f = Some j' -> j' <> j -> exists err, (Refresh i v tok s).1 = inl err.
Proof.
  intros Htok Hnow Hf Hne. destruct (parseValid (t_parse v) i tok) as [|c] eqn:Hp; [exists ErrInvalidToken; unfold Refresh; by rewrite Hp|].
  pose proof (parse_stable _ _ _ _ _ _ Hp (parse_refresh _ _ _ _ _ _ Htok Hnow)) as ->.
  destruct (refresh_token_own base f j e) as (_ & Hfid & Hjti & _). apply (refresh_refused i f v tok s _ Hp); [by apply str_claim|].
  rewrite (str_claim _ _ _ Hjti), Hf. congruence.
Qed.

(** Nobody has revoked the token: with a blocklist, the store answers and does not have its identifier blocked. *)
Definition unrevoked (opts : list (config -> config)) (n : net) (tp tb : Z) (tok : string) (s : S) : Prop :=
  blocklist (newConfig opts) = true -> n = NetOk /\ forall cl, parseValid tp i tok = inr cl -> blocked_at s tb (claim_str cl "jti") = false.

(** An access token that nobody revoked is accepted until it expires, as its subject's. *)
Lemma grants_access {Id E : Type} base now p : carried base -> grants base now p ->
  forall (c : ctx Id) opts tp n tb (s : S), header c "Authorization"%string = "Bearer " +:+ AccessToken p -> tp < (now + accessTTL i) / Second * Second ->
  unrevoked opts n tp tb (AccessToken p) s ->
  exists c', (RequireAuth (E := E) (secret i) opts tp n tb c s).1 = Next c' /\ Subject c' opts = claim_str base "sub".
Proof.
  intros Hb (ja & Hja & Hs) c opts tp n tb s Hh Htp Hun. destruct (access_token_own base ja ((now + accessTTL i) / Second)) as (Hty & Hexp & Hnbf & Hsub).
  pose proof (access_token_encodable base ja ((now + accessTTL i) / Second) Hb Hja) as Henc.
  revert Hty Hexp Hnbf Hsub Henc Hs. generalize (access_token base ja ((now + accessTTL i) / Second)). intros cl Hty Hexp Hnbf Hsub Henc Hs.
  pose proof (parse_signed tp i c _ _ _ Hh Hs Henc Hnbf Hexp) as Hparse. rewrite decide_True in Hparse by done.
  rewrite (str_claim _ _ _ Hty) in Hparse. change (String.eqb "access" "refresh") with false in Hparse. cbv iota in Hparse.
  assert (Hclear : (blocklisted n tb (newConfig opts) (json_claims cl) s).1 = inr false).
  { pose proof Hparse as Hv. rewrite parse_parseValid, (bearer_header c _ Hh (sign_nonempty _ _ _ Hs)) in Hv.
    destruct (String.eqb _ EmptyString); [done|]. destruct (parseValid tp i (AccessToken p)) as [|cl'] eqn:Hpv; [done|].
    destruct (String.eqb _ "refresh"); [done|]. injection Hv as ->.
    pose proof (blocklisted_revoked n tb (newConfig opts) (json_claims cl) s) as Hb'. unfold unrevoked, revoked in *.
    destruct (blocklisted n tb (newConfig opts) (json_claims cl) s) as [[e|[]] s']; cbn [fst] in *; [| |done].
    - destruct Hb' as (Hl & _ & Hn). by destruct (Hun Hl).
    - destruct Hb' as (Hl & _ & Hbl). destruct (Hun Hl) as [_ Hf]. by rewrite (Hf _ Hpv) in Hbl. }
  unfold RequireAuth. rewrite Hparse. destruct (blocklisted n tb (newConfig opts) (json_claims cl) s) as [r s']. cbn [fst] in Hclear. subst r.
  cbn. eexists. split; [reflexivity|]. unfold Subject, claim_of, Claims_, GetLocal, set_local. cbn [locals].
  rewrite lookup_insert_eq. unfold claim_str. rewrite json_claims_lookup, Hsub. cbn. by destruct (base !! "sub"%string) as [[]|].
Qed.

Lemma keep_ok rs : forall base f j e tok T H s,
  holds_token base f j e tok -> (forall t, T <= t < H -> family_at s t f = Some j) -> in_time T H e rs ->
  Forall (fun r => Forall (leaves f) r.1 /\ works r.2) rs ->
  exists ps s', keep rs tok s = (map inr ps, s') /\ length ps = length rs /\
    forall k r p, rs !! k = Some r -> ps !! k = Some p ->
      exists base', carried base' /\ claim_str base' "sub" = claim_str base "sub" /\ grants base' (t_access (mint_of r.2)) p.
Proof.
  induction rs as [|[ops v] rs IH]; intros base f j e tok T HH s Htok Hlive Htime Hall; [by exists [], s|].
  apply Forall_cons in Hall as [[Hl Hw] Hall]. cbn [fst snd] in *. destruct Htime as (_ & Hfam & Hexp & Htime). cbn [keep].
  assert (Hf : family_at (run_ops i ops s) (t_fam v) f = Some j).
  { pose proof (ops_end_ge T ops). rewrite (run_ops_same f T ops s Hl) by lia. apply Hlive. lia. }
  destruct (refresh_ok v base f j e tok (run_ops i ops s) Hw Htok Hexp Hf) as (p & s1 & b & _ & -> & Hg & Htok' & Hlive').
  destruct (IH _ f (hex_encode b) _ (RefreshToken p) _ _ s1 Htok' Hlive' Htime Hall) as (ps & s' & -> & Hlen & Hps).
  destruct Htok as (Hb & _). exists (p :: ps), s'. split_and!; [done|by cbn; rewrite Hlen|]. intros [|k] r q Hk Hq.
  - injection Hk as <-. injection Hq as <-. exists (json_claims (refresh_token base f j e)). split_and!; [by apply carried_again|by apply same_subject|done].
  - destruct (Hps k r q Hk Hq) as (base' & H1' & H2' & H3'). exists base'. split_and!; [done| |done]. by rewrite H2', same_subject.
Qed.

(** (C4) A session lasts as long as its client keeps it. On a working store and random source a login succeeds when
    its claims have a subject and are such as JSON brings back ([carried]: subject, email, scopes, team and role are
    text, flags or lists of them). Then every refresh with the newest token, made before that token expires and the
    store forgets the family ([in_time]), returns a new pair, whatever else is done to the issuer in between except
    using a refresh token of this family or drawing its identifier again ([leaves]), and even when blocking the old
    tokens fails. The access token of the login and that of every refresh is accepted until its expiry, as the
    subject of the login, by [RequireAuth] with any options, unless it is itself revoked ([unrevoked]). *)
Theorem session_survives {Id E : Type} (b : string) (env : mint_env) (cl : claims) (s : S) (rs : list round) (f := hex_encode b) :
  carried cl -> claim_str cl "sub" <> ""%string -> b <> ""%string -> set_net env = NetOk ->
  (exists a, rand_access env = inr a) -> (exists r, rand_refresh env = inr r /\ r <> ""%string) ->
  in_time (t_set env) (t_set env + whole_ms (refreshTTL i)) ((t_refresh env + refreshTTL i) / Second) rs ->
  Forall (fun r => Forall (leaves f) r.1 /\ works r.2) rs ->
  exists p0 s0 ps s', Issue i (inr b) env cl s = (inr p0, s0) /\ keep rs (RefreshToken p0) s0 = (map inr ps, s') /\ length ps = length rs /\
    forall k now p, (t_access env :: map (fun r => t_access (mint_of r.2)) rs) !! k = Some now -> (p0 :: ps) !! k = Some p ->
      forall (c : ctx Id) opts tp n tb (s : S), header c "Authorization"%string = "Bearer " +:+ AccessToken p ->
        tp < (now + accessTTL i) / Second * Second -> unrevoked opts n tp tb (AccessToken p) s ->
        exists c', (RequireAuth (E := E) (secret i) opts tp n tb c s).1 = Next c' /\ Subject c' opts = claim_str cl "sub".
Proof.
  intros Hc Hsub Hb Hn (a & Ha) (r & Hr & Hrne) Htime Hall. pose proof (newID_ascii (inr b) _ eq_refl) as Hf.
  destruct (mint_ok env cl f a r s) as (p0 & s0 & Hm & Hg0 & Htok & Hlive); [done|done|by destruct b|done..|].
  destruct (keep_ok rs cl f _ _ _ _ _ s0 Htok Hlive Htime Hall) as (ps & s' & Hk & Hlen & Hps).
  exists p0, s0, ps, s'. split_and!; [|done|done|].
  - unfold Issue. by rewrite (proj2 (String.eqb_neq _ _) Hsub).
  - intros [|k] now p Hnow Hp c opts tp n tb s2 Hh Htp Hun.
    + injection Hnow as <-. injection Hp as <-. eapply grants_access; eauto.
    + cbn in Hnow, Hp. apply list_lookup_fmap_Some in Hnow as (rd & -> & Hrd).
      destruct (Hps k rd p Hrd Hp) as (base & Hb' & <- & Hg). eapply grants_access; eauto.
Qed.
End Life.

(** ** A session of two refreshes beside another login and a logout without tokens *)

Import ToyJwt MemoryStore.

Definition two_rounds : list round :=
  [([OIssue (inr "G"%string) (menv "x" "y" Second) login; OLogout (lenv (2 * Second)) "" ""], renv "c" "d" (3 * Second)); ([], renv "e" "f" (60 * Second))].

(** Both refreshes succeed, and a route guarded with the blocklist accepts the login's token. *)
Lemma session_survives_witness :
  exists p0 s0 p1 p2 s', Issue iss (inr "F"%string) (menv "a" "b" 0) login NewMemoryStore = (inr p0, s0) /\
    keep iss two_rounds (RefreshToken p0) s0 = ([inr p1; inr p2], s') /\
    exists c', (RequireAuth (E := unit) "k" [WithBlocklist] Second NetOk Second (ctx_with (AccessToken p0)) s0).1 = Next c' /\
      Subject c' [WithBlocklist] = "7"%string.
Proof.
  destruct (session_survives (Id := unit) (E := unit) iss ltac:(intros c _; by eexists) "F" (menv "a" "b" 0) login NewMemoryStore two_rounds)
    as (p0 & s0 & ps & s' & H1 & H2 & H3 & H4).
  - intros k v _ Hv. unfold login in Hv. apply lookup_insert_Some in Hv as [[_ <-]|[_ [_ <-]%lookup_singleton_Some]]; reflexivity.
  - discriminate.
  - discriminate.
  - reflexivity.
  - by eexists.
  - eexists. split; [reflexivity|discriminate].
  - cbn. repeat split; vm_compute; try discriminate; repeat constructor; discriminate.
  - repeat constructor; try (vm_compute; discriminate); try done; try (by eexists); eexists; (split; [reflexivity|discriminate]).
  - destruct ps as [|p1 [|p2 []]]; try discriminate. exists p0, s0, p1, p2, s'. split; [exact H1|]. split; [exact H2|].
    apply (H4 0%nat 0 p0 eq_refl eq_refl (ctx_with (AccessToken p0)) [WithBlocklist] Second NetOk Second s0); [reflexivity|reflexivity|].
    intros _. split; [reflexivity|]. intros cl _.
    assert (Hs0 : s0 = (Issue iss (inr "F"%string) (menv "a" "b" 0) login NewMemoryStore).2) by (by rewrite H1).
    rewrite Hs0. reflexivity.
Defined.
