(* ===== verification/ExampleAuth.v ===== *)
(** * Passwords, and the session demo (auth/auth.go, examples/auth/main.go)

    [Hash] and [Compare] over an interface of bcrypt, and the demo program: it prints what it does
    to a password, an issued pair, its rotation, the reuse of the old token, and a logout. *)

From S2P Require Import Prelude GoStrings Fiber GoJson Jwt TokenStore Auth SessionLife.
Open Scope Z_scope.

(** golang.org/x/crypto/bcrypt; the salt is what the random source gives. *)
Class Bcrypt := {
  GenerateFromPassword : error + string -> string -> Z -> error + string;
  CompareHashAndPassword : string -> string -> option error }.
Class BcryptLaws `{Bcrypt} := {
  (** passwords of more than 72 bytes are refused *)
  too_long salt pw cost : (72 < String.length pw)%nat -> exists err, GenerateFromPassword salt pw cost = inl err;
  compare_own salt pw cost h : GenerateFromPassword salt pw cost = inr h -> CompareHashAndPassword h pw = None }.

Definition DefaultCost : Z := 10.

Section Demo.
  Context `{HB : Bcrypt} `{HJ : JwtLib} {S : Type} `{HT : TokenStore S}.

Definition Hash (salt : error + string) (password : string) : error + string :=
  match GenerateFromPassword salt password DefaultCost with inl err => inl err | inr b => inr b end.
Definition Compare (hash password : string) : option error := CompareHashAndPassword hash password.

Definition bool_line (label : string) (b : bool) : string := label +:+ (if b then " true" else " false").
Definition is_nil (e : option error) : bool := match e with None => true | Some _ => false end.
Definition failed {A} (r : error + A) : bool := match r with inl _ => true | inr _ => false end.

Definition demo_issuer : Issuer := NewIssuer "replace-with-a-real-secret" [WithAccessTTL (15 * Minute); WithRefreshTTL (24 * 60 * Minute)].
Definition demo_login : claims := {["sub"%string := AStr "user-1"; "role"%string := AStr "admin"]}.

(** What the run meets: the salt, the family's identifier, and the calls of the four requests. *)
Record demo_env := DemoEnv {
  salt : error + string; fid_bytes : error + string; e_issue : mint_env; e_refresh : refresh_env; e_reuse : refresh_env; e_logout : logout_env }.

(** The lines printed, and the error of a panic. *)
Definition main (v : demo_env) (s : S) : list string * option error :=
  match Hash (salt v) "s3cret-password" with
  | inl err => ([], Some err)
  | inr hash =>
      let l1 := [bool_line "password matches:" (is_nil (Compare hash "s3cret-password")); bool_line "wrong password:" (is_nil (Compare hash "nope"))] in
      match Issue demo_issuer (fid_bytes v) (e_issue v) demo_login s with
      | (inl err, _) => (l1, Some err)
      | (inr tp, s) =>
          let l2 := l1 ++ ["access token lifetime (s): " +:+ itoa (ExpiresIn tp)] in
          match Refresh demo_issuer (e_refresh v) (RefreshToken tp) s with
          | (inl err, _) => (l2, Some err)
          | (inr rotated, s) =>
              let l3 := l2 ++ [bool_line "token rotated:" (negb (String.eqb (AccessToken rotated) (AccessToken tp)))] in
              let '(r, s) := Refresh demo_issuer (e_reuse v) (RefreshToken tp) s in
              let l4 := l3 ++ [bool_line "reuse rejected:" (failed r)] in
              match Logout demo_issuer (e_logout v) (AccessToken rotated) (RefreshToken rotated) s with
              | (Some err, _) => (l4, Some err)
              | (None, _) => (l4 ++ ["logged out"%string], None)
              end
          end
      end
  end.

(** A password longer than 72 bytes is not hashed, and one's own password compares as equal. *)
Lemma Hash_long `{!BcryptLaws} st pw : (72 < String.length pw)%nat -> exists err, Hash st pw = inl err.
Proof. intros Hl. destruct (too_long st pw DefaultCost Hl) as [err He]. exists err. unfold Hash. by rewrite He. Qed.
Lemma Hash_Compare `{!BcryptLaws} st pw h : Hash st pw = inr h -> Compare h pw = None.
Proof. unfold Hash. destruct (GenerateFromPassword st pw DefaultCost) as [|b] eqn:Hb; [done|]. intros [= <-]. by eapply compare_own. Qed.

Lemma Logout_ok i env a r (s : S) `{!TokenStoreLaws S} : block_net_a env = NetOk -> revoke_net_r env = NetOk -> (Logout i env a r s).1 = None.
Proof.
  intros Hb Hr. unfold Logout. assert (Ha : (logout_access i env a s).1 = None).
  { unfold logout_access. destruct (String.eqb _ _); [done|]. destruct (parseValid _ _ _); [done|]. cbv zeta. destruct (String.eqb _ _); [done|].
    destruct (0 <? _); [|done]. by apply block_spec. }
  destruct (logout_access i env a s) as [e1 s1]. cbn [fst] in Ha. subst e1. assert (Hl : (logout_refresh i env r s1).1 = None).
  { unfold logout_refresh. destruct (String.eqb _ _); [done|]. destruct (parseValid _ _ _) as [|c]; [done|]. cbv zeta. destruct (String.eqb _ _); [done|].
    pose proof (revoke_spec (revoke_net_r env) (t_revoke_r env) (claim_str c "fid") s1) as Hs. destruct (RevokeFamily _ _ _ _). by apply Hs. }
  destruct (logout_refresh i env r s1). cbn [fst] in Hl. by subst.
Qed.

(** The environment of a run in which nothing fails and each step comes in time, with fresh identifiers. *)
Record smooth (v : demo_env) : Prop := {
  hashes : exists h, Hash (salt v) "s3cret-password" = inr h;
  has_family : exists b, fid_bytes v = inr b /\ b <> ""%string;
  issues : set_net (e_issue v) = NetOk /\ exists a, rand_access (e_issue v) = inr a;
  refreshes : works (e_refresh v);
  fresh : exists r r', rand_refresh (e_issue v) = inr r /\ rand_refresh (mint_of (e_refresh v)) = inr r' /\ r <> ""%string /\ hex_encode r <> hex_encode r';
  refresh_in_time : t_set (e_issue v) <= t_fam (e_refresh v) < t_set (e_issue v) + whole_ms (refreshTTL demo_issuer) /\
    t_parse (e_refresh v) < (t_refresh (e_issue v) + refreshTTL demo_issuer) / Second * Second;
  reuse_in_time : Z.max (t_set (mint_of (e_refresh v))) (t_block (e_refresh v)) <= t_fam (e_reuse v)
    < t_set (mint_of (e_refresh v)) + whole_ms (refreshTTL demo_issuer);
  logs_out : block_net_a (e_logout v) = NetOk /\ revoke_net_r (e_logout v) = NetOk }.

Lemma demo_carried : carried demo_login.
Proof. intros k v _ Hv. unfold demo_login in Hv. apply lookup_insert_Some in Hv as [[_ <-]|[_ [_ <-]%lookup_singleton_Some]]; reflexivity. Qed.

(** The demo runs to its end and prints that the password matches, the lifetime of a quarter of an hour, that the reused token
    was rejected, and the logout. *)
Theorem demo_runs `{!BcryptLaws, !JwtLaws, !TokenStoreLaws S} (v : demo_env) (s : S) :
  (forall c, claims_encodable c -> exists tok, SignedString (secret demo_issuer) c = inr tok) -> smooth v ->
  exists wrong rotated, main v s =
    (["password matches: true"; bool_line "wrong password:" wrong; "access token lifetime (s): 900"; bool_line "token rotated:" rotated;
      "reuse rejected: true"; "logged out"]%string, None).
Proof.
  intros Hsign [[h Hh] (b & Hb & Hbne) [Hset [a Ha]] Hworks (r & r' & Hr & Hr' & Hrne & Hfresh) [Hfam Hexp] Hreuse [Hl1 Hl2]].
  unfold main. rewrite Hh. pose proof (Hash_Compare _ _ _ Hh) as ->. rewrite Hb.
  assert (Hf : ascii_only (hex_encode b) = true) by (by apply (newID_ascii (inr b))).
  destruct (mint_ok demo_issuer Hsign (e_issue v) demo_login (hex_encode b) a r s demo_carried Hf ltac:(by destruct b) Hset Ha Hr Hrne)
    as (tp & s1 & Hm & _ & Htok & Hlive).
  assert (Hi : Issue demo_issuer (inr b) (e_issue v) demo_login s = (inr tp, s1)) by exact Hm. rewrite Hi.
  destruct (refresh_ok demo_issuer Hsign (e_refresh v) demo_login (hex_encode b) _ _ _ s1 Hworks Htok ltac:(lia) ltac:(apply Hlive; lia))
    as (tp' & s2 & b' & Hb' & Href & _ & _ & Hlive'). rewrite Href. assert (b' = r') as -> by congruence.
  destruct (refresh_stale demo_issuer (e_reuse v) _ _ _ _ _ _ s2 (t_parse (e_refresh v)) Htok ltac:(lia) (Hlive' (t_fam (e_reuse v)) ltac:(lia)) ltac:(congruence)) as [err Hfail].
  destruct (Refresh demo_issuer (e_reuse v) (RefreshToken tp) s2) as [res s3]. cbn [fst] in Hfail. subst res. cbn [failed].
  pose proof (Logout_ok demo_issuer (e_logout v) (AccessToken tp') (RefreshToken tp') s3 Hl1 Hl2) as Hout.
  destruct (Logout _ _ _ _ s3) as [err' s4]. cbn [fst] in Hout. subst err'.
  assert (Hexpires : ExpiresIn tp = 900).
  { revert Hm. unfold mint. destruct (newID _); [done|]. destruct (newID _); [done|]. destruct (GenerateTokenWithExpiry (t_access _) _ _ _).1; [done|].
    destruct (GenerateTokenWithExpiry (t_refresh _) _ _ _).1; [done|]. destruct (SetFamily _ _ _ _ _ _) as [[]]; [done|]. by intros [= <- _]. }
  rewrite Hexpires. eexists _, _. reflexivity.
Qed.
End Demo.

(** ** A run on the memory store *)

Import (hints) ToyJwt MemoryStore.

Module PlainText.
#[export] Instance plain_bcrypt : Bcrypt := {
  GenerateFromPassword salt pw _ := if (72 <? String.length pw)%nat then inl (Err "bcrypt: password length exceeds 72 bytes") else match salt with inl err => inl err | inr s => inr (s +:+ pw) end;
  CompareHashAndPassword h pw := if String.eqb (String.substring (String.length h - String.length pw) (String.length pw) h) pw then None
    else Some (Err "bcrypt: hashedPassword is not the hash of the given password") }.

Lemma substring_all (s : string) : String.substring 0 (String.length s) s = s.
Proof. induction s as [|c s IH]; [done|]. cbn. by rewrite IH. Qed.
Lemma substring_end (p s : string) : String.substring (String.length (p +:+ s) - String.length s) (String.length s) (p +:+ s) = s.
Proof.
  induction p as [|c p IH]; [change ("" +:+ s) with s; rewrite Nat.sub_diag; apply substring_all|].
  change (String.length (String c p +:+ s)) with (Datatypes.S (String.length (p +:+ s))). rewrite Nat.sub_succ_l; [exact IH|].
  clear. induction p as [|c p IH]; [done|]. change (String.length s <= Datatypes.S (String.length (p +:+ s)))%nat. lia.
Qed.
#[export] Instance plain_laws : BcryptLaws.
Proof.
  split; unfold GenerateFromPassword, CompareHashAndPassword, plain_bcrypt.
  - intros st pw _ Hl. rewrite (proj2 (Nat.ltb_lt _ _) Hl). by eexists.
  - intros st pw _ h. destruct (72 <? String.length pw)%nat; [done|]. destruct st as [|s]; [done|]. intros [= <-]. by rewrite substring_end, String.eqb_refl.
Qed.
End PlainText.
Import (hints) PlainText.

Definition a_run : demo_env :=
  DemoEnv (inr "$2a$10$"%string) (inr "F"%string) (menv "a" "b" 0) (renv "c" "d" Second) (renv "e" "f" (2 * Second)) (lenv (3 * Second)).

Example demo_prints : main a_run MemoryStore.NewMemoryStore =
  (["password matches: true"; "wrong password: false"; "access token lifetime (s): 900"; "token rotated: true"; "reuse rejected: true"; "logged out"]%string, None).
Proof. vm_compute. reflexivity. Qed.
