(* ===== verification/ExampleApps.v ===== *)
(** * The small examples (examples/main.go, examples/mailer/main.go, examples/queue/main.go)

    Three programs of one package or two each: a greeting behind [bootstrap.New], a rendered message
    through the in-memory sender, and a job from its enqueueing to its handler. *)

From S2P Require Import Prelude GoStrings Fiber GoJson ApiError Health Server Bootstrap.
From S2P Require Database Config Mailer RedisClient Jobs.
Open Scope Z_scope.

(** ** examples/main.go *)

Module Greeting.
Definition Config_fields : list (Config.field * Config.value) :=
  [(Config.MkField "DATABASE_URL" (Some "file::memory:?cache=shared"%string) "" true Config.KString, Config.VString "")].
Definition DatabaseURL (t : Config.target) : string :=
  match t with Config.PtrStruct [(_, Config.VString s)] => s | _ => "" end.

Definition options (ping : outcome) : Options :=
  MkOptions 0 true true 100 false false false false false false [] None [Check "db" ping] None false "" "" None.
Definition hello : handler := fun c =>
  let r := SendSuccess (AStr "Hello, World!") "Welcome" [] in (ROk, send (http_status r) (BEnvelope (Fiber.body r)) c).
Definition app (T : third_party) (ping : outcome) : App := add_regs [RRoute "GET" "/" hello] (Bootstrap.New T (options ping)).

(** [main] up to [Run]; an error panics, as does a panicking load (which no field of this struct allows). *)
Definition main (src : Config.source) (sqlite_open : string -> option error) (ping : Database.dialectKind -> string -> Z -> option error)
    (T : third_party) (ping_later : outcome) : error + App :=
  match Config.LoadConfig src (Config.PtrStruct Config_fields) with
  | (Config.Returns (Some err), _) => inl err
  | (Config.Panicked, _) => inl (Err "reflect.Set")
  | (Config.Returns None, cfg) =>
      match (Database.NewBun sqlite_open ping (DatabaseURL cfg) []).1 with
      | inl err => inl err
      | inr _ => inr (app T ping_later)
      end
  end.

(** Without settings and with a database that answers, the program opens the SQLite database in memory and serves. *)
Lemma starts wd_env sqlite_open ping T later :
  sqlite_open "file::memory:?cache=shared"%string = None -> ping Database.dialectSQLite "file::memory:?cache=shared"%string (5 * Second) = None ->
  main (Config.MkSource None wd_env (fun _ => ""%string)) sqlite_open ping T later =
    match wd_env with Some (e, false) => inl (Wrap "error loading .env file" [e]) | _ => inr (app T later) end.
Proof.
  intros Ho Hp. unfold main, Config.LoadConfig. cbn [Config.wd Config.dotenv].
  assert (Hl : Config.load_fields (Config.MkSource None wd_env (fun _ => ""%string)) Config_fields = (Some ([], []), [Config.VString "file::memory:?cache=shared"])) by reflexivity.
  rewrite Hl. unfold Database.NewBun. destruct wd_env as [[e []]|]; cbn; try done; by rewrite Ho, Hp.
Qed.

Lemma app_regs (T : third_party) (ping : outcome) : regs (app T ping) =
  [RUse Recover; RUse ContextMiddleware; RUse RequestLogger; RRoute "GET" "/livez" livez_handler; RRoute "GET" "/readyz" readyz_handler;
   RUse (cors T); RUse (limiter T 100); RRoute "GET" "/" hello].
Proof. reflexivity. Qed.

Section Greets.
  Context (matches : string -> string -> cx -> bool) (prefixes : string -> cx -> bool).

(** The routes behind the middlewares, on a request that only the greeting matches. *)
Lemma reaches_hello T c0 c : cors T = (fun next => next) -> limiter T 100 = (fun next => next) -> same_request c0 c ->
  (forall c', same_request c0 c' -> matches "GET" "/livez" c' = false /\ matches "GET" "/readyz" c' = false /\ matches "GET" "/" c' = true) ->
  serve matches prefixes [RRoute "GET" "/livez" livez_handler; RRoute "GET" "/readyz" readyz_handler; RUse (cors T); RUse (limiter T 100); RRoute "GET" "/" hello] c
  = hello (set_route "/" (set_route "/" (set_route "/" c))).
Proof.
  intros Hcors Hlim Hc Hm. cbn [serve]. rewrite Hcors, Hlim. destruct (Hm c Hc) as (-> & -> & _).
  destruct (Hm (set_route "/" (set_route "/" c)) Hc) as (_ & _ & ->). done.
Qed.

(** A GET of the root is answered with the greeting and the request's identifier, and logged, when the layers of other packages pass it on. *)
Theorem greets (T : third_party) (ping : outcome) (c : cx) :
  cors T = (fun next => next) -> limiter T 100 = (fun next => next) -> requestid c = None ->
  (forall c', same_request c c' -> matches "GET" "/livez" c' = false /\ matches "GET" "/readyz" c' = false /\ matches "GET" "/" c' = true) ->
  exists c', handle matches prefixes (app T ping) c = Some c' /\
    (status_code c', sent c') = (200, BEnvelope (MkResponse 200 "Welcome" "" (AStr "Hello, World!") "success")) /\
    In ("X-Request-ID"%string, fresh_uuid c) (response_headers c') /\ logs c' = logs c ++ [LogRequest (method c) (path c) 200 (fresh_uuid c)].
Proof.
  intros Hcors Hlim Hid Hm. unfold handle, arrive. rewrite app_regs. set (c0 := Cx _ _ _ _ _ _ _ _ _ _ _ _ _).
  assert (Hs : same_request c c0) by done. assert (H0 : requestid c0 = None /\ fresh_uuid c0 = fresh_uuid c /\ method c0 = method c /\ path c0 = path c /\ logs c0 = logs c) by done.
  clearbody c0. destruct H0 as (Hid0 & Hu & Hme & Hpa & Hlo).
  set (rest := [RRoute "GET" "/livez" livez_handler; _; _; _; _]).
  change (serve matches prefixes (RUse Recover :: RUse ContextMiddleware :: RUse RequestLogger :: rest) c0) with
    (Recover (fun c => ContextMiddleware (fun c => RequestLogger (serve matches prefixes rest) (set_route "/" c)) (set_route "/" c)) (set_route "/" c0)).
  unfold Recover, ContextMiddleware. cbn [set_route requestid]. rewrite Hid0. cbn [fresh_uuid set_route]. unfold RequestLogger.
  match goal with |- context [serve matches prefixes rest ?d] => set (c1 := d) end.
  assert (H1 : same_request c c1) by exact Hs.
  unfold rest. rewrite (reaches_hello T c c1 Hcors Hlim H1 Hm). eexists. split; [reflexivity|]. subst c1.
  cbn [hello log send set_route set_header set_requestid status_code sent response_headers logs fst snd method path requestid GetRequestID]. rewrite Hu, Hme, Hpa, Hlo.
  split_and!; [done|by left|done].
Qed.
End Greets.
End Greeting.

(** ** examples/mailer/main.go *)

Module Welcome.
Definition htmlTmpl : string := "<h1>Welcome, {{.Name}}!</h1><p>Thanks for joining {{.App}}.</p>".
Definition textTmpl : string := "Welcome, {{.Name}}! Thanks for joining {{.App}}.".
Definition data : any := AObj [("Name", AStr "Ada"); ("App", AStr "fibr")].
Definition message (html text : string) : Mailer.Message := Mailer.MkMessage ["ada@example.com"%string] "Welcome aboard" html text.

(** What is printed of a message; a list of strings is printed in brackets. *)
Definition lines_of (m : Mailer.Message) : list string :=
  ["sent to: [" +:+ (join " " (Mailer.To m) +:+ "]"); "subject: " +:+ Mailer.Subject m; "text: " +:+ Mailer.Text m].

Section Main.
  Context {Html Txt : Type} (parse_html : string -> error + Html) (exec_html : Html -> any -> error + string)
    (parse_text : string -> error + Txt) (exec_text : Txt -> any -> error + string).

Definition main : error + list string :=
  match Mailer.Render parse_html exec_html parse_text exec_text htmlTmpl textTmpl data with
  | inl err => inl err
  | inr (html, text) =>
      match Mailer.memory_Send (message html text) (Mailer.MkMemory []) with
      | (Some err, _) => inl err
      | (None, sender) => inr (concat (map lines_of (Mailer.Messages sender)))
      end
  end.

(** The text printed is what the template engine makes of the text template; the program stops only on an error of the engines. *)
Lemma prints_the_text ht tt html text : parse_html htmlTmpl = inr ht -> exec_html ht data = inr html -> parse_text textTmpl = inr tt -> exec_text tt data = inr text ->
  main = inr ["sent to: [ada@example.com]"; "subject: Welcome aboard"; "text: " +:+ text]%string.
Proof. intros H1 H2 H3 H4. unfold main, Mailer.Render. by rewrite H1, H2, H3, H4. Qed.
End Main.
End Welcome.

(** ** examples/queue/main.go *)

Module Queue.
Import RedisClient Jobs.

Record WelcomePayload := MkPayload { UserID : Z; Email : string }.
Definition taskWelcomeEmail : string := "email:welcome".

(** What encoding/json does with the struct, by its tags. *)
Definition field (k : string) (l : list (string * any)) : option any := snd <$> head (filter (fun kv => kv.1 = k) l).
#[export] Instance payload_codec : Codec WelcomePayload := {
  Marshal p := inr (marshal (AObj [("user_id", AInt (UserID p)); ("email", AStr (Email p))]%string));
  Unmarshal s := match unmarshal s with
                 | Some (AObj l) => match field "user_id" l, field "email" l with
                                    | Some (AFloat u), Some (AStr e) => Some (MkPayload u e)
                                    | _, _ => None
                                    end
                 | _ => None
                 end;
  is_nil _ := false }.

Definition payload : WelcomePayload := MkPayload 1 "ada@example.com".
Definition send_line (p : WelcomePayload) : string := "sending welcome email to user " +:+ (itoa (UserID p) +:+ (" at " +:+ Email p)).

(** The log is the state of the handlers. *)
Definition send (p : WelcomePayload) (log : list string) : option error * list string := (None, log ++ [send_line p]).

Section Main.
  Context {Opt Conn Queue Mux Sched Info : Type} `{HA : Asynq (list string) Opt Conn Queue Mux Sched Info}.

(** The producer's part; [connect] is the client on the queues of a connection. *)
Definition produce (n : net) (redis_url : string) (connect : Conn -> Queue) : error + Queue :=
  match RedisConnOpt (if String.eqb redis_url "" then "redis://localhost:6379" else redis_url) with
  | inl err => inl (Wrap "redis: " [err])
  | inr opt =>
      match Enqueue n taskWelcomeEmail payload [] (connect opt) with
      | (inl err, _) => inl (Wrap "enqueue: " [err])
      | (inr _, q) => inr q
      end
  end.
(** The worker's mux; registering twice would panic. *)
Definition consumer : option Mux := Handle NewServeMux taskWelcomeEmail send.

(** What the producer enqueued is the job the worker runs, once, with the payload that was put in. *)
Lemma job_runs `{HL : !AsynqLaws (list string) Opt Conn Queue Mux Sched Info} n url connect q m log :
  produce n url connect = inr q -> consumer = Some m ->
  exists opt t, RedisConnOpt (if String.eqb url "" then "redis://localhost:6379"%string else url) = inr opt /\ tasks q = tasks (connect opt) ++ [t] /\
    work m t log = (None, log ++ ["sending welcome email to user 1 at ada@example.com"%string]).
Proof.
  unfold produce. destruct (RedisConnOpt _) as [|opt]; [done|]. destruct (Enqueue _ _ _ _ _) as [[err|info] q'] eqn:He; [done|]. intros [= <-] Hm.
  assert (Hd : exists b, Marshal payload = inr b /\ Unmarshal (V := WelcomePayload) b = Some payload) by (eexists; split; [reflexivity|vm_compute; reflexivity]).
  destruct Hd as (b & Hb & Hu).
  destruct (job_delivered n taskWelcomeEmail payload b [] (connect opt) info q' send NewServeMux m log Hb He Hm) as (t & Ht & _ & Hw).
  rewrite Hu in Hw. exists opt, (t, []). by split_and!.
Qed.
End Main.
End Queue.
