(* ===== verification/Transactional.v ===== *)
(** * Business transactions, outbox, broker and inbox together

    The pattern the two packages are for: a transaction changes the business data and enqueues an
    event; relays, a broker and a consumer do the rest, all at once and with any call failing. A
    system of these steps is followed from its start: what was committed, what is on its way, and
    what the consumer has applied fit together at every moment. *)

From S2P Require Import Prelude RedisServer Lock Outbox Inbox OutboxRun Delivery.
Open Scope Z_scope.

(** bun's [RunInTx] over the business data and the outbox table: an error of the body rolls back, and a failing COMMIT
    may or may not have committed. *)
Class Tx (X : Type) := run_in_tx : net -> (X -> option error * X) -> X -> option error * X.
Class TxSafe (X : Type) `{Tx X} := {
  rolls_back n body x err : (body x).1 = Some err -> exists err', run_in_tx n body x = (Some err', x);
  commits n body x : (body x).1 = None ->
    run_in_tx n body x = (None, (body x).2) \/ exists err, run_in_tx n body x = (Some err, x) \/ run_in_tx n body x = (Some err, (body x).2) }.

(** The table's identifiers come from a sequence that only goes forward ([autoincrement]); [serial] bounds those given
    out so far. *)
Class Serial (D : Type) `{OutboxDB D} := serial : D -> Z.
Class SerialLaws (D : Type) `{Serial D} := {
  serial_pending d e : e ∈ pending d -> ID e < serial d;
  serial_mark d id now : serial (db_mark id now d) = serial d;
  serial_insert d t b now id : pending (db_insert t b now d) = pending d ++ [MkEvent id t b now] ->
    serial d <= id < serial (db_insert t b now d) }.

(** What a request does to the business data [B], and the event that tells of it. *)
Record order {B : Type} := Order { change : B -> option error * B; topic : string; encoded : error + string }.
Arguments order B : clear implicits.
Arguments Order {B} change topic encoded.

Definition msg_of {B} (o : order B) : option msg := match encoded o with inr b => Some (topic o, b) | inl _ => None end.

Lemma nodup_map_inj {X Y} (f : X -> Y) (l : list X) (a b : X) : NoDup (map f l) -> a ∈ l -> b ∈ l -> f a = f b -> a = b.
Proof.
  intros Hnd [i Hi]%list_elem_of_lookup [j Hj]%list_elem_of_lookup Heq. assert (i = j) as ->; [|congruence].
  eapply (NoDup_lookup (map f l)); [done|by rewrite list_lookup_fmap, Hi|by rewrite list_lookup_fmap, Hj, Heq].
Qed.

Section System.
  Context {B D P E A : Type} `{HO : OutboxDB D} `{HP : Publisher P} `{HI : TxDB E A} `{HX : Tx (B * D)}.
  Context (idOf : msg -> string) (handler : msg -> A -> option error * A).

(** The body of the transaction, as README.md writes it: the change, then [outbox.Enqueue] on the same transaction. *)
Definition place (n : net) (now : Z) (o : order B) (x : B * D) : option error * (B * D) :=
  let '(err, b) := change o x.1 in
  match err with
  | Some err => (Some err, (b, x.2))
  | None => let '(err, d) := Enqueue n (topic o) (encoded o) now x.2 in (err, (b, d))
  end.

(** *** A relay, call by call

    Where a relay is in [process]: between two calls ([Idle] with what the last one returned), about to publish the head of
    its own copy of the batch, or about to mark the event it has just published; [n] is its count. *)
Inductive at_ := Idle (last : nat * option error) | Publishing (n : nat) (batch : list Event) | Marking (n : nat) (e : Event) (rest : list Event).

(** One call of [process]: the query, a publication or a mark; [f] and [now] are the call's fate and the clock. *)
Definition relay_step (r : Relay) (f : net) (now : Z) (q : at_) (d : D) (p : P) : at_ * (D * P) :=
  match q with
  | Idle _ =>
      match call f (fun d => (take (Z.to_nat (batchSize r)) (pending d), d)) d with
      | (inl err, d) => (Idle (O, Some (Wrap "outbox: load pending: " [err])), (d, p))
      | (inr events, d) => (Publishing 0 events, (d, p))
      end
  | Publishing n [] => (Idle (n, None), (d, p))
  | Publishing n (e :: rest) =>
      match Publish (Topic e) (Payload e) p with
      | (Some err, p) => (Idle (n, Some (Wrap "outbox: publish event" [err])), (d, p))
      | (None, p) => (Marking n e rest, (d, p))
      end
  | Marking n e rest =>
      match call f (fun d => (tt, db_mark (ID e) now d)) d with
      | (inl err, d) => (Idle (n, Some (Wrap "outbox: mark event published" [err])), (d, p))
      | (inr _, d) => (Publishing (Datatypes.S n) rest, (d, p))
      end
  end.

(** A relay alone, one call per element. *)
Fixpoint relay_run (r : Relay) (fs : list (net * Z)) (q : at_) (d : D) (p : P) : at_ * (D * P) :=
  match fs with
  | [] => (q, (d, p))
  | (f, now) :: fs => let '(q, (d, p)) := relay_step r f now q d p in relay_run r fs q d p
  end.

(** [log] is what was asked so far and whether the answer was nil; [relays] the relays that have run, by number. *)
Record system := Sys { business : B; table : D; channel : P; consumer : E; log : list (order B * bool); relays : gmap nat at_ }.

Definition relay_at (i : nat) (x : system) : at_ := default (Idle (O, None)) (relays x !! i).

Inductive step : system -> system -> Prop :=
| step_order n ni now (o : order B) x r bd : run_in_tx n (place ni now o) (business x, table x) = (r, bd) ->
    step x (Sys bd.1 bd.2 (channel x) (consumer x) (log x ++ [(o, match r with None => true | Some _ => false end)]) (relays x))
| step_relay (i : nat) (r : Relay) f now x q d p : relay_step r f now (relay_at i x) (table x) (channel x) = (q, (d, p)) ->
    step x (Sys (business x) d p (consumer x) (log x) (<[i := q]> (relays x)))
| step_delivery f m x : m ∈ carried (channel x) ->
    step x (Sys (business x) (table x) (channel x) (receive idOf handler f m (consumer x)).2 (log x) (relays x)).

(** Changes in order, each successful. *)
Fixpoint changed (os : list (order B)) (a b : B) : Prop :=
  match os with [] => b = a | o :: os => (change o a).1 = None /\ changed os (change o a).2 b end.

(** ** The invariant *)

  Context `{HOL : !OutboxLaws D} `{HSE : !Serial D} `{HSL : !SerialLaws D} `{HIL : !TxLaws E A} `{HXS : !TxSafe (B * D)}.

(** An event in a relay's hand: its message was committed, its identifier was given out, and no other pending event has it. *)
Record in_hand (cs : list (order B)) (d : D) (e : Event) : Prop := {
  hand_committed : message e ∈ omap msg_of cs;
  hand_serial : ID e < serial d;
  hand_unique e' : e' ∈ pending d -> ID e' = ID e -> e' = e }.
Definition relay_ok (cs : list (order B)) (d : D) (p : P) (q : at_) : Prop :=
  match q with
  | Idle _ => True
  | Publishing _ es => Forall (in_hand cs d) es
  | Marking _ e es => message e ∈ carried p /\ in_hand cs d e /\ Forall (in_hand cs d) es
  end.

Record inv (b0 : B) (a0 : A) (committed : list (order B)) (got : list msg) (x : system) : Prop := {
  inv_log : committed `sublist_of` map fst (log x);
  inv_nil o : (o, true) ∈ log x -> o ∈ committed;
  inv_business : changed committed b0 (business x);
  inv_events : Forall (fun o => is_Some (msg_of o)) committed;
  inv_pending m : m ∈ map message (pending (table x)) -> m ∈ omap msg_of committed;
  inv_carried m : m ∈ carried (channel x) -> m ∈ omap msg_of committed;
  inv_kept m : m ∈ omap msg_of committed -> m ∈ map message (pending (table x)) \/ m ∈ carried (channel x);
  inv_got : NoDup (map idOf got);
  inv_from m : m ∈ got -> m ∈ carried (channel x);
  inv_marks id : id ∈ marks (consumer x) <-> id ∈ map idOf got;
  inv_applied : applied handler got a0 (data (consumer x));
  inv_relays : map_Forall (fun _ q => relay_ok committed (table x) (channel x) q) (relays x) }.

(** What a relay holds stays good while changes are committed, the table grows or shrinks and the channel carries more. *)
Lemma relay_ok_mono cs cs' d d' p p' q : omap msg_of cs ⊆ omap msg_of cs' -> serial d <= serial d' ->
  (forall e, e ∈ pending d' -> e ∈ pending d \/ serial d <= ID e) -> carried p ⊆ carried p' -> relay_ok cs d p q -> relay_ok cs' d' p' q.
Proof.
  intros Hcs Hs Hp Hc. assert (Hh : forall e, in_hand cs d e -> in_hand cs' d' e).
  { intros e [H1' H2' H3']. split; [by apply Hcs|lia|]. intros e' Hin Heq. destruct (Hp e' Hin); [by apply H3'|lia]. }
  destruct q as [|n es|n e es]; cbn; [done| |]; [intros Ho|intros (Hm & He & Ho)]; try (split_and!; [by apply Hc|by apply Hh|]); (eapply Forall_impl; [exact Ho|exact Hh]).
Qed.

Lemma changed_snoc os o a b : changed os a b -> (change o b).1 = None -> changed (os ++ [o]) a (change o b).2.
Proof. revert a. induction os as [|o' os IH]; intros a; cbn; [by intros -> ?|]. intros [? ?] ?. auto. Qed.
Lemma applied_snoc ms m a b : applied handler ms a b -> (handler m b).1 = None -> applied handler (ms ++ [m]) a (handler m b).2.
Proof. revert a. induction ms as [|m' ms IH]; intros a; cbn; [by intros -> ?|]. intros [? ?] ?. auto. Qed.

(** A transaction either leaves everything as it was, with an error, or has changed the data and enqueued the event. *)
Lemma order_outcome n ni now o b d :
  let '(r, bd) := run_in_tx n (place ni now o) (b, d) in
  (bd = (b, d) /\ r <> None) \/
  (exists m t, msg_of o = Some m /\ (change o b).1 = None /\ bd.1 = (change o b).2 /\ bd.2 = db_insert m.1 m.2 t d).
Proof.
  assert (Hb : (place ni now o (b, d)).1 = None -> exists m t, msg_of o = Some m /\ (change o b).1 = None /\
    (place ni now o (b, d)).2.1 = (change o b).2 /\ (place ni now o (b, d)).2.2 = db_insert m.1 m.2 t d).
  { unfold place, msg_of. cbn [fst snd]. destruct (change o b) as [[err|] b']; [done|]. unfold Enqueue. destruct (encoded o) as [|p]; [done|].
    destruct ni; cbn [call]; [|done|done]. intros _. by exists (topic o, p), now. }
  destruct ((place ni now o (b, d)).1) as [err|] eqn:Hr.
  - destruct (rolls_back n _ _ err Hr) as [err' ->]. by left.
  - specialize (Hb eq_refl). destruct (commits n _ _ Hr) as [-> | [err [-> | ->]]]; [by right|by left|by right].
Qed.

Section Steps.
  Context (b0 : B) (a0 : A) (cs : list (order B)) (got : list msg) (x : system).

Lemma order_inv n ni now o r bd : run_in_tx n (place ni now o) (business x, table x) = (r, bd) -> inv b0 a0 cs got x ->
  exists cs got, inv b0 a0 cs got (Sys bd.1 bd.2 (channel x) (consumer x) (log x ++ [(o, match r with None => true | Some _ => false end)]) (relays x)).
Proof.
  intros Hrun.
  intros Hi. destruct Hi as [Hlog Hnil Hbus Hev Hpend Hcar Hkept Hgot Hfrom Hmarks Happ Hrel].
  pose proof (order_outcome n ni now o (business x) (table x)) as Ho. rewrite Hrun in Ho.
  destruct Ho as [[-> Hr]|(m & t & Hmsg & Hch & Hb & Hd)].
  + exists cs, got. split; cbn [business table channel consumer log relays fst snd]; try done.
    * rewrite map_app. apply sublist_inserts_r. done.
    * intros o' [Hin|Heq]%elem_of_app; [by apply Hnil|]. apply list_elem_of_singleton in Heq. destruct r; [|done]. by injection Heq.
  + destruct (pending_insert (table x) m.1 m.2 t) as [id Hp]. pose proof (serial_insert _ _ _ _ _ Hp) as Hser. rewrite Hd.
    exists (cs ++ [o]), got. split; cbn [business table channel consumer log relays]; try done.
    * rewrite map_app. cbn. by apply sublist_app.
    * intros o' [Hin|Heq]%elem_of_app; [apply elem_of_app; left; by apply Hnil|]. apply list_elem_of_singleton in Heq. injection Heq as -> _. set_solver.
    * rewrite Hb. by apply changed_snoc.
    * apply Forall_app. split; [done|]. constructor; [by rewrite Hmsg|done].
    * intros m'. rewrite Hp, map_app, omap_app. csimpl. rewrite Hmsg. intros [Hin|Hin]%elem_of_app; apply elem_of_app; [left; by apply Hpend|right].
      apply list_elem_of_singleton in Hin. subst. unfold message. cbn. destruct m. by left.
    * intros m' Hin. rewrite omap_app. apply elem_of_app. left. by apply Hcar.
    * intros m'. rewrite Hp, map_app, omap_app. csimpl. rewrite Hmsg. intros [Hin|Hin]%elem_of_app.
      { destruct (Hkept m' Hin); [left; apply elem_of_app; by left|by right]. }
      apply list_elem_of_singleton in Hin. subst. left. apply elem_of_app. right. unfold message. cbn. destruct m. by left.
    * intros k q Hq. eapply (relay_ok_mono _ _ (table x) _ (channel x)); [| | | |by apply (Hrel k q)]; [rewrite omap_app; set_solver|lia| |done].
      intros e. rewrite Hp. intros [He| ->%list_elem_of_singleton]%elem_of_app; [by left|right; cbn; lia].
Qed.

(** A call of a relay: what it does to the table and the channel, and where it leaves the relay. *)
Lemma relay_step_outcome r f now q d p q' d' p' : relay_step r f now q d p = (q', (d', p')) ->
  (forall e, e ∈ pending d -> message e ∈ omap msg_of cs) -> relay_ok cs d p q ->
  carried p ⊆ carried p' /\ (forall m, m ∈ carried p' -> m ∈ carried p \/ m ∈ omap msg_of cs) /\ serial d' = serial d /\
  (forall e, e ∈ pending d' -> e ∈ pending d) /\ (forall e, e ∈ pending d -> e ∈ pending d' \/ message e ∈ carried p) /\ relay_ok cs d' p' q'.
Proof.
  intros Hs Hpend Hq. destruct q as [l|n [|e es]|n e es]; cbn [relay_step] in Hs.
  - assert (d' = d /\ p' = p /\ (q' = Publishing 0 (take (Z.to_nat (batchSize r)) (pending d)) \/ exists l', q' = Idle l')) as (-> & -> & Hq').
    { destruct f; cbn [call] in Hs; injection Hs as <- <- <-; eauto. }
    split_and!; try done; try (by intros; left). destruct Hq' as [->|[l' ->]]; [|done]. apply Forall_forall. intros e He.
    assert (Hin : e ∈ pending d) by (rewrite <- (take_drop (Z.to_nat (batchSize r)) (pending d)); apply elem_of_app; by left).
    split; [by apply Hpend|by apply serial_pending|]. intros e' Hin' Heq. pose proof (pending_nodup d) as Hnd.
    by apply (nodup_map_inj ID (pending d)).
  - injection Hs as <- <- <-. split_and!; try done; by intros; left.
  - apply Forall_cons in Hq as [He Hes]. destruct (Publish (Topic e) (Payload e) p) as [[err|] p1] eqn:Hp; injection Hs as <- <- <-.
    + pose proof (Publish_err p (Topic e) (Payload e)) as Hc. rewrite Hp in Hc. specialize (Hc ltac:(done)). cbn [snd] in Hc.
      split_and!; try done; try (by intros; left); destruct Hc as [-> | ->]; try set_solver. intros m [Hm| ->%list_elem_of_singleton]%elem_of_app; [by left|right; apply He].
    + pose proof (Publish_ok p (Topic e) (Payload e)) as Hc. rewrite Hp in Hc. specialize (Hc eq_refl). cbn [snd] in Hc. rewrite Hc.
      split_and!; try done; try (by intros; left); [set_solver| |split_and!; [rewrite Hc; apply elem_of_app; right; by left|done|done]]. intros m [Hm| ->%list_elem_of_singleton]%elem_of_app; [by left|right; apply He].
  - destruct Hq as (Hm & He & Hes). destruct (call f _ d) as [[err|[]] d1] eqn:Hc.
    all: assert (Hd1 : d1 = d \/ d1 = db_mark (ID e) now d) by (destruct f; cbn [call] in Hc; simplify_eq; auto).
    all: assert (Hser : serial d1 = serial d) by (destruct Hd1 as [-> | ->]; [done|apply serial_mark]).
    all: assert (Hdown : forall e', e' ∈ pending d1 -> e' ∈ pending d) by (destruct Hd1 as [-> | ->]; [done|intros e'; rewrite pending_mark; by intros [_ ?]%list_elem_of_filter]).
    all: assert (Hkeep : forall e', e' ∈ pending d -> e' ∈ pending d1 \/ message e' ∈ carried p).
    all: try (destruct Hd1 as [-> | ->]; [by left|]; intros e' Hin; destruct (decide (ID e' = ID e)) as [Heq|Hne];
              [right; by rewrite (hand_unique _ _ _ He e' Hin Heq)|left; rewrite pending_mark; by apply list_elem_of_filter]).
    all: assert (Hes' : relay_ok cs d1 p (Publishing (S n) es)) by (apply (relay_ok_mono cs cs d d1 p p); [done|by rewrite Hser|intros e' Hin; left; by apply Hdown|done|exact Hes]).
    all: injection Hs as <- <- <-; split_and!; try done; by intros; left.
Qed.

Lemma relay_inv i r f now q d p : relay_step r f now (relay_at i x) (table x) (channel x) = (q, (d, p)) -> inv b0 a0 cs got x ->
  exists cs got, inv b0 a0 cs got (Sys (business x) d p (consumer x) (log x) (<[i := q]> (relays x))).
Proof.
  intros Hs Hi. destruct Hi as [Hlog Hnil Hbus Hev Hpend Hcar Hkept Hgot Hfrom Hmarks Happ Hrel]. exists cs, got.
  assert (Hq : relay_ok cs (table x) (channel x) (relay_at i x)).
  { unfold relay_at. destruct (relays x !! i) as [q0|] eqn:Hq; [by apply (Hrel i)|done]. }
  apply relay_step_outcome in Hs as (Hc1 & Hc2 & Hser & Hp1 & Hp2 & Hq'); [|intros e He; apply Hpend, list_elem_of_fmap; by exists e|done].
  split; cbn [business table channel consumer log relays]; try done.
  - intros m (e & -> & He)%list_elem_of_fmap. apply Hpend, list_elem_of_fmap. exists e. split; [done|by apply Hp1].
  - intros m Hm. destruct (Hc2 m Hm); [by apply Hcar|done].
  - intros m Hm. destruct (Hkept m Hm) as [Hq2|Hq2]; [|right; by apply Hc1]. apply list_elem_of_fmap in Hq2 as (e & -> & He).
    destruct (Hp2 e He); [left; apply list_elem_of_fmap; by exists e|right; by apply Hc1].
  - intros m Hm. by apply Hc1, Hfrom.
  - apply map_Forall_insert_2; [done|]. intros k q0 Hk. apply (relay_ok_mono cs cs (table x) d (channel x) p); [done|by rewrite Hser|intros e He; left; by apply Hp1|exact Hc1|by apply (Hrel k)].
Qed.

Lemma delivery_inv f m : m ∈ carried (channel x) -> inv b0 a0 cs got x ->
  exists cs got, inv b0 a0 cs got (Sys (business x) (table x) (channel x) (receive idOf handler f m (consumer x)).2 (log x) (relays x)).
Proof.
  intros Hm.
  intros Hi. destruct Hi as [Hlog Hnil Hbus Hev Hpend Hcar Hkept Hgot Hfrom Hmarks Happ Hrel].
  pose proof (deliver_step (fun _ => handler m) f (idOf m) (consumer x)) as Hd. unfold deliver in Hd. fold (receive idOf handler f m (consumer x)) in Hd.
  destruct (receive idOf handler f m (consumer x)) as [r e']. cbn [snd]. destruct Hd as [[-> _]|(Hni & Hmk & Hok & Hdata)]; [by exists cs, got|].
  exists cs, (got ++ [m]). split; cbn [business table channel consumer log relays]; try done.
  + rewrite map_app. apply NoDup_app. split_and!; [done| |by apply NoDup_singleton]. intros id Hid Heq. cbn in Heq. apply list_elem_of_singleton in Heq. subst.
    apply Hni. by apply Hmarks.
  + intros m' [Hin|Hin]%elem_of_app; [by apply Hfrom|]. apply list_elem_of_singleton in Hin. by subst.
  + intros id. rewrite Hmk, map_app, elem_of_union, elem_of_singleton, elem_of_app, Hmarks. cbn. rewrite list_elem_of_singleton. tauto.
  + rewrite Hdata. by apply applied_snoc.
Qed.
End Steps.

Lemma system_step_inv b0 a0 x y : step x y -> (exists cs got, inv b0 a0 cs got x) -> exists cs got, inv b0 a0 cs got y.
Proof. intros [] (cs & got & Hi); [by eapply order_inv|by eapply relay_inv|by eapply delivery_inv]. Qed.

Lemma omap_sublist {X Y} (f : X -> option Y) (l k : list X) : l `sublist_of` k -> omap f l `sublist_of` omap f k.
Proof. induction 1 as [|z l k _ IH|z l k _ IH]; csimpl; [done| |]; destruct (f z); [by constructor|done|by constructor|done]. Qed.

(** A relay left alone does what [process] does. *)
Lemma relay_solo r load env l d p : exists fs, relay_run r fs (Idle l) d p = (Idle (process r load env d p).1, (process r load env d p).2).
Proof.
  assert (Hloop : forall es n d p, exists fs, relay_run r fs (Publishing n es) d p = (Idle (publish_loop env es n d p).1, (publish_loop env es n d p).2)).
  { clear. induction es as [|e es IH]; intros n d p; [by exists [(NetOk, 0)]|]. cbn [publish_loop].
    destruct (Publish (Topic e) (Payload e) p) as [[err|] p1] eqn:Hp.
    { exists [(NetOk, 0)]. cbn [relay_run relay_step]. by rewrite Hp. }
    destruct (env n) as [f now]. destruct (call f (fun d => (tt, db_mark (ID e) now d)) d) as [[err|[]] d1] eqn:Hc.
    - exists [(NetOk, 0); (f, now)]. cbn [relay_run relay_step]. rewrite Hp. cbn [relay_step]. by rewrite Hc.
    - destruct (IH (S n) d1 p1) as [fs Hfs]. exists ((NetOk, 0) :: (f, now) :: fs). cbn [relay_run relay_step]. rewrite Hp. cbn [relay_step]. by rewrite Hc. }
  unfold process. destruct (call load _ d) as [[err|es] d1] eqn:Hc.
  - exists [(load, 0)]. cbn [relay_run relay_step]. by rewrite Hc.
  - destruct (Hloop es 0%nat d1 p) as [fs Hfs]. exists ((load, 0) :: fs). cbn [relay_run relay_step]. by rewrite Hc.
Qed.

(** (C12) Exactly once, from the business transaction to the consumer. At every moment, however transactions, the calls of
    any number of relays (each with its own copy of a batch, loading, publishing and marking event by event, and
    started again after any end), deliveries of what the publisher carried and the consumer's handlers follow each
    other, and whatever calls fail: the business data are those of some of the requested changes, in order, every one
    that was answered with nil among them; the event of each of these is pending or carried, and of no other; and the
    consumer has applied messages of carried events, at most one per identifier. So, when different events have
    different identifiers, once nothing is pending and every carried message has been accepted it has applied the
    events of exactly the committed changes, once each. *)
Theorem business_to_consumer (b0 : B) (d0 : D) (p0 : P) (e0 : E) (x : system) :
  pending d0 = [] -> carried p0 = [] -> marks e0 = ∅ -> rtc step (Sys b0 d0 p0 e0 [] ∅) x ->
  exists committed got,
    committed `sublist_of` map fst (log x) /\ (forall o, (o, true) ∈ log x -> o ∈ committed) /\ changed committed b0 (business x) /\
    (forall m, m ∈ omap msg_of committed <-> m ∈ map message (pending (table x)) \/ m ∈ carried (channel x)) /\
    NoDup (map idOf got) /\ (forall m, m ∈ got -> m ∈ carried (channel x)) /\ applied handler got (data e0) (data (consumer x)) /\
    (NoDup (map idOf (omap msg_of (map fst (log x)))) -> pending (table x) = [] ->
     (forall m, m ∈ carried (channel x) -> idOf m ∈ marks (consumer x)) -> got ≡ₚ omap msg_of committed /\ length committed = length got).
Proof.
  intros Hd Hp He Hr. assert (Hi : exists cs got, inv b0 (data e0) cs got x).
  { assert (H0 : exists cs got, inv b0 (data e0) cs got (Sys b0 d0 p0 e0 [] ∅)).
    { exists [], []. split; cbn; rewrite ?Hd, ?Hp, ?He; try done.
      all: first [apply NoDup_nil_2|apply map_Forall_empty|by intros ? ?%elem_of_nil|intros id; by rewrite elem_of_empty, elem_of_nil]. }
    revert H0. clear Hd Hp He. induction Hr as [|x1 x2 x3 Hs _ IH]; [done|]. intros H0. apply IH. by eapply system_step_inv. }
  destruct Hi as (cs & got & [Hlog Hnil Hbus Hev Hpend Hcar Hkept Hgot Hfrom Hmarks Happ _]). exists cs, got. split_and!; try done.
  { intros m. split; [apply Hkept|]. intros [Hm|Hm]; [by apply Hpend|by apply Hcar]. }
  intros Hnd Hempty Hacked. assert (Hnd' : NoDup (map idOf (omap msg_of cs))).
  { eapply sublist_NoDup; [exact Hnd|]. apply (fmap_sublist idOf). by apply omap_sublist. }
  assert (Hperm : got ≡ₚ omap msg_of cs).
  { apply NoDup_Permutation; [by apply (NoDup_fmap_1 idOf)|by apply (NoDup_fmap_1 idOf)|]. intros m. split; [intros Hm; by apply Hcar, Hfrom|].
    intros Hm. destruct (Hkept m Hm) as [Hq|Hq]; [rewrite Hempty in Hq; by apply elem_of_nil in Hq|].
    pose proof (Hacked m Hq) as Hid. apply Hmarks, list_elem_of_fmap in Hid as (m' & Heq & Hm').
    pose proof (by_id_found idOf _ _ Hnd' Hm) as H1. pose proof (by_id_found idOf _ _ Hnd' (Hcar _ (Hfrom _ Hm'))) as H2. rewrite Heq in H1. congruence. }
  split; [done|]. rewrite Hperm. clear -Hev. induction Hev as [|o os [m Hm] _ IH]; [done|]. csimpl. rewrite Hm. cbn. by rewrite IH.
Qed.
End System.
Arguments system B D P E : clear implicits.

(** ** A commit whose reply is lost, a change that fails, a mark that fails, and deliveries that repeat *)

Import Mem MemOutbox MemInbox.

#[export] Instance mem_business X : Tx X := fun n body x =>
  match n with
  | NetOk => match (body x).1 with None => (None, (body x).2) | Some e => (Some e, x) end
  | LostRequest e => (Some e, x)
  | LostReply e => match (body x).1 with None => (Some e, (body x).2) | Some e => (Some e, x) end
  end.
#[export] Instance mem_business_safe X : TxSafe X.
Proof. split; intros n body x; unfold run_in_tx, mem_business; [intros err ->|intros ->]; destruct n; eauto. Qed.

#[export] Instance mem_serial : Serial table := next_id.
#[export] Instance mem_serial_laws : SerialLaws table.
Proof.
  split; [|done|].
  - intros d e He. pose proof (proj2 (rows_ok d)) as Hf. by apply (proj1 (Forall_forall _ _) Hf e).
  - intros d t b now id Hp. unfold pending in Hp. cbn in Hp. apply app_inj_tail in Hp as [_ Heq]. injection Heq as Heq. unfold serial, mem_serial. cbn. lia.
Qed.

Inductive act := AOrder (n : net) (o : order (list string)) | ARelay (i : nat) (f : net) | ADeliver (f : Inbox.fate) (i : nat).
Abbreviation mem_system := (system (list string) table (list (string * string)) (db (list string))).
Definition perform (a : act) (x : mem_system) : mem_system :=
  match a with
  | AOrder n o =>
      let '(r, bd) := run_in_tx n (place NetOk 0 o) (business x, Transactional.table x) in
      Sys bd.1 bd.2 (channel x) (consumer x) (log x ++ [(o, match r with None => true | Some _ => false end)]) (relays x)
  | ARelay i f =>
      let '(q, (d, p)) := relay_step one_at_a_time f 0 (relay_at i x) (Transactional.table x) (channel x) in
      Sys (business x) d p (consumer x) (log x) (<[i := q]> (relays x))
  | ADeliver f i =>
      match carried (channel x) !! i with
      | Some m => Sys (business x) (Transactional.table x) (channel x) (receive by_payload note f m (consumer x)).2 (log x) (relays x)
      | None => x
      end
  end.

Lemma perform_steps (acts : list act) (x : mem_system) : rtc (step by_payload note) x (fold_left (fun x a => perform a x) acts x).
Proof.
  revert x. induction acts as [|a acts IH]; intros x; [apply rtc_refl|]. cbn [fold_left]. destruct a as [n o|k f|f i]; cbn [perform].
  - destruct (run_in_tx n _ _) as [r bd] eqn:Hr. eapply rtc_l; [by eapply step_order|apply IH].
  - destruct (relay_step _ _ _ _ _ _) as [q [d p]] eqn:Hs. eapply rtc_l; [by eapply step_relay|apply IH].
  - destruct (carried (channel x) !! i) as [m|] eqn:Hm; [|apply IH]. eapply rtc_l; [apply step_delivery; by eapply list_elem_of_lookup_2|apply IH].
Qed.

Definition buy (what : string) : order (list string) := Order (fun l => (None, l ++ [what])) "bought" (inr what).
Definition broke : order (list string) := Order (fun l => (Some (Err "no money"), l ++ ["yacht"%string])) "bought" (inr "yacht"%string).
(** Two relays load the same event and both publish it; the mark of the second is lost. *)
Definition a_day : list act :=
  [AOrder (LostReply (Err "timeout")) (buy "tea"); AOrder NetOk broke; AOrder NetOk (buy "milk");
   ARelay 0 NetOk; ARelay 1 NetOk; ARelay 0 NetOk; ADeliver (Fate NetOk NetOk None 2) 0; ARelay 1 NetOk; ARelay 0 NetOk; ARelay 1 (LostRequest (Err "eof"));
   ARelay 1 NetOk; ARelay 1 NetOk; ARelay 0 NetOk; ARelay 1 NetOk;
   ADeliver (Fate (LostRequest (Err "eof")) NetOk None 5) 2; ADeliver (Fate NetOk NetOk None 6) 1; ADeliver (Fate NetOk NetOk None 7) 2]%string.
Definition morning : mem_system := Sys [] MemOutbox.empty [] (Db ∅ []) [] ∅.
Definition evening : mem_system := fold_left (fun x a => perform a x) a_day morning.

Lemma business_to_consumer_witness :
  business evening = ["tea"; "milk"]%string /\ channel evening = [("bought", "tea"); ("bought", "tea"); ("bought", "milk")]%string /\
  data (consumer evening) = ["tea"; "milk"]%string /\
  exists committed got, (buy "milk" ∈ committed) /\ got ≡ₚ omap msg_of committed /\ length committed = length got.
Proof.
  split; [vm_compute; reflexivity|]. split; [vm_compute; reflexivity|]. split; [vm_compute; reflexivity|].
  assert (Hp : pending MemOutbox.empty = []) by reflexivity. assert (Hm0 : marks (Db (∅ : gset string) ([] : list string)) = ∅) by reflexivity.
  assert (Hc0 : carried ([] : list (string * string)) = []) by reflexivity.
  destruct (business_to_consumer by_payload note [] MemOutbox.empty [] (Db ∅ []) evening Hp Hc0 Hm0 (perform_steps a_day morning))
    as (committed & got & _ & Hnil & _ & _ & _ & _ & _ & Hend).
  exists committed, got. split.
  - apply Hnil.
    change (log evening) with (([] ++ [(buy "tea", false)] ++ [(broke, false)]) ++ [(buy "milk", true)]). apply elem_of_app. right. by left.
  - apply Hend.
    + assert (Hids : map by_payload (omap msg_of (map fst (log evening))) = ["tea"; "yacht"; "milk"]%string) by (vm_compute; reflexivity).
      rewrite Hids. refine (bool_decide_unpack _ _). vm_compute. exact I.
    + assert (Hpe : pending (Transactional.table evening) = []) by (vm_compute; reflexivity). exact Hpe.
    + assert (Hc : channel evening = [("bought", "tea"); ("bought", "tea"); ("bought", "milk")]%string) by (vm_compute; reflexivity).
      assert (Hm : marks (consumer evening) = {["milk"; "tea"]}%string) by (vm_compute; reflexivity).
      change (carried (channel evening)) with (channel evening). rewrite Hc, Hm. intros m Hin. unfold by_payload.
      repeat (apply elem_of_cons in Hin as [-> | Hin]; [cbn; set_solver|]). by apply elem_of_nil in Hin.
Defined.
