(* ===== verification/Docs.v ===== *)
(** * The documentation page and the way to it (openapi/handlers.go, bootstrap/bootstrap.go)

    The Swagger UI page names the document by a script whose address html/template writes as a
    quoted literal. The page is read back the way a browser does, and followed through an app. *)

From S2P Require Import OpenApi.
From S2P Require Import Prelude GoStrings GoJson Fiber ApiError Health I18n Server Bootstrap.
Open Scope Z_scope.

(** ** The page *)

(** The text of the template is written here with ['] for its double quotes. *)
Fixpoint quoted (s : string) : string :=
  match s with EmptyString => EmptyString | String c s => String (if Ascii.eqb c "'" then quote else c) (quoted s) end.
Definition lines (l : list string) : string := quoted (join (String (chr 10) EmptyString) l).

Definition before_script : string := lines [
  "<!DOCTYPE html>"; "<html lang='en'>"; "<head>"; "<meta charset='utf-8'/>";
  "<meta name='viewport' content='width=device-width, initial-scale=1'/>"; "<title>API Docs</title>";
  "<link rel='stylesheet' href='https://cdn.jsdelivr.net/npm/swagger-ui-dist/swagger-ui.css'>"; "</head>"; "<body>";
  "<div id='swagger-ui'></div>"; "<script src='https://cdn.jsdelivr.net/npm/swagger-ui-dist/swagger-ui-bundle.js' crossorigin></script>"; ""]%string.
Definition script_head : string := lines [""; "window.onload = function () {"; "  window.ui = SwaggerUIBundle({ url: "]%string.
Definition script_tail : string := lines [", dom_id: '#swagger-ui' });"; "};"; ""]%string.
Definition after_script : string := lines [">"; "</body>"; "</html>"]%string.

(** The script: html/template writes a string where the script has an expression as its JSON, with [<], [>] and [&] escaped. *)
Definition script (specURL : string) : string := script_head +:+ (json_string specURL +:+ script_tail).
Definition swaggerHTML (specURL : string) : string :=
  before_script +:+ ("<script>" +:+ (script specURL +:+ ("</script" +:+ after_script))).

Definition MIMETextHTMLCharsetUTF8 : string := "text/html; charset=utf-8".
Definition UIHandler (specURL : string) : handler :=
  let html := swaggerHTML specURL in
  fun c => (ROk, send (status_code c) (BRaw html) (set_header "Content-Type" MIMETextHTMLCharsetUTF8 c)).

(** [Spec.SpecHandler] on a request, with the writing of a JSON tree as text (encoding/json) a parameter: the document, or
    the error. *)
Definition spec_answer (text : json -> string) (s : OpenApi.Spec) : handler := fun c =>
  match (OpenApi.SpecHandler s).1 with
  | inl e => (RErr (EPlain (match e with Err msg | Wrap msg _ => msg | Join _ => "" end)), c)
  | inr (content_type, doc) => (ROk, send (status_code c) (BRaw (text doc)) (set_header "Content-Type" content_type c))
  end.

(** ** How a browser reads it *)

(** What follows the first occurrence, and what precedes it. *)
Fixpoint after (sub s : string) : string :=
  if has_prefix sub s then drop_string (String.length sub) s
  else match s with EmptyString => EmptyString | String _ s => after sub s end.
Fixpoint before (sub s : string) : string :=
  if has_prefix sub s then EmptyString else match s with EmptyString => EmptyString | String c s => String c (before sub s) end.

(** A script element ends at the first [</script]. *)
Definition inline_script (page : string) : string := before "</script" (after "<script>" page).

(** The value of the first string literal of a script. *)
Fixpoint first_literal (s : string) : option string :=
  match s with
  | EmptyString => None
  | String c s => if Ascii.eqb c quote then fst <$> parse_str s else first_literal s
  end.

(** ** Reading the page *)

Lemma before_plain (p s : string) : sforall (fun c => negb (Ascii.eqb c "<")) p = true ->
  before "</script" (p +:+ s) = p +:+ before "</script" s.
Proof.
  induction p as [|c p IH]; [done|]. cbn [sforall]. intros [Hc Hp]%andb_true_iff. rewrite !string_app_cons.
  change (before "</script" (String c (p +:+ s))) with
    (if Ascii.eqb "<" c && has_prefix "/script" (p +:+ s) then EmptyString else String c (before "</script" (p +:+ s))).
  rewrite (Ascii.eqb_sym "<" c). apply negb_true_iff in Hc. rewrite Hc. cbn [andb]. by rewrite IH.
Qed.

Lemma escape_no_tag (s : string) : sforall (fun c => negb (Ascii.eqb c "<")) (json_string s) = true.
Proof.
  unfold json_string. cbn [sforall]. rewrite sforall_app. apply andb_true_iff. split; [done|].
  apply andb_true_iff. split; [|done]. induction s as [|c s IH]; [done|]. cbn [escape_all]. rewrite sforall_app, IH, andb_true_r.
  by destruct c as [[] [] [] [] [] [] [] []].
Qed.

Lemma after_head (s : string) : after "<script>" (before_script +:+ ("<script>" +:+ s)) = s.
Proof. reflexivity. Qed.

Lemma first_literal_head (s : string) : first_literal (script_head +:+ s) = first_literal s.
Proof. reflexivity. Qed.

(** Whatever the address, the script of the page is the template's with one literal in its place. *)
Lemma page_script (specURL : string) : inline_script (swaggerHTML specURL) = script specURL.
Proof.
  unfold inline_script, swaggerHTML. rewrite after_head. rewrite before_plain.
  - change (before "</script" ("</script" +:+ after_script)) with ""%string. apply string_app_nil_r.
  - unfold script. rewrite !sforall_app, escape_no_tag. reflexivity.
Qed.

Lemma page_literal (specURL : string) : ascii_only specURL = true -> first_literal (inline_script (swaggerHTML specURL)) = Some specURL.
Proof.
  intros Ha. rewrite page_script. unfold script. rewrite first_literal_head. unfold json_string.
  change (String quote (escape_all specURL +:+ String quote "") +:+ script_tail) with
    (String quote ((escape_all specURL +:+ String quote "") +:+ script_tail)).
  cbn [first_literal]. rewrite Ascii.eqb_refl, <- string_app_assoc. change (String quote "" +:+ script_tail) with (String quote script_tail).
  by rewrite parse_str_escape.
Qed.

(** ** Through an app *)

Section Through.
  Context (matches : string -> string -> cx -> bool) (prefixes : string -> cx -> bool) (b : body).
  Local Abbreviation serve := (serve matches prefixes).

(** A handler that answers the requests of a target with the body [b], and a layer that lets such answers through. *)
Definition answers (c0 : cx) (h : handler) : Prop := forall c, same_request c0 c -> exists c', h c = (ROk, c') /\ sent c' = b.
Definition lets_through (l : layer) : Prop := forall c0 next, answers c0 next -> answers c0 (l next).

Lemma Recover_lets : lets_through Recover.
Proof. intros c0 next H c Hc. destruct (H c Hc) as (c' & E & Hb). exists c'. unfold Recover. by rewrite E. Qed.
Lemma RequestLogger_lets : lets_through RequestLogger.
Proof. intros c0 next H c Hc. destruct (H c Hc) as (c' & E & Hb). unfold RequestLogger. rewrite E. by eexists. Qed.
Lemma MetricsMiddleware_lets : lets_through MetricsMiddleware.
Proof.
  intros c0 next H c Hc. destruct (H c Hc) as (c' & E & Hb). unfold MetricsMiddleware. rewrite E.
  destruct (String.eqb (path c) MetricsPath); by eexists.
Qed.
Lemma ContextMiddleware_lets : lets_through ContextMiddleware.
Proof.
  intros c0 next H c Hc. unfold ContextMiddleware. destruct (requestid c) as [id|]; [destruct (String.eqb id "")|]; apply H; exact Hc.
Qed.
Lemma I18nMiddleware_lets (bu : Bundle) : lets_through (I18nMiddleware bu).
Proof. intros c0 next H c Hc. unfold I18nMiddleware. apply H. exact Hc. Qed.

(** A registration that leaves the requests of a target to the following ones. *)
Definition leaves (c0 : cx) (r : reg) : Prop :=
  match r with
  | RUse l => lets_through l
  | RUsePath p _ _ => forall c, same_request c0 c -> prefixes p c = false
  | RRoute m p _ => forall c, same_request c0 c -> matches m p c = false
  end.

Lemma serve_leaves (c0 : cx) (rs B : list reg) : Forall (leaves c0) rs -> answers c0 (serve B) -> answers c0 (serve (rs ++ B)).
Proof.
  intros Hrs HB. induction Hrs as [|r rs Hr Hrs IH]; [done|]. destruct r as [l|p guards h|m p h]; cbn [app Bootstrap.serve leaves] in *.
  - intros c Hc. exact (Hr c0 _ IH (set_route "/" c) Hc).
  - intros c Hc. rewrite Hr by done. by apply IH.
  - intros c Hc. rewrite Hr by done. by apply IH.
Qed.

Lemma route_answers (c0 : cx) (m p : string) (h : handler) (B : list reg) :
  (forall c, same_request c0 c -> matches m p c = true) -> answers c0 h -> answers c0 (serve (RRoute m p h :: B)).
Proof. intros Hm Hh c Hc. cbn [Bootstrap.serve]. rewrite Hm by done. exact (Hh (set_route p c) Hc). Qed.

(** The layers of other packages that are switched on let the answer through. *)
Definition clear (T : third_party) (o : Options) : Prop :=
  (SecurityHeaders o = true -> lets_through (helmet T)) /\ (Compression o = true -> lets_through (compress T)) /\
  (Idempotency o = true -> lets_through (idempotency T)) /\ (Tracing o = true -> lets_through (otelfiber T)) /\
  (EnableCORS o = true -> lets_through (cors T)) /\ (0 < RateLimit o -> lets_through (limiter T (RateLimit o))).

(** The routes in front of the documentation. *)
Definition other_routes (T : third_party) (o : Options) : list reg :=
  health_regs ++ opt (Metrics o) (RRoute "GET" MetricsPath (metrics_handler T)) ++ asynqmon_regs o.
Definition before_docs (T : third_party) (o : Options) : list reg :=
  front T o ++ other_routes T o ++ opt (EnableCORS o) (RUse (cors T)) ++ opt (0 <? RateLimit o) (RUse (limiter T (RateLimit o))).

Lemma New_docs (T : third_party) (o : Options) : regs (New T o) = before_docs T o ++ openapi_regs T o.
Proof. rewrite New_regs. unfold before_docs, other_routes, back. by rewrite <- !app_assoc. Qed.

Lemma before_docs_leaves (c0 : cx) (T : third_party) (o : Options) :
  clear T o -> Forall (leaves c0) (other_routes T o) -> Forall (leaves c0) (before_docs T o).
Proof.
  intros (H1 & H2 & H3 & H4 & H5 & H6) Ho. unfold before_docs, front. revert Ho. generalize (other_routes T o). intros others Ho. unfold opt.
  assert (Hs : forall (x : bool) l, (x = true -> lets_through l) -> Forall (leaves c0) (if x then [RUse l] else [])) by (intros [] l Hl; repeat constructor; by apply Hl).
  repeat (apply Forall_app; split); try (by apply Hs); try done.
  - repeat constructor; [exact Recover_lets|exact ContextMiddleware_lets].
  - destruct (o_I18n o); repeat constructor. apply I18nMiddleware_lets.
  - repeat constructor. exact RequestLogger_lets.
  - apply Hs. intros _. exact MetricsMiddleware_lets.
  - apply Hs. intros Hl. apply H6. by apply Z.ltb_lt.
Qed.

(** An answer of the chain is the answer of the app. *)
Lemma handle_answers (a : App) (c : cx) : answers c (serve (regs a)) -> exists c', handle matches prefixes a c = Some c' /\ sent c' = b.
Proof.
  intros H. unfold handle. match goal with |- context [serve (regs a) ?x] => destruct (H x) as (c' & -> & Hb) end; [done|]. by exists c'.
Qed.
End Through.

(** ** Claims *)


(** An address that tries to end the literal and the script. *)
Definition hostile : string := quoted "/api'});</script><script>steal()//".
(** A document with one operation, and a text that shows the first members of its tree. *)
Definition one_route : OpenApi.Spec := default (OpenApi.New (OpenApi.MkInfo "API" "1" ""))
  (OpenApi.Register (fun _ => (EmptyString, [])) 3 "GET" "/ping" (OpenApi.MkOp "Ping" "" [] None None None 0 false) (OpenApi.New (OpenApi.MkInfo "API" "1" ""))).
Definition document_of (s : OpenApi.Spec) : json := match OpenApi.json_Marshal (OpenApi.Build s) with inr d => d | inl _ => JObject [] end.
Definition tree_text (d : json) : string := match d with JObject l => join "," (map fst l) | _ => "" end.
Definition open_door : third_party :=
  let pass : layer := fun next => next in
  ThirdParty pass pass pass pass pass (fun _ => pass) (fun c => (ROk, c)) (spec_answer tree_text one_route) UIHandler (fun _ t => (None, t)).
Definition docs_options : Options :=
  MkOptions 0 false true 5 true false true false true true [] (Some (MkAsynqmon None "" [])) [] None true hostile "" (Some (I18n.New [])).

Lemma by_path_apart (m p q : string) (c : cx) : same_request (get q) c -> String.eqb p q = false -> by_path m p c = false.
Proof. intros (_ & Hp & _) Hq. unfold by_path. rewrite Hp. cbn [path get get_as]. by rewrite Hq, andb_false_r. Qed.
Lemma by_path_there (p : string) (c : cx) : same_request (get p) c -> by_path "GET" p c = true.
Proof. intros (Hm & Hp & _). unfold by_path. rewrite Hm, Hp. cbn [method path get get_as]. by rewrite !String.eqb_refl. Qed.

