(* ===== verification/Tables.v ===== *)
(** * The tables of the outbox and the inbox (outbox/outbox.go, inbox/inbox.go: Migrate)

    The statements are CREATE ... IF NOT EXISTS on an interface of a database with tables and named
    indexes; each has its fate. Migrating may be cut off anywhere and repeated by several replicas. *)

From S2P Require Import Prelude.
Open Scope Z_scope.

Class Ddl (D R : Type) := {
  tables : D -> gset string;
  indexes : D -> gmap string (string * list string);   (* the table and the columns *)
  content : D -> R;                                      (* the rows of all tables *)
  create_table : string -> D -> (error + unit) * D;
  create_index : string -> string -> list string -> D -> (error + unit) * D }.

Class DdlLaws (D R : Type) `{Ddl D R} := {
  create_table_new t d : t ∉ tables d ->
    let '(r, d') := create_table t d in r = inr tt /\ tables d' = {[t]} ∪ tables d /\ indexes d' = indexes d /\ content d' = content d;
  create_table_old t d : t ∈ tables d -> create_table t d = (inr tt, d);
  create_index_new i t cols d : t ∈ tables d -> indexes d !! i = None ->
    let '(r, d') := create_index i t cols d in
    r = inr tt /\ tables d' = tables d /\ indexes d' = <[i := (t, cols)]> (indexes d) /\ content d' = content d;
  create_index_old i t cols d : t ∈ tables d -> is_Some (indexes d !! i) -> create_index i t cols d = (inr tt, d);
  create_index_bare i t cols d : t ∉ tables d -> exists e, create_index i t cols d = (inl e, d) }.

(** [outbox.Migrate] and [inbox.Migrate]. *)
Definition outbox_Migrate {D R} `{Ddl D R} (n1 n2 : net) (d : D) : option error * D :=
  match remote n1 (create_table "outbox") d with
  | (inl err, d) => (Some (Wrap "outbox: create table: " [err]), d)
  | (inr _, d) =>
      match remote n2 (create_index "outbox_pending_idx" "outbox" ["published_at"; "id"]%string) d with
      | (inl err, d) => (Some (Wrap "outbox: create index: " [err]), d)
      | (inr _, d) => (None, d)
      end
  end.
Definition inbox_Migrate {D R} `{Ddl D R} (n : net) (d : D) : option error * D :=
  match remote n (create_table "inbox") d with
  | (inl err, d) => (Some (Wrap "inbox: create table: " [err]), d)
  | (inr _, d) => (None, d)
  end.

Inductive run := ROutbox (n1 n2 : net) | RInbox (n : net).
Definition migrate {D R} `{Ddl D R} (r : run) : D -> option error * D :=
  match r with ROutbox n1 n2 => outbox_Migrate n1 n2 | RInbox n => inbox_Migrate n end.

Section Facts.
  Context {D R : Type} `{HD : Ddl D R, HL : !DdlLaws D R}.

(** What statements leave: everything that was there, and nothing done to the rows. *)
Definition grown (d d' : D) : Prop := tables d ⊆ tables d' /\ indexes d ⊆ indexes d' /\ content d' = content d.
#[local] Instance grown_preorder : PreOrder grown.
Proof. split; [intros x; by split_and!|]. intros x y z (? & ? & ?) (? & ? & ?). split_and!; [set_solver|by etrans|congruence]. Qed.

Lemma create_table_spec t d : (create_table t d).1 = inr tt /\ t ∈ tables (create_table t d).2 /\ grown d (create_table t d).2.
Proof.
  destruct (decide (t ∈ tables d)) as [Hin|Hni]; [rewrite create_table_old by done; split; [done|]; by split|].
  pose proof (create_table_new t d Hni) as H. destruct (create_table t d) as [r d']. destruct H as (-> & Ht & Hi & Hc).
  unfold grown. cbn. split_and!; [done|set_solver|set_solver|by rewrite Hi|done].
Qed.

Lemma create_index_spec i t cols d : t ∈ tables d ->
  (create_index i t cols d).1 = inr tt /\ is_Some (indexes (create_index i t cols d).2 !! i) /\ grown d (create_index i t cols d).2.
Proof.
  intros Ht. destruct (indexes d !! i) eqn:E; [rewrite create_index_old by done; cbn; split; [done|]; split; [by rewrite E|reflexivity]|].
  pose proof (create_index_new i t cols d Ht E) as H. destruct (create_index i t cols d) as [r d']. destruct H as (-> & Hta & Hi & Hc).
  unfold grown. cbn. split_and!; [done|by rewrite Hi, lookup_insert_eq|by rewrite Hta|rewrite Hi; by apply insert_subseteq|done].
Qed.

Lemma create_index_grown i t cols d : grown d (create_index i t cols d).2.
Proof.
  destruct (decide (t ∈ tables d)) as [Ht|Ht]; [by apply (create_index_spec i t cols d Ht)|]. by destruct (create_index_bare i t cols d Ht) as [e ->].
Qed.

Lemma remote_grown {A} (n : net) (op : D -> (error + A) * D) d : grown d (op d).2 -> grown d (remote n op d).2.
Proof. intros H. unfold remote. destruct n; cbn [call]; [by destruct (op d)|done|by destruct (op d)]. Qed.

Lemma migrate_grown (r : run) (d : D) : grown d (migrate r d).2.
Proof.
  destruct r as [n1 n2|n]; cbn [migrate]; unfold outbox_Migrate, inbox_Migrate.
  - pose proof (remote_grown n1 _ d (proj2 (proj2 (create_table_spec "outbox" d)))) as H1. destruct (remote n1 _ d) as [[e|u] d1]; [done|]. cbn in H1.
    pose proof (remote_grown n2 _ d1 (create_index_grown "outbox_pending_idx" "outbox" ["published_at"; "id"]%string d1)) as H2.
    destruct (remote n2 _ d1) as [[e|u'] d2]; by etrans.
  - pose proof (remote_grown n _ d (proj2 (proj2 (create_table_spec "inbox" d)))) as H1. by destruct (remote n _ d) as [[e|u] d1].
Qed.

(** What a run that returns nil leaves in place. *)
Definition in_place (r : run) (d : D) : Prop :=
  match r with
  | ROutbox _ _ => "outbox"%string ∈ tables d /\ is_Some (indexes d !! "outbox_pending_idx"%string)
  | RInbox _ => "inbox"%string ∈ tables d
  end.

Lemma in_place_grown (r : run) (d d' : D) : grown d d' -> in_place r d -> in_place r d'.
Proof.
  intros (Ht & Hi & _). destruct r; cbn; [|set_solver]. intros [H1 [x H2]]. split; [set_solver|]. exists x. by eapply lookup_weaken.
Qed.

Lemma remote_ok {A} (n : net) (op : D -> (error + A) * D) d a d' : remote n op d = (inr a, d') -> op d = (inr a, d').
Proof. unfold remote. destruct n; cbn [call]; [|done|]; destruct (op d) as [[|]]; congruence. Qed.

Lemma migrate_nil (r : run) (d : D) : (migrate r d).1 = None -> in_place r (migrate r d).2.
Proof.
  destruct r as [n1 n2|n]; cbn [migrate in_place]; unfold outbox_Migrate, inbox_Migrate.
  - destruct (remote n1 _ d) as [[e|u] d1] eqn:E1; [done|]. apply remote_ok in E1. pose proof (create_table_spec "outbox" d) as (_ & Ht & _). rewrite E1 in Ht. cbn in Ht.
    pose proof (create_index_spec "outbox_pending_idx" "outbox" ["published_at"; "id"]%string d1 Ht) as (_ & Hi & Hg & _).
    destruct (remote n2 _ d1) as [[e|u'] d2] eqn:E2; [done|]. apply remote_ok in E2. rewrite E2 in Hi, Hg. intros _. cbn in *. split; [set_solver|done].
  - destruct (remote n _ d) as [[e|u] d1] eqn:E1; [done|]. apply remote_ok in E1. pose proof (create_table_spec "inbox" d) as (_ & Ht & _). by rewrite E1 in Ht.
Qed.

Definition migrate_all (rs : list run) (d : D) : list (option error) * D :=
  fold_left (fun acc r => let '(e, d) := migrate r acc.2 in (acc.1 ++ [e], d)) rs ([], d).

(** However often the tables are migrated, by whom, and wherever a run is cut off: the rows and whatever
    was there stay as they are, and what a run that returned nil put in place is there at the end. *)
Theorem tables_migrated (rs : list run) (d : D) :
  let '(es, d') := migrate_all rs d in
  grown d d' /\ length es = length rs /\ forall i r, rs !! i = Some r -> es !! i = Some None -> in_place r d'.
Proof.
  unfold migrate_all. induction rs as [|r rs IH] using rev_ind; cbn; [by split_and!|].
  rewrite fold_left_app. cbn. destruct (fold_left _ rs _) as [es d1]. destruct IH as (Hg & Hl & Hin). cbn [snd fst].
  pose proof (migrate_grown r d1) as Hg1. pose proof (migrate_nil r d1) as Hn. destruct (migrate r d1) as [e d2]. cbn [fst snd] in *. split_and!.
  - by etrans.
  - rewrite !length_app. cbn. lia.
  - intros i r' Hi He. destruct (decide (i < length rs)%nat) as [Hlt|Hge].
    + rewrite lookup_app_l in Hi by lia. rewrite lookup_app_l in He by lia. eapply in_place_grown; [exact Hg1|by eapply Hin].
    + rewrite lookup_app_r in Hi by lia. rewrite lookup_app_r in He by lia. apply list_lookup_singleton_Some in Hi as [H1 <-]. apply list_lookup_singleton_Some in He as [_ ->]. by apply Hn.
Qed.
End Facts.

(** ** A database in memory *)

Module Mem.
Record db := Db { tabs : gset string; idxs : gmap string (string * list string); rows : list string }.
#[export] Instance mem_ddl : Ddl db (list string) := {
  tables := tabs; indexes := idxs; content := rows;
  create_table t d := (inr tt, Db ({[t]} ∪ tabs d) (idxs d) (rows d));
  create_index i t cols d :=
    if decide (t ∈ tabs d) then (inr tt, match idxs d !! i with Some _ => d | None => Db (tabs d) (<[i := (t, cols)]> (idxs d)) (rows d) end)
    else (inl (Err "no such table"), d) }.
#[export] Instance mem_ddl_laws : DdlLaws db (list string).
Proof.
  split; cbn.
  - done.
  - intros t [ts ixs rs] Ht. cbn in *. f_equal. f_equal. set_solver.
  - intros i t cols d Ht Hi. rewrite decide_True by done. by rewrite Hi.
  - intros i t cols d Ht [x Hx]. rewrite decide_True by done. by rewrite Hx.
  - intros i t cols d Ht. rewrite decide_False by done. by eexists.
Qed.
End Mem.
Import Mem.

(** The first run loses the reply of its first statement, the second one is cut off before its index. *)
Example tables_retry :
  let '(es, d) := migrate_all [ROutbox (LostReply (Err "eof")) NetOk; ROutbox NetOk (LostRequest (Err "eof")); RInbox NetOk; ROutbox NetOk NetOk] (Mem.Db {["users"]} ∅ ["ann"%string]) in
  (map (fun e => match e with None => true | Some _ => false end) es,
   bool_decide (tables d = {["inbox"; "outbox"; "users"]}), bool_decide (indexes d = {["outbox_pending_idx" := ("outbox", ["published_at"; "id"])]})) =
  ([false; false; true; true], true, true)%string.
Proof. vm_compute. reflexivity. Qed.
