(* ===== verification/JobsRun.v ===== *)
(** * Workers of background jobs (jobs/jobs.go)

    The client and the server as wrappers of asynq's, and what becomes of a job: asynq's worker calls
    the mux for each attempt that begins before the task's deadline, retries what fails with an error
    that may be retried (an attempt not over by the deadline has failed) as long as retries are left,
    and archives the rest. Times are the clock of the worker. A server that is shut down or loses
    its lease in the middle is outside. *)

From S2P Require Import Prelude GoStrings Fiber GoJson RedisClient Jobs.
Open Scope Z_scope.

Inductive settled := Completed | Archived.

(** When an attempt begins and when its handler has returned. *)
Record span := Span { begins : Z; ends : Z }.
Definition rest_of (clk : nat -> span) : nat -> span := fun j => clk (S j).

Definition DeadlineExceeded : error := Err "context deadline exceeded".

(** asynq's server: what it is configured with, and what its workers make of one task. *)
Class AsynqServer (W Opt Conn Queue Mux Sched Info Inner : Type) `{Asynq W Opt Conn Queue Mux Sched Info} := {
  NewInner : Conn -> Z -> option (gmap string Z) -> Inner;
  connect : Conn -> Queue;
  disconnect : Queue -> option error * Queue;
  max_retry : list Opt -> nat;
  (** until when an attempt that begins then may take, by the deadline and timeout among the options *)
  limit : list Opt -> Z -> option Z;
  (** a task with its options and that many retries left, its attempts at those times, on the state the handlers act on *)
  perform : Inner -> Mux -> list Opt -> (nat -> span) -> nat -> Task -> W -> settled * W }.

(** One attempt under a limit: past it nothing is called; what returns after it has failed. *)
Definition timed {W} (lim : option Z) (a : span) (call : W -> option error * W) (w : W) : option error * W :=
  match lim with
  | None => call w
  | Some l =>
      if l <=? begins a then (Some DeadlineExceeded, w)
      else let '(r, w') := call w in if l <=? ends a then (Some DeadlineExceeded, w') else (r, w')
  end.

(** Documented: a nil error completes the task, [SkipRetry] archives it, another error retries it or archives it; a task that
    reaches its deadline before its handler returns is retried; a deadline given last is the one that counts. *)
Class AsynqServerLaws (W Opt Conn Queue Mux Sched Info Inner : Type) `{AsynqServer W Opt Conn Queue Mux Sched Info Inner} := {
  perform_done (i : Inner) m opts clk rem t (w : W) w' :
    timed (limit opts (begins (clk 0%nat))) (clk 0%nat) (route m t) w = (None, w') -> perform i m opts clk rem t w = (Completed, w');
  perform_skip (i : Inner) m opts clk rem t (w : W) e w' :
    timed (limit opts (begins (clk 0%nat))) (clk 0%nat) (route m t) w = (Some e, w') -> errors_is e SkipRetry = true ->
    perform i m opts clk rem t w = (Archived, w');
  perform_last (i : Inner) m opts clk t (w : W) e w' :
    timed (limit opts (begins (clk 0%nat))) (clk 0%nat) (route m t) w = (Some e, w') -> errors_is e SkipRetry = false ->
    perform i m opts clk 0 t w = (Archived, w');
  perform_again (i : Inner) m opts clk rem t (w : W) e w' :
    timed (limit opts (begins (clk 0%nat))) (clk 0%nat) (route m t) w = (Some e, w') -> errors_is e SkipRetry = false ->
    perform i m opts clk (S rem) t w = perform i m opts (rest_of clk) rem t w';
  limit_deadline opts d now : exists l, limit (opts ++ [Deadline d]) now = Some l /\ l <= d }.

Section Server.
  Context {W Opt Conn Queue Mux Sched Info Inner : Type} `{HA : Asynq W Opt Conn Queue Mux Sched Info, HS : !AsynqServer W Opt Conn Queue Mux Sched Info Inner}.

Record Client := MkClient { client_inner : Queue }.
Definition NewClient (opt : Conn) : Client := MkClient (connect opt).
Definition Client_Enqueue {V} `{Codec V} (n : net) (name : string) (payload : V) (opts : list Opt) (c : Client) : (error + Info) * Client :=
  let '(r, q) := Enqueue n name payload opts (client_inner c) in (r, MkClient q).
Definition Client_Close (c : Client) : option error * Client := let '(r, q) := disconnect (client_inner c) in (r, MkClient q).

Record ServerConfig := MkServerConfig { Concurrency : Z; Queues : option (gmap string Z) }.
Record Server := MkServer { inner : Inner; mux : Mux }.
Definition NewServer (opt : Conn) (cfg : ServerConfig) : Server := MkServer (NewInner opt (Concurrency cfg) (Queues cfg)) NewServeMux.

(** [Handle] on the server's mux; registering a name twice panics. *)
Definition Server_Handle {T} `{Codec T} (name : string) (fn : T -> W -> option error * W) (s : Server) : option Server :=
  m ← Handle (mux s) name fn; Some (MkServer (inner s) m).

(** [Run], as far as one task goes: the inner server is run with the mux. *)
Definition Run (s : Server) (t : Task * list Opt) (clk : nat -> span) (w : W) : settled * W :=
  perform (inner s) (mux s) t.2 clk (max_retry t.2) t.1 w.
End Server.

(** ** What becomes of a job *)

Section Settled.
  Context {W : Type} (lim : Z -> option Z) (call : W -> option error * W).

(** One attempt at a time. *)
Definition try_at (a : span) : W -> option error * W := timed (lim (begins a)) a call.

(** The attempts until one returns nil or an error that forbids retries, or retries run out; with their number. *)
Fixpoint attempts (clk : nat -> span) (rem : nat) (w : W) : settled * W * nat :=
  match try_at (clk 0%nat) w with
  | (None, w) => (Completed, w, 1%nat)
  | (Some e, w) =>
      if errors_is e SkipRetry then (Archived, w, 1%nat)
      else match rem with O => (Archived, w, 1%nat) | S rem => let '(r, w, k) := attempts (rest_of clk) rem w in (r, w, S k) end
  end.

(** The state before the [k]th attempt. *)
Fixpoint before (clk : nat -> span) (k : nat) (w : W) : W :=
  match k with O => w | S k => before (rest_of clk) k (try_at (clk 0%nat) w).2 end.

(** All attempts but the last fail with errors that may be retried; the last decides, and archives for an error that forbids
    retries or when no retry is left. *)
Lemma attempts_spec clk rem w : let '(r, w', k) := attempts clk rem w in
  (1 <= k <= S rem)%nat /\ w' = before clk k w /\
  (forall j, (S j < k)%nat -> exists e, (try_at (clk j) (before clk j w)).1 = Some e /\ errors_is e SkipRetry = false) /\
  match (try_at (clk (pred k)) (before clk (pred k) w)).1 with
  | None => r = Completed
  | Some e => r = Archived /\ (errors_is e SkipRetry = true \/ k = S rem)
  end.
Proof.
  revert clk w. induction rem as [|rem IH]; intros clk w; cbn [attempts]; destruct (try_at (clk 0%nat) w) as [[e|] w1] eqn:E.
  2, 4: cbn; rewrite E; cbn; split_and!; [lia|lia|done|intros; lia|done].
  all: destruct (errors_is e SkipRetry) eqn:Hs.
  1, 3: cbn; rewrite E; cbn; split_and!; [lia|lia|done|intros; lia|done|by left].
  - cbn. rewrite E. cbn. split_and!; [lia|lia|done|intros; lia|done|by right].
  - specialize (IH (rest_of clk) w1). destruct (attempts (rest_of clk) rem w1) as [[r w2] k]. destruct IH as (Hk & Hw & Hmid & Hlast).
    assert (Hb : forall j, before clk (S j) w = before (rest_of clk) j w1) by (intros j; cbn [before]; by rewrite E).
    split_and!; [lia|lia|by rewrite Hb| |].
    + intros [|j] Hj; [exists e; cbn [before]; by rewrite E|]. rewrite Hb. apply Hmid. lia.
    + destruct k as [|k]; [lia|]. cbn [pred] in *. rewrite Hb. change (clk (S k)) with (rest_of clk k).
      destruct (try_at (rest_of clk k) (before (rest_of clk) k w1)).1; [|done]. destruct Hlast as (-> & [Hl|Hl]); split; auto.
Qed.

(** An error that forbids retries, at every call and without an effect, ends in the archive, deadline or not. *)
Lemma attempts_skip err clk rem w : (forall w, call w = (Some err, w)) -> errors_is err SkipRetry = true -> (attempts clk rem w).1 = (Archived, w).
Proof.
  intros Hc Hs. revert clk. induction rem as [|rem IH]; intros clk; cbn [attempts]; unfold try_at, timed; rewrite Hc; destruct (lim _) as [l|].
  2, 4: by rewrite Hs.
  all: destruct (l <=? begins (clk 0%nat)), (l <=? ends (clk 0%nat)); rewrite ?Hs; try done.
  all: change (errors_is DeadlineExceeded SkipRetry) with false; cbv iota; specialize (IH (rest_of clk));
    destruct (attempts (rest_of clk) rem w) as [[r w2] k]; exact IH.
Qed.
End Settled.

Section Claims.
  Context {W Opt Conn Queue Mux Sched Info Inner V T : Type} `{HA : Asynq W Opt Conn Queue Mux Sched Info, HL : !AsynqLaws W Opt Conn Queue Mux Sched Info}
    `{HS : !AsynqServer W Opt Conn Queue Mux Sched Info Inner, HSL : !AsynqServerLaws W Opt Conn Queue Mux Sched Info Inner} `{HV : Codec V, HT : Codec T}.

Lemma perform_attempts (i : Inner) (m : Mux) (t : Task) (opts : list Opt) (call : W -> option error * W) (clk : nat -> span) (rem : nat) (w : W) :
  (forall w, route m t w = call w) -> perform i m opts clk rem t w = (attempts (limit opts) call clk rem w).1.
Proof.
  intros Hroute. assert (Ht : forall lim a w, timed lim a (route m t) w = timed lim a call w) by (intros lim a w0; unfold timed; by rewrite Hroute).
  revert clk w. induction rem as [|rem IH]; intros clk w; cbn [attempts]; pose proof (Ht (limit opts (begins (clk 0%nat))) (clk 0%nat) w) as Hr;
    unfold try_at; destruct (timed _ _ call w) as [[e|] w1].
  2, 4: exact (perform_done _ _ _ _ _ _ _ _ Hr).
  all: destruct (errors_is e SkipRetry) eqn:Hs.
  1, 3: exact (perform_skip _ _ _ _ _ _ _ _ _ Hr Hs).
  - exact (perform_last _ _ _ _ _ _ _ _ Hr Hs).
  - rewrite (perform_again _ _ _ _ _ _ _ _ _ Hr Hs), IH. by destruct (attempts (limit opts) call (rest_of clk) rem w1) as [[r w2] k].
Qed.

End Claims.

(** ** A worker in memory *)

Import Jobs.Mem.

(** The deadline given last, if any. *)
Definition mem_limit (opts : list opt) (_ : Z) : option Z := fold_left (fun l o => match o with ODeadline d => Some d | _ => l end) opts None.

Fixpoint mem_perform (m : list (string * handler)) (opts : list opt) (clk : nat -> span) (rem : nat) (t : Task) (w : world) : settled * world :=
  match timed (mem_limit opts (begins (clk 0%nat))) (clk 0%nat) (route m t) w with
  | (None, w) => (Completed, w)
  | (Some e, w) =>
      if errors_is e SkipRetry then (Archived, w) else match rem with O => (Archived, w) | S rem => mem_perform m opts (rest_of clk) rem t w end
  end.

#[export] Instance mem_asynq_server :
  AsynqServer world opt string (list (Task * list opt)) (list (string * handler)) (list (string * (string * Task * list opt))) string (string * Z) := {
  NewInner u k _ := (u, k); connect _ := []; disconnect q := (None, q);
  max_retry opts := fold_left (fun n o => match o with OMaxRetry k => Z.to_nat k | _ => n end) opts 25%nat;
  limit := mem_limit;
  perform _ := mem_perform }.

#[export] Instance mem_asynq_server_laws :
  AsynqServerLaws world opt string (list (Task * list opt)) (list (string * handler)) (list (string * (string * Task * list opt))) string (string * Z).
Proof.
  split; [intros i m opts clk rem..|]; cbn [perform limit mem_asynq_server].
  - intros t w w' Hr. destruct rem; cbn [mem_perform]; by rewrite Hr.
  - intros t w e w' Hr Hs. destruct rem; cbn [mem_perform]; by rewrite Hr, Hs.
  - intros w e w' Hr Hs. cbn [mem_perform]. by rewrite Hr, Hs.
  - intros t w e w' Hr Hs. cbn [mem_perform]. by rewrite Hr, Hs.
  - intros opts d now. exists d. unfold mem_limit. rewrite fold_left_app. cbn. split; [done|lia].
Qed.

(** A handler that fails until the third call; each attempt takes a second, and they begin a minute apart. *)
Definition third_time (p : any) (w : world) : option error * world :=
  (if (2 <=? length w)%nat then None else Some (Err "busy"), w ++ [p]).
Definition every_minute (j : nat) : span := Span (Z.of_nat j * Minute) (Z.of_nat j * Minute + Second).

